(* ===== verification/_CoqProject ===== *)
-Q . S2P
Prelude.v
External.v
Coding.v
Status.v
Support.v
Posix.v
Interface.v
Segment.v
LogWriter.v
ReadSegment.v
LogManager.v
LogSpec.v
MemKv.v
Channel.v
TaskQueue.v
Observer.v
Cluster.v
Node.v
NodeSpec.v
Progress.v
Shutdown.v
Sharing.v
SharingWitnesses.v
Db.v
System.v
Pb.v
StepRpc.v
Reference.v
Durability.v
Crash.v
Process.v
Pipeline.v
Commit.v
Clients.v
Deployment.v
Restarts.v
Power.v
Testing.v
Witnesses.v
KvWitnesses.v
NodeWitnesses.v
RpcWitnesses.v
ProcessWitnesses.v
Overwrite.v
ClientWitnesses.v
DeploymentWitnesses.v
LossWitnesses.v
Votes.v
DestructionWitnesses.v
