(* ===== verification/Prelude.v ===== *)
(** * Verification of consensus-yaraft

    [consensus-yaraft] is a replicated log on top of the Raft state machine [yaraft]: a write-ahead
    log on files, a runtime that drives the state machine from several threads, an RPC layer
    between the members, and a key-value server, [memkv], as its application.

    ** The program and the files that model it

    - [External.v]: what the repository calls and does not contain ([yaraft], [silly], [boost],
      [protobuf], [brpc]), as classes of operations and classes of laws.  [Reference.v] has one
      concrete instance of each; all witnesses are evaluated on them.
    - [Coding.v]: [src/base/coding.cc], [include/consensus/base/coding.h], [src/base/endianness.cc].
      Fixed-width and variable-length integers, on hosts of both byte orders.
    - [Status.v]: the error codes of [include/consensus/base/status.h].
    - [Support.v]: [random.h], [random.cc] (with [std::mt19937] bit by bit), [errno.cc],
      [glog_logger.cc].
    - [Posix.v]: [src/base/env_posix.cc], [src/base/env_util.cc] on a model of the system calls: a
      map from paths to bytes, the directories, open descriptors with their offsets, what has been
      synced, and a script of faults (short transfers, interruptions, errors) that the calls consume.
      [Interface.v]: the abstract classes of [include/consensus/base/env.h] as records of methods,
      and the promise of [Env] that [PosixEnv] keeps.
    - [Segment.v], [LogWriter.v], [ReadSegment.v], [LogManager.v]: [src/wal/].  Names and format of
      the segments, the assembly of a batch in a bounded scratch buffer (stores past its end are
      counted), the reader on arbitrary bytes, the manager with [Write], [Recover], [Sync],
      [Close].
    - [MemKv.v]: [apps/memkv/src/memkv_store.cc]: the tree of nodes on a heap with its pointers.
    - [Channel.v]: [include/consensus/base/simple_channel.h]: channels and barriers on a promise.
    - [TaskQueue.v]: [src/base/background_worker.cc], [src/base/task_queue.cc]: the worker thread as
      a state machine; which element of the queue it gets next is up to the schedule.
    - [Observer.v]: [src/wal_commit_observer.cc].  [Cluster.v]: [src/rpc/], and the memory of the
      requests under way.
    - [Node.v]: one member at run time: [replicated_log_impl.h], [replicated_log.cc],
      [raft_task_executor.{h,cc}], [raft_timer.cc], [ready_flusher.cc], [raft_service.cc].  The
      state is that of the process, [node_step] one action of one thread, a schedule a list of
      actions; a closure refers to the stack frame of the thread that submitted it.
      [Shutdown.v]: the destructor of the member, joining its threads while they go on.
      [Sharing.v]: several logs in one process, and who owns the queue, the timer and the flusher
      that [ReplicatedLogOptions] lets them share.
    - [Db.v]: [apps/memkv/src/db.cc], [memkv_service.cc].  [System.v]: [DB::Bootstrap] and [main],
      with the instances that put [LogManager] under the runtime and the runtime under the
      database.  [Clients.v]: the same requests on threads of their own, interleaved with each
      other and with the threads of the member.
    - [Deployment.v]: the members of a cluster, and the requests of [src/rpc/raft_client.h] between
      them: delivered in any order, any number of times (the client asks for no retries; no
      theorem needs that), and called back at any time.  [Restarts.v]: the same cluster on logs in
      files, with processes that end at any point and start again as [DB::Bootstrap] starts them,
      after any number of starts that fail.
      [Power.v]: the end of a process that takes with it what was not synced.
    - [Testing.v]: [src/base/mock_env.h], [include/consensus/base/testing.h], [src/base/testing.cc],
      [src/wal/wal_bench.cc]: the file in memory, the helpers of the tests, the benchmark.
    - [Pb.v], [StepRpc.v]: the generated code of [raft_server.pb.{h,cc}]: [StatusResponse] with its
      parser that jumps from field to field; [StepRequest], [StepResponse], [StatusRequest] and the
      dispatch of the service to the handlers of [Node.v].

    The specifications and the larger proofs have files of their own: [LogSpec.v] (the log on disk
    as a list of segments), [Durability.v] (the log as a list of entries), [Crash.v] (logs that
    cannot be opened again), [NodeSpec.v] (the invariant of the threads), [Progress.v] (what they
    can always do), [Process.v] (what survives the process), [Pipeline.v] (the way of an entry
    through a member, as an abstract machine that the member simulates), [Commit.v] (what an
    acknowledged write is worth under the laws of Raft).  [Overwrite.v] has a state machine that
    keeps these laws, and a write it loses; [Votes.v] one that votes, and a vote it forgets.
    [Witnesses.v], [KvWitnesses.v], [NodeWitnesses.v], [RpcWitnesses.v], [ProcessWitnesses.v],
    [ClientWitnesses.v], [DeploymentWitnesses.v], [LossWitnesses.v], [SharingWitnesses.v] and
    [DestructionWitnesses.v] apply the theorems to concrete inputs.

    ** How code is modelled

    A method that changes an object is a [Prog E S A]: a function from the state [S] to a result and
    a new state.  A result is [Ok], [Err] with the error code of the [Status] that is returned, or
    [Halt]: the process ends, by a fatal log message, an uncaught exception, undefined behaviour,
    or, for a loop with a budget, because the budget is used up.  That a budget is enough is part
    of the theorems: none of them allows [OutOfFuel].  The budgets are: one turn per entry left for
    [doWrite_loop] (every turn but the last writes one), the length of the buffer for the loops of
    the reader (every turn takes a byte), ten groups for a 64-bit varint, the number of bytes to
    transfer and the length of the fault script for the loops around system calls, the depth of
    the tree for [delete_Node].  Integers are [Z] with the wrap-around of their width written out.

    ** What the theorems show

    - The write-ahead log.  [wal_refines_list], [write_appends], [recover_reads_log]: for every
      sequence of writes, syncs, closes and restarts and every pattern of faults the log is, up to
      the first call that does not return OK, the list of entries written, each restart recovers
      exactly that list, and that call has a failing call of the environment or a full segment
      behind it.
      [log_writer_append], [segment_roundtrip], [reader_safe]: its parts, down to the bytes.
      [torn_write_locks_log], [hard_state_locks_log]: what it does not survive.
    - The runtime.  [write_ok_means_announced] and [wal_follows_history] are invariants under every
      schedule.  [node_safe] says how a process can end: at a step that, in the state it is taken
      in, has one of five faults ([fault]); [member_ends_for_a_reason] says what these faults are
      for a member on the log of the repository.  [waiting_threads_are_served] ranks the work of the
      queue: every step of the worker that serves lessens it, whatever the order of the queue, and
      without work nobody waits; [commit_answers_writer] says what a notification gives the writers
      it covers.  [destruction_is_safe] and [destruction_completes]: a member can be deleted at any
      time its callers have left it, without a deadlock (the bound of 28 steps is the sum of what
      the flusher, the timer and the worker still have to do: 14, 9 and 2, and the three joins).
      [member_recovers] and [entries_on_disk_first] join the runtime with the log: the entries that
      were written are what the next process finds, and they are on disk before anybody hears of
      them.  [flush_ready], [write_closure], [service_closures] give the behaviour of each piece on
      every branch, and [notification_strands_writers] a writer that never gets its answer.
    - From end to end.  [member_refines_pipeline]: whatever the threads do, entries go through a
      member one [Ready] after the other, written before they are announced.  On top of it and of
      the laws of Raft, [acked_write_survives] and [db_write_survives]: what a client was told is
      written is found by the next process, as long as the member has led its term since the call.
      [overwritten_write_is_acked] shows that the condition is needed: an OK says that a commit index
      at or above that of the proposal was announced, not whose entry is there.  And [store_leaves_log_order]
      that the store of a member may part from its log, which [concurrent_store_is_replay] delimits:
      it is always a replay, in the order of application. [delivered_was_written]: in a cluster, an
      acknowledgement of a follower is backed by its log, and [acknowledged_entries_survive]: it
      stays so through every crash and restart of the follower; [member_comes_back]: there are at
      most as many failed starts as faults, and what comes back has every entry the log accepted.
      All of them ask that no [Ready] the member wrote brings both entries and a hard state
      ([plain_ready]): [hard_state_locks_log] shows that one such [Ready] makes every later start
      fail.
      What is lost all the same: [vote_is_cast_twice], a vote, since a hard state without entries
      never reaches the log, so that a member votes twice in one term; [power_failure_takes_all],
      everything that was written, since no call syncs it.
    - Several logs.  [unshared_logs_are_safe]: logs that share nothing do not disturb each other,
      whatever is made, used and deleted in which order; [shared_objects_are_freed_twice]: sharing,
      for which the options are meant, deletes the shared object twice.
    - The queue and the observer.  [task_queue_runs_once], [task_queue_stops], [observer_notify].
    - The database.  [memkv_write], [memkv_delete], [memkv_destroy]: the heap of nodes implements a
      map from paths to data.  [db_write], [db_replays_log], [service_answers],
      [log_encode_injective], [db_write_is_announced], [bootstrap_starts_empty],
      [server_is_reachable].
    - The encodings.  [varint32_roundtrip], [varint_fast_paths], [status_response_roundtrip],
      [append_to_mem_store], [random_stays_well_formed]; [step_call_arrives] and
      [step_response_roundtrip]: what [Deployment.v] delivers as a message is what goes over the
      wire; and the files: [append_writes_all],
      [read_fully_returns_file], [sync_after_append_is_noop], [default_env_opens_by_table].
    - The test support.  [mock_agrees_with_posix]: the file in memory behaves like one on disk.
      [write_test_file], [test_dir_is_removed], [bench_loop_appends].

    ** Assumptions that have a name

    Some places are left to the compiler and the libraries.  Stepping an iterator that was erased is
    undefined ([ErasedIterator], [erased_iterator_steps]); no theorem assumes that it works, those
    that meet it give both outcomes.  A closure keeps the address of a local which is then returned
    by value ([Toolchain], [channel_built_in_place]); [std::async] may defer the flush, which then
    never runs ([async_starts_thread]); a slice may or may not be made from a null pointer
    ([slice_of_null]).  All are parameters, and the theorems that need the lenient answer have it as
    a hypothesis.  Nothing is assumed of the order in which the queue serves its producers.
    What is assumed of [yaraft] is the class [RaftSpec]: a leader
    only appends to its log, the commit index does not fall, a proposal becomes a new entry at the
    end, and a [Ready] brings out every entry once.  Only [Commit.v] and what rests on it use it;
    all other theorems hold for every state machine.  A file keeps what was written when the process
    dies; what a power failure leaves is [os_durable] ([power_failure] of [Power.v]).

    ** Not modelled

    The repository has no code that reads a record of the database back from the log, so there is
    none here: what an entry means is said by [LogEncode] and [GetLengthPrefixedSlice].
    The state machine of [yaraft], the transport of [brpc], [boost::filesystem] beyond its
    documented results, the text of messages, the test cases, the descriptor tables of the generated
    code, [mock_wal.h] (it does not match the class it derives from) and [mock_cluster.h] (its only
    method returns OK).  Of the runtime: the interleaving of the threads of several members on one
    shared queue ([Sharing.v] has the objects and their owners, not the threads).  The rest of the
    sources is declarations, forwarding to the private implementation, and macros of the libraries.
    *)

From Stdlib Require Export Ascii.
From stdpp Require Export prelude gmap strings sorting list.

#[global] Open Scope Z_scope.

(** ** Machine integers and bytes

    An unsigned [w]-bit integer is a [Z] kept in range by the wrap functions below; a C++ byte
    buffer is a list of integers in [0, 255]. *)

Abbreviation bytes := (list Z).

Definition u8 (x : Z) : Z := x `mod` 2 ^ 8.
Definition u32 (x : Z) : Z := x `mod` 2 ^ 32.
Definition u64 (x : Z) : Z := x `mod` 2 ^ 64.

(** The value of a 64-bit pattern read as a two's complement [ssize_t]. *)
Definition s64 (x : Z) : Z :=
  let y := u64 x in if bool_decide (y < 2 ^ 63) then y else y - 2 ^ 64.

Definition is_u8 (x : Z) : Prop := 0 <= x < 2 ^ 8.
Definition is_u32 (x : Z) : Prop := 0 <= x < 2 ^ 32.
Definition is_u64 (x : Z) : Prop := 0 <= x < 2 ^ 64.

Lemma is_u64_u64 x : is_u64 (u64 x).
Proof. apply Z.mod_pos_bound. lia. Qed.

#[global] Instance is_u8_dec x : Decision (is_u8 x).
Proof. unfold is_u8. apply _. Defined.
#[global] Instance is_u32_dec x : Decision (is_u32 x).
Proof. unfold is_u32. apply _. Defined.
#[global] Instance is_u64_dec x : Decision (is_u64 x).
Proof. unfold is_u64. apply _. Defined.

(** The length of a buffer as the [size_t] the code computes with. *)
Definition len {A} (l : list A) : Z := Z.of_nat (length l).

(** ** Programs: state, errors and abnormal ends

    A C++ routine that threads state, returns a [Status] and may abort the process is a
    function from a state to a result and a state.  [Err] is a non-OK status handed to the
    caller, [Halt] an execution that does not return to the caller: [FatalLog] is
    [LOG(FATAL)] or a failed CHECK, [Undefined] a use the C++ standard leaves undefined,
    [Uncaught] an exception nobody catches, which ends the process, [OutOfFuel] a loop that was
    still running when the model's iteration budget was spent. *)

Inductive halt := FatalLog | Undefined | Uncaught | OutOfFuel.

#[global] Instance halt_eq_dec : EqDecision halt.
Proof. solve_decision. Defined.

Inductive result (E A : Type) :=
  | Ok (a : A)
  | Err (e : E)
  | Halt (h : halt).
Arguments Ok {E A} a.
Arguments Err {E A} e.
Arguments Halt {E A} h.

Definition Prog (E S A : Type) : Type := S -> result E A * S.

#[global] Instance prog_ret {E S} : MRet (Prog E S) := fun A a s => (Ok a, s).

#[global] Instance prog_bind {E S} : MBind (Prog E S) := fun A B k m s =>
  match m s with
  | (Ok a, s') => k a s'
  | (Err e, s') => (Err e, s')
  | (Halt h, s') => (Halt h, s')
  end.

Definition fail {E S A} (e : E) : Prog E S A := fun s => (Err e, s).
Definition halt_with {E S A} (h : halt) : Prog E S A := fun s => (Halt h, s).
Definition gets {E S A} (f : S -> A) : Prog E S A := fun s => (Ok (f s), s).
Definition modify {E S} (f : S -> S) : Prog E S unit := fun s => (Ok tt, f s).

(** [FATAL_NOT_OK(m)]: a bad status ends the process. *)
Definition fatal_not_ok {E S A} (m : Prog E S A) : Prog E S A := fun s =>
  match m s with
  | (Err _, s') => (Halt FatalLog, s')
  | rs => rs
  end.

(** Run a routine on a component of the state. *)
Definition zoom {E S T A} (get : S -> T) (put : T -> S -> S) (m : Prog E T A) : Prog E S A :=
  fun s => let '(r, t) := m (get s) in (r, put t s).

(** *** Reasoning about programs: a weakest precondition over the result and the final state *)

Definition wp {E S A} (m : Prog E S A) (s : S) (Q : result E A -> S -> Prop) : Prop :=
  Q (fst (m s)) (snd (m s)).

Arguments wp : simpl never.

Section wp.
Context {E S : Type}.

Lemma wp_ret {A} (a : A) (s : S) (Q : result E A -> S -> Prop) :
  Q (Ok a) s -> wp (mret a) s Q.
Proof. done. Qed.

Lemma wp_fail {A} e (s : S) (Q : result E A -> S -> Prop) : Q (Err e) s -> wp (fail e) s Q.
Proof. done. Qed.

Lemma wp_halt {A} h (s : S) (Q : result E A -> S -> Prop) :
  Q (Halt h) s -> wp (halt_with h) s Q.
Proof. done. Qed.

Lemma wp_gets {A} (f : S -> A) s (Q : result E A -> S -> Prop) : Q (Ok (f s)) s -> wp (gets f) s Q.
Proof. done. Qed.

Lemma wp_modify (f : S -> S) s (Q : result E unit -> S -> Prop) :
  Q (Ok tt) (f s) -> wp (modify f) s Q.
Proof. done. Qed.

Lemma wp_mono {A} (m : Prog E S A) s (P Q : result E A -> S -> Prop) :
  wp m s P -> (forall r s', P r s' -> Q r s') -> wp m s Q.
Proof. unfold wp. auto. Qed.

Lemma wp_bind {A B} (m : Prog E S A) (k : A -> Prog E S B) s (Q : result E B -> S -> Prop) :
  wp m s (fun r s' => match r with
                      | Ok a => wp (k a) s' Q
                      | Err e => Q (Err e) s'
                      | Halt h => Q (Halt h) s'
                      end) ->
  wp (m ≫= k) s Q.
Proof. unfold wp, mbind, prog_bind. by destruct (m s) as [[] s']. Qed.

(** Two statements proved as one. *)
Lemma wp_assoc {A B C} (m : Prog E S A) (k : A -> Prog E S B) (l : B -> Prog E S C) s (Q : result E C -> S -> Prop) :
  wp ((m ≫= k) ≫= l) s Q <-> wp (m ≫= fun a => k a ≫= l) s Q.
Proof. unfold wp, mbind, prog_bind. by destruct (m s) as [[] s']. Qed.

Lemma wp_fatal {A} (m : Prog E S A) s (Q : result E A -> S -> Prop) :
  wp m s (fun r s' => match r with
                      | Err _ => Q (Halt FatalLog) s'
                      | r => Q r s'
                      end) ->
  wp (fatal_not_ok m) s Q.
Proof. unfold wp, fatal_not_ok. by destruct (m s) as [[] s']. Qed.

Lemma wp_zoom {T A} (get : S -> T) put (m : Prog E T A) s (Q : result E A -> S -> Prop) :
  wp m (get s) (fun r t => Q r (put t s)) -> wp (zoom get put m) s Q.
Proof. unfold wp, zoom. by destruct (m (get s)). Qed.

(** A precondition is read back as a fact on a concrete run. *)
Lemma wp_run {A} (m : Prog E S A) s (Q : result E A -> S -> Prop) r s' :
  wp m s Q -> m s = (r, s') -> Q r s'.
Proof. unfold wp. intros H Hm. by rewrite Hm in H. Qed.

Lemma wp_eq {A} (m : Prog E S A) s r s' (Q : result E A -> S -> Prop) :
  m s = (r, s') -> Q r s' -> wp m s Q.
Proof. unfold wp. by intros ->. Qed.

(** Runs of a sequence, by hand. *)
Lemma run_bind_ok {A B} (m : Prog E S A) (k : A -> Prog E S B) s s' a :
  m s = (Ok a, s') -> (m ≫= k) s = k a s'.
Proof. unfold mbind, prog_bind. by intros ->. Qed.

Lemma run_bind_err {A B} (m : Prog E S A) (k : A -> Prog E S B) s s' e :
  m s = (Err e, s') -> (m ≫= k) s = (Err e, s').
Proof. unfold mbind, prog_bind. by intros ->. Qed.
End wp.

(** ** Programs that keep to a relation

    Whatever its result, the program leads from a state to one related to it.  With a preorder the
    property is checked statement by statement. *)

Definition preserves {E S A} (R : S -> S -> Prop) (p : Prog E S A) : Prop := forall s, R s (snd (p s)).

Section preserves.
Context {E S : Type} (R : S -> S -> Prop) `{!PreOrder R}.

Lemma preserves_ret {A} (a : A) : preserves R (mret a : Prog E S A).
Proof. intros s. cbn. reflexivity. Qed.
Lemma preserves_fail {A} (e : E) : preserves R (fail e : Prog E S A).
Proof. intros s. cbn. reflexivity. Qed.
Lemma preserves_gets {A} (f : S -> A) : preserves R (gets f : Prog E S A).
Proof. intros s. cbn. reflexivity. Qed.
Lemma preserves_pure {A} (r : result E A) : preserves R (fun s => (r, s)).
Proof. intros s. cbn. reflexivity. Qed.
Lemma preserves_modify f : (forall s, R s (f s)) -> preserves R (modify f : Prog E S unit).
Proof. by intros Hf s. Qed.
Lemma preserves_bind {A B} (p : Prog E S A) (k : A -> Prog E S B) :
  preserves R p -> (forall a, preserves R (k a)) -> preserves R (p ≫= k).
Proof.
  intros Hp Hk s. specialize (Hp s). unfold mbind, prog_bind. destruct (p s) as [[a|e|h] s1]; [|done|done].
  etrans; [exact Hp|apply Hk].
Qed.
Lemma preserves_zoom {T A} (get : S -> T) put (p : Prog E T A) :
  (forall t s, R s (put t s)) -> preserves R (zoom get put p).
Proof. intros Hput s. unfold zoom. destruct (p (get s)). apply Hput. Qed.
Lemma preserves_fatal {A} (p : Prog E S A) : preserves R p -> preserves R (fatal_not_ok p).
Proof. intros Hp s. specialize (Hp s). unfold fatal_not_ok. by destruct (p s) as [[] ?]. Qed.
End preserves.

Create HintDb preserves.
#[export] Hint Resolve preserves_ret preserves_fail preserves_gets preserves_pure : preserves.

(** Goes through a program statement by statement; what is left are the statements that change the
    state. *)
Ltac preserves_tac :=
  repeat first
    [ solve [eauto with preserves typeclass_instances]
    | apply preserves_modify; done
    | apply preserves_zoom; done
    | apply preserves_fatal
    | apply preserves_bind; [apply _| |intros ?]
    | case_match ].

(** One step of symbolic execution of a goal [wp m s Q]. *)
Ltac wp_step :=
  lazymatch goal with
  | |- wp (_ ≫= _) _ _ => apply wp_bind
  | |- wp (mret _) _ _ => apply wp_ret
  | |- wp (fail _) _ _ => apply wp_fail
  | |- wp (halt_with _) _ _ => apply wp_halt
  | |- wp (gets _) _ _ => apply wp_gets
  | |- wp (modify _) _ _ => apply wp_modify
  | |- wp (fatal_not_ok _) _ _ => apply wp_fatal
  | |- wp (zoom _ _ _) _ _ => apply wp_zoom
  end.
Ltac wp_steps := repeat (wp_step; cbv beta match; cbn [fst snd]).

(** ** [std::map]: an association list kept in increasing key order *)

Section omap.
Context {K V : Type} (lt : K -> K -> bool).

(** [m[k] = v]. *)
Fixpoint omap_insert (k : K) (v : V) (m : list (K * V)) : list (K * V) :=
  match m with
  | [] => [(k, v)]
  | (k', v') :: m' =>
      if lt k k' then (k, v) :: m
      else if lt k' k then (k', v') :: omap_insert k v m'
      else (k', v) :: m'
  end.

(** [m.find(k)]. *)
Fixpoint omap_find (k : K) (m : list (K * V)) : option V :=
  match m with
  | [] => None
  | (k', v') :: m' =>
      if lt k k' then None else if lt k' k then omap_find k m' else Some v'
  end.
End omap.

(** Maps with integer keys. *)
Abbreviation zmap V := (list (Z * V)).
Definition zmap_insert {V} : Z -> V -> zmap V -> zmap V := omap_insert Z.ltb.
Definition zmap_find {V} : Z -> zmap V -> option V := omap_find Z.ltb.
Definition zmap_sorted {V} (m : zmap V) : Prop := StronglySorted Z.lt m.*1.

Lemma zmap_insert_keys {V} k v (m : zmap V) x :
  x ∈ (zmap_insert k v m).*1 <-> x = k \/ x ∈ m.*1.
Proof.
  unfold zmap_insert. induction m as [|[k' v'] m IH]; simpl.
  - rewrite !elem_of_cons. set_solver.
  - destruct (Z.ltb_spec k k'); [set_solver|].
    destruct (Z.ltb_spec k' k); [set_solver|].
    assert (k = k') as -> by lia. set_solver.
Qed.

Lemma zmap_insert_sorted {V} k v (m : zmap V) : zmap_sorted m -> zmap_sorted (zmap_insert k v m).
Proof.
  unfold zmap_sorted. induction m as [|[k' v'] m IH]; simpl; intros Hs.
  - repeat constructor.
  - apply StronglySorted_inv in Hs as [Hs Hall]. rewrite Forall_forall in Hall.
    unfold zmap_insert in *. simpl. destruct (Z.ltb_spec k k'); simpl.
    + constructor; [by constructor; [|apply Forall_forall]|].
      apply Forall_forall. intros x [->|Hx]%elem_of_cons; [done|]. specialize (Hall x Hx). lia.
    + destruct (Z.ltb_spec k' k); simpl.
      * constructor; [by apply IH|]. apply Forall_forall. intros x Hx.
        apply (zmap_insert_keys k v m) in Hx as [->|Hx]; [done|by apply Hall].
      * constructor; [done|]. by apply Forall_forall.
Qed.

Lemma zmap_find_insert {V} k v (m : zmap V) x :
  zmap_find x (zmap_insert k v m) = if decide (x = k) then Some v else zmap_find x m.
Proof.
  unfold zmap_insert, zmap_find. induction m as [|[k' v'] m IH]; simpl.
  - repeat case_match; simplify_eq; try done; lia.
  - repeat (case_match; simpl; simplify_eq; try lia; try done).
Qed.

Lemma zmap_insert_elem {V} k v (m : zmap V) k' v' :
  zmap_sorted m ->
  (k', v') ∈ zmap_insert k v m <-> (k' = k /\ v' = v) \/ (k' <> k /\ (k', v') ∈ m).
Proof.
  unfold zmap_sorted, zmap_insert. induction m as [|[k0 v0] m IH]; simpl; intros Hs.
  { rewrite elem_of_cons. set_solver. }
  apply StronglySorted_inv in Hs as [Hs Hall]. rewrite Forall_forall in Hall.
  assert (forall x y, (x, y) ∈ m -> k0 < x) as Hlt.
  { intros x y Hx. apply Hall. by apply (list_elem_of_fmap_2 fst) in Hx. }
  destruct (Z.ltb_spec k k0); [|destruct (Z.ltb_spec k0 k)]; rewrite !elem_of_cons.
  - split; [|naive_solver]. intros [?|[?|Hm]]; [naive_solver|right; simplify_eq; split; [lia|by left]|].
    specialize (Hlt _ _ Hm). right. split; [lia|by right].
  - rewrite IH by done. split; [|naive_solver]. intros [?|?]; [|naive_solver].
    right. simplify_eq. split; [lia|by left].
  - assert (k = k0) as -> by lia. split; [|naive_solver].
    intros [?|Hm]; [naive_solver|]. specialize (Hlt _ _ Hm). right. split; [lia|by right].
Qed.

(** A sorted map is determined by its elements. *)
Lemma zmap_ext {V} (m1 m2 : zmap V) :
  zmap_sorted m1 -> zmap_sorted m2 -> (forall x, x ∈ m1 <-> x ∈ m2) -> m1 = m2.
Proof.
  unfold zmap_sorted. revert m2. induction m1 as [|[k1 v1] m1 IH]; intros [|[k2 v2] m2] H1 H2 Heq.
  - done.
  - destruct (not_elem_of_nil (k2, v2)). apply Heq. by left.
  - destruct (not_elem_of_nil (k1, v1)). apply Heq. by left.
  - apply StronglySorted_inv in H1 as [H1 A1]. apply StronglySorted_inv in H2 as [H2 A2].
    rewrite Forall_forall in A1, A2.
    assert (forall x, x ∈ m1 -> k1 < fst x) as L1 by (intros x Hx; apply A1; by apply list_elem_of_fmap_2).
    assert (forall x, x ∈ m2 -> k2 < fst x) as L2 by (intros x Hx; apply A2; by apply list_elem_of_fmap_2).
    assert ((k1, v1) = (k2, v2)) as He.
    { pose proof (proj1 (Heq (k1, v1)) ltac:(by left)) as E1.
      pose proof (proj2 (Heq (k2, v2)) ltac:(by left)) as E2.
      apply elem_of_cons in E1 as [?|E1]; [done|]. apply elem_of_cons in E2 as [?|E2]; [done|].
      specialize (L1 _ E2). specialize (L2 _ E1). simpl in *. lia. }
    injection He as <- <-. f_equal. apply IH; [done..|]. intros x. specialize (Heq x).
    rewrite !elem_of_cons in Heq. split; intros Hx.
    + destruct (proj1 Heq ltac:(by right)) as [->|?]; [|done]. specialize (L1 _ Hx). simpl in L1. lia.
    + destruct (proj2 Heq ltac:(by right)) as [->|?]; [|done]. specialize (L2 _ Hx). simpl in L2. lia.
Qed.

(** ** Filters *)

Lemma filter_all {A} (P : A -> Prop) `{!forall x, Decision (P x)} l : Forall P l -> filter P l = l.
Proof.
  induction 1 as [|x l Hx _ IH]; [done|]. rewrite filter_cons_True by done. by rewrite IH.
Qed.

Lemma sorted_filter {A} (R : A -> A -> Prop) (P : A -> Prop) `{!forall x, Decision (P x)} l :
  StronglySorted R l -> StronglySorted R (filter P l).
Proof.
  induction 1 as [|x l Hs IH Hx]; [constructor|]. rewrite filter_cons. case_decide; [|done].
  constructor; [done|]. rewrite Forall_forall in *. intros y Hy.
  apply list_elem_of_filter in Hy as [_ ?]. auto.
Qed.

(** ** Arithmetic of bit operations *)

Lemma lor_shiftl_add a b k : 0 <= k -> 0 <= a < 2 ^ k -> Z.lor a (b ≪ k) = a + b * 2 ^ k.
Proof.
  intros Hk Ha. rewrite <- Z.shiftl_mul_pow2 by done.
  assert (Z.land a (b ≪ k) = 0) as Hl.
  { apply Z.bits_inj'. intros n Hn. rewrite Z.land_spec, Z.bits_0.
    destruct (decide (n < k)).
    - rewrite (Z.shiftl_spec_low b) by lia. by rewrite andb_false_r.
    - rewrite <- (Z.mod_small a (2 ^ k)), Z.mod_pow2_bits_high by lia. done. }
  pose proof (Z.add_lor_land a (b ≪ k)). lia.
Qed.

Lemma land_low a k : 0 <= k -> Z.land a (2 ^ k - 1) = a `mod` 2 ^ k.
Proof. intros. rewrite <- Z.land_ones by done. f_equal. rewrite Z.ones_equiv. lia. Qed.

Lemma land_127 a : Z.land a 127 = a `mod` 128.
Proof. apply (land_low a 7). lia. Qed.

Lemma land_255 a : Z.land a 0xff = a `mod` 256.
Proof. apply (land_low a 8). lia. Qed.

Lemma lor_land_128 v : Z.lor (Z.land v 127) 128 = 128 + v `mod` 128.
Proof.
  rewrite land_127. change (Z.lor (v `mod` 128) (1 ≪ 7) = 128 + v `mod` 128).
  rewrite lor_shiftl_add by (try apply Z.mod_pos_bound; lia). lia.
Qed.

Lemma u8_lor_128 v : u8 (Z.lor v 128) = 128 + v `mod` 128.
Proof.
  unfold u8. rewrite <- land_low, <- lor_land_128 by lia.
  change (2 ^ 8 - 1) with (Z.lor 127 128). apply Z.bits_inj'. intros n _.
  rewrite !Z.land_spec, !Z.lor_spec, Z.land_spec.
  by destruct (Z.testbit v n), (Z.testbit 127 n), (Z.testbit 128 n).
Qed.

(** The continuation bit of a varint byte. *)
Lemma land_128_low b : 0 <= b < 128 -> Z.land b 128 = 0.
Proof.
  intros Hb. apply Z.bits_inj'. intros n Hn. rewrite Z.land_spec, Z.bits_0.
  change 128 with (2 ^ 7). rewrite Z.pow2_bits_eqb by lia. destruct (Z.eqb_spec 7 n) as [<-|].
  - rewrite <- (Z.mod_small b (2 ^ 7)) by lia. by rewrite Z.mod_pow2_bits_high by lia.
  - apply andb_false_r.
Qed.

Lemma land_128_high b : 0 <= b < 128 -> Z.land (128 + b) 128 = 128.
Proof.
  intros Hb. replace (128 + b) with (Z.lor b (1 ≪ 7)) by (rewrite lor_shiftl_add; lia).
  by rewrite Z.land_lor_distr_l, land_128_low.
Qed.

Lemma shiftr_7 v : v ≫ 7 = v / 128.
Proof. by rewrite Z.shiftr_div_pow2 by lia. Qed.

(** ** Lengths *)

Lemma len_nil {A} : len (@nil A) = 0.
Proof. done. Qed.
Lemma len_cons {A} (x : A) l : len (x :: l) = 1 + len l.
Proof. unfold len. simpl. lia. Qed.
Lemma len_app {A} (l1 l2 : list A) : len (l1 ++ l2) = len l1 + len l2.
Proof. unfold len. rewrite length_app. lia. Qed.
Lemma len_nonneg {A} (l : list A) : 0 <= len l.
Proof. unfold len. lia. Qed.
Lemma len_to_nat {A} (l : list A) : Z.to_nat (len l) = length l.
Proof. unfold len. lia. Qed.
Lemma len_replicate {A} n (x : A) : len (replicate n x) = Z.of_nat n.
Proof. unfold len. by rewrite length_replicate. Qed.

Create HintDb len.
#[export] Hint Rewrite @len_nil @len_cons @len_app @len_replicate : len.

(** A prefix and what follows it, cut at the prefix's length. *)
Lemma take_len_app {A} (l1 l2 : list A) : take (Z.to_nat (len l1)) (l1 ++ l2) = l1.
Proof. rewrite len_to_nat. apply take_app_length. Qed.
Lemma drop_len_app {A} (l1 l2 : list A) : drop (Z.to_nat (len l1)) (l1 ++ l2) = l2.
Proof. rewrite len_to_nat. apply drop_app_length. Qed.
