(* ===== verification/External.v ===== *)
(** * Code the repository calls but does not contain

    The submodules ([yaraft], [brpc]) and the installed libraries ([silly], [boost],
    [protobuf]) are not part of the repository.  Each is a class of operations, the
    parameters of the model, and a class of laws that records the documented behaviour the
    code relies on.  A theorem names the laws it uses; [Reference.v] gives one concrete
    instance of every class, on which the witnesses are evaluated. *)

From S2P Require Import Prelude.

(** ** The host: byte order of an integer in memory *)

Class Host := host_little_endian : bool.

(** ** [silly::Slice]

    A slice is the list of bytes it points at. *)

Class SliceLib := {
  (** [s.Skip(n)]. *)
  slice_skip : Z -> bytes -> bytes;
  (** [a.Compare(b)]. *)
  slice_compare : bytes -> bytes -> Z;
}.

Class SliceSpec (SL : SliceLib) : Prop := {
  slice_skip_drop n s : 0 <= n <= len s -> slice_skip n s = drop (Z.to_nat n) s;
  slice_compare_eq a b : slice_compare a b = 0 <-> a = b;
}.

(** ** [boost::crc_32_type]: checksum of a block of bytes, a 32-bit value *)

Class Crc32 := crc32 : bytes -> Z.

Class Crc32Spec (C : Crc32) : Prop := { crc32_u32 bs : is_u32 (crc32 bs) }.

(** ** Protocol buffer messages

    [SerializeToArray p (ByteSize m)] writes [ByteSize m] bytes; [ParseFromArray] is total: it
    is the state of a fresh message after the call, whose boolean result the code ignores. *)

Class Proto (M : Type) := {
  ByteSize : M -> Z;
  SerializeToArray : M -> bytes;
  ParseFromArray : bytes -> M;
}.

Class ProtoSpec (M : Type) (P : Proto M) : Prop := {
  ByteSize_len m : ByteSize m = len (SerializeToArray m);
  Serialize_u8 m : Forall is_u8 (SerializeToArray m);
  Parse_Serialize m : ParseFromArray (SerializeToArray m) = m;
}.

(** ** The messages of [yaraft] the write-ahead log stores *)

Class YaraftPb := {
  Entry : Type;
  HardState : Type;
  entry_proto :: Proto Entry;
  hard_state_proto :: Proto HardState;
  (** [e.index()], [e.term()], both [uint64]. *)
  entry_index : Entry -> Z;
  entry_term : Entry -> Z;
  (** A default constructed entry. *)
  new_Entry : Entry;
  (** [hs.commit()] when [hs.has_commit()]. *)
  hard_state_commit : HardState -> option Z;
}.

Class YaraftPbSpec (Y : YaraftPb) : Prop := {
  entry_proto_spec :: ProtoSpec Entry entry_proto;
  hard_state_proto_spec :: ProtoSpec HardState hard_state_proto;
}.

(** ** [yaraft::MemoryStorage]

    [ms_entries] is [TEST_Entries()], a reference through which the code also pops entries:
    [ms_with_entries] is the store after such a change. *)

Class MemStoreLib (Y : YaraftPb) := {
  MemoryStorage : Type;
  new_MemoryStorage : MemoryStorage;
  ms_Append : MemoryStorage -> Entry -> MemoryStorage;
  ms_SetHardState : MemoryStorage -> HardState -> MemoryStorage;
  ms_entries : MemoryStorage -> list Entry;
  ms_with_entries : list Entry -> MemoryStorage -> MemoryStorage;
}.

(** What the log manager relies on when it truncates the store before it appends. *)
Class MemStoreSpec {Y : YaraftPb} (M : MemStoreLib Y) : Prop := {
  ms_entries_with l m : ms_entries (ms_with_entries l m) = l;
  ms_with_entries_id m : ms_with_entries (ms_entries m) m = m;
  (** [Append] of an entry past the last one puts it at the end. *)
  ms_Append_entries m e :
    (forall e', last (ms_entries m) = Some e' -> entry_index e' < entry_index e) ->
    ms_entries (ms_Append m e) = ms_entries m ++ [e];
}.

(** ** The state machine of [yaraft]: [RawNode], [Ready] and the messages between members *)

Class YaraftMsg := {
  Message : Type;
  (** [m.to()]. *)
  message_to : Message -> Z;
  (** What else a [Ready] holds, which only [yaraft] reads. *)
  ReadyRest : Type;
}.

Record Ready {Y : YaraftPb} {MSG : YaraftMsg} := MkReady {
  currentLeader : Z;
  messages : list Message;
  hardState : option HardState;
  entries : list Entry;
  ready_rest : ReadyRest;
}.

(** The codes of [yaraft::Error] the repository names; the others carry their number. *)
Inductive yaraft_error := StepLocalMsg | StepPeerNotFound | OtherYaraftError (code : Z).

(** The fields of [yaraft::Config] the repository sets, less the pointer to the storage. *)
Record Config := MkConfig {
  conf_electionTick : Z;
  conf_heartbeatTick : Z;
  conf_id : Z;
  conf_peers : list Z;
}.

(** A node holds a pointer to its storage, so its operations act on both. *)
Class RaftLib {Y : YaraftPb} (M : MemStoreLib Y) (MSG : YaraftMsg) := {
  RawNode : Type;
  new_RawNode : Config -> MemoryStorage -> RawNode * MemoryStorage;
  rn_Id : RawNode -> Z;
  rn_IsLeader : RawNode -> bool;
  rn_LeaderHint : RawNode -> Z;
  rn_CurrentTerm : RawNode -> Z;
  rn_LastIndex : RawNode * MemoryStorage -> Z;
  rn_Tick : RawNode * MemoryStorage -> RawNode * MemoryStorage;
  (** [None] is an OK status. *)
  rn_Step : Message -> RawNode * MemoryStorage -> option yaraft_error * (RawNode * MemoryStorage);
  rn_Propose : bytes -> RawNode * MemoryStorage -> option yaraft_error * (RawNode * MemoryStorage);
  (** [None] is a null pointer. *)
  rn_GetReady : RawNode * MemoryStorage -> option Ready * (RawNode * MemoryStorage);
  (** [rd->Advance(memstore)]. *)
  rd_Advance : Ready -> MemoryStorage -> MemoryStorage;
}.

(** ** What Raft promises of its log

    The view of a node that the laws need: the data of an entry, the entries that no [Ready] has
    brought out yet, the index of the last entry and the commit index. *)

Class RaftView {Y : YaraftPb} {M : MemStoreLib Y} {MSG : YaraftMsg} (RAFT : RaftLib M MSG) := {
  (** [e.data()]. *)
  entry_data : Entry -> bytes;
  raft_unstable : RawNode -> list Entry;
  raft_last : RawNode -> Z;
  raft_committed : RawNode -> Z;
}.

(** A log that is only appended to, and a commit index that does not fall. *)
Definition raft_appends {Y : YaraftPb} {M : MemStoreLib Y} {MSG : YaraftMsg} {RAFT : RaftLib M MSG} {V : RaftView RAFT}
    (s s' : RawNode) : Prop :=
  raft_committed s <= raft_committed s' /\ raft_last s <= raft_last s' /\
  exists ext, raft_unstable s' = raft_unstable s ++ ext /\ Forall (fun e => raft_last s < entry_index e) ext.

Class RaftSpec {Y : YaraftPb} {M : MemStoreLib Y} {MSG : YaraftMsg} (RAFT : RaftLib M MSG) (V : RaftView RAFT) : Prop := {
  (** A clock never takes an entry away. *)
  rn_Tick_appends s : raft_appends (fst s) (fst (rn_Tick s));
  (** The commit index increases monotonically. *)
  rn_Step_committed msg s : raft_committed (fst s) <= raft_committed (fst (snd (rn_Step msg s)));
  (** Leader Append-Only: a leader never overwrites or deletes entries of its log. *)
  rn_Step_leader msg s : let s' := fst (snd (rn_Step msg s)) in
    rn_IsLeader (fst s) = true -> rn_IsLeader s' = true -> rn_CurrentTerm s' = rn_CurrentTerm (fst s) -> raft_appends (fst s) s';
  rn_Propose_refused log s e s' : rn_Propose log s = (Some e, s') -> raft_appends (fst s) (fst s');
  (** A leader appends the command as a new entry at the end of its log, which is not committed. *)
  rn_Propose_accepted log s s' : rn_IsLeader (fst s) = true -> rn_Propose log s = (None, s') ->
    exists e, entry_data e = log /\ entry_index e = rn_LastIndex s' /\ raft_last (fst s') = rn_LastIndex s' /\
      raft_unstable (fst s') = raft_unstable (fst s) ++ [e] /\ raft_last (fst s) < entry_index e /\
      raft_committed (fst s) < entry_index e /\ raft_committed (fst s) <= raft_committed (fst s');
  (** A [Ready] brings out the entries to be written to stable storage, each once, and a commit
      index the node has reached. *)
  rn_GetReady_some s rd s' : rn_GetReady s = (Some rd, s') ->
    entries rd = raft_unstable (fst s) /\ raft_unstable (fst s') = [] /\ raft_last (fst s) <= raft_last (fst s') /\
    raft_committed (fst s) <= raft_committed (fst s') /\
    forall c, (hs ← hardState rd; hard_state_commit hs) = Some c -> c <= raft_committed (fst s);
  rn_GetReady_none s s' : rn_GetReady s = (None, s') -> raft_appends (fst s) (fst s');
}.

(** [Append] of an entry deletes at most the entries from its index on. *)
Class MemStoreAppend {Y : YaraftPb} (M : MemStoreLib Y) : Prop := {
  ms_Append_new m e : e ∈ ms_entries (ms_Append m e);
  ms_Append_kept m e e' : e' ∈ ms_entries m -> entry_index e' < entry_index e -> e' ∈ ms_entries (ms_Append m e);
}.
