(* ===== verification/Coding.v ===== *)
(** * Integer and string coding: [src/src/base/coding.cc], [include/consensus/base/coding.h]

    Fixed-width little-endian integers, varints and length-prefixed strings.  An encoder is
    the list of bytes it stores at its destination; a decoder takes the bytes between [p] and
    [limit] and returns the value with the bytes that follow it, [None] for a NULL pointer. *)

From S2P Require Import Prelude External.

(** ** Definitions *)

Section coding.
Context {HOST : Host}.

(** [endianness.cc]: the flag has the byte order protobuf finds for the host. *)
Definition FLAGS_is_little_endian : bool :=
  if host_little_endian then true else false.

(** The [n] bytes of [v] from the least significant one, and the value of such bytes. *)
Fixpoint le_bytes (n : nat) (v : Z) : bytes :=
  match n with
  | O => []
  | S n => Z.land v 0xff :: le_bytes n (v ≫ 8)
  end.

Fixpoint le_value (bs : bytes) : Z :=
  match bs with
  | [] => 0
  | b :: bs => b + 2 ^ 8 * le_value bs
  end.

(** [memcpy] between an [n]-byte integer and a buffer keeps the host's byte order. *)
Definition memcpy_of_uint (n : nat) (v : Z) : bytes :=
  if host_little_endian then le_bytes n v else reverse (le_bytes n v).

Definition memcpy_to_uint (bs : bytes) : Z :=
  le_value (if host_little_endian then bs else reverse bs).

Definition EncodeFixed32 (value : Z) : bytes :=
  if FLAGS_is_little_endian then memcpy_of_uint 4 value
  else [Z.land value 0xff; Z.land (value ≫ 8) 0xff; Z.land (value ≫ 16) 0xff;
        Z.land (value ≫ 24) 0xff].

Definition EncodeFixed64 (value : Z) : bytes :=
  if FLAGS_is_little_endian then memcpy_of_uint 8 value
  else [Z.land value 0xff; Z.land (value ≫ 8) 0xff; Z.land (value ≫ 16) 0xff;
        Z.land (value ≫ 24) 0xff; Z.land (value ≫ 32) 0xff; Z.land (value ≫ 40) 0xff;
        Z.land (value ≫ 48) 0xff; Z.land (value ≫ 56) 0xff].

Definition PutFixed32 (dst : bytes) (value : Z) : bytes := dst ++ EncodeFixed32 value.
Definition PutFixed64 (dst : bytes) (value : Z) : bytes := dst ++ EncodeFixed64 value.

(** The decoders do no bounds checking: [None] is a read past the end of the buffer. *)
Definition DecodeFixed32 (ptr : bytes) : option Z :=
  match ptr with
  | b0 :: b1 :: b2 :: b3 :: _ =>
      Some (if FLAGS_is_little_endian then memcpy_to_uint [b0; b1; b2; b3]
            else Z.lor (Z.lor (Z.lor b0 (u32 (b1 ≪ 8))) (u32 (b2 ≪ 16))) (u32 (b3 ≪ 24)))
  | _ => None
  end.

Definition DecodeFixed64 (ptr : bytes) : option Z :=
  if FLAGS_is_little_endian then
    if bool_decide (8 <= len ptr) then Some (memcpy_to_uint (take 8 ptr)) else None
  else
    lo ← DecodeFixed32 ptr;
    hi ← DecodeFixed32 (drop 4 ptr);
    Some (Z.lor (u64 (hi ≪ 32)) lo).

(** [*(ptr++) = x] on an [unsigned char*] keeps the low eight bits. *)
Definition EncodeVarint32 (v : Z) : bytes :=
  let B := 128 in
  if v <? 1 ≪ 7 then [u8 v]
  else if v <? 1 ≪ 14 then [u8 (Z.lor v B); u8 (v ≫ 7)]
  else if v <? 1 ≪ 21 then [u8 (Z.lor v B); u8 (Z.lor (v ≫ 7) B); u8 (v ≫ 14)]
  else if v <? 1 ≪ 28 then
    [u8 (Z.lor v B); u8 (Z.lor (v ≫ 7) B); u8 (Z.lor (v ≫ 14) B); u8 (v ≫ 21)]
  else
    [u8 (Z.lor v B); u8 (Z.lor (v ≫ 7) B); u8 (Z.lor (v ≫ 14) B); u8 (Z.lor (v ≫ 21) B);
     u8 (v ≫ 28)].

Definition PutVarint32 (dst : bytes) (v : Z) : bytes := dst ++ EncodeVarint32 v.

(** The loop drops seven bits per turn: a 64-bit value needs at most ten turns. *)
Fixpoint EncodeVarint64_loop (fuel : nat) (v : Z) : bytes :=
  match fuel with
  | O => []
  | S fuel =>
      if v >=? 128 then Z.lor (Z.land v (128 - 1)) 128 :: EncodeVarint64_loop fuel (v ≫ 7)
      else [u8 v]
  end.

Definition EncodeVarint64 (v : Z) : bytes := EncodeVarint64_loop 10 v.

Definition PutVarint64 (dst : bytes) (v : Z) : bytes := dst ++ EncodeVarint64 v.

Definition PutLengthPrefixedSlice (dst : bytes) (value : bytes) : bytes :=
  PutVarint32 dst (u32 (len value)) ++ value.

Fixpoint VarintLength_loop (fuel : nat) (v : Z) (l : Z) : Z :=
  match fuel with
  | O => l
  | S fuel => if v >=? 128 then VarintLength_loop fuel (v ≫ 7) (l + 1) else l
  end.

Definition VarintLength (v : Z) : Z := VarintLength_loop 10 v 1.

(** The loop shared by the two decoders, for a [w]-bit result and shifts up to [maxshift]. *)
Fixpoint GetVarint_loop (w maxshift shift result : Z) (p : bytes) : option (Z * bytes) :=
  match p with
  | [] => None
  | byte :: p =>
      if shift <=? maxshift then
        if Z.land byte 128 =? 0 then Some (Z.lor result ((byte ≪ shift) `mod` 2 ^ w), p)
        else GetVarint_loop w maxshift (shift + 7)
               (Z.lor result ((Z.land byte 127 ≪ shift) `mod` 2 ^ w)) p
      else None
  end.

Definition GetVarint32PtrFallback (p : bytes) : option (Z * bytes) := GetVarint_loop 32 28 0 0 p.

Definition GetVarint32Ptr (p : bytes) : option (Z * bytes) :=
  match p with
  | result :: p' => if Z.land result 128 =? 0 then Some (result, p') else GetVarint32PtrFallback p
  | [] => GetVarint32PtrFallback p
  end.

Definition GetVarint64Ptr (p : bytes) : option (Z * bytes) := GetVarint_loop 64 63 0 0 p.

(** The slice versions: on success the slice is moved past the value, on failure it is left
    as it was. *)
Definition GetVarint32 (input : bytes) : option Z * bytes :=
  match GetVarint32Ptr input with
  | None => (None, input)
  | Some (value, q) => (Some value, q)
  end.

Definition GetVarint64 (input : bytes) : option Z * bytes :=
  match GetVarint64Ptr input with
  | None => (None, input)
  | Some (value, q) => (Some value, q)
  end.

Definition GetLengthPrefixedSlicePtr (p : bytes) : option (bytes * bytes) :=
  match GetVarint32Ptr p with
  | None => None
  | Some (l, p) => if l >? len p then None else Some (take (Z.to_nat l) p, drop (Z.to_nat l) p)
  end.

(** [bool GetLengthPrefixedSlice(Slice* input, Slice* result)]: the result and the slice after
    the call, which a failed length check leaves past the length. *)
Definition GetLengthPrefixedSlice `{SliceLib} (input : bytes) : option bytes * bytes :=
  match GetVarint32 input with
  | (Some l, input) =>
      if len input >=? l then (Some (take (Z.to_nat l) input), slice_skip l input)
      else (None, input)
  | (None, input) => (None, input)
  end.
End coding.

(** ** Fixed-width integers *)

Section fixed.
Context {HOST : Host}.

Lemma FLAGS_host : FLAGS_is_little_endian = host_little_endian.
Proof. unfold FLAGS_is_little_endian. by destruct host_little_endian. Qed.

Lemma length_le_bytes n v : length (le_bytes n v) = n.
Proof. revert v. induction n as [|n IH]; intros v; simpl; [done|by rewrite IH]. Qed.

Lemma le_bytes_u8 n v : Forall is_u8 (le_bytes n v).
Proof.
  revert v. induction n as [|n IH]; intros v; simpl; constructor; [|done].
  rewrite land_255. apply (Z.mod_pos_bound v 256). lia.
Qed.

Lemma le_value_le_bytes n v : le_value (le_bytes n v) = v `mod` 2 ^ (8 * Z.of_nat n).
Proof.
  revert v. induction n as [|n IH]; intros v; [by rewrite Z.mod_1_r|].
  cbn [le_bytes le_value]. rewrite IH, land_255, Z.shiftr_div_pow2 by lia.
  replace (8 * Z.of_nat (S n)) with (8 + 8 * Z.of_nat n) by lia.
  rewrite Z.pow_add_r by lia. rewrite Z.rem_mul_r by lia. done.
Qed.

Lemma le_value_bound bs : Forall is_u8 bs -> 0 <= le_value bs < 2 ^ (8 * len bs).
Proof.
  induction 1 as [|b bs Hb _ IH]; [done|]. rewrite len_cons. cbn [le_value].
  unfold is_u8 in Hb. pose proof (len_nonneg bs).
  rewrite Z.mul_add_distr_l, Z.pow_add_r by lia. nia.
Qed.

Lemma EncodeFixed32_le v : EncodeFixed32 v = le_bytes 4 v.
Proof.
  unfold EncodeFixed32, memcpy_of_uint. rewrite FLAGS_host.
  destruct host_little_endian; [done|]. cbn. by rewrite !Z.shiftr_shiftr by lia.
Qed.

Lemma EncodeFixed64_le v : EncodeFixed64 v = le_bytes 8 v.
Proof.
  unfold EncodeFixed64, memcpy_of_uint. rewrite FLAGS_host.
  destruct host_little_endian; [done|]. cbn. by rewrite !Z.shiftr_shiftr by lia.
Qed.

Lemma len_EncodeFixed32 v : len (EncodeFixed32 v) = 4.
Proof. rewrite EncodeFixed32_le. unfold len. by rewrite length_le_bytes. Qed.

(** Or-ing bytes into place is the positional value. *)
Lemma lor_bytes4 b0 b1 b2 b3 :
  is_u8 b0 -> is_u8 b1 -> is_u8 b2 -> is_u8 b3 ->
  Z.lor (Z.lor (Z.lor b0 (u32 (b1 ≪ 8))) (u32 (b2 ≪ 16))) (u32 (b3 ≪ 24))
  = le_value [b0; b1; b2; b3].
Proof.
  unfold is_u8, u32. intros. rewrite !Z.shiftl_mul_pow2, !Z.mod_small by lia.
  rewrite <- !Z.shiftl_mul_pow2 by lia.
  rewrite (lor_shiftl_add b0) by lia. rewrite (lor_shiftl_add (b0 + _)) by lia.
  rewrite lor_shiftl_add by lia. cbn [le_value]. lia.
Qed.

Lemma DecodeFixed32_le b0 b1 b2 b3 rest :
  Forall is_u8 [b0; b1; b2; b3] ->
  DecodeFixed32 (b0 :: b1 :: b2 :: b3 :: rest) = Some (le_value [b0; b1; b2; b3]).
Proof.
  intros Hb. repeat (apply Forall_cons in Hb as [? Hb]).
  unfold DecodeFixed32. f_equal. rewrite FLAGS_host. unfold memcpy_to_uint.
  destruct host_little_endian; [done|]. by apply lor_bytes4.
Qed.

Lemma DecodeFixed32_bytes bs rest :
  length bs = 4%nat -> Forall is_u8 bs -> DecodeFixed32 (bs ++ rest) = Some (le_value bs).
Proof.
  intros Hlen Hu. do 4 (destruct bs as [|? bs]; [done|]). destruct bs; [|done].
  by apply DecodeFixed32_le.
Qed.

Lemma DecodeFixed32_None bs : len bs < 4 -> DecodeFixed32 bs = None.
Proof. unfold len. intros. do 4 (destruct bs as [|? bs]; [done|]). simpl in *. lia. Qed.

Lemma DecodeFixed64_bytes bs rest :
  length bs = 8%nat -> Forall is_u8 bs -> DecodeFixed64 (bs ++ rest) = Some (le_value bs).
Proof.
  intros Hlen Hu. unfold DecodeFixed64. rewrite FLAGS_host. unfold memcpy_to_uint.
  destruct host_little_endian eqn:Hh.
  - rewrite bool_decide_true by (rewrite len_app; unfold len; lia).
    by rewrite take_app_length'.
  - do 8 (destruct bs as [|? bs]; [done|]). destruct bs; [|done]. cbn [app drop].
    repeat (apply Forall_cons in Hu as [? Hu]). unfold is_u8 in *.
    rewrite !DecodeFixed32_le by (repeat constructor; unfold is_u8; lia).
    cbn [mbind option_bind]. f_equal. unfold u64. cbn [le_value].
    rewrite Z.shiftl_mul_pow2, Z.mod_small, <- Z.shiftl_mul_pow2, Z.lor_comm by lia.
    rewrite lor_shiftl_add by lia. lia.
Qed.

Lemma DecodeFixed32_Encode v rest : is_u32 v -> DecodeFixed32 (EncodeFixed32 v ++ rest) = Some v.
Proof.
  intros Hv. rewrite EncodeFixed32_le.
  rewrite DecodeFixed32_bytes by (apply length_le_bytes || apply le_bytes_u8).
  rewrite le_value_le_bytes. f_equal. by apply Z.mod_small.
Qed.
End fixed.

(** a 32-bit value stored by [EncodeFixed32] is read back by [DecodeFixed32], whatever
    follows it in the buffer and whatever the byte order of the host, and the stored bytes are
    the four little-endian bytes of the value on every host. *)
Theorem fixed32_roundtrip (HOST : Host) v rest :
  is_u32 v ->
  EncodeFixed32 v = le_bytes 4 v /\ DecodeFixed32 (EncodeFixed32 v ++ rest) = Some v.
Proof. intros Hv. split; [apply EncodeFixed32_le|by apply DecodeFixed32_Encode]. Qed.

(** a 64-bit value stored by [EncodeFixed64] is read back by [DecodeFixed64], whatever
    follows it and whatever the byte order of the host, and the stored bytes are the eight
    little-endian bytes of the value on every host. *)
Theorem fixed64_roundtrip (HOST : Host) v rest :
  is_u64 v ->
  EncodeFixed64 v = le_bytes 8 v /\ DecodeFixed64 (EncodeFixed64 v ++ rest) = Some v.
Proof.
  intros Hv. split; [apply EncodeFixed64_le|]. rewrite EncodeFixed64_le.
  rewrite DecodeFixed64_bytes by (apply length_le_bytes || apply le_bytes_u8).
  rewrite le_value_le_bytes. f_equal. by apply Z.mod_small.
Qed.

(** ** Varints: the encoders *)

(** From here on [lia] also knows the quotient and remainder by a constant. *)
#[local] Ltac Zify.zify_post_hook ::= Z.to_euclidean_division_equations.

(** One turn of the encoding loop, in arithmetic form. *)
Lemma varint_loop_S fuel v :
  0 <= v ->
  EncodeVarint64_loop (S fuel) v
  = if decide (v < 128) then [v] else (128 + v `mod` 128) :: EncodeVarint64_loop fuel (v / 128).
Proof.
  intros Hv. cbn [EncodeVarint64_loop]. rewrite Z.geb_leb, lor_land_128, shiftr_7.
  destruct (Z.leb_spec 128 v); case_decide; try lia; [done|].
  unfold u8. by rewrite Z.mod_small by lia.
Qed.

(** The budget of the loop does not matter once it covers the bits of the value. *)
Lemma varint_loop_fuel n m v :
  0 <= v < 2 ^ (7 * Z.of_nat n) -> 0 <= v < 2 ^ (7 * Z.of_nat m) -> (0 < n)%nat -> (0 < m)%nat ->
  EncodeVarint64_loop n v = EncodeVarint64_loop m v.
Proof.
  revert m v. induction n as [|n IH]; intros m v Hn Hm Hn0 Hm0; [lia|].
  destruct m as [|m]; [lia|]. rewrite !varint_loop_S by lia. case_decide; [done|].
  f_equal. replace (7 * Z.of_nat (S n)) with (7 + 7 * Z.of_nat n) in Hn by lia.
  replace (7 * Z.of_nat (S m)) with (7 + 7 * Z.of_nat m) in Hm by lia.
  rewrite Z.pow_add_r in Hn, Hm by lia.
  assert (0 < v / 128) by (apply Z.div_str_pos; lia).
  apply IH.
  - split; [apply Z.div_pos; lia|apply Z.div_lt_upper_bound; lia].
  - split; [apply Z.div_pos; lia|apply Z.div_lt_upper_bound; lia].
  - destruct n; [simpl in Hn|]; lia.
  - destruct m; [simpl in Hm|]; lia.
Qed.

(** The defining equation of the varint of a 64-bit value, without a budget. *)
Lemma varint_eq v :
  is_u64 v ->
  EncodeVarint64 v
  = if decide (v < 128) then [v] else (128 + v `mod` 128) :: EncodeVarint64 (v / 128).
Proof.
  intros [Hv Hlt]. unfold EncodeVarint64. rewrite varint_loop_S by done. case_decide; [done|].
  f_equal. assert (0 <= v / 128) by (apply Z.div_pos; lia).
  assert (v / 128 < 2 ^ 57) by (apply Z.div_lt_upper_bound; lia).
  apply varint_loop_fuel; simpl; lia.
Qed.

Lemma is_u64_div v : is_u64 v -> is_u64 (v / 128).
Proof.
  unfold is_u64. intros. split; [apply Z.div_pos; lia|].
  apply Z.div_lt_upper_bound; lia.
Qed.

(** Induction along the seven-bit groups of a 64-bit value. *)
Lemma varint_ind (P : Z -> Prop) :
  (forall v, is_u64 v -> v < 128 -> P v) ->
  (forall v, is_u64 v -> 128 <= v -> P (v / 128) -> P v) ->
  forall v, is_u64 v -> P v.
Proof.
  intros Hs Hl v. induction v as [v IH] using (well_founded_induction (Z.lt_wf 0)).
  intros Hv. destruct (decide (v < 128)); [by apply Hs|]. unfold is_u64 in Hv.
  apply Hl; [done|lia|]. apply IH; [lia|by apply is_u64_div].
Qed.

Lemma varint_nonempty v : is_u64 v -> EncodeVarint64 v <> [].
Proof. intros Hv. rewrite varint_eq by done. by case_decide. Qed.

Lemma varint_u8 v : is_u64 v -> Forall is_u8 (EncodeVarint64 v).
Proof.
  revert v. apply varint_ind; intros v Hv Hr; [|intros IH]; rewrite varint_eq by done.
  - rewrite decide_True by lia. unfold is_u64 in Hv. repeat constructor; lia.
  - rewrite decide_False by lia. constructor; [unfold is_u8; lia|done].
Qed.

(** A leading group of the loop, and its last byte. *)
Lemma varint_loop_more fuel v q :
  128 <= v -> v / 128 = q ->
  EncodeVarint64_loop (S fuel) v = (128 + v `mod` 128) :: EncodeVarint64_loop fuel q.
Proof. intros Hv <-. rewrite varint_loop_S by lia. by rewrite decide_False by lia. Qed.

Lemma varint_loop_last fuel v : 0 <= v < 128 -> EncodeVarint64_loop (S fuel) v = [u8 v].
Proof.
  intros Hv. rewrite varint_loop_S, decide_True by lia. unfold u8. by rewrite Z.mod_small by lia.
Qed.

(** The unrolled 32-bit encoder writes exactly the bytes of the 64-bit loop. *)
Lemma EncodeVarint32_64 v : is_u32 v -> EncodeVarint32 v = EncodeVarint64 v.
Proof.
  intros [H0 H1]. unfold EncodeVarint32, EncodeVarint64. rewrite !u8_lor_128.
  change (1 ≪ 7) with 128. change (1 ≪ 14) with 16384. change (1 ≪ 21) with 2097152.
  change (1 ≪ 28) with 268435456. rewrite !Z.shiftr_div_pow2 by lia.
  destruct (Z.ltb_spec v 128); [by rewrite varint_loop_last|].
  rewrite (varint_loop_more _ v (v / 2 ^ 7)) by lia.
  destruct (Z.ltb_spec v 16384); [by rewrite varint_loop_last by lia|].
  rewrite (varint_loop_more _ (v / 2 ^ 7) (v / 2 ^ 14)) by lia.
  destruct (Z.ltb_spec v 2097152); [by rewrite varint_loop_last by lia|].
  rewrite (varint_loop_more _ (v / 2 ^ 14) (v / 2 ^ 21)) by lia.
  destruct (Z.ltb_spec v 268435456); [by rewrite varint_loop_last by lia|].
  rewrite (varint_loop_more _ (v / 2 ^ 21) (v / 2 ^ 28)) by lia.
  by rewrite varint_loop_last by lia.
Qed.

Lemma VarintLength_loop_len fuel v l :
  (0 < fuel)%nat -> 0 <= v < 2 ^ (7 * Z.of_nat fuel) ->
  VarintLength_loop fuel v l = l - 1 + len (EncodeVarint64_loop fuel v).
Proof.
  revert v l. induction fuel as [|fuel IH]; intros v l Hf Hv; [lia|].
  rewrite varint_loop_S by lia. cbn [VarintLength_loop]. rewrite Z.geb_leb, shiftr_7.
  destruct (Z.leb_spec 128 v); case_decide; try lia; [|by rewrite len_cons, len_nil; lia].
  replace (7 * Z.of_nat (S fuel)) with (7 + 7 * Z.of_nat fuel) in Hv by lia.
  rewrite Z.pow_add_r in Hv by lia.
  rewrite IH, len_cons; [lia|destruct fuel; [simpl in Hv|]; lia|lia].
Qed.

Lemma VarintLength_len v : is_u64 v -> VarintLength v = len (EncodeVarint64 v).
Proof.
  unfold is_u64. intros. unfold VarintLength, EncodeVarint64.
  rewrite VarintLength_loop_len by (simpl; lia). lia.
Qed.

Lemma VarintLength_bounds v : is_u64 v -> 1 <= VarintLength v <= 10.
Proof.
  intros Hv. rewrite VarintLength_len by done.
  assert (forall n v, 0 <= v -> len (EncodeVarint64_loop n v) <= Z.of_nat n) as Hn.
  { induction n as [|n IH]; intros w Hw; [done|]. rewrite varint_loop_S by done.
    case_decide; rewrite len_cons; [rewrite len_nil; lia|]. specialize (IH (w / 128)). lia. }
  specialize (Hn 10%nat v). unfold is_u64, EncodeVarint64 in *.
  rewrite varint_loop_S in * by lia. case_decide; rewrite len_cons in *; pose proof (len_nonneg
    (EncodeVarint64_loop 9 (v / 128))); rewrite ?len_nil in *; lia.
Qed.

(** ** Varints: the decoders *)

(** The decoding loop accepts every shift the encoder can produce for a [w]-bit value. *)
Definition shifts_ok (w maxshift : Z) : Prop :=
  forall s, 0 <= s -> s `mod` 7 = 0 -> s < w -> s <= maxshift.

Lemma shifts_ok_32 : shifts_ok 32 28.
Proof. unfold shifts_ok. lia. Qed.
Lemma shifts_ok_64 : shifts_ok 64 63.
Proof. unfold shifts_ok. lia. Qed.

(** One byte of input, whose value is [128 * c + b] with [c] the continuation bit. *)
Lemma GetVarint_loop_more w mx shift result b p :
  shift <= mx -> 0 <= b < 128 ->
  GetVarint_loop w mx shift result ((128 + b) :: p)
  = GetVarint_loop w mx (shift + 7) (Z.lor result ((b ≪ shift) `mod` 2 ^ w)) p.
Proof.
  intros Hs Hb. cbn [GetVarint_loop]. rewrite land_127, land_128_high by done.
  destruct (Z.leb_spec shift mx); [|lia]. simpl.
  by replace ((128 + b) `mod` 128) with b by lia.
Qed.

Lemma GetVarint_loop_last w mx shift result b p :
  shift <= mx -> 0 <= b < 128 ->
  GetVarint_loop w mx shift result (b :: p) = Some (Z.lor result ((b ≪ shift) `mod` 2 ^ w), p).
Proof.
  intros Hs Hb. cbn [GetVarint_loop]. rewrite land_128_low by done.
  by destruct (Z.leb_spec shift mx); [|lia].
Qed.

(** Adding the next group to the groups read so far. *)
Lemma varint_group w shift result b :
  0 <= shift <= w -> 0 <= result < 2 ^ shift -> 0 <= b -> b < 2 ^ (w - shift) ->
  Z.lor result ((b ≪ shift) `mod` 2 ^ w) = result + b * 2 ^ shift.
Proof.
  intros Hs Hr Hb Hlt.
  replace ((b ≪ shift) `mod` 2 ^ w) with (b ≪ shift); [by apply lor_shiftl_add; lia|].
  symmetry. apply Z.mod_small. rewrite Z.shiftl_mul_pow2 by lia.
  assert (2 ^ w = 2 ^ (w - shift) * 2 ^ shift) as ->; [|nia].
  rewrite <- Z.pow_add_r by lia. f_equal. lia.
Qed.

Lemma GetVarint_loop_encode w mx v rest : is_u64 v -> forall shift result,
  shifts_ok w mx -> 0 <= shift -> shift `mod` 7 = 0 -> 0 <= result < 2 ^ shift ->
  shift < w -> v < 2 ^ (w - shift) ->
  GetVarint_loop w mx shift result (EncodeVarint64 v ++ rest) = Some (result + v * 2 ^ shift, rest).
Proof.
  revert v. refine (varint_ind _ _ _); intros v Hv Hr; [|intros IH];
    intros shift result Hok Hs Hs7 Hres Hsw Hvw; rewrite varint_eq by done.
  - rewrite decide_True by done. unfold is_u64 in Hv. cbn [app].
    rewrite GetVarint_loop_last by (try apply Hok; lia). by rewrite varint_group by lia.
  - rewrite decide_False by lia. cbn [app].
    assert (shift + 7 < w) as Hsw7.
    { destruct (decide (w - shift <= 7)) as [Hle|]; [|lia].
      pose proof (Z.pow_le_mono_r 2 (w - shift) 7 ltac:(lia) Hle). lia. }
    rewrite GetVarint_loop_more by (try apply Hok; lia).
    assert (2 ^ (w - shift) = 128 * 2 ^ (w - (shift + 7))) as Hpow.
    { replace (w - shift) with (7 + (w - (shift + 7))) by lia. by rewrite Z.pow_add_r by lia. }
    rewrite varint_group by (try lia; nia).
    assert (2 ^ (shift + 7) = 128 * 2 ^ shift) as Hp7 by (rewrite Z.pow_add_r by lia; lia).
    rewrite IH; try done; try lia; [|split; [lia|]; rewrite Hp7; nia].
    rewrite Hp7. do 2 f_equal. rewrite (Z.div_mod v 128) at 3 by done. lia.
Qed.

(** A run of continuation bytes with nothing after it is no varint. *)
Lemma GetVarint_loop_truncated w mx shift result p :
  Forall (fun b => Z.land b 128 <> 0) p -> GetVarint_loop w mx shift result p = None.
Proof.
  intros Hp. revert shift result. induction Hp as [|b p Hb _ IH]; intros shift result; [done|].
  cbn [GetVarint_loop]. destruct (_ <=? _); [|done]. destruct (Z.eqb_spec (Z.land b 128) 0); [done|].
  apply IH.
Qed.

Lemma varint_prefix_continues v n :
  is_u64 v -> (n < length (EncodeVarint64 v))%nat ->
  Forall (fun b => Z.land b 128 <> 0) (take n (EncodeVarint64 v)).
Proof.
  intros Hv. revert v Hv n. refine (varint_ind _ _ _); intros v Hv Hr; [|intros IH];
    intros n; rewrite varint_eq by done.
  - rewrite decide_True by done. intros Hn. assert (n = 0%nat) as -> by (simpl in Hn; lia).
    constructor.
  - rewrite decide_False by lia. destruct n as [|n]; [constructor|]. cbn [take length]. intros Hn.
    constructor; [by rewrite land_128_high by lia|apply IH; lia].
Qed.

(** More continuation bytes than the width has groups: the value does not fit. *)
Lemma GetVarint_loop_too_long w mx shift result p q :
  Forall (fun b => Z.land b 128 <> 0) p -> mx < shift + 7 * len p ->
  GetVarint_loop w mx shift result (p ++ q) = None.
Proof.
  intros Hp. revert shift result. induction Hp as [|b p Hb Hp IH]; intros shift result Hlen.
  - rewrite (@len_nil Z) in Hlen. destruct q as [|b q]; [done|]. cbn. by destruct (Z.leb_spec shift mx); [lia|].
  - rewrite len_cons in Hlen. cbn [app GetVarint_loop]. destruct (_ <=? _); [|done].
    destruct (Z.eqb_spec (Z.land b 128) 0); [done|]. apply IH. lia.
Qed.

(** A value of at most 32 bits fits a 64-bit word. *)
Lemma is_u32_u64 v : is_u32 v -> is_u64 v.
Proof. unfold is_u32, is_u64. lia. Qed.

Lemma GetVarint32PtrFallback_encode v rest :
  is_u32 v -> GetVarint32PtrFallback (EncodeVarint64 v ++ rest) = Some (v, rest).
Proof.
  intros Hv. unfold GetVarint32PtrFallback.
  rewrite GetVarint_loop_encode;
    try done; unfold is_u32 in *; try lia; [|by apply is_u32_u64|apply shifts_ok_32].
  do 2 f_equal. lia.
Qed.

(** The one-byte fast path of [GetVarint32Ptr] agrees with the loop it skips. *)
Lemma GetVarint32Ptr_fallback p : Forall is_u8 p -> GetVarint32Ptr p = GetVarint32PtrFallback p.
Proof.
  intros Hp. destruct p as [|b p]; [done|]. cbn [GetVarint32Ptr].
  destruct (Z.eqb_spec (Z.land b 128) 0) as [He|]; [|done].
  apply Forall_cons in Hp as [Hb _]. unfold is_u8 in Hb.
  assert (b < 128).
  { destruct (decide (b < 128)); [done|]. replace b with (128 + (b - 128)) in He by lia.
    rewrite land_128_high in He by lia. lia. }
  unfold GetVarint32PtrFallback. rewrite GetVarint_loop_last by lia.
  rewrite varint_group by lia. do 2 f_equal. lia.
Qed.

(** On a varint whose first byte fits, both paths see the same list. *)
Lemma GetVarint32Ptr_encode v rest :
  is_u32 v -> GetVarint32Ptr (EncodeVarint32 v ++ rest) = Some (v, rest).
Proof.
  intros Hv. rewrite EncodeVarint32_64 by done.
  rewrite <- (GetVarint32PtrFallback_encode v rest) at 1 by done.
  rewrite varint_eq by (by apply is_u32_u64). case_decide; cbn [app GetVarint32Ptr].
  - unfold is_u32 in Hv. rewrite land_128_low by lia. change (0 =? 0) with true. cbv iota.
    unfold GetVarint32PtrFallback. rewrite GetVarint_loop_last by lia.
    rewrite varint_group by lia. do 2 f_equal. lia.
  - by rewrite land_128_high by lia.
Qed.

(** Every byte string the decoding loop accepts is short, and its value fits the width. *)
Lemma GetVarint_loop_bound w mx shift result p v rest :
  Forall is_u8 p -> 0 <= w -> 0 <= shift -> 0 <= result < 2 ^ w ->
  GetVarint_loop w mx shift result p = Some (v, rest) ->
  0 <= v < 2 ^ w /\ exists used, p = used ++ rest /\ used <> [] /\ shift + 7 * (len used - 1) <= mx.
Proof.
  intros Hp Hw. revert shift result. induction Hp as [|b p Hb Hp IH]; intros shift result Hs Hr; [done|].
  cbn [GetVarint_loop]. destruct (Z.leb_spec shift mx); [|done].
  assert (forall c, 0 <= Z.lor result ((c ≪ shift) `mod` 2 ^ w) < 2 ^ w) as Hlor.
  { intros c. pose proof (Z.mod_pos_bound (c ≪ shift) (2 ^ w) ltac:(lia)) as Hm.
    split; [by apply Z.lor_nonneg; lia|].
    rewrite <- (Z.mod_small result (2 ^ w)), <- !Z.land_ones by lia.
    rewrite <- Z.land_lor_distr_l, Z.land_ones by lia. apply Z.mod_pos_bound. lia. }
  destruct (Z.eqb_spec (Z.land b 128) 0).
  - intros [= <- <-]. split; [apply Hlor|]. exists [b].
    split_and!; [done..|unfold len; simpl; lia].
  - intros Hrun. apply IH in Hrun as (Hv & used & -> & _ & Hlen); [|lia|apply Hlor].
    split; [done|]. exists (b :: used). rewrite len_cons. split_and!; [done..|lia].
Qed.

Lemma lor_mod a b n : 0 <= n -> Z.lor a b `mod` 2 ^ n = Z.lor (a `mod` 2 ^ n) (b `mod` 2 ^ n).
Proof. intros Hn. by rewrite <- !Z.land_ones, Z.land_lor_distr_l by done. Qed.

Lemma mod_mod_pow a n m : 0 <= n <= m -> (a `mod` 2 ^ m) `mod` 2 ^ n = a `mod` 2 ^ n.
Proof.
  intros Hn. rewrite <- !Z.land_ones by lia. rewrite <- Z.land_assoc. f_equal. apply Z.bits_inj'. intros i Hi.
  rewrite Z.land_spec, !Z.testbit_ones_nonneg by lia. destruct (Z.ltb_spec i m), (Z.ltb_spec i n); lia || done.
Qed.

(** The narrow loop computes the wide one modulo its width, as far as it goes. *)
Lemma GetVarint_loop_narrow shift r32 r64 p x rest :
  0 <= shift -> r32 = r64 `mod` 2 ^ 32 -> GetVarint_loop 32 28 shift r32 p = Some (x, rest) ->
  exists y, GetVarint_loop 64 63 shift r64 p = Some (y, rest) /\ x = y `mod` 2 ^ 32.
Proof.
  revert shift r32 r64. induction p as [|b p IH]; intros shift r32 r64 Hs Hr; cbn [GetVarint_loop]; [done|].
  destruct (Z.leb_spec shift 28); [|done]. destruct (Z.leb_spec shift 63); [|lia].
  assert (forall c, Z.lor r32 (c `mod` 2 ^ 32) = Z.lor r64 (c `mod` 2 ^ 64) `mod` 2 ^ 32) as Hlor.
  { intros c. rewrite lor_mod, mod_mod_pow by lia. by rewrite Hr. }
  destruct (Z.land b 128 =? 0); [|by apply IH; [lia|]].
  intros [= <- <-]. eexists. split; [done|]. by rewrite Hlor.
Qed.

(** C39: the fast paths compute what the loops do: the unrolled 32-bit encoder writes the bytes of the
    64-bit one, the inline decoder of one byte agrees with the fallback on every input, and what
    the 32-bit decoder accepts the 64-bit one accepts too, with the same rest and a value that is
    the same modulo 2^32. *)
Theorem varint_fast_paths v p :
  is_u32 v -> Forall is_u8 p ->
  EncodeVarint32 v = EncodeVarint64 v /\ GetVarint32Ptr p = GetVarint32PtrFallback p /\
  forall x rest, GetVarint32Ptr p = Some (x, rest) -> exists y, GetVarint64Ptr p = Some (y, rest) /\ x = y `mod` 2 ^ 32.
Proof.
  intros Hv Hp. split_and!; [by apply EncodeVarint32_64|by apply GetVarint32Ptr_fallback|].
  intros x rest. rewrite GetVarint32Ptr_fallback by done. by apply GetVarint_loop_narrow.
Qed.

(** a 32-bit value written by [EncodeVarint32] takes [VarintLength] bytes, at most five, and
    [GetVarint32Ptr] reads it back and stops right after it, whatever bytes follow. *)
Theorem varint32_roundtrip v rest :
  is_u32 v ->
  len (EncodeVarint32 v) = VarintLength v /\ VarintLength v <= 5 /\
  GetVarint32Ptr (EncodeVarint32 v ++ rest) = Some (v, rest).
Proof.
  intros Hv. rewrite VarintLength_len by (by apply is_u32_u64).
  split_and!; [by rewrite EncodeVarint32_64| |by apply GetVarint32Ptr_encode].
  rewrite <- EncodeVarint32_64 by done. unfold EncodeVarint32.
  repeat case_match; unfold len; simpl; lia.
Qed.

Lemma GetVarint64Ptr_encode v rest : is_u64 v -> GetVarint64Ptr (EncodeVarint64 v ++ rest) = Some (v, rest).
Proof.
  intros Hv. unfold GetVarint64Ptr. rewrite GetVarint_loop_encode;
    try done; unfold is_u64 in *; try lia; [|apply shifts_ok_64].
  do 2 f_equal. lia.
Qed.

(** a 64-bit value written by [EncodeVarint64] takes [VarintLength] bytes, at most ten, and
    [GetVarint64Ptr] reads it back and stops right after it. *)
Theorem varint64_roundtrip v rest :
  is_u64 v ->
  len (EncodeVarint64 v) = VarintLength v /\ VarintLength v <= 10 /\
  GetVarint64Ptr (EncodeVarint64 v ++ rest) = Some (v, rest).
Proof.
  intros Hv. split_and!; [by rewrite VarintLength_len|by apply VarintLength_bounds|by apply GetVarint64Ptr_encode].
Qed.

(** a varint cut short is rejected by both decoders: they never return a value made of the
    bytes that happen to be there. *)
Theorem varint_truncated v n :
  is_u64 v -> (n < length (EncodeVarint64 v))%nat ->
  GetVarint32Ptr (take n (EncodeVarint64 v)) = None /\
  GetVarint64Ptr (take n (EncodeVarint64 v)) = None.
Proof.
  intros Hv Hn. pose proof (varint_prefix_continues v n Hv Hn) as Hp.
  split; [|by apply GetVarint_loop_truncated].
  rewrite GetVarint32Ptr_fallback; [by apply GetVarint_loop_truncated|].
  by apply Forall_take, varint_u8.
Qed.

(** A rejected input starts with continuation bytes for every group of the width. *)
Lemma GetVarint_loop_None w mx k shift result p :
  Forall is_u8 p -> shift + 7 * Z.of_nat k = mx + 7 ->
  GetVarint_loop w mx shift result p = None -> Forall (fun b => 128 <= b) (take k p).
Proof.
  intros Hp. revert k shift result. induction Hp as [|b p Hb Hp IH]; intros k shift result Hk;
    [by rewrite take_nil|].
  destruct k as [|k]; [constructor|]. cbn [GetVarint_loop take].
  destruct (Z.leb_spec shift mx); [|lia].
  destruct (Z.eqb_spec (Z.land b 128) 0) as [|Hc]; [done|]. intros Hn. constructor.
  - destruct (decide (128 <= b)); [done|]. rewrite land_128_low in Hc; unfold is_u8 in *; lia.
  - apply (IH k) in Hn; [done|lia].
Qed.

(** whatever bytes it is given, [GetVarint32Ptr] returns a 32-bit value read from a non-empty
    prefix of at most five of them, or rejects an input whose first five bytes (or all of a
    shorter one) are continuation bytes: it neither runs past its input nor overflows. *)
Theorem GetVarint32Ptr_safe p :
  Forall is_u8 p ->
  match GetVarint32Ptr p with
  | Some (v, rest) => is_u32 v /\ exists used, p = used ++ rest /\ 1 <= len used <= 5
  | None => Forall (fun b => 128 <= b) (take 5 p)
  end.
Proof.
  intros Hp. rewrite GetVarint32Ptr_fallback by done. unfold GetVarint32PtrFallback.
  destruct (GetVarint_loop 32 28 0 0 p) as [[v rest]|] eqn:Hg.
  - apply GetVarint_loop_bound in Hg as (Hv & used & -> & Hne & Hlen); [|done|lia..].
    split; [done|]. exists used. destruct used; [done|]. rewrite len_cons in *.
    pose proof (len_nonneg used). split; [done|lia].
  - by apply (GetVarint_loop_None 32 28 5 0 0).
Qed.

(** ** Length-prefixed strings *)

Section slices.
Context {SL : SliceLib}.

(** The length and the bytes of a string, as [PutLengthPrefixedSlice] appends them. *)
Definition prefixed (s : bytes) : bytes := EncodeVarint32 (len s) ++ s.

Lemma PutLengthPrefixedSlice_eq dst s :
  is_u32 (len s) -> PutLengthPrefixedSlice dst s = dst ++ prefixed s.
Proof.
  intros Hs. unfold PutLengthPrefixedSlice, PutVarint32, prefixed, u32.
  by rewrite Z.mod_small, app_assoc by done.
Qed.

Lemma len_prefixed s : is_u32 (len s) -> len (prefixed s) = VarintLength (len s) + len s.
Proof.
  intros Hs. unfold prefixed. rewrite len_app, EncodeVarint32_64 by done.
  by rewrite VarintLength_len by (by apply is_u32_u64).
Qed.

Lemma GetLengthPrefixedSlice_prefixed {SS : SliceSpec SL} s rest :
  is_u32 (len s) -> GetLengthPrefixedSlice (prefixed s ++ rest) = (Some s, rest).
Proof.
  intros Hs. unfold GetLengthPrefixedSlice, GetVarint32, prefixed. rewrite <- app_assoc.
  rewrite GetVarint32Ptr_encode by done. rewrite Z.geb_leb, len_app.
  pose proof (len_nonneg s). pose proof (len_nonneg rest).
  destruct (Z.leb_spec (len s) (len s + len rest)); [|lia].
  rewrite slice_skip_drop by (rewrite len_app; lia). by rewrite take_len_app, drop_len_app.
Qed.

(** Fewer bytes than the length announces. *)
Lemma GetLengthPrefixedSlice_short s n :
  is_u32 (len s) -> (n < length (prefixed s))%nat ->
  fst (GetLengthPrefixedSlice (take n (prefixed s))) = None.
Proof.
  intros Hs Hn. unfold GetLengthPrefixedSlice, GetVarint32, prefixed in *.
  rewrite EncodeVarint32_64 in * by done. rewrite length_app in Hn.
  destruct (decide (n < length (EncodeVarint64 (len s)))%nat) as [Hlt|Hge].
  - rewrite take_app_le by lia.
    assert (GetVarint32Ptr (take n (EncodeVarint64 (len s))) = None) as ->; [|done].
    rewrite GetVarint32Ptr_fallback by (by apply Forall_take, varint_u8, is_u32_u64).
    by apply GetVarint_loop_truncated, varint_prefix_continues; [apply is_u32_u64|].
  - rewrite take_app_ge by lia. rewrite <- EncodeVarint32_64 by done.
    rewrite GetVarint32Ptr_encode by done. rewrite EncodeVarint32_64 by done.
    rewrite Z.geb_leb. unfold len at 1 2 3. rewrite length_take.
    destruct (Z.leb_spec (Z.of_nat (length s))
      (Z.of_nat ((n - length (EncodeVarint64 (Z.of_nat (length s)))) `min` length s)%nat)); [|done].
    unfold len in *. lia.
Qed.
End slices.

(** a string stored with [PutLengthPrefixedSlice] is read back by [GetLengthPrefixedSlice],
    which leaves the input at the first byte after it; the pointer version returns the same. *)
Theorem length_prefixed_roundtrip (SL : SliceLib) (SS : SliceSpec SL) s rest :
  is_u32 (len s) ->
  GetLengthPrefixedSlice (PutLengthPrefixedSlice [] s ++ rest) = (Some s, rest) /\
  GetLengthPrefixedSlicePtr (PutLengthPrefixedSlice [] s ++ rest) = Some (s, rest).
Proof.
  intros Hs. rewrite PutLengthPrefixedSlice_eq by done. cbn [app].
  split; [by apply GetLengthPrefixedSlice_prefixed|].
  unfold GetLengthPrefixedSlicePtr, prefixed. rewrite <- app_assoc.
  rewrite GetVarint32Ptr_encode by done. rewrite Z.gtb_ltb, len_app.
  pose proof (len_nonneg s). pose proof (len_nonneg rest).
  destruct (Z.ltb_spec (len s + len rest) (len s)); [lia|]. by rewrite take_len_app, drop_len_app.
Qed.
