(* ===== verification/Status.v ===== *)
(** * Status codes: [include/consensus/base/status.h], [src/src/base/status.cc]

    A [Status] is its code: the message text is not modelled.  [Status::OK] is the [Ok] result
    of a program, any other code an [Err]. *)

From stdpp Require Import pretty.
From S2P Require Import Prelude.

Inductive ErrorCode :=
  | OK
  | IOError
  | NotSupported
  | Corruption
  | LogCompacted
  | OutOfBound
  | YARaftError
  | BadConfig
  | RpcError
  | IllegalState
  | RuntimeError
  | InvalidArgument
  | WalWriteToNonLeader.

#[global] Instance ErrorCode_eq_dec : EqDecision ErrorCode.
Proof. solve_decision. Defined.

(** The value of the enumerator. *)
Definition error_code_value (e : ErrorCode) : Z :=
  match e with
  | OK => 0 | IOError => 1 | NotSupported => 2 | Corruption => 3 | LogCompacted => 4
  | OutOfBound => 5 | YARaftError => 6 | BadConfig => 7 | RpcError => 8 | IllegalState => 9
  | RuntimeError => 10 | InvalidArgument => 11 | WalWriteToNonLeader => 12
  end.

(** [Error::toString]: the switch has no case for [OK]. *)
Definition toString (code : Z) : string :=
  match code with
  | 1 => "IOError"
  | 2 => "NotSupported"
  | 3 => "Corruption"
  | 4 => "LogCompacted"
  | 5 => "OutOfBound"
  | 6 => "YARaftError"
  | 7 => "BadConfig"
  | 8 => "RpcError"
  | 9 => "IllegalState"
  | 10 => "RuntimeError"
  | 11 => "InvalidArgument"
  | 12 => "WalWriteToNonLeader"
  | _ => "Unknown error codes: " +:+ pretty code
  end.

(** The code of the status a program run returned, [None] if it did not return. *)
Definition status_of {A} (r : result ErrorCode A) : option ErrorCode :=
  match r with
  | Ok _ => Some OK
  | Err e => Some e
  | Halt _ => None
  end.

(** The names of the error codes are pairwise distinct, so a printed status names its code. *)
Lemma toString_inj e1 e2 :
  toString (error_code_value e1) = toString (error_code_value e2) -> e1 = e2.
Proof. destruct e1, e2; vm_compute; congruence. Qed.
