(* ===== verification/Support.v ===== *)
(** * Support code: [include/consensus/base/random.h], [src/base/random.cc], [src/base/errno.cc]
    and [src/base/glog_logger.cc]

    The random numbers are those of [std::mt19937], which the C++ standard defines down to the
    bit. *)

From S2P Require Import Prelude External Coding.

(** ** [std::mt19937] *)

Definition mt_n : nat := 624.
Definition mt_m : nat := 397.

(** The last [mt_n] words of the sequence, oldest first. *)
Abbreviation mt19937 := (list Z).

(** The words after [x], the [i]-th of the state. *)
Fixpoint mt_fill (k : nat) (i x : Z) : list Z :=
  match k with
  | O => []
  | S k =>
      let y := u32 (1812433253 * Z.lxor x (x ≫ 30) + i) in
      y :: mt_fill k (i + 1) y
  end.

Definition mt_seed (seed : Z) : mt19937 := u32 seed :: mt_fill (mt_n - 1) 1 (u32 seed).

Definition mt_temper (x : Z) : Z :=
  let z1 := Z.lxor x (x ≫ 11) in
  let z2 := Z.lxor z1 (Z.land (u32 (z1 ≪ 7)) 0x9d2c5680) in
  let z3 := Z.lxor z2 (Z.land (u32 (z2 ≪ 15)) 0xefc60000) in
  Z.lxor z3 (z3 ≫ 18).

(** The next word of the sequence: its upper bit from the oldest word, the others from the one
    after that. *)
Definition mt_twist (x0 x1 xm : Z) : Z :=
  let y := Z.lor (Z.land x0 0x80000000) (Z.land x1 0x7fffffff) in
  Z.lxor (Z.lxor xm (y ≫ 1)) (if Z.land y 1 =? 0 then 0 else 0x9908b0df).

(** [gen_()]. *)
Definition mt_next (st : mt19937) : Z * mt19937 :=
  match st with
  | x0 :: ((x1 :: _) as st') =>
      let x := mt_twist x0 x1 (nth mt_m st 0) in
      (mt_temper x, st' ++ [x])
  | _ => (0, st)
  end.

(** ** [Random] *)

Record Random := MkRandom { gen_ : mt19937 }.

Definition new_Random (seed : Z) : Random := MkRandom (mt_seed seed).

Definition Next (rng : Random) : Z * Random := let '(x, g) := mt_next (gen_ rng) in (u32 x, MkRandom g).

(** A division by zero is undefined. *)
Definition Uniform (n : Z) (rng : Random) : option (Z * Random) :=
  let '(x, rng) := Next rng in
  if n =? 0 then None else Some (x `mod` n, rng).

Section random_string.
Context {HOST : Host}.

(** [memcpy(dest + i, src, n)]: [None] when it leaves the buffer. *)
Definition memcpy_at (dest : bytes) (i : Z) (src : bytes) : option bytes :=
  if i + len src <=? len dest
  then Some (take (Z.to_nat i) dest ++ src ++ drop (Z.to_nat (i + len src)) dest)
  else None.

(** The loop [for (i = 0; i <= n - sz; i += sz)], with the index it stops at. *)
Fixpoint RandomString_loop (fuel : nat) (dest : bytes) (n i random : Z) (rng : Random) :
    option (bytes * Z * Z * Random) :=
  match fuel with
  | O => None
  | S fuel =>
      if i <=? u64 (n - 4) then
        dest ← memcpy_at dest i (memcpy_of_uint 4 random);
        let '(random, rng) := Next rng in
        RandomString_loop fuel dest n (u64 (i + 4)) random rng
      else Some (dest, i, random, rng)
  end.

(** [RandomString(dest, n, rng)]: a turn of the loop for every four bytes. *)
Definition RandomString (dest : bytes) (n : Z) (rng : Random) : option (bytes * Random) :=
  let '(random, rng) := Next rng in
  '(dest, i, random, rng) ← (if n >=? 4 then RandomString_loop (S (Z.to_nat n)) dest n 0 random rng
                             else Some (dest, 0, random, rng));
  dest ← memcpy_at dest i (take (Z.to_nat (u64 (n - i))) (memcpy_of_uint 4 random));
  Some (dest, rng).

(** [std::string RandomString(n, rng)]. *)
Definition RandomString_string (n : Z) (rng : Random) : option (bytes * Random) :=
  RandomString (repeat 0 (Z.to_nat n)) n rng.
End random_string.

(** ** [ErrnoToCString]

    [strerror_r] comes in two versions; which one is there is a matter of the platform.  The POSIX
    one gives a code and the buffer after the call, the GNU one a pointer: to the buffer, with what
    is then in it, or to a string elsewhere. *)

Class Strerror := {
  glibc_version : bool;
  posix_strerror_r : Z -> bytes -> Z * bytes;
  gnu_strerror_r : Z -> bytes -> bytes + bytes;
}.

(** [strncpy(buf, s, n)] of the characters [s] before the terminator, on a buffer of [n] bytes. *)
Definition strncpy (s : bytes) (n : nat) : bytes := take n (s ++ repeat 0 n).

(** [strlen]-like: the characters before the first zero; [None] when there is none. *)
Fixpoint c_string (buf : bytes) : option bytes :=
  match buf with
  | [] => None
  | b :: buf => if b =? 0 then Some [] else s ← c_string buf; Some (b :: s)
  end.

Definition ERANGE : Z := 34.
Definition EINVAL : Z := 22.
Definition unknown_error : bytes := [117; 110; 107; 110; 111; 119; 110; 32; 101; 114; 114; 111; 114].

Section errno.
Context {SR : Strerror}.

(** The buffer after the call; [None] is the failed [CHECK_GT]. *)
Definition ErrnoToCString (err : Z) (buf : bytes) : option bytes :=
  if len buf >? 0 then
    let n := length buf in
    let terminated b := <[(n - 1)%nat := 0]> b in
    Some (if negb glibc_version then
            let '(ret, buf) := posix_strerror_r err buf in
            if negb (ret =? 0) && negb (ret =? ERANGE) && negb (ret =? EINVAL)
            then terminated (strncpy unknown_error n) else buf
          else
            match gnu_strerror_r err buf with
            | inl buf => buf
            | inr ret => terminated (strncpy ret n)
            end)
  else None.

(** The constructor of [std::string] reads up to the terminator: [None] when there is none in the
    buffer. *)
Definition ErrnoToString (err : Z) (uninit : bytes) : option bytes :=
  buf ← ErrnoToCString err uninit;
  c_string buf.
End errno.

(** ** [GLogLogger::Log] *)

Inductive LogLevel := LogINFO | LogWARNING | LogERROR | LogFATAL | LogOther (level : Z).
Inductive LogSeverity := GlogINFO | GlogWARNING | GlogERROR.

(** What is appended to the log; a fatal message and the failed assertion end the process. *)
Definition GLogLogger_Log (level : LogLevel) (line : Z) (file : string) (log : bytes) :
    Prog Empty_set (list (LogSeverity * string * Z * bytes)) unit :=
  match level with
  | LogINFO => modify (fun l => l ++ [(GlogINFO, file, line, log)])
  | LogWARNING => modify (fun l => l ++ [(GlogWARNING, file, line, log)])
  | LogERROR => modify (fun l => l ++ [(GlogERROR, file, line, log)])
  | LogFATAL => halt_with FatalLog
  | LogOther _ => halt_with Uncaught
  end.

(** The value the standard prescribes for the 10000th invocation of a generator with the default
    seed. *)
Example mt19937_10000 : fst (mt_next (Nat.iter 9999 (fun g => snd (mt_next g)) (mt_seed 5489))) = 4123659995.
Proof. vm_compute. reflexivity. Qed.

(** ** Properties of the random numbers *)

(** The first [k] numbers a generator gives, and the generator after them. *)
Fixpoint outputs (k : nat) (rng : Random) : list Z :=
  match k with
  | O => []
  | S k => fst (Next rng) :: outputs k (snd (Next rng))
  end.

Definition advance_rng (k : nat) (rng : Random) : Random := Nat.iter k (fun r => snd (Next r)) rng.

Lemma advance_rng_S k rng : advance_rng k (snd (Next rng)) = advance_rng (S k) rng.
Proof. unfold advance_rng. by rewrite Nat.iter_succ_r. Qed.

Lemma outputs_snoc k rng : outputs (S k) rng = outputs k rng ++ [fst (Next (advance_rng k rng))].
Proof.
  revert rng. induction k as [|k IH]; intros rng; [done|]. cbn [outputs app]. f_equal.
  rewrite <- advance_rng_S. apply IH.
Qed.

Section random_theorems.
Context (HOST : Host).

(** The bytes of the numbers, as they lie in memory. *)
Definition word_bytes (ws : list Z) : bytes := mjoin (memcpy_of_uint 4 <$> ws).

Lemma length_word n v : length (memcpy_of_uint n v) = n.
Proof. unfold memcpy_of_uint. case_match; rewrite ?length_reverse, ?length_le_bytes; done. Qed.

Lemma length_word_bytes ws : length (word_bytes ws) = (4 * length ws)%nat.
Proof.
  induction ws as [|w ws IH]; [done|]. change (word_bytes (w :: ws)) with (memcpy_of_uint 4 w ++ word_bytes ws).
  rewrite length_app, length_word, IH. cbn [length]. lia.
Qed.

Lemma word_bytes_app a b : word_bytes (a ++ b) = word_bytes a ++ word_bytes b.
Proof. unfold word_bytes. by rewrite fmap_app, join_app. Qed.

Lemma memcpy_at_mid pre old post src :
  length old = length src -> memcpy_at (pre ++ old ++ post) (len pre) src = Some (pre ++ src ++ post).
Proof.
  intros Hl. unfold memcpy_at. pose proof (len_nonneg pre). pose proof (len_nonneg src).
  destruct (Z.leb_spec (len pre + len src) (len (pre ++ old ++ post))) as [_|Hx].
  2: { rewrite !len_app in Hx. pose proof (len_nonneg post). unfold len in *. lia. }
  unfold len. rewrite !Nat2Z.id, take_app_length. do 3 f_equal.
  replace (Z.to_nat (Z.of_nat (length pre) + Z.of_nat (length src))) with (length (pre ++ old)) by (rewrite length_app; lia).
  by rewrite (app_assoc pre), drop_app_length.
Qed.

(** The loop fills whole words, from the place it is at. *)
Lemma RandomString_loop_spec q fuel pre rest tail rng :
  length rest = (4 * q)%nat -> (length tail < 4)%nat -> (q < fuel)%nat ->
  4 <= len (pre ++ rest ++ tail) < 2 ^ 62 ->
  RandomString_loop fuel (pre ++ rest ++ tail) (len (pre ++ rest ++ tail)) (len pre) (fst (Next rng)) (snd (Next rng))
  = Some (pre ++ word_bytes (outputs q rng) ++ tail, len pre + 4 * Z.of_nat q,
          fst (Next (advance_rng q rng)), snd (Next (advance_rng q rng))).
Proof.
  revert fuel pre rest rng. induction q as [|q IH]; intros fuel pre rest rng Hr Ht Hf Hn;
    (destruct fuel as [|fuel]; [lia|]); cbn [RandomString_loop];
    assert (u64 (len (pre ++ rest ++ tail) - 4) = len (pre ++ rest ++ tail) - 4) as -> by (unfold u64; rewrite Z.mod_small; lia).
  - destruct rest; [|done]. destruct (Z.leb_spec (len pre) (len (pre ++ [] ++ tail) - 4)) as [Hx|_].
    + rewrite !len_app in Hx. unfold len in *. cbn in Hx. lia.
    + replace (len pre + 4 * Z.of_nat 0) with (len pre) by lia. done.
  - destruct (Z.leb_spec (len pre) (len (pre ++ rest ++ tail) - 4)) as [_|Hx].
    2: { rewrite !len_app in Hx. unfold len in *. lia. }
    rewrite <- (take_drop 4 rest), <- (app_assoc (take 4 rest)) at 1.
    rewrite memcpy_at_mid by (rewrite length_word, length_take; lia). cbn [mbind option_bind].
    destruct (Next (snd (Next rng))) as [x g] eqn:Hx.
    specialize (IH fuel (pre ++ memcpy_of_uint 4 (fst (Next rng))) (drop 4 rest) (snd (Next rng))).
    rewrite Hx in IH. cbn [fst snd] in IH. rewrite <- !app_assoc in IH.
    assert (len (pre ++ memcpy_of_uint 4 (fst (Next rng)) ++ drop 4 rest ++ tail) = len (pre ++ rest ++ tail)) as Hl.
    { unfold len. rewrite !length_app, length_word, length_drop. lia. }
    assert (u64 (len pre + 4) = len (pre ++ memcpy_of_uint 4 (fst (Next rng)))) as Hi.
    { rewrite !len_app in Hn. pose proof (len_nonneg rest). pose proof (len_nonneg tail).
      pose proof (len_nonneg pre). unfold u64. rewrite len_app, Z.mod_small by lia. unfold len. by rewrite length_word. }
    rewrite Hl in IH. rewrite Hi, IH by (rewrite ?length_drop; lia). rewrite advance_rng_S.
    replace (len (pre ++ memcpy_of_uint 4 (fst (Next rng))) + 4 * Z.of_nat q) with (len pre + 4 * Z.of_nat (S q))
      by (rewrite len_app; unfold len; rewrite length_word; lia).
    change (word_bytes (outputs (S q) rng)) with (memcpy_of_uint 4 (fst (Next rng)) ++ word_bytes (outputs q (snd (Next rng)))).
    by rewrite <- app_assoc.
Qed.

(** [RandomString] fills exactly the [n] bytes it is asked for, whatever they held before and
    for every [n], multiples of four and zero included, and never writes past them: they are the
    first bytes of the numbers the generator gives next, of which it uses up [n / 4 + 1]. *)
Theorem random_string_fills dest rng :
  len dest < 2 ^ 62 ->
  let k := (length dest / 4)%nat in
  RandomString dest (len dest) rng
  = Some (take (length dest) (word_bytes (outputs (S k) rng)), advance_rng (S k) rng).
Proof.
  intros Hn k. pose proof (len_nonneg dest). unfold RandomString. destruct (Next rng) as [random g] eqn:Hnext.
  set (whole := take (4 * k) dest). set (tail := drop (4 * k) dest).
  pose proof (Nat.div_mod_eq (length dest) 4) as Hdm. pose proof (Nat.mod_upper_bound (length dest) 4 ltac:(lia)). fold k in Hdm.
  assert (length whole = (4 * k)%nat) as Hw by (unfold whole; rewrite length_take; lia).
  assert (length tail < 4)%nat as Ht by (unfold tail; rewrite length_drop; lia).
  assert (dest = [] ++ whole ++ tail) as Hd by (symmetry; apply take_drop).
  assert ((if len dest >=? 4 then RandomString_loop (S (Z.to_nat (len dest))) dest (len dest) 0 random g else Some (dest, 0, random, g))
    = Some (word_bytes (outputs k rng) ++ tail, 4 * Z.of_nat k, fst (Next (advance_rng k rng)), snd (Next (advance_rng k rng)))) as ->.
  { rewrite Z.geb_leb. destruct (Z.leb_spec 4 (len dest)) as [Hge|Hlt].
    - pose proof (RandomString_loop_spec k (S (Z.to_nat (len dest))) [] whole tail rng Hw Ht) as Hloop.
      rewrite <- Hd, Hnext in Hloop. apply Hloop; unfold len in *; lia.
    - assert (k = 0%nat) as Hk by (unfold len in *; lia). subst tail whole. rewrite Hk. cbn. by rewrite Hnext. }
  cbn [mbind option_bind]. assert (u64 (len dest - 4 * Z.of_nat k) = len tail) as ->.
  { unfold u64, tail, len. rewrite Z.mod_small, length_drop by (unfold len in *; lia). lia. }
  assert (length (word_bytes (outputs k rng)) = (4 * k)%nat) as Hwb.
  { rewrite length_word_bytes. f_equal. generalize rng. clear. intros rng. revert rng. induction k as [|k IH]; intros; cbn; auto. }
  set (last_word := memcpy_of_uint 4 (fst (Next (advance_rng k rng)))).
  replace (word_bytes (outputs k rng) ++ tail) with (word_bytes (outputs k rng) ++ tail ++ []) by (by rewrite app_nil_r).
  replace (4 * Z.of_nat k) with (len (word_bytes (outputs k rng))) by (unfold len; lia).
  rewrite memcpy_at_mid by (rewrite length_take; unfold last_word, len; rewrite length_word; lia).
  cbn [mbind option_bind]. rewrite app_nil_r, outputs_snoc, word_bytes_app, take_app_ge by lia.
  do 3 f_equal. assert (word_bytes [fst (Next (advance_rng k rng))] = last_word) as -> by apply app_nil_r.
  f_equal. unfold len. rewrite Hwb, Nat2Z.id. unfold tail. by rewrite length_drop.
Qed.
End random_theorems.

(** *** The words of the generator *)

Definition mt_wf (st : mt19937) : Prop := length st = mt_n /\ Forall is_u32 st.

Lemma is_u32_u32 x : is_u32 (u32 x).
Proof. unfold is_u32, u32. apply Z.mod_pos_bound. lia. Qed.

Lemma is_u32_land_ones x : is_u32 x <-> Z.land x (Z.ones 32) = x.
Proof.
  rewrite Z.land_ones by lia. unfold is_u32. split; [apply Z.mod_small|]. intros <-. apply Z.mod_pos_bound. lia.
Qed.

Lemma is_u32_lxor a b : is_u32 a -> is_u32 b -> is_u32 (Z.lxor a b).
Proof.
  rewrite !is_u32_land_ones. intros Ha Hb. rewrite <- Ha, <- Hb. apply Z.bits_inj'. intros i Hi.
  rewrite !Z.land_spec, !Z.lxor_spec, !Z.land_spec. by destruct (Z.testbit a i), (Z.testbit b i), (Z.testbit (Z.ones 32) i).
Qed.

Lemma is_u32_lor a b : is_u32 a -> is_u32 b -> is_u32 (Z.lor a b).
Proof. rewrite !is_u32_land_ones. intros Ha Hb. by rewrite Z.land_lor_distr_l, Ha, Hb. Qed.

Lemma is_u32_land a b : is_u32 a -> is_u32 (Z.land a b).
Proof. rewrite !is_u32_land_ones. intros Ha. by rewrite <- Z.land_assoc, (Z.land_comm b), Z.land_assoc, Ha. Qed.

Lemma is_u32_shiftr a n : 0 <= n -> is_u32 a -> is_u32 (a ≫ n).
Proof.
  unfold is_u32. intros Hn [H0 H1]. rewrite Z.shiftr_div_pow2 by done. split; [apply Z.div_pos; lia|].
  apply Z.div_lt_upper_bound; [lia|]. pose proof (Z.pow_pos_nonneg 2 n). nia.
Qed.

Create HintDb words.
#[local] Hint Resolve is_u32_lxor is_u32_lor is_u32_land is_u32_u32 : words.
#[local] Hint Extern 1 (is_u32 (_ ≫ _)) => apply is_u32_shiftr; [lia|] : words.
#[local] Hint Extern 2 (is_u32 (Zpos _)) => (unfold is_u32; lia) : words.

Lemma mt_temper_u32 x : is_u32 x -> is_u32 (mt_temper x).
Proof. intros Hx. unfold mt_temper. auto 12 with words. Qed.

Lemma mt_twist_u32 x0 x1 xm : is_u32 x0 -> is_u32 x1 -> is_u32 xm -> is_u32 (mt_twist x0 x1 xm).
Proof. intros H0 H1 Hm. unfold mt_twist. case_match; auto 12 with words. apply is_u32_lxor; [auto 12 with words|done]. Qed.

Lemma mt_fill_spec k i x : length (mt_fill k i x) = k /\ Forall is_u32 (mt_fill k i x).
Proof.
  revert i x. induction k as [|k IH]; intros i x; cbn [mt_fill length]; [by split|].
  destruct (IH (i + 1) (u32 (1812433253 * Z.lxor x (x ≫ 30) + i))) as [H1 H2]. split; [by rewrite H1|].
  constructor; [apply is_u32_u32|done].
Qed.

Lemma mt_seed_wf seed : mt_wf (mt_seed seed).
Proof.
  destruct (mt_fill_spec (mt_n - 1) 1 (u32 seed)) as [Hl Hf]. unfold mt_wf, mt_seed. cbn [length].
  split; [by rewrite Hl|]. constructor; [apply is_u32_u32|exact Hf].
Qed.

Lemma mt_next_wf st :
  mt_wf st -> mt_wf (snd (mt_next st)) /\ is_u32 (fst (mt_next st)).
Proof.
  intros [Hlen Hall]. destruct st as [|x0 [|x1 st]]; [discriminate Hlen|discriminate Hlen|].
  assert (is_u32 (nth mt_m (x0 :: x1 :: st) 0)) as Hm.
  { destruct (nth_in_or_default mt_m (x0 :: x1 :: st) 0) as [Hin|E]; [|rewrite E; unfold is_u32; lia].
    rewrite Forall_forall in Hall. by apply Hall, list_elem_of_In. }
  rewrite !Forall_cons in Hall. destruct Hall as (H0 & H1 & Hst).
  pose proof (mt_twist_u32 x0 x1 _ H0 H1 Hm) as Ht. cbn [mt_next fst snd]. split; [split|by apply mt_temper_u32].
  - rewrite length_app. cbn [length] in *. lia.
  - apply Forall_app. split; [exact (Forall_cons_2 _ _ _ H1 Hst)|exact (Forall_cons_2 _ _ _ Ht (Forall_nil_2 _))].
Qed.

(** the generator keeps its type: it starts, whatever the seed, with 624 words of 32 bits, every
    number leaves it that way, and the number itself has 32 bits, so that the cast in [Next]
    changes nothing and [Uniform] is below its bound. *)
Theorem random_stays_well_formed seed rng n :
  mt_wf (gen_ rng) -> 0 < n < 2 ^ 32 ->
  mt_wf (gen_ (new_Random seed)) /\ mt_wf (gen_ (snd (Next rng))) /\
  fst (Next rng) = fst (mt_next (gen_ rng)) /\ is_u32 (fst (Next rng)) /\
  exists r, Uniform n rng = Some (r, snd (Next rng)) /\ 0 <= r < n.
Proof.
  intros Hwf Hn. destruct (mt_next_wf _ Hwf) as [Hst Hz]. pose proof (mt_seed_wf seed) as Hseed.
  unfold Uniform, Next. destruct (mt_next (gen_ rng)) as [z st]. cbn [fst snd gen_ new_Random] in *.
  assert (u32 z = z) as Hu by (unfold u32; by apply Z.mod_small).
  rewrite Hu. split_and!; [exact Hseed|exact Hst|done|exact Hz|].
  destruct (Z.eqb_spec n 0); [lia|]. eexists. split; [done|]. apply Z.mod_pos_bound. lia.
Qed.

(** ** Error messages *)

(** [strerror_r] keeps within its buffer and terminates what it leaves there. *)
Class StrerrorSpec (SR : Strerror) : Prop := {
  posix_strerror_len err buf : length (snd (posix_strerror_r err buf)) = length buf;
  posix_strerror_string err buf : buf <> [] ->
    fst (posix_strerror_r err buf) ∈ [0; ERANGE; EINVAL] -> is_Some (c_string (snd (posix_strerror_r err buf)));
  gnu_strerror_len err buf b : gnu_strerror_r err buf = inl b -> length b = length buf;
  gnu_strerror_string err buf b : buf <> [] -> gnu_strerror_r err buf = inl b -> is_Some (c_string b);
  gnu_strerror_static err buf s : gnu_strerror_r err buf = inr s -> Forall (fun b => b <> 0) s;
}.

Lemma c_string_app s rest : Forall (fun b => b <> 0) s -> c_string (s ++ 0 :: rest) = Some s.
Proof.
  induction 1 as [|b s Hb _ IH]; [done|]. cbn. destruct (Z.eqb_spec b 0); [done|]. by rewrite IH.
Qed.

(** A copied message is cut to the buffer. *)
Lemma copied_string s n :
  (0 < n)%nat -> Forall (fun b => b <> 0) s ->
  length (<[(n - 1)%nat := 0]> (strncpy s n)) = n /\
  c_string (<[(n - 1)%nat := 0]> (strncpy s n)) = Some (take (n - 1) s).
Proof.
  intros Hn Hs. assert (length (strncpy s n) = n) as Hl.
  { unfold strncpy. rewrite length_take, length_app, repeat_length. lia. }
  rewrite length_insert. split; [done|].
  assert (strncpy s n = take (n - 1) (strncpy s n) ++ [nth (n - 1) (strncpy s n) 0]) as Hsplit.
  { rewrite <- (firstn_all (strncpy s n)) at 1. rewrite Hl. replace n with (S (n - 1)) at 1 by lia.
    apply take_S_r. rewrite nth_lookup. destruct (lookup_lt_is_Some_2 (strncpy s n) (n - 1)) as [x Hx]; [lia|]. by rewrite Hx. }
  assert (<[(n - 1)%nat := 0]> (strncpy s n) = take (n - 1) (strncpy s n) ++ [0]) as ->.
  { rewrite Hsplit at 1. rewrite insert_app_r_alt by (rewrite length_take; lia).
    replace (n - 1 - length (take (n - 1) (strncpy s n)))%nat with 0%nat by (rewrite length_take; lia). done. }
  unfold strncpy. rewrite take_take, Nat.min_l by lia. destruct (decide (n - 1 <= length s)%nat) as [Hle|Hgt].
  - rewrite take_app_le by done. apply c_string_app. by apply Forall_take.
  - rewrite take_app_ge, (take_ge s) by lia. rewrite <- app_assoc.
    replace n with (S (n - 1)) at 2 by lia. destruct (n - 1 - length s)%nat as [|k] eqn:Hk; [lia|]. cbn.
    by apply c_string_app.
Qed.

(** [ErrnoToString] never reads past its buffer: with either version of [strerror_r], whatever
    the buffer held, there is a terminator in it; a message that lies elsewhere is cut to the
    buffer, and an unexpected error of [strerror_r] gives [unknown error]. *)
Theorem errno_string (SR : Strerror) (SS : StrerrorSpec SR) err uninit :
  uninit <> [] ->
  exists buf s, ErrnoToCString err uninit = Some buf /\ length buf = length uninit /\
    ErrnoToString err uninit = Some s /\
    (if glibc_version then
       match gnu_strerror_r err uninit with
       | inl b => c_string b = Some s
       | inr m => s = take (length uninit - 1) m
       end
     else if bool_decide (fst (posix_strerror_r err uninit) ∈ [0; ERANGE; EINVAL])
          then c_string (snd (posix_strerror_r err uninit)) = Some s
          else s = take (length uninit - 1) unknown_error).
Proof.
  intros Hne. assert (0 < length uninit)%nat as Hlen by (destruct uninit; [done|cbn; lia]).
  unfold ErrnoToString, ErrnoToCString. rewrite Z.gtb_ltb. destruct (Z.ltb_spec 0 (len uninit)); [|unfold len in *; lia].
  destruct glibc_version; cbn [negb mbind option_bind].
  - destruct (gnu_strerror_r err uninit) as [b|m] eqn:Hg.
    + destruct (gnu_strerror_string err uninit b Hne Hg) as [s Hs]. exists b, s.
      split_and!; [done|by apply (gnu_strerror_len err uninit)|done|done].
    + destruct (copied_string m (length uninit) Hlen (gnu_strerror_static err uninit m Hg)) as [H1 H2]. by eexists _, _.
  - pose proof (posix_strerror_len err uninit) as Hl. pose proof (posix_strerror_string err uninit Hne) as Hs.
    destruct (posix_strerror_r err uninit) as [ret b]. cbn [fst snd] in *.
    assert (negb (ret =? 0) && negb (ret =? ERANGE) && negb (ret =? EINVAL) = negb (bool_decide (ret ∈ [0; ERANGE; EINVAL]))) as ->.
    { apply eq_bool_prop_intro. rewrite !andb_True, !negb_True, bool_decide_spec, !elem_of_cons, elem_of_nil, !Is_true_true, !Z.eqb_eq.
      tauto. }
    case_bool_decide as Hin; cbn [negb].
    + destruct (Hs Hin) as [s Hs']. by exists b, s.
    + destruct (copied_string unknown_error (length uninit) Hlen ltac:(by repeat constructor)) as [H1 H2]. by eexists _, _.
Qed.
