(* ===== verification/Posix.v ===== *)
(** * Files: [src/src/base/env_posix.cc], [src/src/base/env_util.cc], [include/consensus/base/env.h]

    The operating system is a state [os] and the calls the code makes on it; the classes of
    [env_posix.cc] are translated on top of those calls.

    A call may be interrupted, do less than asked or fail: [os_script] says what the next
    calls do, one element per call, and an exhausted script means every later call does what
    was asked.  Theorems quantify over the script, so they cover every finite pattern of short
    writes, [EINTR] and errors. *)

From S2P Require Import Prelude External Status.

(** ** The operating system *)

Inductive sysres :=
  | SysOk              (* the call does what was asked *)
  | SysShort (n : nat) (* a read or write transfers at most [n] bytes *)
  | SysErr (e : Z).    (* the call returns -1 with this [errno] *)

(** [errno] values. *)
Definition ENOENT : Z := 2.
Definition EINTR : Z := 4.
Definition EBADF : Z := 9.
Definition EEXIST : Z := 17.

(** An open file description: the file and the current offset. *)
Record open_file := OpenFile { of_path : string; of_off : nat }.

Record os := MkOs {
  os_files : gmap string bytes;      (* what a read sees *)
  os_durable : gmap string bytes;    (* what the last [fdatasync] put on stable storage *)
  os_dirs : gset string;
  os_fds : gmap Z open_file;
  os_next_fd : Z;
  os_script : list sysres;
}.

Definition with_files (m : gmap string bytes) (o : os) : os :=
  MkOs m (os_durable o) (os_dirs o) (os_fds o) (os_next_fd o) (os_script o).
Definition with_durable (m : gmap string bytes) (o : os) : os :=
  MkOs (os_files o) m (os_dirs o) (os_fds o) (os_next_fd o) (os_script o).
Definition with_dirs (d : gset string) (o : os) : os :=
  MkOs (os_files o) (os_durable o) d (os_fds o) (os_next_fd o) (os_script o).
Definition with_fds (m : gmap Z open_file) (o : os) : os :=
  MkOs (os_files o) (os_durable o) (os_dirs o) m (os_next_fd o) (os_script o).
Definition with_next_fd (n : Z) (o : os) : os :=
  MkOs (os_files o) (os_durable o) (os_dirs o) (os_fds o) n (os_script o).
Definition with_script (s : list sysres) (o : os) : os :=
  MkOs (os_files o) (os_durable o) (os_dirs o) (os_fds o) (os_next_fd o) s.

(** What the environment does to the next call. *)
Definition next_sys (o : os) : sysres * os :=
  match os_script o with
  | [] => (SysOk, o)
  | r :: s => (r, with_script s o)
  end.

(** How many of [n] bytes a transfer moves. *)
Definition transferred (r : sysres) (n : nat) : nat :=
  match r with SysShort k => k `min` n | _ => n end.

(** Store [d] at offset [off] of a file with contents [c]; a gap is filled with zeros. *)
Definition overwrite (c : bytes) (off : nat) (d : bytes) : bytes :=
  take off c ++ replicate (off - length c) 0 ++ d ++ drop (off + length d) c.

(** *** System calls: [inl errno] is a return value of -1 *)

(** The directory part of a path, up to its last slash, and whether that directory is there; the
    root and the working directory always are. *)
Fixpoint parent_of (path : string) : option string :=
  match path with
  | EmptyString => None
  | String c rest =>
      match parent_of rest with
      | Some dir => Some (String c dir)
      | None => if bool_decide (c = "/"%char) then Some EmptyString else None
      end
  end.

Definition has_parent (path : string) (o : os) : bool :=
  match parent_of path with
  | None => true
  | Some dir => bool_decide (dir = ""%string \/ dir ∈ os_dirs o)
  end.

Definition sys_open (path : string) (creat excl trunc : bool) (o : os) : (Z + Z) * os :=
  match next_sys o with
  | (SysErr e, o) => (inl e, o)
  | (_, o) =>
      let open_as c :=
        let fd := os_next_fd o in
        (inr fd, with_next_fd (fd + 1) (with_fds (<[fd := OpenFile path 0]> (os_fds o))
                   (with_files (<[path := c]> (os_files o)) o))) in
      match os_files o !! path with
      | Some c => if creat && excl then (inl EEXIST, o) else open_as (if trunc then [] else c)
      | None => if creat && has_parent path o then open_as [] else (inl ENOENT, o)
      end
  end.

Definition sys_write (fd : Z) (d : bytes) (o : os) : (Z + nat) * os :=
  match next_sys o with
  | (SysErr e, o) => (inl e, o)
  | (r, o) =>
      match os_fds o !! fd with
      | None => (inl EBADF, o)
      | Some (OpenFile path off) =>
          let n := transferred r (length d) in
          let c := default [] (os_files o !! path) in
          (inr n, with_fds (<[fd := OpenFile path (off + n)]> (os_fds o))
                    (with_files (<[path := overwrite c off (take n d)]> (os_files o)) o))
      end
  end.

Definition sys_pwrite (fd : Z) (d : bytes) (off : nat) (o : os) : (Z + nat) * os :=
  match next_sys o with
  | (SysErr e, o) => (inl e, o)
  | (r, o) =>
      match os_fds o !! fd with
      | None => (inl EBADF, o)
      | Some (OpenFile path _) =>
          let n := transferred r (length d) in
          let c := default [] (os_files o !! path) in
          (inr n, with_files (<[path := overwrite c off (take n d)]> (os_files o)) o)
      end
  end.

Definition sys_pread (fd : Z) (n off : nat) (o : os) : (Z + bytes) * os :=
  match next_sys o with
  | (SysErr e, o) => (inl e, o)
  | (r, o) =>
      match os_fds o !! fd with
      | None => (inl EBADF, o)
      | Some (OpenFile path _) =>
          let c := default [] (os_files o !! path) in
          (inr (take (transferred r n) (drop off c)), o)
      end
  end.

Definition sys_ftruncate (fd : Z) (n : nat) (o : os) : (Z + unit) * os :=
  match next_sys o with
  | (SysErr e, o) => (inl e, o)
  | (_, o) =>
      match os_fds o !! fd with
      | None => (inl EBADF, o)
      | Some (OpenFile path _) =>
          let c := default [] (os_files o !! path) in
          (inr tt, with_files (<[path := take n c ++ replicate (n - length c) 0]> (os_files o)) o)
      end
  end.

Definition sys_fdatasync (fd : Z) (o : os) : (Z + unit) * os :=
  match next_sys o with
  | (SysErr e, o) => (inl e, o)
  | (_, o) =>
      match os_fds o !! fd with
      | None => (inl EBADF, o)
      | Some (OpenFile path _) =>
          (inr tt, with_durable (<[path := default [] (os_files o !! path)]> (os_durable o)) o)
      end
  end.

(** [sync_file_range] starts or waits for the writing of dirty pages; it makes no promise about
    what survives a power loss. *)
Definition sys_sync_file_range (fd flags : Z) (o : os) : (Z + unit) * os :=
  match next_sys o with
  | (SysErr e, o) => (inl e, o)
  | (_, o) => (match os_fds o !! fd with None => inl EBADF | Some _ => inr tt end, o)
  end.

(** [close] releases the descriptor even when it reports an error. *)
Definition sys_close (fd : Z) (o : os) : (Z + unit) * os :=
  match os_fds o !! fd with
  | None => (inl EBADF, o)
  | Some _ =>
      match next_sys o with
      | (SysErr e, o) => (inl e, with_fds (delete fd (os_fds o)) o)
      | (_, o) => (inr tt, with_fds (delete fd (os_fds o)) o)
      end
  end.

(** *** The [boost::filesystem] calls of [PosixEnv] *)

Class BoostFs := {
  (** The file names in a directory, in the order the iterator yields them. *)
  directory_names : os -> string -> list string;
}.

(** [name] is an entry of [dir]: the path [dir/name] is a file or a directory. *)
Definition path_join (dir name : string) : string := dir +:+ "/" +:+ name.

Definition no_slash (s : string) : Prop := "/"%char ∉ String.list_ascii_of_string s.

Class BoostFsSpec (B : BoostFs) : Prop := {
  directory_names_spec o dir name :
    name ∈ directory_names o dir <->
    no_slash name /\ (is_Some (os_files o !! path_join dir name) \/ path_join dir name ∈ os_dirs o);
  directory_names_nodup o dir : NoDup (directory_names o dir);
}.

(** A [boost] call that fails with an error code when the script says so. *)
Definition boost_call {A} (k : os -> (Z + A) * os) (o : os) : (Z + A) * os :=
  match next_sys o with
  | (SysErr e, o) => (inl e, o)
  | (_, o) => k o
  end.

Definition boost_file_size (path : string) : os -> (Z + Z) * os := boost_call (fun o =>
  match os_files o !! path with Some c => (inr (len c), o) | None => (inl ENOENT, o) end).

Definition boost_create_directories (path : string) : os -> (Z + unit) * os := boost_call (fun o =>
  (inr tt, with_dirs ({[path]} ∪ os_dirs o) o)).

Definition boost_remove (path : string) : os -> (Z + unit) * os := boost_call (fun o =>
  (inr tt, with_files (delete path (os_files o)) o)).

(** [is_directory] of what is not there sets the error code. *)
Definition boost_is_directory (path : string) : os -> (Z + bool) * os := boost_call (fun o =>
  if bool_decide (path ∈ os_dirs o) then (inr true, o)
  else match os_files o !! path with Some _ => (inr false, o) | None => (inl ENOENT, o) end).

(** [create_directory] on a directory that exists creates nothing and reports no error. *)
Definition boost_create_directory (path : string) : os -> (Z + bool) * os := boost_call (fun o =>
  (inr (bool_decide (path ∉ os_dirs o)), with_dirs ({[path]} ∪ os_dirs o) o)).

(** Whether [p] is [path] or lies below it. *)
Definition below (path p : string) : bool :=
  bool_decide (p = path) || String.prefix (path +:+ "/") p.

Definition boost_remove_all (path : string) : os -> (Z + unit) * os := boost_call (fun o =>
  (inr tt, with_dirs (filter (fun d => below path d = false) (os_dirs o))
             (with_files (filter (fun '(p, _) => below path p = false) (os_files o)) o))).

(** ** The classes of [env_posix.cc] *)

(** A routine of the environment: it works on the operating system. *)
Abbreviation Env := (Prog ErrorCode os).

(** The [Status] a failed call becomes: [FileIOError] and [RETURN_BOOST_EC] both build an
    [IOError] whose text is not modelled. *)
Definition FileIOError {S A} : Prog ErrorCode S A := fail IOError.

(** Turn a call into a routine: an error becomes an [IOError] status. *)
Definition or_io_error {A} (call : os -> (Z + A) * os) : Env A := fun o =>
  match call o with
  | (inl _, o) => (Err IOError, o)
  | (inr a, o) => (Ok a, o)
  end.

Definition DoSync (fd : Z) : Env unit := or_io_error (sys_fdatasync fd).

Inductive CreateMode := CREATE_IF_NON_EXISTING_TRUNCATE | CREATE_NON_EXISTING | OPEN_EXISTING.

(** The [default] case of the switch is unreachable for the three modes. *)
Definition DoOpen (filename : string) (mode : CreateMode) : Env Z :=
  match mode with
  | CREATE_IF_NON_EXISTING_TRUNCATE => or_io_error (sys_open filename true false true)
  | CREATE_NON_EXISTING => or_io_error (sys_open filename true true false)
  | OPEN_EXISTING => or_io_error (sys_open filename false false false)
  end.

Definition DoGetFileSize (fname : string) : Env Z := or_io_error (boost_file_size fname).

(** *** [PosixWritableFile] *)

Record PosixWritableFile := MkPosixWritableFile {
  filename_ : string;
  fd_ : Z;
  sync_on_close_ : bool;
  filesize_ : Z;
  pre_allocated_size_ : Z;
  pending_sync_ : bool;
}.

Definition new_PosixWritableFile (fname : string) (fd file_size : Z) (sync_on_close : bool) :
    PosixWritableFile :=
  MkPosixWritableFile fname fd sync_on_close file_size 0 false.

Definition set_filesize_ (n : Z) (f : PosixWritableFile) : PosixWritableFile :=
  MkPosixWritableFile (filename_ f) (fd_ f) (sync_on_close_ f) n (pre_allocated_size_ f)
    (pending_sync_ f).
Definition set_fd_ (fd : Z) (f : PosixWritableFile) : PosixWritableFile :=
  MkPosixWritableFile (filename_ f) fd (sync_on_close_ f) (filesize_ f) (pre_allocated_size_ f)
    (pending_sync_ f).
Definition set_pending_sync_ (b : bool) (f : PosixWritableFile) : PosixWritableFile :=
  MkPosixWritableFile (filename_ f) (fd_ f) (sync_on_close_ f) (filesize_ f)
    (pre_allocated_size_ f) b.

(** A method of a file object: it works on the operating system and on the object. *)
Abbreviation FileM := (Prog ErrorCode (os * PosixWritableFile)).

Definition this : FileM PosixWritableFile := gets snd.
Definition set_this (f : PosixWritableFile -> PosixWritableFile) : FileM unit :=
  modify (fun '(o, this) => (o, f this)).
Definition in_os {A} (m : Env A) : FileM A := zoom fst (fun o '(_, f) => (o, f)) m.
(** A call whose [errno] the method inspects itself. *)
Definition call {A} (c : os -> (Z + A) * os) : FileM (Z + A) :=
  in_os (fun o => let '(r, o) := c o in (Ok r, o)).

(** The turns of a transfer loop: one per element of the script, one that ends the transfer and
    one that sees that nothing is left. *)
Definition turns (o : os) : nat := S (S (length (os_script o))).
Arguments turns : simpl never.

Fixpoint Append_loop (fuel : nat) (src : bytes) : FileM unit :=
  match fuel with
  | O => halt_with OutOfFuel
  | S fuel =>
      match src with
      | [] => mret tt
      | _ =>
          f ← this;
          done ← call (sys_write (fd_ f) src);
          match done with
          | inl e => if bool_decide (e = EINTR) then Append_loop fuel src else FileIOError
          | inr n => Append_loop fuel (drop n src)
          end
      end
  end.

Definition Append (data : bytes) : FileM unit :=
  fuel ← in_os (gets turns);
  _ ← Append_loop fuel data;
  set_this (fun f => set_filesize_ (u64 (filesize_ f + len data)) f).

Fixpoint PositionedAppend_loop (fuel : nat) (src : bytes) (offset : Z) : FileM Z :=
  match fuel with
  | O => halt_with OutOfFuel
  | S fuel =>
      match src with
      | [] => mret offset
      | _ =>
          f ← this;
          done ← call (sys_pwrite (fd_ f) src (Z.to_nat offset));
          match done with
          | inl e =>
              if bool_decide (e = EINTR) then PositionedAppend_loop fuel src offset else FileIOError
          | inr n => PositionedAppend_loop fuel (drop n src) (u64 (offset + Z.of_nat n))
          end
      end
  end.

(** [DLOG_ASSERT(offset <= max off_t)] is a check of debug builds. *)
Definition PositionedAppend (data : bytes) (offset : Z) : FileM unit :=
  fuel ← in_os (gets turns);
  offset ← PositionedAppend_loop fuel data offset;
  set_this (set_filesize_ offset).

Definition Sync : FileM unit :=
  f ← this;
  if pending_sync_ f then
    _ ← set_this (set_pending_sync_ false);
    in_os (DoSync (fd_ f))
  else mret tt.

(** [RETRY_ON_EINTR(ret, ftruncate(...))]. *)
Fixpoint ftruncate_retry (fuel : nat) (fd : Z) (n : nat) : FileM (Z + unit) :=
  match fuel with
  | O => halt_with OutOfFuel
  | S fuel =>
      r ← call (sys_ftruncate fd n);
      match r with
      | inl e => if bool_decide (e = EINTR) then ftruncate_retry fuel fd n else mret (inl e)
      | inr _ => mret (inr tt)
      end
  end.

(** Keep the status of a call in a local variable instead of returning it. *)
Definition keep_status {S A} (m : Prog ErrorCode S A) : Prog ErrorCode S (option ErrorCode) :=
  fun s => match m s with
           | (Ok _, s) => (Ok None, s)
           | (Err e, s) => (Ok (Some e), s)
           | (Halt h, s) => (Halt h, s)
           end.

(** [Close] asks [s.OK()], the static function that builds an OK status, and converts the
    result to [bool]; [status_ok_truth] is the value of that conversion, which the class
    [silly::Status] defines. *)
Class StatusBool := status_ok_truth : bool.

Definition Close `{StatusBool} : FileM unit :=
  f ← this;
  s ← (if filesize_ f <? pre_allocated_size_ f then
         fuel ← in_os (gets turns);
         ret ← ftruncate_retry fuel (fd_ f) (Z.to_nat (filesize_ f));
         match ret with
         | inl _ => _ ← set_this (set_pending_sync_ true); mret (Some IOError)
         | inr _ => mret None
         end
       else mret None);
  s ← (if sync_on_close_ f then
         sync_status ← keep_status Sync;
         if negb status_ok_truth then mret (if status_ok_truth then sync_status else s)
         else mret s
       else mret s);
  f ← this;
  closed ← call (sys_close (fd_ f));
  let s := match closed with
           | inl _ => if status_ok_truth then Some IOError else s
           | inr _ => s
           end in
  _ ← set_this (set_fd_ (-1));
  match s with Some e => fail e | None => mret tt end.

Inductive FlushMode := FLUSH_SYNC | FLUSH_ASYNC.

(** The Linux branch; the flags are those of [sync_file_range]. *)
Definition Flush (mode : FlushMode) : FileM unit :=
  let SYNC_FILE_RANGE_WAIT_BEFORE := 1 in
  let SYNC_FILE_RANGE_WRITE := 2 in
  let SYNC_FILE_RANGE_WAIT_AFTER := 4 in
  let flags := SYNC_FILE_RANGE_WRITE in
  let flags := match mode with
               | FLUSH_SYNC =>
                   Z.lor (Z.lor flags SYNC_FILE_RANGE_WAIT_BEFORE) SYNC_FILE_RANGE_WAIT_AFTER
               | FLUSH_ASYNC => flags
               end in
  f ← this;
  r ← call (sys_sync_file_range (fd_ f) flags);
  match r with inl _ => FileIOError | inr _ => mret tt end.

Definition Size (f : PosixWritableFile) : Z := filesize_ f.

(** The destructor closes a file that is still open; a bad status is only logged. *)
Definition delete_PosixWritableFile `{StatusBool} : FileM unit :=
  f ← this;
  if fd_ f >=? 0 then _ ← keep_status Close; mret tt else mret tt.

(** [PreAllocate] and [Truncate] are those of the base class [WritableFile]. *)
Definition PreAllocate (size : Z) : FileM unit := fail NotSupported.
Definition Truncate (size : Z) : FileM unit := fail NotSupported.

(** *** [PosixRandomAccessFile] *)

Record PosixRandomAccessFile := MkPosixRandomAccessFile { raf_filename_ : string; raf_fd_ : Z }.

(** [RETRY_ON_EINTR(r, pread(...))]; on an error the result slice is not meaningful, and the
    status says so. *)
Fixpoint pread_retry (fuel : nat) (fd : Z) (n off : nat) : Env bytes := fun o =>
  match fuel with
  | O => (Halt OutOfFuel, o)
  | S fuel =>
      match sys_pread fd n off o with
      | (inl e, o) => if bool_decide (e = EINTR) then pread_retry fuel fd n off o else (Err IOError, o)
      | (inr d, o) => (Ok d, o)
      end
  end.

Definition Read (f : PosixRandomAccessFile) (offset n : Z) : Env bytes :=
  fuel ← gets turns;
  pread_retry fuel (raf_fd_ f) (Z.to_nat n) (Z.to_nat offset).

Definition raf_Size (f : PosixRandomAccessFile) : Env Z := DoGetFileSize (raf_filename_ f).

Definition delete_PosixRandomAccessFile (f : PosixRandomAccessFile) : Env unit := fun o =>
  let '(_, o) := sys_close (raf_fd_ f) o in (Ok tt, o).

(** *** [PosixEnv] *)

Definition GetFileSize (fname : string) : Env Z := DoGetFileSize fname.

Definition NewWritableFile (fname : string) (mode : CreateMode) (sync_on_close : bool) :
    Env PosixWritableFile :=
  file_size ← match mode with OPEN_EXISTING => GetFileSize fname | _ => mret 0 end;
  fd ← DoOpen fname mode;
  mret (new_PosixWritableFile fname fd file_size sync_on_close).

Definition NewRandomAccessFile (fname : string) : Env PosixRandomAccessFile :=
  fd ← or_io_error (sys_open fname false false false);
  mret (MkPosixRandomAccessFile fname fd).

Definition CreateDir (dirname : string) : Env unit :=
  _ ← or_io_error (boost_create_directory dirname); mret tt.

Definition CreateDirIfMissing (dirname : string) : Env unit :=
  or_io_error (boost_create_directories dirname).

Definition DeleteRecursively (name : string) : Env unit := or_io_error (boost_remove_all name).

Definition DeleteFile (fname : string) : Env unit := or_io_error (boost_remove fname).

(** [CHECK(isDir)] ends the process for a file; the names are appended to [result]. *)
Definition GetChildren `{BoostFs} (dir : string) (result : list string) : Env (list string) :=
  isDir ← or_io_error (boost_is_directory dir);
  if (isDir : bool) then names ← gets (fun o => directory_names o dir); mret (result ++ names)
  else halt_with FatalLog.

(** ** [env_util.cc] *)

Fixpoint ReadFully_loop (fuel : nat) (file : PosixRandomAccessFile) (offset remain : Z)
    (scratch : bytes) : Env bytes :=
  match fuel with
  | O => halt_with OutOfFuel
  | S fuel =>
      if remain >? 0 then
        this_result ← Read file offset remain;
        match this_result with
        | [] => fail IOError
        | _ => ReadFully_loop fuel file (offset + len this_result) (remain - len this_result)
                 (scratch ++ this_result)
        end
      else mret scratch
  end.

Definition ReadFully (file : PosixRandomAccessFile) (offset n : Z) : Env bytes :=
  fuel ← gets turns;
  ReadFully_loop fuel file offset n [].

(** The file object is not deleted, so its descriptor stays open. *)
Definition ReadFullyToBuffer (fname : string) : Env bytes :=
  raf ← NewRandomAccessFile fname;
  n ← raf_Size raf;
  ReadFully raf 0 n.

(** ** Behaviour of the transfer loops *)

(** The environment's answer takes at most one element of the script. *)
Lemma next_sys_cases o :
  (os_script o = [] /\ next_sys o = (SysOk, o)) \/
  exists r s, os_script o = r :: s /\ next_sys o = (r, with_script s o).
Proof. unfold next_sys. destruct (os_script o) as [|r s]; eauto. Qed.

(** From [o] to [o'] a result of the script was used up. *)
Definition fault_used (o o' : os) : Prop := (length (os_script o') < length (os_script o))%nat.

Lemma fault_used_ne o o' : fault_used o o' -> os_script o <> [].
Proof. unfold fault_used. intros H Hn. rewrite Hn in H. simpl in H. lia. Qed.

Lemma fault_used_next o r s : os_script o = r :: s -> fault_used o (with_script s o).
Proof. unfold fault_used. intros ->. simpl. lia. Qed.

Lemma fault_used_after o o1 o' : os_script o1 `suffix_of` os_script o -> fault_used o1 o' -> fault_used o o'.
Proof. intros Hs%suffix_length. unfold fault_used. lia. Qed.

Lemma overwrite_end c d : overwrite c (length c) d = c ++ d.
Proof.
  unfold overwrite. rewrite Nat.sub_diag, firstn_all, drop_ge by lia. simpl.
  by rewrite app_nil_r.
Qed.

(** The state after [d] was appended to the open file [path] with contents [c]. *)
Definition os_appended (o : os) (fd : Z) (path : string) (c d : bytes) (s : list sysres) : os :=
  MkOs (<[path := c ++ d]> (os_files o)) (os_durable o) (os_dirs o)
       (<[fd := OpenFile path (length (c ++ d))]> (os_fds o)) (os_next_fd o) s.

Lemma os_appended_nil o fd path c s :
  os_fds o !! fd = Some (OpenFile path (length c)) -> os_files o !! path = Some c ->
  os_appended o fd path c [] s = with_script s o.
Proof.
  intros Hfd Hf. unfold os_appended, with_script. rewrite app_nil_r.
  by rewrite !insert_id by done.
Qed.

Lemma os_appended_app o fd path c d1 d2 s1 s2 :
  os_appended (os_appended o fd path c d1 s1) fd path (c ++ d1) d2 s2
  = os_appended o fd path c (d1 ++ d2) s2.
Proof. unfold os_appended. simpl. by rewrite !insert_insert_eq, <- !app_assoc. Qed.

(** A write at the end of an open file. *)
Lemma sys_write_end o fd path c d :
  os_fds o !! fd = Some (OpenFile path (length c)) -> os_files o !! path = Some c ->
  match sys_write fd d o with
  | (inr n, o') =>
      exists s, o' = os_appended o fd path c (take n d) s /\ s `suffix_of` os_script o /\
      (os_script o = [] -> n = length d) /\ (os_script o <> [] -> length (os_script o) = S (length s))
  | (inl e, o') =>
      exists s, o' = with_script s o /\ s `suffix_of` os_script o /\
      os_script o <> [] /\ length (os_script o) = S (length s)
  end.
Proof.
  intros Hfd Hf. unfold sys_write. destruct (next_sys_cases o) as [[Hs ->]|(r & s & Hs & ->)].
  - rewrite Hfd, Hf. simpl. exists []. rewrite Hs. split_and!; [|done..].
    unfold os_appended, with_fds, with_files. simpl.
    by rewrite firstn_all, overwrite_end, length_app, Hs.
  - assert (s `suffix_of` os_script o) by (rewrite Hs; by apply suffix_cons_r).
    destruct r as [|n|e]; simpl; rewrite ?Hfd, ?Hf; simpl; exists s; rewrite Hs.
    + split_and!; [|by apply suffix_cons_r|done..].
      unfold os_appended, with_fds, with_files. simpl.
      by rewrite firstn_all, overwrite_end, length_app.
    + split_and!; [|by apply suffix_cons_r|done..].
      unfold os_appended, with_fds, with_files. simpl. rewrite overwrite_end, length_app, length_take.
      by replace (n `min` length d `min` length d)%nat with (n `min` length d)%nat by lia.
    + split_and!; [done|by apply suffix_cons_r|done..].
Qed.

Lemma wp_call {A} (c : os -> (Z + A) * os) o f (Q : result ErrorCode (Z + A) -> _ -> Prop) :
  (let '(r, o') := c o in Q (Ok r) (o', f)) -> wp (call c) (o, f) Q.
Proof. unfold wp, call, in_os, zoom. simpl. by destruct (c o). Qed.

(** How far an append got: all of it, or a part and an [IOError] the script explains. *)
Definition append_post (o : os) (f : PosixWritableFile) (path : string) (c src : bytes)
    (r : result ErrorCode unit) (st : os * PosixWritableFile) : Prop :=
  exists d s, st = (os_appended o (fd_ f) path c d s, f) /\ s `suffix_of` os_script o /\
  match r with
  | Ok _ => d = src
  | Err e => e = IOError /\ os_script o <> [] /\ d `prefix_of` src
  | Halt _ => False
  end.

Lemma Append_loop_spec fuel src o f path c :
  os_fds o !! fd_ f = Some (OpenFile path (length c)) -> os_files o !! path = Some c ->
  (length (os_script o) + 2 <= fuel)%nat ->
  wp (Append_loop fuel src) (o, f) (append_post o f path c src).
Proof.
  revert src o c. induction fuel as [|fuel IH]; intros src o c Hfd Hf Hfuel; [lia|].
  destruct src as [|b src]; simpl.
  { exists [], (os_script o). rewrite os_appended_nil by done. by destruct o. }
  unfold this. wp_steps. apply wp_call.
  pose proof (sys_write_end o (fd_ f) path c (b :: src) Hfd Hf) as Hw.
  destruct (sys_write (fd_ f) (b :: src) o) as [[e|n] o'].
  - destruct Hw as (s & -> & Hsuf & Hne & Hlen). case_bool_decide.
    + eapply wp_mono; [apply (IH _ (with_script s o) c Hfd Hf); simpl; lia|].
      intros r st (d & s' & -> & Hs' & Hr). exists d, s'. split_and!; [done|by etrans|].
      destruct r; naive_solver.
    + exists [], s. rewrite os_appended_nil by done. split_and!; try done.
      split_and!; [done..|apply prefix_nil].
  - destruct Hw as (s & -> & Hsuf & Hall & Hlen).
    destruct (os_script o) as [|r0 s0] eqn:Hscr.
    + specialize (Hall eq_refl) as ->. rewrite firstn_all, drop_all.
      destruct fuel as [|fuel]; [simpl in Hfuel; lia|]. exists (b :: src), s. by rewrite Hscr.
    + specialize (Hlen ltac:(done)).
      eapply wp_mono; [apply IH with (c := c ++ take n (b :: src)); simpl;
        [by rewrite lookup_insert_eq..|simpl in *; lia]|].
      intros r st (d & s' & -> & Hs' & Hr). exists (take n (b :: src) ++ d), s'.
      rewrite os_appended_app, Hscr. split_and!; [done|by etrans|].
      destruct r; [|destruct Hr as (-> & ? & [k Hk])|done].
      * by rewrite Hr, take_drop.
      * split_and!; [done..|]. exists k. by rewrite <- app_assoc, <- Hk, take_drop.
Qed.

Lemma Append_spec data o f path c :
  os_fds o !! fd_ f = Some (OpenFile path (length c)) -> os_files o !! path = Some c ->
  wp (Append data) (o, f) (fun r st =>
    exists d s, fst st = os_appended o (fd_ f) path c d s /\ s `suffix_of` os_script o /\
    match r with
    | Ok _ => d = data /\ snd st = set_filesize_ (u64 (filesize_ f + len data)) f
    | Err e => e = IOError /\ os_script o <> [] /\ d `prefix_of` data /\ snd st = f
    | Halt _ => False
    end).
Proof.
  intros Hfd Hf. unfold Append, in_os. wp_steps.
  eapply wp_mono; [apply Append_loop_spec; [done..|unfold turns; lia]|].
  intros [|e|h] st (d & s & -> & Hs & Hr); simpl in *.
  - unfold set_this. wp_steps. by exists d, s.
  - exists d, s. by destruct Hr as (-> & ? & ?).
  - done.
Qed.

(** *** Reading *)

Lemma pread_retry_spec fuel fd n off o path p c :
  os_fds o !! fd = Some (OpenFile path p) -> os_files o !! path = Some c ->
  (length (os_script o) < fuel)%nat ->
  wp (pread_retry fuel fd n off) o (fun r o' =>
    exists s, o' = with_script s o /\ s `suffix_of` os_script o /\
    (os_script o <> [] -> (length s < length (os_script o))%nat) /\
    match r with
    | Ok d => d `prefix_of` take n (drop off c) /\ (os_script o = [] -> d = take n (drop off c))
    | Err e => e = IOError /\ os_script o <> []
    | Halt _ => False
    end).
Proof.
  revert o. induction fuel as [|fuel IH]; intros o Hfd Hf Hfuel; [lia|].
  unfold wp. simpl. unfold sys_pread. destruct (next_sys_cases o) as [[Hs ->]|(r & s & Hs & ->)].
  - rewrite Hfd, Hf. simpl. exists []. rewrite Hs. split_and!; try done. by destruct o; simpl in *; subst.
  - assert (s `suffix_of` os_script o) by (rewrite Hs; by apply suffix_cons_r).
    destruct r as [|k|e]; simpl; rewrite ?Hfd, ?Hf; simpl.
    + exists s. rewrite Hs. split_and!; [done|by apply suffix_cons_r|simpl; lia|done..].
    + exists s. rewrite Hs. split_and!; [done|by apply suffix_cons_r|simpl; lia| |done].
      rewrite <- take_take. apply prefix_take.
    + case_bool_decide.
      * specialize (IH (with_script s o) Hfd Hf). rewrite Hs in Hfuel. simpl in *.
        specialize (IH ltac:(lia)). unfold wp in IH. revert IH.
        destruct (pread_retry fuel fd n off (with_script s o)) as [r' o']. simpl.
        intros (s' & -> & Hs' & Hlt & Hr'). exists s'. rewrite Hs. split_and!; [done|by apply suffix_cons_r| |].
        -- intros _. apply suffix_length in Hs'. simpl. lia.
        -- destruct r'; naive_solver.
      * exists s. rewrite Hs. split_and!; [done|by apply suffix_cons_r|simpl; lia|done..].
Qed.

Lemma ReadFully_loop_spec fuel file offset remain o p c :
  os_fds o !! raf_fd_ file = Some (OpenFile (raf_filename_ file) p) ->
  os_files o !! raf_filename_ file = Some c ->
  0 <= offset -> 0 <= remain -> offset + remain = len c ->
  (length (os_script o) + (if decide (0 < remain)%Z then 2 else 1) <= fuel)%nat ->
  wp (ReadFully_loop fuel file offset remain (take (Z.to_nat offset) c)) o (fun r o' =>
    exists s, o' = with_script s o /\ s `suffix_of` os_script o /\
    match r with
    | Ok d => d = c
    | Err e => e = IOError /\ fault_used o o'
    | Halt _ => False
    end).
Proof.
  revert offset remain o. induction fuel as [|fuel IH]; intros offset remain o Hfd Hf Ho Hr0 Hsum Hfuel;
    [case_decide; lia|].
  cbn [ReadFully_loop]. rewrite Z.gtb_ltb. destruct (Z.ltb_spec 0 remain) as [Hpos|Hz];
    [rewrite decide_True in Hfuel by done|].
  2: { apply wp_ret. exists (os_script o). split_and!; [by destruct o|done|].
       apply take_ge. unfold len in Hsum. lia. }
  unfold Read. wp_steps.
  eapply wp_mono; [by eapply pread_retry_spec with (c := c); [..|unfold turns; lia]|].
  intros [d|e|h] o' (s & -> & Hsuf & Hlt & Hr); [| |done].
  2: { destruct Hr as [-> Hne]. exists s. by split_and!; [..|apply Hlt]. }
  destruct Hr as [Hpre Hall].
  destruct d as [|b d].
  { apply wp_fail. exists s. split_and!; [done..|]. apply Hlt. intros Hnil. specialize (Hall Hnil).
    apply (f_equal length) in Hall. rewrite length_take, length_drop in Hall. unfold len in *.
    simpl in *. lia. }
  destruct Hpre as [k Hk]. apply (f_equal (take (length (b :: d)))) in Hk.
  rewrite take_app_length, take_take in Hk.
  assert (len (b :: d) <= remain) as Hle.
  { apply (f_equal length) in Hk. rewrite length_take in Hk. unfold len. lia. }
  replace (length (b :: d) `min` Z.to_nat remain)%nat with (length (b :: d)) in Hk
    by (unfold len in Hle; lia).
  pose proof (len_nonneg (b :: d)).
  assert (take (Z.to_nat offset) c ++ b :: d = take (Z.to_nat (offset + len (b :: d))) c) as ->.
  { rewrite Z2Nat.inj_add, len_to_nat by lia. rewrite <- Hk at 1. by rewrite take_take_drop. }
  eapply wp_mono; [apply IH; try done; simpl; try lia|].
  - destruct (os_script o) eqn:Hscr; [|specialize (Hlt ltac:(done)); case_decide; simpl in *; lia].
    apply suffix_nil_inv in Hsuf as ->. specialize (Hall eq_refl).
    apply (f_equal length) in Hall. rewrite length_take, length_drop in Hall.
    rewrite decide_False by (unfold len in *; lia). simpl in *. lia.
  - intros r o' (s' & -> & Hs' & Hr). exists s'. simpl in *. split_and!; [done|by etrans|].
    destruct r; [done| |done]. destruct Hr as [-> Hne]. split; [done|]. by eapply (fault_used_after o (with_script s o)).
Qed.

Lemma wp_or_io_error {A} (c : os -> (Z + A) * os) o (Q : result ErrorCode A -> os -> Prop) :
  match c o with (inl _, o') => Q (Err IOError) o' | (inr a, o') => Q (Ok a) o' end ->
  wp (or_io_error c) o Q.
Proof. unfold wp, or_io_error. by destruct (c o) as [[]]. Qed.

(** The state after a successful [open] of [path], whose contents are then [c]. *)
Definition os_opened (o : os) (path : string) (c : bytes) (s : list sysres) : os :=
  MkOs (<[path := c]> (os_files o)) (os_durable o) (os_dirs o)
       (<[os_next_fd o := OpenFile path 0]> (os_fds o)) (os_next_fd o + 1) s.

(** A call that only the script can make fail. *)
Definition io_post {A} (o : os) (P : A -> os -> Prop) (r : result ErrorCode A) (o' : os) : Prop :=
  os_script o' `suffix_of` os_script o /\
  match r with
  | Ok a => P a o'
  | Err e => e = IOError /\ fault_used o o' /\ o' = with_script (os_script o') o
  | Halt _ => False
  end.

Lemma sys_open_spec o path creat excl trunc c :
  (os_files o !! path = Some c /\ creat && excl = false /\ trunc = false) \/
  (os_files o !! path = None /\ creat && has_parent path o = true /\ c = []) ->
  wp (or_io_error (sys_open path creat excl trunc)) o
    (io_post o (fun fd o' => fd = os_next_fd o /\ o' = os_opened o path c (os_script o'))).
Proof.
  intros Hp. apply wp_or_io_error. unfold sys_open, io_post.
  destruct (next_sys_cases o) as [[Hs ->]|(r & s & Hs & ->)].
  - destruct Hp as [(-> & -> & ->)|(-> & -> & ->)]; split_and!; done.
  - assert (s `suffix_of` os_script o) by (rewrite Hs; by apply suffix_cons_r).
    pose proof (fault_used_next _ _ _ Hs). destruct r; simpl; [..|by split_and!];
      change (has_parent path (with_script s o)) with (has_parent path o);
      destruct Hp as [(-> & -> & ->)|(-> & -> & ->)]; split_and!; done.
Qed.

Lemma parent_of_none name : no_slash name -> parent_of name = None.
Proof.
  unfold no_slash. induction name as [|c name IH]; [done|]. cbn. intros [Hc Hn]%not_elem_of_cons.
  rewrite IH by done. by rewrite bool_decide_false.
Qed.

Lemma parent_of_join dir name : no_slash name -> parent_of (path_join dir name) = Some dir.
Proof.
  intros Hn. unfold path_join. induction dir as [|c dir IH].
  { pose proof (parent_of_none name Hn) as E. change ("" +:+ "/" +:+ name) with (String "/" name). cbn [parent_of]. by rewrite E. }
  change (String c dir +:+ "/" +:+ name) with (String c (dir +:+ "/" +:+ name)). cbn [parent_of]. by rewrite IH.
Qed.

Lemma has_parent_join dir name o : no_slash name -> dir ∈ os_dirs o -> has_parent (path_join dir name) o = true.
Proof. intros Hn Hd. unfold has_parent. rewrite parent_of_join by done. apply bool_decide_eq_true_2. by right. Qed.

Lemma file_size_spec o path c :
  os_files o !! path = Some c ->
  wp (DoGetFileSize path) o
    (io_post o (fun n o' => n = len c /\ o' = with_script (os_script o') o)).
Proof.
  intros Hf. apply wp_or_io_error. unfold boost_file_size, boost_call, io_post.
  destruct (next_sys_cases o) as [[Hs ->]|(r & s & Hs & ->)].
  - rewrite Hf. split_and!; try done. by destruct o.
  - assert (s `suffix_of` os_script o) by (rewrite Hs; by apply suffix_cons_r).
    pose proof (fault_used_next _ _ _ Hs). destruct r; simpl; rewrite ?Hf; by split_and!.
Qed.

(** Reading a whole file leaves the files as they were. *)
Lemma ReadFullyToBuffer_spec fname o c :
  os_files o !! fname = Some c ->
  wp (ReadFullyToBuffer fname) o (fun r o' =>
    os_files o' = os_files o /\ os_durable o' = os_durable o /\ os_dirs o' = os_dirs o /\
    os_script o' `suffix_of` os_script o /\
    match r with
    | Ok d => d = c
    | Err e => e = IOError /\ fault_used o o'
    | Halt _ => False
    end).
Proof.
  intros Hf. unfold ReadFullyToBuffer, NewRandomAccessFile. wp_steps.
  eapply wp_mono; [apply (sys_open_spec o fname false false false c); by left|].
  intros [fd|e|h] o1 [Hs1 H1]; [|destruct H1 as (? & ? & ->); by split_and!|done].
  destruct H1 as [-> ->]. cbv beta match. wp_steps. unfold raf_Size.
  eapply wp_mono; [apply (file_size_spec _ fname c); simpl; by rewrite lookup_insert_eq|].
  intros [n|e|h] o2 [Hs2 H2]; simpl in *; [| |done].
  2: { destruct H2 as (? & ? & ->). simpl. rewrite insert_id by done.
       split_and!; try done; [by etrans|]. by eapply fault_used_after. }
  destruct H2 as [-> ->]. unfold ReadFully. wp_steps.
  eapply wp_mono; [eapply (ReadFully_loop_spec _ _ 0 (len c) _ 0 c); simpl; try lia|].
  - by rewrite lookup_insert_eq.
  - by rewrite lookup_insert_eq.
  - apply len_nonneg.
  - unfold turns. simpl. case_decide; lia.
  - simpl. intros r o3 (s & -> & Hs3 & Hr). simpl. rewrite insert_id by done.
    split_and!; [done..|by do 2 (etrans; [done|])|].
    destruct r; [done| |done]. destruct Hr as [-> Hne]. split; [done|]. eapply fault_used_after; [|exact Hne]. by etrans.
Qed.

(** Closing a file with nothing pre-allocated and nothing to sync releases the descriptor and
    leaves the files alone. *)
Lemma Close_spec `{StatusBool} o f fo :
  os_fds o !! fd_ f = Some fo -> pre_allocated_size_ f <= filesize_ f -> sync_on_close_ f = false ->
  wp Close (o, f) (fun r st =>
    exists fds s, st = (with_fds fds (with_script s o), set_fd_ (-1) f) /\ s `suffix_of` os_script o /\
    match r with
    | Ok _ => True
    | Err e => e = IOError /\ os_script o <> []
    | Halt _ => False
    end).
Proof.
  intros Hfd Hsz Hsync. unfold Close, this. wp_steps.
  destruct (Z.ltb_spec (filesize_ f) (pre_allocated_size_ f)); [lia|]. apply wp_ret. wp_steps.
  rewrite Hsync. apply wp_ret. wp_steps. apply wp_call. unfold sys_close. rewrite Hfd.
  unfold set_this.
  destruct (next_sys_cases o) as [[Hs ->]|(r & s & Hs & ->)].
  - wp_steps. exists (delete (fd_ f) (os_fds o)), []. rewrite Hs. split_and!; try done.
    destruct o; simpl in *; by subst.
  - assert (s `suffix_of` os_script o) by (rewrite Hs; by apply suffix_cons_r).
    destruct r; cbn; wp_steps;
      [exists (delete (fd_ f) (os_fds o)), s; by split_and!..|].
    destruct status_ok_truth; wp_steps; exists (delete (fd_ f) (os_fds o)), s; rewrite Hs in *; by split_and!.
Qed.

(** Writes leave the record of what is on stable storage alone. *)
Lemma Append_durable data o f path c :
  os_fds o !! fd_ f = Some (OpenFile path (length c)) -> os_files o !! path = Some c ->
  wp (Append data) (o, f) (fun r st =>
    os_durable (fst st) = os_durable o /\ pending_sync_ (snd st) = pending_sync_ f).
Proof.
  intros Hfd Hf. eapply wp_mono; [by apply (Append_spec data o f path c)|].
  intros r [o' f'] (d & s & Ho & _ & Hr). cbn in *. subst o'. split; [done|].
  destruct r; [by destruct Hr as [_ ->]|by destruct Hr as (_ & _ & _ & ->)|done].
Qed.

(** [Append] writes all of the data at the end of the file, whatever short writes and
    interruptions the system produces, and counts them in [filesize_]; otherwise it returns an
    [IOError] that a failing call explains, the file then holds the old bytes and a prefix of the
    data, and [filesize_] is unchanged.  It always returns. *)
Theorem append_writes_all data o f path c :
  os_fds o !! fd_ f = Some (OpenFile path (length c)) -> os_files o !! path = Some c ->
  exists r st d s, Append data (o, f) = (r, st) /\ fst st = os_appended o (fd_ f) path c d s /\
    match r with
    | Ok _ => d = data /\ snd st = set_filesize_ (u64 (filesize_ f + len data)) f
    | Err e => e = IOError /\ os_script o <> [] /\ d `prefix_of` data /\ snd st = f
    | Halt _ => False
    end.
Proof.
  intros Hfd Hf. pose proof (Append_spec data o f path c Hfd Hf) as Hs. unfold wp in Hs.
  destruct (Append data (o, f)) as [r st]. destruct Hs as (d & s & ? & _ & ?). by exists r, st, d, s.
Qed.


(** [Sync] after [Append] puts nothing on stable storage: [pending_sync_] is never set by
    [Append], so [Sync] returns OK without calling [fdatasync]. *)
Theorem sync_after_append_is_noop data o f path c :
  os_fds o !! fd_ f = Some (OpenFile path (length c)) -> os_files o !! path = Some c ->
  pending_sync_ f = false ->
  wp (_ ← Append data; Sync) (o, f) (fun r st => os_durable (fst st) = os_durable o) /\
  forall o1 f1, Append data (o, f) = (Ok tt, (o1, f1)) -> Sync (o1, f1) = (Ok tt, (o1, f1)).
Proof.
  intros Hfd Hf Hp. pose proof (Append_durable data o f path c Hfd Hf) as Ha. split.
  - wp_step. eapply wp_mono; [exact Ha|]. intros [[]|e|h] [o1 f1] [Hd Hp1]; cbn in *; [|done..].
    unfold Sync, this. wp_steps. by rewrite Hp1, Hp.
  - intros o1 f1 Hrun. apply (wp_run _ _ _ _ _ Ha) in Hrun as [_ Hp1]. cbn in Hp1.
    unfold Sync, this. erewrite run_bind_ok by done. cbn. by rewrite Hp1, Hp.
Qed.

(** An [Append] no call of which is disturbed is one [write] at the current offset. *)
Lemma Append_undisturbed data o f path off c :
  os_script o = [] -> os_fds o !! fd_ f = Some (OpenFile path off) -> os_files o !! path = Some c ->
  data <> [] ->
  Append data (o, f)
  = (Ok tt, (with_fds (<[fd_ f := OpenFile path (off + length data)]> (os_fds o))
               (with_files (<[path := overwrite c off data]> (os_files o)) o),
             set_filesize_ (u64 (filesize_ f + len data)) f)).
Proof.
  intros Hs Hfd Hf Hd. unfold Append. rewrite (run_bind_ok _ _ _ (o, f) 2%nat).
  2: { unfold in_os, zoom, gets, turns. cbn [fst]. by rewrite Hs. }
  set (o' := with_fds _ _). rewrite (run_bind_ok _ _ (o, f) (o', f) tt); [done|].
  destruct data as [|b data]; [done|]. cbn [Append_loop].
  erewrite (run_bind_ok this) by done. cbn [snd].
  erewrite (run_bind_ok (call _)).
  2: { unfold call, in_os, zoom, sys_write, next_sys. cbn [fst]. by rewrite Hs, Hfd, Hf. }
  cbv beta match. cbn [transferred]. by rewrite drop_all, firstn_all.
Qed.

(** a file opened with [OPEN_EXISTING] is written from its start: the first [Append] replaces
    the first bytes of the file instead of adding to them, while [Size] reports the sum. *)
Theorem open_existing_overwrites fname c data o :
  os_files o !! fname = Some c -> os_script o = [] -> len c + len data < 2 ^ 64 -> data <> [] ->
  exists f o1 f2 o2,
    NewWritableFile fname OPEN_EXISTING false o = (Ok f, o1) /\
    Append data (o1, f) = (Ok tt, (o2, f2)) /\
    os_files o2 !! fname = Some (data ++ drop (length data) c) /\
    Size f2 = len c + len data.
Proof.
  intros Hf Hs Hlen Hd. pose proof (len_nonneg c). pose proof (len_nonneg data).
  exists (new_PosixWritableFile fname (os_next_fd o) (len c) false), (os_opened o fname c []).
  do 2 eexists. split_and!.
  - unfold NewWritableFile, GetFileSize. rewrite (run_bind_ok _ _ o o (len c)).
    2: { unfold DoGetFileSize, or_io_error, boost_file_size, boost_call, next_sys. by rewrite Hs, Hf. }
    erewrite run_bind_ok; [done|].
    unfold DoOpen, or_io_error, sys_open, next_sys. rewrite Hs, Hf. cbn. by rewrite <- Hs.
  - apply (Append_undisturbed data _ _ fname 0 c); cbn; [done|by rewrite lookup_insert_eq..|done].
  - cbn. rewrite lookup_insert_eq. unfold overwrite. cbn. by rewrite app_nil_l.
  - unfold Size. cbn. apply Z.mod_small. lia.
Qed.
