(* ===== verification/Interface.v ===== *)
(** * The abstract classes of [include/consensus/base/env.h]

    What the rest of the program knows of files: [WritableFile], [RandomAccessFile] and [Env], each
    as a record of its methods, with the implementations of [src/base/env_posix.cc].  The state the
    methods work on is a parameter: the system and the object here, a string in memory in
    [Testing.v]. *)

From S2P Require Import Prelude External Status Posix.

(** ** [WritableFile] *)

Record WritableFile (S : Type) := MkWritableFile {
  vt_Append : bytes -> Prog ErrorCode S unit;
  vt_PositionedAppend : bytes -> Z -> Prog ErrorCode S unit;
  vt_PreAllocate : Z -> Prog ErrorCode S unit;
  vt_Close : Prog ErrorCode S unit;
  vt_Flush : FlushMode -> Prog ErrorCode S unit;
  vt_Sync : Prog ErrorCode S unit;
  vt_Size : S -> Z;
  vt_Truncate : Z -> Prog ErrorCode S unit;
  vt_filename : S -> string;
}.
Arguments vt_Append {_}.
Arguments vt_PositionedAppend {_}.
Arguments vt_PreAllocate {_}.
Arguments vt_Close {_}.
Arguments vt_Flush {_}.
Arguments vt_Sync {_}.
Arguments vt_Size {_}.
Arguments vt_Truncate {_}.
Arguments vt_filename {_}.

(** The methods a derived class need not override. *)
Definition base_PositionedAppend {S} (data : bytes) (offset : Z) : Prog ErrorCode S unit := fail NotSupported.

Definition posix_file `{StatusBool} : WritableFile (os * PosixWritableFile) := {|
  vt_Append := Append;
  vt_PositionedAppend := PositionedAppend;
  vt_PreAllocate := PreAllocate;
  vt_Close := Close;
  vt_Flush := Flush;
  vt_Sync := Sync;
  vt_Size := fun st => Size (snd st);
  vt_Truncate := Truncate;
  vt_filename := fun st => filename_ (snd st);
|}.

(** ** [RandomAccessFile] *)

Record RandomAccessFile (S F : Type) := MkRandomAccessFile {
  vt_Read : F -> Z -> Z -> Prog ErrorCode S bytes;
  vt_raf_Size : F -> Prog ErrorCode S Z;
  vt_raf_filename : F -> string;
}.

Definition posix_random_file : RandomAccessFile os PosixRandomAccessFile := {|
  vt_Read := Read;
  vt_raf_Size := raf_Size;
  vt_raf_filename := raf_filename_;
|}.

(** ** [Env] *)

Record EnvClass (S W F : Type) := MkEnvClass {
  vt_NewWritableFile : string -> CreateMode -> bool -> Prog ErrorCode S W;
  vt_NewRandomAccessFile : string -> Prog ErrorCode S F;
  vt_GetFileSize : string -> Prog ErrorCode S Z;
  vt_CreateDir : string -> Prog ErrorCode S unit;
  vt_CreateDirIfMissing : string -> Prog ErrorCode S unit;
  vt_DeleteRecursively : string -> Prog ErrorCode S unit;
  vt_DeleteFile : string -> Prog ErrorCode S unit;
  vt_GetChildren : string -> list string -> Prog ErrorCode S (list string);
}.
Arguments vt_NewWritableFile {_ _ _}.
Arguments vt_NewRandomAccessFile {_ _ _}.
Arguments vt_GetFileSize {_ _ _}.
Arguments vt_CreateDir {_ _ _}.
Arguments vt_CreateDirIfMissing {_ _ _}.
Arguments vt_DeleteRecursively {_ _ _}.
Arguments vt_DeleteFile {_ _ _}.
Arguments vt_GetChildren {_ _ _}.

Definition posix_env `{BoostFs} : EnvClass os PosixWritableFile PosixRandomAccessFile := {|
  vt_NewWritableFile := NewWritableFile;
  vt_NewRandomAccessFile := NewRandomAccessFile;
  vt_GetFileSize := GetFileSize;
  vt_CreateDir := CreateDir;
  vt_CreateDirIfMissing := CreateDirIfMissing;
  vt_DeleteRecursively := DeleteRecursively;
  vt_DeleteFile := DeleteFile;
  vt_GetChildren := GetChildren;
|}.

(** [Env::Default()]: one object, made at the first call. *)
Definition Env_Default `{BoostFs} : EnvClass os PosixWritableFile PosixRandomAccessFile := posix_env.

(** ** What the class promises *)

(** The table of [CreateMode]: the contents of the file after it was opened, [None] when the call
    fails, from the contents before. *)
Definition create_mode_table (mode : CreateMode) (before : option bytes) : option bytes :=
  match mode, before with
  | CREATE_IF_NON_EXISTING_TRUNCATE, _ => Some []
  | CREATE_NON_EXISTING, Some _ => None
  | CREATE_NON_EXISTING, None => Some []
  | OPEN_EXISTING, before => before
  end.

(** The table lets the call fail, or there is no directory to create the file in. *)
Definition may_fail (fname : string) (mode : CreateMode) (o : os) : Prop :=
  create_mode_table mode (os_files o !! fname) = None \/
  (os_files o !! fname = None /\ has_parent fname o = false).

(** The outcome of opening a file. *)
Definition open_post {A} (fname : string) (mode : CreateMode) (o : os) (r : result ErrorCode A) (o' : os) : Prop :=
  os_script o' `suffix_of` os_script o /\
  match r with
  | Ok _ => exists c, create_mode_table mode (os_files o !! fname) = Some c /\ os_files o' = <[fname := c]> (os_files o)
  | Err e => e = IOError /\ os_files o' = os_files o /\ (may_fail fname mode o \/ os_script o <> [])
  | Halt _ => False
  end.

(** What an environment has to do to be used for the log: open files as the table says, create
    directories and find its files again. *)
Class EnvPromise {W F : Type} (env : EnvClass os W F) : Prop := {
  promise_open fname mode sync o : wp (vt_NewWritableFile env fname mode sync) o (open_post fname mode o);
  promise_dir dir o :
    wp (vt_CreateDirIfMissing env dir) o (fun r o' =>
      os_files o' = os_files o /\
      match r with Ok _ => dir ∈ os_dirs o' | Err e => e = IOError /\ os_script o <> [] | Halt _ => False end);
  promise_delete fname o :
    wp (vt_DeleteFile env fname) o (fun r o' =>
      match r with
      | Ok _ => os_files o' = delete fname (os_files o)
      | Err e => e = IOError /\ os_script o <> [] /\ os_files o' = os_files o
      | Halt _ => False
      end);
}.

(** *** [PosixEnv] keeps it *)

Lemma DoOpen_table fname mode o : wp (DoOpen fname mode) o (open_post fname mode o).
Proof.
  destruct mode; apply wp_or_io_error; unfold sys_open, open_post, may_fail;
    (destruct (next_sys_cases o) as [[Hs ->]|(r & s & Hs & ->)];
     [|assert (s `suffix_of` os_script o) by (rewrite Hs; by apply suffix_cons_r);
       assert (os_script o <> []) by (by rewrite Hs); destruct r; [..|split; [done|]; split_and!; [done|done|by right]]]);
    cbn; try change (has_parent fname (with_script s o)) with (has_parent fname o);
    destruct (os_files o !! fname) as [c|]; cbn; [|destruct (has_parent fname o)| |destruct (has_parent fname o)..];
    cbn; split_and!; eauto 6.
Qed.

Lemma file_size_cases fname o :
  wp (GetFileSize fname) o (fun r o' => os_files o' = os_files o /\ os_dirs o' = os_dirs o /\ os_script o' `suffix_of` os_script o /\
    match r with
    | Ok n => exists c, os_files o !! fname = Some c /\ n = len c
    | Err e => e = IOError /\ (os_files o !! fname = None \/ os_script o <> [])
    | Halt _ => False
    end).
Proof.
  apply wp_or_io_error. unfold boost_file_size, boost_call.
  destruct (next_sys_cases o) as [[Hs ->]|(r & s & Hs & ->)].
  - destruct (os_files o !! fname) as [c|] eqn:Hf; split_and!; eauto.
  - assert (s `suffix_of` os_script o) by (rewrite Hs; by apply suffix_cons_r).
    assert (os_script o <> []) by (by rewrite Hs).
    destruct r; cbn; [destruct (os_files o !! fname) as [c|] eqn:Hf..|]; cbn; split_and!; eauto.
Qed.

Lemma NewWritableFile_table fname mode sync o : wp (NewWritableFile fname mode sync) o (open_post fname mode o).
Proof.
  unfold NewWritableFile. apply wp_bind.
  assert (forall n o1, os_files o1 = os_files o -> os_dirs o1 = os_dirs o -> os_script o1 `suffix_of` os_script o ->
    wp (fd ← DoOpen fname mode; mret (new_PosixWritableFile fname fd n sync)) o1 (open_post fname mode o)) as Hopen.
  { intros n o1 Hf Hd Hs. apply wp_bind. eapply wp_mono; [apply DoOpen_table|]. unfold open_post, may_fail, has_parent. rewrite Hf, Hd.
    intros [fd|e|h] o2 [Hs2 Hr]; [| |done].
    - apply wp_ret. split; [by etrans|done].
    - split; [by etrans|]. destruct Hr as (? & ? & Hr). split_and!; [done|done|]. destruct Hr as [?|Hne]; [by left|right].
      intros Hn. rewrite Hn in Hs. by apply suffix_nil_inv in Hs. }
  destruct mode; [apply wp_ret; by apply Hopen|apply wp_ret; by apply Hopen|].
  eapply wp_mono; [apply file_size_cases|]. intros [n|e|h] o1 (Hf & Hd & Hs & Hr); [by apply Hopen| |done].
  destruct Hr as [-> Hr]. split; [done|]. split_and!; [done|done|]. by destruct Hr; [left; left|right].
Qed.

#[export] Instance posix_env_promise (FS : BoostFs) : EnvPromise (@posix_env FS).
Proof.
  split.
  - intros fname mode sync o. apply NewWritableFile_table.
  - intros dir o. apply wp_or_io_error. unfold boost_create_directories, boost_call.
    destruct (next_sys_cases o) as [[Hs ->]|(r & s & Hs & ->)]; [cbn; split; [done|set_solver]|].
    assert (os_script o <> []) by (by rewrite Hs). destruct r; cbn; (split; [done|]); [set_solver..|done].
  - intros fname o. apply wp_or_io_error. unfold boost_remove, boost_call.
    destruct (next_sys_cases o) as [[Hs ->]|(r & s & Hs & ->)]; [done|].
    assert (os_script o <> []) by (by rewrite Hs). by destruct r.
Qed.

(** ** Theorem *)

(** [Env::Default()] opens files as the table of [CreateMode] says: under every pattern of faults
    a successful call has created the file, emptied it or left it alone as the mode asks, and a
    call fails only where the table says so, or the directory of a new file is not there, or the
    system failed, and then no file has changed. *)
Theorem default_env_opens_by_table (FS : BoostFs) fname mode sync o :
  exists r o', vt_NewWritableFile Env_Default fname mode sync o = (r, o') /\
    match r with
    | Ok _ => exists c, create_mode_table mode (os_files o !! fname) = Some c /\ os_files o' = <[fname := c]> (os_files o)
    | Err e => e = IOError /\ os_files o' = os_files o /\
        (create_mode_table mode (os_files o !! fname) = None \/
         (os_files o !! fname = None /\ has_parent fname o = false) \/ os_script o <> [])
    | Halt _ => False
    end.
Proof.
  pose proof (promise_open (env := posix_env) fname mode sync o) as Hp. unfold wp in Hp.
  destruct (vt_NewWritableFile Env_Default fname mode sync o) as [r o'] eqn:Hr. exists r, o'. split; [done|].
  unfold Env_Default in Hr. rewrite Hr in Hp. destruct Hp as [_ Hp]. destruct r; [done| |done].
  destruct Hp as (? & ? & [[?|?]|?]); split_and!; auto.
Qed.
