(* ===== verification/Segment.v ===== *)
(** * Segments of the log: [src/src/wal/format.h], [segment_meta.h], [segment_meta.cc] and the
    file-name helpers of [log_manager.cc] *)

From S2P Require Import Prelude External Coding.

(** ** Format *)

(** [Crc32] and [Length], four bytes each. *)
Definition kLogBatchHeaderSize : Z := 4 + 4.
Definition kRecordHeaderSize : Z := 1.

Inductive RecordType := kHardStateType | kLogEntryType.

Definition record_type_value (t : RecordType) : Z :=
  match t with kHardStateType => 1 | kLogEntryType => 2 end.

(** The bytes of the string literal ["yaraft_log"]. *)
Definition bytes_of_string (s : string) : bytes :=
  (fun c => Z.of_nat (nat_of_ascii c)) <$> String.list_ascii_of_string s.

Definition kLogSegmentHeaderMagic : bytes := bytes_of_string "yaraft_log".

Record SegmentMetaData := MkSegmentMetaData { fileName : string; numEntries : Z }.

Definition new_SegmentMetaData : SegmentMetaData := MkSegmentMetaData "" 0.

(** ** File names *)

(** Decimal digits of an unsigned 64-bit integer, as [fmt::format("{}")] prints it: at most
    twenty of them. *)
Definition digit (d : Z) : ascii := ascii_of_nat (Z.to_nat d + 48).

Fixpoint decimal_loop (fuel : nat) (n : Z) (acc : list ascii) : list ascii :=
  match fuel with
  | O => acc
  | S fuel =>
      let acc := digit (n `mod` 10) :: acc in
      if n <? 10 then acc else decimal_loop fuel (n / 10) acc
  end.

Definition decimal (n : Z) : list ascii := decimal_loop 20 n [].

Definition SegmentFileName (segmentId firstIdx : Z) : string :=
  String.string_of_list_ascii
    (decimal segmentId ++ ["-"%char] ++ decimal firstIdx ++ String.list_ascii_of_string ".wal").

Definition isWal (fname : string) : bool :=
  let l := String.list_ascii_of_string fname in
  (4 <? len l) && bool_decide (drop (length l - 4) l = String.list_ascii_of_string ".wal").

(** *** [sscanf(fname, "%zu-%zu.wal", segId, segStart)] *)

Definition is_space (c : ascii) : bool :=
  let n := nat_of_ascii c in bool_decide (n = 32%nat) || (bool_decide (9 <= n <= 13)%nat).

Definition digit_value (c : ascii) : option Z :=
  let n := Z.of_nat (nat_of_ascii c) in
  if (48 <=? n) && (n <=? 57) then Some (n - 48) else None.

(** The longest run of digits, its value and what follows it. *)
Fixpoint scan_digits (v : Z) (s : list ascii) : Z * list ascii :=
  match s with
  | [] => (v, [])
  | c :: s' => match digit_value c with
               | Some d => scan_digits (10 * v + d) s'
               | None => (v, s)
               end
  end.

Fixpoint skip_space (s : list ascii) : list ascii :=
  match s with
  | c :: s' => if is_space c then skip_space s' else s
  | [] => []
  end.

(** [%zu]: blanks, a sign, at least one digit.  [None] is a matching failure or a value that
    does not fit, for which the conversion is undefined. *)
Definition scan_unsigned (s : list ascii) : option (Z * list ascii) :=
  match s with
  | c :: _ =>
      match digit_value c with
      | Some _ => let '(v, rest) := scan_digits 0 s in
                  if v <? 2 ^ 64 then Some (v, rest) else None
      | None => None
      end
  | [] => None
  end.

Definition scan_zu (s : list ascii) : option (Z * list ascii) :=
  match skip_space s with
  | "-"%char :: s => '(v, rest) ← scan_unsigned s; Some (u64 (- v), rest)
  | "+"%char :: s => scan_unsigned s
  | s => scan_unsigned s
  end.

(** [None]: a variable the caller goes on to read was not assigned. *)
Definition parseWalName (fname : string) : option (Z * Z) :=
  '(segId, s) ← scan_zu (String.list_ascii_of_string fname);
  match s with
  | "-"%char :: s => '(segStart, _) ← scan_zu s; Some (segId, segStart)
  | _ => None
  end.

(** ** The name of a segment determines it *)

#[local] Ltac Zify.zify_post_hook ::= Z.to_euclidean_division_equations.

Lemma nat_of_digit d : 0 <= d < 10 -> nat_of_ascii (digit d) = (Z.to_nat d + 48)%nat.
Proof. intros Hd. unfold digit. apply nat_ascii_embedding. lia. Qed.

Lemma digit_value_digit d : 0 <= d < 10 -> digit_value (digit d) = Some d.
Proof.
  intros Hd. unfold digit_value. rewrite nat_of_digit by done.
  destruct (Z.leb_spec 48 (Z.of_nat (Z.to_nat d + 48))); [|lia].
  destruct (Z.leb_spec (Z.of_nat (Z.to_nat d + 48)) 57); [|lia]. simpl. f_equal. lia.
Qed.

(** Scanning the digits of [n] and then [acc] is scanning [acc] from the value [n]. *)
Lemma scan_decimal_loop fuel n acc :
  0 <= n < 10 ^ Z.of_nat fuel -> (0 < fuel)%nat ->
  scan_digits 0 (decimal_loop fuel n acc) = scan_digits n acc.
Proof.
  revert n acc. induction fuel as [|fuel IH]; intros n acc Hn Hf; [lia|]. cbn [decimal_loop].
  destruct (Z.ltb_spec n 10).
  - rewrite Z.mod_small by lia. cbn [scan_digits]. rewrite digit_value_digit by lia.
    f_equal; lia.
  - rewrite Nat2Z.inj_succ, Z.pow_succ_r in Hn by lia. rewrite IH; [|lia|destruct fuel; [simpl in Hn|]; lia].
    cbn [scan_digits]. rewrite digit_value_digit by lia. f_equal; lia.
Qed.

Lemma decimal_loop_head fuel n acc :
  0 <= n -> (0 < fuel)%nat ->
  exists d rest, decimal_loop fuel n acc = digit d :: rest /\ 0 <= d < 10.
Proof.
  revert n acc. induction fuel as [|fuel IH]; intros n acc Hn Hf; [lia|]. cbn [decimal_loop].
  destruct (Z.ltb_spec n 10); [by exists (n `mod` 10), acc; split; [done|lia]|].
  destruct fuel as [|fuel]; [by exists (n `mod` 10), acc; split; [done|lia]|].
  apply IH; lia.
Qed.

Lemma is_u64_decimal n : is_u64 n -> 0 <= n < 10 ^ Z.of_nat 20.
Proof. unfold is_u64. simpl. lia. Qed.

Lemma digit_not_space d : 0 <= d < 10 -> is_space (digit d) = false.
Proof.
  intros Hd. unfold is_space. rewrite nat_of_digit by done.
  rewrite !bool_decide_eq_false_2 by lia. done.
Qed.

Lemma digit_not_sign d : 0 <= d < 10 -> digit d <> "-"%char /\ digit d <> "+"%char.
Proof.
  intros Hd. split; intros He; apply (f_equal nat_of_ascii) in He;
    rewrite nat_of_digit in He by done.
  - change (nat_of_ascii "-") with 45%nat in He. lia.
  - change (nat_of_ascii "+") with 43%nat in He. lia.
Qed.

Lemma decimal_loop_app fuel n acc l :
  decimal_loop fuel n (acc ++ l) = decimal_loop fuel n acc ++ l.
Proof.
  revert n acc. induction fuel as [|fuel IH]; intros n acc; [done|]. cbn [decimal_loop].
  destruct (n <? 10); [done|]. apply (IH _ (_ :: acc)).
Qed.

(** [%zu] reads back a printed number, up to a character that is no digit. *)
Lemma scan_zu_decimal n c rest :
  is_u64 n -> digit_value c = None ->
  scan_zu (decimal n ++ c :: rest) = Some (n, c :: rest).
Proof.
  intros Hn Hc. pose proof (is_u64_decimal n Hn) as Hd.
  unfold decimal. rewrite <- decimal_loop_app. cbn [app].
  pose proof (scan_decimal_loop 20 n (c :: rest) Hd ltac:(lia)) as Hscan.
  destruct (decimal_loop_head 20 n (c :: rest)) as (d & tl & Heq & Hdr); [lia..|].
  rewrite Heq in *. unfold scan_zu. cbn [skip_space]. rewrite digit_not_space by done.
  destruct (digit_not_sign d Hdr) as [Hm Hp].
  assert (scan_unsigned (digit d :: tl) = Some (n, c :: rest)) as Hu.
  { unfold scan_unsigned. rewrite digit_value_digit, Hscan by done. cbn [scan_digits].
    rewrite Hc. unfold is_u64 in Hn. by destruct (Z.ltb_spec n (2 ^ 64)); [|lia]. }
  revert Hm Hp. generalize (digit d) Hu. intros a Ha Hm Hp.
  destruct a as [[] [] [] [] [] [] [] []]; try exact Ha; exfalso; (by apply Hm) || (by apply Hp).
Qed.

Lemma SegmentFileName_list a b :
  String.list_ascii_of_string (SegmentFileName a b)
  = decimal a ++ ["-"%char] ++ decimal b ++ String.list_ascii_of_string ".wal".
Proof. unfold SegmentFileName. apply String.list_ascii_of_string_of_list_ascii. Qed.

Lemma parse_SegmentFileName a b :
  is_u64 a -> is_u64 b -> parseWalName (SegmentFileName a b) = Some (a, b).
Proof.
  intros Ha Hb. unfold parseWalName. rewrite SegmentFileName_list.
  cbn [app]. rewrite scan_zu_decimal by done. cbn [mbind option_bind].
  change (String.list_ascii_of_string ".wal") with ("."%char :: String.list_ascii_of_string "wal").
  by rewrite scan_zu_decimal by done.
Qed.

Lemma isWal_SegmentFileName a b : 0 <= a -> isWal (SegmentFileName a b) = true.
Proof.
  intros Ha. unfold isWal. rewrite SegmentFileName_list, !app_assoc.
  assert ((0 < length (decimal a))%nat).
  { unfold decimal. destruct (decimal_loop_head 20 a [] Ha ltac:(lia)) as (d & tl & -> & _).
    simpl. lia. }
  apply andb_true_intro. split.
  - apply Z.ltb_lt. unfold len. rewrite !length_app. simpl. lia.
  - apply bool_decide_eq_true_2. rewrite length_app.
    replace (_ + _ - 4)%nat with (length ((decimal a ++ ["-"%char]) ++ decimal b))
      by (simpl; lia).
    apply drop_app_length.
Qed.

(** Names of different segments differ. *)
Lemma SegmentFileName_inj a b a' b' :
  is_u64 a -> is_u64 b -> is_u64 a' -> is_u64 b' ->
  SegmentFileName a b = SegmentFileName a' b' -> a = a' /\ b = b'.
Proof.
  intros Ha Hb Ha' Hb' He. apply (f_equal parseWalName) in He.
  rewrite !parse_SegmentFileName in He by done. by simplify_eq.
Qed.

Lemma decimal_loop_digits fuel n acc :
  0 <= n -> Forall (fun c => digit_value c <> None) acc ->
  Forall (fun c => digit_value c <> None) (decimal_loop fuel n acc).
Proof.
  revert n acc. induction fuel as [|fuel IH]; intros n acc Hn Hacc; [done|]. cbn [decimal_loop].
  assert (Forall (fun c => digit_value c <> None) (digit (n `mod` 10) :: acc)).
  { constructor; [by rewrite digit_value_digit by lia|done]. }
  destruct (n <? 10); [done|]. apply IH; [lia|done].
Qed.

(** A segment name is one component of a path. *)
Lemma SegmentFileName_no_slash a b :
  0 <= a -> 0 <= b -> "/"%char ∉ String.list_ascii_of_string (SegmentFileName a b).
Proof.
  intros Ha Hb. rewrite SegmentFileName_list.
  assert (forall n, 0 <= n -> "/"%char ∉ decimal n) as Hd.
  { intros n Hn Hin. pose proof (decimal_loop_digits 20 n [] Hn ltac:(constructor)) as Hall.
    rewrite Forall_forall in Hall. by apply (Hall _ Hin). }
  rewrite !elem_of_app. intros [H|[H|[H|H]]];
    [by apply (Hd a)|by apply elem_of_cons in H as [|H%elem_of_nil]|by apply (Hd b)|].
  by repeat (apply elem_of_cons in H as [H|H]; [done|]); apply elem_of_nil in H.
Qed.

(** C36: the name of a segment file is recognised by [isWal], is a single path component, is read
    back by [parseWalName], and two segments with the same name are the same segment. *)
Theorem segment_name_roundtrip id start :
  is_u64 id -> is_u64 start ->
  isWal (SegmentFileName id start) = true /\
  "/"%char ∉ String.list_ascii_of_string (SegmentFileName id start) /\
  parseWalName (SegmentFileName id start) = Some (id, start) /\
  forall id' start', is_u64 id' -> is_u64 start' ->
    SegmentFileName id start = SegmentFileName id' start' -> id = id' /\ start = start'.
Proof.
  intros Hi Hs. unfold is_u64 in Hi, Hs. split_and!.
  - apply isWal_SegmentFileName. lia.
  - apply SegmentFileName_no_slash; lia.
  - by apply parse_SegmentFileName.
  - intros id' start' Hi' Hs'. by apply SegmentFileName_inj.
Qed.
