(* ===== verification/LogWriter.v ===== *)
(** * Writing a segment: [src/src/wal/log_writer.h], [log_writer.cc]

    One call of [LogWriter::Append] stores one batch: the header with checksum and length, the
    hard state if there is one, then as many entries as the segment has room for. *)

From S2P Require Import Prelude External Coding Status Posix Segment.

(** ** The scratch buffer

    A [std::string] of fixed size the batch is assembled in.  A store past its end is undefined
    behaviour; the model drops such bytes and counts them in [sc_oob], so a run is free of
    out-of-bounds stores exactly when the count is zero. *)
Record scratch := MkScratch { sc_data : bytes; sc_oob : Z }.

Definition new_scratch (n : Z) : scratch := MkScratch (replicate (Z.to_nat n) 0) 0.

Definition store (off : Z) (d : bytes) (s : scratch) : scratch :=
  let off := Z.to_nat off in
  let d_in := take (length (sc_data s) - off) d in
  MkScratch (take off (sc_data s) ++ d_in ++ drop (off + length d_in) (sc_data s))
            (sc_oob s + (len d - len d_in)).

Section writer.
Context {HOST : Host} {CRC : Crc32} {Y : YaraftPb}.

(** ** [LogWriter] *)

(** [lw_oob_] is not a member of the class: it adds up the bytes the calls so far stored out of
    bounds. *)
Record LogWriter := MkLogWriter {
  file_ : PosixWritableFile;
  meta_ : SegmentMetaData;
  logSegmentSize_ : Z;
  lw_empty_ : bool;
  lw_oob_ : Z;
}.

Definition new_LogWriter (wf : PosixWritableFile) (fname : string) (logSegmentSize : Z) : LogWriter :=
  MkLogWriter wf (MkSegmentMetaData fname 0) logSegmentSize true 0.

Definition set_file_ (f : PosixWritableFile) (w : LogWriter) : LogWriter :=
  MkLogWriter f (meta_ w) (logSegmentSize_ w) (lw_empty_ w) (lw_oob_ w).
Definition set_lw_empty_ (b : bool) (w : LogWriter) : LogWriter :=
  MkLogWriter (file_ w) (meta_ w) (logSegmentSize_ w) b (lw_oob_ w).
Definition add_numEntries (n : Z) (w : LogWriter) : LogWriter :=
  MkLogWriter (file_ w) (MkSegmentMetaData (fileName (meta_ w)) (u64 (numEntries (meta_ w) + n)))
    (logSegmentSize_ w) (lw_empty_ w) (lw_oob_ w).
Definition add_oob (n : Z) (w : LogWriter) : LogWriter :=
  MkLogWriter (file_ w) (meta_ w) (logSegmentSize_ w) (lw_empty_ w) (lw_oob_ w + n).

Abbreviation WriterM := (Prog ErrorCode (os * LogWriter)).

Definition on_file {A} (m : FileM A) : WriterM A :=
  zoom (fun '(o, w) => (o, file_ w)) (fun '(o, f) '(_, w) => (o, set_file_ f w)) m.
Definition get_writer : WriterM LogWriter := gets snd.
Definition set_writer (f : LogWriter -> LogWriter) : WriterM unit :=
  modify (fun '(o, w) => (o, f w)).

(** Both helpers return the buffer and the new value of [*offset]. *)
Definition saveHardState (hs : HardState) (offset : Z) (s : scratch) : scratch * Z :=
  let s := store offset [record_type_value kHardStateType] s in
  let v := EncodeVarint32 (u32 (ByteSize hs)) in
  let s := store (offset + 1) v s in
  let p := offset + 1 + len v in
  let s := store p (SerializeToArray hs) s in
  (s, offset + (p - offset + ByteSize hs)).

Fixpoint saveEntries (es : list Entry) (p : Z) (s : scratch) : scratch * Z :=
  match es with
  | [] => (s, p)
  | e :: es =>
      let s := store p [record_type_value kLogEntryType] s in
      let v := EncodeVarint32 (u32 (ByteSize e)) in
      let s := store (p + 1) v s in
      let p := p + 1 + len v in
      let s := store p (SerializeToArray e) s in
      saveEntries es (p + ByteSize e) s
  end.

(** The loop that counts the entries to write: the new [totalSize] and the entries from
    [newBegin] on.  [remains] is a [ssize_t] and [totalSize] a [size_t], so the comparison is
    made on unsigned values. *)
Fixpoint scan_entries (remains totalSize : Z) (es : list Entry) : Z * list Entry :=
  match es with
  | [] => (totalSize, [])
  | e :: es' =>
      if totalSize <? u64 remains then
        scan_entries remains
          (u64 (totalSize + (kRecordHeaderSize + VarintLength (ByteSize e) + ByteSize e))) es'
      else (totalSize, es)
  end.

(** The assembly of a batch, from the computation of [totalSize] to the checksum: the filled
    buffer and the entries from [newBegin] on.  [begin, end) is the list [es]. *)
Definition build_batch (remains : Z) (es : list Entry) (hs : option HardState) :
    scratch * list Entry :=
  let totalSize := kLogBatchHeaderSize in
  let totalSize := match hs with
                   | Some hs => u64 (totalSize + (kRecordHeaderSize + ByteSize hs))
                   | None => totalSize
                   end in
  let '(writeEntries, totalSize, newBegin) :=
    if (totalSize <? u64 remains) && negb (bool_decide (length es = O)) then
      let '(totalSize, newBegin) := scan_entries remains totalSize es in
      (true, totalSize, newBegin)
    else (false, totalSize, es) in
  let s := new_scratch totalSize in
  let offset := kLogBatchHeaderSize in
  let '(s, offset) := match hs with Some hs => saveHardState hs offset s | None => (s, offset) end in
  let '(s, offset) :=
    if (writeEntries : bool) then saveEntries (take (length es - length newBegin) es) offset s
    else (s, offset) in
  let dataLen := u64 (totalSize - kLogBatchHeaderSize) in
  let s := store 4 (EncodeFixed32 (u32 dataLen)) s in
  let crc := crc32 (take (Z.to_nat dataLen) (drop (Z.to_nat kLogBatchHeaderSize) (sc_data s))) in
  (store 0 (EncodeFixed32 crc) s, newBegin).

(** The iterator returned is the list of the entries left. *)
Definition LogWriter_Append (es : list Entry) (hs : option HardState) : WriterM (list Entry) :=
  w ← get_writer;
  _ ← (if lw_empty_ w then
         _ ← on_file (Append kLogSegmentHeaderMagic);
         set_writer (set_lw_empty_ false)
       else mret tt);
  w ← get_writer;
  let remains := s64 (logSegmentSize_ w - Size (file_ w)) in
  let '(s, newBegin) := build_batch remains es hs in
  _ ← set_writer (add_oob (sc_oob s));
  _ ← on_file (Append (sc_data s));
  _ ← set_writer (add_numEntries (len es - len newBegin));
  mret newBegin.

Definition LogWriter_Sync : WriterM unit := on_file Sync.

Definition LogWriter_Finish {SB : StatusBool} : WriterM SegmentMetaData :=
  _ ← on_file Sync;
  _ ← on_file Close;
  w ← get_writer;
  mret (meta_ w).
End writer.

(** ** The bytes of a batch *)

(** The buffer of size [n] after the bytes [a] were stored from its start: those that fit,
    padded with zeros, and the number of those that did not. *)
Definition filled (n : nat) (a : bytes) : scratch :=
  MkScratch (take n (a ++ replicate n 0)) (Z.max 0 (len a - Z.of_nat n)).

Lemma new_scratch_filled n : 0 <= n -> new_scratch n = filled (Z.to_nat n) [].
Proof.
  intros Hn. unfold new_scratch, filled. simpl. rewrite take_ge by (rewrite length_replicate; lia).
  f_equal. rewrite (@len_nil Z). lia.
Qed.

Lemma store_filled n a d : store (len a) d (filled n a) = filled n (a ++ d).
Proof.
  unfold store, filled. cbn [sc_data sc_oob]. rewrite len_to_nat.
  assert (length (take n (a ++ replicate n 0)) = n) as ->.
  { rewrite length_take, length_app, length_replicate. lia. }
  assert (len d - len (take (n - length a) d) = Z.max 0 (len d - Z.of_nat (n - length a))) as ->.
  { unfold len. rewrite length_take. lia. }
  rewrite len_app. destruct (decide (length a <= n)%nat) as [Hle|Hgt].
  - rewrite <- app_assoc, !(take_app_ge a) by lia. rewrite Nat.sub_diag.
    cbn [take]. rewrite app_nil_r. f_equal; [|unfold len; lia]. f_equal.
    rewrite drop_app_ge by lia. rewrite take_app. f_equal.
    rewrite !take_replicate, drop_replicate, length_take. f_equal. lia.
  - rewrite !take_app_le by (rewrite ?length_app; lia).
    replace (n - length a)%nat with 0%nat by lia. cbn [take length app]. rewrite Nat.add_0_r.
    rewrite take_take, drop_ge by (rewrite length_take; lia).
    replace (length a `min` n)%nat with n by lia. rewrite app_nil_r. f_equal. unfold len. lia.
Qed.

(** A record: type byte, length, bytes. *)
Definition record_bytes (t : RecordType) (payload : bytes) : bytes :=
  record_type_value t :: prefixed payload.

(** A batch around the bytes of its records. *)
Definition frame {HOST : Host} {CRC : Crc32} (body : bytes) : bytes :=
  EncodeFixed32 (crc32 body) ++ EncodeFixed32 (u32 (len body)) ++ body.

Section batch.
Context {HOST : Host} {CRC : Crc32} {Y : YaraftPb} {YS : YaraftPbSpec Y}.

Definition entry_bytes (e : Entry) : bytes := record_bytes kLogEntryType (SerializeToArray e).
Definition hard_state_bytes (hs : option HardState) : bytes :=
  match hs with Some hs => record_bytes kHardStateType (SerializeToArray hs) | None => [] end.
Definition entries_bytes (es : list Entry) : bytes := concat (entry_bytes <$> es).

(** The length the code computes for the data of a batch: it leaves out the length field of the
    hard state record. *)
Definition data_len (hs : option HardState) (es : list Entry) : Z :=
  match hs with Some hs => kRecordHeaderSize + ByteSize hs | None => 0 end + len (entries_bytes es).

Lemma entries_bytes_cons e es : entries_bytes (e :: es) = entry_bytes e ++ entries_bytes es.
Proof. done. Qed.

Lemma entries_bytes_one e : entries_bytes [e] = entry_bytes e.
Proof. apply (app_nil_r (entry_bytes e)). Qed.

Lemma entries_bytes_app es1 es2 : entries_bytes (es1 ++ es2) = entries_bytes es1 ++ entries_bytes es2.
Proof. unfold entries_bytes. by rewrite fmap_app, concat_app. Qed.

Lemma len_record t p : is_u32 (len p) -> len (record_bytes t p) = 1 + VarintLength (len p) + len p.
Proof. intros Hp. unfold record_bytes. rewrite len_cons, len_prefixed by done. lia. Qed.

Lemma u32_of_len {A} (l : list A) n : len l <= n -> n < 2 ^ 32 -> is_u32 (len l).
Proof. intros. pose proof (len_nonneg l). unfold is_u32. lia. Qed.

(** The payload of a record is no longer than the record. *)
Lemma len_record_le t p : len p <= len (record_bytes t p).
Proof.
  unfold record_bytes, prefixed. rewrite len_cons, len_app.
  pose proof (len_nonneg (EncodeVarint32 (len p))). lia.
Qed.

Lemma entry_size_u32 e : len (entry_bytes e) < 2 ^ 32 -> is_u32 (len (SerializeToArray e)).
Proof. intros He. eapply u32_of_len; [apply len_record_le|exact He]. Qed.

Lemma len_entry e :
  len (entry_bytes e) < 2 ^ 32 ->
  len (entry_bytes e) = kRecordHeaderSize + VarintLength (ByteSize e) + ByteSize e.
Proof. intros He. rewrite ByteSize_len. by apply len_record, entry_size_u32. Qed.

(** The two save routines append records. *)
Lemma store_record n a t p :
  is_u32 (len p) ->
  let s := store (len a) [record_type_value t] (filled n a) in
  let v := EncodeVarint32 (u32 (len p)) in
  let s := store (len a + 1) v s in
  store (len a + 1 + len v) p s = filled n (a ++ record_bytes t p) /\
  len a + 1 + len v + len p = len (a ++ record_bytes t p).
Proof.
  intros Hp. cbv zeta. unfold u32. rewrite Z.mod_small by done.
  assert (record_bytes t p = [record_type_value t] ++ EncodeVarint32 (len p) ++ p) as -> by done.
  replace (len a + 1) with (len (a ++ [record_type_value t])) by (rewrite len_app; done).
  rewrite store_filled, store_filled, <- len_app, store_filled, <- len_app.
  by rewrite <- !app_assoc.
Qed.

Lemma saveHardState_filled hs n a :
  is_u32 (len (SerializeToArray hs)) ->
  saveHardState hs (len a) (filled n a)
  = (filled n (a ++ hard_state_bytes (Some hs)), len (a ++ hard_state_bytes (Some hs))).
Proof.
  intros Hs. unfold saveHardState. rewrite ByteSize_len.
  destruct (store_record n a kHardStateType _ Hs) as [-> Hl]. cbn [hard_state_bytes].
  f_equal. rewrite <- Hl. lia.
Qed.

Lemma saveEntries_filled es n a :
  len (entries_bytes es) < 2 ^ 32 ->
  saveEntries es (len a) (filled n a) = (filled n (a ++ entries_bytes es), len (a ++ entries_bytes es)).
Proof.
  revert a. induction es as [|e es IH]; intros a Hlen; cbn [saveEntries].
  - unfold entries_bytes. simpl. by rewrite app_nil_r.
  - rewrite entries_bytes_cons, len_app in Hlen. pose proof (len_nonneg (entry_bytes e)).
    pose proof (len_nonneg (entries_bytes es)).
    destruct (store_record n a kLogEntryType (SerializeToArray e)) as [Hst Hl];
      [apply entry_size_u32; lia|].
    rewrite ByteSize_len, Hst, Hl. fold (entry_bytes e). rewrite IH by lia.
    by rewrite entries_bytes_cons, app_assoc.
Qed.

(** The counting loop takes a prefix of the entries: it stops at the first entry that finds the
    limit reached, so everything before the last entry taken is within the limit. *)
Lemma scan_entries_spec remains t es :
  0 <= t -> t + len (entries_bytes es) < 2 ^ 32 ->
  exists written rest, es = written ++ rest /\
    scan_entries remains t es = (t + len (entries_bytes written), rest) /\
    (es <> [] -> t < u64 remains -> written <> []) /\
    (rest <> [] -> u64 remains <= t + len (entries_bytes written)) /\
    (forall w e, written = w ++ [e] -> t + len (entries_bytes w) < u64 remains).
Proof.
  revert t. induction es as [|e es IH]; intros t Ht Hlen.
  { exists [], []. split_and!; try done; [by rewrite Z.add_0_r|].
    intros w e Hw. by destruct w. }
  rewrite entries_bytes_cons, len_app in Hlen.
  pose proof (len_nonneg (entry_bytes e)). pose proof (len_nonneg (entries_bytes es)).
  cbn [scan_entries]. destruct (Z.ltb_spec t (u64 remains)) as [Hlt|Hge].
  - rewrite <- len_entry by lia.
    replace (u64 (t + len (entry_bytes e))) with (t + len (entry_bytes e))
      by (symmetry; apply Z.mod_small; lia).
    destruct (IH (t + len (entry_bytes e))) as (w & rest & -> & Hscan & Hne & Hrest & Hlast); [lia..|].
    exists (e :: w), rest. rewrite Hscan, entries_bytes_cons, len_app.
    split_and!; try done; [f_equal; lia|intros; specialize (Hrest ltac:(done)); lia|].
    intros [|e0 w'] e' [= -> Hw]; [simpl; unfold entries_bytes; simpl; rewrite (@len_nil Z); lia|].
    rewrite entries_bytes_cons, len_app. specialize (Hlast w' e' Hw). lia.
  - exists [], (e :: es). split_and!; try done; [by rewrite Z.add_0_r|lia| |].
    + intros _. unfold entries_bytes. simpl. rewrite (@len_nil Z). lia.
    + intros w e' Hw. by destruct w.
Qed.

Lemma take_from_end {A} (l1 l2 : list A) : take (length (l1 ++ l2) - length l2) (l1 ++ l2) = l1.
Proof.
  rewrite length_app. replace (_ - _)%nat with (length l1) by lia. apply take_app_length.
Qed.

(** A store inside the buffer replaces as many bytes as it has. *)
Lemma store_within a b c d o :
  length b = length d -> store (len a) d (MkScratch (a ++ b ++ c) o) = MkScratch (a ++ d ++ c) o.
Proof.
  intros Hbd. unfold store. cbn [sc_data sc_oob]. rewrite len_to_nat, !length_app.
  rewrite take_app_length, (take_ge d) by lia.
  rewrite drop_app_ge by lia. replace (_ + _ - _)%nat with (length b) by lia.
  rewrite drop_app_length. f_equal. lia.
Qed.

(** Storing the header around the records in the buffer. *)
Lemma store_header n R :
  (8 <= n)%nat -> is_u32 (Z.of_nat n) -> Z.of_nat n - 8 <= len R ->
  let s := store 4 (EncodeFixed32 (u32 (u64 (Z.of_nat n - kLogBatchHeaderSize))))
             (filled n (replicate 8 0 ++ R)) in
  let crc := crc32 (take (Z.to_nat (u64 (Z.of_nat n - kLogBatchHeaderSize)))
               (drop (Z.to_nat kLogBatchHeaderSize) (sc_data s))) in
  store 0 (EncodeFixed32 crc) s
  = MkScratch (frame (take (n - 8) R)) (len R - (Z.of_nat n - 8)).
Proof.
  intros Hn Hu HR. unfold kLogBatchHeaderSize, u64. unfold is_u32 in Hu.
  rewrite (Z.mod_small (Z.of_nat n - _)) by lia.
  assert (filled n (replicate 8 0 ++ R)
          = MkScratch (replicate 8 0 ++ take (n - 8) R) (len R - (Z.of_nat n - 8))) as ->.
  { unfold filled. rewrite <- app_assoc, take_app_ge by (rewrite length_replicate; lia).
    rewrite length_replicate, take_app_le by (unfold len in HR; lia).
    f_equal. rewrite len_app, len_replicate. lia. }
  set (B := take (n - 8) R).
  assert (length B = n - 8)%nat as HB by (unfold B, len in *; rewrite length_take; lia).
  assert (forall v, length (EncodeFixed32 v) = 4%nat) as H4
    by (intros; by rewrite EncodeFixed32_le, length_le_bytes).
  change (replicate 8 0) with (replicate 4 0 ++ replicate 4 0). rewrite <- app_assoc.
  cbv zeta. rewrite (store_within (replicate 4 0)) by (by rewrite H4). cbn [sc_data].
  rewrite app_assoc, drop_app_length' by (rewrite length_app, H4; done).
  rewrite take_ge by lia. rewrite <- app_assoc.
  etrans; [apply (store_within [] (replicate 4 0)); by rewrite H4|].
  unfold frame. cbn [app]. do 6 f_equal. unfold len. lia.
Qed.

Lemma filled_zeros n : (8 <= n)%nat -> filled n [] = filled n (replicate 8 0).
Proof.
  intros Hn. unfold filled. rewrite len_replicate, (@len_nil Z). f_equal; [|lia].
  rewrite app_nil_l, <- replicate_add, !take_replicate. f_equal. lia.
Qed.

(** What the code computes for the data of a batch falls short of the records by the length
    field of the hard state. *)
Lemma data_len_records hs es :
  len (hard_state_bytes hs) < 2 ^ 32 ->
  len (hard_state_bytes hs ++ entries_bytes es) - data_len hs es
  = match hs with Some hs => VarintLength (ByteSize hs) | None => 0 end.
Proof.
  intros Hhs. rewrite len_app. unfold data_len. destruct hs as [hs|]; [|cbn [hard_state_bytes]; rewrite (@len_nil Z); lia].
  rewrite ByteSize_len. cbn [hard_state_bytes] in *. rewrite len_record; [unfold kRecordHeaderSize; lia|].
  eapply u32_of_len; [apply len_record_le|exact Hhs].
Qed.

(** The part of the records that is missing is not negative. *)
Lemma data_len_bounds hs es :
  len (hard_state_bytes hs) < 2 ^ 32 ->
  0 <= data_len hs es <= len (hard_state_bytes hs ++ entries_bytes es).
Proof.
  intros Hhs. pose proof (data_len_records hs es Hhs) as Hd.
  pose proof (len_nonneg (entries_bytes es)).
  destruct hs as [hs|]; unfold data_len in *; [|lia].
  rewrite ByteSize_len in *. pose proof (len_nonneg (SerializeToArray hs)).
  assert (is_u32 (len (SerializeToArray hs))) as Hu
    by (eapply u32_of_len; [apply len_record_le|exact Hhs]).
  pose proof (VarintLength_bounds _ (is_u32_u64 _ Hu)). unfold kRecordHeaderSize in *. lia.
Qed.

Lemma data_len_split hs es : data_len hs es = data_len hs [] + len (entries_bytes es).
Proof. unfold data_len, entries_bytes at 2. simpl. rewrite (@len_nil Z). lia. Qed.

(** Filling the buffer once the entries to write are known. *)
Lemma fill_batch hs written (we : bool) :
  8 + len (hard_state_bytes hs) + len (entries_bytes written) < 2 ^ 32 ->
  (we = false -> written = []) ->
  let R := hard_state_bytes hs ++ entries_bytes written in
  let n := Z.to_nat (8 + data_len hs written) in
  (let s := new_scratch (8 + data_len hs written) in
   let offset := kLogBatchHeaderSize in
   let '(s, offset) := match hs with Some hs => saveHardState hs offset s | None => (s, offset) end in
   let '(s, offset) := if we then saveEntries written offset s else (s, offset) in s)
  = filled n (replicate 8 0 ++ R).
Proof.
  intros Hlen Hwe. cbv zeta. pose proof (len_nonneg (hard_state_bytes hs)).
  pose proof (len_nonneg (entries_bytes written)).
  pose proof (data_len_bounds hs written ltac:(lia)) as Hdb.
  rewrite new_scratch_filled, filled_zeros by lia.
  change kLogBatchHeaderSize with (len (replicate 8 0)).
  set (n := Z.to_nat (8 + data_len hs written)).
  assert (match hs with
          | Some hs => saveHardState hs (len (replicate 8 0)) (filled n (replicate 8 0))
          | None => (filled n (replicate 8 0), len (replicate 8 0))
          end = (filled n (replicate 8 0 ++ hard_state_bytes hs),
                 len (replicate 8 0 ++ hard_state_bytes hs))) as ->.
  { destruct hs as [hs|]; [|by rewrite app_nil_r]. apply saveHardState_filled.
    eapply u32_of_len; [apply (len_record_le kHardStateType)|cbn [hard_state_bytes] in *; lia]. }
  destruct we; [|rewrite Hwe by done; cbn; by rewrite app_nil_r].
  by rewrite saveEntries_filled, <- app_assoc by lia.
Qed.

(** The entries that go into a batch, and whether there are any. *)
Lemma choose_entries remains es hs :
  8 + len (hard_state_bytes hs) + len (entries_bytes es) < 2 ^ 32 ->
  exists we written rest, es = written ++ rest /\
    (if (8 + data_len hs [] <? u64 remains) && negb (bool_decide (length es = O)) then
      let '(totalSize, newBegin) := scan_entries remains (8 + data_len hs []) es in
      (true, totalSize, newBegin)
     else (false, 8 + data_len hs [], es)) = (we, 8 + data_len hs written, rest) /\
    (we = false -> written = []) /\
    (es <> [] -> 8 + data_len hs [] < u64 remains -> written <> []) /\
    (rest <> [] -> u64 remains <= 8 + data_len hs written) /\
    (forall w e, written = w ++ [e] -> 8 + data_len hs w < u64 remains).
Proof.
  intros Hlen. pose proof (len_nonneg (hard_state_bytes hs)). pose proof (len_nonneg (entries_bytes es)).
  pose proof (data_len_bounds hs [] ltac:(lia)) as Hd0.
  change (entries_bytes []) with (@nil Z) in Hd0. rewrite app_nil_r in Hd0.
  destruct (Z.ltb_spec (8 + data_len hs []) (u64 remains)); cbn [andb].
  2: { exists false, [], es. split_and!; try done; [lia|]. intros w e Hw. by destruct w. }
  destruct (scan_entries_spec remains (8 + data_len hs []) es)
    as (w & rest & -> & -> & Hne & Hrest & Hlast); [lia..|].
  case_bool_decide as Hnil; cbn [negb].
  - apply nil_length_inv, app_nil in Hnil as [-> ->]. exists false, [], []. split_and!; try done.
    intros w e Hw. by destruct w.
  - exists true, w, rest. rewrite (data_len_split hs w).
    split_and!; try done; [f_equal; f_equal; lia|intros Hr; specialize (Hrest Hr); lia|].
    intros w' e Hw. rewrite data_len_split. specialize (Hlast w' e Hw). lia.
Qed.

(** The bytes of a batch: the frame around the first [data_len] bytes of the records. *)
Lemma build_batch_spec remains es hs :
  8 + len (hard_state_bytes hs) + len (entries_bytes es) < 2 ^ 32 ->
  exists written rest, es = written ++ rest /\
    (let R := hard_state_bytes hs ++ entries_bytes written in
     build_batch remains es hs
     = (MkScratch (frame (take (Z.to_nat (data_len hs written)) R)) (len R - data_len hs written), rest)) /\
    (es <> [] -> 8 + data_len hs [] < u64 remains <-> written <> []) /\
    (rest <> [] -> u64 remains <= 8 + data_len hs written) /\
    (forall w e, written = w ++ [e] -> 8 + data_len hs w < u64 remains).
Proof.
  intros Hlen.
  pose proof (len_nonneg (hard_state_bytes hs)). pose proof (len_nonneg (entries_bytes es)).
  pose proof (data_len_bounds hs [] ltac:(lia)) as Hd0.
  change (entries_bytes []) with (@nil Z) in Hd0. rewrite app_nil_r in Hd0.
  unfold build_batch.
  assert (match hs with
          | Some hs => u64 (kLogBatchHeaderSize + (kRecordHeaderSize + ByteSize hs))
          | None => kLogBatchHeaderSize
          end = 8 + data_len hs []) as ->.
  { destruct hs as [hs|]; [|done]. unfold u64. rewrite Z.mod_small;
      unfold data_len, entries_bytes, kLogBatchHeaderSize in *; cbn in *; rewrite ?(@len_nil Z) in *; lia. }
  destruct (choose_entries remains es hs ltac:(lia)) as (we & written & rest & -> & -> & Hwe & Hroom & Hrest & Hlast).
  exists written, rest. split_and!; try done; [|intros Hes; split; [by apply Hroom|]].
  2: { intros Hw. destruct (exists_last Hw) as (w & e & ->). specialize (Hlast w e eq_refl).
       rewrite data_len_split in Hlast. pose proof (len_nonneg (entries_bytes w)). lia. }
  cbv zeta match. rewrite take_from_end.
  rewrite entries_bytes_app, len_app in Hlen. pose proof (len_nonneg (entries_bytes rest)).
  pose proof (len_nonneg (entries_bytes written)).
  pose proof (data_len_bounds hs written ltac:(lia)) as Hdb. rewrite len_app in Hdb.
  pose proof (fill_batch hs written we ltac:(lia) Hwe) as Hfill. cbv zeta in Hfill.
  destruct (match hs with Some _ => _ | None => _ end) as [s1 off1].
  destruct (if we then _ else _) as [s2 off2]. subst s2. f_equal.
  pose proof (store_header (Z.to_nat (8 + data_len hs written))
    (hard_state_bytes hs ++ entries_bytes written)) as Hh.
  rewrite Z2Nat.id in Hh by lia. etrans; [apply Hh|].
  - lia.
  - unfold is_u32. lia.
  - rewrite len_app. lia.
  - f_equal; [|lia]. do 2 f_equal. lia.
Qed.

(** ** [LogWriter::Append] on an open segment *)

(** The bytes one call puts at the end of the segment. *)
Definition batch (hs : option HardState) (written : list Entry) : bytes :=
  frame (take (Z.to_nat (data_len hs written)) (hard_state_bytes hs ++ entries_bytes written)).

Definition segment_head (w : LogWriter) : bytes :=
  if lw_empty_ w then kLogSegmentHeaderMagic else [].

Lemma batch_entries es : batch None es = frame (entries_bytes es).
Proof.
  unfold batch, data_len. cbn [hard_state_bytes app]. rewrite Z.add_0_l, len_to_nat.
  by rewrite firstn_all.
Qed.

(** The writer is at the end of the file [path], whose contents are [c]. *)
Record writer_at (o : os) (w : LogWriter) (path : string) (c : bytes) : Prop := {
  writer_fd : os_fds o !! fd_ (file_ w) = Some (OpenFile path (length c));
  writer_file : os_files o !! path = Some c;
  writer_size : filesize_ (file_ w) = len c;
}.

(** The writer after a call that put [d] into the segment and [n] entries with it. *)
Definition writer_after (w : LogWriter) (d : bytes) (n oob : Z) : LogWriter :=
  MkLogWriter (set_filesize_ (u64 (filesize_ (file_ w) + len d)) (file_ w))
    (MkSegmentMetaData (fileName (meta_ w)) (u64 (numEntries (meta_ w) + n)))
    (logSegmentSize_ w) false (lw_oob_ w + oob).

(** What a call leaves in the segment: all of the batch, or a part of it and an [IOError] that
    a fault of the environment explains. *)
Definition writer_post (o : os) (w : LogWriter) (path : string) (c : bytes) (es : list Entry)
    (hs : option HardState) (r : result ErrorCode (list Entry)) (st : os * LogWriter) : Prop :=
  exists written rest d s, es = written ++ rest /\
    let full := segment_head w ++ batch hs written in
    let room := u64 (s64 (logSegmentSize_ w - (len c + len (segment_head w)))) in
    fst st = os_appended o (fd_ (file_ w)) path c d s /\ s `suffix_of` os_script o /\
    (es <> [] -> 8 + data_len hs [] < room <-> written <> []) /\
    (rest <> [] -> room <= 8 + data_len hs written) /\
    match r with
    | Ok rest' =>
        rest' = rest /\ d = full /\
        snd st = writer_after w full (len written)
                   (len (hard_state_bytes hs ++ entries_bytes written) - data_len hs written)
    | Err e => e = IOError /\ os_script o <> [] /\ d `prefix_of` full
    | Halt _ => False
    end.

Lemma set_filesize_twice n m f : set_filesize_ n (set_filesize_ m f) = set_filesize_ n f.
Proof. done. Qed.

(** The header of a new segment. *)
Lemma append_head_spec o w path c :
  writer_at o w path c -> len c + 10 < 2 ^ 64 ->
  wp (if lw_empty_ w then
         _ ← on_file (Append kLogSegmentHeaderMagic);
         set_writer (set_lw_empty_ false)
       else mret tt) (o, w) (fun r st =>
    exists d s, fst st = os_appended o (fd_ (file_ w)) path c d s /\ s `suffix_of` os_script o /\
    match r with
    | Ok _ => d = segment_head w /\
        snd st = MkLogWriter (set_filesize_ (len (c ++ d)) (file_ w)) (meta_ w)
                   (logSegmentSize_ w) false (lw_oob_ w)
    | Err e => e = IOError /\ os_script o <> [] /\ d `prefix_of` segment_head w
    | Halt _ => False
    end).
Proof.
  intros [Hfd Hf Hsz] Hlen. unfold segment_head. destruct (lw_empty_ w) eqn:Hemp.
  - unfold on_file. wp_steps.
    eapply wp_mono; [by apply (Append_spec kLogSegmentHeaderMagic o (file_ w) path c)|].
    intros [[]|e|h] [o' f'] (d & s & Ho & Hs & Hr); simpl in *; [..|done].
    + destruct Hr as [-> ->]. unfold set_writer. wp_steps. exists kLogSegmentHeaderMagic, s.
      split_and!; try done. simpl. unfold set_lw_empty_, set_file_. simpl. do 2 f_equal.
      rewrite Hsz, len_app. apply Z.mod_small. pose proof (len_nonneg c).
      change (len kLogSegmentHeaderMagic) with 10. lia.
    + exists d, s. naive_solver.
  - apply wp_ret. exists [], (os_script o). rewrite os_appended_nil by done.
    split_and!; [by destruct o|done..|]. rewrite app_nil_r, <- Hsz.
    destruct w as [[] ? ? ? ?]. simpl in *. by subst.
Qed.

Lemma len_kLogSegmentHeaderMagic : len kLogSegmentHeaderMagic = 10.
Proof. done. Qed.

Lemma len_segment_head w : 0 <= len (segment_head w) <= 10.
Proof. unfold segment_head. destruct (lw_empty_ w); [by rewrite len_kLogSegmentHeaderMagic|done]. Qed.

Lemma LogWriter_Append_spec o w path c es hs :
  writer_at o w path c -> len c < 2 ^ 63 ->
  8 + len (hard_state_bytes hs) + len (entries_bytes es) < 2 ^ 32 ->
  wp (LogWriter_Append es hs) (o, w) (writer_post o w path c es hs).
Proof.
  intros Hat Hc Hlen. unfold LogWriter_Append, get_writer. wp_steps.
  eapply wp_mono; [apply append_head_spec; [done|lia]|].
  destruct Hat as [Hfd Hf Hsz].
  intros r [o1 w1] (d1 & s1 & Ho1 & Hs1 & Hr1). cbn [fst snd] in *. subst o1.
  set (room := s64 (logSegmentSize_ w - (len c + len (segment_head w)))).
  destruct (build_batch_spec room es hs Hlen) as (written & rest & -> & Hb & Hroom & Hrest & Hlast).
  cbv zeta in Hb. fold (batch hs written) in Hb.
  pose proof (len_segment_head w).
  destruct r as [[]|e|h]; [|exists written, rest, d1, s1; naive_solver eauto using prefix_app_r|done].
  destruct Hr1 as [-> ->]. cbv beta. wp_steps. cbn [logSegmentSize_ file_].
  unfold Size. cbn [set_filesize_ filesize_]. rewrite len_app. fold room. rewrite Hb.
  unfold set_writer, on_file. wp_steps. cbn [add_oob file_ set_filesize_ sc_data].
  set (f1 := set_filesize_ (len c + len (segment_head w)) (file_ w)).
  eapply wp_mono.
  { apply (Append_spec (batch hs written) _ f1 path (c ++ segment_head w)); cbn;
      by rewrite lookup_insert_eq. }
  intros r [o2 f2] (d2 & s2 & Ho2 & Hs2 & Hr2). cbn [fst snd] in *. subst o2.
  change (fd_ f1) with (fd_ (file_ w)) in *. rewrite os_appended_app in *. cbn [os_script os_appended] in *.
  assert (s2 `suffix_of` os_script o) by (by etrans).
  destruct r as [[]|e|h]; [| |done].
  - destruct Hr2 as [-> ->]. cbv beta match. wp_steps. exists written, rest, (segment_head w ++ batch hs written), s2.
    split_and!; try done. replace (len (written ++ rest) - len rest) with (len written)
      by (rewrite len_app; lia).
    unfold writer_after. by rewrite (len_app (segment_head w)), Hsz, Z.add_assoc.
  - destruct Hr2 as (-> & Hne & [k Hk] & ->). exists written, rest, (segment_head w ++ d2), s2.
    split; [done|]. cbv zeta. split_and!; [done..| |exists k; by rewrite Hk, <- app_assoc].
    intros Hn. rewrite Hn in Hs1. by apply suffix_nil_inv in Hs1 as ->.
Qed.
End batch.

(** C15: [LogWriter::Append] without a hard state puts exactly one batch at the end of the
    segment: after the segment header if the segment is new, a frame (checksum, length, records)
    around a prefix of the entries.  The entries left are returned; some are written whenever at
    least nine bytes of the segment are free, all of them unless the batch reaches the segment
    size; no byte is stored outside the scratch buffer.  A failing call leaves a prefix of that
    batch in the file. *)
Theorem log_writer_append (HOST : Host) (CRC : Crc32) (Y : YaraftPb) (YS : YaraftPbSpec Y)
    o w path c es :
  writer_at o w path c -> len c < 2 ^ 63 -> 8 + len (entries_bytes es) < 2 ^ 32 ->
  exists r o' w' written rest d s, LogWriter_Append es None (o, w) = (r, (o', w')) /\
    es = written ++ rest /\ o' = os_appended o (fd_ (file_ w)) path c d s /\
    let full := segment_head w ++ frame (entries_bytes written) in
    let room := u64 (s64 (logSegmentSize_ w - (len c + len (segment_head w)))) in
    (es <> [] -> 8 < room <-> written <> []) /\
    (rest <> [] -> room <= 8 + len (entries_bytes written)) /\
    match r with
    | Ok rest' => rest' = rest /\ d = full /\ w' = writer_after w full (len written) 0
    | Err e => e = IOError /\ os_script o <> [] /\ d `prefix_of` full
    | Halt _ => False
    end.
Proof.
  intros Hat Hc Hlen.
  pose proof (LogWriter_Append_spec o w path c es None Hat Hc
                ltac:(cbn [hard_state_bytes]; rewrite (@len_nil Z); lia)) as Hs. unfold wp in Hs.
  destruct (LogWriter_Append es None (o, w)) as [r [o' w']]. unfold writer_post in Hs. cbv zeta in Hs.
  destruct Hs as (written & rest & d & s & ? & ? & _ & Hroom & Hrest & Hr).
  rewrite batch_entries in Hr. cbn [fst snd hard_state_bytes app] in *.
  assert (forall l, data_len None l = len (entries_bytes l)) as Hdl by (intros l; unfold data_len; lia).
  rewrite !Hdl in *. change (len (entries_bytes [])) with 0 in Hroom. rewrite Z.add_0_r in Hroom.
  rewrite Z.sub_diag in Hr. by exists r, o', w', written, rest, d, s.
Qed.
