(* ===== verification/ReadSegment.v ===== *)
(** * Reading a segment: [src/src/wal/readable_log_segment.h], [readable_log_segment.cc]

    The reader walks over the bytes of a whole segment, batch by batch, and applies the records
    it finds to the memory store. *)

From S2P Require Import Prelude External Coding Status Posix Segment LogWriter.

Section reader.
Context {HOST : Host} {CRC : Crc32} {SL : SliceLib} {Y : YaraftPb} {M : MemStoreLib Y}.

(** ** [ReadableLogSegment]

    [buf_] is the pointer into the buffer: the bytes from there to the buffer's end. *)
Record ReadableLogSegment := MkReadableLogSegment {
  buf_ : bytes;
  remain_ : Z;
  memStore_ : MemoryStorage;
  metaData_ : SegmentMetaData;
  verifyChecksum_ : bool;
}.

Definition new_ReadableLogSegment (scratch : bytes) (memStore : MemoryStorage)
    (metaData : SegmentMetaData) (verifyChecksum : bool) : ReadableLogSegment :=
  MkReadableLogSegment scratch (len scratch) memStore metaData verifyChecksum.

Abbreviation SegM := (Prog ErrorCode ReadableLogSegment).

Definition checkRemain (need : Z) : SegM unit := fun seg =>
  if remain_ seg <? need then (Err Corruption, seg) else (Ok tt, seg).

Definition advance (size : Z) : SegM unit := modify (fun seg =>
  MkReadableLogSegment (drop (Z.to_nat size) (buf_ seg)) (u64 (remain_ seg - size))
    (memStore_ seg) (metaData_ seg) (verifyChecksum_ seg)).

Definition Eof (seg : ReadableLogSegment) : bool := remain_ seg =? 0.

(** The first [n] bytes at [buf_]; a read past the end of the buffer is undefined. *)
Definition peek (n : Z) : SegM bytes := fun seg =>
  if n <=? len (buf_ seg) then (Ok (take (Z.to_nat n) (buf_ seg)), seg) else (Halt Undefined, seg).

(** [DecodeFixed32(buf_ + off)]. *)
Definition peek_fixed32 (off : Z) : SegM Z := fun seg =>
  match DecodeFixed32 (drop (Z.to_nat off) (buf_ seg)) with
  | Some v => (Ok v, seg)
  | None => (Halt Undefined, seg)
  end.

Definition ReadHeader : SegM unit :=
  _ ← checkRemain (len kLogSegmentHeaderMagic);
  magic ← peek (len kLogSegmentHeaderMagic);
  if slice_compare kLogSegmentHeaderMagic magic =? 0 then advance (len kLogSegmentHeaderMagic)
  else fail Corruption.

(** One record: a log entry, a hard state, or a type the reader skips. *)
Definition apply_record (type : Z) (data : bytes) : SegM unit := modify (fun seg =>
  if type =? record_type_value kLogEntryType then
    MkReadableLogSegment (buf_ seg) (remain_ seg) (ms_Append (memStore_ seg) (ParseFromArray data))
      (MkSegmentMetaData (fileName (metaData_ seg)) (u64 (numEntries (metaData_ seg) + 1)))
      (verifyChecksum_ seg)
  else if type =? record_type_value kHardStateType then
    MkReadableLogSegment (buf_ seg) (remain_ seg)
      (ms_SetHardState (memStore_ seg) (ParseFromArray data)) (metaData_ seg) (verifyChecksum_ seg)
  else seg).

(** Every turn takes the type byte, so there are at most as many turns as bytes. *)
Fixpoint read_records (fuel : nat) (record : bytes) : SegM unit :=
  match fuel with
  | O => halt_with OutOfFuel
  | S fuel =>
      match record with
      | [] => mret tt
      | type :: _ =>
          match GetLengthPrefixedSlice (slice_skip kRecordHeaderSize record) with
          | (None, _) => fail Corruption
          | (Some data, record) => _ ← apply_record type data; read_records fuel record
          end
      end
  end.

Definition ReadRecord : SegM unit :=
  _ ← checkRemain kLogBatchHeaderSize;
  crc ← peek_fixed32 0;
  len ← peek_fixed32 4;
  _ ← advance kLogBatchHeaderSize;
  _ ← checkRemain len;
  verify ← gets verifyChecksum_;
  _ ← (if (verify : bool) then
         data ← peek len;
         if crc32 data =? crc then mret tt else fail Corruption
       else mret tt);
  record ← peek len;
  _ ← read_records (S (length record)) record;
  advance len.

(** Every turn takes a batch header, so there are at most as many turns as bytes. *)
Fixpoint ReadSegment_loop (fuel : nat) : SegM unit :=
  match fuel with
  | O => halt_with OutOfFuel
  | S fuel =>
      eof ← gets Eof;
      if (eof : bool) then mret tt else _ ← ReadRecord; ReadSegment_loop fuel
  end.

(** The part of [ReadSegmentIntoMemoryStorage] after the file was read. *)
Definition ReadSegment : SegM unit :=
  n ← gets (fun seg => length (buf_ seg));
  _ ← ReadHeader;
  ReadSegment_loop (S n).

(** The memory store and the meta data are changed in place, so they keep what was read before
    an error. *)
Definition ReadSegmentIntoMemoryStorage (fname : string) (verifyChecksum : bool) :
    Prog ErrorCode (os * (MemoryStorage * SegmentMetaData)) unit :=
  s ← zoom fst (fun o st => (o, snd st)) (ReadFullyToBuffer fname);
  zoom (fun st => new_ReadableLogSegment s (fst (snd st)) (snd (snd st)) verifyChecksum)
    (fun seg st => (fst st, (memStore_ seg, metaData_ seg))) ReadSegment.
End reader.

(** ** What the bytes of a segment mean *)

Section meaning.
Context {HOST : Host} {CRC : Crc32} {CS : Crc32Spec CRC} {SL : SliceLib} {SS : SliceSpec SL}.
Context {Y : YaraftPb} {YS : YaraftPbSpec Y} {M : MemStoreLib Y}.

Inductive record := RecHardState (hs : HardState) | RecEntry (e : Entry).

Definition bytes_of_record (r : record) : bytes :=
  match r with
  | RecHardState hs => record_bytes kHardStateType (SerializeToArray hs)
  | RecEntry e => record_bytes kLogEntryType (SerializeToArray e)
  end.

Definition records_bytes (rs : list record) : bytes := concat (bytes_of_record <$> rs).

(** The effect of records on the store and on the count of entries. *)
Definition replay (m : MemoryStorage) (rs : list record) : MemoryStorage :=
  foldl (fun m r => match r with
                    | RecHardState hs => ms_SetHardState m hs
                    | RecEntry e => ms_Append m e
                    end) m rs.

Definition record_entry (r : record) : option Entry :=
  match r with RecEntry e => Some e | RecHardState _ => None end.

(** The reader after a record, and moved to another place of the buffer. *)
Definition seg_apply (seg : ReadableLogSegment) (r : record) : ReadableLogSegment :=
  MkReadableLogSegment (buf_ seg) (remain_ seg) (replay (memStore_ seg) [r])
    (MkSegmentMetaData (fileName (metaData_ seg))
       match r with
       | RecEntry _ => u64 (numEntries (metaData_ seg) + 1)
       | RecHardState _ => numEntries (metaData_ seg)
       end)
    (verifyChecksum_ seg).

Definition seg_at (rest : bytes) (seg : ReadableLogSegment) : ReadableLogSegment :=
  MkReadableLogSegment rest (len rest) (memStore_ seg) (metaData_ seg) (verifyChecksum_ seg).

Definition seg_replay (seg : ReadableLogSegment) (rs : list record) : ReadableLogSegment :=
  foldl seg_apply seg rs.

Lemma replay_app m rs1 rs2 : replay m (rs1 ++ rs2) = replay (replay m rs1) rs2.
Proof. apply foldl_app. Qed.

Lemma seg_replay_memStore rs seg : memStore_ (seg_replay seg rs) = replay (memStore_ seg) rs.
Proof. revert seg. induction rs as [|r rs IH]; intros seg; [done|]. apply IH. Qed.

Lemma seg_replay_fields rs seg :
  buf_ (seg_replay seg rs) = buf_ seg /\ remain_ (seg_replay seg rs) = remain_ seg /\
  verifyChecksum_ (seg_replay seg rs) = verifyChecksum_ seg /\
  fileName (metaData_ (seg_replay seg rs)) = fileName (metaData_ seg).
Proof. revert seg. induction rs as [|r rs IH]; intros seg; [done|]. apply (IH (seg_apply seg r)). Qed.

Lemma seg_replay_count rs seg :
  is_u64 (numEntries (metaData_ seg)) ->
  numEntries (metaData_ (seg_replay seg rs))
  = u64 (numEntries (metaData_ seg) + len (omap record_entry rs)).
Proof.
  revert seg. induction rs as [|r rs IH]; intros seg Hn; simpl.
  - rewrite (@len_nil Entry), Z.add_0_r. symmetry. by apply Z.mod_small.
  - rewrite IH by (destruct r; [done|apply Z.mod_pos_bound; lia]). destruct r; [done|]. simpl.
    rewrite len_cons. unfold u64. by rewrite Zplus_mod_idemp_l, <- Z.add_assoc.
Qed.

Lemma seg_at_replay rest seg rs : seg_at rest (seg_replay seg rs) = seg_replay (seg_at rest seg) rs.
Proof. revert seg. induction rs as [|r rs IH]; intros seg; [done|]. apply (IH (seg_apply seg r)). Qed.

Lemma records_bytes_cons r rs : records_bytes (r :: rs) = bytes_of_record r ++ records_bytes rs.
Proof. done. Qed.

(** One record at the front is taken off and applied. *)
Lemma read_records_step fuel r tail seg :
  len (bytes_of_record r) < 2 ^ 32 ->
  read_records (S fuel) (bytes_of_record r ++ tail) seg = read_records fuel tail (seg_apply seg r).
Proof.
  intros Hr. assert (exists t p, bytes_of_record r = record_bytes t p /\
    apply_record (record_type_value t) p seg = (Ok tt, seg_apply seg r)) as (t & p & Hb & Ha).
  { destruct r as [hs|e]; do 2 eexists; (split; [done|]);
      unfold apply_record, modify, seg_apply; simpl; rewrite Parse_Serialize; [|done].
    by destruct (metaData_ seg). }
  rewrite Hb in *. cbn [read_records record_bytes app].
  rewrite slice_skip_drop.
  2: { unfold kRecordHeaderSize. rewrite len_cons. pose proof (len_nonneg (prefixed p ++ tail)). lia. }
  change (Z.to_nat kRecordHeaderSize) with 1%nat. cbn [drop].
  rewrite drop_0, GetLengthPrefixedSlice_prefixed.
  - unfold mbind, prog_bind. by rewrite Ha.
  - eapply u32_of_len; [apply len_record_le|exact Hr].
Qed.

Lemma read_records_all rs fuel tail seg :
  len (records_bytes rs) < 2 ^ 32 ->
  read_records (length rs + fuel) (records_bytes rs ++ tail) seg
  = read_records fuel tail (seg_replay seg rs).
Proof.
  revert seg. induction rs as [|r rs IH]; intros seg Hlen; [done|].
  rewrite records_bytes_cons, len_app in Hlen. pose proof (len_nonneg (bytes_of_record r)).
  pose proof (len_nonneg (records_bytes rs)).
  rewrite records_bytes_cons, <- app_assoc. cbn [length Nat.add].
  rewrite read_records_step by lia. by rewrite IH by lia.
Qed.

Lemma length_records rs : (length rs <= length (records_bytes rs))%nat.
Proof.
  induction rs as [|r rs IH]; [done|]. rewrite records_bytes_cons, length_app.
  destruct r; simpl; lia.
Qed.

(** With a turn per byte, the loop gets through the records and to what follows them. *)
Lemma read_records_enough rs tail seg :
  len (records_bytes rs) < 2 ^ 32 ->
  exists fuel, (length tail < fuel)%nat /\
  read_records (S (length (records_bytes rs ++ tail))) (records_bytes rs ++ tail) seg
  = read_records fuel tail (seg_replay seg rs).
Proof.
  intros Hlen. pose proof (length_records rs).
  exists (S (length (records_bytes rs ++ tail)) - length rs)%nat. rewrite length_app. split; [lia|].
  rewrite <- read_records_all by done. f_equal. lia.
Qed.

(** ** One batch *)

(** A batch whose header holds the checksum [crc]. *)
Definition framed (crc : Z) (body : bytes) : bytes :=
  EncodeFixed32 crc ++ EncodeFixed32 (u32 (len body)) ++ body.

Lemma framed_frame body : framed (crc32 body) body = frame body.
Proof. done. Qed.

Lemma len_framed crc body : len (framed crc body) = 8 + len body.
Proof. unfold framed. rewrite !len_app, !len_EncodeFixed32. lia. Qed.

(** The reader stands at the start of [b], the rest of its buffer. *)
Definition reader_at (seg : ReadableLogSegment) (b : bytes) : Prop :=
  buf_ seg = b /\ remain_ seg = len b /\ len b < 2 ^ 64.

Lemma reader_at_id seg b : reader_at seg b -> seg = seg_at b seg.
Proof. intros (Hb & Hr & _). destruct seg. simpl in *. by subst. Qed.

Lemma checkRemain_ok need seg : need <= remain_ seg -> checkRemain need seg = (Ok tt, seg).
Proof. intros. unfold checkRemain. by destruct (Z.ltb_spec (remain_ seg) need); [lia|]. Qed.

Lemma checkRemain_short need seg : remain_ seg < need -> checkRemain need seg = (Err Corruption, seg).
Proof. intros. unfold checkRemain. by destruct (Z.ltb_spec (remain_ seg) need); [|lia]. Qed.

Lemma advance_app seg b rest :
  len b < 2 ^ 64 -> len rest < 2 ^ 64 -> buf_ seg = b ++ rest -> remain_ seg = len (b ++ rest) ->
  advance (len b) seg = (Ok tt, seg_at rest seg).
Proof.
  intros H1 H2 Hb Hr. unfold advance, modify, seg_at. rewrite Hb, Hr, drop_len_app.
  pose proof (len_nonneg rest). rewrite len_app. do 2 f_equal. unfold u64.
  rewrite Z.mod_small; lia.
Qed.

Lemma peek_app seg b rest : buf_ seg = b ++ rest -> peek (len b) seg = (Ok b, seg).
Proof.
  intros Hb. unfold peek. rewrite Hb, take_len_app, len_app. pose proof (len_nonneg rest).
  by destruct (Z.leb_spec (len b) (len b + len rest)); [|lia].
Qed.

(** The part of [ReadRecord] after the header: the checksum and the records. *)
Definition read_body (crc : Z) (body : bytes) (rest : bytes) (seg : ReadableLogSegment) :
    result ErrorCode unit * ReadableLogSegment :=
  if verifyChecksum_ seg && negb (crc32 body =? crc) then (Err Corruption, seg)
  else (read_records (S (length body)) body ≫= fun _ => advance (len body)) seg.

Lemma ReadRecord_framed crc body rest seg :
  is_u32 crc -> len body < 2 ^ 32 -> reader_at seg (framed crc body ++ rest) ->
  ReadRecord seg = read_body crc body rest (seg_at (body ++ rest) seg).
Proof.
  intros Hcrc Hbody (Hb & Hr & Hlen). pose proof (len_nonneg body). pose proof (len_nonneg rest).
  rewrite len_app, len_framed in Hr, Hlen. unfold ReadRecord.
  rewrite (run_bind_ok _ _ seg seg tt); [|apply checkRemain_ok; unfold kLogBatchHeaderSize; lia].
  rewrite (run_bind_ok _ _ seg seg crc).
  2: { unfold peek_fixed32. rewrite Hb. unfold framed. rewrite drop_0, <- app_assoc.
       by rewrite DecodeFixed32_Encode. }
  rewrite (run_bind_ok _ _ seg seg (len body)).
  2: { unfold peek_fixed32. rewrite Hb. unfold framed. rewrite <- app_assoc.
       rewrite <- (len_EncodeFixed32 crc), drop_len_app, <- app_assoc.
       unfold u32. rewrite Z.mod_small by lia. by rewrite DecodeFixed32_Encode. }
  set (hd := EncodeFixed32 crc ++ EncodeFixed32 (u32 (len body))).
  assert (len hd = 8) as Hhd by (unfold hd; by rewrite len_app, !len_EncodeFixed32).
  rewrite (run_bind_ok _ _ seg (seg_at (body ++ rest) seg) tt).
  2: { change kLogBatchHeaderSize with 8. rewrite <- Hhd. apply advance_app; rewrite ?len_app; try lia.
       unfold hd. rewrite Hb. unfold framed. by rewrite <- !app_assoc. }
  rewrite (run_bind_ok _ _ _ (seg_at (body ++ rest) seg) tt);
    [|apply checkRemain_ok; simpl; rewrite len_app; lia].
  unfold read_body. erewrite (run_bind_ok (gets _)) by done. cbn [verifyChecksum_ seg_at].
  destruct (verifyChecksum_ seg); cbn [andb].
  - destruct (Z.eqb_spec (crc32 body) crc) as [He|He]; cbn [negb].
    + erewrite run_bind_ok; [|erewrite run_bind_ok by (by eapply peek_app); rewrite He; by rewrite Z.eqb_refl].
      by erewrite run_bind_ok by (by eapply peek_app).
    + erewrite run_bind_err; [done|]. erewrite run_bind_ok by (by eapply peek_app).
      by destruct (Z.eqb_spec (crc32 body) crc).
  - erewrite run_bind_ok by done. by erewrite run_bind_ok by (by eapply peek_app).
Qed.

(** A good batch is applied, and the reader moves past it. *)
Lemma ReadRecord_good rs rest seg :
  len (records_bytes rs) < 2 ^ 32 -> reader_at seg (frame (records_bytes rs) ++ rest) ->
  ReadRecord seg = (Ok tt, seg_replay (seg_at rest seg) rs).
Proof.
  intros Hlen Hat. pose proof Hat as (_ & _ & Hl). rewrite <- framed_frame, len_app, len_framed in Hl.
  pose proof (len_nonneg (records_bytes rs)). pose proof (len_nonneg rest).
  rewrite (ReadRecord_framed (crc32 (records_bytes rs)) (records_bytes rs) rest)
    by (done || apply crc32_u32).
  unfold read_body. rewrite Z.eqb_refl, andb_false_r.
  destruct (read_records_enough rs [] (seg_at (records_bytes rs ++ rest) seg) Hlen)
    as (fuel & Hfuel & Hrun).
  rewrite app_nil_r in Hrun. destruct fuel as [|fuel]; [simpl in Hfuel; lia|].
  erewrite run_bind_ok by (by rewrite Hrun).
  destruct (seg_replay_fields rs (seg_at (records_bytes rs ++ rest) seg)) as (Hb & Hr & _).
  rewrite (advance_app _ _ rest); [|lia..|done|by rewrite Hr].
  by rewrite seg_at_replay.
Qed.

(** A batch cut short: the header itself or the length in it gives it away. *)
Lemma ReadRecord_torn crc body n seg :
  is_u32 crc -> len body < 2 ^ 32 -> (n < length (framed crc body))%nat ->
  reader_at seg (take n (framed crc body)) ->
  exists seg', ReadRecord seg = (Err Corruption, seg') /\ memStore_ seg' = memStore_ seg /\
    metaData_ seg' = metaData_ seg.
Proof.
  intros Hcrc Hbody Hn (Hb & Hr & Hlen). pose proof (len_nonneg body).
  pose proof (len_framed crc body) as Hlf. unfold len at 1 in Hlf.
  assert (len (take n (framed crc body)) = Z.of_nat n) as Hln
    by (unfold len; rewrite length_take; lia).
  rewrite Hln in Hr, Hlen. unfold ReadRecord. change kLogBatchHeaderSize with 8.
  destruct (decide (Z.of_nat n < 8)) as [Hs|Hs].
  { exists seg. split_and!; try done. erewrite run_bind_err; [done|]. apply checkRemain_short. lia. }
  set (hd := EncodeFixed32 crc ++ EncodeFixed32 (u32 (len body))).
  assert (length hd = 8%nat) as Hhd.
  { unfold hd. rewrite length_app, !EncodeFixed32_le, !length_le_bytes. done. }
  assert (take n (framed crc body) = hd ++ take (n - 8) body) as Htk.
  { unfold framed. rewrite app_assoc. fold hd. rewrite take_app_ge by lia. by rewrite Hhd. }
  rewrite Htk in Hb. unfold hd in Hb. rewrite <- app_assoc in Hb.
  rewrite (run_bind_ok _ _ seg seg tt); [|apply checkRemain_ok; lia].
  rewrite (run_bind_ok _ _ seg seg crc)
    by (unfold peek_fixed32; rewrite Hb, drop_0; by rewrite DecodeFixed32_Encode).
  rewrite (run_bind_ok _ _ seg seg (len body)).
  2: { unfold peek_fixed32. rewrite Hb, <- (len_EncodeFixed32 crc), drop_len_app. unfold u32.
       rewrite Z.mod_small by lia. by rewrite DecodeFixed32_Encode. }
  assert (len (take (n - 8) body) = Z.of_nat n - 8) as Hlt
    by (unfold len in *; rewrite length_take; lia).
  rewrite (run_bind_ok _ _ seg (seg_at (take (n - 8) body) seg) tt).
  2: { replace 8 with (len hd) by (unfold len; lia). apply (advance_app seg hd); [unfold len; lia|lia| |].
       - unfold hd. by rewrite Hb, <- app_assoc.
       - by rewrite <- Htk, Hln. }
  exists (seg_at (take (n - 8) body) seg). split; [|done]. erewrite run_bind_err; [done|]. apply checkRemain_short. simpl. lia.
Qed.

(** ** Whole segments *)

Definition batches_bytes (bs : list (list record)) : bytes :=
  concat ((fun rs => frame (records_bytes rs)) <$> bs).

(** The contents of a segment with the batches [bs]. *)
Definition segment_bytes (bs : list (list record)) : bytes :=
  kLogSegmentHeaderMagic ++ batches_bytes bs.

Definition small_batches (bs : list (list record)) : Prop :=
  Forall (fun rs => len (records_bytes rs) < 2 ^ 32) bs.

Lemma batches_bytes_cons rs bs :
  batches_bytes (rs :: bs) = frame (records_bytes rs) ++ batches_bytes bs.
Proof. done. Qed.

Lemma batches_bytes_snoc bs rs :
  batches_bytes (bs ++ [rs]) = batches_bytes bs ++ frame (records_bytes rs).
Proof.
  unfold batches_bytes. rewrite fmap_app, concat_app. f_equal. apply (app_nil_r (frame (records_bytes rs))).
Qed.

Lemma ReadSegment_loop_batches bs fuel tail seg :
  small_batches bs -> reader_at seg (batches_bytes bs ++ tail) ->
  ReadSegment_loop (length bs + fuel) seg
  = ReadSegment_loop fuel (seg_replay (seg_at tail seg) (concat bs)).
Proof.
  revert seg. induction bs as [|rs bs IH]; intros seg Hsm Hat.
  { simpl in Hat. simpl. by rewrite <- (reader_at_id seg tail). }
  apply Forall_cons in Hsm as [Hrs Hsm]. rewrite batches_bytes_cons, <- app_assoc in Hat.
  cbn [length Nat.add ReadSegment_loop].
  pose proof Hat as (Hb & Hr & Hl). rewrite <- framed_frame in Hr, Hl.
  rewrite len_app, len_framed in Hr, Hl. pose proof (len_nonneg (records_bytes rs)).
  pose proof (len_nonneg (batches_bytes bs ++ tail)).
  erewrite (run_bind_ok (gets _)) by done. unfold Eof. destruct (Z.eqb_spec (remain_ seg) 0); [lia|].
  erewrite run_bind_ok by (by eapply ReadRecord_good).
  destruct (seg_replay_fields rs (seg_at (batches_bytes bs ++ tail) seg)) as (Hb' & Hr' & _).
  rewrite IH by (done || (unfold reader_at; rewrite Hb', Hr'; simpl; split_and!; done || lia)).
  cbn [concat]. unfold seg_replay at 3. rewrite foldl_app. do 2 f_equal.
  by rewrite seg_at_replay.
Qed.

Lemma length_batches bs : (length bs <= length (batches_bytes bs))%nat.
Proof.
  induction bs as [|rs bs IH]; [done|]. rewrite batches_bytes_cons, length_app, <- framed_frame.
  cbn [length]. pose proof (len_framed (crc32 (records_bytes rs)) (records_bytes rs)) as H.
  unfold len in H. lia.
Qed.

(** Reading gets past the header and all good batches, with turns to spare. *)
Lemma ReadSegment_batches bs tail seg :
  small_batches bs -> reader_at seg (segment_bytes bs ++ tail) ->
  exists fuel, (length tail < fuel)%nat /\
  ReadSegment seg = ReadSegment_loop fuel (seg_replay (seg_at tail seg) (concat bs)).
Proof.
  intros Hsm (Hb & Hr & Hl). unfold segment_bytes in *. rewrite <- app_assoc in *.
  rewrite len_app, len_kLogSegmentHeaderMagic in Hl. pose proof (len_nonneg (batches_bytes bs ++ tail)).
  pose proof (length_batches bs) as Hlen.
  exists (S (length (buf_ seg)) - length bs)%nat. split; [rewrite Hb, !length_app; lia|].
  unfold ReadSegment. erewrite (run_bind_ok (gets _)) by done.
  rewrite (run_bind_ok _ _ seg (seg_at (batches_bytes bs ++ tail) seg) tt).
  2: { unfold ReadHeader. rewrite (run_bind_ok _ _ seg seg tt)
         by (apply checkRemain_ok; rewrite Hr, len_app; lia).
       erewrite run_bind_ok by (by eapply peek_app).
       destruct (Z.eqb_spec (slice_compare kLogSegmentHeaderMagic kLogSegmentHeaderMagic) 0) as [|Hne];
         [|by destruct Hne; apply slice_compare_eq].
       apply (advance_app seg kLogSegmentHeaderMagic); try done; lia. }
  replace (S (length (buf_ seg))) with (length bs + (S (length (buf_ seg)) - length bs))%nat at 1
    by (rewrite Hb, !length_app; lia).
  rewrite (ReadSegment_loop_batches bs _ tail); [done|done|].
  split_and!; try done. lia.
Qed.

Lemma new_reader_at b ms meta verify :
  len b < 2 ^ 64 -> reader_at (new_ReadableLogSegment b ms meta verify) b.
Proof. done. Qed.

(** What a reader of a segment ends with: the store and the count after the records [rs]. *)
Definition seg_result (seg : ReadableLogSegment) (ms : MemoryStorage) (meta : SegmentMetaData)
    (rs : list record) : Prop :=
  memStore_ seg = replay ms rs /\ fileName (metaData_ seg) = fileName meta /\
  numEntries (metaData_ seg) = u64 (numEntries meta + len (omap record_entry rs)).

Lemma seg_replay_result b c ms meta verify rs :
  is_u64 (numEntries meta) ->
  seg_result (seg_replay (seg_at b (new_ReadableLogSegment c ms meta verify)) rs) ms meta rs.
Proof.
  intros Hn. destruct (seg_replay_fields rs (seg_at b (new_ReadableLogSegment c ms meta verify)))
    as (_ & _ & _ & Hf).
  split_and!; [by rewrite seg_replay_memStore|done|by rewrite seg_replay_count].
Qed.

Lemma ReadSegment_good bs ms meta verify :
  small_batches bs -> len (segment_bytes bs) < 2 ^ 64 -> is_u64 (numEntries meta) ->
  exists seg', ReadSegment (new_ReadableLogSegment (segment_bytes bs) ms meta verify) = (Ok tt, seg') /\
    seg_result seg' ms meta (concat bs).
Proof.
  intros Hsm Hl Hn.
  destruct (ReadSegment_batches bs [] (new_ReadableLogSegment (segment_bytes bs) ms meta verify))
    as (fuel & Hf & ->); [done|rewrite app_nil_r; by apply new_reader_at|].
  eexists. split; [|by apply seg_replay_result]. destruct fuel as [|fuel]; [simpl in Hf; lia|].
  cbn [ReadSegment_loop]. erewrite (run_bind_ok (gets _)) by done.
  unfold Eof. destruct (seg_replay_fields (concat bs)
    (seg_at [] (new_ReadableLogSegment (segment_bytes bs) ms meta verify))) as (_ & -> & _). done.
Qed.

(** What the loop does on a batch that follows the good ones and fails. *)
Lemma ReadSegment_fails bs tail ms meta verify :
  small_batches bs -> len (segment_bytes bs ++ tail) < 2 ^ 64 -> is_u64 (numEntries meta) ->
  tail <> [] ->
  (forall seg, reader_at seg tail -> verifyChecksum_ seg = verify ->
     exists seg', ReadRecord seg = (Err Corruption, seg') /\ memStore_ seg' = memStore_ seg /\
       metaData_ seg' = metaData_ seg) ->
  exists seg', ReadSegment (new_ReadableLogSegment (segment_bytes bs ++ tail) ms meta verify)
    = (Err Corruption, seg') /\ seg_result seg' ms meta (concat bs).
Proof.
  intros Hsm Hl Hn Hne Hbad. set (seg0 := new_ReadableLogSegment _ _ _ _).
  destruct (ReadSegment_batches bs tail seg0) as (fuel & Hf & ->); [done|by apply new_reader_at|].
  destruct (seg_replay_result tail (segment_bytes bs ++ tail) ms meta verify (concat bs) Hn)
    as (Hms & Hfn & Hcnt). fold seg0 in Hms, Hfn, Hcnt.
  destruct (seg_replay_fields (concat bs) (seg_at tail seg0)) as (Hb & Hr & Hv & _).
  set (seg1 := seg_replay (seg_at tail seg0) (concat bs)) in *.
  rewrite len_app in Hl. pose proof (len_nonneg (segment_bytes bs)).
  destruct (Hbad seg1) as (seg' & Hrun & Hm & Hmd); [split_and!; try done; lia|done|].
  exists seg'. split; [|unfold seg_result; by rewrite Hm, Hmd].
  destruct fuel as [|fuel]; [lia|]. cbn [ReadSegment_loop].
  erewrite (run_bind_ok (gets _)) by done. unfold Eof. rewrite Hr. cbn [seg_at remain_].
  destruct (Z.eqb_spec (len tail) 0) as [H0|]; [by destruct tail|].
  by apply run_bind_err.
Qed.

Lemma ReadSegment_torn bs crc body n ms meta verify :
  small_batches bs -> len (segment_bytes bs ++ take n (framed crc body)) < 2 ^ 64 ->
  is_u64 (numEntries meta) -> is_u32 crc -> len body < 2 ^ 32 ->
  (0 < n < length (framed crc body))%nat ->
  exists seg', ReadSegment (new_ReadableLogSegment (segment_bytes bs ++ take n (framed crc body))
                              ms meta verify)
    = (Err Corruption, seg') /\ seg_result seg' ms meta (concat bs).
Proof.
  intros Hsm Hl Hn Hcrc Hbody Hcut. apply ReadSegment_fails; [done..| |].
  - intros He. apply (f_equal length) in He. rewrite length_take in He. simpl in He. lia.
  - intros seg Hat _. eapply ReadRecord_torn; [..|done]; [done..|lia].
Qed.

Lemma ReadSegment_bad_checksum bs crc body rest ms meta :
  small_batches bs -> len (segment_bytes bs ++ framed crc body ++ rest) < 2 ^ 64 ->
  is_u64 (numEntries meta) -> is_u32 crc -> len body < 2 ^ 32 -> crc <> crc32 body ->
  exists seg', ReadSegment (new_ReadableLogSegment (segment_bytes bs ++ framed crc body ++ rest)
                              ms meta true)
    = (Err Corruption, seg') /\ seg_result seg' ms meta (concat bs).
Proof.
  intros Hsm Hl Hn Hcrc Hbody Hne. apply ReadSegment_fails; [done..| |].
  - intros He. apply (f_equal len) in He. rewrite len_app, len_framed, (@len_nil Z) in He.
    pose proof (len_nonneg body). pose proof (len_nonneg rest). lia.
  - intros seg Hat Hv. rewrite (ReadRecord_framed crc body rest) by done. unfold read_body.
    cbn [seg_at verifyChecksum_]. rewrite Hv. destruct (Z.eqb_spec (crc32 body) crc); [done|].
    simpl. eauto.
Qed.

(** A last record that is cut short is refused; the records before it stay applied. *)
Lemma read_records_torn rs t p n seg :
  len (records_bytes rs) < 2 ^ 32 -> is_u32 (len p) -> (0 < n < length (record_bytes t p))%nat ->
  let body := records_bytes rs ++ take n (record_bytes t p) in
  read_records (S (length body)) body seg = (Err Corruption, seg_replay seg rs).
Proof.
  intros Hlen Hp Hn. cbv zeta.
  destruct (read_records_enough rs (take n (record_bytes t p)) seg Hlen) as (fuel & Hf & ->).
  destruct n as [|n]; [lia|]. cbn [record_bytes take length] in *.
  destruct fuel as [|fuel]; [lia|]. cbn [read_records].
  rewrite slice_skip_drop.
  2: { unfold kRecordHeaderSize. rewrite len_cons. pose proof (len_nonneg (take n (prefixed p))). lia. }
  change (Z.to_nat kRecordHeaderSize) with 1%nat. cbn [drop]. rewrite drop_0.
  pose proof (GetLengthPrefixedSlice_short p n Hp ltac:(lia)) as Hs.
  destruct (GetLengthPrefixedSlice (take n (prefixed p))) as [[d|] q]; done.
Qed.

(** *** A batch with a hard state

    [LogWriter::Append] leaves the length field of the hard state out of the size of the batch,
    so the last record loses as many bytes. *)

Lemma batch_hard_state hs es :
  ByteSize hs < 128 -> len (entries_bytes es) < 2 ^ 31 ->
  exists rs t p n, is_u32 (len p) /\ (0 < n < length (record_bytes t p))%nat /\
    len (records_bytes rs) + len (record_bytes t p) < 2 ^ 32 /\
    batch (Some hs) es = frame (records_bytes rs ++ take n (record_bytes t p)).
Proof.
  intros Hhs Hes. rewrite ByteSize_len in Hhs. pose proof (len_nonneg (SerializeToArray hs)).
  pose proof (len_nonneg (entries_bytes es)).
  assert (VarintLength (len (SerializeToArray hs)) = 1) as Hv.
  { unfold VarintLength. cbn [VarintLength_loop]. rewrite Z.geb_leb.
    by destruct (Z.leb_spec 128 (len (SerializeToArray hs))); [lia|]. }
  assert (is_u32 (len (SerializeToArray hs))) as Hu by (unfold is_u32; lia).
  assert (len (hard_state_bytes (Some hs)) = 2 + len (SerializeToArray hs)) as Hlh.
  { cbn [hard_state_bytes]. rewrite len_record by done. lia. }
  pose proof (data_len_records (Some hs) es ltac:(lia)) as Hd. cbv match in Hd.
  rewrite ByteSize_len, Hv in Hd.
  assert (exists rs t p, hard_state_bytes (Some hs) ++ entries_bytes es
    = records_bytes rs ++ record_bytes t p /\ is_u32 (len p)) as (rs & t & p & HR & Hp).
  { destruct es as [|e es _] using rev_ind.
    - exists [], kHardStateType, (SerializeToArray hs). cbn. by rewrite app_nil_r.
    - exists (RecHardState hs :: (RecEntry <$> es)), kLogEntryType, (SerializeToArray e).
      rewrite entries_bytes_app, app_assoc. split.
      + rewrite entries_bytes_one. f_equal. rewrite records_bytes_cons.
        f_equal. unfold entries_bytes, records_bytes. rewrite <- list_fmap_compose. done.
      + rewrite entries_bytes_app, len_app in Hes. pose proof (len_nonneg (entries_bytes es)).
        apply entry_size_u32. rewrite entries_bytes_one in Hes. lia. }
  exists rs, t, p, (length (record_bytes t p) - 1)%nat.
  assert (2 <= length (record_bytes t p))%nat as H2.
  { pose proof (len_record t p Hp) as Hr. pose proof (VarintLength_bounds _ (is_u32_u64 _ Hp)).
    pose proof (len_nonneg p). unfold len at 1 in Hr. lia. }
  assert (len (records_bytes rs ++ record_bytes t p) = 2 + len (SerializeToArray hs) + len (entries_bytes es))
    as Htot by (rewrite <- HR, len_app; lia).
  split_and!; [done|lia|lia| |].
  - rewrite len_app in Htot. lia.
  - unfold batch. f_equal. rewrite HR in *. rewrite take_app_ge.
    + f_equal. f_equal. rewrite len_app in Hd. unfold len in Hd. lia.
    + rewrite len_app in Hd. unfold len in *. lia.
Qed.

Lemma ReadSegment_err bs tail ms meta verify :
  small_batches bs -> len (segment_bytes bs ++ tail) < 2 ^ 64 -> tail <> [] ->
  (forall seg, reader_at seg tail -> fst (ReadRecord seg) = Err Corruption) ->
  fst (ReadSegment (new_ReadableLogSegment (segment_bytes bs ++ tail) ms meta verify)) = Err Corruption.
Proof.
  intros Hsm Hl Hne Hbad. set (seg0 := new_ReadableLogSegment _ _ _ _).
  destruct (ReadSegment_batches bs tail seg0) as (fuel & Hf & ->); [done|by apply new_reader_at|].
  destruct (seg_replay_fields (concat bs) (seg_at tail seg0)) as (Hb & Hr & _).
  set (seg1 := seg_replay (seg_at tail seg0) (concat bs)) in *.
  rewrite len_app in Hl. pose proof (len_nonneg (segment_bytes bs)).
  specialize (Hbad seg1 ltac:(split_and!; try done; lia)).
  destruct fuel as [|fuel]; [lia|]. cbn [ReadSegment_loop].
  erewrite (run_bind_ok (gets _)) by done. unfold Eof. rewrite Hr. cbn [seg_at remain_].
  destruct (Z.eqb_spec (len tail) 0) as [H0|]; [by destruct tail|].
  unfold mbind, prog_bind. destruct (ReadRecord seg1) as [r seg2]. cbn in Hbad. by subst r.
Qed.

Lemma ReadRecord_hard_state hs es rest seg :
  ByteSize hs < 128 -> len (entries_bytes es) < 2 ^ 31 ->
  reader_at seg (batch (Some hs) es ++ rest) -> fst (ReadRecord seg) = Err Corruption.
Proof.
  intros Hhs Hes. destruct (batch_hard_state hs es Hhs Hes) as (rs & t & p & n & Hp & Hn & Hl & ->).
  pose proof (len_nonneg (records_bytes rs)). pose proof (len_nonneg (record_bytes t p)).
  set (body := records_bytes rs ++ take n (record_bytes t p)).
  assert (len body < 2 ^ 32) as Hb.
  { unfold body. rewrite len_app. unfold len in *. rewrite length_take. lia. }
  rewrite <- framed_frame. intros Hat.
  rewrite (ReadRecord_framed (crc32 body) body rest) by (done || apply crc32_u32).
  unfold read_body. rewrite Z.eqb_refl, andb_false_r.
  erewrite run_bind_err; [done|]. unfold body. eapply read_records_torn; done || lia.
Qed.

(** ** Arbitrary bytes *)

(** The pointer and the count agree, and what is left are bytes. *)
Definition reader_ok (seg : ReadableLogSegment) : Prop :=
  remain_ seg = len (buf_ seg) /\ len (buf_ seg) < 2 ^ 64 /\ Forall is_u8 (buf_ seg).

(** The result of reading garbage: a status, never a read out of bounds or an endless loop. *)
Definition no_halt {A} (P : ReadableLogSegment -> Prop) (r : result ErrorCode A)
    (seg : ReadableLogSegment) : Prop :=
  match r with Ok _ => P seg | Err e => e = Corruption | Halt _ => False end.

Lemma GetLengthPrefixedSlice_rest input d rest :
  Forall is_u8 input -> GetLengthPrefixedSlice input = (Some d, rest) ->
  rest `suffix_of` input.
Proof.
  intros Hu. unfold GetLengthPrefixedSlice, GetVarint32.
  rewrite GetVarint32Ptr_fallback by done. unfold GetVarint32PtrFallback.
  destruct (GetVarint_loop 32 28 0 0 input) as [[v q]|] eqn:He; [|done].
  apply GetVarint_loop_bound in He as (Hv & used & -> & _); [|done||lia..].
  rewrite Z.geb_leb. destruct (Z.leb_spec v (len q)); [|done]. intros [= _ <-].
  rewrite slice_skip_drop by lia. apply suffix_app_r, suffix_drop.
Qed.

Lemma read_records_safe fuel rec seg :
  (length rec < fuel)%nat -> Forall is_u8 rec ->
  wp (read_records fuel rec) seg (no_halt (fun seg' =>
    buf_ seg' = buf_ seg /\ remain_ seg' = remain_ seg)).
Proof.
  revert rec seg. induction fuel as [|fuel IH]; intros rec seg Hf Hu; [lia|].
  destruct rec as [|t rec]; cbn [read_records]; [by apply wp_ret|].
  apply Forall_cons in Hu as [_ Hu]. rewrite slice_skip_drop.
  2: { unfold kRecordHeaderSize. rewrite len_cons. pose proof (len_nonneg rec). lia. }
  change (Z.to_nat kRecordHeaderSize) with 1%nat. cbn [drop]. rewrite drop_0.
  destruct (GetLengthPrefixedSlice rec) as [[d|] rest] eqn:Hg; [|by apply wp_fail].
  apply GetLengthPrefixedSlice_rest in Hg as Hsuf; [|done]. unfold apply_record. wp_steps.
  eapply wp_mono; [apply IH|].
  - apply suffix_length in Hsuf. simpl in Hf. lia.
  - destruct Hsuf as [k ->]. by apply Forall_app in Hu as [_ ?].
  - intros r seg'. destruct r; simpl; try done. intros [-> ->].
    by repeat case_match.
Qed.

Lemma reader_ok_drop seg n :
  reader_ok seg -> 0 <= n <= len (buf_ seg) -> wp (advance n) seg (fun r seg' =>
    r = Ok tt /\ reader_ok seg' /\ buf_ seg' = drop (Z.to_nat n) (buf_ seg) /\
    len (buf_ seg') = len (buf_ seg) - n).
Proof.
  intros (Hr & Hl & Hu) Hn. unfold advance. wp_steps. cbn.
  assert (len (drop (Z.to_nat n) (buf_ seg)) = len (buf_ seg) - n) as Hd.
  { unfold len in *. rewrite length_drop. lia. }
  split_and!; try done. split_and!; cbn.
  - rewrite Hd, Hr. apply Z.mod_small. lia.
  - lia.
  - by apply Forall_drop.
Qed.

Lemma wp_checkRemain need seg (Q : result ErrorCode unit -> ReadableLogSegment -> Prop) :
  (remain_ seg < need -> Q (Err Corruption) seg) -> (need <= remain_ seg -> Q (Ok tt) seg) ->
  wp (checkRemain need) seg Q.
Proof.
  intros H1 H2. unfold wp, checkRemain. destruct (Z.ltb_spec (remain_ seg) need); simpl; auto.
Qed.

Lemma wp_peek n seg (Q : result ErrorCode bytes -> ReadableLogSegment -> Prop) :
  n <= len (buf_ seg) -> Q (Ok (take (Z.to_nat n) (buf_ seg))) seg -> wp (peek n) seg Q.
Proof.
  intros Hn HQ. unfold wp, peek. by destruct (Z.leb_spec n (len (buf_ seg))); [|lia].
Qed.

Lemma wp_peek_fixed32 off seg (Q : result ErrorCode Z -> ReadableLogSegment -> Prop) :
  Forall is_u8 (buf_ seg) -> 0 <= off -> off + 4 <= len (buf_ seg) ->
  (forall v, is_u32 v -> Q (Ok v) seg) -> wp (peek_fixed32 off) seg Q.
Proof.
  intros Hu Ho Hn HQ. unfold wp, peek_fixed32.
  apply (Forall_drop _ (Z.to_nat off)) in Hu.
  assert (4 <= length (drop (Z.to_nat off) (buf_ seg)))%nat as Hl
    by (rewrite length_drop; unfold len in Hn; lia).
  rewrite <- (take_drop 4 (drop (Z.to_nat off) (buf_ seg))) in *. apply Forall_app in Hu as [Hu _].
  assert (length (take 4 (drop (Z.to_nat off) (buf_ seg))) = 4%nat) as H4
    by (rewrite length_take; rewrite take_drop in Hl; lia).
  rewrite DecodeFixed32_bytes by done. simpl. apply HQ.
  pose proof (le_value_bound _ Hu) as Hb. unfold len in Hb. rewrite H4 in Hb. exact Hb.
Qed.

Lemma ReadRecord_safe seg :
  reader_ok seg ->
  wp ReadRecord seg (no_halt (fun seg' => reader_ok seg' /\ len (buf_ seg') + 8 <= len (buf_ seg))).
Proof.
  intros Hok. pose proof Hok as (Hr & Hl & Hu). unfold ReadRecord. wp_steps.
  apply wp_checkRemain; [done|]. change kLogBatchHeaderSize with 8. intros H8. cbv beta match. wp_step.
  apply wp_peek_fixed32; [done|lia..|]. intros crc _. cbv beta match. wp_step.
  apply wp_peek_fixed32; [done|lia..|]. intros n Hn. unfold is_u32 in Hn. cbv beta match. wp_step.
  eapply wp_mono; [apply (reader_ok_drop seg 8 Hok); lia|].
  intros ? seg1 (-> & Hok1 & Hb1 & Hl1). cbv beta match. wp_step.
  pose proof Hok1 as (Hr1 & _ & Hu1). apply wp_checkRemain; [done|]. intros Hn1. cbv beta match.
  assert (forall seg', buf_ seg' = buf_ seg1 -> remain_ seg' = remain_ seg1 ->
    wp (advance n) seg' (no_halt (fun seg' => reader_ok seg' /\ len (buf_ seg') + 8 <= len (buf_ seg))))
    as Hadv.
  { intros seg' Hb' Hr'. eapply wp_mono; [apply reader_ok_drop|].
    - unfold reader_ok. by rewrite Hb', Hr'.
    - rewrite Hb'. lia.
    - intros ? seg2 (-> & ? & _ & Hl2). rewrite Hb' in Hl2. split; [done|]. lia. }
  assert (wp (record ← peek n; _ ← read_records (S (length record)) record; advance n) seg1
    (no_halt (fun seg' => reader_ok seg' /\ len (buf_ seg') + 8 <= len (buf_ seg)))) as Hrest.
  { wp_step. apply wp_peek; [lia|]. cbv beta match. wp_step.
    eapply wp_mono; [apply read_records_safe; [lia|by apply Forall_take]|].
    intros [[]| |] seg2; simpl; [intros []; by apply Hadv|done..]. }
  wp_steps. destruct (verifyChecksum_ seg1); [|apply wp_ret; exact Hrest].
  wp_step. apply wp_peek; [lia|]. cbv beta match. destruct (_ =? _); [apply wp_ret; exact Hrest|].
  by apply wp_fail.
Qed.

Lemma ReadSegment_loop_safe fuel seg :
  reader_ok seg -> (length (buf_ seg) < fuel)%nat ->
  wp (ReadSegment_loop fuel) seg (no_halt (fun seg' => remain_ seg' = 0)).
Proof.
  revert seg. induction fuel as [|fuel IH]; intros seg Hok Hf; [lia|]. cbn [ReadSegment_loop].
  wp_steps. unfold Eof. destruct (Z.eqb_spec (remain_ seg) 0); [by apply wp_ret|]. wp_step.
  eapply wp_mono; [by apply ReadRecord_safe|].
  intros [[]| |] seg'; simpl; [|done..]. intros [Hok' Hl]. apply IH; [done|].
  unfold len in Hl. lia.
Qed.

Lemma ReadSegment_safe seg :
  reader_ok seg -> wp ReadSegment seg (no_halt (fun seg' => remain_ seg' = 0)).
Proof.
  intros Hok. pose proof Hok as (Hr & Hl & Hu). unfold ReadSegment, ReadHeader. wp_steps.
  apply wp_checkRemain; [done|]. rewrite len_kLogSegmentHeaderMagic. intros H10. cbv beta match.
  wp_step. apply wp_peek; [lia|]. cbv beta match. destruct (_ =? _); [|by apply wp_fail].
  eapply wp_mono; [apply reader_ok_drop; [done|lia]|].
  intros ? seg1 (-> & Hok1 & _ & Hl1). cbv beta match. apply ReadSegment_loop_safe; [done|].
  unfold len in Hl1. lia.
Qed.
End meaning.

(** ** Theorems *)

Section theorems.
Context (HOST : Host) (CRC : Crc32) (CS : Crc32Spec CRC) (SL : SliceLib) (SS : SliceSpec SL).
Context (Y : YaraftPb) (YS : YaraftPbSpec Y) (M : MemStoreLib Y).

(** C16: reading a segment gives back what was written: the records of all batches are applied
    to the store in order, the entries are counted, and the reader ends with OK. *)
Theorem segment_roundtrip bs ms meta verify :
  small_batches bs -> len (segment_bytes bs) < 2 ^ 64 -> is_u64 (numEntries meta) ->
  exists seg', ReadSegment (new_ReadableLogSegment (segment_bytes bs) ms meta verify) = (Ok tt, seg') /\
    memStore_ seg' = replay ms (concat bs) /\
    numEntries (metaData_ seg') = u64 (numEntries meta + len (omap record_entry (concat bs))).
Proof.
  intros Hsm Hl Hn. destruct (ReadSegment_good bs ms meta verify Hsm Hl Hn) as (seg' & ? & ? & _ & ?).
  by exists seg'.
Qed.

(** a segment cut short anywhere inside its last batch (as an interrupted write leaves it)
    is reported as [Corruption], and the batches before it are applied. *)
Theorem segment_torn bs rs n ms meta verify :
  small_batches (bs ++ [rs]) -> len (segment_bytes (bs ++ [rs])) < 2 ^ 64 -> is_u64 (numEntries meta) ->
  (length (segment_bytes bs) < n < length (segment_bytes (bs ++ [rs])))%nat ->
  exists seg', ReadSegment (new_ReadableLogSegment (take n (segment_bytes (bs ++ [rs]))) ms meta verify)
    = (Err Corruption, seg') /\ memStore_ seg' = replay ms (concat bs).
Proof.
  intros Hsm Hl Hn Hcut. apply Forall_app in Hsm as [Hsm [Hrs _]%Forall_cons].
  assert (segment_bytes (bs ++ [rs]) = segment_bytes bs ++ framed (crc32 (records_bytes rs)) (records_bytes rs))
    as Heq.
  { unfold segment_bytes. by rewrite batches_bytes_snoc, app_assoc. }
  rewrite Heq, take_app_ge in * by lia. rewrite length_app in Hcut. rewrite len_app in Hl.
  destruct (ReadSegment_torn bs (crc32 (records_bytes rs)) (records_bytes rs)
    (n - length (segment_bytes bs)) ms meta verify) as (seg' & Hrun & Hms & _);
    try done; [|apply crc32_u32|lia|by exists seg'].
  rewrite len_app. unfold len in *. rewrite length_take. lia.
Qed.

(** with checksums on, a batch whose stored checksum is not that of its bytes is reported as
    [Corruption] and none of its records is applied, whatever follows it. *)
Theorem segment_checksum bs crc body rest ms meta :
  small_batches bs -> len (segment_bytes bs ++ framed crc body ++ rest) < 2 ^ 64 ->
  is_u64 (numEntries meta) -> is_u32 crc -> len body < 2 ^ 32 -> crc <> crc32 body ->
  exists seg', ReadSegment (new_ReadableLogSegment (segment_bytes bs ++ framed crc body ++ rest) ms meta true)
    = (Err Corruption, seg') /\ memStore_ seg' = replay ms (concat bs).
Proof.
  intros Hsm Hl Hn Hcrc Hb Hne.
  destruct (ReadSegment_bad_checksum bs crc body rest ms meta) as (seg' & ? & ? & _); try done. by exists seg'.
Qed.

(** C17: the reader is safe on any bytes: it never reads outside the buffer and always ends, with
    OK after consuming all of it or with [Corruption]. *)
Theorem reader_safe b ms meta verify :
  Forall is_u8 b -> len b < 2 ^ 64 ->
  exists r seg', ReadSegment (new_ReadableLogSegment b ms meta verify) = (r, seg') /\
    ((r = Ok tt /\ Eof seg' = true) \/ r = Err Corruption).
Proof.
  intros Hu Hl. pose proof (ReadSegment_safe (new_ReadableLogSegment b ms meta verify)) as Hs.
  unfold wp in Hs. destruct (ReadSegment _) as [r seg']. exists r, seg'. split; [done|].
  specialize (Hs ltac:(done)). unfold no_halt in Hs. destruct r as [[]|e|h]; cbn in Hs.
  - left. unfold Eof. by rewrite Hs.
  - right. by rewrite Hs.
  - done.
Qed.

(** a segment that does not start with the magic bytes, an empty or a shorter one included,
    is [Corruption], and the store is untouched. *)
Theorem segment_bad_magic b ms meta verify :
  take 10 b <> kLogSegmentHeaderMagic ->
  exists seg', ReadSegment (new_ReadableLogSegment b ms meta verify) = (Err Corruption, seg') /\
    memStore_ seg' = ms /\ metaData_ seg' = meta.
Proof.
  intros Hm. exists (new_ReadableLogSegment b ms meta verify). split; [|done]. unfold ReadSegment.
  erewrite (run_bind_ok (gets _)) by done. apply run_bind_err. unfold ReadHeader.
  rewrite len_kLogSegmentHeaderMagic. destruct (decide (len b < 10)).
  - by apply run_bind_err, checkRemain_short.
  - erewrite run_bind_ok by (apply checkRemain_ok; cbn [new_ReadableLogSegment remain_]; lia).
    erewrite run_bind_ok.
    2: { unfold peek. cbn [new_ReadableLogSegment buf_]. by destruct (Z.leb_spec 10 (len b)); [|lia]. }
    change (Z.to_nat 10) with 10%nat.
    destruct (Z.eqb_spec (slice_compare kLogSegmentHeaderMagic (take 10 b)) 0) as [He|]; [|done].
    by apply slice_compare_eq in He.
Qed.

(** What [Append] leaves on disk when there is a hard state. *)
Lemma append_hard_state o w path bs es hs rest o' w' :
  writer_at o w path (segment_bytes bs) -> lw_empty_ w = false -> small_batches bs ->
  len (segment_bytes bs) < 2 ^ 32 -> ByteSize hs < 128 -> len (entries_bytes es) < 2 ^ 31 ->
  LogWriter_Append es (Some hs) (o, w) = (Ok rest, (o', w')) ->
  lw_oob_ w' = lw_oob_ w + 1 /\
  exists c', len c' < 2 ^ 64 /\ os_files o' = <[path := c']> (os_files o) /\ os_dirs o' = os_dirs o /\
    os_script o' `suffix_of` os_script o /\
    forall ms meta verify, fst (ReadSegment (new_ReadableLogSegment c' ms meta verify)) = Err Corruption.
Proof.
  intros Hat Hemp Hsm Hl Hhs Hes Hrun. pose proof (len_nonneg (SerializeToArray hs)).
  pose proof Hhs as Hhs'. rewrite ByteSize_len in Hhs'.
  assert (is_u32 (len (SerializeToArray hs))) as Hu by (unfold is_u32; lia).
  assert (VarintLength (ByteSize hs) = 1) as Hv.
  { unfold VarintLength. cbn [VarintLength_loop]. rewrite Z.geb_leb.
    by destruct (Z.leb_spec 128 (ByteSize hs)); [lia|]. }
  assert (len (hard_state_bytes (Some hs)) < 200) as Hlh.
  { cbn [hard_state_bytes]. rewrite len_record by done. rewrite ByteSize_len in Hv. lia. }
  pose proof (len_nonneg (entries_bytes es)).
  pose proof (LogWriter_Append_spec o w path _ es (Some hs) Hat ltac:(lia) ltac:(lia)) as Hspec.
  eapply wp_run in Hspec; [|exact Hrun].
  destruct Hspec as (written & rest' & d & s & -> & Ho' & Hsuf & _ & _ & -> & -> & Hw'). cbn [fst snd] in *.
  rewrite entries_bytes_app, len_app in *. pose proof (len_nonneg (entries_bytes rest')).
  pose proof (len_nonneg (entries_bytes written)).
  pose proof (data_len_records (Some hs) written ltac:(lia)) as Hd. cbv match in Hd. rewrite Hv in Hd.
  rewrite <- len_app in Hw'. split; [rewrite Hw'; cbn [writer_after lw_oob_]; lia|].
  unfold segment_head in Ho'. rewrite Hemp in Ho'. subst o'. cbn [app].
  exists (segment_bytes bs ++ batch (Some hs) written).
  assert (len (batch (Some hs) written) <= 8 + (200 + len (entries_bytes written))) as Hlb.
  { unfold batch. rewrite <- framed_frame, len_framed.
    assert (forall n (l : bytes), len (take n l) <= len l) as Htk
      by (intros; unfold len; rewrite length_take; lia).
    etrans; [apply Z.add_le_mono_l, Htk|]. rewrite len_app. lia. }
  split_and!; [rewrite len_app; lia|done|done|done|]. intros ms meta verify.
  apply ReadSegment_err; [done|rewrite len_app; lia| |].
  - intros He. apply (f_equal len) in He. unfold batch in He.
    rewrite <- framed_frame, len_framed, (@len_nil Z) in He.
    match type of He with 8 + len ?x = 0 => pose proof (len_nonneg x) end. lia.
  - intros seg Hseg. eapply ReadRecord_hard_state with (rest := []); [exact Hhs| |by rewrite app_nil_r]. lia.
Qed.

(** a batch written with a hard state cannot be read back: [Append] leaves the length field of
    the hard state out of the size it computes, so one byte is stored past the end of the scratch
    buffer, the last record in the file is cut short, and reading the segment ends in
    [Corruption]. *)
Theorem hard_state_batch_unreadable o w path bs es hs ms meta verify rest o' w' :
  writer_at o w path (segment_bytes bs) -> lw_empty_ w = false -> small_batches bs ->
  len (segment_bytes bs) < 2 ^ 32 -> ByteSize hs < 128 -> len (entries_bytes es) < 2 ^ 31 ->
  LogWriter_Append es (Some hs) (o, w) = (Ok rest, (o', w')) ->
  lw_oob_ w' = lw_oob_ w + 1 /\
  exists c', os_files o' !! path = Some c' /\
    fst (ReadSegment (new_ReadableLogSegment c' ms meta verify)) = Err Corruption.
Proof.
  intros Hat Hemp Hsm Hl Hhs Hes Hrun.
  destruct (append_hard_state _ _ _ _ _ _ _ _ _ Hat Hemp Hsm Hl Hhs Hes Hrun) as (Ho & c' & _ & Hf & _ & _ & Hc).
  split; [done|]. exists c'. split; [by rewrite Hf, lookup_insert_eq|done].
Qed.
End theorems.
