(* ===== verification/LogManager.v ===== *)
(** * The write-ahead log: [src/src/wal/log_manager.h], [log_manager.cc], [wal.cc],
    [include/consensus/wal/wal.h]

    [LogManager] writes entries into numbered segment files, opening a new segment when the
    current one is full, and reads all of them back when it is opened again. *)

From S2P Require Import Prelude External Coding Status Posix Segment LogWriter ReadSegment.

(** ** Options *)

Record WriteAheadLogOptions := MkWriteAheadLogOptions {
  log_segment_size : Z;
  verify_checksum : bool;
  log_dir : string;
}.

Definition new_WriteAheadLogOptions : WriteAheadLogOptions :=
  MkWriteAheadLogOptions (64 * 1024 * 1024) true "".

Section manager.
Context {HOST : Host} {CRC : Crc32} {SL : SliceLib} {Y : YaraftPb} {M : MemStoreLib Y}.
Context {SB : StatusBool} {FS : BoostFs}.

(** ** [AppendToMemStore]

    [del] is an [int]: the model is that of a store with fewer than 2^31 entries. *)

(** The largest [del], from the given one down, whose entry lies before [idx], or -1. *)
Fixpoint find_del (vec : list Entry) (n : nat) (idx : Z) : Z :=
  match n with
  | O => -1
  | S del =>
      match vec !! del with
      | Some e => if entry_index e <? idx then Z.of_nat del else find_del vec del idx
      | None => -1
      end
  end.

(** [for (i = del + 1; i < sz; i++) vec.pop_back()]. *)
Fixpoint pop_back_n (n : nat) (vec : list Entry) : list Entry :=
  match n with
  | O => vec
  | S n => pop_back_n n (removelast vec)
  end.

Definition AppendToMemStore (e : Entry) : Prog ErrorCode MemoryStorage unit :=
  vec ← gets ms_entries;
  _ ← match last vec with
      | None => mret tt
      | Some back =>
          if entry_term e <? entry_term back then fail YARaftError
          else
            let del := find_del vec (length vec) (entry_index e) in
            modify (fun m => ms_with_entries (pop_back_n (Z.to_nat (len vec - (del + 1))) vec) m)
      end;
  modify (fun m => ms_Append m e).

(** The overload for a vector of entries. *)
Fixpoint AppendToMemStore_vec (vec : list Entry) : Prog ErrorCode MemoryStorage unit :=
  match vec with
  | [] => mret tt
  | e :: vec => _ ← AppendToMemStore e; AppendToMemStore_vec vec
  end.

(** ** [LogManager] *)

Record LogManager := MkLogManager {
  current_ : option LogWriter;
  files_ : list SegmentMetaData;
  lastIndex_ : Z;
  empty_ : bool;
  options_ : WriteAheadLogOptions;
}.

Definition new_LogManager (options : WriteAheadLogOptions) : LogManager :=
  MkLogManager None [] 0 false options.

Definition set_current_ (w : option LogWriter) (m : LogManager) : LogManager :=
  MkLogManager w (files_ m) (lastIndex_ m) (empty_ m) (options_ m).
Definition push_files_ (meta : SegmentMetaData) (m : LogManager) : LogManager :=
  MkLogManager (current_ m) (files_ m ++ [meta]) (lastIndex_ m) (empty_ m) (options_ m).
Definition set_lastIndex_ (i : Z) (m : LogManager) : LogManager :=
  MkLogManager (current_ m) (files_ m) i (empty_ m) (options_ m).
Definition set_empty_ (b : bool) (m : LogManager) : LogManager :=
  MkLogManager (current_ m) (files_ m) (lastIndex_ m) b (options_ m).

Abbreviation ManagerM := (Prog ErrorCode (os * LogManager)).

Definition get_manager : ManagerM LogManager := gets snd.
Definition set_manager (f : LogManager -> LogManager) : ManagerM unit :=
  modify (fun '(o, m) => (o, f m)).
Definition manager_os {A} (e : Env A) : ManagerM A := zoom fst (fun o '(_, m) => (o, m)) e.

(** A call through [current_->]; a null pointer is undefined behaviour. *)
Definition on_current {A} (p : Prog ErrorCode (os * LogWriter) A) : ManagerM A := fun '(o, m) =>
  match current_ m with
  | None => (Halt Undefined, (o, m))
  | Some w => let '(r, (o, w)) := p (o, w) in (r, (o, set_current_ (Some w) m))
  end.

(** [LogWriter::New(manager)]. *)
Definition segment_path (dir : string) (id start : Z) : string :=
  path_join dir (SegmentFileName id start).

Definition LogWriter_New (manager : LogManager) : Env LogWriter :=
  let newSegId := u64 (len (files_ manager) + 1) in
  let newSegStart := u64 (lastIndex_ manager + 1) in
  let fname := segment_path (log_dir (options_ manager)) newSegId newSegStart in
  wf ← NewWritableFile fname CREATE_NON_EXISTING false;
  mret (new_LogWriter wf fname (log_segment_size (options_ manager))).

Definition finishCurrentWriter : ManagerM unit :=
  meta ← fatal_not_ok (on_current LogWriter_Finish);
  _ ← set_manager (push_files_ meta);
  _ ← on_current (on_file delete_PosixWritableFile);
  set_manager (set_current_ None).

(** [es] is the range from [segStart] on and [before] the entries of the vector that precede it,
    where [std::prev] looks.  Every turn writes an entry or is the last one. *)
Fixpoint doWrite_loop (fuel : nat) (before es : list Entry) (hs : option HardState) :
    ManagerM unit :=
  match fuel with
  | O => halt_with OutOfFuel
  | S fuel =>
      m ← get_manager;
      _ ← match current_ m with
          | Some _ => mret tt
          | None => w ← manager_os (LogWriter_New m); set_manager (set_current_ (Some w))
          end;
      it ← on_current (LogWriter_Append es hs);
      match it with
      | [] => mret tt
      | _ =>
          let before := before ++ take (length es - length it) es in
          match last before with
          | None => halt_with Undefined
          | Some prev =>
              _ ← set_manager (set_lastIndex_ (entry_index prev));
              _ ← finishCurrentWriter;
              doWrite_loop fuel before it None
          end
      end
  end.

Definition doWrite (es : list Entry) (hs : option HardState) : ManagerM unit :=
  doWrite_loop (S (length es)) [] es hs.

Definition Write (entries : list Entry) (hs : option HardState) : ManagerM unit :=
  match entries with
  | [] => mret tt
  | e :: _ =>
      let beginIdx := entry_index e in
      m ← get_manager;
      _ ← (if empty_ m then
             set_manager (fun m => set_empty_ false (set_lastIndex_ (u64 (beginIdx - 1)) m))
           else mret tt);
      doWrite entries hs
  end.

(** The two overloads of [wal.h]. *)
Definition Write_entries (vec : list Entry) : ManagerM unit := Write vec None.
Definition Write_hard_state (hs : option HardState) : ManagerM unit := Write [] hs.

Definition LogManager_Sync : ManagerM unit :=
  m ← get_manager;
  match current_ m with Some _ => on_current LogWriter_Sync | None => mret tt end.

Definition LogManager_Close : ManagerM unit :=
  m ← get_manager;
  match current_ m with Some _ => finishCurrentWriter | None => mret tt end.

Definition delete_LogManager : ManagerM unit := LogManager_Close.

Definition GC : ManagerM unit := mret tt.

Definition SegmentNum (m : LogManager) : Z :=
  len (files_ m) + match current_ m with Some _ => 1 | None => 0 end.

(** *** [LogManager::Recover] *)

(** What the two out parameters point at. *)
Record recovery := MkRecovery { rc_memstore : option MemoryStorage; rc_manager : option LogManager }.

Abbreviation RecoverM := (Prog ErrorCode (os * recovery)).

Definition recover_os {A} (e : Env A) : RecoverM A := zoom fst (fun o '(_, rc) => (o, rc)) e.

(** The map from segment ids to start indices.  A name that ends in [.wal] and does not parse
    leaves a variable uninitialised that is read next: [None]. *)
Fixpoint collect_wals (files : list string) (wals : zmap Z) : option (zmap Z) :=
  match files with
  | [] => Some wals
  | f :: files =>
      if isWal f then
        match parseWalName f with
        | Some (segId, segStart) => collect_wals files (zmap_insert segId segStart wals)
        | None => None
        end
      else collect_wals files wals
  end.

(** One segment: read it into the store and keep its meta data. *)
Definition recover_segment (options : WriteAheadLogOptions) (id start : Z) : RecoverM unit :=
  fun '(o, rc) =>
    match rc with
    | MkRecovery (Some ms) (Some m) =>
        let '(r, (o, (ms, meta))) :=
          ReadSegmentIntoMemoryStorage (segment_path (log_dir options) id start)
            (verify_checksum options) (o, (ms, new_SegmentMetaData)) in
        match r with
        | Ok _ => (Ok tt, (o, MkRecovery (Some ms) (Some (push_files_ meta m))))
        | Err e => (Err e, (o, MkRecovery (Some ms) (Some m)))
        | Halt h => (Halt h, (o, MkRecovery (Some ms) (Some m)))
        end
    | _ => (Halt Undefined, (o, rc))
    end.

Fixpoint recover_segments (options : WriteAheadLogOptions) (wals : zmap Z) : RecoverM unit :=
  match wals with
  | [] => mret tt
  | (id, start) :: wals => _ ← recover_segment options id start; recover_segments options wals
  end.

Definition Recover (options : WriteAheadLogOptions) : RecoverM unit :=
  _ ← recover_os (CreateDirIfMissing (log_dir options));
  files ← recover_os (GetChildren (log_dir options) []);
  match collect_wals files [] with
  | None => halt_with Undefined
  | Some wals =>
      _ ← modify (fun '(o, rc) => (o, MkRecovery (rc_memstore rc) (Some (new_LogManager options))));
      match wals with
      | [] => mret tt
      | _ =>
          memstore ← gets (fun '(_, rc) => rc_memstore rc);
          match memstore with
          | Some _ => halt_with FatalLog
          | None =>
              _ ← modify (fun '(o, rc) => (o, MkRecovery (Some new_MemoryStorage) (rc_manager rc)));
              recover_segments options wals
          end
      end
  end.

(** [WriteAheadLog::Default]: the log and, unless there was nothing to recover, the store. *)
Definition Default (options : WriteAheadLogOptions) (memstore : option MemoryStorage) :
    Env (LogManager * option MemoryStorage) := fun o =>
  match Recover options (o, MkRecovery memstore None) with
  | (Ok _, (o, MkRecovery ms (Some m))) => (Ok (m, ms), o)
  | (Ok _, (o, _)) => (Halt FatalLog, o)
  | (Err e, (o, _)) => (Err e, o)
  | (Halt h, (o, _)) => (Halt h, o)
  end.

(** [TEST_CreateWalStore]: the status of the last [Write] is dropped. *)
Definition write_default_entry (m : LogManager) : Env LogManager := fun o =>
  match Write_entries [new_Entry] (o, m) with
  | (Halt h, (o, _)) => (Halt h, o)
  | (_, (o, m)) => (Ok m, o)
  end.

Definition TEST_CreateWalStore (testDir : string) : Env (LogManager * option MemoryStorage) :=
  let options := MkWriteAheadLogOptions (log_segment_size new_WriteAheadLogOptions) true testDir in
  wal ← fatal_not_ok (Default options None);
  m ← write_default_entry (fst wal);
  mret (m, snd wal).
End manager.
