(* ===== verification/LogSpec.v ===== *)
(** * What the write-ahead log promises

    The abstract log is a list of segments, each a start index and a list of batches of entries.
    [log_inv] relates it to a manager and the files on disk: [Write] appends to the abstract log
    and never changes what is in it, and [Recover] gives back a manager and a store for exactly
    the log on disk. *)

From S2P Require Import Prelude External Coding Status Posix Segment LogWriter ReadSegment LogManager.

Section spec.
Context {HOST : Host} {CRC : Crc32} {CS : Crc32Spec CRC} {SL : SliceLib} {SS : SliceSpec SL}.
Context {Y : YaraftPb} {YS : YaraftPbSpec Y} {M : MemStoreLib Y}.
Context {SB : StatusBool} {FS : BoostFs} {FSS : BoostFsSpec FS}.

(** ** The abstract log *)

Abbreviation segment := (Z * list (list Entry))%type.

Definition batch_records (es : list Entry) : list record := RecEntry <$> es.

(** A segment that holds no batch yet is an empty file. *)
Definition seg_content (bs : list (list Entry)) : bytes :=
  match bs with [] => [] | _ => segment_bytes (batch_records <$> bs) end.

Definition log_entries (segs : list segment) : list Entry := concat ((fun s => concat (snd s)) <$> segs).

Definition seg_file (dir : string) (i : nat) (s : segment) : string :=
  segment_path dir (Z.of_nat i + 1) (fst s).

(** The bytes on disk, and one more per file. *)
Definition log_size (segs : list segment) : Z :=
  foldr (fun s n => 1 + len (seg_content (snd s)) + n) 0 segs.

(** An upper bound on what a write adds: the records, and a file, a segment header and a batch
    header for each turn of the loop. *)
Definition write_cost (es : list Entry) : Z := len (entries_bytes es) + 19 * (len es + 1).

(** The later log has the batches of the earlier one, in place, and maybe more. *)
Definition extends (segs segs' : list segment) : Prop :=
  forall i s, segs !! i = Some s -> exists more, segs' !! i = Some (fst s, snd s ++ more).

(** ** The log on disk *)

Record log_files (o : os) (dir : string) (segs : list segment) : Prop := {
  lf_segs i s : segs !! i = Some s -> os_files o !! seg_file dir i s = Some (seg_content (snd s));
  lf_only name : no_slash name -> isWal name = true ->
    is_Some (os_files o !! path_join dir name) \/ path_join dir name ∈ os_dirs o ->
    exists i s, segs !! i = Some s /\ name = SegmentFileName (Z.of_nat i + 1) (fst s);
  lf_starts : Forall (fun s => is_u64 (fst s)) segs;
  lf_small : Forall (fun s => Forall (fun es => len (entries_bytes es) < 2 ^ 32) (snd s)) segs;
  lf_size : log_size segs < 2 ^ 62;
}.

(** The settings of a file and a writer that the log creates and never changes. *)
Record writer_plain (m : LogManager) (w : LogWriter) (bs : list (list Entry)) : Prop := {
  wp_size : logSegmentSize_ w = log_segment_size (options_ m);
  wp_prealloc : pre_allocated_size_ (file_ w) = 0;
  wp_sync : sync_on_close_ (file_ w) = false;
  wp_pending : pending_sync_ (file_ w) = false;
  wp_empty : lw_empty_ w = bool_decide (bs = []);
}.

Definition current_ok (o : os) (m : LogManager) (segs : list segment) (w : LogWriter) : Prop :=
  exists closed st bs, segs = closed ++ [(st, bs)] /\ length closed = length (files_ m) /\
    writer_at o w (seg_file (log_dir (options_ m)) (length closed) (st, bs)) (seg_content bs) /\
    writer_plain m w bs.

Definition log_inv (o : os) (m : LogManager) (segs : list segment) : Prop :=
  (log_files o (log_dir (options_ m)) segs /\ log_dir (options_ m) ∈ os_dirs o) /\
  match current_ m with
  | None => length segs = length (files_ m)
  | Some w => current_ok o m segs w
  end.

(** ** Facts about the abstract log *)

Lemma records_bytes_entries es : records_bytes (batch_records es) = entries_bytes es.
Proof.
  unfold records_bytes, entries_bytes, batch_records. rewrite <- list_fmap_compose. done.
Qed.

Lemma seg_content_app bs es :
  seg_content (bs ++ [es])
  = seg_content bs ++ (if bool_decide (bs = []) then kLogSegmentHeaderMagic else []) ++
    frame (entries_bytes es).
Proof.
  assert (seg_content (bs ++ [es]) = segment_bytes (batch_records <$> bs ++ [es])) as ->
    by (by destruct bs).
  unfold segment_bytes, batches_bytes. rewrite !fmap_app, concat_app. simpl.
  rewrite app_nil_r, records_bytes_entries. case_bool_decide as Hb.
  - subst bs. done.
  - destruct bs as [|b bs]; [done|]. cbn [seg_content app]. unfold segment_bytes, batches_bytes.
    by rewrite <- app_assoc.
Qed.

Lemma log_entries_app s1 s2 : log_entries (s1 ++ s2) = log_entries s1 ++ log_entries s2.
Proof. unfold log_entries. by rewrite fmap_app, concat_app. Qed.

Lemma log_entries_snoc closed st bs es :
  log_entries (closed ++ [(st, bs ++ [es])]) = log_entries (closed ++ [(st, bs)]) ++ es.
Proof.
  rewrite !log_entries_app, <- app_assoc. unfold log_entries. simpl.
  by rewrite !app_nil_r, concat_app, concat_cons, app_nil_r.
Qed.

Lemma log_size_app s1 s2 : log_size (s1 ++ s2) = log_size s1 + log_size s2.
Proof. induction s1 as [|s s1 IH]; simpl; [lia|]. rewrite IH. lia. Qed.

Lemma log_size_nonneg segs : 0 <= log_size segs.
Proof. induction segs as [|s segs IH]; simpl; [lia|]. pose proof (len_nonneg (seg_content (snd s))). lia. Qed.

Lemma log_size_last closed st bs : log_size (closed ++ [(st, bs)]) = log_size closed + 1 + len (seg_content bs).
Proof. rewrite log_size_app. simpl. lia. Qed.

Lemma len_frame body : len (frame body) = 8 + len body.
Proof. rewrite <- framed_frame. apply len_framed. Qed.

Lemma write_cost_app w rest :
  write_cost (w ++ rest) = write_cost rest + len (entries_bytes w) + 19 * len w.
Proof. unfold write_cost. rewrite entries_bytes_app, !len_app. lia. Qed.

#[export] Instance extends_preorder : PreOrder extends.
Proof.
  split.
  - intros segs i s Hi. exists []. rewrite app_nil_r. by destruct s.
  - intros s1 s2 s3 H12 H23 i s Hi. destruct (H12 i s Hi) as [a Ha].
    destruct (H23 i _ Ha) as [b Hb]. exists (a ++ b). by rewrite app_assoc.
Qed.

Lemma extends_new segs s : extends segs (segs ++ [s]).
Proof.
  intros i s' Hi. exists []. rewrite app_nil_r, lookup_app_l by (by eapply lookup_lt_Some).
  by destruct s'.
Qed.

Lemma extends_last closed st bs es : extends (closed ++ [(st, bs)]) (closed ++ [(st, bs ++ [es])]).
Proof.
  intros i s Hi. apply lookup_app_Some in Hi as [Hi|[Hlen Hi]].
  - exists []. rewrite app_nil_r, lookup_app_l by (by eapply lookup_lt_Some). by destruct s.
  - exists [es]. rewrite lookup_app_r by done. destruct (i - length closed)%nat; [|done].
    by injection Hi as <-.
Qed.

Lemma log_size_count segs : len segs <= log_size segs.
Proof.
  induction segs as [|s segs IH]; [done|]. rewrite len_cons. simpl.
  pose proof (len_nonneg (seg_content (snd s))). lia.
Qed.

(** ** Updates of the log on disk *)

Lemma path_join_inj dir a b : path_join dir a = path_join dir b -> a = b.
Proof. unfold path_join. intros H. by apply (inj (String.append dir)), (inj (String.append "/")) in H. Qed.

Lemma seg_file_inj dir i j s s' :
  Z.of_nat i < 2 ^ 62 -> Z.of_nat j < 2 ^ 62 -> is_u64 (fst s) -> is_u64 (fst s') ->
  seg_file dir i s = seg_file dir j s' -> i = j /\ fst s = fst s'.
Proof.
  intros Hi Hj Hs Hs' He. apply path_join_inj in He.
  apply SegmentFileName_inj in He as [Hij ?]; unfold is_u64 in *; [split; [lia|done]|lia..].
Qed.

Lemma log_files_index o dir segs i s :
  log_files o dir segs -> segs !! i = Some s -> Z.of_nat i < 2 ^ 62 /\ is_u64 (fst s).
Proof.
  intros Hf Hi. split.
  - apply lookup_lt_Some in Hi. pose proof (log_size_count segs) as Hc. unfold len in Hc.
    pose proof (lf_size _ _ _ Hf). lia.
  - pose proof (lf_starts _ _ _ Hf) as Hs. rewrite Forall_lookup in Hs. by apply Hs in Hi.
Qed.

(** The name of the next segment is free. *)
Lemma log_files_fresh o dir segs st :
  log_files o dir segs -> is_u64 st -> os_files o !! segment_path dir (len segs + 1) st = None.
Proof.
  intros Hf Hst. pose proof (log_size_count segs). pose proof (lf_size _ _ _ Hf).
  pose proof (len_nonneg segs).
  destruct (os_files o !! segment_path dir (len segs + 1) st) as [c|] eqn:He; [|done]. exfalso.
  destruct (lf_only _ _ _ Hf (SegmentFileName (len segs + 1) st)) as (i & s & Hi & Hn).
  - apply SegmentFileName_no_slash; unfold is_u64 in Hst; lia.
  - apply isWal_SegmentFileName. lia.
  - left. unfold segment_path in He. by rewrite He.
  - destruct (log_files_index _ _ _ _ _ Hf Hi). apply SegmentFileName_inj in Hn as [Hn _];
      [|unfold is_u64 in *; done || lia..].
    apply lookup_lt_Some in Hi. unfold len in Hn. lia.
Qed.

Lemma log_files_new o o' dir segs st :
  log_files o dir segs -> is_u64 st -> log_size segs + 1 < 2 ^ 62 ->
  os_files o' = <[segment_path dir (len segs + 1) st := []]> (os_files o) -> os_dirs o' = os_dirs o ->
  log_files o' dir (segs ++ [(st, [])]).
Proof.
  intros Hf Hst Hsz Ho Hd. pose proof (log_files_fresh _ _ _ _ Hf Hst) as Hfree. split.
  - intros i s [Hi|[Hi Hs]]%lookup_app_Some; rewrite Ho.
    + rewrite lookup_insert_ne; [by apply (lf_segs _ _ _ Hf)|]. intros He.
      pose proof (lf_segs _ _ _ Hf i s Hi) as Hl. rewrite <- He, Hfree in Hl. done.
    + destruct (i - length segs)%nat eqn:Hn; [|done]. injection Hs as <-.
      replace i with (length segs) by lia. apply lookup_insert_eq.
  - intros name Hsl Hw. rewrite Ho, Hd. rewrite lookup_insert_is_Some. intros Hex.
    destruct (decide (segment_path dir (len segs + 1) st = path_join dir name)) as [He|Hne].
    + apply path_join_inj in He as <-. exists (length segs), (st, []).
      split; [|done]. by rewrite lookup_app_r, Nat.sub_diag by lia.
    + destruct (lf_only _ _ _ Hf name) as (i & s & Hi & ->); [done..|naive_solver|].
      exists i, s. split; [|done]. rewrite lookup_app_l; [done|by eapply lookup_lt_Some].
  - apply Forall_app. split; [apply (lf_starts _ _ _ Hf)|by apply Forall_singleton].
  - apply Forall_app. split; [apply (lf_small _ _ _ Hf)|by apply Forall_singleton].
  - rewrite log_size_last. cbn [seg_content]. rewrite (@len_nil Z). lia.
Qed.

Lemma log_files_append o o' dir closed st bs es :
  log_files o dir (closed ++ [(st, bs)]) -> len (entries_bytes es) < 2 ^ 32 ->
  log_size (closed ++ [(st, bs ++ [es])]) < 2 ^ 62 ->
  os_files o' = <[seg_file dir (length closed) (st, bs) := seg_content (bs ++ [es])]> (os_files o) ->
  os_dirs o' = os_dirs o ->
  log_files o' dir (closed ++ [(st, bs ++ [es])]).
Proof.
  intros Hf Hes Hsz Ho Hd.
  assert ((closed ++ [(st, bs)]) !! length closed = Some (st, bs)) as Hlast
    by (by rewrite lookup_app_r, Nat.sub_diag by lia).
  destruct (log_files_index _ _ _ _ _ Hf Hlast) as [Hi0 Hs0]. split.
  - intros i s [Hi|[Hi Hs]]%lookup_app_Some; rewrite Ho.
    + assert ((closed ++ [(st, bs)]) !! i = Some s) as Hi'
        by (rewrite lookup_app_l; [done|by eapply lookup_lt_Some]).
      destruct (log_files_index _ _ _ _ _ Hf Hi').
      rewrite lookup_insert_ne; [by apply (lf_segs _ _ _ Hf)|]. intros He.
      apply seg_file_inj in He as [<- _]; [|done..]. apply lookup_lt_Some in Hi. lia.
    + destruct (i - length closed)%nat eqn:Hn; [|done]. injection Hs as <-.
      replace i with (length closed) by lia. apply lookup_insert_eq.
  - intros name Hsl Hw. rewrite Ho, Hd. rewrite lookup_insert_is_Some. intros Hex.
    destruct (lf_only _ _ _ Hf name) as (i & s & Hi & ->); [done..| |].
    { destruct Hex as [[He|[_ ?]]|?]; [|by left|by right]. left. rewrite <- He.
      by rewrite (lf_segs _ _ _ Hf _ _ Hlast). }
    apply lookup_app_Some in Hi as [Hi|[Hi Hs]].
    + exists i, s. split; [|done]. rewrite lookup_app_l; [done|by eapply lookup_lt_Some].
    + destruct (i - length closed)%nat eqn:Hn; [|done]. injection Hs as <-.
      exists i, (st, bs ++ [es]). by rewrite lookup_app_r, Hn by lia.
  - pose proof (lf_starts _ _ _ Hf) as H. rewrite !Forall_app, !Forall_singleton in *. done.
  - pose proof (lf_small _ _ _ Hf) as H. rewrite !Forall_app, !Forall_singleton in *. simpl in *.
    rewrite Forall_app, Forall_singleton. naive_solver.
  - done.
Qed.

(** ** The operations *)

(** Whatever a call does, the log that was on disk is still there, in place. *)
Definition keeps (o o' : os) (dir : string) (segs : list segment) : Prop :=
  forall i s, segs !! i = Some s ->
    exists more, os_files o' !! seg_file dir i s = Some (seg_content (snd s) ++ more).

Lemma keeps_same o o' dir segs :
  log_files o dir segs -> os_files o' = os_files o -> keeps o o' dir segs.
Proof.
  intros Hf Ho i s Hi. exists []. rewrite Ho, app_nil_r. by apply (lf_segs _ _ _ Hf).
Qed.

Definition new_start (m : LogManager) : Z := u64 (lastIndex_ m + 1).

Lemma LogWriter_New_spec o m segs :
  log_inv o m segs -> current_ m = None -> log_size segs + 1 < 2 ^ 62 ->
  wp (LogWriter_New m) o (io_post o (fun w o' =>
    log_inv o' (set_current_ (Some w) m) (segs ++ [(new_start m, [])]))).
Proof.
  intros [[Hf Hdir] Hc] Hcur Hsz. rewrite Hcur in Hc. unfold LogWriter_New, NewWritableFile, DoOpen.
  pose proof (log_size_count segs) as Hcount. pose proof (len_nonneg segs).
  assert (u64 (len (files_ m) + 1) = len segs + 1) as ->.
  { unfold u64, len in *. rewrite <- Hc. apply Z.mod_small. lia. }
  fold (new_start m). set (path := segment_path _ _ _). wp_steps.
  pose proof (log_files_fresh _ _ _ (new_start m) Hf (is_u64_u64 _)) as Hfree.
  assert (has_parent path o = true) as Hpar.
  { apply has_parent_join; [|done]. pose proof (is_u64_u64 (lastIndex_ m + 1)) as Hu. pose proof (lf_size _ _ _ Hf).
    apply SegmentFileName_no_slash; [lia|]. unfold is_u64 in Hu. fold (new_start m) in Hu. lia. }
  eapply wp_mono; [apply (sys_open_spec o path true true false []); right; split_and!; [done|by rewrite Hpar|done]|].
  intros [fd|e|h] o' [Hs Hr]; [|by split|done].
  destruct Hr as [-> Ho']. wp_steps. split; [done|].
  assert (seg_file (log_dir (options_ m)) (length segs) (new_start m, []) = path) as Hpath by done.
  split.
  - cbn. split; [eapply log_files_new; [done|apply is_u64_u64|lia|..]; by rewrite Ho'|by rewrite Ho'].
  - cbn. exists segs, (new_start m), []. split_and!; [done..| |by split].
    split; cbn; [rewrite Ho'; apply lookup_insert_eq..|done].
Qed.

(** Whatever is appended to the last segment, the log on disk keeps its contents. *)
Lemma append_keeps o o' dir closed start bs d :
  let path := seg_file dir (length closed) (start, bs) in
  log_files o dir (closed ++ [(start, bs)]) -> os_files o !! path = Some (seg_content bs) ->
  os_files o' = <[path := seg_content bs ++ d]> (os_files o) -> keeps o o' dir (closed ++ [(start, bs)]).
Proof.
  intros path Hf Hp Ho' i s' Hi. pose proof (lf_segs _ _ _ Hf i s' Hi) as Hl. rewrite Ho'.
  destruct (decide (path = seg_file dir i s')) as [He|Hne].
  - rewrite He, lookup_insert_eq. rewrite <- He, Hp in Hl. injection Hl as <-. by exists d.
  - rewrite lookup_insert_ne by done. exists []. by rewrite app_nil_r.
Qed.

(** A turn of the loop on the current segment: the entries written become its next batch. *)
Lemma current_Append_spec o m segs w es :
  log_inv o m segs -> current_ m = Some w ->
  8 + len (entries_bytes es) < 2 ^ 32 -> log_size segs + 18 + len (entries_bytes es) < 2 ^ 62 ->
  wp (on_current (LogWriter_Append es None)) (o, m) (fun r st =>
    let '(o', m') := st in
    keeps o o' (log_dir (options_ m)) segs /\ os_script o' `suffix_of` os_script o /\
    match r with
    | Ok rest => exists written closed start bs w',
        es = written ++ rest /\ m' = set_current_ (Some w') m /\
        segs = closed ++ [(start, bs)] /\ lw_oob_ w' = lw_oob_ w /\
        log_inv o' m' (closed ++ [(start, bs ++ [written])]) /\
        (es <> [] -> 8 < u64 (s64 (logSegmentSize_ w - (len (seg_content bs) + len (segment_head w)))) <->
           written <> []) /\
        (rest <> [] -> u64 (s64 (logSegmentSize_ w - (len (seg_content bs) + len (segment_head w))))
           <= 8 + len (entries_bytes written))
    | Err e => e = IOError /\ os_script o <> []
    | Halt _ => False
    end).
Proof.
  intros [[Hf Hdir] Hc] Hcur Hes Hsz. rewrite Hcur in Hc. destruct Hc as (closed & start & bs & -> & Hlen & Hat & Hpl).
  set (dir := log_dir (options_ m)) in *.
  set (path := seg_file dir (length closed) (start, bs)) in *.
  rewrite log_size_last in Hsz. pose proof (log_size_nonneg closed).
  pose proof (len_nonneg (seg_content bs)). pose proof (len_nonneg (entries_bytes es)).
  pose proof (LogWriter_Append_spec o w path (seg_content bs) es None Hat ltac:(lia)
                ltac:(cbn [hard_state_bytes]; rewrite (@len_nil Z); lia)) as Hspec.
  unfold wp, on_current in *. rewrite Hcur.
  destruct (LogWriter_Append es None (o, w)) as [r [o' w']]. cbn [fst snd] in *.
  destruct Hspec as (written & rest & d & s & -> & Ho' & Hs & Hroom & Hrest & Hr).
  cbn [fst snd] in Ho', Hr. rewrite batch_entries in Hr.
  assert (segment_head w = if bool_decide (bs = []) then kLogSegmentHeaderMagic else []) as Hhd.
  { unfold segment_head. by rewrite (wp_empty _ _ _ Hpl). }
  split; [eapply append_keeps; [done|apply (writer_file _ _ _ _ Hat)|by rewrite Ho']|]. split; [by subst o'|].
  destruct r as [rest'|e|h]; [|by destruct Hr as (? & ? & _)|done].
  destruct Hr as (-> & -> & Hw'). rewrite Hhd in Hw', Ho', Hroom, Hrest.
  exists written, closed, start, bs, w'. rewrite entries_bytes_app, len_app in *.
  pose proof (len_nonneg (entries_bytes written)). pose proof (len_nonneg (entries_bytes rest)).
  set (head := if bool_decide (bs = []) then kLogSegmentHeaderMagic else []) in *.
  assert (len head <= 10) as Hh10 by (unfold head; by case_bool_decide).
  pose proof (len_nonneg head).
  assert (seg_content (bs ++ [written]) = seg_content bs ++ head ++ frame (entries_bytes written))
    as Hcont by apply seg_content_app.
  assert (len (seg_content (bs ++ [written]))
          = len (seg_content bs) + len head + 8 + len (entries_bytes written)) as Hlc.
  { rewrite Hcont, !len_app, len_frame. lia. }
  rewrite Hhd. unfold data_len in Hroom, Hrest. cbn in Hroom, Hrest. rewrite (@len_nil Z) in Hroom.
  split_and!; try done.
  - rewrite Hw'. cbn [writer_after lw_oob_ hard_state_bytes app]. unfold data_len.
    rewrite (@len_nil Z). lia.
  - split; cbn [set_current_ options_ current_].
    { split; [|by subst o']. eapply log_files_append; [done|lia|rewrite log_size_last, Hlc; lia|..]; subst o'; cbn;
        by rewrite ?Hcont. }
    exists closed, start, (bs ++ [written]). split_and!; [done..| |].
    + split; subst o' w'; cbn; rewrite ?Hcont; [by rewrite lookup_insert_eq..|].
      rewrite (writer_size _ _ _ _ Hat), !len_app, len_frame. unfold u64.
      rewrite Z.mod_small; lia.
    + destruct Hpl. split; subst w'; try done. cbn. symmetry. apply bool_decide_eq_false_2.
      by destruct bs.
Qed.

Lemma wp_on_current {A} (p : Prog ErrorCode (os * LogWriter) A) o m w
    (Q : result ErrorCode A -> os * LogManager -> Prop) :
  current_ m = Some w ->
  wp p (o, w) (fun r st => Q r (fst st, set_current_ (Some (snd st)) m)) ->
  wp (on_current p) (o, m) Q.
Proof. intros Hc. unfold wp, on_current. rewrite Hc. by destruct (p (o, w)) as [r [o' w']]. Qed.

(** Closing the current segment: it becomes the last of the immutable ones. *)
Lemma finishCurrentWriter_spec o m segs w :
  log_inv o m segs -> current_ m = Some w ->
  wp finishCurrentWriter (o, m) (fun r st =>
    let '(o', m') := st in
    os_files o' = os_files o /\ os_dirs o' = os_dirs o /\ os_script o' `suffix_of` os_script o /\
    match r with
    | Ok _ => m' = MkLogManager None (files_ m ++ [meta_ w]) (lastIndex_ m) (empty_ m) (options_ m) /\
              log_inv o' m' segs
    | Err _ => False
    | Halt h => h = FatalLog /\ os_script o <> []
    end).
Proof.
  intros [[Hf Hdir] Hc] Hcur. rewrite Hcur in Hc. destruct Hc as (closed & start & bs & -> & Hlen & Hat & Hpl).
  unfold finishCurrentWriter. wp_steps. eapply wp_on_current; [done|].
  unfold LogWriter_Finish, on_file, Sync, this. wp_steps. rewrite (wp_pending _ _ _ Hpl).
  apply wp_ret. cbn. wp_steps.
  eapply wp_mono.
  { eapply Close_spec; [apply (writer_fd _ _ _ _ Hat)| |apply (wp_sync _ _ _ Hpl)].
    cbn. rewrite (wp_prealloc _ _ _ Hpl), (writer_size _ _ _ _ Hat). apply len_nonneg. }
  intros [[]|e|h] st (fds & s & -> & Hs & Hr); [|destruct Hr as [-> ?]|done]; cbn.
  2: { by split_and!. }
  unfold get_writer, set_manager. wp_steps. eapply wp_on_current; [done|].
  unfold delete_PosixWritableFile, this. wp_steps. cbn. wp_steps. cbn. split_and!; try done.
  split; cbn; [|rewrite !length_app; simpl; lia].
  split; [|done]. destruct Hf as [H1 H2 H3 H4 H5]. by split.
Qed.

(** Room for an entry in the segment the next turn writes to. *)
Definition fresh_room (m : LogManager) : Prop :=
  8 < u64 (s64 (log_segment_size (options_ m) - len kLogSegmentHeaderMagic)).

Definition has_room (m : LogManager) : Prop :=
  match current_ m with
  | None => fresh_room m
  | Some w => 8 < u64 (s64 (logSegmentSize_ w - (Size (file_ w) + len (segment_head w))))
  end.

(** Every segment got an entry. *)
Definition all_written (segs : list segment) : Prop := Forall (fun s => concat (snd s) <> []) segs.

(** What [Write] promises for the entries [es] on the log [segs]. *)
Definition write_post (o : os) (m : LogManager) (segs : list segment) (es : list Entry)
    (r : result ErrorCode unit) (st : os * LogManager) : Prop :=
  let '(o', m') := st in
  keeps o o' (log_dir (options_ m)) segs /\ os_script o' `suffix_of` os_script o /\
  match r with
  | Ok _ => exists segs', log_inv o' m' segs' /\ options_ m' = options_ m /\ extends segs segs' /\
      log_entries segs' = log_entries segs ++ es /\
      log_size segs' <= log_size segs + write_cost es /\
      (all_written segs -> all_written segs') /\ empty_ m' = empty_ m /\ (es <> [] -> has_room m)
  | Err e => e = IOError /\ os_script o <> []
  | Halt h => (h = FatalLog /\ os_script o <> []) \/ (h = Undefined /\ ~ has_room m)
  end.

Lemma seg_content_prefix bs more : exists x, seg_content (bs ++ more) = seg_content bs ++ x.
Proof.
  destruct bs as [|b bs]; [by exists (seg_content more)|].
  exists (batches_bytes (batch_records <$> more)). cbn [seg_content app].
  unfold segment_bytes, batches_bytes. rewrite <- app_assoc, <- concat_app, <- fmap_app.
  change (b :: bs ++ more) with ((b :: bs) ++ more). by rewrite (fmap_app batch_records).
Qed.

Lemma keeps_extends o1 o2 o3 dir segs segs' :
  extends segs segs' -> keeps o2 o3 dir segs' -> keeps o1 o3 dir segs.
Proof.
  intros Hext Hk i s Hi. destruct (Hext i s Hi) as [more Hm]. destruct (Hk i _ Hm) as [x Hx].
  destruct (seg_content_prefix (snd s) more) as [y Hy]. exists (y ++ x).
  change (seg_file dir i s) with (seg_file dir i (fst s, snd s ++ more)).
  by rewrite Hx, app_assoc, <- Hy.
Qed.

(** The later turns of a write continue from where the first ones stopped. *)
Lemma write_post_trans o o1 m m1 segs segs1 w rest r st :
  options_ m1 = options_ m -> empty_ m1 = empty_ m -> has_room m -> has_room m1 -> os_script o1 `suffix_of` os_script o -> extends segs segs1 ->
  log_entries segs1 = log_entries segs ++ w ->
  log_size segs1 + write_cost rest <= log_size segs + write_cost (w ++ rest) ->
  (all_written segs -> all_written segs1) ->
  write_post o1 m1 segs1 rest r st -> write_post o m segs (w ++ rest) r st.
Proof.
  intros Hopt Hemp Hroom Hroom1 Hsuf Hext Hent Hsz Hall. destruct st as [o' m'].
  assert (os_script o1 <> [] -> os_script o <> []) as Hne.
  { intros H1 H2. rewrite H2 in Hsuf. by apply suffix_nil_inv in Hsuf. }
  intros (Hk & Hs & Hr). rewrite Hopt in Hk. split_and!; [by eapply keeps_extends|by etrans|].
  destruct r; [|naive_solver..]. destruct Hr as (segs' & ? & ? & ? & He & ? & ? & ? & ?).
  exists segs'. split_and!; try done; [congruence|by etrans|by rewrite He, Hent, app_assoc|lia|auto|congruence].
Qed.

(** The log when the loop appends: the current one, or the one [New] made. *)
Lemma open_current_spec o m segs :
  log_inv o m segs -> log_size segs + 1 < 2 ^ 62 ->
  wp match current_ m with
     | Some _ => mret tt
     | None => w ← manager_os (LogWriter_New m); set_manager (set_current_ (Some w))
     end (o, m) (fun r st =>
    let '(o', m') := st in
    os_script o' `suffix_of` os_script o /\
    match r with
    | Ok _ => exists segs' w, log_inv o' m' segs' /\ m' = set_current_ (Some w) m /\
        extends segs segs' /\ log_entries segs' = log_entries segs /\
        log_size segs' <= log_size segs + 1 /\
        (has_room m <-> has_room m') /\
        (segs' = segs \/ exists st, segs' = segs ++ [(st, [])])
    | Err e => e = IOError /\ os_script o <> [] /\ os_files o' = os_files o
    | Halt _ => False
    end).
Proof.
  intros Hinv Hsz. destruct (current_ m) as [w|] eqn:Hcur.
  - apply wp_ret. split; [done|]. exists segs, w.
    assert (m = set_current_ (Some w) m) as <- by (destruct m; simpl in *; by subst).
    split_and!; try done; [lia|by left].
  - unfold manager_os. wp_steps. eapply wp_mono; [by apply LogWriter_New_spec|].
    intros [w|e|h] o' [Hs Hr]; [|destruct Hr as (-> & Hne%fault_used_ne & Ho')|done].
    2: { split; [done|]. split_and!; try done. by rewrite Ho'. }
    unfold set_manager. wp_steps. split; [done|]. exists (segs ++ [(new_start m, [])]), w.
    split_and!; try done.
    + apply extends_new.
    + rewrite log_entries_app. unfold log_entries at 2. simpl. by rewrite app_nil_r.
    + rewrite log_size_last. cbn [seg_content]. rewrite (@len_nil Z). lia.
    + unfold has_room. cbn. rewrite Hcur. destruct Hr as [_ Hw]. cbn in Hw.
      destruct Hw as (closed & st & bs & He & _ & Hat & Hpl).
      apply app_inj_tail in He as [_ He]. injection He as _ <-.
      unfold segment_head, Size. rewrite (wp_empty _ _ _ Hpl), (wp_size _ _ _ Hpl).
      rewrite (writer_size _ _ _ _ Hat). cbn. by rewrite (@len_nil Z).
    + by right; exists (new_start m).
Qed.

Lemma all_written_append segs segs1 closed st bs es :
  (segs1 = segs \/ exists st', segs1 = segs ++ [(st', [])]) -> segs1 = closed ++ [(st, bs)] ->
  es <> [] -> all_written segs -> all_written (closed ++ [(st, bs ++ [es])]).
Proof.
  unfold all_written. intros Hs -> Hes Hall. rewrite Forall_app, Forall_singleton.
  split; [|cbn; rewrite concat_app; cbn; rewrite app_nil_r; by intros [_ ?]%app_nil].
  destruct Hs as [<-|[st' Hs]]; [by apply Forall_app in Hall as [? _]|].
  by apply app_inj_tail in Hs as [-> _].
Qed.

Lemma write_cost_nonneg es : 19 <= write_cost es.
Proof. unfold write_cost. pose proof (len_nonneg (entries_bytes es)). pose proof (len_nonneg es). lia. Qed.

Lemma log_size_batch closed st bs es :
  log_size (closed ++ [(st, bs ++ [es])]) <= log_size (closed ++ [(st, bs)]) + 18 + len (entries_bytes es).
Proof.
  rewrite !log_size_last, seg_content_app, !len_app, len_frame. case_bool_decide.
  - rewrite len_kLogSegmentHeaderMagic. lia.
  - rewrite (@len_nil Z). lia.
Qed.

(** The abstract log after one turn that wrote [written]. *)
Lemma turn_log segs segs1 closed st bs written :
  extends segs segs1 -> log_entries segs1 = log_entries segs -> log_size segs1 <= log_size segs + 1 ->
  segs1 = closed ++ [(st, bs)] ->
  let segs2 := closed ++ [(st, bs ++ [written])] in
  extends segs segs2 /\ log_entries segs2 = log_entries segs ++ written /\
  log_size segs2 <= log_size segs + 19 + len (entries_bytes written).
Proof.
  intros Hext Hent Hsz ->. cbv zeta. split_and!.
  - etrans; [done|apply extends_last].
  - by rewrite log_entries_snoc, Hent.
  - pose proof (log_size_batch closed st bs written). lia.
Qed.

Lemma log_inv_lastIndex o m segs i : log_inv o m segs -> log_inv o (set_lastIndex_ i m) segs.
Proof.
  intros [Hf Hc]. split; [done|]. cbn. destruct (current_ m) as [w|]; [|done].
  destruct Hc as (closed & st & bs & -> & Hl & Hat & []). by exists closed, st, bs.
Qed.

(** The room left is counted from the size of the file. *)
Lemma writer_room o m closed st bs w :
  log_inv o m (closed ++ [(st, bs)]) -> current_ m = Some w -> Size (file_ w) = len (seg_content bs).
Proof.
  intros [_ Hc] Hcur. rewrite Hcur in Hc. destruct Hc as (c' & st' & bs' & He & _ & Hat & _).
  apply app_inj_tail in He as [_ [= _ ->]]. exact (writer_size _ _ _ _ Hat).
Qed.

(** The first half of a turn: a segment is opened if need be and gets a batch. *)
Lemma turn_spec o m segs es :
  log_inv o m segs -> es <> [] -> 8 + len (entries_bytes es) < 2 ^ 32 -> log_size segs + write_cost es < 2 ^ 62 ->
  wp (_ ← match current_ m with
          | Some _ => mret tt
          | None => w ← manager_os (LogWriter_New m); set_manager (set_current_ (Some w))
          end;
      on_current (LogWriter_Append es None)) (o, m) (fun r st =>
    let '(o', m') := st in
    keeps o o' (log_dir (options_ m)) segs /\ os_script o' `suffix_of` os_script o /\
    match r with
    | Ok rest => exists written segs' w,
        es = written ++ rest /\ m' = set_current_ (Some w) m /\ log_inv o' m' segs' /\
        extends segs segs' /\ log_entries segs' = log_entries segs ++ written /\
        log_size segs' <= log_size segs + 19 + len (entries_bytes written) /\
        (written <> [] -> all_written segs -> all_written segs') /\ (has_room m <-> written <> [])
    | Err e => e = IOError /\ os_script o <> []
    | Halt _ => False
    end).
Proof.
  intros Hinv Hes H32 H62. pose proof (len_nonneg es). pose proof (write_cost_nonneg es). apply wp_bind.
  eapply wp_mono; [apply (open_current_spec o m segs Hinv); lia|].
  intros [[]|e|h] [o1 m1] [Hs1 Hr1]; [| |done].
  2: { destruct Hr1 as (-> & ? & Ho1). split_and!; try done. eapply keeps_same; [apply Hinv|done]. }
  destruct Hr1 as (segs1 & w1 & Hinv1 & Hm1 & Hext1 & Hent1 & Hsz1 & Hroom1 & Hsegs1).
  assert (current_ m1 = Some w1) as Hcur1 by (by rewrite Hm1).
  eapply wp_mono; [apply (current_Append_spec o1 m1 segs1 w1 es Hinv1 Hcur1 H32); unfold write_cost in *; lia|].
  intros r [o2 m2] (Hk2 & Hs2 & Hr2). assert (options_ m1 = options_ m) as Hopt by (by rewrite Hm1). rewrite Hopt in Hk2.
  split; [by apply (keeps_extends o o1 o2 _ segs segs1 Hext1)|]. split; [by etrans|].
  destruct r as [rest|e|h]; [|destruct Hr2 as [? Hne]; split; [done|]|done].
  2: { intros H2. rewrite H2 in Hs1. by apply suffix_nil_inv in Hs1. }
  destruct Hr2 as (written & closed & st & bs & w2 & -> & Hm2 & -> & _ & Hinv2 & Hprog & _).
  destruct (turn_log segs _ closed st bs written Hext1 Hent1 Hsz1 eq_refl) as (Hext2 & Hent2 & Hsz2).
  exists written, (closed ++ [(st, bs ++ [written])]), w2. split_and!; try done.
  - by rewrite Hm2, Hm1.
  - exact (all_written_append segs _ closed st bs written Hsegs1 eq_refl).
  - rewrite Hroom1, <- Hprog by done. unfold has_room. by rewrite Hcur1, (writer_room _ _ _ _ _ _ Hinv1 Hcur1).
Qed.

Lemma doWrite_loop_spec fuel before es o m segs :
  log_inv o m segs -> es <> [] -> (length es < fuel)%nat -> has_room m \/ before = [] -> fresh_room m ->
  8 + len (entries_bytes es) < 2 ^ 32 -> log_size segs + write_cost es < 2 ^ 62 ->
  wp (doWrite_loop fuel before es None) (o, m) (write_post o m segs es).
Proof.
  revert before es o m segs.
  induction fuel as [|fuel IH]; intros before es o m segs Hinv Hes Hfuel Hroom Hfresh H32 H62; [lia|].
  cbn [doWrite_loop]. unfold get_manager. wp_step. wp_step. cbv beta match. cbn [snd]. apply wp_assoc, wp_bind.
  eapply wp_mono; [by apply turn_spec|]. intros r [o2 m2] (Hk2 & Hs2 & Hr2).
  destruct r as [rest|e|h]; [|done|done].
  destruct Hr2 as (written & segs2 & w2 & -> & Hm2 & Hinv2 & Hext2 & Hent2 & Hsz2 & Hall2 & Hw).
  pose proof (write_cost_app written rest) as Hwc. pose proof (len_nonneg written).
  destruct rest as [|e rest].
  { apply wp_ret. split_and!; try done. exists segs2. rewrite app_nil_r in *.
    split_and!; try done; [by rewrite Hm2|unfold write_cost in *; lia|by apply Hall2|by rewrite Hm2|by rewrite Hw]. }
  set (rest' := e :: rest) in *. rewrite take_from_end.
  destruct (last (before ++ written)) as [prev|] eqn:Hlast.
  2: { apply last_None, app_nil in Hlast as [-> ->]. apply wp_halt. split_and!; try done.
       right. split; [done|]. naive_solver. }
  assert (written <> []) as Hwne.
  { apply Hw. destruct Hroom as [?| ->]; [done|]. apply Hw. by intros ->. }
  assert (1 <= len written) as Hlw by (destruct written; [done|unfold len; simpl; lia]).
  unfold set_manager at 1. wp_steps.
  eapply wp_mono; [apply (finishCurrentWriter_spec o2 (set_lastIndex_ (entry_index prev) m2) segs2 w2);
    [by apply log_inv_lastIndex|by rewrite Hm2]|].
  intros r [o3 m3] (Hf3 & Hd3 & Hs3 & Hr3).
  assert (os_script o3 `suffix_of` os_script o) as Hs03 by (by etrans).
  destruct r as [[]|e'|h]; [|done|].
  2: { destruct Hr3 as [-> Hne]. split_and!; try done.
       - intros i s Hi. rewrite Hf3. by apply Hk2.
       - left. split; [done|]. intros H2. rewrite H2 in Hs2. by apply suffix_nil_inv in Hs2. }
  destruct Hr3 as [Hm3 Hinv3]. assert (options_ m3 = options_ m) as Hopt3 by (by rewrite Hm3, Hm2).
  assert (fresh_room m3) as Hfresh3 by (unfold fresh_room; by rewrite Hopt3).
  assert (has_room m3) as Hroom3 by (unfold has_room; assert (current_ m3 = None) as -> by (by rewrite Hm3); done).
  rewrite entries_bytes_app, len_app in H32. pose proof (len_nonneg (entries_bytes written)).
  eapply wp_mono; [apply (IH (before ++ written) rest' o3 m3 segs2); try done|].
  - rewrite length_app in Hfuel. unfold len in Hlw. lia.
  - by left.
  - lia.
  - lia.
  - intros r st'. eapply write_post_trans; try done; [by rewrite Hm3, Hm2|by apply Hw|lia|by apply Hall2].
Qed.

Lemma Write_spec o m segs es :
  log_inv o m segs -> empty_ m = false -> fresh_room m ->
  8 + len (entries_bytes es) < 2 ^ 32 -> log_size segs + write_cost es < 2 ^ 62 ->
  wp (Write es None) (o, m) (write_post o m segs es).
Proof.
  intros Hinv Hemp Hfresh H32 H62. destruct es as [|e es].
  { apply wp_ret. split_and!; [by eapply keeps_same; [apply Hinv|]|done|]. exists segs.
    rewrite app_nil_r. pose proof (write_cost_nonneg []). split_and!; try done; lia. }
  unfold Write, get_manager. wp_steps. rewrite Hemp. apply wp_ret. unfold doWrite.
  apply doWrite_loop_spec; try done; [lia|by right].
Qed.

(** ** Recovery *)

(** The map the directory listing gives: ids from 1 on and start indices. *)
Definition wals_of (n : nat) (segs : list segment) : zmap Z :=
  imap (fun i s => (Z.of_nat (n + i) + 1, fst s)) segs.

Lemma wals_of_elem n segs k v :
  (k, v) ∈ wals_of n segs <->
  exists i s, segs !! i = Some s /\ k = Z.of_nat (n + i) + 1 /\ v = fst s.
Proof.
  unfold wals_of. rewrite list_elem_of_lookup. setoid_rewrite list_lookup_imap_Some.
  naive_solver.
Qed.

Lemma wals_of_cons n s segs : wals_of n (s :: segs) = (Z.of_nat n + 1, fst s) :: wals_of (S n) segs.
Proof.
  unfold wals_of. rewrite imap_cons. f_equal; [f_equal; f_equal; lia|].
  apply imap_ext. intros i x _. cbn. f_equal. lia.
Qed.

Lemma wals_of_sorted n segs : zmap_sorted (wals_of n segs).
Proof.
  revert n. induction segs as [|s segs IH]; intros n; [constructor|]. rewrite wals_of_cons.
  unfold zmap_sorted. cbn. constructor; [apply IH|]. apply Forall_forall.
  intros x ([k v] & -> & Hk)%list_elem_of_fmap.
  apply wals_of_elem in Hk as (i & s' & _ & -> & _). simpl. lia.
Qed.

(** The listing loop collects a functional set of pairs into the sorted map of that set. *)
Definition wal_pair (f : string) : option (Z * Z) := if isWal f then parseWalName f else None.

Lemma collect_wals_elem files acc :
  zmap_sorted acc ->
  (forall f, f ∈ files -> isWal f = true -> is_Some (parseWalName f)) ->
  (forall k v v', (k, v) ∈ acc \/ (exists f, f ∈ files /\ wal_pair f = Some (k, v)) ->
     (k, v') ∈ acc \/ (exists f, f ∈ files /\ wal_pair f = Some (k, v')) -> v = v') ->
  exists m, collect_wals files acc = Some m /\ zmap_sorted m /\
    forall k v, (k, v) ∈ m <-> (k, v) ∈ acc \/ exists f, f ∈ files /\ wal_pair f = Some (k, v).
Proof.
  revert acc. induction files as [|f files IH]; intros acc Hs Hp Hfun; cbn [collect_wals].
  { exists acc. split_and!; try done. intros k v. split; [by left|].
    intros [?|(f & Hf & _)]; [done|by apply elem_of_nil in Hf]. }
  assert (forall f0 k v, f0 ∈ f :: files /\ wal_pair f0 = Some (k, v) <->
    (f0 = f /\ wal_pair f = Some (k, v)) \/ (f0 ∈ files /\ wal_pair f0 = Some (k, v))) as Hcons.
  { intros f0 k v. rewrite elem_of_cons. naive_solver. }
  destruct (isWal f) eqn:Hw.
  - destruct (Hp f ltac:(by left) Hw) as [[k0 v0] Hpf]. rewrite Hpf.
    assert (wal_pair f = Some (k0, v0)) as Hwf by (unfold wal_pair; by rewrite Hw).
    destruct (IH (zmap_insert k0 v0 acc)) as (m & Hm & Hms & Hel).
    + by apply zmap_insert_sorted.
    + intros f0 Hf0. apply Hp. by right.
    + intros k v v'. rewrite !zmap_insert_elem by done. intros H1 H2. apply (Hfun k).
      * destruct H1 as [[[-> ->]|[_ ?]]|(f1 & ? & ?)]; [right; exists f|by left|right; exists f1]; set_solver.
      * destruct H2 as [[[-> ->]|[_ ?]]|(f1 & ? & ?)]; [right; exists f|by left|right; exists f1]; set_solver.
    + exists m. split_and!; try done. intros k v. rewrite Hel, zmap_insert_elem by done. split.
      * intros [[[-> ->]|[_ ?]]|(f1 & ? & ?)]; [right; exists f|by left|right; exists f1]; set_solver.
      * intros [Ha|(f1 & Hf1 & Hp1)].
        -- destruct (decide (k = k0)) as [->|]; [|by left; right]. left. left. split; [done|].
           apply (Hfun k0); [by left|right; exists f; set_solver].
        -- destruct (proj1 (Hcons f1 k v) (conj Hf1 Hp1)) as [[-> He]|[? ?]]; [|right; by exists f1].
           left. left. rewrite Hwf in He. by simplify_eq.
  - assert (wal_pair f = None) as Hwf by (unfold wal_pair; by rewrite Hw).
    destruct (IH acc Hs) as (m & Hm & Hms & Hel).
    + intros f0 Hf0. apply Hp. by right.
    + intros k v v' H1 H2. apply (Hfun k); set_solver.
    + exists m. split_and!; try done. intros k v. rewrite Hel.
      setoid_rewrite Hcons. naive_solver.
Qed.

(** The names in the directory alone, whatever the files hold. *)
Record log_names (o : os) (dir : string) (segs : list segment) : Prop := {
  ln_segs i s : segs !! i = Some s -> is_Some (os_files o !! seg_file dir i s);
  ln_only name : no_slash name -> isWal name = true ->
    is_Some (os_files o !! path_join dir name) \/ path_join dir name ∈ os_dirs o ->
    exists i s, segs !! i = Some s /\ name = SegmentFileName (Z.of_nat i + 1) (fst s);
  ln_index i s : segs !! i = Some s -> Z.of_nat i < 2 ^ 62 /\ is_u64 (fst s);
}.

Lemma log_files_names o dir segs : log_files o dir segs -> log_names o dir segs.
Proof.
  intros Hf. split.
  - intros i s Hi. by rewrite (lf_segs _ _ _ Hf i s Hi).
  - apply (lf_only _ _ _ Hf).
  - intros i s. by apply (log_files_index o dir).
Qed.

Lemma listing_wal o dir segs f k v :
  log_names o dir segs ->
  f ∈ directory_names o dir /\ wal_pair f = Some (k, v) <->
  exists i s, segs !! i = Some s /\ k = Z.of_nat i + 1 /\ v = fst s /\ f = SegmentFileName k v.
Proof.
  intros Hf.
  assert (forall i s, segs !! i = Some s ->
    wal_pair (SegmentFileName (Z.of_nat i + 1) (fst s)) = Some (Z.of_nat i + 1, fst s)) as Hpair.
  { intros i s Hi. destruct (ln_index _ _ _ Hf _ _ Hi) as [Hi1 Hs1]. unfold wal_pair.
    rewrite isWal_SegmentFileName by lia. apply parse_SegmentFileName; [unfold is_u64; lia|done]. }
  split.
  - intros [Hd Hp]. apply directory_names_spec in Hd as [Hsl Hex].
    destruct (isWal f) eqn:Hw; [|unfold wal_pair in Hp; by rewrite Hw in Hp].
    destruct (ln_only _ _ _ Hf f Hsl Hw Hex) as (i & s & Hi & ->).
    rewrite Hpair in Hp by done. injection Hp as <- <-. by exists i, s.
  - intros (i & s & Hi & -> & -> & ->). split; [|by apply Hpair].
    destruct (ln_index _ _ _ Hf _ _ Hi) as [Hi1 Hs1].
    apply directory_names_spec. split; [apply SegmentFileName_no_slash; unfold is_u64 in *; lia|].
    left. by apply (ln_segs _ _ _ Hf).
Qed.

Lemma collect_wals_listing o dir segs :
  log_names o dir segs -> collect_wals (directory_names o dir) [] = Some (wals_of 0 segs).
Proof.
  intros Hf. destruct (collect_wals_elem (directory_names o dir) []) as (m & Hm & Hms & Hel).
  - constructor.
  - intros f Hd Hw. apply directory_names_spec in Hd as [Hsl Hex].
    destruct (ln_only _ _ _ Hf f Hsl Hw Hex) as (i & s & Hi & ->).
    destruct (ln_index _ _ _ Hf _ _ Hi) as [Hi1 Hs1].
    rewrite parse_SegmentFileName; [done|unfold is_u64; lia|done].
  - intros k v v' [[]%elem_of_nil|(f & Hp)] [[]%elem_of_nil|(f' & Hp')].
    apply (listing_wal _ _ _ _ _ _ Hf) in Hp as (i & s & Hi & -> & -> & _).
    apply (listing_wal _ _ _ _ _ _ Hf) in Hp' as (j & s' & Hj & Hij & -> & _).
    assert (i = j) as <- by lia. rewrite Hi in Hj. by injection Hj as ->.
  - rewrite Hm. f_equal. apply zmap_ext; [done|apply wals_of_sorted|]. intros [k v].
    rewrite Hel, wals_of_elem. setoid_rewrite (listing_wal o dir segs) at 1; [|done].
    rewrite elem_of_nil. cbn [Nat.add]. naive_solver.
Qed.

(** *** Reading the segments back *)

Definition log_records (segs : list segment) : list record := batch_records (log_entries segs).

Lemma concat_batch_records bs : concat (batch_records <$> bs) = batch_records (concat bs).
Proof. unfold batch_records. induction bs as [|b bs IH]; [done|]. cbn. by rewrite IH, fmap_app. Qed.

Lemma log_records_cons st bs segs :
  log_records ((st, bs) :: segs) = concat (batch_records <$> bs) ++ log_records segs.
Proof.
  unfold log_records. rewrite concat_batch_records. unfold batch_records. by rewrite <- fmap_app.
Qed.

Lemma entries_of_records es : omap record_entry (batch_records es) = es.
Proof. unfold batch_records. induction es as [|e es IH]; [done|]. cbn. by f_equal. Qed.

Lemma recover_segment_spec options id start o ms m bs :
  os_files o !! segment_path (log_dir options) id start = Some (seg_content bs) -> bs <> [] ->
  Forall (fun es => len (entries_bytes es) < 2 ^ 32) bs -> len (seg_content bs) < 2 ^ 64 ->
  wp (recover_segment options id start) (o, MkRecovery (Some ms) (Some m)) (fun r st =>
    let '(o', rc) := st in
    os_files o' = os_files o /\ os_dirs o' = os_dirs o /\ os_script o' `suffix_of` os_script o /\
    match r with
    | Ok _ => exists meta, numEntries meta = u64 (len (concat bs)) /\
        rc = MkRecovery (Some (replay ms (concat (batch_records <$> bs)))) (Some (push_files_ meta m))
    | Err e => e = IOError /\ fault_used o o'
    | Halt _ => False
    end).
Proof.
  intros Hfile Hbs Hsm Hlen.
  assert (wp (ReadSegmentIntoMemoryStorage (segment_path (log_dir options) id start)
            (verify_checksum options)) (o, (ms, new_SegmentMetaData)) (fun r st =>
    os_files (fst st) = os_files o /\ os_dirs (fst st) = os_dirs o /\
    os_script (fst st) `suffix_of` os_script o /\
    match r with
    | Ok _ => exists meta, numEntries meta = u64 (len (concat bs)) /\
        snd st = (replay ms (concat (batch_records <$> bs)), meta)
    | Err e => e = IOError /\ fault_used o (fst st)
    | Halt _ => False
    end)) as Hread.
  { unfold ReadSegmentIntoMemoryStorage. wp_steps.
    eapply wp_mono; [by apply (ReadFullyToBuffer_spec _ o (seg_content bs))|].
    intros [d|e|h] o' (Hf & Hd & Hdir & Hs & Hr); [|by cbn|done]. subst d. wp_steps. cbn [fst snd].
    assert (seg_content bs = segment_bytes (batch_records <$> bs)) as -> by (by destruct bs).
    destruct (ReadSegment_good (batch_records <$> bs) ms new_SegmentMetaData (verify_checksum options))
      as (seg' & Hrun & Hms & _ & Hcnt).
    - unfold small_batches. rewrite Forall_fmap. eapply Forall_impl; [done|]. intros es. cbn.
      by rewrite records_bytes_entries.
    - by destruct bs.
    - done.
    - eapply wp_eq; [exact Hrun|]. cbn. split_and!; try done. exists (metaData_ seg'). rewrite Hms. split; [|done].
      by rewrite Hcnt, concat_batch_records, entries_of_records. }
  unfold wp, recover_segment in *.
  destruct (ReadSegmentIntoMemoryStorage _ _ _) as [r [o' [ms' meta]]]. cbn in Hread.
  destruct Hread as (H1 & H2 & H3 & Hr). destruct r; cbn; [|done..]. split_and!; try done.
  destruct Hr as (meta' & Hn & [= -> ->]). by exists meta'.
Qed.

Lemma log_size_elem segs s : s ∈ segs -> len (seg_content (snd s)) <= log_size segs.
Proof.
  intros (l1 & l2 & ->)%list_elem_of_split. rewrite log_size_app. simpl.
  pose proof (log_size_nonneg l1). pose proof (log_size_nonneg l2). lia.
Qed.

(** What is known of the segments from number [n] on. *)
Definition segs_readable (o : os) (dir : string) (n : nat) (segs : list segment) : Prop :=
  forall i s, segs !! i = Some s ->
    os_files o !! seg_file dir (n + i) s = Some (seg_content (snd s)) /\ snd s <> [] /\
    Forall (fun es => len (entries_bytes es) < 2 ^ 32) (snd s) /\ len (seg_content (snd s)) < 2 ^ 64.

Lemma recover_segments_spec options segs n o ms m :
  segs_readable o (log_dir options) n segs ->
  wp (recover_segments options (wals_of n segs)) (o, MkRecovery (Some ms) (Some m)) (fun r st =>
    let '(o', rc) := st in
    os_files o' = os_files o /\ os_dirs o' = os_dirs o /\ os_script o' `suffix_of` os_script o /\
    match r with
    | Ok _ => exists metas, length metas = length segs /\
        rc = MkRecovery (Some (replay ms (log_records segs)))
          (Some (MkLogManager (current_ m) (files_ m ++ metas) (lastIndex_ m) (empty_ m) (options_ m)))
    | Err e => e = IOError /\ fault_used o o'
    | Halt _ => False
    end).
Proof.
  revert n o ms m. induction segs as [|[st bs] segs IH]; intros n o ms m Hsegs.
  { apply wp_ret. split_and!; try done. exists []. rewrite app_nil_r. by destruct m. }
  rewrite wals_of_cons. cbn [recover_segments]. wp_steps.
  destruct (Hsegs 0%nat (st, bs) eq_refl) as (Hfile & Hne & Hsm & Hl).
  eapply wp_mono.
  { apply (recover_segment_spec options _ _ o ms m bs); try done.
    unfold seg_file in Hfile. by rewrite Nat.add_0_r in Hfile. }
  intros r [o1 rc1] (Hf1 & Hd1 & Hs1 & Hr1).
  destruct r as [[]|e|h]; [|by destruct Hr1; split_and!|done]. destruct Hr1 as (meta & _ & ->). cbv beta match.
  eapply wp_mono; [apply (IH (S n))|].
  { intros i s Hi. specialize (Hsegs (S i) s Hi). rewrite Hf1.
    by replace (S n + i)%nat with (n + S i)%nat by lia. }
  intros r [o2 rc2] (Hf2 & Hd2 & Hs2 & Hr2). split_and!; [congruence|congruence|by etrans|].
  destruct r; [|destruct Hr2 as [-> Hn2]|done].
  - destruct Hr2 as (metas & Hlm & ->). exists (meta :: metas). split; [cbn; by f_equal|].
    rewrite log_records_cons, replay_app. unfold push_files_. cbn [files_ current_ lastIndex_ empty_ options_].
    by rewrite <- app_assoc.
  - split; [done|]. by eapply fault_used_after.
Qed.

Lemma path_join_not_dir dir name : path_join dir name <> dir.
Proof.
  unfold path_join. intros H. assert (dir +:+ "" = dir) as Hnil.
  { clear H. induction dir as [|a dir IH]; [done|]. by apply (f_equal (String a)). }
  rewrite <- Hnil in H at 2. by apply (inj (String.append dir)) in H.
Qed.

Lemma log_files_env o o' dir segs :
  log_files o dir segs -> os_files o' = os_files o ->
  (os_dirs o' = os_dirs o \/ os_dirs o' = {[dir]} ∪ os_dirs o) -> log_files o' dir segs.
Proof.
  intros [H1 H2 H3 H4 H5] Hf Hd. split; try done; rewrite ?Hf; [done|].
  intros name Hsl Hw Hex. apply H2; [done..|]. destruct Hex as [?|Hin]; [by left|]. right.
  destruct Hd as [Hd|Hd]; rewrite Hd in Hin; [done|].
  apply elem_of_union in Hin as [Hin|?]; [|done]. apply elem_of_singleton in Hin.
  by apply path_join_not_dir in Hin.
Qed.

Lemma create_dir_spec o dir :
  wp (CreateDirIfMissing dir) o
    (io_post o (fun _ o' => os_files o' = os_files o /\ os_dirs o' = {[dir]} ∪ os_dirs o)).
Proof.
  apply wp_or_io_error. unfold boost_create_directories, boost_call, io_post.
  destruct (next_sys_cases o) as [[Hs ->]|(r & s & Hs & ->)]; [done|].
  assert (s `suffix_of` os_script o) by (rewrite Hs; by apply suffix_cons_r).
  pose proof (fault_used_next _ _ _ Hs). destruct r; cbn; by split_and!.
Qed.

Lemma get_children_spec o dir result :
  dir ∈ os_dirs o ->
  wp (GetChildren dir result) o (io_post o (fun names o' =>
    names = result ++ directory_names o' dir /\ o' = with_script (os_script o') o)).
Proof.
  intros Hd. unfold GetChildren. wp_steps. apply wp_or_io_error.
  unfold boost_is_directory, boost_call, io_post. rewrite ?bool_decide_eq_true_2 by done.
  destruct (next_sys_cases o) as [[Hs ->]|(r & s & Hs & ->)].
  - rewrite bool_decide_eq_true_2 by done. wp_steps. split_and!; try done. by destruct o.
  - assert (s `suffix_of` os_script o) by (rewrite Hs; by apply suffix_cons_r).
    pose proof (fault_used_next _ _ _ Hs).
    destruct r; cbn [os_dirs with_script]; rewrite ?bool_decide_eq_true_2 by done; wp_steps; by split_and!.
Qed.

(** The store recovered from a log; there is none when there are no segments. *)
Definition recovered_store (segs : list segment) : option MemoryStorage :=
  match segs with [] => None | _ => Some (replay new_MemoryStorage (log_records segs)) end.

Lemma readable_of_log o dir segs :
  log_files o dir segs -> all_written segs -> segs_readable o dir 0 segs.
Proof.
  intros Hf Hall i s Hi. split_and!.
  - by apply (lf_segs _ _ _ Hf).
  - unfold all_written in Hall. rewrite Forall_lookup in Hall. intros He. apply (Hall i s Hi).
    by rewrite He.
  - pose proof (lf_small _ _ _ Hf) as Hsm. rewrite Forall_lookup in Hsm. by apply (Hsm i).
  - pose proof (lf_size _ _ _ Hf). apply list_elem_of_lookup_2 in Hi. apply log_size_elem in Hi. lia.
Qed.

Lemma log_names_env o o' dir segs :
  log_names o dir segs -> os_files o' = os_files o -> os_dirs o' = {[dir]} ∪ os_dirs o -> log_names o' dir segs.
Proof.
  intros [H1 H2 H3] Hf Hd. split; rewrite ?Hf; try done. intros name Hsl Hw Hex. apply H2; [done..|].
  destruct Hex as [?|Hin]; [by left|]. right. rewrite Hd in Hin. apply elem_of_union in Hin as [Hin|?]; [|done].
  apply elem_of_singleton in Hin. by apply path_join_not_dir in Hin.
Qed.

(** [Recover] up to the segments. *)
Lemma Recover_head options o segs (Q : result ErrorCode unit -> os * recovery -> Prop) :
  log_names o (log_dir options) segs ->
  (forall o' rc, os_files o' = os_files o ->
     (os_dirs o' = os_dirs o \/ os_dirs o' = {[log_dir options]} ∪ os_dirs o) ->
     os_script o' `suffix_of` os_script o -> fault_used o o' -> Q (Err IOError) (o', rc)) ->
  (forall o', os_files o' = os_files o -> os_dirs o' = {[log_dir options]} ∪ os_dirs o ->
     os_script o' `suffix_of` os_script o ->
     match segs with
     | [] => Q (Ok tt) (o', MkRecovery None (Some (new_LogManager options)))
     | _ => wp (recover_segments options (wals_of 0 segs))
              (o', MkRecovery (Some new_MemoryStorage) (Some (new_LogManager options))) Q
     end) ->
  wp (Recover options) (o, MkRecovery None None) Q.
Proof.
  intros Hf Herr Hok. unfold Recover, recover_os. wp_steps.
  eapply wp_mono; [apply create_dir_spec|].
  intros [[]|e|h] o1 [Hs1 Hr1]; [| |done].
  2: { destruct Hr1 as (-> & ? & Ho1). apply Herr; [by rewrite Ho1|left; by rewrite Ho1|done|done]. }
  destruct Hr1 as [Hf1 Hd1]. cbn. wp_steps.
  eapply wp_mono; [apply get_children_spec; cbn; rewrite Hd1; set_solver|].
  intros [names|e|h] o2 [Hs2 Hr2]; [| |done].
  2: { destruct Hr2 as (-> & Hn & Ho2). cbn. apply Herr; [by rewrite Ho2|right; by rewrite Ho2|by etrans|].
       by eapply fault_used_after. }
  destruct Hr2 as [-> Ho2]. cbn [fst snd app].
  assert (os_files o2 = os_files o) as Hf2 by (by rewrite Ho2).
  assert (os_dirs o2 = {[log_dir options]} ∪ os_dirs o) as Hd2 by (by rewrite Ho2).
  rewrite (collect_wals_listing o2 _ segs (log_names_env _ _ _ _ Hf Hf2 Hd2)). wp_steps. cbn [rc_memstore rc_manager].
  specialize (Hok o2 Hf2 Hd2 ltac:(by etrans)). destruct segs as [|s segs]; [by apply wp_ret|].
  destruct (wals_of 0 (s :: segs)) as [|wal wals] eqn:Hw; [by rewrite wals_of_cons in Hw|].
  wp_steps. cbn [rc_memstore rc_manager]. by wp_steps.
Qed.

Lemma Recover_spec options o segs :
  log_files o (log_dir options) segs -> all_written segs ->
  wp (Recover options) (o, MkRecovery None None) (fun r st =>
    let '(o', rc) := st in
    os_files o' = os_files o /\ os_script o' `suffix_of` os_script o /\
    match r with
    | Ok _ => exists m, rc = MkRecovery (recovered_store segs) (Some m) /\ log_inv o' m segs /\
        options_ m = options /\ current_ m = None /\ lastIndex_ m = 0 /\ empty_ m = false
    | Err e => e = IOError /\ fault_used o o' /\ log_files o' (log_dir options) segs
    | Halt _ => False
    end).
Proof.
  intros Hf Hall. eapply Recover_head; [by apply log_files_names|intros; split_and!; try done; by eapply log_files_env|].
  intros o2 Hf2 Hd2 Hs2. pose proof (log_files_env o o2 _ segs Hf Hf2 (or_intror Hd2)) as Hlf2.
  assert (log_dir options ∈ os_dirs o2) as Hin by (rewrite Hd2; set_solver).
  destruct segs as [|s segs]; [split_and!; try done; exists (new_LogManager options); by split_and!|].
  eapply wp_mono; [apply recover_segments_spec; by apply readable_of_log|].
  intros r [o3 rc3] (Hf3 & Hd3 & Hs3 & Hr3). split_and!; [congruence|by etrans|].
  destruct r as [[]|e|h]; [|destruct Hr3 as [-> Hn]; split_and!; [done|by eapply fault_used_after|]|done].
  - destruct Hr3 as (metas & Hlm & ->). eexists. split_and!; try done. split; cbn; [|done]. split; [|by rewrite Hd3].
    eapply log_files_env; [exact Hlf2|done|by left].
  - eapply log_files_env; [exact Hlf2|done|by left].
Qed.
End spec.

(** ** Theorems *)

Section theorems.
Context (HOST : Host) (CRC : Crc32) (Y : YaraftPb) (YS : YaraftPbSpec Y) (SB : StatusBool).

(** C9: [Write] of entries appends them to the log and changes nothing that was in it: on success
    the segments on disk are the old ones with batches added in place and new segments after
    them; in every case the old bytes of every segment are still there.  It returns an error or
    ends the process only after a failing call, and it ends in undefined behaviour exactly when
    the current segment has no room for an entry. *)
Theorem write_appends o m segs es :
  log_inv o m segs -> empty_ m = false -> fresh_room m ->
  8 + len (entries_bytes es) < 2 ^ 32 -> log_size segs + write_cost es < 2 ^ 62 ->
  exists r o' m', Write es None (o, m) = (r, (o', m')) /\
    (forall i s, segs !! i = Some s -> exists more,
       os_files o' !! seg_file (log_dir (options_ m)) i s = Some (seg_content (snd s) ++ more)) /\
    match r with
    | Ok _ => exists segs', log_inv o' m' segs' /\ extends segs segs' /\
        log_entries segs' = log_entries segs ++ es /\ (es <> [] -> has_room m)
    | Err e => e = IOError /\ os_script o <> []
    | Halt h => (h = FatalLog /\ os_script o <> []) \/ (h = Undefined /\ ~ has_room m)
    end.
Proof.
  intros Hinv Hemp Hfresh H32 H62. pose proof (Write_spec o m segs es Hinv Hemp Hfresh H32 H62) as Hw.
  unfold wp in Hw. destruct (Write es None (o, m)) as [r [o' m']]. destruct Hw as (Hk & _ & Hr).
  exists r, o', m'. split_and!; [done|exact Hk|]. destruct r; [|done..].
  destruct Hr as (segs' & ? & _ & ? & ? & _ & _ & _ & ?). by exists segs'.
Qed.

(** a write to a segment with at most eight bytes left before its limit reads the element
    before the beginning of the vector, which is undefined. *)
Theorem write_to_full_segment o m segs es w :
  log_inv o m segs -> empty_ m = false -> fresh_room m -> es <> [] ->
  8 + len (entries_bytes es) < 2 ^ 32 -> log_size segs + write_cost es < 2 ^ 62 ->
  os_script o = [] -> current_ m = Some w -> lw_empty_ w = false ->
  0 <= logSegmentSize_ w - Size (file_ w) <= 8 ->
  fst (Write es None (o, m)) = Halt Undefined.
Proof.
  intros Hinv Hemp Hfresh Hes H32 H62 Hscr Hcur Hlw Hroom.
  pose proof (Write_spec o m segs es Hinv Hemp Hfresh H32 H62) as Hw.
  unfold wp in Hw. destruct (Write es None (o, m)) as [r [o' m']]. destruct Hw as (_ & _ & Hr).
  assert (~ has_room m) as Hno.
  { unfold has_room, segment_head. rewrite Hcur, Hlw, (@len_nil Z), Z.add_0_r.
    unfold s64, u64. rewrite (Z.mod_small (_ - _)) by lia.
    rewrite bool_decide_eq_true_2, Z.mod_small by lia. lia. }
  rewrite Hscr in Hr. cbn. destruct r; [|naive_solver|naive_solver].
  destruct Hr as (? & _ & _ & _ & _ & _ & _ & _ & H). by destruct (Hno (H Hes)).
Qed.
End theorems.
