(* ===== verification/MemKv.v ===== *)
(** * The in-memory store of [memkv]: [src/apps/memkv/src/memkv_store.h], [memkv_store.cc] and
    [status.h], [status.cc] beside them

    The store is a tree of heap nodes linked by raw pointers, so the model has a heap: a map from
    addresses to nodes.  Every call holds the mutex of the store from start to end and is one
    atomic step. *)

From S2P Require Import Prelude External.

(** ** Error codes *)

Module Error.
Inductive ErrorCodes := OK | InvalidArgument | NodeNotExist | ConsensusError.

#[global] Instance ErrorCodes_eq_dec : EqDecision ErrorCodes.
Proof. solve_decision. Defined.

Definition toString (code : ErrorCodes) : string :=
  match code with
  | OK => "OK"
  | InvalidArgument => "InvalidArgument"
  | NodeNotExist => "NodeNotExist"
  | ConsensusError => "ConsensusError"
  end.
End Error.

(** ** Library functions the store calls *)

Class KvLib := {
  (** [path.TrimSpace()] of [silly::Slice]. *)
  slice_TrimSpace : bytes -> bytes;
  (** [boost::split(result, s, [](char c) { return c == sep; })]. *)
  boost_split : Z -> bytes -> list bytes;
  (** [Slice(nullptr)]: the bytes of a slice made from a null pointer to characters, [None] where
      the constructor takes its [strlen]. *)
  slice_of_null : option bytes;
}.

(** The pieces joined by the separator. *)
Fixpoint join (sep : Z) (segs : list bytes) : bytes :=
  match segs with
  | [] => []
  | [s] => s
  | s :: segs => s ++ sep :: join sep segs
  end.

Class KvLibSpec (K : KvLib) : Prop := {
  boost_split_join sep s : join sep (boost_split sep s) = s;
  boost_split_no_sep sep s : Forall (fun seg => sep ∉ seg) (boost_split sep s);
  boost_split_nonempty sep s : boost_split sep s <> [];
}.

(** ** Nodes and the heap *)

Record Node := MkNode { children : gmap bytes Z; data : bytes }.

Definition new_Node : Node := MkNode ∅ [].

Record MemKvStore := MkMemKvStore { heap : gmap Z Node; next_addr : Z }.

(** The address of the member [root_]. *)
Definition root_ : Z := 0.

Definition new_MemKvStore : MemKvStore := MkMemKvStore {[root_ := new_Node]} 1.

Abbreviation KvM := (Prog Error.ErrorCodes MemKvStore).

(** [*n]: a pointer to nothing is undefined behaviour. *)
Definition deref (n : Z) : KvM Node := fun kv =>
  match heap kv !! n with Some nd => (Ok nd, kv) | None => (Halt Undefined, kv) end.

Definition set_node (n : Z) (nd : Node) : KvM unit :=
  modify (fun kv => MkMemKvStore (<[n := nd]> (heap kv)) (next_addr kv)).

(** [new Node()]. *)
Definition alloc_node : KvM Z := fun kv =>
  (Ok (next_addr kv), MkMemKvStore (<[next_addr kv := new_Node]> (heap kv)) (next_addr kv + 1)).

Section store.
Context {K : KvLib}.

Definition slash : Z := 47.

Definition validatePath (p : bytes) : result Error.ErrorCodes (list bytes) :=
  let path := slice_TrimSpace p in
  if len path =? 0 then Err Error.InvalidArgument
  else if bool_decide (0 ∈ path) then Err Error.InvalidArgument
  else Ok (boost_split slash path).

Definition validated (p : bytes) : KvM (list bytes) := fun kv => (validatePath p, kv).

(** [n->children.emplace(seg, nullptr)] and the node it leads to. *)
Definition child_or_new (n : Z) (seg : bytes) : KvM Z :=
  nd ← deref n;
  match children nd !! seg with
  | Some c => mret c
  | None =>
      c ← alloc_node;
      _ ← set_node n (MkNode (<[seg := c]> (children nd)) (data nd));
      mret c
  end.

Fixpoint write_loop (pathVec : list bytes) (n : Z) : KvM Z :=
  match pathVec with
  | [] => mret n
  | seg :: pathVec =>
      if len seg =? 0 then write_loop pathVec n
      else c ← child_or_new n seg; write_loop pathVec c
  end.

Definition Write (path value : bytes) : KvM unit :=
  pathVec ← validated path;
  n ← write_loop pathVec root_;
  nd ← deref n;
  set_node n (MkNode (children nd) value).

(** [erase] removes the link and not the node behind it. *)
Fixpoint delete_loop (pathVec : list bytes) (n : Z) : KvM unit :=
  match pathVec with
  | [] => fail Error.InvalidArgument
  | seg :: pathVec =>
      if len seg =? 0 then delete_loop pathVec n
      else
        nd ← deref n;
        match children nd !! seg with
        | None => mret tt
        | Some c =>
            match pathVec with
            | [] => set_node n (MkNode (delete seg (children nd)) (data nd))
            | _ => delete_loop pathVec c
            end
        end
  end.

Definition Delete (path : bytes) : KvM unit :=
  pathVec ← validated path;
  delete_loop pathVec root_.

Fixpoint get_loop (pathVec : list bytes) (n : Z) : KvM Z :=
  match pathVec with
  | [] => mret n
  | seg :: pathVec =>
      if len seg =? 0 then get_loop pathVec n
      else
        nd ← deref n;
        match children nd !! seg with
        | None => fail Error.NodeNotExist
        | Some c => get_loop pathVec c
        end
  end.

Definition Get (path : bytes) : KvM bytes :=
  pathVec ← validated path;
  n ← get_loop pathVec root_;
  nd ← deref n;
  mret (data nd).
End store.

(** [~Node]: the children are deleted first.  A child is created after its parent, so addresses
    grow along a path and [fuel] levels are enough for addresses below [fuel]. *)
Fixpoint delete_Node (fuel : nat) (n : Z) : KvM unit :=
  match fuel with
  | O => halt_with OutOfFuel
  | S fuel =>
      nd ← deref n;
      _ ← (fix go (cs : list Z) : KvM unit :=
             match cs with
             | [] => mret tt
             | c :: cs => _ ← delete_Node fuel c; go cs
             end) (snd <$> map_to_list (children nd));
      modify (fun kv => MkMemKvStore (delete n (heap kv)) (next_addr kv))
  end.

Definition delete_MemKvStore : KvM unit :=
  fuel ← gets (fun kv => Z.to_nat (next_addr kv));
  delete_Node fuel root_.

(** ** What the store holds

    A path is the list of its non-empty segments; the contents of a store are the function from
    paths to data that the tree represents. *)

Abbreviation kv_path := (list bytes).

Definition segments (pathVec : list bytes) : kv_path := filter (fun s => len s <> 0) pathVec.

Fixpoint walk (h : gmap Z Node) (n : Z) (p : kv_path) : option Z :=
  match p with
  | [] => _ ← h !! n; Some n
  | s :: p => nd ← h !! n; c ← children nd !! s; walk h c p
  end.

Definition lookup_path (kv : MemKvStore) (p : kv_path) : option bytes :=
  n ← walk (heap kv) root_ p; nd ← heap kv !! n; Some (data nd).

(** The abstract operations on contents. *)
Definition spec_write (p : kv_path) (v : bytes) (f : kv_path -> option bytes) : kv_path -> option bytes :=
  fun q => if decide (q = p) then Some v
           else match f q with
                | Some d => Some d
                | None => if decide (q `prefix_of` p) then Some [] else None
                end.

Definition spec_delete (p : kv_path) (f : kv_path -> option bytes) : kv_path -> option bytes :=
  fun q => if decide (p `prefix_of` q) then None else f q.

(** *** The invariant: a tree rooted at [root_] *)

Record kv_wf (kv : MemKvStore) : Prop := {
  wf_root : is_Some (heap kv !! root_);
  wf_addr n nd : heap kv !! n = Some nd -> 0 <= n < next_addr kv;
  wf_child n nd s c : heap kv !! n = Some nd -> children nd !! s = Some c ->
    n < c /\ is_Some (heap kv !! c);
  wf_parent n1 nd1 s1 n2 nd2 s2 c :
    heap kv !! n1 = Some nd1 -> children nd1 !! s1 = Some c ->
    heap kv !! n2 = Some nd2 -> children nd2 !! s2 = Some c -> n1 = n2 /\ s1 = s2;
}.

Lemma new_store_wf : kv_wf new_MemKvStore.
Proof.
  split; unfold new_MemKvStore; cbn [heap next_addr].
  - exists new_Node. apply lookup_singleton_eq.
  - intros n nd [<- <-]%lookup_singleton_Some. done.
  - intros n nd s c [<- <-]%lookup_singleton_Some. done.
  - intros n1 nd1 s1 n2 nd2 s2 c [<- <-]%lookup_singleton_Some. done.
Qed.

Lemma walk_nil h n m : walk h n [] = Some m <-> m = n /\ is_Some (h !! n).
Proof.
  cbn. destruct (h !! n) as [nd|] eqn:Hn; cbn; [naive_solver|].
  split; [done|]. intros [_ Hs]. by destruct Hs.
Qed.

Lemma walk_app h n p q : walk h n (p ++ q) = (m ← walk h n p; walk h m q).
Proof.
  revert n. induction p as [|s p IH]; intros n; cbn.
  - destruct (h !! n) as [nd|] eqn:Hn; [done|]. destruct q; cbn; by rewrite Hn.
  - destruct (h !! n) as [nd|]; [|done]. cbn. destruct (children nd !! s); [|done]. apply IH.
Qed.

Lemma walk_node h n p m : walk h n p = Some m -> is_Some (h !! m).
Proof.
  revert n. induction p as [|s p IH]; intros n; cbn.
  - destruct (h !! n) as [nd|] eqn:Hn; [|done]. intros [= <-]. by rewrite Hn.
  - destruct (h !! n) as [nd|]; [|done]. cbn. destruct (children nd !! s); [|done]. apply IH.
Qed.

Lemma walk_snoc h n p s m :
  walk h n (p ++ [s]) = Some m <->
  exists k nd, walk h n p = Some k /\ h !! k = Some nd /\ children nd !! s = Some m /\ is_Some (h !! m).
Proof.
  rewrite walk_app. cbn. destruct (walk h n p) as [k|] eqn:Hk; cbn; [|naive_solver].
  destruct (h !! k) as [nd|] eqn:Hnd; cbn; [|naive_solver].
  destruct (children nd !! s) as [c|] eqn:Hc; cbn; [|naive_solver].
  destruct (h !! c) as [nc|] eqn:Hnc; cbn; [naive_solver|]. split; [done|].
  intros (k' & nd' & ? & ? & ? & Hs). simplify_eq. rewrite Hnc in Hs. by destruct Hs.
Qed.

Lemma walk_mono kv p n m : kv_wf kv -> walk (heap kv) n p = Some m -> n <= m /\ (p <> [] -> n < m).
Proof.
  intros Hwf. revert n. induction p as [|s p IH]; intros n; cbn.
  - destruct (heap kv !! n); [|done]. intros [= <-]. split; [lia|done].
  - destruct (heap kv !! n) as [nd|] eqn:Hn; [|done]. cbn.
    destruct (children nd !! s) as [c|] eqn:Hc; [|done]. intros Hw. apply IH in Hw as [Hle _].
    destruct (wf_child kv Hwf n nd s c Hn Hc). lia.
Qed.

(** Different paths lead to different nodes. *)
Lemma walk_inj kv p q n :
  kv_wf kv -> walk (heap kv) root_ p = Some n -> walk (heap kv) root_ q = Some n -> p = q.
Proof.
  intros Hwf. revert q n. induction p as [|s p IH] using rev_ind; intros q n Hp Hq.
  - assert (n = root_) as ->. { cbn in Hp. destruct (heap kv !! root_); [|done]. by injection Hp as <-. }
    destruct q as [|s q]; [done|]. apply walk_mono in Hq as [_ Hq]; [|done].
    specialize (Hq ltac:(done)). lia.
  - destruct q as [|s' q _] using rev_ind.
    + assert (n = root_) as ->. { cbn in Hq. destruct (heap kv !! root_); [|done]. by injection Hq as <-. }
      apply walk_mono in Hp as [_ Hp]; [|done]. specialize (Hp ltac:(by destruct p)). lia.
    + apply walk_snoc in Hp as (k & nd & Hk & Hnd & Hc & _).
      apply walk_snoc in Hq as (k' & nd' & Hk' & Hnd' & Hc' & _).
      destruct (wf_parent kv Hwf k nd s k' nd' s' n) as [-> ->]; try done. by rewrite (IH q k').
Qed.

(** ** Changes of the tree *)

(** The store after a new child [s] of [n]. *)
Definition with_child (kv : MemKvStore) (n : Z) (nd : Node) (s : bytes) : MemKvStore :=
  MkMemKvStore (<[n := MkNode (<[s := next_addr kv]> (children nd)) (data nd)]>
                  (<[next_addr kv := new_Node]> (heap kv))) (next_addr kv + 1).

Lemma next_addr_free kv : kv_wf kv -> heap kv !! next_addr kv = None.
Proof.
  intros Hwf. destruct (heap kv !! next_addr kv) as [nd|] eqn:He; [|done].
  apply (wf_addr kv Hwf) in He. lia.
Qed.

Lemma with_child_lookup kv n nd s k nd' :
  kv_wf kv -> heap kv !! n = Some nd -> children nd !! s = None ->
  heap (with_child kv n nd s) !! k = Some nd' <->
  (k = n /\ nd' = MkNode (<[s := next_addr kv]> (children nd)) (data nd)) \/
  (k = next_addr kv /\ nd' = new_Node) \/ (k <> n /\ heap kv !! k = Some nd').
Proof.
  intros Hwf Hn Hs. pose proof (wf_addr kv Hwf n nd Hn). pose proof (next_addr_free kv Hwf) as Hfree.
  unfold with_child. cbn [heap]. rewrite !lookup_insert_Some. split.
  - intros [[<- <-]|[Hne [[<- <-]|[Hne' Hk]]]]; [by left|right; by left|right; by right].
  - intros [[-> ->]|[[-> ->]|[Hne Hk]]]; [by left|right; split; [lia|by left]|].
    right. split; [done|]. right. split; [|done]. intros <-. by rewrite Hfree in Hk.
Qed.

Lemma with_child_wf kv n nd s :
  kv_wf kv -> heap kv !! n = Some nd -> children nd !! s = None -> kv_wf (with_child kv n nd s).
Proof.
  intros Hwf Hn Hs. pose proof (wf_addr kv Hwf n nd Hn) as Hna.
  pose proof (fun k nd' => with_child_lookup kv n nd s k nd' Hwf Hn Hs) as Hl.
  assert (forall k, is_Some (heap kv !! k) -> is_Some (heap (with_child kv n nd s) !! k)) as Hmono.
  { intros k [nd' Hk]. destruct (decide (k = n)) as [->|Hne]; eexists; apply Hl; [by left|by right; right]. }
  (* the edges: the new one and the old ones *)
  assert (forall k ndk x c, heap (with_child kv n nd s) !! k = Some ndk -> children ndk !! x = Some c ->
    (k = n /\ x = s /\ c = next_addr kv) \/
    exists ndo, heap kv !! k = Some ndo /\ children ndo !! x = Some c) as Hedge.
  { intros k ndk x c Hk Hx. apply Hl in Hk as [[-> ->]|[[-> ->]|[Hne Hk]]]; [|done|by right; exists ndk].
    cbn in Hx. apply lookup_insert_Some in Hx as [[<- <-]|[Hxs Hx]]; [by left|right; by exists nd]. }
  assert (forall k ndo x c, heap kv !! k = Some ndo -> children ndo !! x = Some c -> c < next_addr kv) as Hold.
  { intros k ndo x c Hk Hx. destruct (wf_child kv Hwf k ndo x c Hk Hx) as [_ [nc Hc]].
    by apply (wf_addr kv Hwf) in Hc as [_ ?]. }
  split.
  - apply Hmono, (wf_root kv Hwf).
  - intros k ndk Hk. cbn [with_child next_addr]. apply Hl in Hk as [[-> _]|[[-> _]|[_ Hk]]]; [lia|lia|].
    apply (wf_addr kv Hwf) in Hk. lia.
  - intros k ndk x c Hk Hx. destruct (Hedge k ndk x c Hk Hx) as [(-> & -> & ->)|(ndo & Ho & Hc)].
    + split; [lia|]. exists new_Node. apply Hl. by right; left.
    + destruct (wf_child kv Hwf k ndo x c Ho Hc) as [? ?]. split; [done|by apply Hmono].
  - intros n1 nd1 s1 n2 nd2 s2 c H1 E1 H2 E2.
    destruct (Hedge n1 nd1 s1 c H1 E1) as [(-> & -> & ->)|(o1 & Ho1 & C1)];
      destruct (Hedge n2 nd2 s2 _ H2 E2) as [(-> & -> & Hc)|(o2 & Ho2 & C2)].
    + done.
    + apply (Hold n2 o2 s2) in C2; [|done]. lia.
    + subst c. apply (Hold n1 o1 s1) in C1; [|done]. lia.
    + by apply (wf_parent kv Hwf n1 o1 s1 n2 o2 s2 c).
Qed.

Lemma with_child_walk kv p n nd s q m :
  kv_wf kv -> walk (heap kv) root_ p = Some n -> heap kv !! n = Some nd -> children nd !! s = None ->
  walk (heap (with_child kv n nd s)) root_ q = Some m <->
  walk (heap kv) root_ q = Some m \/ (q = p ++ [s] /\ m = next_addr kv).
Proof.
  intros Hwf Hp Hn Hs.
  pose proof (fun k nd' => with_child_lookup kv n nd s k nd' Hwf Hn Hs) as Hl.
  pose proof (next_addr_free kv Hwf) as Hfree. pose proof (wf_addr kv Hwf n nd Hn) as Hna.
  revert m. induction q as [|x q IH] using rev_ind; intros m.
  - rewrite !walk_nil. split; [intros [-> _]; left; split; [done|apply (wf_root kv Hwf)]|].
    intros [[-> _]|[He _]]; [|by destruct p]. split; [done|].
    apply (wf_root (with_child kv n nd s)). by apply with_child_wf.
  - rewrite !walk_snoc. setoid_rewrite IH. setoid_rewrite Hl. split.
    + intros (k & ndk & Hk & Hnd & Hc & [nm Hm]).
      destruct Hk as [Hk|[-> ->]].
      * destruct Hnd as [[-> ->]|[[-> ->]|[Hne Hnd]]]; [|done|].
        -- cbn in Hc. apply lookup_insert_Some in Hc as [[<- <-]|[Hxs Hc]].
           ++ right. split; [|done]. f_equal. by eapply walk_inj.
           ++ left. exists n, nd. split_and!; try done. by apply (wf_child kv Hwf n nd x m).
        -- left. exists k, ndk. split_and!; try done. by apply (wf_child kv Hwf k ndk x m).
      * exfalso. destruct Hnd as [[? _]|[[_ ->]|[_ Hnd]]]; [lia|done|by rewrite Hfree in Hnd].
    + intros [(k & ndk & Hk & Hnd & Hc & [nm Hm])|[He ->]].
      * destruct (decide (k = n)) as [->|Hne].
        -- rewrite Hn in Hnd. injection Hnd as <-. exists n, (MkNode (<[s := next_addr kv]> (children nd)) (data nd)).
           split_and!; [by left|by left| |].
           ++ cbn. rewrite lookup_insert_ne; [done|]. intros ->. by rewrite Hs in Hc.
           ++ destruct (decide (m = n)) as [->|]; eexists; apply Hl; [by left|right; right; by split].
        -- exists k, ndk. split_and!; [by left|right; right; by split|done|].
           destruct (decide (m = n)) as [->|]; eexists; apply Hl; [by left|right; right; by split].
      * apply app_inj_tail in He as [-> ->].
        exists n, (MkNode (<[s := next_addr kv]> (children nd)) (data nd)).
        split_and!; [by left|by left|apply lookup_insert_eq|]. exists new_Node. apply Hl. by right; left.
Qed.

Lemma lookup_path_Some kv q d :
  lookup_path kv q = Some d <->
  exists n nd, walk (heap kv) root_ q = Some n /\ heap kv !! n = Some nd /\ data nd = d.
Proof.
  unfold lookup_path. destruct (walk (heap kv) root_ q) as [n|]; cbn; [|naive_solver].
  destruct (heap kv !! n) as [nd|] eqn:Hn; cbn; [naive_solver|]. split; [done|].
  intros (n' & nd' & [= <-] & Hn' & _). by rewrite Hn in Hn'.
Qed.

Lemma lookup_path_walk kv q : is_Some (lookup_path kv q) <-> is_Some (walk (heap kv) root_ q).
Proof.
  unfold lookup_path. destruct (walk (heap kv) root_ q) as [n|] eqn:Hw; cbn; [|done].
  destruct (walk_node _ _ _ _ Hw) as [nd ->]. done.
Qed.

Lemma with_child_contents kv p n nd s q :
  kv_wf kv -> walk (heap kv) root_ p = Some n -> heap kv !! n = Some nd -> children nd !! s = None ->
  lookup_path (with_child kv n nd s) q = if decide (q = p ++ [s]) then Some [] else lookup_path kv q.
Proof.
  intros Hwf Hp Hn Hs. apply option_eq. intros d. rewrite lookup_path_Some.
  setoid_rewrite (with_child_walk kv p n nd s q); [|done..].
  setoid_rewrite (with_child_lookup kv n nd s); [|done..].
  pose proof (next_addr_free kv Hwf) as Hfree. pose proof (wf_addr kv Hwf n nd Hn) as Hna.
  case_decide as Hq.
  - subst q. assert (forall m, walk (heap kv) root_ (p ++ [s]) = Some m -> False) as Hno.
    { intros m (k & ndk & Hk & Hndk & Hc & _)%walk_snoc. rewrite Hp in Hk. injection Hk as <-.
      rewrite Hn in Hndk. injection Hndk as <-. by rewrite Hs in Hc. }
    split.
    + intros (m & ndm & [Hm|[_ ->]] & Hnd & <-); [by destruct (Hno m)|].
      destruct Hnd as [[? _]|[[_ ->]|[_ Hnd]]]; [lia|done|by rewrite Hfree in Hnd].
    + intros [= <-]. exists (next_addr kv), new_Node. split_and!; [by right|by right; left|done].
  - rewrite lookup_path_Some. split.
    + intros (m & ndm & [Hm|[? _]] & Hnd & <-); [|done].
      destruct Hnd as [[-> ->]|[[-> ->]|[_ Hnd]]].
      * by exists n, nd.
      * destruct (walk_node _ _ _ _ Hm) as [x Hx]. by rewrite Hfree in Hx.
      * by exists m, ndm.
    + intros (m & ndm & Hm & Hnd & <-). destruct (decide (m = n)) as [->|Hne].
      * rewrite Hn in Hnd. injection Hnd as <-. eexists n, _. split_and!; [by left|by left|done].
      * exists m, ndm. split_and!; [by left|by right; right|done].
Qed.

(** Changing the data of a node. *)
Definition with_data (kv : MemKvStore) (n : Z) (nd : Node) (v : bytes) : MemKvStore :=
  MkMemKvStore (<[n := MkNode (children nd) v]> (heap kv)) (next_addr kv).

Lemma walk_ext h h' n q :
  (forall k, children <$> h !! k = children <$> h' !! k) -> walk h n q = walk h' n q.
Proof.
  intros Hext. revert n. induction q as [|s q IH]; intros n; cbn; specialize (Hext n);
    destruct (h !! n) as [nd|], (h' !! n) as [nd'|]; try done.
  cbn in *. injection Hext as ->. destruct (children nd' !! s); [apply IH|done].
Qed.

Lemma with_data_children kv n nd v k :
  heap kv !! n = Some nd -> children <$> heap (with_data kv n nd v) !! k = children <$> heap kv !! k.
Proof.
  intros Hn. unfold with_data. cbn [heap]. destruct (decide (n = k)) as [<-|Hne].
  - by rewrite lookup_insert_eq, Hn.
  - by rewrite lookup_insert_ne.
Qed.

Lemma with_data_wf kv n nd v : kv_wf kv -> heap kv !! n = Some nd -> kv_wf (with_data kv n nd v).
Proof.
  intros Hwf Hn. pose proof (fun k => with_data_children kv n nd v k Hn) as Hc.
  assert (forall k nd', heap (with_data kv n nd v) !! k = Some nd' ->
    exists ndo, heap kv !! k = Some ndo /\ children ndo = children nd') as Hback.
  { intros k nd' Hk. specialize (Hc k). rewrite Hk in Hc. destruct (heap kv !! k) as [ndo|]; [|done].
    cbn in Hc. injection Hc as Hc. by exists ndo. }
  assert (forall k, is_Some (heap kv !! k) -> is_Some (heap (with_data kv n nd v) !! k)) as Hfwd.
  { intros k [ndo Hk]. specialize (Hc k). rewrite Hk in Hc.
    destruct (heap (with_data kv n nd v) !! k); [done|]. done. }
  split.
  - apply Hfwd, (wf_root kv Hwf).
  - intros k nd' Hk. apply Hback in Hk as (ndo & Hk & _). by apply (wf_addr kv Hwf) in Hk.
  - intros k nd' s c Hk Hs. apply Hback in Hk as (ndo & Hk & Hch). rewrite <- Hch in Hs.
    destruct (wf_child kv Hwf k ndo s c Hk Hs). auto.
  - intros n1 nd1 s1 n2 nd2 s2 c H1 E1 H2 E2.
    apply Hback in H1 as (o1 & H1 & C1). apply Hback in H2 as (o2 & H2 & C2).
    rewrite <- C1 in E1. rewrite <- C2 in E2. by apply (wf_parent kv Hwf n1 o1 s1 n2 o2 s2 c).
Qed.

Lemma with_data_contents kv p n nd v q :
  kv_wf kv -> walk (heap kv) root_ p = Some n -> heap kv !! n = Some nd ->
  lookup_path (with_data kv n nd v) q = if decide (q = p) then Some v else lookup_path kv q.
Proof.
  intros Hwf Hp Hn. unfold lookup_path.
  rewrite (walk_ext (heap (with_data kv n nd v)) (heap kv)) by (intros; by apply with_data_children).
  case_decide as Hq.
  - subst q. rewrite Hp. cbn. by rewrite lookup_insert_eq.
  - destruct (walk (heap kv) root_ q) as [m|] eqn:Hm; [|done]. cbn.
    rewrite lookup_insert_ne; [done|]. intros <-. apply Hq. by eapply walk_inj.
Qed.

(** Removing a link. *)
Definition without_child (kv : MemKvStore) (n : Z) (nd : Node) (s : bytes) : MemKvStore :=
  MkMemKvStore (<[n := MkNode (delete s (children nd)) (data nd)]> (heap kv)) (next_addr kv).

Lemma without_child_lookup kv n nd s k nd' :
  heap kv !! n = Some nd ->
  heap (without_child kv n nd s) !! k = Some nd' <->
  (k = n /\ nd' = MkNode (delete s (children nd)) (data nd)) \/ (k <> n /\ heap kv !! k = Some nd').
Proof.
  intros Hn. unfold without_child. cbn [heap]. rewrite lookup_insert_Some. naive_solver.
Qed.

Lemma without_child_wf kv n nd s : kv_wf kv -> heap kv !! n = Some nd -> kv_wf (without_child kv n nd s).
Proof.
  intros Hwf Hn. pose proof (fun k nd' => without_child_lookup kv n nd s k nd' Hn) as Hl.
  assert (forall k ndk x c, heap (without_child kv n nd s) !! k = Some ndk -> children ndk !! x = Some c ->
    exists ndo, heap kv !! k = Some ndo /\ children ndo !! x = Some c) as Hedge.
  { intros k ndk x c Hk Hx. apply Hl in Hk as [[-> ->]|[_ Hk]]; [|by exists ndk].
    cbn in Hx. apply lookup_delete_Some in Hx as [_ Hx]. by exists nd. }
  assert (forall k, is_Some (heap kv !! k) -> is_Some (heap (without_child kv n nd s) !! k)) as Hfwd.
  { intros k [ndo Hk]. destruct (decide (k = n)) as [->|]; eexists; apply Hl; [by left|by right]. }
  split.
  - apply Hfwd, (wf_root kv Hwf).
  - intros k nd' Hk. apply Hl in Hk as [[-> _]|[_ Hk]]; [by apply (wf_addr kv Hwf n nd)|].
    by apply (wf_addr kv Hwf) in Hk.
  - intros k nd' x c Hk Hx. destruct (Hedge k nd' x c Hk Hx) as (ndo & Ho & Hc).
    destruct (wf_child kv Hwf k ndo x c Ho Hc). auto.
  - intros n1 nd1 s1 n2 nd2 s2 c H1 E1 H2 E2.
    destruct (Hedge n1 nd1 s1 c H1 E1) as (o1 & ? & ?). destruct (Hedge n2 nd2 s2 c H2 E2) as (o2 & ? & ?).
    by apply (wf_parent kv Hwf n1 o1 s1 n2 o2 s2 c).
Qed.

Lemma without_child_walk kv p n nd s q m :
  kv_wf kv -> walk (heap kv) root_ p = Some n -> heap kv !! n = Some nd ->
  walk (heap (without_child kv n nd s)) root_ q = Some m <->
  walk (heap kv) root_ q = Some m /\ ~ p ++ [s] `prefix_of` q.
Proof.
  intros Hwf Hp Hn. pose proof (fun k nd' => without_child_lookup kv n nd s k nd' Hn) as Hl.
  pose proof (without_child_wf kv n nd s Hwf Hn) as Hwf'.
  revert m. induction q as [|x q IH] using rev_ind; intros m.
  - rewrite !walk_nil. split.
    + intros [-> _]. split; [split; [done|apply (wf_root kv Hwf)]|]. intros [k Hk]. by destruct p.
    + intros [[-> _] _]. split; [done|apply (wf_root _ Hwf')].
  - assert (p ++ [s] `prefix_of` q ++ [x] <-> p ++ [s] `prefix_of` q \/ (q = p /\ x = s)) as Hpre.
    { split.
      - intros [k Hk]. destruct k as [|y k _] using rev_ind.
        + rewrite app_nil_r in Hk. apply app_inj_tail in Hk as [-> ->]. by right.
        + rewrite app_assoc in Hk. apply app_inj_tail in Hk as [-> ->]. left. by exists k.
      - intros [[k ->]|[-> ->]]; [|done]. exists (k ++ [x]). by rewrite app_assoc. }
    rewrite !walk_snoc, Hpre. setoid_rewrite IH. split.
    + intros (k & ndk & [Hk Hnp] & Hnd & Hc & _). apply Hl in Hnd as [[-> ->]|[Hne Hnd]].
      * cbn in Hc. apply lookup_delete_Some in Hc as [Hxs Hc]. split; [|naive_solver].
        exists n, nd. split_and!; try done. by apply (wf_child kv Hwf n nd x m).
      * split.
        -- exists k, ndk. split_and!; try done. by apply (wf_child kv Hwf k ndk x m).
        -- intros [?|[-> ->]]; [done|]. rewrite Hp in Hk. by injection Hk as ->.
    + intros [(k & ndk & Hk & Hnd & Hc & Hm) Hnp].
      assert (is_Some (heap (without_child kv n nd s) !! m)) as Hm'.
      { destruct (decide (m = n)) as [->|]; [eexists; apply Hl; by left|].
        destruct Hm as [ndm Hm]. exists ndm. apply Hl. by right. }
      destruct (decide (k = n)) as [->|Hne].
      * rewrite Hn in Hnd. injection Hnd as <-. exists n, (MkNode (delete s (children nd)) (data nd)).
        assert (q = p) as -> by (by apply (walk_inj kv q p n)).
        split_and!; try done; [naive_solver|apply Hl; by left|]. cbn. rewrite lookup_delete_ne; [done|naive_solver].
      * exists k, ndk. split_and!; try done; [naive_solver|]. apply Hl. by right.
Qed.

Lemma without_child_contents kv p n nd s q :
  kv_wf kv -> walk (heap kv) root_ p = Some n -> heap kv !! n = Some nd ->
  lookup_path (without_child kv n nd s) q = spec_delete (p ++ [s]) (lookup_path kv) q.
Proof.
  intros Hwf Hp Hn. unfold spec_delete. apply option_eq. intros d. rewrite lookup_path_Some.
  setoid_rewrite (without_child_walk kv p n nd s q); [|done..].
  setoid_rewrite (without_child_lookup kv n nd s); [|done..].
  case_decide as Hpre; [naive_solver|]. rewrite lookup_path_Some. split.
  - intros (m & ndm & [Hm _] & [[-> ->]|[Hne Hnd]] & <-); [by exists n, nd|by exists m, ndm].
  - intros (m & ndm & Hm & Hnd & <-). destruct (decide (m = n)) as [->|Hne].
    + rewrite Hn in Hnd. injection Hnd as <-. exists n, (MkNode (delete s (children nd)) (data nd)). split_and!; try done. by left.
    + exists m, ndm. split_and!; try done. by right.
Qed.

(** ** The operations *)

Lemma len_zero (s : bytes) : (len s =? 0) = bool_decide (s = []).
Proof. by destruct s. Qed.

Lemma segments_cons s pathVec :
  segments (s :: pathVec) = if len s =? 0 then segments pathVec else s :: segments pathVec.
Proof.
  unfold segments. rewrite filter_cons. destruct (Z.eqb_spec (len s) 0) as [H|H].
  - by rewrite decide_False by auto.
  - by rewrite decide_True.
Qed.

(** The contents while the path [p] is being created. *)
Definition spec_mkdirs (p : kv_path) (f : kv_path -> option bytes) : kv_path -> option bytes :=
  fun q => match f q with
           | Some d => Some d
           | None => if decide (q `prefix_of` p) then Some [] else None
           end.

Lemma deref_ok kv n nd : heap kv !! n = Some nd -> deref n kv = (Ok nd, kv).
Proof. unfold deref. by intros ->. Qed.

Lemma child_or_new_spec kv p n s :
  kv_wf kv -> walk (heap kv) root_ p = Some n ->
  exists c kv', child_or_new n s kv = (Ok c, kv') /\ kv_wf kv' /\
    walk (heap kv') root_ (p ++ [s]) = Some c /\
    forall q, lookup_path kv' q
      = match lookup_path kv q with
        | Some d => Some d
        | None => if decide (q = p ++ [s]) then Some [] else None
        end.
Proof.
  intros Hwf Hp. destruct (walk_node _ _ _ _ Hp) as [nd Hn]. unfold child_or_new.
  erewrite run_bind_ok by (by apply deref_ok). destruct (children nd !! s) as [c|] eqn:Hs.
  - exists c, kv.
    assert (walk (heap kv) root_ (p ++ [s]) = Some c) as Hw.
    { apply walk_snoc. exists n, nd. split_and!; try done. by apply (wf_child kv Hwf n nd s c). }
    split_and!; try done. intros q. destruct (lookup_path kv q) eqn:Hq; [done|].
    case_decide; [|done]. subst q. assert (is_Some (lookup_path kv (p ++ [s]))) as [d Hd]
      by (by apply lookup_path_walk). by rewrite Hq in Hd.
  - exists (next_addr kv), (with_child kv n nd s). split_and!; [done|by apply with_child_wf| |].
    + apply (with_child_walk kv p n nd s); try done. by right.
    + intros q. rewrite (with_child_contents kv p n nd s q) by done. case_decide as Hq; [|by destruct (lookup_path kv q)].
      subst q. destruct (lookup_path kv (p ++ [s])) as [d|] eqn:Hd; [|done].
      apply lookup_path_Some in Hd as (m & ndm & Hm & _).
      apply walk_snoc in Hm as (k & ndk & Hk & Hndk & Hc & _). rewrite Hp in Hk. injection Hk as <-.
      rewrite Hn in Hndk. injection Hndk as <-. by rewrite Hs in Hc.
Qed.

Lemma write_loop_spec pathVec kv p n :
  kv_wf kv -> walk (heap kv) root_ p = Some n ->
  exists c kv', write_loop pathVec n kv = (Ok c, kv') /\ kv_wf kv' /\
    walk (heap kv') root_ (p ++ segments pathVec) = Some c /\
    forall q, lookup_path kv' q = spec_mkdirs (p ++ segments pathVec) (lookup_path kv) q.
Proof.
  revert kv p n. induction pathVec as [|s pathVec IH]; intros kv p n Hwf Hp; cbn [write_loop].
  - exists n, kv. unfold segments. cbn. rewrite app_nil_r. split_and!; try done. intros q. unfold spec_mkdirs.
    destruct (lookup_path kv q) eqn:Hq; [done|]. case_decide as Hpre; [|done]. exfalso.
    destruct Hpre as [k ->]. rewrite walk_app in Hp.
    destruct (walk (heap kv) root_ q) as [m|] eqn:Hm; [|done].
    assert (is_Some (lookup_path kv q)) as [d Hd] by (apply lookup_path_walk; by rewrite Hm).
    by rewrite Hq in Hd.
  - rewrite segments_cons. destruct (len s =? 0); [by apply IH|].
    destruct (child_or_new_spec kv p n s Hwf Hp) as (c & kv1 & Hrun & Hwf1 & Hw1 & Hl1).
    erewrite run_bind_ok by done.
    destruct (IH kv1 (p ++ [s]) c Hwf1 Hw1) as (c' & kv2 & Hrun2 & Hwf2 & Hw2 & Hl2).
    exists c', kv2. rewrite <- app_assoc in Hw2, Hl2. cbn [app] in *. split_and!; try done.
    intros q. rewrite Hl2. unfold spec_mkdirs. rewrite Hl1.
    destruct (lookup_path kv q) as [d|]; [done|]. destruct (decide (q = p ++ [s])) as [->|]; [|done].
    rewrite decide_True; [done|]. exists (segments pathVec). by rewrite <- app_assoc.
Qed.

Lemma get_loop_spec pathVec kv p n :
  kv_wf kv -> walk (heap kv) root_ p = Some n ->
  get_loop pathVec n kv
  = match walk (heap kv) root_ (p ++ segments pathVec) with
    | Some m => (Ok m, kv)
    | None => (Err Error.NodeNotExist, kv)
    end.
Proof.
  revert p n. induction pathVec as [|s pathVec IH]; intros p n Hwf Hp; cbn [get_loop].
  - unfold segments. cbn. by rewrite app_nil_r, Hp.
  - rewrite segments_cons. destruct (len s =? 0); [by apply IH|].
    destruct (walk_node _ _ _ _ Hp) as [nd Hn]. erewrite run_bind_ok by (by apply deref_ok).
    change (s :: segments pathVec) with ([s] ++ segments pathVec). rewrite app_assoc.
    destruct (children nd !! s) as [c|] eqn:Hs.
    + apply IH; [done|]. apply walk_snoc. exists n, nd. split_and!; try done.
      by apply (wf_child kv Hwf n nd s c).
    + rewrite walk_app. destruct (walk (heap kv) root_ (p ++ [s])) as [m|] eqn:Hm; [|done].
      apply walk_snoc in Hm as (k & ndk & Hk & Hndk & Hc & _). rewrite Hp in Hk. injection Hk as <-.
      rewrite Hn in Hndk. injection Hndk as <-. by rewrite Hs in Hc.
Qed.

(** How [Delete] ends: it depends on the last piece of the split path. *)
Definition delete_outcome (pathVec : list bytes) (kv : MemKvStore) : result Error.ErrorCodes unit :=
  if bool_decide (last pathVec = Some [] \/ segments pathVec = []) then
    match lookup_path kv (segments pathVec) with
    | Some _ => Err Error.InvalidArgument
    | None => Ok tt
    end
  else Ok tt.

Lemma contents_below kv p q : lookup_path kv p = None -> p `prefix_of` q -> lookup_path kv q = None.
Proof.
  intros Hp [k ->]. destruct (lookup_path kv (p ++ k)) as [d|] eqn:Hd; [|done].
  apply lookup_path_Some in Hd as (m & nd & Hm & _). rewrite walk_app in Hm.
  destruct (walk (heap kv) root_ p) as [x|] eqn:Hx; [|done].
  assert (is_Some (lookup_path kv p)) as [d' Hd'] by (apply lookup_path_walk; by rewrite Hx).
  by rewrite Hp in Hd'.
Qed.

Lemma lookup_root kv : kv_wf kv -> is_Some (lookup_path kv []).
Proof. intros Hwf. apply lookup_path_walk. exists root_. apply walk_nil. split; [done|apply (wf_root kv Hwf)]. Qed.

(** The link to the node at [full] was removed, and nothing else changed. *)
Definition unlinked (kv : MemKvStore) (full : kv_path) (kv' : MemKvStore) : Prop :=
  exists p n nd s, full = p ++ [s] /\ walk (heap kv) root_ p = Some n /\ heap kv !! n = Some nd /\
    kv' = without_child kv n nd s.

(** The loop from the node at [p], for what is left of the path. *)
Lemma delete_loop_spec pathVec kv p n :
  kv_wf kv -> walk (heap kv) root_ p = Some n ->
  let full := p ++ segments pathVec in
  let stays := bool_decide (last pathVec = Some [] \/ segments pathVec = []) in
  exists kv', delete_loop pathVec n kv
      = ((if stays then match lookup_path kv full with
                        | Some _ => Err Error.InvalidArgument
                        | None => Ok tt
                        end
          else Ok tt), kv') /\ kv_wf kv' /\
    (kv' = kv \/ unlinked kv full kv') /\
    forall q, lookup_path kv' q
      = if stays then lookup_path kv q else spec_delete full (lookup_path kv) q.
Proof.
  revert p n. induction pathVec as [|s pathVec IH]; intros p n Hwf Hp; cbn [delete_loop]; cbv zeta.
  { exists kv. unfold segments. cbn. rewrite app_nil_r.
    assert (is_Some (lookup_path kv p)) as [d ->] by (apply lookup_path_walk; by rewrite Hp).
    rewrite bool_decide_eq_true_2 by naive_solver. by split_and!; [..|left|]. }
  rewrite segments_cons, len_zero. destruct (bool_decide_reflect (s = [])) as [Hs0|Hs0].
  { destruct (IH p n Hwf Hp) as (kv' & Hrun & Hwf' & Hl). subst s.
    assert (bool_decide (last ([] :: pathVec) = Some [] \/ segments pathVec = [])
            = bool_decide (last pathVec = Some [] \/ segments pathVec = [])) as ->.
    { apply bool_decide_ext. destruct pathVec as [|x pathVec]; [|done]. unfold segments. cbn. naive_solver. }
    by exists kv'. }
  destruct (walk_node _ _ _ _ Hp) as [nd Hn]. erewrite run_bind_ok by (by apply deref_ok).
  assert (forall c, walk (heap kv) root_ (p ++ [s]) = Some c <-> children nd !! s = Some c) as Hstep.
  { intros c. rewrite walk_snoc. split.
    - intros (k & ndk & Hk & Hndk & Hc & _). rewrite Hp in Hk. injection Hk as <-.
      rewrite Hn in Hndk. by injection Hndk as <-.
    - intros Hc. exists n, nd. split_and!; try done. by apply (wf_child kv Hwf n nd s c). }
  change (s :: segments pathVec) with ([s] ++ segments pathVec). rewrite app_assoc.
  destruct (children nd !! s) as [c|] eqn:Hs.
  - destruct pathVec as [|x pathVec].
    + exists (without_child kv n nd s). rewrite bool_decide_eq_false_2.
      2: { unfold segments. cbn. naive_solver. }
      unfold segments. cbn. rewrite app_nil_r.
      split_and!; [done|by apply without_child_wf|right; by exists p, n, nd, s|].
      intros q. by rewrite (without_child_contents kv p n nd s q).
    + destruct (IH (p ++ [s]) c Hwf) as (kv' & Hrun & Hwf' & Hl); [by apply Hstep|].
      exists kv'. cbv zeta in Hrun, Hl.
      assert (bool_decide (last (s :: x :: pathVec) = Some [] \/ [s] ++ segments (x :: pathVec) = [])
              = bool_decide (last (x :: pathVec) = Some [] \/ segments (x :: pathVec) = [])) as ->; [|done].
      apply bool_decide_ext. split; [naive_solver|]. intros [H|H]; [by left|]. left.
      assert (Forall (fun s => s = []) (x :: pathVec)) as Hall.
      { clear -H. revert H. generalize (x :: pathVec). intros l. induction l as [|y l IH]; [done|].
        rewrite segments_cons, len_zero. case_bool_decide; [|done]. intros H'. constructor; [done|auto]. }
      clear -Hall. change (last (s :: x :: pathVec)) with (last (x :: pathVec)).
      destruct (last (x :: pathVec)) as [y|] eqn:Hy; [|by apply last_None in Hy].
      apply last_Some_elem_of in Hy. rewrite Forall_forall in Hall. by rewrite (Hall y Hy).
  - assert (lookup_path kv (p ++ [s]) = None) as Hnone.
    { destruct (lookup_path kv (p ++ [s])) as [d|] eqn:Hd; [|done].
      apply lookup_path_Some in Hd as (m & _ & Hm & _). by apply Hstep in Hm. }
    assert (lookup_path kv ((p ++ [s]) ++ segments pathVec) = None) as Hfull
      by (eapply contents_below; [exact Hnone|by exists (segments pathVec)]).
    clear IH. exists kv. rewrite Hfull. split_and!; [by case_match|done|by left|]. intros q. case_bool_decide; [done|].
    unfold spec_delete. case_decide as Hq; [|done]. by apply (contents_below kv _ q Hfull).
Qed.

(** ** Theorems *)

Section theorems.
Context (K : KvLib).

Lemma validated_ok path v kv : validatePath path = Ok v -> validated path kv = (Ok v, kv).
Proof. unfold validated. by intros ->. Qed.

Lemma root_walk kv : kv_wf kv -> walk (heap kv) root_ [] = Some root_.
Proof. intros Hwf. apply walk_nil. split; [done|apply (wf_root kv Hwf)]. Qed.

Lemma Write_ok path value pathVec kv :
  kv_wf kv -> validatePath path = Ok pathVec ->
  exists kv', Write path value kv = (Ok tt, kv') /\ kv_wf kv' /\
    forall q, lookup_path kv' q = spec_write (segments pathVec) value (lookup_path kv) q.
Proof.
  intros Hwf Hv. unfold Write. erewrite run_bind_ok by (by apply validated_ok).
  destruct (write_loop_spec pathVec kv [] root_ Hwf (root_walk kv Hwf)) as (c & kv1 & Hrun & Hwf1 & Hw & Hl).
  cbn [app] in *. erewrite run_bind_ok by done. destruct (walk_node _ _ _ _ Hw) as [nd Hn].
  erewrite run_bind_ok by (by apply deref_ok).
  exists (with_data kv1 c nd value). split_and!; [done|by apply with_data_wf|]. intros q.
  rewrite (with_data_contents kv1 (segments pathVec) c nd value q) by done. unfold spec_write.
  case_decide; [done|]. apply Hl.
Qed.

Lemma Get_ok path pathVec kv :
  kv_wf kv -> validatePath path = Ok pathVec ->
  Get path kv = (match lookup_path kv (segments pathVec) with
                 | Some d => Ok d
                 | None => Err Error.NodeNotExist
                 end, kv).
Proof.
  intros Hwf Hv. unfold Get. erewrite run_bind_ok by (by apply validated_ok).
  pose proof (get_loop_spec pathVec kv [] root_ Hwf (root_walk kv Hwf)) as Hg. cbn [app] in Hg.
  unfold lookup_path. destruct (walk (heap kv) root_ (segments pathVec)) as [m|] eqn:Hm.
  - erewrite run_bind_ok by done. destruct (walk_node _ _ _ _ Hm) as [nd Hn].
    erewrite run_bind_ok by (by apply deref_ok). cbn. by rewrite Hn.
  - by apply run_bind_err.
Qed.

Lemma Delete_ok path pathVec kv :
  kv_wf kv -> validatePath path = Ok pathVec ->
  exists kv', Delete path kv = (delete_outcome pathVec kv, kv') /\ kv_wf kv' /\
    forall q, lookup_path kv' q
      = if bool_decide (last pathVec = Some [] \/ segments pathVec = []) then lookup_path kv q
        else spec_delete (segments pathVec) (lookup_path kv) q.
Proof.
  intros Hwf Hv. unfold Delete. erewrite run_bind_ok by (by apply validated_ok).
  destruct (delete_loop_spec pathVec kv [] root_ Hwf (root_walk kv Hwf)) as (kv' & ? & ? & _ & ?).
  by exists kv'.
Qed.

Lemma bad_path {A} path e (k : list bytes -> KvM A) kv :
  validatePath path = Err e -> (validated path ≫= k) kv = (Err e, kv).
Proof. intros Hv. apply run_bind_err. unfold validated. by rewrite Hv. Qed.

(** C14: [MemKvStore::Write] implements the map from paths to data: it keeps the tree well formed,
    sets the data of the path, creates its missing ancestors with empty data and changes nothing
    else; an empty path or one with a NUL is refused and changes nothing. *)
Theorem memkv_write path value kv :
  kv_wf kv ->
  match validatePath path with
  | Ok pathVec => exists kv', Write path value kv = (Ok tt, kv') /\ kv_wf kv' /\
      forall q, lookup_path kv' q = spec_write (segments pathVec) value (lookup_path kv) q
  | Err e => e = Error.InvalidArgument /\ Write path value kv = (Err e, kv)
  | Halt _ => False
  end.
Proof.
  intros Hwf. destruct (validatePath path) as [pathVec|e|h] eqn:Hv.
  - by apply Write_ok.
  - split; [|by apply bad_path]. unfold validatePath in Hv. repeat case_match; by simplify_eq.
  - unfold validatePath in Hv. repeat case_match; by simplify_eq.
Qed.

(** [MemKvStore::Get] returns the data of the path, whatever the number of slashes it is
    written with, or [NodeNotExist], and changes nothing. *)
Theorem memkv_get path kv :
  kv_wf kv ->
  Get path kv = (match validatePath path with
                 | Ok pathVec => match lookup_path kv (segments pathVec) with
                                 | Some d => Ok d
                                 | None => Err Error.NodeNotExist
                                 end
                 | Err e => Err e
                 | Halt h => Halt h
                 end, kv).
Proof.
  intros Hwf. destruct (validatePath path) as [pathVec|e|h] eqn:Hv.
  - by apply Get_ok.
  - by apply bad_path.
  - unfold validatePath in Hv. repeat case_match; by simplify_eq.
Qed.

(** C38: [MemKvStore::Delete] removes the path and everything below it when the path does not end
    in a slash; a path that exists and ends in a slash, the root included, is refused with
    [InvalidArgument] and nothing is removed; a path that does not exist is OK. *)
Theorem memkv_delete path kv :
  kv_wf kv ->
  match validatePath path with
  | Ok pathVec => exists kv', Delete path kv = (delete_outcome pathVec kv, kv') /\ kv_wf kv' /\
      forall q, lookup_path kv' q
        = if bool_decide (last pathVec = Some [] \/ segments pathVec = []) then lookup_path kv q
          else spec_delete (segments pathVec) (lookup_path kv) q
  | Err e => e = Error.InvalidArgument /\ Delete path kv = (Err e, kv)
  | Halt _ => False
  end.
Proof.
  intros Hwf. destruct (validatePath path) as [pathVec|e|h] eqn:Hv.
  - by apply Delete_ok.
  - split; [|by apply bad_path]. unfold validatePath in Hv. repeat case_match; by simplify_eq.
  - unfold validatePath in Hv. repeat case_match; by simplify_eq.
Qed.

(** [Delete] leaks: the node of the path stays on the heap, and no path leads to it any more,
    so no later call and no destructor can free it. *)
Theorem memkv_delete_leaks path kv pathVec c :
  kv_wf kv -> validatePath path = Ok pathVec -> last pathVec <> Some [] ->
  walk (heap kv) root_ (segments pathVec) = Some c -> c <> root_ ->
  exists kv', Delete path kv = (Ok tt, kv') /\ is_Some (heap kv' !! c) /\
    forall q, walk (heap kv') root_ q <> Some c.
Proof.
  intros Hwf Hv Hlast Hc Hne. unfold Delete. erewrite run_bind_ok by (by apply validated_ok).
  destruct (delete_loop_spec pathVec kv [] root_ Hwf (root_walk kv Hwf)) as (kv' & Hrun & _ & Hcase & Hl).
  cbn [app] in *.
  assert (segments pathVec <> []) as Hseg.
  { intros He. rewrite He in Hc. apply walk_nil in Hc as [-> _]. done. }
  rewrite bool_decide_eq_false_2 in Hrun, Hl by naive_solver. exists kv'. split; [done|].
  destruct Hcase as [->|(p & n & nd & s & Hfull & Hp & Hn & ->)].
  - specialize (Hl (segments pathVec)). unfold spec_delete in Hl. rewrite decide_True in Hl by done.
    assert (is_Some (lookup_path kv (segments pathVec))) as [d Hd] by (apply lookup_path_walk; by rewrite Hc).
    by rewrite Hl in Hd.
  - destruct (walk_node _ _ _ _ Hc) as [nc Hnc]. split.
    + destruct (decide (c = n)) as [->|]; eexists; apply (without_child_lookup kv n nd s); [done|by left|done|by right].
    + intros q Hq. apply (without_child_walk kv p n nd s) in Hq as [Hq Hnp]; try done.
      apply Hnp. rewrite <- Hfull. by rewrite (walk_inj kv q (segments pathVec) c).
Qed.

(** *** Paths as text *)

Lemma join_cons sep s segs : segs <> [] -> join sep (s :: segs) = s ++ sep :: join sep segs.
Proof. by destruct segs. Qed.

Lemma no_sep_app_inj sep (a b x y : bytes) :
  sep ∉ a -> sep ∉ b -> a ++ sep :: x = b ++ sep :: y -> a = b /\ x = y.
Proof.
  revert b. induction a as [|c a IH]; intros [|d b] Ha Hb He; cbn in He; simplify_eq; [done| | |].
  - by rewrite not_elem_of_cons in Hb; destruct Hb.
  - by rewrite not_elem_of_cons in Ha; destruct Ha.
  - rewrite not_elem_of_cons in Ha, Hb. destruct (IH b) as [-> ->]; naive_solver.
Qed.

(** Splitting is determined by its pieces: they have no separator and join to the text. *)
Lemma join_inj sep (segs segs' : list bytes) :
  segs <> [] -> segs' <> [] ->
  Forall (fun seg => sep ∉ seg) segs -> Forall (fun seg => sep ∉ seg) segs' ->
  join sep segs = join sep segs' -> segs = segs'.
Proof.
  intros Hne Hne' Hs. revert segs' Hne'. induction Hs as [|s segs Hs Hsegs IH]; [done|].
  intros [|s' segs'] Hne' Hs' He; [done|]. apply Forall_cons in Hs' as [Hs' Hsegs'].
  destruct segs as [|x segs], segs' as [|x' segs'].
  - cbn in He. by subst.
  - rewrite (join_cons _ s' (x' :: segs')) in He by done. cbn [join] in He. subst s.
    exfalso. apply Hs, elem_of_app. right. by left.
  - rewrite (join_cons _ s (x :: segs)) in He by done. cbn [join] in He. subst s'.
    exfalso. apply Hs', elem_of_app. right. by left.
  - rewrite !join_cons in He by done. apply no_sep_app_inj in He as [-> He]; [|done..].
    by rewrite (IH ltac:(done) (x' :: segs')).
Qed.

Lemma split_join sep (segs : list bytes) `{!KvLibSpec K} :
  segs <> [] -> Forall (fun seg => sep ∉ seg) segs -> boost_split sep (join sep segs) = segs.
Proof.
  intros Hne Hs. apply (join_inj sep); [apply boost_split_nonempty|done|apply boost_split_no_sep|done|].
  apply boost_split_join.
Qed.

(** A path as a client writes it: segments, some of them possibly empty, between slashes. *)
Definition spelling (segs : list bytes) (path : bytes) : Prop :=
  slice_TrimSpace path = join slash segs /\ join slash segs <> [] /\ 0 ∉ join slash segs /\
  Forall (fun seg => slash ∉ seg) segs.

Lemma validatePath_spelling `{!KvLibSpec K} segs path :
  spelling segs path -> validatePath path = Ok segs.
Proof.
  intros (Ht & Hne & H0 & Hs). unfold validatePath. rewrite Ht. cbv zeta.
  destruct (Z.eqb_spec (len (join slash segs)) 0) as [Hl|_].
  { unfold len in Hl. by destruct (join slash segs). }
  rewrite bool_decide_eq_false_2 by done. rewrite split_join; try done; by intros ->.
Qed.

(** two spellings of one path, with any surplus of slashes at the front, in the middle and at
    the end, name the same node: what [Write] stores under one, [Get] returns under the other. *)
Theorem memkv_spellings `{!KvLibSpec K} segs segs' path path' value kv :
  kv_wf kv -> spelling segs path -> spelling segs' path' -> segments segs = segments segs' ->
  exists kv', Write path value kv = (Ok tt, kv') /\ Get path' kv' = (Ok value, kv').
Proof.
  intros Hwf Hs%validatePath_spelling Hs'%validatePath_spelling Heq.
  destruct (Write_ok path value segs kv Hwf Hs) as (kv' & Hrun & Hwf' & Hl). exists kv'. split; [done|].
  rewrite (Get_ok path' segs' kv' Hwf' Hs'), Hl, Heq. unfold spec_write. by rewrite decide_True.
Qed.
End theorems.

(** ** The destructor *)

(** [m] lies in the tree below [n]. *)
Definition below_node (h : gmap Z Node) (n m : Z) : Prop := exists p, walk h n p = Some m.

(** Freeing the nodes [D] from [h] gives [h']. *)
Definition freed (h : gmap Z Node) (D : Z -> Prop) (h' : gmap Z Node) : Prop :=
  forall m, (D m -> h' !! m = None) /\ (~ D m -> h' !! m = h !! m).

Lemma below_step kv n nd m :
  heap kv !! n = Some nd ->
  below_node (heap kv) n m <->
  m = n \/ exists s c, children nd !! s = Some c /\ below_node (heap kv) c m.
Proof.
  intros Hn. split.
  - intros [[|s p] Hp]; [apply walk_nil in Hp as [-> _]; by left|]. cbn in Hp. rewrite Hn in Hp. cbn in Hp.
    destruct (children nd !! s) as [c|] eqn:Hs; [|done]. right. exists s, c. split; [done|by exists p].
  - intros [->|(s & c & Hs & p & Hp)].
    + exists []. apply walk_nil. by rewrite Hn.
    + exists (s :: p). cbn. rewrite Hn. cbn. by rewrite Hs.
Qed.

(** Subtrees of different children do not meet, and the parent is in none of them. *)
Lemma below_disjoint kv pn n nd s s' c c' m :
  kv_wf kv -> walk (heap kv) root_ pn = Some n -> heap kv !! n = Some nd ->
  children nd !! s = Some c -> children nd !! s' = Some c' ->
  below_node (heap kv) c m -> below_node (heap kv) c' m -> s = s'.
Proof.
  intros Hwf Hpn Hn Hs Hs' [p Hp] [p' Hp'].
  assert (pn ++ s :: p = pn ++ s' :: p') as He.
  { apply (walk_inj kv _ _ m Hwf); rewrite walk_app, Hpn; cbn; rewrite Hn; cbn; by rewrite ?Hs, ?Hs'. }
  apply app_inv_head in He. by injection He.
Qed.

Lemma below_above kv n m : kv_wf kv -> below_node (heap kv) n m -> n <= m.
Proof. intros Hwf [p Hp]. by apply (walk_mono kv p n m Hwf) in Hp as [? _]. Qed.

Lemma delete_Node_spec kv0 fuel pn n h nx :
  kv_wf kv0 -> walk (heap kv0) root_ pn = Some n -> next_addr kv0 - n <= Z.of_nat fuel ->
  (forall m, below_node (heap kv0) n m -> h !! m = heap kv0 !! m) ->
  exists h', delete_Node fuel n (MkMemKvStore h nx) = (Ok tt, MkMemKvStore h' nx) /\
    freed h (below_node (heap kv0) n) h'.
Proof.
  intros Hwf. revert pn n h. induction fuel as [|fuel IH]; intros pn n h Hpn Hfuel Hsub;
    destruct (walk_node _ _ _ _ Hpn) as [nd Hn]; pose proof (wf_addr kv0 Hwf n nd Hn); [lia|].
  pose proof (fun m => below_step kv0 n nd m Hn) as Hstep. cbn [delete_Node].
  assert (h !! n = Some nd) as Hhn by (rewrite Hsub; [done|apply Hstep; by left]).
  erewrite run_bind_ok by (by apply deref_ok).
  set (go := fix go (cs : list Z) : KvM unit :=
             match cs with [] => mret tt | c :: cs => _ ← delete_Node fuel c; go cs end).
  assert (forall l h1, NoDup l -> (forall s c, (s, c) ∈ l -> children nd !! s = Some c) ->
    (forall s c m, (s, c) ∈ l -> below_node (heap kv0) c m -> h1 !! m = heap kv0 !! m) ->
    exists h2, go (snd <$> l) (MkMemKvStore h1 nx) = (Ok tt, MkMemKvStore h2 nx) /\
      freed h1 (fun m => exists s c, (s, c) ∈ l /\ below_node (heap kv0) c m) h2) as Hgo.
  { induction l as [|[s c] l IHl]; intros h1 Hnd Hch Hh1.
    - exists h1. split; [done|]. intros m. split; [|done]. intros (s & c & Hin & _). by apply elem_of_nil in Hin.
    - apply NoDup_cons in Hnd as [Hni Hnd]. assert (children nd !! s = Some c) as Hsc by (apply Hch; by left).
      destruct (wf_child kv0 Hwf n nd s c Hn Hsc) as [Hlt Hc].
      destruct (IH (pn ++ [s]) c h1) as (h2 & Hrun & Hfr).
      { apply walk_snoc. by exists n, nd. }
      { lia. }
      { intros m Hm. apply (Hh1 s c); [by left|done]. }
      destruct (IHl h2) as (h3 & Hrun3 & Hfr3); [done|intros s' c' Hin; apply Hch; by right| |].
      { intros s' c' m Hin Hm. destruct (Hfr m) as [_ Hk]. rewrite Hk; [apply (Hh1 s' c'); [by right|done]|].
        intros Hm'. assert (children nd !! s' = Some c') as Hsc' by (apply Hch; by right).
        assert (s = s') as <- by exact (below_disjoint kv0 pn n nd s s' c c' m Hwf Hpn Hn Hsc Hsc' Hm' Hm).
        rewrite Hsc in Hsc'. by injection Hsc' as <-. }
      exists h3. split; [cbn; by erewrite run_bind_ok by done|]. intros m.
      destruct (Hfr m) as [F1 F2], (Hfr3 m) as [G1 G2]. split.
      + intros (s' & c' & [[= -> ->]|Hin]%elem_of_cons & Hm); [|apply G1; by exists s', c'].
        destruct (h3 !! m) as [x|]; [exfalso|done].
        enough (Some x = None) by done. rewrite G2; [by apply F1|]. intros He. by specialize (G1 He).
      + intros Hno. rewrite G2, F2; [done|..].
        * intros Hm. apply Hno. exists s, c. split; [by left|done].
        * intros (s' & c' & Hin & Hm). apply Hno. exists s', c'. split; [by right|done]. }
  destruct (Hgo (map_to_list (children nd)) h) as (h2 & Hrun & Hfr).
  { apply NoDup_map_to_list. }
  { intros s c Hin. by apply elem_of_map_to_list. }
  { intros s c m Hin Hm. apply Hsub, Hstep. right. exists s, c. split; [by apply elem_of_map_to_list|done]. }
  erewrite run_bind_ok by exact Hrun. exists (delete n h2). split; [done|]. intros m.
  rewrite Hstep. setoid_rewrite <- elem_of_map_to_list. destruct (Hfr m) as [F1 F2]. split.
  - intros [->|Hm]; [apply lookup_delete_eq|]. rewrite lookup_delete_None. right. by apply F1.
  - intros Hno. rewrite lookup_delete_ne by naive_solver. apply F2. naive_solver.
Qed.

(** destroying the store always ends, frees every node a path leads to exactly once, and frees
    nothing else: the nodes that [Delete] unlinked remain. *)
Theorem memkv_destroy kv :
  kv_wf kv ->
  exists kv', delete_MemKvStore kv = (Ok tt, kv') /\
    forall n, ((exists p, walk (heap kv) root_ p = Some n) -> heap kv' !! n = None) /\
      (~ (exists p, walk (heap kv) root_ p = Some n) -> heap kv' !! n = heap kv !! n).
Proof.
  intros Hwf. unfold delete_MemKvStore. erewrite (run_bind_ok (gets _)) by done.
  destruct (wf_root kv Hwf) as [nr Hr]. pose proof (wf_addr kv Hwf _ _ Hr).
  destruct (delete_Node_spec kv (Z.to_nat (next_addr kv)) [] root_ (heap kv) (next_addr kv) Hwf)
    as (h' & Hrun & Hfr); [apply walk_nil; by rewrite Hr|unfold root_; lia|done|].
  exists (MkMemKvStore h' (next_addr kv)). split; [by destruct kv|]. exact Hfr.
Qed.
