(* ===== verification/Channel.v ===== *)
(** * Waiting for another thread: [src/include/consensus/base/simple_channel.h]

    [SimpleChannel] and [Barrier] wrap a [std::promise] and its [std::future].  The shared state
    of the pair is a value; what the standard says of each call on it is the result: setting a
    value twice throws [future_error], waiting on a future whose value was taken is undefined,
    and waiting for a value that is not there yet blocks. *)

From S2P Require Import Prelude.

(** ** Promise and future

    The two members of a channel, as the state they share. *)

Inductive SimpleChannel (V : Type) :=
  | Pending
  | Satisfied (v : V)
  | Retrieved
  (** The promise and the future were moved into another object. *)
  | Moved.
Arguments Pending {V}.
Arguments Satisfied {V} v.
Arguments Retrieved {V}.
Arguments Moved {V}.

(** The outcome of a call: [Blocked] leaves the caller waiting. *)
Inductive call_result (A : Type) := Done (a : A) | Blocked | Dies (h : halt).
Arguments Done {A} a.
Arguments Blocked {A}.
Arguments Dies {A} h.

Definition set_value {V} (v : V) (c : SimpleChannel V) : call_result (SimpleChannel V) :=
  match c with
  | Pending => Done (Satisfied v)
  | Satisfied _ | Retrieved | Moved => Dies Uncaught
  end.

Definition future_wait {V} (c : SimpleChannel V) : call_result (SimpleChannel V) :=
  match c with
  | Pending => Blocked
  | Satisfied _ => Done c
  | Retrieved | Moved => Dies Undefined
  end.

(** [future.get()] takes the value and leaves the future without a state. *)
Definition future_get {V} (c : SimpleChannel V) : call_result (V * SimpleChannel V) :=
  match c with
  | Pending => Blocked
  | Satisfied v => Done (v, Retrieved)
  | Retrieved | Moved => Dies Undefined
  end.

(** ** [SimpleChannel] *)

Definition new_SimpleChannel {V} : SimpleChannel V := Pending.

(** The move constructor: the new channel and what is left of the old one. *)
Definition move_SimpleChannel {V} (chan : SimpleChannel V) : SimpleChannel V * SimpleChannel V := (chan, Moved).

(** [channel <<= value]. *)
Definition channel_send {V} (c : SimpleChannel V) (value : V) : call_result (SimpleChannel V) :=
  set_value value c.

(** [channel >>= value]. *)
Definition channel_receive {V} (c : SimpleChannel V) : call_result (V * SimpleChannel V) :=
  match future_wait c with
  | Done c => future_get c
  | Blocked => Blocked
  | Dies h => Dies h
  end.

(** ** [Barrier] *)

Definition Barrier : Type := SimpleChannel unit.

Definition new_Barrier : Barrier := Pending.

Definition Signal (b : Barrier) : call_result Barrier := set_value tt b.

Definition Wait (b : Barrier) : call_result Barrier := future_wait b.

(** ** Properties *)

(** A value sent is the value received, and only once. *)
Lemma channel_roundtrip {V} (v : V) :
  exists c, channel_send new_SimpleChannel v = Done c /\ channel_receive c = Done (v, Retrieved).
Proof. by exists (Satisfied v). Qed.

(** The receiver waits exactly as long as nothing was sent. *)
Lemma channel_receive_blocked {V} (c : SimpleChannel V) : channel_receive c = Blocked <-> c = Pending.
Proof. by destruct c. Qed.

(** A sender never overwrites a value. *)
Lemma channel_send_once {V} (c c' : SimpleChannel V) v :
  channel_send c v = Done c' -> c = Pending /\ c' = Satisfied v /\ forall w, channel_send c' w = Dies Uncaught.
Proof. destruct c; cbn; [|done..]. by intros [= <-]. Qed.
