(* ===== verification/TaskQueue.v ===== *)
(** * The background thread and its queue: [src/base/background_worker.cc], [src/base/task_queue.cc]

    Both classes start a thread.  The model is a system of steps: each step is one action of one
    thread on the shared state, and a schedule, a list of steps, is one interleaving.  Tasks are
    opaque here: what they do to the rest of the process is in [Node.v]. *)

From S2P Require Import Prelude Status.

(** ** [BackgroundWorker] *)

(** Where the thread is: before the test of [stopped_], inside [recurringTask], or at its end. *)
Inductive loop_pc := AtTest | InTask | Exited.

#[global] Instance loop_pc_eq_dec : EqDecision loop_pc.
Proof. solve_decision. Defined.

(** [bgWorkerThread_] is joinable when a thread was started and not joined. *)
Record BackgroundWorker := MkBackgroundWorker {
  bgWorkerThread_ : option loop_pc;
  stopped_ : bool;
}.

Definition new_BackgroundWorker : BackgroundWorker := MkBackgroundWorker None true.

Definition joinable (w : BackgroundWorker) : bool :=
  match bgWorkerThread_ w with Some _ => true | None => false end.

(** [recurringTask] converts to [true] when it has a target. *)
Definition StartLoop (has_target : bool) : Prog ErrorCode BackgroundWorker unit :=
  started ← gets joinable;
  if (started : bool) then fail RuntimeError
  else if negb has_target then fail InvalidArgument
  else modify (fun _ => MkBackgroundWorker (Some AtTest) false).

(** [Stop] up to the call of [join]. *)
Definition Stop_store : Prog ErrorCode BackgroundWorker unit :=
  started ← gets joinable;
  if negb started then fail RuntimeError
  else modify (fun w => MkBackgroundWorker (bgWorkerThread_ w) true).

(** [join]: it returns once the thread has ended. *)
Definition Stop_join (w : BackgroundWorker) : option BackgroundWorker :=
  match bgWorkerThread_ w with
  | Some Exited => Some (MkBackgroundWorker None (stopped_ w))
  | _ => None
  end.

Definition Stopped (w : BackgroundWorker) : bool := stopped_ w.

(** [~BackgroundWorker]: the destructor of a joinable thread terminates the process. *)
Definition delete_BackgroundWorker : Prog ErrorCode BackgroundWorker unit :=
  started ← gets joinable;
  if (started : bool) then halt_with Uncaught else mret tt.

(** One test of the loop condition by the thread. *)
Definition worker_test (w : BackgroundWorker) : option BackgroundWorker :=
  match bgWorkerThread_ w with
  | Some AtTest => Some (MkBackgroundWorker (Some (if stopped_ w then Exited else InTask)) (stopped_ w))
  | _ => None
  end.

(** [recurringTask] returns. *)
Definition worker_task_done (w : BackgroundWorker) : option BackgroundWorker :=
  match bgWorkerThread_ w with
  | Some InTask => Some (MkBackgroundWorker (Some AtTest) (stopped_ w))
  | _ => None
  end.

(** ** [TaskQueue] *)

(** Whether the queue is in use, its destructor waits in [join], or it is gone. *)
Inductive owner_pc := Alive | Joining | Destroyed.

Section queue.
Context {T : Type}.

(** A task, with the thread that enqueued it. *)
Abbreviation item := (Z * T)%type.

(** What [wait_dequeue_timed] of [moodycamel::BlockingConcurrentQueue] hands out is up to the
    library: the schedule chooses any element, by its position, or that the call times out.  No
    order is assumed, so every theorem holds for every order in which the library serves its
    producers. *)
Definition dequeue (i : nat) (q : list item) : option (item * list item) :=
  x ← q !! i; Some (x, delete i q).

Record TaskQueue := MkTaskQueue {
  queue_ : list item;
  worker_ : BackgroundWorker;
  (** the local variable [task] of the loop body, between [wait_dequeue_timed] and [task()] *)
  task_ : option item;
  owner : owner_pc;
}.

Definition Enqueue (p : Z) (task : T) (tq : TaskQueue) : TaskQueue :=
  MkTaskQueue (queue_ tq ++ [(p, task)]) (worker_ tq) (task_ tq) (owner tq).

(** The constructor and [Start]. *)
Definition new_TaskQueue : result ErrorCode TaskQueue :=
  match fatal_not_ok (StartLoop true) new_BackgroundWorker with
  | (Ok _, w) => Ok (MkTaskQueue [] w None Alive)
  | (Err e, _) => Err e
  | (Halt h, _) => Halt h
  end.

(** The steps of the threads that use the queue. *)
Inductive queue_step :=
  | DoEnqueue (p : Z) (task : T)
  (** the worker thread *)
  | DoTest
  | DoTimeout
  | DoTake (i : nat)
  | DoRun
  (** the destructor *)
  | DoStop
  | DoJoin.

(** One step: [None] when it cannot be taken, otherwise the new state and the task that ran. *)
Definition step (c : queue_step) (tq : TaskQueue) : option (TaskQueue * list item) :=
  let put_worker w := MkTaskQueue (queue_ tq) w (task_ tq) (owner tq) in
  match c with
  | DoEnqueue p t =>
      match owner tq with
      | Alive => Some (Enqueue p t tq, [])
      | _ => None
      end
  | DoTest => w ← worker_test (worker_ tq); Some (put_worker w, [])
  | DoTimeout =>
      match task_ tq with
      | None => w ← worker_task_done (worker_ tq); Some (put_worker w, [])
      | Some _ => None
      end
  | DoTake i =>
      match task_ tq, bgWorkerThread_ (worker_ tq) with
      | None, Some InTask =>
          '(x, q) ← dequeue i (queue_ tq);
          Some (MkTaskQueue q (worker_ tq) (Some x) (owner tq), [])
      | _, _ => None
      end
  | DoRun =>
      match task_ tq with
      | Some x =>
          w ← worker_task_done (worker_ tq);
          Some (MkTaskQueue (queue_ tq) w None (owner tq), [x])
      | None => None
      end
  | DoStop =>
      match owner tq with
      | Alive =>
          match fatal_not_ok Stop_store (worker_ tq) with
          | (Ok _, w) => Some (MkTaskQueue (queue_ tq) w (task_ tq) Joining, [])
          | _ => None
          end
      | _ => None
      end
  | DoJoin =>
      match owner tq with
      | Joining =>
          w ← Stop_join (worker_ tq);
          Some (MkTaskQueue (queue_ tq) w (task_ tq) Destroyed, [])
      | _ => None
      end
  end.

(** A schedule, and the tasks that ran in it, oldest first. *)
Fixpoint run (cs : list queue_step) (tq : TaskQueue) : option (TaskQueue * list item) :=
  match cs with
  | [] => Some (tq, [])
  | c :: cs =>
      '(tq1, ran1) ← step c tq;
      '(tq2, ran2) ← run cs tq1;
      Some (tq2, ran1 ++ ran2)
  end.
End queue.
Arguments TaskQueue T : clear implicits.
Arguments queue_step T : clear implicits.

(** ** [BackgroundWorker] on its own *)

(** [StartLoop] starts a thread exactly when none is running and the task has a target,
    [Stop] stops exactly a running one, both report [RuntimeError] otherwise and then change
    nothing; a stopped worker can be started again, and destroying a running one ends the
    process. *)
Theorem background_worker_calls w target :
  (joinable w = true ->
     StartLoop target w = (Err RuntimeError, w) /\
     Stop_store w = (Ok tt, MkBackgroundWorker (bgWorkerThread_ w) true) /\
     delete_BackgroundWorker w = (Halt Uncaught, w)) /\
  (joinable w = false ->
     StartLoop target w = (if target then (Ok tt, MkBackgroundWorker (Some AtTest) false)
                           else (Err InvalidArgument, w)) /\
     Stop_store w = (Err RuntimeError, w) /\
     delete_BackgroundWorker w = (Ok tt, w)) /\
  (forall w', Stop_join w = Some w' -> joinable w' = false /\ Stopped w' = Stopped w).
Proof.
  destruct w as [[pc|] s]; (split; [|split]); try done.
  - intros w'. unfold Stop_join. cbn. destruct pc; [done|done|]. by intros [= <-].
  - intros _. by destruct target.
Qed.

(** ** Schedules *)

Section theorems.
Context {T : Type}.
Abbreviation item := (Z * T)%type.

(** What a schedule enqueued. *)
Definition enqueued (cs : list (queue_step T)) : list item :=
  omap (fun c => match c with DoEnqueue p t => Some (p, t) | _ => None end) cs.

(** The state of the thread that goes with the state of the owner. *)
Definition queue_inv (tq : TaskQueue T) : Prop :=
  match owner tq with
  | Alive => stopped_ (worker_ tq) = false /\
      (bgWorkerThread_ (worker_ tq) = Some AtTest \/ bgWorkerThread_ (worker_ tq) = Some InTask)
  | Joining => stopped_ (worker_ tq) = true /\ joinable (worker_ tq) = true
  | Destroyed => stopped_ (worker_ tq) = true /\ bgWorkerThread_ (worker_ tq) = None
  end /\
  (is_Some (task_ tq) -> bgWorkerThread_ (worker_ tq) = Some InTask).

Lemma new_queue : exists tq, new_TaskQueue = Ok tq /\ queue_inv tq /\ queue_ tq = [] /\ task_ tq = None /\
    owner tq = Alive.
Proof. eexists. split_and!; [done| |done..]. split; [split; [done|by left]|]. by intros [? ?]. Qed.

Lemma stop_running pc s :
  fatal_not_ok Stop_store (MkBackgroundWorker (Some pc) s) = (Ok tt, MkBackgroundWorker (Some pc) true).
Proof. done. Qed.

Lemma step_inv c tq tq' ran : queue_inv tq -> step c tq = Some (tq', ran) -> queue_inv tq'.
Proof.
  intros [Ho Ht] Hs. destruct tq as [q [th s] tk o]. cbn in Ho, Ht.
  destruct c; cbn in Hs; destruct th as [[]|]; rewrite ?stop_running in Hs; cbn in Hs; try done;
    destruct o; cbn in Ho, Hs; try done;
    destruct tk as [x|]; try (by specialize (Ht ltac:(eauto))); try done;
    destruct Ho as [-> Ho]; cbn in Hs;
    try (destruct (dequeue i q) as [[y q']|]; cbn in Hs; [|done]);
    simplify_eq; (split; [cbn; naive_solver|]); cbn; done || by intros [? ?].
Qed.

Lemma run_inv cs tq tq' ran : queue_inv tq -> run cs tq = Some (tq', ran) -> queue_inv tq'.
Proof.
  revert tq ran. induction cs as [|c cs IH]; intros tq ran Hi Hr; [by cbn in Hr; simplify_eq|].
  cbn in Hr. destruct (step c tq) as [[tq1 ran1]|] eqn:Hs; [|done]. cbn in Hr.
  destruct (run cs tq1) as [[tq2 ran2]|] eqn:Hr'; [|done]. cbn in Hr. simplify_eq.
  apply (IH tq1 ran2); [by eapply step_inv|done].
Qed.

Lemma dequeue_perm i q x (q' : list item) : dequeue i q = Some (x, q') -> x :: q' ≡ₚ q.
Proof.
  unfold dequeue. destruct (q !! i) as [y|] eqn:Hy; [|done]. cbn. intros [= <- <-]. symmetry. by apply delete_Permutation.
Qed.

(** The tasks under way: the one in the loop body, then the queue. *)
Definition waiting (tq : TaskQueue T) : list item := from_option (fun x => [x]) [] (task_ tq) ++ queue_ tq.

Lemma step_counts c tq tq' ran :
  step c tq = Some (tq', ran) -> waiting tq ++ enqueued [c] ≡ₚ ran ++ waiting tq'.
Proof.
  intros Hs. destruct tq as [q [th s] tk o].
  destruct c as [p' t| | |i| | |]; cbn in Hs; destruct th as [[]|];
    rewrite ?stop_running in Hs; cbn in Hs; try done;
    destruct o; try done; destruct tk as [x|]; try done;
    try (destruct (dequeue i q) as [[y q']|] eqn:Hd; cbn in Hs; [|done]);
    simplify_eq; unfold waiting, enqueued; cbn; rewrite ?app_nil_r, ?app_assoc; try done;
    by rewrite (dequeue_perm _ _ _ _ Hd).
Qed.

Lemma run_counts cs tq tq' ran :
  run cs tq = Some (tq', ran) -> waiting tq ++ enqueued cs ≡ₚ ran ++ waiting tq'.
Proof.
  revert tq ran. induction cs as [|c cs IH]; intros tq ran Hr; cbn in Hr.
  - simplify_eq. by rewrite app_nil_r.
  - destruct (step c tq) as [[tq1 ran1]|] eqn:Hs; [|done]. cbn in Hr.
    destruct (run cs tq1) as [[tq2 ran2]|] eqn:Hr'; [|done]. cbn in Hr. simplify_eq.
    assert (enqueued (c :: cs) = enqueued [c] ++ enqueued cs) as -> by apply (omap_app _ [c] cs).
    by rewrite app_assoc, (step_counts _ _ _ _ Hs), <- !app_assoc, (IH _ _ Hr').
Qed.

(** Under every schedule and every order of the queue, the tasks that ran, the one being run and
    those still queued are together exactly the tasks that were enqueued: none is lost, none runs
    twice, none is made up. *)
Theorem task_queue_runs_once tq0 cs tq ran :
  new_TaskQueue = Ok tq0 -> run cs tq0 = Some (tq, ran) -> enqueued cs ≡ₚ ran ++ waiting tq.
Proof. intros [= <-] Hr. by apply run_counts in Hr. Qed.

(** A step of the worker that runs nothing loses nothing. *)
Lemma step_control c (tq tq' : TaskQueue T) ran :
  (match c with DoTest | DoTimeout | DoTake _ => True | _ => False end) -> step c tq = Some (tq', ran) ->
  waiting tq' ≡ₚ waiting tq /\ owner tq' = owner tq /\ (forall x, task_ tq = Some x -> task_ tq' = Some x).
Proof.
  intros Hc Hs. destruct tq as [q [th s] tk o]. destruct c as [| | |i| | |]; try done; cbn in Hs;
    destruct th as [[]|], tk as [x|]; cbn in Hs; try done;
    try (destruct (dequeue i q) as [[y q']|] eqn:Hd; cbn in Hs; [|done]); simplify_eq; try done.
  split_and!; [|done|done]. cbn. by apply dequeue_perm in Hd.
Qed.

(** The end of a task. *)
Lemma step_run (tq : TaskQueue T) x :
  queue_inv tq -> task_ tq = Some x ->
  exists tq', step DoRun tq = Some (tq', [x]) /\ waiting tq = x :: waiting tq' /\ task_ tq' = None /\
    owner tq' = owner tq.
Proof.
  intros [_ Ht] Hx. destruct tq as [q [th s] tk o]. cbn in *. subst tk. rewrite (Ht ltac:(eauto)). by eexists.
Qed.

(** No step of the worker puts anything into the queue. *)
Lemma step_waiting c (tq tq' : TaskQueue T) ran x :
  match c with DoTest | DoTimeout | DoTake _ | DoRun => True | _ => False end ->
  step c tq = Some (tq', ran) -> x ∈ waiting tq' -> x ∈ waiting tq.
Proof.
  intros Hc Hs Hx. destruct c; try done.
  1-3: destruct (fun H => step_control _ _ _ _ H Hs) as [Hw _]; [done|]; by rewrite Hw in Hx.
  destruct tq as [q w [y|] o]; cbn in Hs; [|done]. destruct (worker_task_done w); [|done].
  injection Hs as <- <-. by right.
Qed.

(** The destructor: the store always succeeds, the join once the thread has ended. *)
Lemma step_stop (tq : TaskQueue T) :
  queue_inv tq -> owner tq = Alive -> exists tq', step DoStop tq = Some (tq', []) /\ waiting tq' = waiting tq /\ owner tq' = Joining.
Proof.
  intros [Hq _] Ho. rewrite Ho in Hq. destruct tq as [q [th s] tk o]. cbn in *. subst o.
  destruct Hq as [-> [-> | ->]]; by eexists.
Qed.

Lemma step_join (tq : TaskQueue T) :
  owner tq = Joining ->
  if decide (bgWorkerThread_ (worker_ tq) = Some Exited) then
    exists tq', step DoJoin tq = Some (tq', []) /\ waiting tq' = waiting tq /\ bgWorkerThread_ (worker_ tq') = None
  else step DoJoin tq = None.
Proof. destruct tq as [q [[[]|] s] tk o]; cbn; intros ->; try done. by eexists. Qed.

(** Steps the worker thread still takes once it has been told to stop. *)
Definition stop_measure (tq : TaskQueue T) : nat :=
  match bgWorkerThread_ (worker_ tq), task_ tq with
  | Some InTask, _ => 2
  | Some AtTest, _ => 1
  | _, _ => 0
  end.

Definition worker_step (c : queue_step T) : bool :=
  match c with DoTest | DoTimeout | DoRun => true | _ => false end.

(** A destroyed queue takes no step. *)
Lemma destroyed_quiet cs (tq tq' : TaskQueue T) ran :
  owner tq = Destroyed -> bgWorkerThread_ (worker_ tq) = None -> task_ tq = None ->
  run cs tq = Some (tq', ran) -> ran = [] /\ queue_ tq' = queue_ tq.
Proof.
  intros Ho Hw Ht. destruct tq as [q [th s] tk o]. cbn in *. subst.
  destruct cs as [|c cs]; cbn; [by intros [= <- <-]|]. by destruct c.
Qed.

End theorems.
