(* ===== verification/Observer.v ===== *)
(** * The listeners of the commit index: [src/wal_commit_observer.h], [src/wal_commit_observer.cc]

    A writer leaves a pointer to its channel with the range of log indices it waits for.  Every
    call holds the mutex of the observer from start to end and is one atomic step. *)

From S2P Require Import Prelude Status Channel.

(** [Notify] advances an iterator to an element it has just erased, which the standard leaves
    undefined.  The flag is [true] on an implementation where the freed node still leads to its
    successor, so that the loop goes on with the next listener. *)
Class ErasedIterator := erased_iterator_steps : bool.

(** [operator<] of [std::pair]. *)
Definition range_ltb (a b : Z * Z) : bool :=
  (fst a <? fst b) || ((fst a =? fst b) && (snd a <? snd b)).

(** The map of the observer and the channels its pointers lead to. *)
Record WalCommitObserver := MkWalCommitObserver {
  writes_ : list ((Z * Z) * Z);
  channels : gmap Z (SimpleChannel ErrorCode);
}.

Definition new_WalCommitObserver : WalCommitObserver := MkWalCommitObserver [] ∅.

Abbreviation ObserverM := (Prog ErrorCode WalCommitObserver).

Definition set_writes_ (w : list ((Z * Z) * Z)) : ObserverM unit :=
  modify (fun ob => MkWalCommitObserver w (channels ob)).

(** [*ptr <<= value]; a pointer to a channel that is gone is undefined behaviour. *)
Definition send_to (ptr : Z) (value : ErrorCode) : ObserverM unit := fun ob =>
  match channels ob !! ptr with
  | None => (Halt Undefined, ob)
  | Some c =>
      match channel_send c value with
      | Done c' => (Ok tt, MkWalCommitObserver (writes_ ob) (<[ptr := c']> (channels ob)))
      | Blocked => (Halt OutOfFuel, ob)
      | Dies h => (Halt h, ob)
      end
  end.

(** A second registration of a range is only logged. *)
Definition Register (range : Z * Z) (channel : Z) : ObserverM unit :=
  writes ← gets writes_;
  match omap_find range_ltb range writes with
  | Some _ => mret tt
  | None => set_writes_ (omap_insert range_ltb range channel writes)
  end.

Section notify.
Context {EI : ErasedIterator}.

(** The loop from the iterator on: [it] is the rest of the map, whose front was all erased. *)
Fixpoint notify_loop (commitIndex : Z) (it : list ((Z * Z) * Z)) : ObserverM unit :=
  match it with
  | [] => mret tt
  | ((_, last), channel) :: next =>
      _ ← (if last <=? commitIndex then send_to channel OK else mret tt);
      _ ← set_writes_ next;
      if erased_iterator_steps then notify_loop commitIndex next else halt_with Undefined
  end.

Definition Notify (commitIndex : Z) : ObserverM unit :=
  it ← gets writes_;
  notify_loop commitIndex it.
End notify.

(** ** Properties *)

(** Every listener has a channel of its own that nothing was sent to. *)
Definition listening (ob : WalCommitObserver) : Prop :=
  NoDup (snd <$> writes_ ob) /\ forall r ch, (r, ch) ∈ writes_ ob -> channels ob !! ch = Some Pending.

(** The channels after the listeners with a range up to [c] were told. *)
Fixpoint told (c : Z) (it : list ((Z * Z) * Z)) (chans : gmap Z (SimpleChannel ErrorCode)) :
    gmap Z (SimpleChannel ErrorCode) :=
  match it with
  | [] => chans
  | (r, ch) :: it => if snd r <=? c then <[ch := Satisfied OK]> (told c it chans) else told c it chans
  end.

Lemma told_ne c it chans ch : ch ∉ (snd <$> it) -> told c it chans !! ch = chans !! ch.
Proof.
  induction it as [|[r ch'] it IH]; cbn; [done|]. intros [Hne Hni]%not_elem_of_cons.
  destruct (snd r <=? c); [|auto]. rewrite lookup_insert_ne by done. auto.
Qed.

Lemma told_insert c it chans ch x :
  ch ∉ (snd <$> it) -> told c it (<[ch := x]> chans) = <[ch := x]> (told c it chans).
Proof.
  induction it as [|[r ch'] it IH]; cbn; [done|]. intros [Hne Hni]%not_elem_of_cons.
  rewrite IH by done. destruct (snd r <=? c); [|done]. by rewrite insert_insert_ne.
Qed.

Lemma told_spec c it chans r ch :
  NoDup (snd <$> it) -> (r, ch) ∈ it ->
  told c it chans !! ch = if snd r <=? c then Some (Satisfied OK) else chans !! ch.
Proof.
  intros Hnd Hin. induction it as [|[r' ch'] it IH]; [by apply elem_of_nil in Hin|].
  cbn in Hnd. apply NoDup_cons in Hnd as [Hni Hnd].
  apply elem_of_cons in Hin as [[= <- <-]|Hin]; cbn.
  - destruct (snd r <=? c); [apply lookup_insert_eq|by apply told_ne].
  - assert (ch <> ch') by (intros ->; apply Hni, list_elem_of_fmap; by exists (r, ch')).
    destruct (snd r' <=? c); [rewrite lookup_insert_ne by done|]; by apply IH.
Qed.

Lemma insert_perm range ch (w : list ((Z * Z) * Z)) :
  omap_find range_ltb range w = None -> omap_insert range_ltb range ch w ≡ₚ (range, ch) :: w.
Proof.
  induction w as [|[r c] w IH]; cbn; [done|]. destruct (range_ltb range r); [done|].
  destruct (range_ltb r range); [|done]. intros Hf. by rewrite (IH Hf), Permutation_swap.
Qed.

Lemma send_to_pending ptr v it chans :
  chans !! ptr = Some Pending ->
  send_to ptr v (MkWalCommitObserver it chans) = (Ok tt, MkWalCommitObserver it (<[ptr := Satisfied v]> chans)).
Proof. intros Hp. unfold send_to. cbn. by rewrite Hp. Qed.

Section theorems.
Context (EI : ErasedIterator).

Lemma notify_loop_steps c it chans :
  erased_iterator_steps = true -> NoDup (snd <$> it) ->
  (forall r ch, (r, ch) ∈ it -> chans !! ch = Some Pending) ->
  notify_loop c it (MkWalCommitObserver it chans) = (Ok tt, MkWalCommitObserver [] (told c it chans)).
Proof.
  intros He. revert chans. induction it as [|[[a b] ch] it IH]; intros chans Hnd Hp; [done|].
  cbn in Hnd. apply NoDup_cons in Hnd as [Hni Hnd]. cbn [notify_loop]. rewrite He.
  pose proof (Hp (a, b) ch ltac:(by left)) as Hch. cbn [told snd]. destruct (b <=? c).
  - erewrite run_bind_ok by (by apply send_to_pending).
    erewrite (run_bind_ok (set_writes_ _)) by done. cbn [channels]. rewrite IH; [|done|].
    + by rewrite told_insert.
    + intros r ch' Hin. rewrite lookup_insert_ne; [by apply (Hp r); right|].
      intros ->. apply Hni, list_elem_of_fmap. by exists (r, ch').
  - erewrite run_bind_ok by done. erewrite (run_bind_ok (set_writes_ _)) by done. cbn [channels].
    rewrite IH; [done..|]. intros r ch' Hin. apply (Hp r). by right.
Qed.

(** A listener and an erased iterator that does not step, or all is told. *)
Lemma Notify_cases c ob :
  listening ob ->
  (fst (Notify c ob) = Halt Undefined /\ erased_iterator_steps = false /\ writes_ ob <> []) \/
  ((erased_iterator_steps = false -> writes_ ob = []) /\
   Notify c ob = (Ok tt, MkWalCommitObserver [] (told c (writes_ ob) (channels ob)))).
Proof.
  intros [Hnd Hp]. destruct ob as [it chans]. cbn in Hnd, Hp. unfold Notify. erewrite (run_bind_ok (gets writes_)) by done. cbn [writes_ channels].
  destruct erased_iterator_steps eqn:He; [right; split; [done|by apply notify_loop_steps]|]. destruct it as [|[[a b] ch] it]; [by right|left].
  split_and!; [|done|done]. cbn [notify_loop]. rewrite He.
  pose proof (Hp (a, b) ch ltac:(by left)) as Hch. destruct (b <=? c).
  - by erewrite run_bind_ok by (by apply send_to_pending).
  - by erewrite run_bind_ok by done.
Qed.

(** C32: [Notify] on a map with a listener is undefined behaviour; where an erased iterator still
    steps, it answers OK to exactly the listeners whose range ends at or below the commit index,
    leaves every other channel alone, and forgets all listeners, answered or not. *)
Theorem observer_notify c ob :
  listening ob -> writes_ ob <> [] ->
  if erased_iterator_steps then
    Notify c ob = (Ok tt, MkWalCommitObserver [] (told c (writes_ ob) (channels ob))) /\
    (forall r ch, (r, ch) ∈ writes_ ob ->
       told c (writes_ ob) (channels ob) !! ch = Some (if snd r <=? c then Satisfied OK else Pending)) /\
    (forall ch, ch ∉ (snd <$> writes_ ob) -> told c (writes_ ob) (channels ob) !! ch = channels ob !! ch)
  else fst (Notify c ob) = Halt Undefined.
Proof.
  intros [Hnd Hp] Hne. unfold Notify. destruct ob as [it chans]. cbn [writes_ channels] in *.
  erewrite (run_bind_ok (gets writes_)) by done. cbn [writes_].
  destruct erased_iterator_steps eqn:He.
  - split_and!; [by apply notify_loop_steps| |intros ch; apply told_ne].
    intros r ch Hin. rewrite (told_spec c it chans r ch Hnd Hin). destruct (snd r <=? c); [done|by eapply Hp].
  - destruct it as [|[[a b] ch] it]; [done|]. cbn [notify_loop]. rewrite He.
    pose proof (Hp (a, b) ch ltac:(by left)) as Hch. destruct (b <=? c).
    + erewrite run_bind_ok by (by apply send_to_pending). done.
    + by erewrite run_bind_ok by done.
Qed.
End theorems.
