(* ===== verification/Cluster.v ===== *)
(** * Sending messages to the other members: [src/rpc/peer.h], [peer.cc], [cluster.cc],
    [raft_client.h] and [src/base/stl_container_utils.h]

    A request leaves the process when the stub of [brpc] is called; what happens to it then is up
    to the network, and [brpc] calls [doneCallBack] once with the outcome.  The model keeps the
    requests handed to the stub and the two heap objects each of them owns until then. *)

From S2P Require Import Prelude External Status.

(** [AsyncRaftClient] is the channel to one server. *)
Record AsyncRaftClient := MkAsyncRaftClient { channel_ : string }.

Definition new_AsyncRaftClient (url : string) : AsyncRaftClient := MkAsyncRaftClient url.

Record Peer := MkPeer { client_ : AsyncRaftClient }.

Definition new_Peer (url : string) : Peer := MkPeer (new_AsyncRaftClient url).

(** [PeerManager] is the map from member ids to peers; the map owns the peers. *)
Abbreviation PeerManager := (zmap Peer).

Section cluster.
Context {MSG : YaraftMsg}.

(** A request under way: its number, its server and its message. *)
Record request := MkRequest { req_id : Z; req_url : string; req_message : Message }.

Record Network := MkNetwork {
  sent : list request;
  next_request : Z;
  (** the [Controller] and [StepResponse] objects that are allocated, by request *)
  controllers : gset Z;
  responses : gset Z;
}.

Definition new_Network : Network := MkNetwork [] 0 ∅ ∅.

Abbreviation NetM := (Prog ErrorCode Network).

Definition AsyncRaftClient_Step (client : AsyncRaftClient) (msg : Message) : NetM unit :=
  modify (fun net =>
    let id := next_request net in
    MkNetwork (sent net ++ [MkRequest id (channel_ client) msg]) (id + 1)
      ({[id]} ∪ controllers net) ({[id]} ∪ responses net)).

(** The callback of request [id]: a failed one keeps its response. *)
Definition doneCallBack (id : Z) (failed : bool) : NetM unit :=
  modify (fun net =>
    MkNetwork (sent net) (next_request net) (controllers net ∖ {[id]})
      (if failed then responses net else responses net ∖ {[id]})).

Definition AsyncSend (p : Peer) (msg : Message) : NetM unit := AsyncRaftClient_Step (client_ p) msg.

(** [Pass]: the two CHECKs end the process.  The message is copied, since a constant cannot be
    moved from. *)
Fixpoint Pass (peerMap_ : PeerManager) (mails : list Message) : NetM unit :=
  match mails with
  | [] => mret tt
  | m :: mails =>
      if message_to m =? 0 then halt_with FatalLog
      else
        match zmap_find (message_to m) peerMap_ with
        | None => halt_with FatalLog
        | Some p => _ ← AsyncSend p m; Pass peerMap_ mails
        end
  end.

(** [Cluster::Default]. *)
Fixpoint default_loop (initialCluster : zmap string) (peerMap : PeerManager) : PeerManager :=
  match initialCluster with
  | [] => peerMap
  | (id, url) :: rest => default_loop rest (zmap_insert id (new_Peer url) peerMap)
  end.

Definition Cluster_Default (initialCluster : zmap string) : PeerManager := default_loop initialCluster [].

(** *** The destructor

    The peers a map points at, freed one after the other: [None] when one is freed twice. *)
Fixpoint STLDeleteContainerPairSecondPointers (range : list (Z * Z)) (live : gset Z) : option (gset Z) :=
  match range with
  | [] => Some live
  | (_, ptr) :: range =>
      if decide (ptr ∈ live) then STLDeleteContainerPairSecondPointers range (live ∖ {[ptr]}) else None
  end.

Fixpoint STLDeleteContainerPointers (range : list Z) (live : gset Z) : option (gset Z) :=
  match range with
  | [] => Some live
  | ptr :: range =>
      if decide (ptr ∈ live) then STLDeleteContainerPointers range (live ∖ {[ptr]}) else None
  end.
End cluster.

(** ** Properties *)

Section theorems.
Context (MSG : YaraftMsg).
Abbreviation NetM := (Prog ErrorCode Network).

(** A mail that can be sent, the server it goes to, and the mails before the first bad one. *)
Definition deliverable (cluster : zmap string) (m : Message) : Prop :=
  message_to m <> 0 /\ is_Some (zmap_find (message_to m) cluster).

#[local] Instance deliverable_dec cluster m : Decision (deliverable cluster m).
Proof. unfold deliverable. apply _. Defined.

Definition addressed (cluster : zmap string) (m : Message) : option (string * Message) :=
  url ← zmap_find (message_to m) cluster; Some (url, m).

Fixpoint good_prefix (cluster : zmap string) (mails : list Message) : list Message :=
  match mails with
  | [] => []
  | m :: mails => if decide (deliverable cluster m) then m :: good_prefix cluster mails else []
  end.

Lemma default_loop_find cluster peers id :
  zmap_sorted cluster ->
  zmap_find id (default_loop cluster peers)
  = match zmap_find id cluster with Some url => Some (new_Peer url) | None => zmap_find id peers end.
Proof.
  unfold zmap_sorted. revert peers. induction cluster as [|[k url] cluster IH]; intros peers Hs; [done|].
  apply StronglySorted_inv in Hs as [Hs Hall]. cbn [default_loop].
  rewrite IH, zmap_find_insert by done. unfold zmap_find. cbn [omap_find].
  assert (forall x : Z, x <= k -> omap_find Z.ltb x cluster = None) as Hnone.
  { intros x Hx. destruct cluster as [|[k' u'] cluster]; [done|]. cbn. rewrite Forall_forall in Hall.
    specialize (Hall k' ltac:(by left)). cbn in Hall. by destruct (Z.ltb_spec x k'); [|lia]. }
  destruct (decide (id = k)) as [->|Hne].
  - by rewrite Hnone, Z.ltb_irrefl by lia.
  - destruct (Z.ltb_spec id k); [by rewrite Hnone by lia|]. by destruct (Z.ltb_spec k id); [|lia].
Qed.

Lemma default_find cluster id :
  zmap_sorted cluster -> zmap_find id (Cluster_Default cluster) = new_Peer <$> zmap_find id cluster.
Proof. intros Hs. unfold Cluster_Default. rewrite default_loop_find by done. by destruct (zmap_find id cluster). Qed.

(** What the network was handed: servers and messages. *)
Definition outbox (net : Network) : list (string * Message) := (fun r => (req_url r, req_message r)) <$> sent net.

(** on the cluster built from the initial configuration, [Pass] hands each mail to the server
    of its recipient, in order; a mail to no one or to an unknown member ends the process after
    the mails before it were sent. *)
Theorem pass_delivers cluster mails net :
  zmap_sorted cluster ->
  exists net', Pass (Cluster_Default cluster) mails net
      = (if decide (Forall (deliverable cluster) mails) then Ok tt else Halt FatalLog, net') /\
    outbox net' = outbox net ++ omap (addressed cluster) (good_prefix cluster mails).
Proof.
  intros Hs. revert net. induction mails as [|m mails IH]; intros net; cbn [Pass good_prefix].
  { exists net. rewrite decide_True by constructor. by rewrite app_nil_r. }
  destruct (decide (deliverable cluster m)) as [[Hm [url Hu]]|Hm].
  - destruct (Z.eqb_spec (message_to m) 0); [done|]. rewrite default_find, Hu by done. cbn [fmap option_fmap option_map].
    rewrite (run_bind_ok _ _ _ (snd (AsyncSend (new_Peer url) m net)) tt) by done.
    destruct (IH (snd (AsyncSend (new_Peer url) m net))) as (net' & -> & Ho).
    exists net'. split.
    + f_equal. destruct (decide (Forall (deliverable cluster) mails)) as [Ha|Ha].
      * rewrite decide_True; [done|]. constructor; [|done]. split; [done|by rewrite Hu].
      * rewrite decide_False; [done|]. by intros [_ ?]%Forall_cons.
    + rewrite Ho. unfold outbox. cbn. rewrite fmap_app, <- app_assoc. unfold addressed at 2. by rewrite Hu.
  - exists net. rewrite (decide_False (P := Forall _ _)) by (by intros [? _]%Forall_cons).
    rewrite app_nil_r. split; [|done]. destruct (Z.eqb_spec (message_to m) 0); [done|].
    rewrite default_find by done. destruct (zmap_find (message_to m) cluster) eqn:Hu; [|done].
    destruct Hm. split; [done|by rewrite Hu].
Qed.

(** *** The objects of the requests *)

Inductive net_event := Send (client : AsyncRaftClient) (msg : Message) | Complete (id : Z) (failed : bool).

Definition net_step (ev : net_event) : NetM unit :=
  match ev with
  | Send client msg => AsyncRaftClient_Step client msg
  | Complete id failed => doneCallBack id failed
  end.

Fixpoint net_run (evs : list net_event) : NetM unit :=
  match evs with
  | [] => mret tt
  | ev :: evs => _ ← net_step ev; net_run evs
  end.

(** Whether request [id] was completed, and whether it succeeded. *)
Definition completed (id : Z) (evs : list net_event) : Prop := exists f, Complete id f ∈ evs.
Definition succeeded (id : Z) (evs : list net_event) : Prop := Complete id false ∈ evs.

(** A callback comes after its request. *)
Fixpoint well_timed (next : Z) (evs : list net_event) : Prop :=
  match evs with
  | [] => True
  | Send _ _ :: evs => well_timed (next + 1) evs
  | Complete id _ :: evs => id < next /\ well_timed next evs
  end.

Lemma net_run_objects evs net :
  well_timed (next_request net) evs ->
  exists net', net_run evs net = (Ok tt, net') /\ next_request net <= next_request net' /\
    forall id,
      (id ∈ controllers net' <->
         (id ∈ controllers net \/ next_request net <= id < next_request net') /\ ~ completed id evs) /\
      (id ∈ responses net' <->
         (id ∈ responses net \/ next_request net <= id < next_request net') /\ ~ succeeded id evs).
Proof.
  revert net. unfold completed, succeeded. induction evs as [|ev evs IH]; intros net Hw.
  { exists net. split_and!; [done|lia|]. intros id. setoid_rewrite elem_of_nil.
    assert (~ next_request net <= id < next_request net) by lia. naive_solver. }
  destruct ev as [client msg|id0 f]; cbn in Hw; cbn [net_run net_step].
  - erewrite run_bind_ok by done. edestruct IH as (net' & -> & Hle & Ho); [exact Hw|]. cbn in Hle, Ho.
    exists net'. split_and!; [done|lia|]. intros id. destruct (Ho id) as [-> ->].
    rewrite !elem_of_union, !elem_of_singleton. setoid_rewrite elem_of_cons.
    assert (forall P : Prop, (id = next_request net \/ P) \/ next_request net + 1 <= id < next_request net' <->
      P \/ next_request net <= id < next_request net') as Hid.
    { intros P. split; [intros [[->|?]|?]|intros [?|?]]; try (by auto); try (right; lia).
      destruct (decide (id = next_request net)); [by left; left|right; lia]. }
    rewrite !Hid. clear. split; apply and_iff_compat_l; naive_solver.
  - destruct Hw as [Hlt Hw]. erewrite run_bind_ok by done. edestruct IH as (net' & -> & Hle & Ho); [exact Hw|].
    cbn in Hle, Ho. exists net'. split_and!; [done|lia|]. intros id. destruct (Ho id) as [-> ->].
    setoid_rewrite elem_of_cons. clear Ho IH Hw. split.
    + rewrite elem_of_difference, elem_of_singleton. destruct (decide (id = id0)) as [->|Hne].
      * split; [intros [[[_ ?]|?] _]; [done|lia]|]. intros [_ Hc]. destruct Hc. exists f. by left.
      * naive_solver.
    + destruct f; [naive_solver|]. rewrite elem_of_difference, elem_of_singleton.
      destruct (decide (id = id0)) as [->|Hne].
      * split; [intros [[[_ ?]|?] _]; [done|lia]|]. intros [_ Hc]. destruct Hc. by left.
      * naive_solver.
Qed.

(** from a fresh network, the controller of every request is freed by its callback, but the
    response only by a callback that succeeded: the responses still allocated are those of the
    requests under way and of every request that failed. *)
Theorem rpc_failed_responses_leak evs :
  well_timed 0 evs ->
  exists net, net_run evs new_Network = (Ok tt, net) /\
    (forall id, id ∈ controllers net <-> 0 <= id < next_request net /\ ~ completed id evs) /\
    (forall id, id ∈ responses net <-> 0 <= id < next_request net /\ ~ succeeded id evs).
Proof.
  intros Hw. destruct (net_run_objects evs new_Network Hw) as (net & Hrun & _ & Ho). exists net.
  split_and!; [done|intros id; destruct (Ho id) as [-> _]|intros id; destruct (Ho id) as [_ ->]]; cbn; set_solver.
Qed.
End theorems.
