(* ===== verification/Node.v ===== *)
(** * One member of the cluster at run time: [src/replicated_log_impl.h], [replicated_log.cc],
    [raft_task_executor.h], [raft_task_executor.cc], [raft_timer.cc], [ready_flusher.cc] and
    [raft_service.cc]

    Five kinds of threads share a [ReplicatedLog]: the worker of the task queue, which alone
    touches the [RawNode]; the timer; the flusher, which writes what the node produced to the log and
    sends it; the RPC threads that serve [RaftService]; and the clients that write to the log or
    ask for the leader.  A thread that needs the node submits a closure to the queue and waits.

    The state is that of the whole process; [node_step] is one action of one thread, and a
    schedule is a list of actions.  A thread is a number: 0 is the timer, 1 the flusher, and every
    call from outside brings a number of its own.  A closure refers to variables on the stack of
    the thread that submitted it: the frame of that thread, which is gone once its call has
    returned.  A timer, a flusher or a queue may serve several logs: the steps are those that
    concern this one. *)

From S2P Require Import Prelude External Status Channel TaskQueue Observer Cluster.

(** ** What the members of the class point at *)

(** [wal::WriteAheadLog], an abstract class: [Write(entries, hs)] is all the flusher calls. *)
Class WriteAheadLog (Y : YaraftPb) := {
  wal_state : Type;
  wal_Write : list Entry -> option HardState -> Prog ErrorCode wal_state unit;
}.

(** [pb::StatusCode], the codes of a [StepResponse]. *)
Inductive StatusCode := PbOK | PbStepLocalMsg | PbStepPeerNotFound.

(** [pb::StatusResponse]; a field that was not set is [None]. *)
Record StatusResponse := MkStatusResponse {
  resp_leader : option Z;
  resp_raftIndex : option Z;
  resp_raftTerm : option Z;
  resp_raftCommit : option Z;
}.

Definition new_StatusResponse : StatusResponse := MkStatusResponse None None None None.

(** Two choices the language leaves to the compiler and its library.  The channel that is a local of
    [AsyncWrite] is returned by value: [channel_built_in_place] when the compiler builds it in the
    variable of the caller.  [std::async] is called with its default policy and its future is
    dropped: [async_starts_thread] when it starts a thread, for which the destructor of the future
    then waits; a deferred function whose future is dropped never runs. *)
Class Toolchain := {
  channel_built_in_place : bool;
  async_starts_thread : bool;
}.

(** [RaftTimer] and [ReadyFlusher]: the objects registered with them, by address, and the worker
    whose thread runs their loop. *)
Record RaftTimer := MkRaftTimer { executors_ : list Z; timer_worker_ : BackgroundWorker }.
Record ReadyFlusher := MkReadyFlusher { logs_ : list Z; flusher_worker_ : BackgroundWorker }.

Definition set_timer_worker_ (w : BackgroundWorker) (t : RaftTimer) : RaftTimer := MkRaftTimer (executors_ t) w.
Definition set_flusher_worker_ (w : BackgroundWorker) (f : ReadyFlusher) : ReadyFlusher := MkReadyFlusher (logs_ f) w.

(** [Start]: the timer drops the status of [StartLoop], the flusher insists on it. *)
Definition RaftTimer_Start (t : RaftTimer) : RaftTimer :=
  set_timer_worker_ (snd (StartLoop true (timer_worker_ t))) t.
Definition ReadyFlusher_Start : Prog ErrorCode ReadyFlusher unit :=
  fatal_not_ok (zoom flusher_worker_ set_flusher_worker_ (StartLoop true)).

(** [Stop] up to the call of [join], and [join]. *)
Definition RaftTimer_Stop_store : Prog ErrorCode RaftTimer unit :=
  fatal_not_ok (zoom timer_worker_ set_timer_worker_ Stop_store).
Definition RaftTimer_Stop_join (t : RaftTimer) : option RaftTimer :=
  w ← Stop_join (timer_worker_ t); Some (set_timer_worker_ w t).
Definition ReadyFlusher_Stop_store : Prog ErrorCode ReadyFlusher unit :=
  fatal_not_ok (zoom flusher_worker_ set_flusher_worker_ Stop_store).
Definition ReadyFlusher_Stop_join (f : ReadyFlusher) : option ReadyFlusher :=
  w ← Stop_join (flusher_worker_ f); Some (set_flusher_worker_ w f).

Definition new_RaftTimer : RaftTimer := RaftTimer_Start (MkRaftTimer [] new_BackgroundWorker).
Definition new_ReadyFlusher : result ErrorCode ReadyFlusher :=
  match ReadyFlusher_Start (MkReadyFlusher [] new_BackgroundWorker) with
  | (Ok _, f) => Ok f
  | (Err e, _) => Err e
  | (Halt h, _) => Halt h
  end.

Definition RaftTimer_Register (executor : Z) (t : RaftTimer) : RaftTimer :=
  MkRaftTimer (executors_ t ++ [executor]) (timer_worker_ t).
Definition ReadyFlusher_Register (log : Z) (f : ReadyFlusher) : ReadyFlusher :=
  MkReadyFlusher (logs_ f ++ [log]) (flusher_worker_ f).

(** Whether the thread of a worker is inside the task of its loop. *)
Definition in_task (w : BackgroundWorker) : bool := bool_decide (bgWorkerThread_ w = Some InTask).

Section node.
Context {Y : YaraftPb} {M : MemStoreLib Y} {MSG : YaraftMsg} {RAFT : RaftLib M MSG}.
Context {WAL : WriteAheadLog Y} {EI : ErasedIterator} {TC : Toolchain}.

(** ** Closures and stack frames *)

(** The closures submitted to the executor, with the thread whose frame they refer to. *)
Inductive task :=
  | TaskTick (thread : Z)
  | TaskGetReady (thread : Z)
  | TaskWrite (thread : Z) (log : bytes)
  | TaskStep (thread : Z) (msg : Message)
  | TaskStatus (thread : Z)
  | TaskLeaderHint (thread : Z).

(** The locals a closure assigns. *)
Inductive locals :=
  | LocalsTick
  | LocalsGetReady (rd : option Ready)
  | LocalsStep (code : StatusCode)
  | LocalsStatus (response : StatusResponse)
  | LocalsLeaderHint (currentLeader : Z).

Record frame := MkFrame { frame_locals : locals; frame_barrier : Barrier }.

(** What a call from outside returns. *)
Inductive outcome :=
  | WriteReturned (s : ErrorCode)
  | Returned (l : locals).

(** ** The process *)

(** Where the flusher is in [flushRound] and [flushReady]. *)
Inductive flush_stage := SendAsLeader | WriteWal | NotifyCommit | AdvanceStore | SendAsFollower.
Inductive flusher_pc := FlusherIdle | FlusherWaits | Flushing (stage : flush_stage) (rd : Ready).

(** What an observer of the process sees, oldest first. *)
Inductive event :=
  | Proposed (thread : Z) (index : Z)
  (** [Write] of the log has returned OK for this [Ready], whatever it stored of it *)
  | WalAccepted (rd : Ready)
  | Notified (commit : Z)
  | SentAsLeader (rd : Ready)
  | SentAsFollower (rd : Ready)
  | CallReturned (thread : Z) (o : outcome).

Record Node := MkNode {
  (** the address of the object, under which it is registered with its timer and its flusher *)
  self : Z;
  timer_ : RaftTimer;
  flusher_ : ReadyFlusher;
  node_ : RawNode;
  memstore_ : MemoryStorage;
  wal_ : wal_state;
  cluster_ : PeerManager;
  network : Network;
  walCommitObserver_ : WalCommitObserver;
  queue : TaskQueue task;
  (** the closure of a write, between [Propose] and [Register] *)
  registering : option Z;
  frames : gmap Z frame;
  flusher : flusher_pc;
  (** the number of the next call from outside *)
  next_thread : Z;
  history : list event;
}.

Definition set_fsm (s : RawNode * MemoryStorage) (n : Node) : Node :=
  MkNode (self n) (timer_ n) (flusher_ n) (fst s) (snd s) (wal_ n) (cluster_ n) (network n) (walCommitObserver_ n) (queue n) (registering n)
    (frames n) (flusher n) (next_thread n) (history n).
Definition set_memstore_ (m : MemoryStorage) (n : Node) : Node := set_fsm (node_ n, m) n.
Definition set_wal_ (w : wal_state) (n : Node) : Node :=
  MkNode (self n) (timer_ n) (flusher_ n) (node_ n) (memstore_ n) w (cluster_ n) (network n) (walCommitObserver_ n) (queue n) (registering n)
    (frames n) (flusher n) (next_thread n) (history n).
Definition set_network (net : Network) (n : Node) : Node :=
  MkNode (self n) (timer_ n) (flusher_ n) (node_ n) (memstore_ n) (wal_ n) (cluster_ n) net (walCommitObserver_ n) (queue n) (registering n)
    (frames n) (flusher n) (next_thread n) (history n).
Definition set_observer (ob : WalCommitObserver) (n : Node) : Node :=
  MkNode (self n) (timer_ n) (flusher_ n) (node_ n) (memstore_ n) (wal_ n) (cluster_ n) (network n) ob (queue n) (registering n)
    (frames n) (flusher n) (next_thread n) (history n).
Definition set_queue (q : TaskQueue task) (n : Node) : Node :=
  MkNode (self n) (timer_ n) (flusher_ n) (node_ n) (memstore_ n) (wal_ n) (cluster_ n) (network n) (walCommitObserver_ n) q (registering n)
    (frames n) (flusher n) (next_thread n) (history n).
Definition set_registering (r : option Z) (n : Node) : Node :=
  MkNode (self n) (timer_ n) (flusher_ n) (node_ n) (memstore_ n) (wal_ n) (cluster_ n) (network n) (walCommitObserver_ n) (queue n) r
    (frames n) (flusher n) (next_thread n) (history n).
Definition set_frames (f : gmap Z frame) (n : Node) : Node :=
  MkNode (self n) (timer_ n) (flusher_ n) (node_ n) (memstore_ n) (wal_ n) (cluster_ n) (network n) (walCommitObserver_ n) (queue n) (registering n)
    f (flusher n) (next_thread n) (history n).
Definition set_flusher (pc : flusher_pc) (n : Node) : Node :=
  MkNode (self n) (timer_ n) (flusher_ n) (node_ n) (memstore_ n) (wal_ n) (cluster_ n) (network n) (walCommitObserver_ n) (queue n) (registering n)
    (frames n) pc (next_thread n) (history n).
Definition set_next_thread (t : Z) (n : Node) : Node :=
  MkNode (self n) (timer_ n) (flusher_ n) (node_ n) (memstore_ n) (wal_ n) (cluster_ n) (network n) (walCommitObserver_ n) (queue n) (registering n)
    (frames n) (flusher n) t (history n).
Definition add_event (ev : event) (n : Node) : Node :=
  MkNode (self n) (timer_ n) (flusher_ n) (node_ n) (memstore_ n) (wal_ n) (cluster_ n) (network n) (walCommitObserver_ n) (queue n) (registering n)
    (frames n) (flusher n) (next_thread n) (history n ++ [ev]).

Definition set_timer_ (t : RaftTimer) (n : Node) : Node :=
  MkNode (self n) t (flusher_ n) (node_ n) (memstore_ n) (wal_ n) (cluster_ n) (network n) (walCommitObserver_ n) (queue n) (registering n)
    (frames n) (flusher n) (next_thread n) (history n).
Definition set_flusher_ (f : ReadyFlusher) (n : Node) : Node :=
  MkNode (self n) (timer_ n) f (node_ n) (memstore_ n) (wal_ n) (cluster_ n) (network n) (walCommitObserver_ n) (queue n) (registering n)
    (frames n) (flusher n) (next_thread n) (history n).

Definition fsm (n : Node) : RawNode * MemoryStorage := (node_ n, memstore_ n).
Definition Id (n : Node) : Z := rn_Id (node_ n).

Abbreviation NodeM := (Prog ErrorCode Node).

Definition on_wal {A} (p : Prog ErrorCode wal_state A) : NodeM A := zoom wal_ set_wal_ p.
Definition on_network {A} (p : Prog ErrorCode Network A) : NodeM A := zoom network set_network p.
Definition on_observer {A} (p : Prog ErrorCode WalCommitObserver A) : NodeM A :=
  zoom walCommitObserver_ set_observer p.

(** ** [RaftTaskExecutor] *)

(** [Submit]: the producer is the submitting thread. *)
Definition Submit (thread : Z) (t : task) : NodeM unit :=
  modify (fun n => set_queue (Enqueue thread t (queue n)) n).

(** The last statements of a closure: assign the locals of a frame and signal its barrier.  A
    frame that is gone is undefined behaviour. *)
Definition signal_frame (thread : Z) (l : locals) : NodeM unit := fun n =>
  match frames n !! thread with
  | None => (Halt Undefined, n)
  | Some f =>
      match Signal (frame_barrier f) with
      | Done b => (Ok tt, set_frames (<[thread := MkFrame l b]> (frames n)) n)
      | Blocked => (Halt OutOfFuel, n)
      | Dies h => (Halt h, n)
      end
  end.

Definition run_fsm {A} (f : RawNode * MemoryStorage -> A * (RawNode * MemoryStorage)) : NodeM A := fun n =>
  let '(a, s) := f (fsm n) in (Ok a, set_fsm s n).

(** A thread begins to wait: its frame, its closure. *)
Definition submit_and_wait (thread : Z) (l : locals) (t : task) : NodeM unit :=
  _ ← modify (fun n => set_frames (<[thread := MkFrame l new_Barrier]> (frames n)) n);
  Submit thread t.

(** [GetReady]: the pointer is not initialised before the closure has run. *)
Definition GetReady (thread : Z) : NodeM unit :=
  submit_and_wait thread (LocalsGetReady None) (TaskGetReady thread).

(** ** [RaftService] *)

Definition yaraftErrorCodeToRpcStatusCode (code : yaraft_error) : result ErrorCode StatusCode :=
  match code with
  | StepLocalMsg => Ok PbStepLocalMsg
  | StepPeerNotFound => Ok PbStepPeerNotFound
  | OtherYaraftError _ => Halt FatalLog
  end.

Definition RaftService_Step (thread : Z) (msg : Message) : NodeM unit :=
  submit_and_wait thread (LocalsStep PbOK) (TaskStep thread msg).

Definition RaftService_Status (thread : Z) : NodeM unit :=
  submit_and_wait thread (LocalsStatus new_StatusResponse) (TaskStatus thread).

(** ** [RaftTimer] *)

Definition kTimerGranularity : nat := 100.

(** One turn of the loop, for the executor of this log. *)
Definition timer_turn (thread : Z) : NodeM unit :=
  submit_and_wait thread LocalsTick (TaskTick thread).

(** ** [ReplicatedLog] *)

(** [AsyncWrite] as far as the submission of its closure.  The channel is that of the caller; when
    it is not built in place the closure is left with the address of a local that is gone. *)
Definition AsyncWrite (thread : Z) (log : bytes) : NodeM unit :=
  _ ← on_observer (modify (fun ob =>
        MkWalCommitObserver (writes_ ob)
          (if channel_built_in_place then <[thread := new_SimpleChannel]> (channels ob)
           else delete thread (channels ob))));
  Submit thread (TaskWrite thread log).

(** The closure of a write up to the registration: [Some index] when there is something to wait
    for. *)
Definition propose (thread : Z) (log : bytes) : NodeM (option Z) :=
  leader ← gets (fun n => rn_IsLeader (node_ n));
  if negb leader then
    _ ← on_observer (send_to thread WalWriteToNonLeader);
    mret None
  else
    s ← run_fsm (rn_Propose log);
    match s with
    | Some _ => _ ← on_observer (send_to thread YARaftError); mret None
    | None =>
        newIndex ← gets (fun n => rn_LastIndex (fsm n));
        _ ← modify (add_event (Proposed thread newIndex));
        mret (Some newIndex)
    end.

(** ** The closures *)

(** The whole of a closure that does not wait for another mutex. *)
Definition run_closure (t : task) : NodeM unit :=
  match t with
  | TaskTick thread =>
      _ ← run_fsm (fun s => (tt, Nat.iter kTimerGranularity rn_Tick s));
      signal_frame thread LocalsTick
  | TaskGetReady thread =>
      rd ← run_fsm rn_GetReady;
      signal_frame thread (LocalsGetReady rd)
  | TaskStep thread msg =>
      s ← run_fsm (rn_Step msg);
      match s with
      | None => signal_frame thread (LocalsStep PbOK)
      | Some code =>
          c ← (fun n => (yaraftErrorCodeToRpcStatusCode code, n));
          signal_frame thread (LocalsStep c)
      end
  | TaskStatus thread =>
      response ← gets (fun n =>
        MkStatusResponse (Some (rn_LeaderHint (node_ n))) (Some (rn_LastIndex (fsm n)))
          (Some (rn_CurrentTerm (node_ n))) None);
      signal_frame thread (LocalsStatus response)
  | TaskLeaderHint thread =>
      leader ← gets (fun n => rn_LeaderHint (node_ n));
      signal_frame thread (LocalsLeaderHint leader)
  | TaskWrite _ _ => mret tt
  end.

(** A step of the queue's threads; [fail] when it cannot be taken. *)
Definition queue_control (c : queue_step task) : NodeM unit := fun n =>
  match TaskQueue.step c (queue n) with
  | Some (q, _) => (Ok tt, set_queue q n)
  | None => (Err RuntimeError, n)
  end.

(** The worker goes on with the closure it took from the queue. *)
Definition run_task : NodeM unit :=
  current ← gets (fun n => task_ (queue n));
  match current with
  | None => fail RuntimeError
  | Some (_, TaskWrite thread log) =>
      r ← gets registering;
      match r with
      | None =>
          index ← propose thread log;
          match index with
          | Some newIndex => modify (set_registering (Some newIndex))
          | None => queue_control DoRun
          end
      | Some newIndex =>
          _ ← on_observer (Register (newIndex, newIndex) thread);
          _ ← modify (set_registering None);
          queue_control DoRun
      end
  | Some (_, t) =>
      _ ← run_closure t;
      queue_control DoRun
  end.

(** ** [ReadyFlusher] *)

Definition has_commit (rd : Ready) : option Z := hs ← hardState rd; hard_state_commit hs.

(** [messages.clear()]. *)
Definition clear_messages (rd : Ready) : Ready :=
  MkReady Y MSG (currentLeader rd) [] (hardState rd) (entries rd) (ready_rest rd).

Definition pass_messages (ev : Ready -> event) (rd : Ready) : NodeM Ready :=
  match messages rd with
  | [] => mret rd
  | _ =>
      peers ← gets cluster_;
      _ ← on_network (Pass peers (messages rd));
      _ ← modify (add_event (ev rd));
      mret (clear_messages rd)
  end.

(** The statements of [flushReady], each on one shared object. *)
Definition send_as_leader (rd : Ready) : NodeM Ready :=
  id ← gets Id;
  if currentLeader rd =? id then pass_messages SentAsLeader rd else mret rd.

Definition write_wal (rd : Ready) : NodeM unit :=
  let hs := hardState rd in
  _ ← match entries rd with
      | [] => fatal_not_ok (on_wal (wal_Write [] hs))
      | es => fatal_not_ok (on_wal (wal_Write es hs))
      end;
  modify (add_event (WalAccepted rd)).

Definition notify_commit (rd : Ready) : NodeM unit :=
  match has_commit rd with
  | Some commit =>
      _ ← on_observer (Notify commit);
      modify (add_event (Notified commit))
  | None => mret tt
  end.

Definition advance_store (rd : Ready) : NodeM unit :=
  modify (fun n => set_memstore_ (rd_Advance rd (memstore_ n)) n).

Definition send_as_follower (rd : Ready) : NodeM Ready :=
  id ← gets Id;
  if negb (currentLeader rd =? id) then pass_messages SentAsFollower rd else mret rd.

Definition flushReady (rd : Ready) : NodeM unit :=
  rd ← send_as_leader rd;
  _ ← write_wal rd;
  _ ← notify_commit rd;
  _ ← advance_store rd;
  _ ← send_as_follower rd;
  mret tt.

(** The next statement of the flusher thread. *)
Definition flush_step (stage : flush_stage) (rd : Ready) : NodeM unit :=
  match stage with
  | SendAsLeader => rd ← send_as_leader rd; modify (set_flusher (Flushing WriteWal rd))
  | WriteWal => _ ← write_wal rd; modify (set_flusher (Flushing NotifyCommit rd))
  | NotifyCommit => _ ← notify_commit rd; modify (set_flusher (Flushing AdvanceStore rd))
  | AdvanceStore => _ ← advance_store rd; modify (set_flusher (Flushing SendAsFollower rd))
  | SendAsFollower => _ ← send_as_follower rd; modify (set_flusher FlusherIdle)
  end.
(** ** Steps *)

Inductive choice :=
  (** the timer: it tests the condition of its loop; 100 ms have passed; its barrier is signalled;
      the body of the loop ends *)
  | TimerTests
  | TimerFires
  | TimerReturns
  | TimerEnds
  (** the flusher: it tests the condition of its loop; it asks for a [Ready]; it gets one; it
      executes the next statement; the body of the loop ends *)
  | FlusherTests
  | FlusherAsks
  | FlusherReturns
  | FlusherFlushes
  | FlusherEnds
  (** the worker of the task queue *)
  | WorkerTests
  | WorkerTimesOut
  | WorkerTakes (i : nat)
  | WorkerRuns
  (** calls from outside *)
  | ClientWrites (log : bytes)
  | ClientAsksLeader
  | RpcStep (msg : Message)
  | RpcStatus
  | CallReturns (thread : Z).

(** A step of a loop of its own worker; [fail] when it cannot be taken. *)
Definition timer_loop (f : BackgroundWorker -> option BackgroundWorker) : NodeM unit := fun n =>
  match f (timer_worker_ (timer_ n)) with
  | Some w => (Ok tt, set_timer_ (set_timer_worker_ w (timer_ n)) n)
  | None => (Err RuntimeError, n)
  end.
Definition flusher_loop (f : BackgroundWorker -> option BackgroundWorker) : NodeM unit := fun n =>
  match f (flusher_worker_ (flusher_ n)) with
  | Some w => (Ok tt, set_flusher_ (set_flusher_worker_ w (flusher_ n)) n)
  | None => (Err RuntimeError, n)
  end.

Definition timer_thread : Z := 0.
Definition flusher_thread : Z := 1.

(** A new call. *)
Definition begin_call (call : Z -> NodeM unit) : NodeM unit :=
  thread ← gets next_thread;
  _ ← modify (set_next_thread (thread + 1));
  call thread.

(** A waiting thread goes on once its barrier is signalled; its frame is left. *)
Definition leave_frame (thread : Z) : NodeM locals := fun n =>
  match frames n !! thread with
  | None => (Err RuntimeError, n)
  | Some f =>
      match Wait (frame_barrier f) with
      | Done _ => (Ok (frame_locals f), set_frames (delete thread (frames n)) n)
      | Blocked => (Err RuntimeError, n)
      | Dies h => (Halt h, n)
      end
  end.

(** [chan >>= s] and the end of [ReplicatedLog::Write]. *)
Definition leave_write (thread : Z) : NodeM ErrorCode := fun n =>
  match channels (walCommitObserver_ n) !! thread with
  | None => (Err RuntimeError, n)
  | Some c =>
      match channel_receive c with
      | Done (s, _) =>
          (Ok s, set_observer (MkWalCommitObserver (writes_ (walCommitObserver_ n))
                                 (delete thread (channels (walCommitObserver_ n)))) n)
      | Blocked => (Err RuntimeError, n)
      | Dies h => (Halt h, n)
      end
  end.

Definition call_returns (thread : Z) : NodeM unit := fun n =>
  if thread <? 2 then (Err RuntimeError, n)
  else if decide (is_Some (frames n !! thread)) then
    (l ← leave_frame thread; modify (add_event (CallReturned thread (Returned l)))) n
  else
    (s ← leave_write thread; modify (add_event (CallReturned thread (WriteReturned s)))) n.

(** One action of one thread.  A step that is not possible now is an [Err]; [Halt] is the end of
    the process. *)
Definition node_step (c : choice) : NodeM unit :=
  match c with
  | TimerTests => timer_loop worker_test
  | TimerFires =>
      can ← gets (fun n => bool_decide (frames n !! timer_thread = None /\ self n ∈ executors_ (timer_ n)) &&
                           in_task (timer_worker_ (timer_ n)));
      if (can : bool) then timer_turn timer_thread else fail RuntimeError
  | TimerReturns => _ ← leave_frame timer_thread; mret tt
  | TimerEnds =>
      idle ← gets (fun n => bool_decide (frames n !! timer_thread = None));
      if (idle : bool) then timer_loop worker_task_done else fail RuntimeError
  | FlusherTests => flusher_loop worker_test
  | FlusherAsks =>
      pc ← gets flusher;
      registered ← gets (fun n => bool_decide (self n ∈ logs_ (flusher_ n)) && in_task (flusher_worker_ (flusher_ n)));
      match pc, (registered : bool) with
      | FlusherIdle, true => _ ← GetReady flusher_thread; modify (set_flusher FlusherWaits)
      | _, _ => fail RuntimeError
      end
  | FlusherReturns =>
      l ← leave_frame flusher_thread;
      match l with
      | LocalsGetReady (Some rd) =>
          if async_starts_thread then modify (set_flusher (Flushing SendAsLeader rd)) else modify (set_flusher FlusherIdle)
      | _ => modify (set_flusher FlusherIdle)
      end
  | FlusherFlushes =>
      pc ← gets flusher;
      match pc with
      | Flushing stage rd => flush_step stage rd
      | _ => fail RuntimeError
      end
  | FlusherEnds =>
      pc ← gets flusher;
      match pc with
      | FlusherIdle => flusher_loop worker_task_done
      | _ => fail RuntimeError
      end
  | WorkerTests => queue_control DoTest
  | WorkerTimesOut => queue_control DoTimeout
  | WorkerTakes i => queue_control (DoTake i)
  | WorkerRuns => run_task
  | ClientWrites log => begin_call (fun thread => AsyncWrite thread log)
  | ClientAsksLeader => begin_call (fun thread => submit_and_wait thread (LocalsLeaderHint 0) (TaskLeaderHint thread))
  | RpcStep msg => begin_call (fun thread => RaftService_Step thread msg)
  | RpcStatus => begin_call RaftService_Status
  | CallReturns thread => call_returns thread
  end.

Fixpoint node_run (cs : list choice) : NodeM unit :=
  match cs with
  | [] => mret tt
  | c :: cs => _ ← node_step c; node_run cs
  end.

(** ** Construction *)

Record ReplicatedLogOptions := MkReplicatedLogOptions {
  initial_cluster : zmap string;
  opt_id : Z;
  heartbeat_interval : Z;
  election_timeout : Z;
  opt_taskQueue : option (TaskQueue task);
  opt_timer : option RaftTimer;
  opt_flusher : option ReadyFlusher;
  opt_wal : option wal_state;
  opt_memstore : option MemoryStorage;
}.

(** The default constructor; [id] is not initialised by it. *)
Definition new_ReplicatedLogOptions (id : Z) : ReplicatedLogOptions :=
  MkReplicatedLogOptions [] id 100 (10 * 1000) None None None None None.

Definition Validate (options : ReplicatedLogOptions) : result ErrorCode unit :=
  match opt_wal options with
  | None => Err BadConfig
  | Some _ => Ok tt
  end.

(** [New] of an object at address [this]; the null log is excluded by [Validate]. *)
Definition New (this : Z) (options : ReplicatedLogOptions) : result ErrorCode Node :=
  match Validate options, opt_wal options with
  | Err e, _ => Err e
  | Halt h, _ => Halt h
  | Ok _, None => Halt Undefined
  | Ok _, Some wal =>
      let conf := MkConfig (election_timeout options) (heartbeat_interval options) (opt_id options)
                    (fst <$> initial_cluster options) in
      let '(node, memstore) := new_RawNode conf (default new_MemoryStorage (opt_memstore options)) in
      match match opt_taskQueue options with Some q => Ok q | None => new_TaskQueue end with
      | Ok taskQueue =>
          let timer := RaftTimer_Register this (default new_RaftTimer (opt_timer options)) in
          match match opt_flusher options with Some f => Ok f | None => new_ReadyFlusher end with
          | Ok f =>
              let flusher := ReadyFlusher_Register this f in
              Ok (MkNode this timer flusher node memstore wal (Cluster_Default (initial_cluster options)) new_Network
                    new_WalCommitObserver taskQueue None ∅ FlusherIdle 2 [])
          | Err e => Err e
          | Halt h => Halt h
          end
      | Err e => Err e
      | Halt h => Halt h
      end
  end.
End node.
Arguments task : clear implicits.
Arguments task {_}.
