(* ===== verification/NodeSpec.v ===== *)
(** * What holds of a member under every schedule

    The invariant of [Node.v]'s steps: every closure that is queued, running or registered with
    the observer refers to a frame or a channel that is alive and was not signalled yet, no two of
    them to the same one, and a write is answered OK only after a commit index that covers it was
    announced. *)

From S2P Require Import Prelude External Status Channel TaskQueue Observer Cluster Node.

Section spec.
Context {Y : YaraftPb} {M : MemStoreLib Y} {MSG : YaraftMsg} {RAFT : RaftLib M MSG}.
Context {WAL : WriteAheadLog Y} {EI : ErasedIterator} {TC : Toolchain}.

(** ** Histories *)

(** [a] happened before [b]. *)
Definition before (a b : event) (h : list event) : Prop := exists h1 h2 h3, h = h1 ++ a :: h2 ++ b :: h3.

(** The write of [thread] was proposed at an index that a later notification covers, and the
    notification came from a [Ready] that the log had accepted before it.  It does not say that the
    entry at that index is still the one that was proposed: [Overwrite.v] has a case where it is
    not. *)
Definition acked (thread : Z) (h : list event) : Prop :=
  exists index commit rd,
    index <= commit /\ has_commit rd = Some commit /\
    before (Proposed thread index) (Notified commit) h /\ before (WalAccepted rd) (Notified commit) h.

Lemma before_app a b h h' : before a b h -> before a b (h ++ h').
Proof. intros (h1 & h2 & h3 & ->). exists h1, h2, (h3 ++ h'). by rewrite <- !app_assoc, <- app_comm_cons, <- app_assoc. Qed.

Lemma before_snoc a b h : a ∈ h -> before a b (h ++ [b]).
Proof.
  intros (h1 & h2 & ->)%list_elem_of_split. exists h1, h2, []. by rewrite <- app_assoc.
Qed.

Lemma acked_app thread h h' : acked thread h -> acked thread (h ++ h').
Proof.
  intros (i & c & rd & Hle & Hc & Hp & Hr). exists i, c, rd. split_and!; [done|done|by apply before_app..].
Qed.

(** ** The invariant *)

(** The statements of [flushReady] after the write to the log. *)
Definition after_write (stage : flush_stage) : bool :=
  match stage with SendAsLeader | WriteWal => false | _ => true end.

Definition task_thread (t : task) : Z :=
  match t with
  | TaskTick th | TaskGetReady th | TaskWrite th _ | TaskStep th _ | TaskStatus th | TaskLeaderHint th => th
  end.

(** What the closure will signal is alive and was not signalled. *)
Definition slot_pending (ob : WalCommitObserver) (fr : gmap Z frame) (t : task) : Prop :=
  match t with
  | TaskWrite th _ => channels ob !! th = Some Pending
  | _ => exists l, fr !! task_thread t = Some (MkFrame l Pending)
  end.

(** Writers that wait and that nobody is going to answer. *)
Context (lost : Z -> Prop).

(** The threads somebody still owes an answer. *)
Definition owing (q : TaskQueue task) (ob : WalCommitObserver) : list Z :=
  (task_thread ∘ snd <$> waiting q) ++ (snd <$> writes_ ob).

Record inv (q : TaskQueue task) (reg : option Z) (ob : WalCommitObserver) (fr : gmap Z frame)
    (fl : flusher_pc) (nt : Z) (h : list event) : Prop := {
  inv_queue : queue_inv q;
  inv_alive : owner q = Alive;
  inv_nodup : NoDup (owing q ob);
  inv_tasks p t : (p, t) ∈ waiting q -> slot_pending ob fr t;
  inv_producer p t : (p, t) ∈ waiting q -> p = task_thread t;
  inv_listen r ch : (r, ch) ∈ writes_ ob ->
    channels ob !! ch = Some Pending /\ exists index, r = (index, index) /\ Proposed ch index ∈ h;
  inv_chans th c : channels ob !! th = Some c ->
    2 <= th < nt /\ (c = Pending \/ exists s, c = Satisfied s /\ (s = OK -> acked th h));
  inv_frames th f : fr !! th = Some f ->
    0 <= th < nt /\ (frame_barrier f = Pending \/ frame_barrier f = Satisfied tt);
  inv_apart th : is_Some (fr !! th) -> channels ob !! th = None;
  inv_lost th : lost th -> channels ob !! th = Some Pending /\ th ∉ owing q ob;
  inv_threads : 2 <= nt;
  inv_flusher : is_Some (fr !! flusher_thread) -> fl = FlusherWaits;
  inv_reg index : reg = Some index ->
    exists p th log, task_ q = Some (p, TaskWrite th log) /\ Proposed th index ∈ h;
  inv_flush stage rd : fl = Flushing stage rd -> after_write stage = true -> WalAccepted rd ∈ h;
  inv_sent rd : SentAsFollower rd ∈ h -> before (WalAccepted rd) (SentAsFollower rd) h;
  inv_return th : CallReturned th (WriteReturned OK) ∈ h -> acked th h;
}.

Definition node_inv (n : Node) : Prop :=
  inv (queue n) (registering n) (walCommitObserver_ n) (frames n) (flusher n) (next_thread n) (history n).

(** ** Changes that keep it *)

(** An event other than the return of a successful write. *)
Lemma inv_event q reg ob fr fl nt h ev :
  inv q reg ob fr fl nt h -> (forall th, ev = CallReturned th (WriteReturned OK) -> acked th h) ->
  (forall rd, ev = SentAsFollower rd -> WalAccepted rd ∈ h) -> inv q reg ob fr fl nt (h ++ [ev]).
Proof.
  intros Hi Hev Hsent. split; try by destruct Hi.
  - intros r ch Hin. destruct (inv_listen _ _ _ _ _ _ _ Hi r ch Hin) as [? (i & -> & ?)]. split; [done|].
    exists i. split; [done|]. apply elem_of_app. by left.
  - intros th c Hc. destruct (inv_chans _ _ _ _ _ _ _ Hi th c Hc) as [? [?|(s & -> & Hs)]]; split; try done; [by left|].
    right. exists s. split; [done|]. intros ->. by apply acked_app, Hs.
  - intros i Hr. destruct (inv_reg _ _ _ _ _ _ _ Hi i Hr) as (p & th & log & ? & ?).
    exists p, th, log. split; [done|]. apply elem_of_app. by left.
  - intros st rd Hf Hst. apply elem_of_app. left. by apply (inv_flush _ _ _ _ _ _ _ Hi st).
  - intros rd [Hin|Hin]%elem_of_app; [by apply before_app, (inv_sent _ _ _ _ _ _ _ Hi)|].
    apply list_elem_of_singleton in Hin. subst ev. apply before_snoc. by apply Hsent.
  - intros th [Hin|Hin]%elem_of_app; apply acked_app; [by apply (inv_return _ _ _ _ _ _ _ Hi)|].
    apply list_elem_of_singleton in Hin. by apply Hev.
Qed.

(** The flusher moves on. *)
Lemma inv_set_flusher q reg ob fr fl nt h fl' :
  inv q reg ob fr fl nt h -> (is_Some (fr !! flusher_thread) -> fl' = FlusherWaits) ->
  (forall stage rd, fl' = Flushing stage rd -> after_write stage = true -> WalAccepted rd ∈ h) ->
  inv q reg ob fr fl' nt h.
Proof. intros Hi Hf Hp. split; try by destruct Hi. Qed.

Lemma waiting_Enqueue p t (q : TaskQueue task) : waiting (Enqueue p t q) = waiting q ++ [(p, t)].
Proof. unfold waiting, Enqueue. cbn. by rewrite app_assoc. Qed.

Lemma owing_slot q reg ob fr fl nt h th :
  inv q reg ob fr fl nt h -> th ∈ owing q ob -> is_Some (channels ob !! th) \/ is_Some (fr !! th).
Proof.
  intros Hi [Hin|Hin]%elem_of_app.
  - apply list_elem_of_fmap in Hin as ([p t] & -> & Hin). apply (inv_tasks _ _ _ _ _ _ _ Hi) in Hin.
    destruct t; cbn in *; try (destruct Hin as [l Hl]; right; by rewrite Hl). left. by rewrite Hin.
  - apply list_elem_of_fmap in Hin as ([r ch] & -> & Hin).
    apply (inv_listen _ _ _ _ _ _ _ Hi) in Hin as [Hc _]. left. cbn. by rewrite Hc.
Qed.

Lemma slot_ext ob fr ob' fr' t :
  channels ob' !! task_thread t = channels ob !! task_thread t -> fr' !! task_thread t = fr !! task_thread t ->
  slot_pending ob fr t -> slot_pending ob' fr' t.
Proof. destruct t; cbn; intros Hc Hf; rewrite ?Hc, ?Hf; done. Qed.

Lemma waiting_owing q ob p t : (p, t) ∈ waiting q -> task_thread t ∈ owing q ob.
Proof. intros Hin. apply elem_of_app. left. apply list_elem_of_fmap. by exists (p, t). Qed.

Lemma writes_owing q ob r ch : (r, ch) ∈ writes_ ob -> ch ∈ owing q ob.
Proof. intros Hin. apply elem_of_app. right. apply list_elem_of_fmap. by exists (r, ch). Qed.

(** A thread with a new frame or channel submits a closure. *)
Lemma inv_submit q reg ob fr fl nt h ob' fr' fl' nt' t :
  let th := task_thread t in
  inv q reg ob fr fl nt h -> channels ob !! th = None -> fr !! th = None -> 0 <= th < nt' -> nt <= nt' ->
  writes_ ob' = writes_ ob ->
  (forall x, x <> th -> channels ob' !! x = channels ob !! x /\ fr' !! x = fr !! x) ->
  (match t with
   | TaskWrite _ _ => 2 <= th /\ channels ob' !! th = Some Pending /\ fr' !! th = None
   | _ => channels ob' !! th = None /\ exists l, fr' !! th = Some (MkFrame l Pending)
   end) ->
  (is_Some (fr' !! flusher_thread) -> fl' = FlusherWaits) ->
  (forall stage rd, fl' = Flushing stage rd -> after_write stage = true -> fl' = fl) ->
  inv (Enqueue th t q) reg ob' fr' fl' nt' h.
Proof.
  intros th Hi Hc Hf Hth Hnt Hw Hx Ht Hfl Hfl'.
  assert (th ∉ owing q ob) as Hno.
  { intros Ho. destruct (owing_slot _ _ _ _ _ _ _ _ Hi Ho) as [[? E]|[? E]]; congruence. }
  assert (slot_pending ob' fr' t) as Hslot by (by destruct t; destruct_and?).
  split.
  - destruct (inv_queue _ _ _ _ _ _ _ Hi) as [Ho Htk]. by split.
  - apply (inv_alive _ _ _ _ _ _ _ Hi).
  - unfold owing in *. rewrite waiting_Enqueue, fmap_app, Hw. cbn.
    rewrite <- app_assoc. apply (NoDup_Permutation_proper _ (th :: owing q ob)); [|by apply NoDup_cons; split; [|apply Hi]].
    unfold owing. cbn. by rewrite <- Permutation_middle.
  - intros p t'. rewrite waiting_Enqueue. intros [Hin|Hin]%elem_of_app; [|by apply list_elem_of_singleton in Hin; simplify_eq].
    pose proof (waiting_owing q ob p t' Hin) as Ho.
    assert (task_thread t' <> th) as Hne by (by intros He; rewrite He in Ho).
    destruct (Hx _ Hne) as [E1 E2]. apply (slot_ext ob fr); [done..|]. by apply (inv_tasks _ _ _ _ _ _ _ Hi p).
  - intros p t'. rewrite waiting_Enqueue. intros [Hin|Hin]%elem_of_app; [|by apply list_elem_of_singleton in Hin; simplify_eq].
    by apply (inv_producer _ _ _ _ _ _ _ Hi).
  - rewrite Hw. intros r ch Hin. destruct (inv_listen _ _ _ _ _ _ _ Hi r ch Hin) as [Hch Hp]. split; [|done].
    destruct (Hx ch) as [-> _]; [|done]. intros ->. apply Hno. by apply (writes_owing q ob r).
  - intros x c Hxc. destruct (decide (x = th)) as [->|Hne].
    + destruct t; destruct Ht as (E1 & E2); try congruence. destruct E2 as [E2 _].
      rewrite E2 in Hxc. injection Hxc as <-. split; [cbn in *; lia|by left].
    + destruct (Hx x Hne) as [E _]. rewrite E in Hxc.
      destruct (inv_chans _ _ _ _ _ _ _ Hi x c Hxc). split; [lia|done].
  - intros x f Hxf. destruct (decide (x = th)) as [->|Hne].
    + split; [done|]. left. destruct t; destruct Ht as [_ Ht]; [..|by destruct Ht as [l Hl]; rewrite Hl in Hxf; injection Hxf as <-];
        try (destruct Ht as [l Hl]; rewrite Hl in Hxf; by injection Hxf as <-).
      destruct Ht as [_ Ht]. congruence.
    + destruct (Hx x Hne) as [_ E]. rewrite E in Hxf.
      destruct (inv_frames _ _ _ _ _ _ _ Hi x f Hxf). split; [lia|done].
  - intros x Hxs. destruct (decide (x = th)) as [->|Hne].
    + destruct t; destruct Ht as [E1 E2]; try done. destruct E2 as [_ E2]. rewrite E2 in Hxs. by destruct Hxs.
    + destruct (Hx x Hne) as [-> E]. rewrite E in Hxs. by apply (inv_apart _ _ _ _ _ _ _ Hi).
  - intros x Hl. destruct (inv_lost _ _ _ _ _ _ _ Hi x Hl) as [Hp Hnx].
    assert (x <> th) as Hne by congruence. destruct (Hx x Hne) as [-> _]. split; [done|].
    unfold owing. rewrite waiting_Enqueue, fmap_app, Hw, !elem_of_app. cbn. rewrite list_elem_of_singleton.
    intros [[Hin|Hin]|Hin]; [|done|]; apply Hnx, elem_of_app; auto.
  - pose proof (inv_threads _ _ _ _ _ _ _ Hi). lia.
  - done.
  - apply (inv_reg _ _ _ _ _ _ _ Hi).
  - intros st rd Hrd Hst. apply (inv_flush _ _ _ _ _ _ _ Hi st); [|done]. by rewrite <- (Hfl' st rd Hrd Hst).
  - apply (inv_sent _ _ _ _ _ _ _ Hi).
  - apply (inv_return _ _ _ _ _ _ _ Hi).
Qed.

(** The worker takes a step that runs nothing. *)
Lemma inv_control q reg ob fr fl nt h c q' ran :
  inv q reg ob fr fl nt h -> (match c with DoTest | DoTimeout | DoTake _ => True | _ => False end) ->
  step c q = Some (q', ran) -> inv q' reg ob fr fl nt h.
Proof.
  intros Hi Hc Hs. destruct (step_control c q q' ran Hc Hs) as (Hw & Ho & Ht). split; try by destruct Hi.
  - eapply step_inv; [apply (inv_queue _ _ _ _ _ _ _ Hi)|done].
  - rewrite Ho. apply (inv_alive _ _ _ _ _ _ _ Hi).
  - unfold owing. rewrite Hw. apply (inv_nodup _ _ _ _ _ _ _ Hi).
  - intros p t. rewrite Hw. apply (inv_tasks _ _ _ _ _ _ _ Hi).
  - intros p t. rewrite Hw. apply (inv_producer _ _ _ _ _ _ _ Hi).
  - intros x. unfold owing. rewrite Hw. apply (inv_lost _ _ _ _ _ _ _ Hi).
  - intros i Hr. destruct (inv_reg _ _ _ _ _ _ _ Hi i Hr) as (p & th & log & Htk & ?). exists p, th, log. auto.
Qed.

(** The closure [t] ends: its thread is owed nothing more by it. *)
Lemma inv_task_done q reg ob fr fl nt h p t q' :
  inv q reg ob fr fl nt h -> step DoRun q = Some (q', [(p, t)]) -> task_ q = Some (p, t) ->
  inv q' None ob fr fl nt h /\ task_thread t ∉ owing q' ob /\ ~ lost (task_thread t).
Proof.
  intros Hi Hs Htk.
  destruct (step_run q (p, t) (inv_queue _ _ _ _ _ _ _ Hi) Htk) as (q1 & Hs1 & Hw & Ht & Ho).
  rewrite Hs in Hs1. injection Hs1 as <-.
  pose proof (inv_nodup _ _ _ _ _ _ _ Hi) as Hnd. unfold owing in Hnd. rewrite Hw in Hnd. cbn in Hnd.
  apply NoDup_cons in Hnd as [Hno Hnd].
  assert (owing q ob = task_thread t :: owing q' ob) as How by (unfold owing; by rewrite Hw).
  split; [|split; [done|]].
  2: { intros Hl. destruct (inv_lost _ _ _ _ _ _ _ Hi _ Hl) as [_ Hn]. apply Hn. rewrite How. by left. }
  split; try by destruct Hi.
  - eapply step_inv; [apply (inv_queue _ _ _ _ _ _ _ Hi)|done].
  - rewrite Ho. apply (inv_alive _ _ _ _ _ _ _ Hi).
  - intros p' t' Hin. apply (inv_tasks _ _ _ _ _ _ _ Hi p'). rewrite Hw. by right.
  - intros p' t' Hin. apply (inv_producer _ _ _ _ _ _ _ Hi). rewrite Hw. by right.
  - intros x Hl. destruct (inv_lost _ _ _ _ _ _ _ Hi x Hl) as [? Hn]. split; [done|].
    rewrite How in Hn. by apply not_elem_of_cons in Hn as [_ ?].
Qed.

(** The answer to a thread that is owed nothing more is written into its frame. *)
Lemma inv_answer_frame q reg ob fr fl nt h th l l0 :
  inv q reg ob fr fl nt h -> th ∉ owing q ob -> fr !! th = Some (MkFrame l0 Pending) ->
  inv q reg ob (<[th := MkFrame l (Satisfied tt)]> fr) fl nt h.
Proof.
  intros Hi Hno Hf. split; try by destruct Hi.
  - intros p t Hin. apply (slot_ext ob fr); [done| |by apply (inv_tasks _ _ _ _ _ _ _ Hi p)].
    apply lookup_insert_ne. intros ->. by apply Hno, (waiting_owing q ob p).
  - intros x f Hx. destruct (inv_frames _ _ _ _ _ _ _ Hi th _ Hf) as [Hr _].
    apply lookup_insert_Some in Hx as [[<- <-]|[_ Hx]]; [split; [done|by right]|].
    by apply (inv_frames _ _ _ _ _ _ _ Hi).
  - intros x [f Hx]. apply (inv_apart _ _ _ _ _ _ _ Hi).
    apply lookup_insert_Some in Hx as [[-> _]|[_ Hx]]; [by rewrite Hf|by rewrite Hx].
  - intros [f Hx]. apply (inv_flusher _ _ _ _ _ _ _ Hi).
    apply lookup_insert_Some in Hx as [[-> _]|[_ Hx]]; [by rewrite Hf|by rewrite Hx].
Qed.

(** An error is sent to a writer that is owed nothing more. *)
Lemma inv_answer_write q reg ob fr fl nt h th s :
  inv q reg ob fr fl nt h -> th ∉ owing q ob -> ~ lost th -> is_Some (channels ob !! th) -> s <> OK ->
  inv q reg (MkWalCommitObserver (writes_ ob) (<[th := Satisfied s]> (channels ob))) fr fl nt h.
Proof.
  intros Hi Hno Hnl [c Hc] Hs. destruct (inv_chans _ _ _ _ _ _ _ Hi th c Hc) as [Hr _]. split; try by destruct Hi.
  - intros p t Hin. apply (slot_ext ob fr); [|done|by apply (inv_tasks _ _ _ _ _ _ _ Hi p)].
    apply lookup_insert_ne. intros ->. by apply Hno, (waiting_owing q ob p).
  - intros r ch Hin. cbn in *. destruct (inv_listen _ _ _ _ _ _ _ Hi r ch Hin) as [? ?]. split; [|done].
    rewrite lookup_insert_ne; [done|]. intros ->. by apply Hno, (writes_owing q ob r).
  - intros x c' Hx. cbn in Hx. apply lookup_insert_Some in Hx as [[<- <-]|[_ Hx]].
    + split; [done|]. right. by exists s.
    + by apply (inv_chans _ _ _ _ _ _ _ Hi).
  - intros x Hx. cbn. pose proof (inv_apart _ _ _ _ _ _ _ Hi x Hx) as Hn.
    rewrite lookup_insert_ne; [done|]. intros ->. congruence.
  - intros x Hl. destruct (inv_lost _ _ _ _ _ _ _ Hi x Hl). split; [|done]. cbn.
    rewrite lookup_insert_ne; [done|]. by intros ->.
Qed.

(** A frame or a channel nobody is going to signal is left. *)
Lemma inv_leave q reg ob fr fl nt h ob' fr' th fl' :
  inv q reg ob fr fl nt h -> th ∉ owing q ob -> writes_ ob' = writes_ ob ->
  (channels ob' = delete th (channels ob) /\ ~ lost th) \/ channels ob' = channels ob -> fr' = delete th fr \/ fr' = fr ->
  (forall stage rd, fl' = Flushing stage rd -> after_write stage = true -> fl' = fl) ->
  (is_Some (fr' !! flusher_thread) -> fl' = FlusherWaits) ->
  inv q reg ob' fr' fl' nt h.
Proof.
  intros Hi Hno Hw Hc Hf Hfl Hfw.
  assert (forall x, x <> th -> channels ob' !! x = channels ob !! x /\ fr' !! x = fr !! x) as Hx.
  { intros x Hne. split; [destruct Hc as [[-> _]| ->]|destruct Hf as [->| ->]]; rewrite ?lookup_delete_ne by done; done. }
  split; try by destruct Hi.
  - unfold owing. rewrite Hw. apply (inv_nodup _ _ _ _ _ _ _ Hi).
  - intros p t Hin. assert (task_thread t <> th) as Hne.
    { intros <-. by apply Hno, (waiting_owing q ob p). }
    destruct (Hx _ Hne) as [E1 E2]. apply (slot_ext ob fr); [done..|]. by apply (inv_tasks _ _ _ _ _ _ _ Hi p).
  - rewrite Hw. intros r ch Hin. destruct (inv_listen _ _ _ _ _ _ _ Hi r ch Hin) as [? ?]. split; [|done].
    destruct (Hx ch) as [-> _]; [|done]. intros ->. by apply Hno, (writes_owing q ob r).
  - intros x c Hxc. apply (inv_chans _ _ _ _ _ _ _ Hi). destruct Hc as [[Hc _]|Hc]; rewrite Hc in Hxc; [|done].
    by apply lookup_delete_Some in Hxc as [_ ?].
  - intros x f Hxf. apply (inv_frames _ _ _ _ _ _ _ Hi). destruct Hf as [Hf|Hf]; rewrite Hf in Hxf; [|done].
    by apply lookup_delete_Some in Hxf as [_ ?].
  - intros x [f Hxf]. assert (channels ob !! x = None) as Hn.
    { apply (inv_apart _ _ _ _ _ _ _ Hi). destruct Hf as [Hf|Hf]; rewrite Hf in Hxf; [|by rewrite Hxf].
      apply lookup_delete_Some in Hxf as [_ E]. by rewrite E. }
    destruct Hc as [[-> _]| ->]; [|done]. apply lookup_delete_None. by right.
  - intros x Hl. destruct (inv_lost _ _ _ _ _ _ _ Hi x Hl). unfold owing. rewrite Hw. split; [|done].
    destruct Hc as [[-> Hnl]| ->]; [|done]. rewrite lookup_delete_ne; [done|]. by intros ->.
  - intros st rd Hrd Hst. apply (inv_flush _ _ _ _ _ _ _ Hi st); [|done]. by rewrite <- (Hfl st rd Hrd Hst).
Qed.

(** A satisfied slot is owed nothing. *)
Lemma satisfied_not_owing q reg ob fr fl nt h th :
  inv q reg ob fr fl nt h -> channels ob !! th <> Some Pending ->
  (forall l, fr !! th <> Some (MkFrame l Pending)) -> th ∉ owing q ob.
Proof.
  intros Hi Hc Hf [Hin|Hin]%elem_of_app.
  - apply list_elem_of_fmap in Hin as ([p t] & -> & Hin). apply (inv_tasks _ _ _ _ _ _ _ Hi) in Hin.
    destruct t; cbn in *; try (destruct Hin as [l Hl]; by apply (Hf l)). done.
  - apply list_elem_of_fmap in Hin as ([r ch] & -> & Hin).
    by apply (inv_listen _ _ _ _ _ _ _ Hi) in Hin as [? _].
Qed.

(** A writer is registered with the observer, or dropped because its range is taken. *)
Lemma inv_register q reg ob fr fl nt h p th log q' index r ob' :
  inv q reg ob fr fl nt h -> step DoRun q = Some (q', [(p, TaskWrite th log)]) ->
  task_ q = Some (p, TaskWrite th log) -> Proposed th index ∈ h ->
  Register (index, index) th ob = (r, ob') -> r = Ok tt /\ inv q' None ob' fr fl nt h.
Proof.
  intros Hi Hs Htk Hp Hr.
  assert (channels ob !! th = Some Pending) as Hpend.
  { apply (inv_tasks _ _ _ _ _ _ _ Hi p (TaskWrite th log)). unfold waiting. rewrite Htk. by left. }
  destruct (inv_task_done _ _ _ _ _ _ _ _ _ _ Hi Hs Htk) as (Hi' & Hno & Hnl). cbn in Hno, Hnl.
  unfold Register in Hr. erewrite (run_bind_ok (gets writes_)) in Hr by done.
  destruct (omap_find range_ltb (index, index) (writes_ ob)) eqn:Hfind; [by injection Hr as <- <-|].
  cbn in Hr. injection Hr as <- <-. split; [done|].
  pose proof (insert_perm _ th _ Hfind) as Hperm. split; try by destruct Hi'.
  - unfold owing. cbn. rewrite Hperm. cbn. rewrite <- Permutation_middle. apply NoDup_cons.
    split; [done|apply (inv_nodup _ _ _ _ _ _ _ Hi')].
  - intros x ch Hin. cbn in *. rewrite Hperm in Hin. apply elem_of_cons in Hin as [[= -> ->]|Hin].
    + split; [done|]. by exists index.
    + by apply (inv_listen _ _ _ _ _ _ _ Hi').
  - intros x Hl. destruct (inv_lost _ _ _ _ _ _ _ Hi' x Hl) as [? Hnx]. split; [done|].
    unfold owing in *. cbn. rewrite Hperm. cbn. rewrite <- Permutation_middle, not_elem_of_cons.
    split; [by intros ->|done].
Qed.

(** The listeners are notified. *)
Lemma inv_notify q reg ob fr fl nt h c rd r ob' :
  inv q reg ob fr fl nt h -> has_commit rd = Some c -> WalAccepted rd ∈ h -> Notify c ob = (r, ob') ->
  (r = Halt Undefined /\ erased_iterator_steps = false /\ writes_ ob <> []) \/
  (r = Ok tt /\ inv q reg ob' fr fl nt (h ++ [Notified c])).
Proof.
  intros Hi Hc Hp Hr.
  pose proof (inv_nodup _ _ _ _ _ _ _ Hi) as Hnd. apply NoDup_app in Hnd as (Hnd1 & Hdis & Hnd2).
  assert (listening ob) as Hl by (split; [done|]; intros x ch Hin; by apply (inv_listen _ _ _ _ _ _ _ Hi) in Hin as [? _]).
  destruct (Notify_cases _ c ob Hl) as [Hund|[_ Hrun]]; [left; rewrite Hr in Hund; destruct Hund as (E & ? & ?); cbn in E; by subst r|right].
  rewrite Hrun in Hr. injection Hr as <- <-. split; [done|].
  apply (inv_event _ _ _ _ _ _ _ (Notified c)) in Hi as Hi'; [|done|done].
  assert (forall x, x ∉ (snd <$> writes_ ob) -> told c (writes_ ob) (channels ob) !! x = channels ob !! x) as Hne
    by (intros x; apply told_ne).
  split; try by destruct Hi'.
  - unfold owing. cbn. by rewrite app_nil_r.
  - intros p t Hin. apply (slot_ext ob fr); [|done|by apply (inv_tasks _ _ _ _ _ _ _ Hi p)]. apply Hne. cbn.
    apply Hdis, list_elem_of_fmap. by exists (p, t).
  - by intros x ch Hin%elem_of_nil.
  - intros x ch Hx. cbn in Hx. destruct (decide (x ∈ (snd <$> writes_ ob))) as [Hin|Hni].
    + apply list_elem_of_fmap in Hin as ([rg x'] & -> & Hin). cbn in Hx.
      rewrite (told_spec c _ _ rg x' Hnd2 Hin) in Hx.
      destruct (inv_listen _ _ _ _ _ _ _ Hi rg x' Hin) as [Hpend (index & -> & Hprop)]. cbn [snd] in Hx.
      destruct (inv_chans _ _ _ _ _ _ _ Hi' x' Pending Hpend) as [Hrange _].
      destruct (Z.leb_spec index c); [|rewrite Hpend in Hx; injection Hx as <-; split; [done|by left]].
      injection Hx as <-. split; [done|]. right. exists OK. split; [done|]. intros _.
      exists index, c, rd. split_and!; [done|done|by apply before_snoc..].
    + rewrite Hne in Hx by done. by apply (inv_chans _ _ _ _ _ _ _ Hi').
  - intros x Hx. pose proof (inv_apart _ _ _ _ _ _ _ Hi x Hx) as Hn. cbn. rewrite Hne; [done|].
    intros ([rg x'] & -> & Hin)%list_elem_of_fmap. apply (inv_listen _ _ _ _ _ _ _ Hi) in Hin as [Hp' _].
    cbn in Hn. congruence.
  - intros x Hlx. destruct (inv_lost _ _ _ _ _ _ _ Hi x Hlx) as [Hp' Hnx].
    unfold owing in *. apply not_elem_of_app in Hnx as [Hn1 Hn2]. cbn. rewrite app_nil_r, Hne by done. done.
Qed.

(** ** The steps *)

Abbreviation NodeM := (Prog ErrorCode Node).

(** An undeliverable mail: no member has that id. *)
Definition undeliverable (peers : PeerManager) (m : Message) : Prop :=
  message_to m = 0 \/ zmap_find (message_to m) peers = None.

(** Why the step [c] of the state [n] ends the process: the state machine answers a message with a
    code the service does not know; a mail cannot be delivered; the log refuses this [Ready] or
    itself runs into [h] on it; or [Notify] steps an erased iterator that does not step. *)
Inductive fault (c : choice) (n : Node) : halt -> Prop :=
  | fault_code p thread msg code :
      c = WorkerRuns -> task_ (queue n) = Some (p, TaskStep thread msg) ->
      fst (rn_Step msg (fsm n)) = Some (OtherYaraftError code) -> fault c n FatalLog
  | fault_mail stage rd m :
      c = FlusherFlushes -> flusher n = Flushing stage rd -> stage = SendAsLeader \/ stage = SendAsFollower ->
      m ∈ messages rd -> undeliverable (cluster_ n) m -> fault c n FatalLog
  | fault_status rd e w :
      c = FlusherFlushes -> flusher n = Flushing WriteWal rd ->
      wal_Write (entries rd) (hardState rd) (wal_ n) = (Err e, w) -> fault c n FatalLog
  | fault_wal rd h w :
      c = FlusherFlushes -> flusher n = Flushing WriteWal rd ->
      wal_Write (entries rd) (hardState rd) (wal_ n) = (Halt h, w) -> fault c n h
  | fault_notify rd commit :
      c = FlusherFlushes -> flusher n = Flushing NotifyCommit rd -> has_commit rd = Some commit ->
      erased_iterator_steps = false -> writes_ (walCommitObserver_ n) <> [] -> fault c n Undefined.

(** The first step of a schedule that ends the process, with its reason. *)
Definition faulted (cs : list choice) (n : Node) (h : halt) : Prop :=
  exists cs1 c cs2 n1, cs = cs1 ++ c :: cs2 /\ node_run cs1 n = (Ok tt, n1) /\ fault c n1 h.

(** The end of a step: [X] are the ends of the process that may be. *)
Definition step_ok {A} (X : halt -> Prop) (Q : Node -> Prop) (r : result ErrorCode A) (n : Node) : Prop :=
  match r with
  | Ok _ => Q n
  | Err _ => True
  | Halt h => X h
  end.

Lemma step_ok_mono {A} (X X' : halt -> Prop) (Q Q' : Node -> Prop) (r : result ErrorCode A) n :
  (forall h, X h -> X' h) -> (forall n, Q n -> Q' n) -> step_ok X Q r n -> step_ok X' Q' r n.
Proof. destruct r; cbn; auto. Qed.

Definition is_write (t : task) : bool := match t with TaskWrite _ _ => true | _ => false end.

(** Everything but the state machine, the log, the network and the frames is as before. *)
Definition same_threads (n n' : Node) : Prop :=
  queue n' = queue n /\ registering n' = registering n /\ walCommitObserver_ n' = walCommitObserver_ n /\
  flusher n' = flusher n /\ next_thread n' = next_thread n /\ history n' = history n.

Lemma signal_frame_ok th l l0 n :
  frames n !! th = Some (MkFrame l0 Pending) ->
  signal_frame th l n = (Ok tt, set_frames (<[th := MkFrame l (Satisfied tt)]> (frames n)) n).
Proof. intros Hf. unfold signal_frame. by rewrite Hf. Qed.

Definition unknown_code (t : task) (n : Node) (h : halt) : Prop :=
  h = FatalLog /\ exists thread msg code, t = TaskStep thread msg /\ fst (rn_Step msg (fsm n)) = Some (OtherYaraftError code).

Lemma run_closure_spec t n :
  is_write t = false -> slot_pending (walCommitObserver_ n) (frames n) t ->
  wp (run_closure t) n (step_ok (unknown_code t n) (fun n' => same_threads n n' /\
    exists l, frames n' = <[task_thread t := MkFrame l (Satisfied tt)]> (frames n))).
Proof.
  intros Hw Hs.
  assert (forall l (n1 : Node), same_threads n n1 -> frames n1 = frames n ->
    wp (signal_frame (task_thread t) l) n1 (step_ok (unknown_code t n) (fun n' => same_threads n n' /\
      exists l, frames n' = <[task_thread t := MkFrame l (Satisfied tt)]> (frames n)))) as Hsig.
  { intros l n1 Hn Hf. destruct t; try done; destruct Hs as [l0 Hl0]; rewrite <- Hf in Hl0;
      (eapply wp_eq; [by apply (signal_frame_ok _ l l0)|]; cbn; split; [done|]; exists l; by rewrite Hf). }
  destruct t; cbn [run_closure task_thread] in *; try done; apply wp_bind.
  - unfold run_fsm. eapply wp_eq; [done|]. by apply Hsig.
  - unfold run_fsm. destruct (rn_GetReady (fsm n)) as [rd s] eqn:Hr. eapply wp_eq; [by rewrite Hr|]. by apply Hsig.
  - unfold run_fsm. destruct (rn_Step msg (fsm n)) as [[code|] s] eqn:Hr; (eapply wp_eq; [by rewrite Hr|]); [|by apply Hsig].
    apply wp_bind. destruct code; (eapply wp_eq; [done|]); [by apply Hsig..|].
    split; [done|]. exists thread, msg, code. by rewrite Hr.
  - apply wp_gets. by apply Hsig.
  - apply wp_gets. by apply Hsig.
Qed.

Lemma queue_control_eq c n q' ran :
  step c (queue n) = Some (q', ran) -> queue_control c n = (Ok tt, set_queue q' n).
Proof. intros Hs. unfold queue_control. by rewrite Hs. Qed.

(** A closure other than a write runs and ends. *)
Lemma closure_step p t n :
  node_inv n -> task_ (queue n) = Some (p, t) -> is_write t = false ->
  wp (_ ← run_closure t; queue_control DoRun) n (step_ok (fault WorkerRuns n) node_inv).
Proof.
  intros Hi Ht Hw. apply wp_bind.
  assert (slot_pending (walCommitObserver_ n) (frames n) t) as Hs.
  { apply (inv_tasks _ _ _ _ _ _ _ Hi p). unfold waiting. rewrite Ht. by left. }
  eapply wp_mono; [by apply run_closure_spec|]. intros [u|e|h] n'; [|done|].
  2: { intros (-> & thread & msg & code & -> & Hcode). by eapply fault_code. }
  intros [(Eq & Er & Eo & Ef & En & Eh) [l Hl]].
  destruct (step_run (queue n) (p, t) (inv_queue _ _ _ _ _ _ _ Hi) Ht) as (q' & Hrun & _).
  destruct (inv_task_done _ _ _ _ _ _ _ _ _ _ Hi Hrun Ht) as (Hi' & Hno & Hnl).
  eapply wp_eq; [eapply queue_control_eq; by rewrite Eq|]. cbn.
  assert (exists l0, frames n !! task_thread t = Some (MkFrame l0 Pending)) as [l0 Hl0] by (by destruct t).
  apply (inv_answer_frame _ _ _ _ _ _ _ (task_thread t) l l0) in Hi'; [|done|done].
  assert (registering n = None) as Hreg.
  { destruct (registering n) as [i|] eqn:Hr; [|done].
    destruct (inv_reg _ _ _ _ _ _ _ Hi i Hr) as (p' & th & log & E & _). rewrite Ht in E. by simplify_eq. }
  unfold node_inv. cbn. by rewrite Er, Hreg, Eo, Ef, En, Eh, Hl.
Qed.

(** The closure of a write, first half. *)
Lemma send_error_step X p th log s n :
  node_inv n -> task_ (queue n) = Some (p, TaskWrite th log) -> registering n = None -> s <> OK ->
  wp (_ ← on_observer (send_to th s); mret (None : option Z)) n (fun r n' =>
    match r with
    | Ok index => index = None /\ wp (queue_control DoRun) n' (step_ok X node_inv)
    | _ => False
    end).
Proof.
  intros Hi Ht Hreg Hs. apply wp_bind, wp_zoom.
  assert (channels (walCommitObserver_ n) !! th = Some Pending) as Hp.
  { apply (inv_tasks _ _ _ _ _ _ _ Hi p (TaskWrite th log)). unfold waiting. rewrite Ht. by left. }
  destruct (walCommitObserver_ n) as [w chans] eqn:Hob. cbn in Hp.
  eapply wp_eq; [by apply send_to_pending|]. cbn beta iota. apply wp_ret. split; [done|].
  destruct (step_run (queue n) _ (inv_queue _ _ _ _ _ _ _ Hi) Ht) as (q' & Hrun & _).
  destruct (inv_task_done _ _ _ _ _ _ _ _ _ _ Hi Hrun Ht) as (Hi' & Hno & Hnl).
  eapply wp_eq; [by eapply queue_control_eq|]. unfold step_ok, node_inv. cbn. rewrite Hreg.
  rewrite Hob in Hi', Hno. apply (inv_answer_write _ _ (MkWalCommitObserver w chans)); [done|done|done| |done].
  by exists Pending.
Qed.

Lemma propose_step p th log n :
  node_inv n -> task_ (queue n) = Some (p, TaskWrite th log) -> registering n = None ->
  wp (index ← propose th log;
      match index with
      | Some newIndex => modify (set_registering (Some newIndex))
      | None => queue_control DoRun
      end) n (step_ok (fault WorkerRuns n) node_inv).
Proof.
  intros Hi Ht Hreg. apply wp_bind. unfold propose. apply wp_bind, wp_gets.
  destruct (rn_IsLeader (node_ n)); cbn [negb].
  2: { eapply wp_mono; [by eapply send_error_step|]. intros [index| |] n'; [|done|done]. by intros [-> ?]. }
  apply wp_bind. unfold run_fsm. destruct (rn_Propose log (fsm n)) as [[e|] s] eqn:Hp; (eapply wp_eq; [by rewrite Hp|]).
  - eapply wp_mono; [by eapply (send_error_step _ p th log _ (set_fsm s n))|].
    intros [index| |] n'; [|done|done]. by intros [-> ?].
  - apply wp_bind, wp_gets, wp_bind, wp_modify, wp_ret, wp_modify. cbn.
    apply (inv_event _ _ _ _ _ _ _ (Proposed th (rn_LastIndex (fsm (set_fsm s n))))) in Hi; [|done|done].
    split; try by destruct Hi. intros i [= <-]. exists p, th, log. split; [done|]. apply elem_of_app. right. by left.
Qed.

(** The second half. *)
Lemma register_step p th log index n :
  node_inv n -> task_ (queue n) = Some (p, TaskWrite th log) -> registering n = Some index ->
  wp (_ ← on_observer (Register (index, index) th); _ ← modify (set_registering None); queue_control DoRun) n
    (step_ok (fault WorkerRuns n) node_inv).
Proof.
  intros Hi Ht Hreg. destruct (inv_reg _ _ _ _ _ _ _ Hi index Hreg) as (p' & th' & log' & E & Hp).
  rewrite Ht in E. injection E as <- <- <-.
  destruct (step_run (queue n) _ (inv_queue _ _ _ _ _ _ _ Hi) Ht) as (q' & Hrun & _).
  destruct (Register (index, index) th (walCommitObserver_ n)) as [r ob'] eqn:Hr.
  destruct (inv_register _ _ _ _ _ _ _ _ _ _ _ _ _ _ Hi Hrun Ht Hp Hr) as [-> Hi'].
  apply wp_bind, wp_zoom. eapply wp_eq; [exact Hr|]. cbn beta iota. apply wp_bind, wp_modify.
  by eapply wp_eq; [by eapply queue_control_eq|].
Qed.

Lemma run_task_step n : node_inv n -> wp run_task n (step_ok (fault WorkerRuns n) node_inv).
Proof.
  intros Hi. apply wp_bind, wp_gets. destruct (task_ (queue n)) as [[p t]|] eqn:Ht; [|by apply wp_fail].
  destruct (is_write t) eqn:Hw.
  - destruct t; try done. apply wp_bind, wp_gets. destruct (registering n) eqn:Hr.
    + by eapply register_step.
    + by eapply propose_step.
  - destruct t; try done; by eapply closure_step.
Qed.

(** *** The flusher *)

Lemma pass_messages_spec ev rd n :
  wp (pass_messages ev rd) n (fun r n' =>
    match r with
    | Ok rd' => exists net, n' = set_network net n \/ n' = add_event (ev rd) (set_network net n)
    | Err _ => True
    | Halt h => h = FatalLog /\ exists m, m ∈ messages rd /\ undeliverable (cluster_ n) m
    end).
Proof.
  unfold pass_messages. destruct (messages rd) as [|m ms] eqn:Hm; [by apply wp_ret; exists (network n); left; destruct n|].
  apply wp_bind, wp_gets, wp_bind, wp_zoom. rewrite <- Hm. clear Hm. generalize (messages rd). intros mails.
  assert (forall net, fst (Pass (cluster_ n) mails net) = Ok tt \/
    (fst (Pass (cluster_ n) mails net) = Halt FatalLog /\ exists m, m ∈ mails /\ undeliverable (cluster_ n) m)) as Hp.
  { induction mails as [|x mails IH]; intros net; cbn [Pass]; [by left|].
    destruct (Z.eqb_spec (message_to x) 0) as [Hx|_]; [right; split; [done|]; exists x; split; [by left|by left]|].
    destruct (zmap_find (message_to x) (cluster_ n)) eqn:Hz; [|right; split; [done|]; exists x; split; [by left|by right]].
    rewrite (run_bind_ok _ _ _ (snd (AsyncSend p x net)) tt) by done. destruct (IH (snd (AsyncSend p x net))) as [->|(-> & y & ? & ?)]; [by left|].
    right. split; [done|]. exists y. split; [by right|done]. }
  specialize (Hp (network n)). destruct (Pass (cluster_ n) mails (network n)) as [r net'] eqn:E.
  eapply wp_eq; [exact E|]. cbn in Hp. destruct Hp as [->|[-> Hbad]]; [|done]. apply wp_bind, wp_modify, wp_ret. exists net'. by right.
Qed.

Definition refused (rd : Ready) (n : Node) (h : halt) : Prop :=
  exists r w, wal_Write (entries rd) (hardState rd) (wal_ n) = (r, w) /\ (r = Halt h \/ exists e, r = Err e /\ h = FatalLog).

Lemma write_wal_spec rd n :
  wp (write_wal rd) n (step_ok (refused rd n) (fun n' => exists w, n' = add_event (WalAccepted rd) (set_wal_ w n))).
Proof.
  unfold write_wal. apply wp_bind.
  assert (wp (fatal_not_ok (on_wal (wal_Write (entries rd) (hardState rd)))) n (step_ok (refused rd n) (fun n' => exists w, n' = set_wal_ w n))) as Hw.
  { apply wp_fatal, wp_zoom. unfold wp. destruct (wal_Write (entries rd) (hardState rd) (wal_ n)) as [r w] eqn:E.
    cbn. destruct r as [u|e|h]; cbn; [by exists w|eexists _, w; split; [exact E|]; right; by exists e|eexists _, w; split; [exact E|]; by left]. }
  destruct (entries rd) as [|x es]; (eapply wp_mono; [exact Hw|]); intros [u|e|h] n'; try done; intros [w ->];
    apply wp_modify; by exists w.
Qed.

Lemma flush_step_inv stage rd n :
  node_inv n -> flusher n = Flushing stage rd ->
  wp (flush_step stage rd) n (step_ok (fault FlusherFlushes n) node_inv).
Proof.
  intros Hi Hf.
  assert (frames n !! flusher_thread = None) as Hfr.
  { destruct (frames n !! flusher_thread) eqn:E; [|done].
    assert (flusher n = FlusherWaits) by (apply (inv_flusher _ _ _ _ _ _ _ Hi); by rewrite E). congruence. }
  assert (forall fl (n' : Node), node_inv n' -> frames n' = frames n ->
    (forall stage rd, fl = Flushing stage rd -> after_write stage = true -> WalAccepted rd ∈ history n') ->
    node_inv (set_flusher fl n')) as Hset.
  { intros fl n' Hi' Ef Hp. unfold node_inv. cbn. eapply inv_set_flusher; [exact Hi'| |done].
    rewrite Ef, Hfr. by intros [? ?]. }
  pose proof (inv_flush _ _ _ _ _ _ _ Hi stage rd Hf) as Hper.
  destruct stage; cbn [flush_step]; apply wp_bind.
  - apply wp_bind, wp_gets. case_match.
    + eapply wp_mono; [apply pass_messages_spec|]. intros [rd'|e|h] n'; [|done|].
      2: { intros (-> & m & Hm & Hbad). eapply fault_mail; [done|exact Hf|by left|done|done]. }
      intros (net & [->| ->]); (apply wp_modify, Hset; [|done|]); [done| |by apply inv_event|]; by intros st rd0 [= <- <-].
    + apply wp_ret, wp_modify, Hset; [done|done|]. by intros st rd0 [= <- <-].
  - eapply wp_mono; [apply write_wal_spec|]. intros [u|e|h] n'; [|done|].
    2: { intros (r & w & Hw & [->|(e & -> & ->)]); [by eapply fault_wal|by eapply fault_status]. }
    intros [w ->]. apply wp_modify, Hset.
    + by apply inv_event.
    + done.
    + intros st rd' [= <- <-] _. apply elem_of_app. right. by left.
  - unfold notify_commit. destruct (has_commit rd) as [c|] eqn:Hc.
    + destruct (Notify c (walCommitObserver_ n)) as [r ob'] eqn:Hn.
      destruct (inv_notify _ _ _ _ _ _ _ c rd r ob' Hi Hc (Hper eq_refl) Hn) as [(-> & He & Hw)|[-> Hi']].
      { apply wp_bind, wp_zoom. eapply wp_eq; [exact Hn|]. cbn. by eapply fault_notify. }
      apply wp_bind, wp_zoom. eapply wp_eq; [exact Hn|]. cbn beta iota. apply wp_modify, wp_modify, Hset; [done|done|].
      intros st rd0 [= <- <-] _. apply elem_of_app. left. by apply Hper.
    + apply wp_ret, wp_modify, Hset; [done|done|]. intros st rd0 [= <- <-] _. by apply Hper.
  - apply wp_modify, wp_modify, Hset; [done|done|]. intros st rd0 [= <- <-] _. by apply Hper.
  - apply wp_bind, wp_gets. case_match.
    + eapply wp_mono; [apply pass_messages_spec|]. intros [rd'|e|h] n'; [|done|].
      2: { intros (-> & m & Hm & Hbad). eapply fault_mail; [done|exact Hf|by right|done|done]. }
      intros (net & [->| ->]); (apply wp_modify, Hset; [|done|done]); [done|].
      apply inv_event; [done|done|]. intros rd0 [= <-]. by apply Hper.
    + apply wp_ret, wp_modify, Hset; done.
Qed.

(** *** Calls *)

Lemma no_channel n th : node_inv n -> ~ 2 <= th < next_thread n -> channels (walCommitObserver_ n) !! th = None.
Proof.
  intros Hi Hr. destruct (channels (walCommitObserver_ n) !! th) eqn:E; [|done].
  by destruct (inv_chans _ _ _ _ _ _ _ Hi th _ E).
Qed.

Lemma no_frame n th : node_inv n -> ~ 0 <= th < next_thread n -> frames n !! th = None.
Proof.
  intros Hi Hr. destruct (frames n !! th) eqn:E; [|done]. by destruct (inv_frames _ _ _ _ _ _ _ Hi th _ E).
Qed.

(** A thread that waits nowhere submits a closure. *)
Lemma submit_and_wait_step th l t n fl nt :
  node_inv n -> is_write t = false -> task_thread t = th ->
  channels (walCommitObserver_ n) !! th = None -> frames n !! th = None -> 0 <= th < nt -> next_thread n <= nt ->
  (th = flusher_thread -> fl = FlusherWaits) -> (th <> flusher_thread -> fl = flusher n) ->
  exists n1, submit_and_wait th l t (set_next_thread nt n) = (Ok tt, n1) /\ node_inv (set_flusher fl n1) /\ flusher n1 = flusher n.
Proof.
  intros Hi Hw <- Hc Hf Hr Hnt Hfl Hfl'. eexists. split_and!; [done| |done]. unfold node_inv. cbn.
  eapply inv_submit; [exact Hi|done..| | | |]; cbn.
  - intros x Hx. split; [done|by apply lookup_insert_ne].
  - destruct t; try done; (split; [done|]); exists l; apply lookup_insert_eq.
  - intros [f Hx]. destruct (decide (task_thread t = flusher_thread)) as [He|Hne]; [by apply Hfl|].
    rewrite Hfl' by done. apply (inv_flusher _ _ _ _ _ _ _ Hi).
    rewrite lookup_insert_ne in Hx by done. by rewrite Hx.
  - intros st rd Hrd _. destruct (decide (task_thread t = flusher_thread)) as [He|Hne]; [|auto].
    rewrite Hfl in Hrd by done. done.
Qed.

Lemma set_flusher_id n : set_flusher (flusher n) n = n.
Proof. by destruct n. Qed.
Lemma set_fsm_id n : set_fsm (fsm n) n = n.
Proof. by destruct n. Qed.
Lemma set_next_thread_id n : set_next_thread (next_thread n) n = n.
Proof. by destruct n. Qed.

Lemma begin_wait_step X l (t : Z -> task) n :
  (forall th, is_write (t th) = false /\ task_thread (t th) = th) -> node_inv n ->
  wp (begin_call (fun th => submit_and_wait th l (t th))) n (step_ok X node_inv).
Proof.
  intros Ht Hi. pose proof (inv_threads _ _ _ _ _ _ _ Hi). apply wp_bind, wp_gets, wp_bind, wp_modify.
  destruct (Ht (next_thread n)) as [Hw Hth].
  destruct (submit_and_wait_step (next_thread n) l (t (next_thread n)) n (flusher n) (next_thread n + 1))
    as (n1 & Hrun & Hi1 & Hfl); [done..| | | | | |done|].
  { apply no_channel; [done|lia]. }
  { apply no_frame; [done|lia]. }
  { lia. }
  { lia. }
  { unfold flusher_thread. lia. }
  eapply wp_eq; [exact Hrun|]. cbn. by rewrite <- Hfl, set_flusher_id in Hi1.
Qed.

Lemma begin_write_step X log n :
  channel_built_in_place = true -> node_inv n ->
  wp (begin_call (fun th => AsyncWrite th log)) n (step_ok X node_inv).
Proof.
  intros Hce Hi. pose proof (inv_threads _ _ _ _ _ _ _ Hi). apply wp_bind, wp_gets, wp_bind, wp_modify.
  unfold AsyncWrite. rewrite Hce. apply wp_bind, wp_zoom, wp_modify, wp_modify. cbn. unfold node_inv. cbn.
  eapply (inv_submit _ _ _ _ _ _ _ _ _ _ _ (TaskWrite (next_thread n) log)); [exact Hi|..]; cbn; try done.
  - apply no_channel; [done|lia].
  - apply no_frame; [done|lia].
  - lia.
  - lia.
  - intros x Hx. split; [by apply lookup_insert_ne|done].
  - split_and!; [lia|apply lookup_insert_eq|]. apply no_frame; [done|lia].
  - apply (inv_flusher _ _ _ _ _ _ _ Hi).
Qed.

Lemma leave_frame_step th n (Q : result ErrorCode locals -> Node -> Prop) :
  node_inv n -> (forall n', Q (Err RuntimeError) n') ->
  (forall f, frames n !! th = Some f -> th ∉ owing (queue n) (walCommitObserver_ n) ->
     Q (Ok (frame_locals f)) (set_frames (delete th (frames n)) n)) ->
  wp (leave_frame th) n Q.
Proof.
  intros Hi Herr Hok. unfold wp, leave_frame. destruct (frames n !! th) as [f|] eqn:Hf; [|apply Herr].
  destruct (inv_frames _ _ _ _ _ _ _ Hi th f Hf) as [Hr [Hb|Hb]]; rewrite Hb; cbn; [apply Herr|].
  apply Hok; [done|]. eapply satisfied_not_owing; [exact Hi| |].
  - by rewrite (inv_apart _ _ _ _ _ _ _ Hi) by (by rewrite Hf).
  - intros l. rewrite Hf. intros [= ->]. done.
Qed.

Lemma call_returns_step X th n : node_inv n -> wp (call_returns th) n (step_ok X node_inv).
Proof.
  intros Hi. unfold wp, call_returns. destruct (Z.ltb_spec th 2) as [|Hth]; [done|].
  destruct (decide (is_Some (frames n !! th))) as [Hf|Hf].
  - apply wp_bind, leave_frame_step; [done|done|]. intros f Hf' Hno. apply wp_modify. unfold step_ok, node_inv. cbn.
    apply inv_event; [|done|done]. eapply inv_leave; [exact Hi|done|done|by right|by left|done|].
    intros [x Hx]. apply lookup_delete_Some in Hx as [_ Hx]. apply (inv_flusher _ _ _ _ _ _ _ Hi). by rewrite Hx.
  - apply wp_bind. unfold wp, leave_write. destruct (channels (walCommitObserver_ n) !! th) as [c|] eqn:Hc; [|done].
    destruct (inv_chans _ _ _ _ _ _ _ Hi th c Hc) as [Hr [->|(s & -> & Hs)]]; [done|]. cbn [channel_receive future_wait future_get].
    apply wp_modify. unfold step_ok, node_inv. cbn. apply inv_event; [|intros x [= -> ->]; by apply Hs|done].
    eapply inv_leave; [exact Hi| |done|left; split; [done|]|by right|done|apply (inv_flusher _ _ _ _ _ _ _ Hi)].
    2: { intros Hl. destruct (inv_lost _ _ _ _ _ _ _ Hi th Hl) as [Hp _]. congruence. }
    eapply satisfied_not_owing; [exact Hi|by rewrite Hc|]. intros l Hl. destruct Hf. by rewrite Hl.
Qed.

(** The loops of the timer and of the flusher. *)
Lemma timer_fires_inv X n : node_inv n -> wp (node_step TimerFires) n (step_ok X node_inv).
Proof.
  intros Hi. pose proof (inv_threads _ _ _ _ _ _ _ Hi). cbn [node_step].
  apply wp_bind, wp_gets. destruct (_ && _) eqn:Hcan; [|by apply wp_fail].
  apply andb_prop in Hcan as [[Hf _]%bool_decide_eq_true _].
  destruct (submit_and_wait_step timer_thread LocalsTick (TaskTick timer_thread) n (flusher n) (next_thread n))
    as (n1 & Hrun & Hi1 & Hfl); try done.
  { apply no_channel; [done|unfold timer_thread; lia]. }
  { unfold timer_thread. lia. }
  rewrite set_next_thread_id in Hrun. eapply wp_eq; [exact Hrun|]. cbn. by rewrite <- Hfl, set_flusher_id in Hi1.
Qed.

Lemma flusher_asks_inv X n : node_inv n -> wp (node_step FlusherAsks) n (step_ok X node_inv).
Proof.
  intros Hi. pose proof (inv_threads _ _ _ _ _ _ _ Hi). cbn [node_step].
  apply wp_bind, wp_gets, wp_bind, wp_gets.
  destruct (flusher n) eqn:Hfl; [|by apply wp_fail..]. destruct (_ && _); [|by apply wp_fail]. apply wp_bind.
  destruct (submit_and_wait_step flusher_thread (LocalsGetReady None) (TaskGetReady flusher_thread) n FlusherWaits (next_thread n))
    as (n1 & Hrun & Hi1 & Hfl1); try done.
  { apply no_channel; [done|unfold flusher_thread; lia]. }
  { destruct (frames n !! flusher_thread) eqn:E; [|done].
    assert (flusher n = FlusherWaits) by (apply (inv_flusher _ _ _ _ _ _ _ Hi); by rewrite E). congruence. }
  { unfold flusher_thread. lia. }
  rewrite set_next_thread_id in Hrun. unfold GetReady. eapply wp_eq; [exact Hrun|]. by apply wp_modify.
Qed.

Lemma flusher_returns_inv X n : node_inv n -> wp (node_step FlusherReturns) n (step_ok X node_inv).
Proof.
  intros Hi. cbn [node_step].
  apply wp_bind, leave_frame_step; [done|done|]. intros f Hf Hno.
  assert (forall fl, (forall stage rd, fl = Flushing stage rd -> after_write stage = false) -> node_inv (set_flusher fl (set_frames (delete flusher_thread (frames n)) n))) as Hset.
  { intros fl Hfl. unfold node_inv. cbn. eapply inv_leave; [exact Hi|done|done|by right|by left| |].
    - intros st rd Hs Hst. by rewrite (Hfl st rd Hs) in Hst.
    - rewrite lookup_delete_eq. by intros [? ?]. }
  destruct (frame_locals f) as [|[rd|]| | |]; [|destruct async_starts_thread|..]; apply wp_modify, Hset; by intros st rd0 [= <- <-].
Qed.

(** ** Every step *)

Lemma node_step_inv c n :
  (forall log, c = ClientWrites log -> channel_built_in_place = true) -> node_inv n ->
  wp (node_step c) n (step_ok (fault c n) node_inv).
Proof.
  intros Hce Hi. pose proof (inv_threads _ _ _ _ _ _ _ Hi).
  assert (forall X c, (match c with DoTest | DoTimeout | DoTake _ => True | _ => False end) ->
    wp (queue_control c) n (step_ok X node_inv)) as Hq.
  { intros X c' Hc'. unfold wp, queue_control. destruct (step c' (queue n)) as [[q' ran]|] eqn:Hs; [|done].
    by apply (inv_control _ _ _ _ _ _ _ c' _ ran Hi). }
  assert (forall X f, wp (timer_loop f) n (step_ok X node_inv)) as Htl.
  { intros X f. unfold wp, timer_loop. by destruct (f _). }
  assert (forall X f, wp (flusher_loop f) n (step_ok X node_inv)) as Hfl0.
  { intros X f. unfold wp, flusher_loop. by destruct (f _). }
  destruct c; cbn [node_step].
  - apply Htl.
  - by apply timer_fires_inv.
  - apply wp_bind, leave_frame_step; [done|done|]. intros f Hf Hno. apply wp_ret. unfold step_ok, node_inv. cbn.
    eapply inv_leave; [exact Hi|done|done|by right|by left|done|].
    intros [x Hx]. apply lookup_delete_Some in Hx as [_ Hx]. apply (inv_flusher _ _ _ _ _ _ _ Hi). by rewrite Hx.
  - apply wp_bind, wp_gets. case_bool_decide; [apply Htl|by apply wp_fail].
  - apply Hfl0.
  - by apply flusher_asks_inv.
  - by apply flusher_returns_inv.
  - apply wp_bind, wp_gets. destruct (flusher n) eqn:Hfl; [by apply wp_fail|by apply wp_fail|]. by apply flush_step_inv.
  - apply wp_bind, wp_gets. destruct (flusher n); [apply Hfl0|by apply wp_fail..].
  - by apply Hq.
  - by apply Hq.
  - by apply Hq.
  - by apply run_task_step.
  - apply begin_write_step; [by eapply Hce|done].
  - by apply (begin_wait_step _ _ TaskLeaderHint).
  - by apply (begin_wait_step _ _ (fun th => TaskStep th msg)).
  - by apply (begin_wait_step _ _ TaskStatus).
  - by apply call_returns_step.
Qed.

(** Writes are only begun where the channel is built in place. *)
Definition writes_in_place (cs : list choice) : Prop := forall log, ClientWrites log ∈ cs -> channel_built_in_place = true.

Lemma node_run_inv cs n :
  writes_in_place cs -> node_inv n -> wp (node_run cs) n (step_ok (faulted cs n) node_inv).
Proof.
  revert n. induction cs as [|c cs IH]; intros n Hce Hi; [by apply wp_ret|]. apply wp_bind.
  pose proof (node_step_inv c n) as Hstep. unfold wp in Hstep |- *. destruct (node_step c n) as [r n1] eqn:Hs. cbn in Hstep |- *.
  assert (step_ok (fault c n) node_inv r n1) as Hok by (apply Hstep; [|done]; intros log ->; eapply Hce; by left).
  destruct r as [[]|e|h]; [|done|].
  - eapply wp_mono; [apply IH; [|exact Hok]; intros log Hin; eapply Hce; by right|]. intros r n'. apply step_ok_mono; [|done].
    intros h (cs1 & c1 & cs2 & n2 & -> & Hr & Hf). exists (c :: cs1), c1, cs2, n2. split_and!; [done| |done].
    cbn. unfold mbind, prog_bind. by rewrite Hs.
  - by exists [], c, cs, n.
Qed.

Lemma New_inv this options n :
  (forall th, ~ lost th) -> opt_taskQueue options = None -> New this options = Ok n -> node_inv n.
Proof.
  intros Hlost Hq. unfold New. destruct (Validate options), (opt_wal options); try done.
  destruct (new_RawNode _ _) as [rn ms]. rewrite Hq.
  destruct (new_queue (T := task)) as (tq & -> & Hqi & Hqs & Ht & Ho).
  destruct (match opt_flusher options with Some f => Ok f | None => new_ReadyFlusher end); [|done|done].
  intros [= <-]. unfold node_inv. cbn.
  split; cbn; unfold owing, waiting; rewrite ?Ht, ?Hqs, ?Ho; cbn; try done.
  - constructor.
  - intros p t Hin. by apply elem_of_nil in Hin.
  - intros p t Hin. by apply elem_of_nil in Hin.
  - intros r ch Hin. by apply elem_of_nil in Hin.
  - intros th Hl. by destruct (Hlost th).
  - by intros [? ?].
  - intros rd Hin. by apply elem_of_nil in Hin.
  - intros th Hin. by apply elem_of_nil in Hin.
Qed.

Lemma New_run this options cs n0 :
  writes_in_place cs -> (forall th, ~ lost th) ->
  opt_taskQueue options = None -> New this options = Ok n0 -> wp (node_run cs) n0 (step_ok (faulted cs n0) node_inv).
Proof. intros Hce Hl Hq HN. apply node_run_inv; [done..|]. by apply (New_inv this options). Qed.
(** The first half of the closure of a write, on each of its branches; [q'] is the queue after it. *)
Definition proposed (thread : Z) (log : bytes) (q' : TaskQueue task) (n : Node) : Node :=
  let answer s n := set_queue q' (set_observer (MkWalCommitObserver (writes_ (walCommitObserver_ n))
                      (<[thread := Satisfied s]> (channels (walCommitObserver_ n)))) n) in
  if rn_IsLeader (node_ n) then
    let '(s, fsm') := rn_Propose log (fsm n) in
    match s with
    | Some _ => answer YARaftError (set_fsm fsm' n)
    | None => set_registering (Some (rn_LastIndex fsm')) (add_event (Proposed thread (rn_LastIndex fsm')) (set_fsm fsm' n))
    end
  else answer WalWriteToNonLeader n.

Lemma set_fsm_fsm s n : fsm (set_fsm s n) = s.
Proof. by destruct s. Qed.

Lemma propose_run p thread log n q' :
  node_inv n -> task_ (queue n) = Some (p, TaskWrite thread log) -> registering n = None ->
  step DoRun (queue n) = Some (q', [(p, TaskWrite thread log)]) ->
  run_task n = (Ok tt, proposed thread log q' n).
Proof.
  intros Hi Ht Hreg Hrun.
  assert (channels (walCommitObserver_ n) !! thread = Some Pending) as Hp.
  { apply (inv_tasks _ _ _ _ _ _ _ Hi p (TaskWrite thread log)). unfold waiting. rewrite Ht. by left. }
  assert (forall s (n1 : Node), walCommitObserver_ n1 = walCommitObserver_ n ->
    on_observer (send_to thread s) n1 = (Ok tt, set_observer (MkWalCommitObserver (writes_ (walCommitObserver_ n1))
      (<[thread := Satisfied s]> (channels (walCommitObserver_ n1)))) n1)) as Hsend.
  { intros s n1 Hn1. unfold on_observer, zoom. rewrite Hn1. destruct (walCommitObserver_ n) as [w ch].
    by rewrite send_to_pending. }
  unfold run_task, proposed. unfold mbind, prog_bind, gets. rewrite Ht, Hreg. unfold propose, mbind, prog_bind, gets.
  destruct (rn_IsLeader (node_ n)); cbn [negb].
  - unfold run_fsm. destruct (rn_Propose log (fsm n)) as [[e|] s] eqn:Hpr.
    + rewrite Hsend by done. cbn [mret prog_ret]. by erewrite queue_control_eq.
    + cbn. by rewrite set_fsm_fsm.
  - rewrite Hsend by done. cbn [mret prog_ret]. by erewrite queue_control_eq.
Qed.
End spec.

(** ** Theorems *)

Section theorems.
Context (Y : YaraftPb) (M : MemStoreLib Y) (MSG : YaraftMsg) (RAFT : RaftLib M MSG).
Context (WAL : WriteAheadLog Y) (EI : ErasedIterator) (TC : Toolchain).

(** Nobody is lost at the start. *)
Abbreviation start_inv := (node_inv (fun _ => False)).

(** C11: under every schedule of the threads of a member, whatever the state machine of [yaraft]
    answers, no closure touches a stack frame or a channel that is gone and none is signalled
    twice.  When the process ends, the step that ended it was one of these: the service met a code
    of the state machine it does not know, a mail had no addressee, the write-ahead log refused or
    itself failed on the [Ready] that was being written in that state, or [Notify] ran over its
    listeners where an erased iterator does not step.  (Asked only: if clients write, the compiler
    builds the channel that [AsyncWrite] returns in place.) *)
Theorem node_safe this options n0 cs h n :
  writes_in_place cs ->
  opt_taskQueue options = None -> New this options = Ok n0 -> node_run cs n0 = (Halt h, n) -> faulted cs n0 h.
Proof.
  intros Hce Hq HN Hrun.
  exact (wp_run _ _ _ _ _ (New_run (fun _ => False) this options cs n0 Hce (fun _ f => f) Hq HN) Hrun).
Qed.

(** C8: under every schedule, a write to the replicated log returns OK only after its entry got an
    index and the flusher then announced a commit index at or above it, which came from a [Ready]
    that the write-ahead log had accepted before.  (Not that the entry is still the one at that
    index, nor that the log stored the hard state that carried the commit index: neither holds.) *)
Theorem write_ok_means_announced this options n0 cs n thread :
  channel_built_in_place = true ->
  opt_taskQueue options = None -> New this options = Ok n0 -> node_run cs n0 = (Ok tt, n) ->
  CallReturned thread (WriteReturned OK) ∈ history n -> acked thread (history n).
Proof.
  intros Hce Hq HN Hrun.
  pose proof (wp_run _ _ _ _ _ (New_run (fun _ => False) this options cs n0 (fun _ _ => Hce) (fun _ f => f) Hq HN) Hrun) as Hi.
  apply (inv_return _ _ _ _ _ _ _ _ Hi).
Qed.

(** The messages a member produced while it was not the leader leave it only after the log has
    accepted the [Ready] they came with. *)
Lemma follower_writes_before_sending this options n0 cs n rd :
  channel_built_in_place = true ->
  opt_taskQueue options = None -> New this options = Ok n0 -> node_run cs n0 = (Ok tt, n) ->
  SentAsFollower rd ∈ history n -> before (WalAccepted rd) (SentAsFollower rd) (history n).
Proof.
  intros Hce Hq HN Hrun.
  pose proof (wp_run _ _ _ _ _ (New_run (fun _ => False) this options cs n0 (fun _ _ => Hce) (fun _ f => f) Hq HN) Hrun) as Hi.
  apply (inv_sent _ _ _ _ _ _ _ _ Hi).
Qed.

(** Another set of lost writers. *)
Lemma inv_lose lost lost' q reg ob fr fl nt h :
  inv lost q reg ob fr fl nt h ->
  (forall th, lost' th -> channels ob !! th = Some Pending /\ th ∉ owing q ob) ->
  inv lost' q reg ob fr fl nt h.
Proof. intros Hi Hl. split; try by destruct Hi. Qed.

(** After the notification of [c], the writer of a higher index is lost. *)
Lemma notified_lost c rd index th n n1 :
  start_inv n -> flusher n = Flushing NotifyCommit rd -> has_commit rd = Some c ->
  ((index, index), th) ∈ writes_ (walCommitObserver_ n) -> c < index ->
  flush_step NotifyCommit rd n = (Ok tt, n1) -> node_inv (fun x => x = th) n1.
Proof.
  intros Hi Hf Hc Hin Hlt Hrun.
  pose proof (wp_run _ _ _ _ _ (flush_step_inv _ NotifyCommit rd n Hi Hf) Hrun) as Hi1.
  pose proof (inv_nodup _ _ _ _ _ _ _ _ Hi) as Hnd. apply NoDup_app in Hnd as (_ & Hdis & Hnd).
  pose proof (fun r ch H => proj1 (inv_listen _ _ _ _ _ _ _ _ Hi r ch H)) as Hl.
  cbn [flush_step] in Hrun. unfold notify_commit in Hrun. rewrite Hc in Hrun.
  unfold mbind, prog_bind, on_observer, zoom in Hrun.
  destruct (Notify_cases _ c (walCommitObserver_ n)) as [(Hund & _)|[_ Hn]]; [by split| |].
  { destruct (Notify c (walCommitObserver_ n)) as [r ob']. cbn in Hund. by subst r. }
  rewrite Hn in Hrun. cbn in Hrun. injection Hrun as <-.
  apply (inv_lose (fun _ => False)); [exact Hi1|]. intros x ->. unfold set_observer. cbn. split.
  - rewrite (told_spec c _ _ (index, index) th Hnd Hin). cbn [snd].
    destruct (Z.leb_spec index c); [lia|]. by apply (Hl (index, index)).
  - unfold owing. cbn. rewrite app_nil_r. intros Hx. apply (Hdis th Hx), list_elem_of_fmap. by exists ((index, index), th).
Qed.

(** C33: a notification loses the writers it does not answer: when the flusher notifies a commit
    index below the index a writer waits for, the call of that writer never returns, under any
    schedule that follows, even if its entry is committed later. *)
Theorem notification_strands_writers this options n0 cs n rd c index thread cs' n' :
  channel_built_in_place = true ->
  opt_taskQueue options = None -> New this options = Ok n0 -> node_run cs n0 = (Ok tt, n) ->
  flusher n = Flushing NotifyCommit rd -> has_commit rd = Some c ->
  ((index, index), thread) ∈ writes_ (walCommitObserver_ n) -> c < index ->
  node_run (FlusherFlushes :: cs') n = (Ok tt, n') ->
  node_step (CallReturns thread) n' = (Err RuntimeError, n').
Proof.
  intros Hce Hq HN Hrun Hf Hc Hin Hlt Hrun'.
  pose proof (wp_run _ _ _ _ _ (New_run (fun _ => False) this options cs n0 (fun _ _ => Hce) (fun _ f => f) Hq HN) Hrun) as Hi. cbn in Hi.
  cbn [node_run] in Hrun'. unfold mbind, prog_bind in Hrun'.
  destruct (node_step FlusherFlushes n) as [r n1] eqn:Hs. destruct r as [[]|e|h]; [|done|done].
  cbn in Hs. unfold mbind, prog_bind, gets in Hs. rewrite Hf in Hs.
  pose proof (notified_lost c rd index thread n n1 Hi Hf Hc Hin Hlt Hs) as Hi1.
  pose proof (wp_run _ _ _ _ _ (node_run_inv (fun x => x = thread) cs' n1 (fun _ _ => Hce) Hi1) Hrun') as Hi'. cbn in Hi'.
  destruct (inv_lost _ _ _ _ _ _ _ _ Hi' thread eq_refl) as [Hp _].
  destruct (inv_chans _ _ _ _ _ _ _ _ Hi' thread _ Hp) as [Hr _].
  cbn. unfold call_returns. destruct (Z.ltb_spec thread 2); [done|].
  rewrite decide_False.
  - unfold mbind, prog_bind, leave_write. by rewrite Hp.
  - intros Hf'. by rewrite (inv_apart _ _ _ _ _ _ _ _ Hi' thread Hf') in Hp.
Qed.

(** *** What the closures and the flusher do *)

Lemma pass_messages_run ev rd n net' :
  Pass (cluster_ n) (messages rd) (network n) = (Ok tt, net') ->
  exists n', pass_messages ev rd n = (Ok (clear_messages rd), n') /\ network n' = net' /\ wal_ n' = wal_ n /\
    walCommitObserver_ n' = walCommitObserver_ n /\ fsm n' = fsm n /\ frames n' = frames n /\ cluster_ n' = cluster_ n.
Proof.
  intros Hp. unfold pass_messages. destruct (messages rd) as [|m ms] eqn:Hm.
  - exists n. injection Hp as <-. split; [|done]. unfold clear_messages. rewrite <- Hm. by destruct rd.
  - eexists. erewrite (run_bind_ok (gets _)) by done. rewrite (run_bind_ok _ _ _ (set_network net' n) tt).
    2: { unfold on_network, zoom. by rewrite Hp. }
    split; [done|]. done.
Qed.

(** The statements of [flushReady], each on the part of the state it is about. *)
Lemma send_as_leader_run rd n net' :
  Pass (cluster_ n) (messages rd) (network n) = (Ok tt, net') ->
  let leader := currentLeader rd =? Id n in
  exists n', send_as_leader rd n = (Ok (if leader then clear_messages rd else rd), n') /\
    network n' = (if leader then net' else network n) /\ wal_ n' = wal_ n /\
    walCommitObserver_ n' = walCommitObserver_ n /\ fsm n' = fsm n /\ frames n' = frames n /\ cluster_ n' = cluster_ n.
Proof.
  intros Hp leader. unfold send_as_leader. erewrite (run_bind_ok (gets Id)) by done. fold leader.
  destruct leader; [by apply pass_messages_run|by exists n].
Qed.

Lemma write_wal_run rd n :
  write_wal rd n = let '(r, w) := wal_Write (entries rd) (hardState rd) (wal_ n) in
    match r with
    | Ok _ => (Ok tt, add_event (WalAccepted rd) (set_wal_ w n))
    | Err _ => (Halt FatalLog, set_wal_ w n)
    | Halt h => (Halt h, set_wal_ w n)
    end.
Proof.
  unfold write_wal. destruct (wal_Write (entries rd) (hardState rd) (wal_ n)) as [r w] eqn:Hw.
  destruct (entries rd); unfold mbind, prog_bind, fatal_not_ok, on_wal, zoom; rewrite Hw; by destruct r.
Qed.

Lemma notify_commit_run rd n ob' :
  match has_commit rd with
  | Some c => Notify c (walCommitObserver_ n) = (Ok tt, ob')
  | None => ob' = walCommitObserver_ n
  end ->
  exists n', notify_commit rd n = (Ok tt, n') /\ walCommitObserver_ n' = ob' /\ wal_ n' = wal_ n /\
    network n' = network n /\ fsm n' = fsm n /\ frames n' = frames n /\ cluster_ n' = cluster_ n.
Proof.
  intros Hob. unfold notify_commit. destruct (has_commit rd) as [c|]; [|subst ob'; by exists n].
  unfold mbind, prog_bind, on_observer, zoom. rewrite Hob. eexists. split; [done|]. done.
Qed.

Lemma send_as_follower_run rd n net' :
  Pass (cluster_ n) (messages rd) (network n) = (Ok tt, net') ->
  let leader := currentLeader rd =? Id n in
  exists rd' n', send_as_follower rd n = (Ok rd', n') /\
    network n' = (if leader then network n else net') /\ wal_ n' = wal_ n /\
    walCommitObserver_ n' = walCommitObserver_ n /\ fsm n' = fsm n /\ frames n' = frames n.
Proof.
  intros Hp leader. unfold send_as_follower. erewrite (run_bind_ok (gets Id)) by done. fold leader.
  destruct leader; [by exists rd, n|].
  destruct (pass_messages_run SentAsFollower rd n net' Hp) as (n' & Hn' & ? & ? & ? & ? & ? & ?). by exists (clear_messages rd), n'.
Qed.

(** [flushReady] sends, writes, notifies and advances in the order the two roles need: the
    leader's messages go out even when the write to its log fails, the others' only after it
    succeeded; a write that fails ends the process before anybody is told of a commit and before
    the store in memory moves. *)
Theorem flush_ready rd n net' ob' :
  Pass (cluster_ n) (messages rd) (network n) = (Ok tt, net') ->
  match has_commit rd with
  | Some c => Notify c (walCommitObserver_ n) = (Ok tt, ob')
  | None => ob' = walCommitObserver_ n
  end ->
  let leader := currentLeader rd =? Id n in
  let '(r, w) := wal_Write (entries rd) (hardState rd) (wal_ n) in
  exists n', wal_ n' = w /\ node_ n' = node_ n /\ frames n' = frames n /\
    match r with
    | Ok _ => flushReady rd n = (Ok tt, n') /\ network n' = net' /\ walCommitObserver_ n' = ob' /\
        memstore_ n' = rd_Advance (if leader then clear_messages rd else rd) (memstore_ n)
    | _ => flushReady rd n = (Halt match r with Halt h => h | _ => FatalLog end, n') /\
        network n' = (if leader then net' else network n) /\
        walCommitObserver_ n' = walCommitObserver_ n /\ memstore_ n' = memstore_ n
    end.
Proof.
  intros Hp Hob leader. destruct (wal_Write (entries rd) (hardState rd) (wal_ n)) as [r w] eqn:Hw.
  destruct (send_as_leader_run rd n net' Hp) as (n1 & Hs1 & Hnet & Hw1 & Ho1 & Hf1 & Hfr1 & Hc1). fold leader in Hs1, Hnet.
  set (rd1 := if leader then clear_messages rd else rd) in *.
  assert (entries rd1 = entries rd /\ hardState rd1 = hardState rd /\ has_commit rd1 = has_commit rd /\
    currentLeader rd1 = currentLeader rd) as (He & Hh & Hc & Hcl) by (unfold rd1; by destruct leader).
  pose proof (write_wal_run rd1 n1) as Hper. rewrite He, Hh, Hw1, Hw in Hper. injection Hf1 as Hnode Hmem.
  unfold flushReady. erewrite run_bind_ok by exact Hs1.
  destruct r as [u|e|h]; [|by exists (set_wal_ w n1); split_and!; try done; unfold mbind, prog_bind; rewrite Hper..].
  erewrite run_bind_ok by exact Hper. set (n2 := add_event (WalAccepted rd1) (set_wal_ w n1)).
  destruct (notify_commit_run rd1 n2 ob') as (n3 & Hn3 & Ho3 & Hw3 & Hnet3 & Hf3 & Hfr3 & Hc3).
  { rewrite Hc. cbn [n2 add_event set_wal_ walCommitObserver_]. by rewrite Ho1. }
  erewrite run_bind_ok by exact Hn3. erewrite (run_bind_ok (advance_store _)) by done. injection Hf3 as Hnode3 Hmem3.
  set (n4 := set_memstore_ (rd_Advance rd1 (memstore_ n3)) n3).
  assert ((currentLeader rd1 =? Id n4) = leader) as Hlead by (unfold leader, Id; cbn; by rewrite Hcl, Hnode3, Hnode).
  destruct (send_as_follower_run rd1 n4 (if leader then network n4 else net')) as (rd' & n5 & Hn5 & Hnet5 & Hw5 & Ho5 & Hf5 & Hfr5).
  { unfold rd1. destruct leader; [done|]. cbn. rewrite Hc3, Hnet3. unfold n2. cbn. by rewrite Hc1, Hnet. }
  erewrite run_bind_ok by exact Hn5. rewrite Hlead in Hnet5. injection Hf5 as Hnode5 Hmem5.
  exists n5. cbn in *. split_and!; try congruence; [done|]. destruct leader; congruence.
Qed.

(** the closure of a write answers a member that is not the leader with [WalWriteToNonLeader]
    and leaves the state machine untouched, answers a refused proposal with [YARaftError], and
    otherwise goes on to register the index the entry got. *)
Theorem write_closure lost p thread log n :
  node_inv lost n -> task_ (queue n) = Some (p, TaskWrite thread log) -> registering n = None ->
  exists n', run_task n = (Ok tt, n') /\
    (rn_IsLeader (node_ n) = false ->
       fsm n' = fsm n /\ channels (walCommitObserver_ n') !! thread = Some (Satisfied WalWriteToNonLeader) /\
       history n' = history n /\ task_ (queue n') = None) /\
    (rn_IsLeader (node_ n) = true -> let '(s, fsm') := rn_Propose log (fsm n) in
       fsm n' = fsm' /\
       match s with
       | Some _ => channels (walCommitObserver_ n') !! thread = Some (Satisfied YARaftError) /\
           history n' = history n /\ task_ (queue n') = None
       | None => registering n' = Some (rn_LastIndex fsm') /\ walCommitObserver_ n' = walCommitObserver_ n /\
           history n' = history n ++ [Proposed thread (rn_LastIndex fsm')]
       end).
Proof.
  intros Hi Ht Hreg. destruct (step_run (queue n) _ (inv_queue _ _ _ _ _ _ _ _ Hi) Ht) as (q' & Hrun & _ & Htk & _).
  exists (proposed thread log q' n). split; [by eapply propose_run|]. unfold proposed.
  destruct (rn_IsLeader (node_ n)); (split; [done || intros _|done || intros _]).
  - destruct (rn_Propose log (fsm n)) as [[e|] s]; cbn; (split; [by destruct s|]); [|done].
    split_and!; [apply lookup_insert_eq|done|done].
  - cbn. split_and!; [done|apply lookup_insert_eq|done|done].
Qed.

(** the closures of the service and of the timer: [Step] answers with the code of the state
    machine's status and ends the process on a code it does not know, [Status] fills in leader,
    index and term but never the commit index, the timer ticks a hundred times, [GetReady] hands
    out what the state machine has. *)
Theorem service_closures lost p t n :
  node_inv lost n -> task_ (queue n) = Some (p, t) -> is_write t = false ->
  exists n', match t with
  | TaskStep thread msg =>
      let '(s, fsm') := rn_Step msg (fsm n) in
      fsm n' = fsm' /\
      match s with
      | Some (OtherYaraftError _) => run_task n = (Halt FatalLog, n')
      | _ => run_task n = (Ok tt, n') /\ frames n' !! thread = Some (MkFrame (LocalsStep
               match s with
               | None => PbOK
               | Some StepLocalMsg => PbStepLocalMsg
               | Some _ => PbStepPeerNotFound
               end) (Satisfied tt))
      end
  | TaskStatus thread =>
      run_task n = (Ok tt, n') /\ fsm n' = fsm n /\ frames n' !! thread = Some (MkFrame (LocalsStatus
        (MkStatusResponse (Some (rn_LeaderHint (node_ n))) (Some (rn_LastIndex (fsm n)))
           (Some (rn_CurrentTerm (node_ n))) None)) (Satisfied tt))
  | TaskTick thread =>
      run_task n = (Ok tt, n') /\ fsm n' = Nat.iter 100 rn_Tick (fsm n) /\
      frames n' !! thread = Some (MkFrame LocalsTick (Satisfied tt))
  | TaskGetReady thread =>
      run_task n = (Ok tt, n') /\ fsm n' = snd (rn_GetReady (fsm n)) /\
      frames n' !! thread = Some (MkFrame (LocalsGetReady (fst (rn_GetReady (fsm n)))) (Satisfied tt))
  | TaskLeaderHint thread =>
      run_task n = (Ok tt, n') /\ fsm n' = fsm n /\
      frames n' !! thread = Some (MkFrame (LocalsLeaderHint (rn_LeaderHint (node_ n))) (Satisfied tt))
  | TaskWrite _ _ => True
  end.
Proof.
  intros Hi Ht Hw. destruct (step_run (queue n) _ (inv_queue _ _ _ _ _ _ _ _ Hi) Ht) as (q' & Hrun & _).
  assert (slot_pending (walCommitObserver_ n) (frames n) t) as Hs.
  { apply (inv_tasks _ _ _ _ _ _ _ _ Hi p). unfold waiting. rewrite Ht. by left. }
  assert (forall l s, exists n', (_ ← signal_frame (task_thread t) l; queue_control DoRun) (set_fsm s n) = (Ok tt, n') /\
    fsm n' = s /\ frames n' !! task_thread t = Some (MkFrame l (Satisfied tt))) as Hend.
  { intros l s. assert (exists l0, frames n !! task_thread t = Some (MkFrame l0 Pending)) as [l0 Hl0] by (by destruct t).
    eexists. split_and!.
    - erewrite run_bind_ok by (by apply (signal_frame_ok _ l l0)). by eapply queue_control_eq.
    - by destruct s.
    - apply lookup_insert_eq. }
  unfold run_task. unfold mbind, prog_bind, gets. rewrite Ht.
  destruct t as [th|th|th log|th msg|th|th]; cbn [run_closure task_thread] in *; try done.
  - by destruct (Hend LocalsTick (Nat.iter 100 rn_Tick (fsm n))) as (n' & Hn' & ? & ?); exists n'.
  - unfold mbind, prog_bind, run_fsm. destruct (rn_GetReady (fsm n)) as [rd s].
    by destruct (Hend (LocalsGetReady rd) s) as (n' & Hn' & ? & ?); exists n'.
  - unfold mbind, prog_bind, run_fsm. destruct (rn_Step msg (fsm n)) as [[[| |code]|] s].
    + by destruct (Hend (LocalsStep PbStepLocalMsg) s) as (n' & Hn' & ? & ?); exists n'.
    + by destruct (Hend (LocalsStep PbStepPeerNotFound) s) as (n' & Hn' & ? & ?); exists n'.
    + exists (set_fsm s n). cbn. split; [by destruct s|done].
    + by destruct (Hend (LocalsStep PbOK) s) as (n' & Hn' & ? & ?); exists n'.
  - destruct (Hend (LocalsStatus (MkStatusResponse (Some (rn_LeaderHint (node_ n))) (Some (rn_LastIndex (fsm n)))
                (Some (rn_CurrentTerm (node_ n))) None)) (fsm n)) as (n' & Hn' & ? & ?).
    exists n'. by rewrite (set_fsm_id n) in Hn'.
  - destruct (Hend (LocalsLeaderHint (rn_LeaderHint (node_ n))) (fsm n)) as (n' & Hn' & ? & ?).
    exists n'. by rewrite (set_fsm_id n) in Hn'.
Qed.
End theorems.
