(* ===== verification/Progress.v ===== *)
(** * What the threads of a member can always do

    The invariant of [NodeSpec.v] says what cannot happen; here is what can.  Every thread that
    waits at a barrier is owed a closure; the closures that are owed are work, which every step of
    the worker that serves one lessens, in whatever order it takes them; and a notification that
    covers a writer lets it return, where it is defined. *)

From S2P Require Import Prelude External Status Channel TaskQueue Observer Cluster Node NodeSpec.

Section progress.
Context {Y : YaraftPb} {M : MemStoreLib Y} {MSG : YaraftMsg} {RAFT : RaftLib M MSG}.
Context {WAL : WriteAheadLog Y} {EI : ErasedIterator} {TC : Toolchain}.

(** ** Every barrier is owed a signal *)

Definition owed (fr : gmap Z frame) (q : TaskQueue task) : Prop :=
  forall th l, fr !! th = Some (MkFrame l Pending) -> exists p t, (p, t) ∈ waiting q /\ task_thread t = th.

Lemma owed_queue fr q q' : (forall x, x ∈ waiting q -> x ∈ waiting q') -> owed fr q -> owed fr q'.
Proof. intros Hw Ho th l Hl. destruct (Ho th l Hl) as (p & t & Hin & Ht). exists p, t. auto. Qed.

Lemma owed_enqueue fr q p t : owed fr q -> owed fr (Enqueue p t q).
Proof. apply owed_queue. intros x Hx. rewrite waiting_Enqueue, elem_of_app. by left. Qed.

Lemma owed_submit fr q th l t :
  owed fr q -> task_thread t = th -> owed (<[th := MkFrame l Pending]> fr) (Enqueue th t q).
Proof.
  intros Ho Ht x lx [[<- _]|[_ Hx]]%lookup_insert_Some.
  - exists th, t. rewrite waiting_Enqueue, elem_of_app, list_elem_of_singleton. auto.
  - by eapply owed_enqueue.
Qed.

Lemma owed_leave fr q th : owed fr q -> owed (delete th fr) q.
Proof. intros Ho x l [_ Hx]%lookup_delete_Some. by eapply Ho. Qed.

(** The closure at the head ends; its frame, if it has one, is signalled. *)
Lemma owed_done fr q q' p t fr' :
  owed fr q -> waiting q = (p, t) :: waiting q' ->
  (forall x l, fr' !! x = Some (MkFrame l Pending) -> x <> task_thread t /\ fr !! x = Some (MkFrame l Pending)) ->
  owed fr' q'.
Proof.
  intros Ho Hw Hfr x l Hx. destruct (Hfr x l Hx) as [Hne Hx']. destruct (Ho x l Hx') as (p' & t' & Hin & Ht).
  rewrite Hw in Hin. apply elem_of_cons in Hin as [[= -> ->]|Hin]; [done|]. by exists p', t'.
Qed.

Abbreviation owed_node := (fun n : Node => owed (frames n) (queue n)).

(** What the steps of a thread that signals nothing keep. *)
Definition same_waits (n n' : Node) : Prop :=
  frames n' = frames n /\ queue n' = queue n /\ registering n' = registering n.

Lemma same_owed n n' : same_waits n n' -> owed_node n -> owed_node n'.
Proof. by intros (-> & -> & _). Qed.

Lemma flush_step_waits stage rd n :
  wp (flush_step stage rd) n (fun r n' => match r with Ok _ => same_waits n n' | _ => True end).
Proof.
  assert (forall fl n', same_waits n n' -> same_waits n (set_flusher fl n')) as Hset by done.
  destruct stage; cbn [flush_step]; apply wp_bind.
  - apply wp_bind, wp_gets. case_match; [|by apply wp_ret, wp_modify].
    eapply wp_mono; [apply pass_messages_spec|]. intros [rd'|e|h] n'; [|done|done].
    by intros (net & [->| ->]); apply wp_modify.
  - eapply wp_mono; [apply write_wal_spec|]. intros [u|e|h] n'; [|done|done]. intros [w ->]. by apply wp_modify.
  - unfold notify_commit. destruct (has_commit rd); [|by apply wp_ret, wp_modify].
    apply wp_bind, wp_zoom. eapply wp_mono with (P := fun _ _ => True); [done|].
    intros [u|e|h] ob _; [|done|done]. by apply wp_modify, wp_modify.
  - by apply wp_modify, wp_modify.
  - apply wp_bind, wp_gets. case_match; [|by apply wp_ret, wp_modify].
    eapply wp_mono; [apply pass_messages_spec|]. intros [rd'|e|h] n'; [|done|done].
    by intros (net & [->| ->]); apply wp_modify.
Qed.

Lemma submit_and_wait_owed th l t n :
  task_thread t = th -> owed_node n ->
  wp (submit_and_wait th l t) n (fun r n' => r = Ok tt /\ owed_node n').
Proof. intros Ht Ho. apply wp_bind, wp_modify, wp_modify. split; [done|]. by apply owed_submit. Qed.

Lemma queue_control_owed c n :
  match c with DoTest | DoTimeout | DoTake _ => True | _ => False end -> owed_node n ->
  wp (queue_control c) n (fun r n' => match r with Ok _ => owed_node n' | _ => True end).
Proof.
  intros Hc Ho. unfold wp, queue_control. destruct (step c (queue n)) as [[q' ran]|] eqn:Hs; [|done]. cbn.
  destruct (step_control c _ _ _ Hc Hs) as (Hw & _). revert Ho. apply owed_queue. intros x. by rewrite Hw.
Qed.

Lemma leave_frame_owed th n :
  owed_node n -> wp (leave_frame th) n (fun r n' => match r with Ok _ => owed_node n' | _ => True end).
Proof.
  intros Ho. unfold wp, leave_frame. destruct (frames n !! th) as [f|]; [|done].
  destruct (Wait (frame_barrier f)); [|done|done]. by apply owed_leave.
Qed.

Lemma run_task_owed lost n :
  node_inv lost n -> owed_node n -> wp run_task n (fun r n' => match r with Ok _ => owed_node n' | _ => True end).
Proof.
  intros Hi Ho. apply wp_bind, wp_gets. destruct (task_ (queue n)) as [[p t]|] eqn:Ht; [|by apply wp_fail].
  destruct (step_run (queue n) _ (inv_queue _ _ _ _ _ _ _ _ Hi) Ht) as (q' & Hrun & Hw & _).
  assert (slot_pending (walCommitObserver_ n) (frames n) t) as Hs.
  { apply (inv_tasks _ _ _ _ _ _ _ _ Hi p). rewrite Hw. by left. }
  destruct (is_write t) eqn:Hwr.
  - destruct t as [| |th log| | |]; try done. cbn in Hs.
    assert (owed (frames n) q') as Ho'.
    { eapply owed_done; [exact Ho|exact Hw|]. intros x l Hx. split; [|done]. intros ->. cbn in Hx.
      by rewrite (inv_apart _ _ _ _ _ _ _ _ Hi) in Hs by (by rewrite Hx). }
    apply wp_bind, wp_gets. destruct (registering n) as [i|] eqn:Hr.
    + apply wp_bind, wp_zoom. eapply wp_mono with (P := fun _ _ => True); [done|].
      intros [u|e|h] ob _; [|done|done]. apply wp_bind, wp_modify.
      by eapply wp_eq; [by eapply queue_control_eq|].
    + eapply (wp_eq _ _ (Ok tt) (proposed th log q' n)).
      { pose proof (propose_run _ _ _ _ _ _ Hi Ht Hr Hrun) as E. unfold run_task, mbind, prog_bind, gets in E.
        by rewrite Ht, Hr in E. }
      cbn. unfold proposed. repeat case_match; done.
  - assert (wp (_ ← run_closure t; queue_control DoRun) n
      (fun r n' => match r with Ok _ => owed_node n' | _ => True end)) as H; [|by destruct t].
    apply wp_bind. eapply wp_mono; [by apply run_closure_spec|]. intros [u|e|h] n'; [|done|done].
    intros [(Eq & _) [l Hl]]. eapply wp_eq; [eapply queue_control_eq; by rewrite Eq|]. cbn. rewrite Hl.
    eapply owed_done; [exact Ho|exact Hw|]. intros x lx [[_ [=]]|[Hne Hx]]%lookup_insert_Some. done.
Qed.

Lemma node_step_owed lost c n :
  node_inv lost n -> owed_node n -> wp (node_step c) n (fun r n' => match r with Ok _ => owed_node n' | _ => True end).
Proof.
  intros Hi Ho.
  assert (forall f, wp (timer_loop f) n (fun r n' => match r with Ok _ => owed_node n' | _ => True end)) as Htl.
  { intros f. unfold wp, timer_loop. by destruct (f _). }
  assert (forall f, wp (flusher_loop f) n (fun r n' => match r with Ok _ => owed_node n' | _ => True end)) as Hfl.
  { intros f. unfold wp, flusher_loop. by destruct (f _). }
  destruct c; cbn [node_step].
  - apply Htl.
  - apply wp_bind, wp_gets. destruct (_ && _); [|by apply wp_fail].
    eapply wp_mono; [by apply submit_and_wait_owed|]. by intros r n' [-> ?].
  - apply wp_bind. eapply wp_mono; [by apply leave_frame_owed|]. by intros [l|e|h] n'; [intros; apply wp_ret|done|done].
  - apply wp_bind, wp_gets. case_bool_decide; [apply Htl|by apply wp_fail].
  - apply Hfl.
  - apply wp_bind, wp_gets, wp_bind, wp_gets. destruct (flusher n); [|by apply wp_fail..].
    destruct (_ && _); [|by apply wp_fail]. apply wp_bind. eapply wp_mono; [by apply submit_and_wait_owed|].
    intros r n' [-> ?]. by apply wp_modify.
  - apply wp_bind. eapply wp_mono; [by apply leave_frame_owed|]. intros [l|e|h] n'; [|done|done].
    intros. destruct l as [|[]| | |]; [|destruct async_starts_thread|..]; by apply wp_modify.
  - apply wp_bind, wp_gets. destruct (flusher n) as [| |st rd]; [by apply wp_fail..|].
    eapply wp_mono; [apply flush_step_waits|]. intros [u|e|h] n'; [|done|done]. intros Hs. by apply (same_owed n).
  - apply wp_bind, wp_gets. destruct (flusher n); [apply Hfl|by apply wp_fail..].
  - by apply queue_control_owed.
  - by apply queue_control_owed.
  - by apply queue_control_owed.
  - by eapply run_task_owed.
  - apply wp_bind, wp_gets, wp_bind, wp_modify, wp_bind, wp_zoom, wp_modify, wp_modify. by apply owed_enqueue.
  - apply wp_bind, wp_gets, wp_bind, wp_modify. eapply wp_mono; [by apply submit_and_wait_owed|]. by intros r n' [-> ?].
  - apply wp_bind, wp_gets, wp_bind, wp_modify. eapply wp_mono; [by apply submit_and_wait_owed|]. by intros r n' [-> ?].
  - apply wp_bind, wp_gets, wp_bind, wp_modify. eapply wp_mono; [by apply submit_and_wait_owed|]. by intros r n' [-> ?].
  - unfold wp, call_returns. destruct (thread <? 2); [done|]. destruct (decide _).
    + apply wp_bind. eapply wp_mono; [by apply leave_frame_owed|]. intros [l|e|h] n'; [|done|done]. intros. by apply wp_modify.
    + apply wp_bind. unfold wp, leave_write. destruct (channels _ !! thread) as [c|]; [|done]. by destruct c.
Qed.

(** ** The worker *)

Definition worker_choice (c : choice) : bool :=
  match c with WorkerTests | WorkerTimesOut | WorkerTakes _ | WorkerRuns => true | _ => false end.

(** The steps that serve a closure, and those that submit one. *)
Definition serves (c : choice) : bool := match c with WorkerTakes _ | WorkerRuns => true | _ => false end.
Definition submits (c : choice) : bool :=
  match c with
  | TimerFires | FlusherAsks | ClientWrites _ | ClientAsksLeader | RpcStep _ | RpcStatus => true
  | _ => false
  end.

(** [yaraft] answers a message with no other codes than those [RaftService::Step] knows. *)
Definition known_codes : Prop := forall msg s code, fst (rn_Step msg s) <> Some (OtherYaraftError code).

Lemma known_here t n : known_codes -> ~ unknown_code t n FatalLog.
Proof. intros Hk (_ & th & msg & code & _ & Hc). by apply Hk in Hc. Qed.

Lemma run_closure_ok t n :
  ~ unknown_code t n FatalLog -> is_write t = false -> slot_pending (walCommitObserver_ n) (frames n) t ->
  exists s l, run_closure t n
    = (Ok tt, set_frames (<[task_thread t := MkFrame l (Satisfied tt)]> (frames n)) (set_fsm s n)).
Proof.
  intros Hk Hw Hs.
  assert (forall l s, signal_frame (task_thread t) l (set_fsm s n)
    = (Ok tt, set_frames (<[task_thread t := MkFrame l (Satisfied tt)]> (frames n)) (set_fsm s n))) as Hsig.
  { intros l s. destruct t; try done; destruct Hs as [l0 Hl0]; by rewrite (signal_frame_ok _ l l0). }
  destruct t as [th|th|th log|th msg|th|th]; try done; cbn [run_closure task_thread] in *; unfold mbind, prog_bind, run_fsm, gets.
  - eexists _, _. by rewrite Hsig.
  - destruct (rn_GetReady (fsm n)) as [rd s]. eexists _, _. by rewrite Hsig.
  - destruct (rn_Step msg (fsm n)) as [[[| |code]|] s] eqn:Hst; cbn in *.
    1,2,4: eexists _, _; by rewrite Hsig.
    destruct Hk. split; [done|]. exists th, msg, code. by rewrite Hst.
  - exists (fsm n). eexists. rewrite <- Hsig. by rewrite set_fsm_id.
  - exists (fsm n). eexists. rewrite <- Hsig. by rewrite set_fsm_id.
Qed.

(** One statement group of the closure under way: it ends, or a write goes on to register. *)
Lemma run_task_ok lost p t n :
  ~ unknown_code t n FatalLog -> node_inv lost n -> task_ (queue n) = Some (p, t) ->
  exists n', run_task n = (Ok tt, n') /\
    ((task_ (queue n') = None /\ waiting (queue n) = (p, t) :: waiting (queue n') /\
      (is_write t = false -> exists l, frames n' !! task_thread t = Some (MkFrame l (Satisfied tt)))) \/
     (registering n = None /\ registering n' <> None /\ queue n' = queue n)).
Proof.
  intros Hk Hi Ht. destruct (step_run (queue n) _ (inv_queue _ _ _ _ _ _ _ _ Hi) Ht) as (q' & Hrun & Hw & Htk & _).
  destruct (is_write t) eqn:Hwr.
  - destruct t as [| |th log| | |]; try done. destruct (registering n) as [i|] eqn:Hr.
    + destruct (inv_reg _ _ _ _ _ _ _ _ Hi i Hr) as (p' & th' & log' & E & Hp). rewrite Ht in E. injection E as <- <- <-.
      destruct (Register (i, i) th (walCommitObserver_ n)) as [r ob'] eqn:HR.
      destruct (inv_register _ _ _ _ _ _ _ _ _ _ _ _ _ _ _ Hi Hrun Ht Hp HR) as [-> _].
      exists (set_queue q' (set_registering None (set_observer ob' n))). split; [|by left].
      unfold run_task, mbind, prog_bind, gets. rewrite Ht, Hr. unfold on_observer, zoom. rewrite HR. cbn.
      by erewrite queue_control_eq.
    + exists (proposed th log q' n). split; [by eapply propose_run|].
      unfold proposed. repeat case_match; [by left|by right|by left].
  - assert (slot_pending (walCommitObserver_ n) (frames n) t) as Hs.
    { apply (inv_tasks _ _ _ _ _ _ _ _ Hi p). rewrite Hw. by left. }
    destruct (run_closure_ok t n Hk Hwr Hs) as (s & l & Hc).
    eexists. split.
    + unfold run_task, mbind, prog_bind, gets. rewrite Ht. destruct t; try done; rewrite Hc; by erewrite queue_control_eq.
    + left. split_and!; [done|done|]. intros _. exists l. apply lookup_insert_eq.
Qed.

Lemma node_run_app cs1 cs2 n n1 : node_run cs1 n = (Ok tt, n1) -> node_run (cs1 ++ cs2) n = node_run cs2 n1.
Proof.
  revert n. induction cs1 as [|c cs1 IH]; intros n; cbn; [by intros [= ->]|].
  unfold mbind, prog_bind. destruct (node_step c n) as [[[]|e|h] n2]; [|done|done]. apply IH.
Qed.

Lemma node_run_one c n n1 : node_step c n = (Ok tt, n1) -> node_run [c] n = (Ok tt, n1).
Proof. intros Hs. cbn. unfold mbind, prog_bind. by rewrite Hs. Qed.

Lemma worker_inv lost c n :
  worker_choice c = true -> node_inv lost n -> wp (node_step c) n (step_ok (fault c n) (node_inv lost)).
Proof. intros Hc. apply node_step_inv. intros log ->. done. Qed.

(** The worker ends the closure it has in hand. *)
Lemma finish_current lost p t n :
  known_codes -> node_inv lost n ->
  task_ (queue n) = Some (p, t) ->
  exists k n', (k <= 2)%nat /\ node_run (replicate k WorkerRuns) n = (Ok tt, n') /\ node_inv lost n' /\
    task_ (queue n') = None /\ waiting (queue n) = (p, t) :: waiting (queue n') /\
    (is_write t = false -> exists l, frames n' !! task_thread t = Some (MkFrame l (Satisfied tt))).
Proof.
  intros Hk Hi Ht. destruct (run_task_ok lost p t n (known_here _ _ Hk) Hi Ht) as (n1 & Hr1 & Hcase).
  pose proof (wp_run _ _ _ _ _ (worker_inv lost WorkerRuns n eq_refl Hi) Hr1) as Hi1. cbn in Hi1.
  destruct Hcase as [(Htk & Hw & Hf)|(_ & Hreg & Hq)].
  - exists 1%nat, n1. split_and!; [lia|by apply node_run_one|done..].
  - rewrite <- Hq in Ht. destruct (run_task_ok lost p t n1 (known_here _ _ Hk) Hi1 Ht) as (n2 & Hr2 & [(Htk & Hw & Hf)|(Hn & _)]); [|done].
    exists 2%nat, n2. rewrite <- Hq. split_and!; [lia| | |done..].
    + change (replicate 2 WorkerRuns) with ([WorkerRuns] ++ [WorkerRuns]). erewrite node_run_app by (by apply node_run_one).
      by apply node_run_one.
    + exact (wp_run _ _ _ _ _ (worker_inv lost WorkerRuns n1 eq_refl Hi1) Hr2).
Qed.

Lemma dequeue_some {T} (x : Z * T) q : x ∈ q -> exists i q', dequeue i q = Some (x, q').
Proof. intros [i Hi]%list_elem_of_lookup. exists i, (delete i q). unfold dequeue. by rewrite Hi. Qed.

(** An idle worker takes the closure of a thread. *)
Lemma take_task lost p t n :
  node_inv lost n ->
  task_ (queue n) = None -> (p, t) ∈ waiting (queue n) ->
  exists ws n', Forall (fun c => worker_choice c = true) ws /\ (length ws <= 2)%nat /\ node_run ws n = (Ok tt, n') /\
    node_inv lost n' /\ task_ (queue n') = Some (p, t) /\ (0 < length (filter serves ws))%nat.
Proof.
  intros Hi Ht Hin.
  destruct (dequeue_some (p, t) (queue_ (queue n))) as (i & q' & Hd).
  { unfold waiting in Hin. by rewrite Ht in Hin. }
  destruct (inv_queue _ _ _ _ _ _ _ _ Hi) as [Hq _]. rewrite (inv_alive _ _ _ _ _ _ _ _ Hi) in Hq. destruct Hq as [Hst Hth].
  assert (forall n1, queue_ (queue n1) = queue_ (queue n) -> task_ (queue n1) = None -> node_inv lost n1 ->
    bgWorkerThread_ (worker_ (queue n1)) = Some InTask ->
    exists n', node_step (WorkerTakes i) n1 = (Ok tt, n') /\ node_inv lost n' /\ task_ (queue n') = Some (p, t)) as Htake.
  { intros n1 Hq1 Ht1 Hi1 Hth1.
    assert (node_step (WorkerTakes i) n1 = (Ok tt, set_queue (MkTaskQueue q' (worker_ (queue n1)) (Some (p, t)) (owner (queue n1))) n1)) as Hs.
    { cbn. eapply queue_control_eq. cbn. by rewrite Ht1, Hth1, Hq1, Hd. }
    pose proof (wp_run _ _ _ _ _ (worker_inv lost (WorkerTakes i) n1 eq_refl Hi1) Hs) as Hi2.
    eexists. split; [exact Hs|]. split; [exact Hi2|done]. }
  destruct Hth as [Hth|Hth].
  - assert (node_step WorkerTests n = (Ok tt, set_queue (MkTaskQueue (queue_ (queue n)) (MkBackgroundWorker (Some InTask) false) None (owner (queue n))) n)) as Hs.
    { cbn. eapply queue_control_eq. destruct (queue n) as [q [th s] tk o]. cbn in *. by subst. }
    pose proof (wp_run _ _ _ _ _ (worker_inv lost WorkerTests n eq_refl Hi) Hs) as Hi1. cbn in Hi1.
    destruct (fun a b c => Htake _ a b Hi1 c) as (n' & Hs' & Hi' & Ht'); [done..|].
    exists [WorkerTests; WorkerTakes i], n'. split_and!; [by repeat constructor|done| |done|done|apply Nat.lt_0_1].
    change [WorkerTests; WorkerTakes i] with ([WorkerTests] ++ [WorkerTakes i]).
    erewrite node_run_app by (by apply node_run_one). by apply node_run_one.
  - destruct (Htake n eq_refl Ht Hi Hth) as (n' & Hs' & Hi' & Ht').
    exists [WorkerTakes i], n'. split_and!; [by repeat constructor|cbn; lia|by apply node_run_one|done|done|apply Nat.lt_0_1].
Qed.

(** The worker brings any closure to its end. *)
Lemma worker_serves lost p t n :
  known_codes -> node_inv lost n ->
  (p, t) ∈ waiting (queue n) ->
  exists ws n', Forall (fun c => worker_choice c = true) ws /\ (length ws <= 6)%nat /\ node_run ws n = (Ok tt, n') /\
    node_inv lost n' /\ (is_write t = false -> exists l, frames n' !! task_thread t = Some (MkFrame l (Satisfied tt))).
Proof.
  intros Hk Hi Hin.
  assert (forall n1, node_inv lost n1 -> task_ (queue n1) = None -> (p, t) ∈ waiting (queue n1) ->
    exists ws n', Forall (fun c => worker_choice c = true) ws /\ (length ws <= 4)%nat /\ node_run ws n1 = (Ok tt, n') /\
      node_inv lost n' /\ (is_write t = false -> exists l, frames n' !! task_thread t = Some (MkFrame l (Satisfied tt)))) as Hidle.
  { intros n1 Hi1 Ht1 Hin1. destruct (take_task lost p t n1) as (ws & n2 & Hws & Hlen & Hrun & Hi2 & Ht2 & _); [done..|].
    destruct (finish_current lost p t n2) as (k & n3 & Hk3 & Hrun3 & Hi3 & _ & _ & Hf); [done..|].
    exists (ws ++ replicate k WorkerRuns), n3. rewrite length_app, length_replicate. split_and!; [|lia| |done|done].
    - apply Forall_app. split; [done|by apply Forall_replicate].
    - by erewrite node_run_app. }
  destruct (task_ (queue n)) as [[p0 t0]|] eqn:Ht.
  - destruct (finish_current lost p0 t0 n) as (k & n1 & Hk1 & Hrun1 & Hi1 & Ht1 & Hw & Hf); [done..|].
    rewrite Hw in Hin. apply elem_of_cons in Hin as [[= -> ->]|Hin].
    + exists (replicate k WorkerRuns), n1. rewrite length_replicate. split_and!; [by apply Forall_replicate|lia|done..].
    + destruct (Hidle n1) as (ws & n' & Hws & Hlen & Hrun & Hrest); [done..|].
      exists (replicate k WorkerRuns ++ ws), n'. rewrite length_app, length_replicate. split_and!; [|lia| |apply Hrest..].
      * apply Forall_app. split; [by apply Forall_replicate|done].
      * by erewrite node_run_app.
  - destruct (Hidle n) as (ws & n' & Hws & Hlen & Hrest); [done..|]. exists ws, n'. split_and!; [done|lia|apply Hrest..].
Qed.

(** ** How much the worker has before it *)

(** Three for a closure in the queue, two for one in the hand of the worker, one for a write that
    is about to register. *)
Definition work (n : Node) : nat :=
  3 * length (queue_ (queue n)) +
  match task_ (queue n), registering n with
  | None, _ => 0
  | Some _, None => 2
  | Some _, Some _ => 1
  end.

Lemma no_work n : work n = 0%nat -> waiting (queue n) = [].
Proof.
  unfold work, waiting. destruct (task_ (queue n)), (registering n); cbn; [lia..| |]; destruct (queue_ (queue n)); cbn; done || lia.
Qed.

Definition works (c : choice) (n n' : Node) : Prop :=
  ((if serves c then 1 else 0) + work n' <= work n + (if submits c then 3 else 0))%nat.

Abbreviation ok_works := (fun c n (r : result ErrorCode unit) n' => match r with Ok _ => works c n n' | _ => True end).

Lemma same_works c n n' : serves c = false -> queue n' = queue n -> registering n' = registering n -> works c n n'.
Proof. intros Hc Hq Hr. unfold works, work. rewrite Hc, Hq, Hr. lia. Qed.

Lemma submit_works c p t n n' :
  serves c = false -> submits c = true -> queue n' = Enqueue p t (queue n) -> registering n' = registering n -> works c n n'.
Proof.
  intros Hc Hs Hq Hr. unfold works, work. rewrite Hc, Hs, Hq, Hr. unfold Enqueue. cbn [queue_ task_]. rewrite length_app. cbn [length]. lia.
Qed.

Lemma control_works c qc n :
  match c, qc with
  | WorkerTests, DoTest | WorkerTimesOut, DoTimeout => True
  | WorkerTakes i, DoTake j => True
  | _, _ => False
  end -> registering n = None \/ task_ (queue n) <> None -> wp (queue_control qc) n (ok_works c n).
Proof.
  intros Hc Hreg. unfold wp, queue_control. destruct (step qc (queue n)) as [[q' ran]|] eqn:Hs; [|done]. cbn. unfold works, work. cbn.
  destruct (queue n) as [q [th st] tk o]. cbn in *.
  destruct c, qc; try done; cbn in Hs; destruct th as [[]|], tk; try done; cbn in *; simplify_eq; cbn; try lia.
  destruct (dequeue _ q) as [[x q1]|] eqn:Hd; [|done]. cbn in Hs. simplify_eq. apply dequeue_perm, Permutation_length in Hd. cbn in *.
  destruct Hreg as [->|?]; [lia|done].
Qed.

Lemma known_or_not t n : unknown_code t n FatalLog \/ ~ unknown_code t n FatalLog.
Proof.
  destruct t as [| | |th msg| |]; try (right; by intros (_ & ? & ? & ? & ? & _)).
  destruct (fst (rn_Step msg (fsm n))) as [[| |code]|] eqn:Hs; [right|right|left|right].
  1,2,4: intros (_ & ? & ? & ? & [= -> ->] & ?); congruence.
  split; [done|]. by exists th, msg, code.
Qed.

Lemma run_task_works lost p t n :
  node_inv lost n -> task_ (queue n) = Some (p, t) ->
  wp run_task n (fun r n' => match r with Ok _ => works WorkerRuns n n' | Err _ => False | Halt h => fault WorkerRuns n h end).
Proof.
  intros Hi Ht. destruct (known_or_not t n) as [(_ & th & msg & code & -> & Hc)|Hk].
  - assert (exists n', run_task n = (Halt FatalLog, n')) as [n' Hr].
    { unfold run_task, mbind, prog_bind, gets. rewrite Ht. cbn [run_closure]. unfold mbind, prog_bind, run_fsm.
      destruct (rn_Step msg (fsm n)) as [r s]. cbn in Hc. subst r. by eexists. }
    eapply wp_eq; [exact Hr|]. by eapply fault_code.
  - destruct (run_task_ok lost p t n Hk Hi Ht) as (n' & Hr & Hcase). eapply wp_eq; [exact Hr|]. unfold works, work. cbn [serves submits].
    destruct Hcase as [(Ht' & Hw & _)|(Hn & Hn' & Hq)].
    + rewrite Ht', Ht. unfold waiting in Hw. rewrite Ht, Ht' in Hw. cbn in Hw. injection Hw as ->. destruct (registering n); lia.
    + rewrite Hq, Ht, Hn. destruct (registering n'); [lia|done].
Qed.

Lemma idle_registers_nothing lost n : node_inv lost n -> registering n = None \/ task_ (queue n) <> None.
Proof.
  intros Hi. destruct (registering n) as [i|] eqn:Hr; [right|by left].
  destruct (inv_reg _ _ _ _ _ _ _ _ Hi i Hr) as (p & th & log & -> & _). done.
Qed.

Lemma leave_frame_works c th n :
  serves c = false -> wp (leave_frame th) n (fun r n' => match r with Ok _ => queue n' = queue n /\ registering n' = registering n | _ => True end).
Proof.
  intros _. unfold wp, leave_frame. destruct (frames n !! th) as [f|]; [|done]. by destruct (Wait (frame_barrier f)).
Qed.

Lemma node_step_work lost c n : node_inv lost n -> wp (node_step c) n (ok_works c n).
Proof.
  intros Hi. pose proof (idle_registers_nothing lost n Hi) as Hreg.
  assert (forall f c, serves c = false -> wp (timer_loop f) n (ok_works c n)) as Htl.
  { intros f c' Hc. unfold wp, timer_loop. destruct (f _); [by apply same_works|done]. }
  assert (forall f c, serves c = false -> wp (flusher_loop f) n (ok_works c n)) as Hfl.
  { intros f c' Hc. unfold wp, flusher_loop. destruct (f _); [by apply same_works|done]. }
  destruct c; cbn [node_step].
  - by apply Htl.
  - apply wp_bind, wp_gets. destruct (_ && _); [|by apply wp_fail]. by eapply submit_works.
  - apply wp_bind. eapply wp_mono; [by apply (leave_frame_works TimerReturns)|]. intros [l|e|h] n'; [|done|done].
    intros [? ?]. apply wp_ret. by apply same_works.
  - apply wp_bind, wp_gets. case_bool_decide; [by apply Htl|by apply wp_fail].
  - by apply Hfl.
  - apply wp_bind, wp_gets, wp_bind, wp_gets. destruct (flusher n); [|by apply wp_fail..].
    destruct (_ && _); [|by apply wp_fail]. by eapply submit_works.
  - apply wp_bind. eapply wp_mono; [by apply (leave_frame_works FlusherReturns)|]. intros [l|e|h] n'; [|done|done].
    intros [? ?]. destruct l as [|[]| | |]; [|destruct async_starts_thread|..]; apply wp_modify; by apply same_works.
  - apply wp_bind, wp_gets. destruct (flusher n) as [| |st rd]; [by apply wp_fail..|].
    eapply wp_mono; [apply flush_step_waits|]. intros [u|e|h] n'; [|done|done]. intros (_ & ? & ?). by apply same_works.
  - apply wp_bind, wp_gets. destruct (flusher n); [by apply Hfl|by apply wp_fail..].
  - by apply control_works.
  - by apply control_works.
  - by apply control_works.
  - destruct (task_ (queue n)) as [[p t]|] eqn:Ht; [|by unfold wp, run_task, mbind, prog_bind, gets; rewrite Ht].
    eapply wp_mono; [by eapply run_task_works|]. by intros [].
  - by eapply submit_works.
  - by eapply submit_works.
  - by eapply submit_works.
  - by eapply submit_works.
  - unfold wp, call_returns. destruct (thread <? 2); [done|]. destruct (decide _).
    + apply wp_bind. eapply wp_mono; [by apply (leave_frame_works TimerReturns)|]. intros [l|e|h] n'; [|done|done].
      intros [? ?]. apply wp_modify. by apply same_works.
    + apply wp_bind. unfold wp, leave_write. destruct (channels _ !! thread) as [c|]; [|done].
      destruct c; try done. by apply same_works.
Qed.

Lemma node_run_work lost cs n n' :
  writes_in_place cs -> node_inv lost n -> node_run cs n = (Ok tt, n') ->
  (length (filter serves cs) + work n' <= work n + 3 * length (filter submits cs))%nat.
Proof.
  revert n. induction cs as [|c cs IH]; intros n Hce Hi Hrun; [injection Hrun as <-; cbn; lia|].
  cbn [node_run] in Hrun. unfold mbind, prog_bind in Hrun. destruct (node_step c n) as [[[]|e|h] n1] eqn:Hs; [|done|done].
  pose proof (wp_run _ _ _ _ _ (node_step_work lost c n Hi) Hs) as Hw.
  assert (node_inv lost n1) as Hi1.
  { refine (wp_run _ _ _ _ _ (node_step_inv lost c n _ Hi) Hs). intros log ->. eapply Hce. by left. }
  assert (writes_in_place cs) as Hce' by (intros log Hin; eapply Hce; by right).
  pose proof (IH n1 Hce' Hi1 Hrun) as Hr.
  unfold works in Hw. rewrite !filter_cons. destruct (serves c), (submits c); cbn [length] in *; repeat case_decide; cbn [length]; try done; lia.
Qed.

(** While there is work, a closure in hand runs, or one is taken. *)
Lemma worker_progress lost n :
  node_inv lost n -> (0 < work n)%nat ->
  exists ws r n2, (length ws <= 2)%nat /\ Forall worker_choice ws /\ node_run ws n = (r, n2) /\
     match r with Ok _ => (work n2 < work n)%nat | Err _ => False | Halt h => fault WorkerRuns n h end.
Proof.
  intros Hi Hpos. destruct (task_ (queue n)) as [[p t]|] eqn:Ht.
  - pose proof (run_task_works lost p t n Hi Ht) as Hw. unfold wp in Hw. destruct (run_task n) as [r n2] eqn:Hr. cbn in Hw.
    exists [WorkerRuns], r, n2. split_and!; [cbn; lia|by repeat constructor| |].
    + cbn. unfold mbind, prog_bind. rewrite Hr. by destruct r as [[]| |].
    + destruct r; [|done|done]. unfold works in Hw. cbn [serves submits] in Hw. lia.
  - destruct (waiting (queue n)) as [|[p t] ts] eqn:Hw.
    { exfalso. unfold waiting in Hw. rewrite Ht in Hw. cbn in Hw. unfold work in Hpos. rewrite Ht, Hw in Hpos. cbn in Hpos. lia. }
    destruct (take_task lost p t n) as (ws & n2 & Hws & Hlen & Hrun & Hi2 & Ht2 & Hsv); [done|done|rewrite Hw; by left|].
    exists ws, (Ok tt), n2. split_and!; [done|by eapply Forall_impl; [exact Hws|intros c ->]|done|].
    assert (filter submits ws = [] /\ writes_in_place ws) as [Hsub Hce].
    { clear -Hws. induction Hws as [|c ws Hc Hws [IH1 IH2]]; [split; [done|]; by intros log ?%elem_of_nil|]. split.
      - rewrite filter_cons. by destruct c.
      - intros log [<-|Hin]%elem_of_cons; [done|by eapply IH2]. }
    pose proof (node_run_work lost ws n n2 Hce Hi Hrun) as Hle. rewrite Hsub in Hle. cbn [length] in Hle. lia.
Qed.

(** So whoever waits at a barrier is signalled. *)
Lemma frame_served lost thread l n :
  known_codes -> node_inv lost n ->
  owed (frames n) (queue n) -> frames n !! thread = Some (MkFrame l Pending) ->
  exists ws n', Forall (fun c => worker_choice c = true) ws /\ (length ws <= 6)%nat /\ node_run ws n = (Ok tt, n') /\
    node_inv lost n' /\ exists l', frames n' !! thread = Some (MkFrame l' (Satisfied tt)).
Proof.
  intros Hk Hi Ho Hf. destruct (Ho thread l Hf) as (p & t & Hin & Ht).
  destruct (worker_serves lost p t n Hk Hi Hin) as (ws & n1 & Hws & Hlen & Hrun1 & Hi1 & Hf1).
  exists ws, n1. split_and!; [done..|]. rewrite <- Ht. apply Hf1.
  destruct t as [| |th log| | |]; try done. cbn in Ht. subst th.
  pose proof (inv_tasks _ _ _ _ _ _ _ _ Hi p _ Hin) as Hc. cbn in Hc.
  by rewrite (inv_apart _ _ _ _ _ _ _ _ Hi thread) in Hc by (by rewrite Hf).
Qed.
End progress.

(** ** Theorems *)

Section theorems.
Context (Y : YaraftPb) (M : MemStoreLib Y) (MSG : YaraftMsg) (RAFT : RaftLib M MSG).
Context (WAL : WriteAheadLog Y) (EI : ErasedIterator) (TC : Toolchain).

Lemma reachable_owed this options n0 cs n :
  writes_in_place cs -> opt_taskQueue options = None -> New this options = Ok n0 -> node_run cs n0 = (Ok tt, n) ->
  node_inv (fun _ => False) n /\ owed (frames n) (queue n).
Proof.
  intros Hce Hq HN.
  assert (node_inv (fun _ => False) n0 /\ owed (frames n0) (queue n0)) as H0.
  { split; [by eapply New_inv; [exact (fun _ f => f)|exact Hq|exact HN]|]. unfold New in HN. destruct (Validate options), (opt_wal options); try done.
    destruct (new_RawNode _ _). rewrite Hq in HN. destruct new_TaskQueue; [|done|done].
    destruct (match opt_flusher options with Some f => Ok f | None => new_ReadyFlusher end); [|done|done].
    injection HN as <-. by intros th l Hl. }
  clear HN Hq. revert n0 Hce H0. induction cs as [|c cs IH]; intros n0 Hce [Hi Ho] Hrun; [by injection Hrun as <-|].
  cbn in Hrun. unfold mbind, prog_bind in Hrun. destruct (node_step c n0) as [[[]|e|h] n1] eqn:Hs; [|done|done].
  apply (IH n1); [intros log Hin; eapply Hce; by right| |done]. split.
  - refine (wp_run _ _ _ _ _ (node_step_inv _ c n0 _ Hi) Hs). intros log ->. eapply Hce. by left.
  - exact (wp_run _ _ _ _ _ (node_step_owed _ c n0 Hi Ho) Hs).
Qed.

(** The step by which a thread leaves the barrier it waits at. *)
Definition return_step (thread : Z) : choice :=
  if thread =? timer_thread then TimerReturns
  else if thread =? flusher_thread then FlusherReturns else CallReturns thread.

Lemma satisfied_returns lost th l n :
  node_inv lost n -> frames n !! th = Some (MkFrame l (Satisfied tt)) -> exists n', node_step (return_step th) n = (Ok tt, n').
Proof.
  intros Hi Hf. destruct (inv_frames _ _ _ _ _ _ _ _ Hi th _ Hf) as [Hr _].
  assert (leave_frame th n = (Ok l, set_frames (delete th (frames n)) n)) as Hl by (unfold leave_frame; by rewrite Hf).
  unfold return_step. destruct (Z.eqb_spec th timer_thread) as [->|Hn0]; [|destruct (Z.eqb_spec th flusher_thread) as [->|Hn1]].
  - cbn. unfold mbind, prog_bind. rewrite Hl. by eexists.
  - cbn. unfold mbind, prog_bind. rewrite Hl. destruct l as [|[]| | |]; [|destruct async_starts_thread|..]; by eexists.
  - unfold timer_thread, flusher_thread in *. cbn. unfold call_returns. destruct (Z.ltb_spec th 2); [lia|].
    rewrite decide_True by (by rewrite Hf). unfold mbind, prog_bind. rewrite Hl. by eexists.
Qed.


(** C31: a commit answers the writers it covers.  In every reachable state in which the flusher is
    about to notify a commit index that covers a registered writer: where an erased iterator still
    steps, that writer returns OK right after the notification; where it does not, the notification
    itself is undefined behaviour. *)
Theorem commit_answers_writer this options n0 cs n rd c index thread :
  channel_built_in_place = true ->
  opt_taskQueue options = None -> New this options = Ok n0 -> node_run cs n0 = (Ok tt, n) ->
  flusher n = Flushing NotifyCommit rd -> has_commit rd = Some c ->
  ((index, index), thread) ∈ writes_ (walCommitObserver_ n) -> index <= c ->
  if erased_iterator_steps then
    exists n1 n2, node_step FlusherFlushes n = (Ok tt, n1) /\ node_step (CallReturns thread) n1 = (Ok tt, n2) /\
      last (history n2) = Some (CallReturned thread (WriteReturned OK))
  else exists n1, node_step FlusherFlushes n = (Halt Undefined, n1).
Proof.
  intros Hce Hq HN Hrun Hf Hc Hin Hle. destruct (reachable_owed this options n0 cs n (fun _ _ => Hce) Hq HN Hrun) as [Hi _].
  destruct (inv_listen _ _ _ _ _ _ _ _ Hi _ _ Hin) as [Hp _]. destruct (inv_chans _ _ _ _ _ _ _ _ Hi _ _ Hp) as [Hr _].
  assert (frames n !! thread = None) as Hfr.
  { destruct (frames n !! thread) eqn:E; [|done]. by rewrite (inv_apart _ _ _ _ _ _ _ _ Hi) in Hp by (by rewrite E). }
  pose proof (inv_nodup _ _ _ _ _ _ _ _ Hi) as Hnd. apply NoDup_app in Hnd as (_ & _ & Hnd).
  pose proof (fun r ch H => proj1 (inv_listen _ _ _ _ _ _ _ _ Hi r ch H)) as Hl.
  set (ob := walCommitObserver_ n) in *.
  assert (forall r ob', Notify c ob = (r, ob') -> r <> Ok tt -> exists n1, node_step FlusherFlushes n = (r, n1)) as Hdies.
  { intros r ob' Hn Hne. cbn. unfold mbind, prog_bind, gets. rewrite Hf. cbn [flush_step]. unfold notify_commit, mbind, prog_bind, on_observer, zoom.
    rewrite Hc. fold ob. rewrite Hn. destruct r as [[]|e|h]; [done|by eexists..]. }
  destruct (Notify_cases EI c ob) as [(Hu & He & _)|[He0 Hn]]; [by split| |].
  { rewrite He. destruct (Notify c ob) as [r ob'] eqn:Hn. cbn in Hu. subst r. by eapply Hdies. }
  destruct erased_iterator_steps eqn:He.
  2: { rewrite (He0 eq_refl) in Hin. by apply elem_of_nil in Hin. }
  eexists _, _. split_and!.
  - cbn. unfold mbind, prog_bind, gets. rewrite Hf. cbn [flush_step]. unfold notify_commit, mbind, prog_bind, on_observer, zoom.
    rewrite Hc. fold ob. rewrite Hn. done.
  - cbn. unfold call_returns. destruct (Z.ltb_spec thread 2); [lia|]. cbn. rewrite decide_False by (by rewrite Hfr; intros [? ?]).
    unfold mbind, prog_bind, leave_write. cbn. rewrite (told_spec c _ _ (index, index) thread Hnd Hin). cbn [snd].
    destruct (Z.leb_spec index c); [|lia]. done.
  - cbn. apply last_snoc.
Qed.
End theorems.
