(* ===== verification/Shutdown.v ===== *)
(** * The end of a member: [~ReplicatedLogImpl] in [src/replicated_log_impl.h]

    The destructor is the default one: it destroys the members of the class in the reverse of their
    order, so the flusher goes first, then the timer, then the cluster and the observer, and last
    the executor with its queue.  Each of the three destroys its thread: it is told to stop and
    joined.  While the deleting thread waits in a [join] the other threads go on, and the thread it
    waits for may itself wait for the worker of the queue. *)

From S2P Require Import Prelude External Status Channel TaskQueue Observer Cluster Node NodeSpec Progress.

Section shutdown.
Context {Y : YaraftPb} {M : MemStoreLib Y} {MSG : YaraftMsg} {RAFT : RaftLib M MSG}.
Context {WAL : WriteAheadLog Y} {EI : ErasedIterator} {TC : Toolchain}.

Abbreviation NodeM := (Prog ErrorCode Node).

(** ** The destructor *)

(** Where the thread that deletes the object is. *)
Inductive delete_pc := Living | JoiningFlusher | JoiningTimer | JoiningQueue | Gone.

Record Owned := MkOwned { member : Node; deleting : delete_pc }.

Abbreviation OwnedM := (Prog ErrorCode Owned).

Definition on_member {A} (p : NodeM A) : OwnedM A := zoom member (fun n s => MkOwned n (deleting s)) p.
Definition goto (pc : delete_pc) : OwnedM unit := modify (fun s => MkOwned (member s) pc).

(** A [join]; [fail] while the thread has not ended. *)
Definition join {A} (get : Node -> A) (put : A -> Node -> Node) (f : A -> option A) : NodeM unit := fun n =>
  match f (get n) with
  | Some a => (Ok tt, put a n)
  | None => (Err RuntimeError, n)
  end.

(** The worker is a member of what is destroyed: its destructor runs after [Stop]. *)
Definition on_flusher_worker {A} (p : Prog ErrorCode BackgroundWorker A) : NodeM A :=
  zoom flusher_ set_flusher_ (zoom flusher_worker_ set_flusher_worker_ p).
Definition on_timer_worker {A} (p : Prog ErrorCode BackgroundWorker A) : NodeM A :=
  zoom timer_ set_timer_ (zoom timer_worker_ set_timer_worker_ p).
Definition set_queue_worker (w : BackgroundWorker) (n : Node) : Node :=
  set_queue (MkTaskQueue (queue_ (queue n)) w (task_ (queue n)) (owner (queue n))) n.

(** The next step of the deleting thread: from the return of one [join] to the call of the next. *)
Definition delete_ReplicatedLogImpl : OwnedM unit :=
  pc ← gets deleting;
  match pc with
  | Living =>
      _ ← on_member (zoom flusher_ set_flusher_ ReadyFlusher_Stop_store);
      goto JoiningFlusher
  | JoiningFlusher =>
      _ ← on_member (join flusher_ set_flusher_ ReadyFlusher_Stop_join);
      _ ← on_member (on_flusher_worker delete_BackgroundWorker);
      _ ← on_member (zoom timer_ set_timer_ RaftTimer_Stop_store);
      goto JoiningTimer
  | JoiningTimer =>
      _ ← on_member (join timer_ set_timer_ RaftTimer_Stop_join);
      _ ← on_member (on_timer_worker delete_BackgroundWorker);
      _ ← on_member (queue_control DoStop);
      goto JoiningQueue
  | JoiningQueue =>
      _ ← on_member (queue_control DoJoin);
      _ ← on_member (zoom (fun n => worker_ (queue n)) set_queue_worker delete_BackgroundWorker);
      goto Gone
  | Gone => fail RuntimeError
  end.

(** A choice that begins no call on the object. *)
Definition begins_no_call (c : choice) : bool :=
  match c with ClientWrites _ | ClientAsksLeader | RpcStep _ | RpcStatus => false | _ => true end.

(** Once the queue is being joined the observer is gone: a write that runs then touches it. *)
Definition touches_observer (c : choice) (n : Node) : bool :=
  match c, task_ (queue n) with
  | WorkerRuns, Some (_, t) => is_write t
  | _, _ => false
  end.

(** A step of one of the other threads.  Nobody calls an object that is being deleted; a caller
    that was answered returns whenever it likes. *)
Definition others_step (c : choice) : OwnedM unit :=
  pc ← gets deleting;
  touches ← gets (fun s => touches_observer c (member s));
  match pc with
  | Living => on_member (node_step c)
  | JoiningFlusher | JoiningTimer => if begins_no_call c then on_member (node_step c) else fail RuntimeError
  | JoiningQueue =>
      if (touches : bool) then halt_with Undefined
      else if begins_no_call c then on_member (node_step c) else fail RuntimeError
  | Gone => match c with CallReturns _ => on_member (node_step c) | _ => fail RuntimeError end
  end.

Inductive owned_choice := Others (c : choice) | Deletes.

Definition owned_step (c : owned_choice) : OwnedM unit :=
  match c with
  | Others c => others_step c
  | Deletes => delete_ReplicatedLogImpl
  end.

Fixpoint owned_run (cs : list owned_choice) : OwnedM unit :=
  match cs with
  | [] => mret tt
  | c :: cs => _ ← owned_step c; owned_run cs
  end.

(** No closure of a call from outside is queued or runs. *)
Definition quiet (n : Node) : Prop := forall p t, (p, t) ∈ waiting (queue n) -> task_thread t < 2.

(** ** What the loops of the timer and of the flusher are at *)

Record loops (n : Node) : Prop := {
  loop_timer : is_Some (frames n !! timer_thread) -> in_task (timer_worker_ (timer_ n)) = true;
  loop_flusher : flusher n <> FlusherIdle -> in_task (flusher_worker_ (flusher_ n)) = true;
  loop_waits : flusher n = FlusherWaits -> is_Some (frames n !! flusher_thread);
}.

(** A step of a worker's own thread, or none. *)
Definition worker_moves (w w' : BackgroundWorker) : Prop :=
  w' = w \/ worker_test w = Some w' \/ worker_task_done w = Some w'.

(** A thread that runs, told to stop or not, and one that was joined. *)
Definition running (stop : bool) (w : BackgroundWorker) : Prop :=
  stopped_ w = stop /\ exists pc, bgWorkerThread_ w = Some pc /\ (pc = Exited -> stop = true).

Lemma moves_running stop w w' : worker_moves w w' -> running stop w -> running stop w'.
Proof.
  destruct w as [[[]|] s]; intros [->|[[= <-]|[= <-]]] [<- (pc & Hpc & Hex)]; (split; [done|]); cbn in *;
    try (by exists pc); [|by eexists]. by eexists; split; [done|]; destruct s.
Qed.

Lemma moves_joined w w' : worker_moves w w' -> bgWorkerThread_ w = None -> bgWorkerThread_ w' = None.
Proof. destruct w as [[]]; [done|]. by intros [->|[[=]|[=]]]. Qed.

Lemma not_in_task w w' : worker_test w = Some w' -> in_task w = false.
Proof. destruct w as [[[]|] s]; try done. Qed.

(** What a step of the worker of the queue or of a call leaves as it is. *)
Definition keeps_threads (n n' : Node) : Prop :=
  timer_ n' = timer_ n /\ flusher_ n' = flusher_ n /\
  (forall th, th < 2 -> is_Some (frames n' !! th) <-> is_Some (frames n !! th)) /\
  (forall x, x ∈ waiting (queue n') -> x ∈ waiting (queue n)).
Definition keeps_loops (n n' : Node) : Prop := keeps_threads n n' /\ flusher n' = flusher n.

#[local] Instance keeps_loops_preorder : PreOrder keeps_loops.
Proof.
  split; [by split|]. intros n1 n2 n3 [(T1 & F1 & S1 & W1) P1] [(T2 & F2 & S2 & W2) P2].
  split; [|by rewrite P2]. split_and!; [by rewrite T2|by rewrite F2| |auto].
  intros th Hth. by rewrite S2, S1.
Qed.

Abbreviation keeps := (preserves (E := ErrorCode) keeps_loops).

Lemma keeps_fsm {A} f : keeps (run_fsm f : NodeM A).
Proof. intros n. unfold run_fsm. by destruct (f (fsm n)). Qed.

Lemma keeps_signal th l : keeps (signal_frame th l).
Proof.
  intros n. unfold signal_frame. destruct (frames n !! th) as [f|] eqn:Hf; [|done]. destruct (Signal _); [|done|done].
  split; [|done]. split_and!; [done|done| |done]. intros x _. cbn. destruct (decide (x = th)) as [->|Hne].
  - rewrite lookup_insert_eq, Hf. split; by eexists.
  - by rewrite lookup_insert_ne.
Qed.

Lemma keeps_queue c : match c with DoTest | DoTimeout | DoTake _ | DoRun => True | _ => False end -> keeps (queue_control c).
Proof.
  intros Hc n. unfold queue_control. destruct (step c (queue n)) as [[q' ran]|] eqn:Hs; [|done].
  split; [|done]. split_and!; [done..|]. intros x. by apply (step_waiting c _ _ ran).
Qed.

#[local] Hint Resolve keeps_fsm keeps_signal : preserves.

Lemma keeps_closure t : keeps (run_closure t).
Proof. destruct t; cbn [run_closure]; preserves_tac. Qed.

Lemma keeps_run_task : keeps run_task.
Proof.
  unfold run_task. apply preserves_bind; [apply _|preserves_tac|]. intros [[p t]|]; [|preserves_tac].
  pose proof (keeps_queue DoRun I). pose proof (keeps_closure t). unfold propose. destruct t; preserves_tac.
Qed.

Lemma keeps_call_returns th : keeps (call_returns th).
Proof.
  intros n. unfold call_returns. destruct (Z.ltb_spec th 2) as [|Hth]; [done|]. destruct (decide _).
  - unfold mbind, prog_bind, leave_frame. destruct (frames n !! th) as [f|]; [|done]. destruct (Wait _); [|done|done].
    split; [|done]. split_and!; [done|done| |done]. cbn. intros x Hx. by rewrite lookup_delete_ne by lia.
  - unfold mbind, prog_bind, leave_write. destruct (channels _ !! th) as [c|]; [|done]. by destruct c.
Qed.

Lemma keeps_loops_loops n n' : keeps_loops n n' -> loops n -> loops n'.
Proof.
  intros [(Ht & Hf & Hs & _) Hp] [L1 L2 L3]. split; rewrite ?Ht, ?Hf, ?Hp, ?Hs by done; done.
Qed.

(** *** Every step *)

(** What a step does to the loops: they stay as described, their threads take steps of their own
    only, and only a new call puts a closure of a caller into the queue. *)
Record loop_step (c : choice) (n n' : Node) : Prop := {
  step_timer : worker_moves (timer_worker_ (timer_ n)) (timer_worker_ (timer_ n'));
  step_flusher : worker_moves (flusher_worker_ (flusher_ n)) (flusher_worker_ (flusher_ n'));
  step_loops : loops n';
  step_quiet : begins_no_call c = true -> quiet n -> quiet n';
}.

Abbreviation ok := (fun Q (r : result ErrorCode unit) (n : Node) => match r with Ok _ => Q n | _ => True end).

Lemma keeps_loop_step c n n' : loops n -> keeps_loops n n' -> loop_step c n n'.
Proof.
  intros Hl Hk. pose proof (keeps_loops_loops _ _ Hk Hl). destruct Hk as [(Ht & Hf & _ & Hw) _].
  split; [rewrite Ht; by left|rewrite Hf; by left|done|]. intros _ Hq p t Hin. by apply (Hq p), Hw.
Qed.

Lemma keeps_wp c m n : loops n -> keeps m -> wp m n (ok (loop_step c n)).
Proof. intros Hl Hk. specialize (Hk n). unfold wp. destruct (m n) as [[[]|e|h] n']; [|done|done]. by apply keeps_loop_step. Qed.

(** The loops themselves. *)
Lemma timer_loop_step c f n :
  (forall w w', f w = Some w' -> worker_moves w w') ->
  (is_Some (frames n !! timer_thread) -> f (timer_worker_ (timer_ n)) = None) ->
  loops n -> wp (timer_loop f) n (ok (loop_step c n)).
Proof.
  intros Hf Hfr [L1 L2 L3]. unfold wp, timer_loop. destruct (f _) as [w|] eqn:Hw; [|done].
  split; [by apply Hf|by left| |done]. split; [|done|done]. intros Hs. by specialize (Hfr Hs).
Qed.

Lemma flusher_loop_step c f n :
  (forall w w', f w = Some w' -> worker_moves w w') ->
  (flusher n <> FlusherIdle -> f (flusher_worker_ (flusher_ n)) = None) ->
  loops n -> wp (flusher_loop f) n (ok (loop_step c n)).
Proof.
  intros Hf Hfr [L1 L2 L3]. unfold wp, flusher_loop. destruct (f _) as [w|] eqn:Hw; [|done].
  split; [by left|by apply Hf| |done]. split; [done| |done]. intros Hs. by specialize (Hfr Hs).
Qed.

Lemma in_task_no_test w : in_task w = true -> worker_test w = None.
Proof. by destruct w as [[[]|] s]. Qed.

(** A thread submits a closure and waits. *)
Lemma submit_loop_step c th l t n fl :
  task_thread t = th -> loops n -> (th < 2 \/ begins_no_call c = false) ->
  (th = timer_thread -> in_task (timer_worker_ (timer_ n)) = true) ->
  (th = flusher_thread -> in_task (flusher_worker_ (flusher_ n)) = true /\ fl = FlusherWaits) ->
  (th <> flusher_thread -> fl = flusher n) ->
  exists n', submit_and_wait th l t n = (Ok tt, n') /\ flusher n' = flusher n /\ loop_step c n (set_flusher fl n').
Proof.
  intros Ht [L1 L2 L3] Hc Htm Hfl Hne. eexists. split; [done|]. split; [done|].
  split; [by left|by left| |].
  - split; cbn.
    + intros [f Hf]. apply lookup_insert_Some in Hf as [[He _]|[_ Hf]]; [by apply Htm|]. apply L1. by rewrite Hf.
    + intros Hfi. destruct (decide (th = flusher_thread)) as [He|Hn]; [by apply Hfl|]. rewrite Hne in Hfi by done. by apply L2.
    + intros Hfw. destruct (decide (th = flusher_thread)) as [->|Hn]; [by rewrite lookup_insert_eq|].
      rewrite lookup_insert_ne by done. apply L3. by rewrite Hne in Hfw.
  - intros Hb Hq p t' Hin. destruct Hc as [Hc|Hc]; [|congruence].
    change (waiting (queue _)) with (waiting (Enqueue th t (queue n))) in Hin.
    rewrite waiting_Enqueue, elem_of_app, list_elem_of_singleton in Hin.
    destruct Hin as [Hin|[= -> ->]]; [by apply (Hq p)|by rewrite Ht].
Qed.

(** A call begins. *)
Lemma begin_loop_step c l (t : Z -> task) n :
  (forall th, task_thread (t th) = th) -> 2 <= next_thread n -> loops n -> begins_no_call c = false ->
  wp (begin_call (fun th => submit_and_wait th l (t th))) n (ok (loop_step c n)).
Proof.
  intros Ht Hn Hl Hc. apply wp_bind, wp_gets, wp_bind, wp_modify.
  destruct (submit_loop_step c (next_thread n) l (t (next_thread n)) (set_next_thread (next_thread n + 1) n) (flusher n))
    as (n' & Hrun & Hf & [S1 S2 S3 S4]); [apply Ht|by destruct Hl; split|by right|..]; try (unfold timer_thread, flusher_thread; lia); [done|].
  eapply wp_eq; [exact Hrun|]. assert (flusher n' = flusher n) as Hf' by done. rewrite <- Hf', set_flusher_id in S3.
  split; [done|done|done|congruence].
Qed.

Lemma begin_write_loop_step c log n :
  2 <= next_thread n -> loops n -> begins_no_call c = false ->
  wp (begin_call (fun th => AsyncWrite th log)) n (ok (loop_step c n)).
Proof.
  intros Hn [L1 L2 L3] Hc. apply wp_bind, wp_gets, wp_bind, wp_modify, wp_bind, wp_zoom, wp_modify, wp_modify.
  split; [by left|by left|by split|congruence].
Qed.

(** The flusher executes a statement. *)
Lemma flush_step_workers stage rd n :
  wp (flush_step stage rd) n (ok (fun n' => timer_ n' = timer_ n /\ flusher_ n' = flusher_ n /\ flusher n' <> FlusherWaits)).
Proof.
  assert (forall fl n', timer_ n' = timer_ n /\ flusher_ n' = flusher_ n -> fl <> FlusherWaits ->
    wp (modify (set_flusher fl)) n' (ok (fun n' => timer_ n' = timer_ n /\ flusher_ n' = flusher_ n /\ flusher n' <> FlusherWaits))) as Hset.
  { intros fl n' [? ?] ?. by apply wp_modify. }
  destruct stage; cbn [flush_step]; apply wp_bind.
  - apply wp_bind, wp_gets. case_match; [|by apply wp_ret, Hset].
    eapply wp_mono; [apply pass_messages_spec|]. intros [rd'|e|h] n'; [|done|done].
    by intros (net & [->| ->]); apply Hset.
  - eapply wp_mono; [apply write_wal_spec|]. intros [u|e|h] n'; [|done|done]. intros [w ->]. by apply Hset.
  - unfold notify_commit. destruct (has_commit rd); [|by apply wp_ret, Hset].
    apply wp_bind, wp_zoom. eapply wp_mono with (P := fun _ _ => True); [done|].
    intros [u|e|h] ob _; [|done|done]. by apply wp_modify, Hset.
  - by apply wp_modify, Hset.
  - apply wp_bind, wp_gets. case_match; [|by apply wp_ret, Hset].
    eapply wp_mono; [apply pass_messages_spec|]. intros [rd'|e|h] n'; [|done|done].
    by intros (net & [->| ->]); apply Hset.
Qed.

Lemma flush_loop_step c stage rd n :
  flusher n = Flushing stage rd -> loops n -> wp (flush_step stage rd) n (ok (loop_step c n)).
Proof.
  intros Hf [L1 L2 L3]. pose proof (flush_step_workers stage rd n) as Hw. pose proof (flush_step_waits stage rd n) as Hs.
  unfold wp in *. destruct (flush_step stage rd n) as [[[]|e|h] n']; [|done|done].
  destruct Hw as (Ht & Hfl & Hn), Hs as (Hfr & Hq & _). split; [rewrite Ht; by left|rewrite Hfl; by left| |].
  - split; rewrite ?Ht, ?Hfl, ?Hfr; [done| |done]. intros _. apply L2. by rewrite Hf.
  - intros _ Hqu p t. rewrite Hq. apply Hqu.
Qed.

(** A loop's thread leaves its barrier. *)
Lemma leave_loop_step c th n fl :
  loops n -> (th = timer_thread /\ fl = flusher n \/ th = flusher_thread /\ fl <> FlusherWaits /\ flusher n = FlusherWaits) ->
  loop_step c n (set_flusher fl (set_frames (delete th (frames n)) n)).
Proof.
  intros [L1 L2 L3] Hth. split; [by left|by left| |done]. split; cbn.
  - intros [f Hf]. apply lookup_delete_Some in Hf as [_ Hf]. apply L1. by rewrite Hf.
  - destruct Hth as [[_ ->]|(_ & _ & Hw)]; [done|]. intros _. apply L2. by rewrite Hw.
  - destruct Hth as [[-> ->]|(_ & ? & _)]; [|done]. intros Hw. by rewrite lookup_delete_ne; [apply L3|].
Qed.

Lemma node_step_loops lost c n :
  node_inv lost n -> loops n -> wp (node_step c) n (ok (loop_step c n)).
Proof.
  intros Hi Hl. pose proof (inv_threads _ _ _ _ _ _ _ _ Hi) as Hn.
  assert (forall w w', worker_test w = Some w' -> worker_moves w w') as Ht by (by right; left).
  assert (forall w w', worker_task_done w = Some w' -> worker_moves w w') as Hd by (by right; right).
  destruct c; cbn [node_step].
  - apply timer_loop_step; [done| |done]. intros Hf. by apply in_task_no_test, (loop_timer n Hl).
  - apply wp_bind, wp_gets. destruct (_ && _) eqn:Hcan; [|by apply wp_fail]. apply andb_prop in Hcan as [_ Hcan].
    destruct (submit_loop_step TimerFires timer_thread LocalsTick (TaskTick timer_thread) n (flusher n))
      as (n' & Hrun & Hf & Hs); [done|done|by left|done..|].
    eapply wp_eq; [exact Hrun|]. by rewrite <- Hf, set_flusher_id in Hs.
  - apply wp_bind. apply (leave_frame_step lost); [done|done|]. intros f Hf _. apply wp_ret.
    rewrite <- (set_flusher_id (set_frames _ n)). apply leave_loop_step; [done|by left].
  - apply wp_bind, wp_gets. case_bool_decide as Hb; [|by apply wp_fail]. apply timer_loop_step; [done| |done].
    rewrite Hb. by intros [? ?].
  - apply flusher_loop_step; [done| |done]. intros Hf. by apply in_task_no_test, (loop_flusher n Hl).
  - apply wp_bind, wp_gets, wp_bind, wp_gets. destruct (flusher n) eqn:Hfl; [|by apply wp_fail..].
    destruct (_ && _) eqn:Hcan; [|by apply wp_fail]. apply andb_prop in Hcan as [_ Hcan]. apply wp_bind.
    destruct (submit_loop_step FlusherAsks flusher_thread (LocalsGetReady None) (TaskGetReady flusher_thread) n FlusherWaits)
      as (n' & Hrun & Hf & Hs); [done|done|by left|done..|].
    eapply wp_eq; [exact Hrun|]. by apply wp_modify.
  - apply wp_bind. apply (leave_frame_step lost); [done|done|]. intros f Hf _.
    assert (flusher n = FlusherWaits) as Hw by (apply (inv_flusher _ _ _ _ _ _ _ _ Hi); by rewrite Hf).
    destruct (frame_locals f) as [|[rd|]| | |]; [|destruct async_starts_thread|..]; apply wp_modify, leave_loop_step; try done; by right.
  - apply wp_bind, wp_gets. destruct (flusher n) eqn:Hfl; [by apply wp_fail..|]. by apply flush_loop_step.
  - apply wp_bind, wp_gets. destruct (flusher n) eqn:Hfl; [|by apply wp_fail..]. by apply flusher_loop_step.
  - by apply keeps_wp, keeps_queue.
  - by apply keeps_wp, keeps_queue.
  - by apply keeps_wp, keeps_queue.
  - by apply keeps_wp, keeps_run_task.
  - by apply begin_write_loop_step.
  - by apply (begin_loop_step _ _ TaskLeaderHint).
  - by apply (begin_loop_step _ _ (fun th => TaskStep th msg)).
  - by apply (begin_loop_step _ _ TaskStatus).
  - by apply keeps_wp, keeps_call_returns.
Qed.

(** ** The destruction under way *)

Abbreviation inv_now := (node_inv (fun _ => False)).

(** A member whose queue still serves. *)
Record serving (n : Node) : Prop := {
  serving_inv : inv_now n;
  serving_owed : owed (frames n) (queue n);
  serving_loops : loops n;
  serving_quiet : quiet n;
}.

(** Whoever waits for an answer waits at something that is not broken. *)
Definition answers_ok (n : Node) : Prop :=
  (forall th f, frames n !! th = Some f -> frame_barrier f = Pending \/ frame_barrier f = Satisfied tt) /\
  (forall th c, channels (walCommitObserver_ n) !! th = Some c -> c = Pending \/ exists s, c = Satisfied s).

(** The threads of the timer and of the flusher are gone, and nothing is left to run. *)
Record idle (n : Node) : Prop := {
  idle_timer : bgWorkerThread_ (timer_worker_ (timer_ n)) = None;
  idle_flusher : bgWorkerThread_ (flusher_worker_ (flusher_ n)) = None;
  idle_loops : loops n;
  idle_frame : frames n !! flusher_thread = None;
  idle_waiting : waiting (queue n) = [];
  idle_answers : answers_ok n;
}.

Definition phase (s : Owned) : Prop :=
  let n := member s in
  match deleting s with
  | Living => False
  | JoiningFlusher => serving n /\ running true (flusher_worker_ (flusher_ n)) /\ running false (timer_worker_ (timer_ n))
  | JoiningTimer => serving n /\ bgWorkerThread_ (flusher_worker_ (flusher_ n)) = None /\ running true (timer_worker_ (timer_ n))
  | JoiningQueue => idle n /\ queue_inv (queue n) /\ owner (queue n) = Joining
  | Gone => idle n /\ bgWorkerThread_ (worker_ (queue n)) = None
  end.

(** The step of the destruction that ends the process: one of another thread, for a reason of its
    own. *)
Definition owned_fault (c : owned_choice) (s : Owned) (h : halt) : Prop :=
  exists c', c = Others c' /\ fault c' (member s) h.

(** The first such step of a schedule. *)
Definition owned_faulted (cs : list owned_choice) (s : Owned) (h : halt) : Prop :=
  exists cs1 c cs2 s1, cs = cs1 ++ c :: cs2 /\ owned_run cs1 s = (Ok tt, s1) /\ owned_fault c s1 h.

Definition owned_ok (X : halt -> Prop) (Q : Owned -> Prop) (r : result ErrorCode unit) (s : Owned) : Prop :=
  match r with
  | Ok _ => Q s
  | Err _ => True
  | Halt h => X h
  end.

Lemma owned_faulted_cons c cs s s1 h :
  owned_step c s = (Ok tt, s1) -> owned_faulted cs s1 h -> owned_faulted (c :: cs) s h.
Proof.
  intros Hs (cs1 & c1 & cs2 & s2 & -> & Hr & Hf). exists (c :: cs1), c1, cs2, s2. split_and!; [done| |done].
  cbn. unfold mbind, prog_bind. by rewrite Hs.
Qed.

Lemma inv_answers lost n : node_inv lost n -> answers_ok n.
Proof.
  intros Hi. split.
  - intros th f Hf. apply (inv_frames _ _ _ _ _ _ _ _ Hi th f Hf).
  - intros th c Hc. destruct (inv_chans _ _ _ _ _ _ _ _ Hi th c Hc) as [_ [->|(x & -> & _)]]; [by left|right; by exists x].
Qed.

(** A thread that was joined has no loop to be in. *)
Lemma joined_idle w : bgWorkerThread_ w = None -> in_task w = false /\ worker_test w = None /\ worker_task_done w = None.
Proof. by destruct w as [[]]. Qed.

Lemma flusher_gone n : loops n -> bgWorkerThread_ (flusher_worker_ (flusher_ n)) = None -> flusher n = FlusherIdle.
Proof.
  intros Hl Hw. destruct (joined_idle _ Hw) as [Hi _]. destruct (flusher n) eqn:Hf; [done|..];
    (rewrite (loop_flusher n Hl) in Hi; [done|by rewrite Hf]).
Qed.

Lemma timer_gone n : loops n -> bgWorkerThread_ (timer_worker_ (timer_ n)) = None -> frames n !! timer_thread = None.
Proof.
  intros Hl Hw. destruct (joined_idle _ Hw) as [Hi _]. destruct (frames n !! timer_thread) eqn:Hf; [|done].
  rewrite (loop_timer n Hl) in Hi; [done|by rewrite Hf].
Qed.

(** With both loops gone a quiet queue is empty. *)
Lemma quiet_empty n :
  serving n -> bgWorkerThread_ (flusher_worker_ (flusher_ n)) = None -> bgWorkerThread_ (timer_worker_ (timer_ n)) = None ->
  waiting (queue n) = [].
Proof.
  intros [Hi Ho Hl Hq] Hwf Hwt. destruct (waiting (queue n)) as [|[p t] ts] eqn:Hw; [done|]. exfalso.
  assert ((p, t) ∈ waiting (queue n)) as Hin by (rewrite Hw; by left).
  pose proof (Hq p t Hin) as Hlt. pose proof (inv_tasks _ _ _ _ _ _ _ _ Hi p t Hin) as Hs.
  assert (exists f, frames n !! task_thread t = Some f) as [f Hf].
  { destruct t as [| |th log| | |]; try (destruct Hs as [l Hl0]; by eexists). cbn in *.
    destruct (inv_chans _ _ _ _ _ _ _ _ Hi th _ Hs). lia. }
  destruct (inv_frames _ _ _ _ _ _ _ _ Hi _ _ Hf) as [Hr _].
  assert (task_thread t = timer_thread \/ task_thread t = flusher_thread) as [He|He] by (unfold timer_thread, flusher_thread; lia);
    rewrite He in Hf.
  - by rewrite (timer_gone n Hl Hwt) in Hf.
  - assert (flusher n = FlusherWaits) as Hfw by (apply (inv_flusher _ _ _ _ _ _ _ _ Hi); by rewrite Hf).
    by rewrite (flusher_gone n Hl Hwf) in Hfw.
Qed.

Lemma serving_step c n :
  begins_no_call c = true -> serving n ->
  wp (node_step c) n (step_ok (fault c n) (fun n' => serving n' /\
    worker_moves (timer_worker_ (timer_ n)) (timer_worker_ (timer_ n')) /\
    worker_moves (flusher_worker_ (flusher_ n)) (flusher_worker_ (flusher_ n')))).
Proof.
  intros Hc [Hi Ho Hl Hq].
  assert (wp (node_step c) n (step_ok (fault c n) inv_now)) as H1 by (apply node_step_inv; [by intros log ->|done]).
  pose proof (node_step_owed _ c n Hi Ho) as H2. pose proof (node_step_loops _ c n Hi Hl) as H3.
  unfold wp in *. destruct (node_step c n) as [[[]|e|h] n']; [|done|done]. destruct H3 as [? ? ? ?]. split; [|done].
  split; auto.
Qed.

(** A caller that was answered returns. *)
Lemma idle_returns X th n :
  idle n -> wp (call_returns th) n (step_ok X (fun n' => idle n' /\ queue n' = queue n)).
Proof.
  intros [I1 I2 I3 If I4 [A1 A2]]. pose proof (keeps_call_returns th n) as Hk. unfold wp, call_returns in *.
  destruct (th <? 2); [done|]. destruct (decide _).
  - unfold mbind, prog_bind, leave_frame in *. destruct (frames n !! th) as [f|] eqn:Hf; [|done].
    destruct (A1 th f Hf) as [Hb|Hb]; rewrite Hb in *; [done|]. cbn in *. split; [|done].
    split; [done|done|by apply (keeps_loops_loops n)| |done|].
    { cbn. apply lookup_delete_None. by right. }
    split; [|done]. cbn. intros x g [_ Hg]%lookup_delete_Some. by apply (A1 x).
  - unfold mbind, prog_bind, leave_write in *. destruct (channels _ !! th) as [c|] eqn:Hc; [|done].
    destruct (A2 th c Hc) as [->|[x ->]]; [done|]. cbn in *. split; [|done].
    split; [done|done|by apply (keeps_loops_loops n)|done|done|]. split; [done|]. cbn.
    intros y g [_ Hg]%lookup_delete_Some. by apply (A2 y).
Qed.

(** The worker of an empty queue. *)
Lemma idle_queue X c n :
  match c with DoTest | DoTimeout | DoTake _ => True | _ => False end -> idle n -> queue_inv (queue n) ->
  wp (queue_control c) n (step_ok X (fun n' => idle n' /\ queue_inv (queue n') /\ owner (queue n') = owner (queue n))).
Proof.
  intros Hc [I1 I2 I3 If I4 I5] Hq. pose proof (keeps_queue c) as Hk. unfold wp, queue_control in *.
  destruct (step c (queue n)) as [[q' ran]|] eqn:Hs; [|done]. pose proof (step_inv c _ _ _ Hq Hs).
  destruct (step_control c _ _ _ Hc Hs) as (Hw & Ho & _). rewrite I4 in Hw. apply Permutation_nil_r in Hw.
  split; [|done]. split; try done. by destruct I3.
Qed.

(** Nothing but the worker's loop and the callers' returns is left. *)
Lemma idle_step X c n :
  begins_no_call c = true -> idle n -> queue_inv (queue n) ->
  wp (node_step c) n (step_ok X (fun n' => idle n' /\ queue_inv (queue n') /\ owner (queue n') = owner (queue n))).
Proof.
  intros Hc Hid Hq. pose proof Hid as [I1 I2 I3 If I4 I5].
  pose proof (flusher_gone n I3 I2) as Hf. pose proof (timer_gone n I3 I1) as Ht.
  destruct (joined_idle _ I1) as (T1 & T2 & T3), (joined_idle _ I2) as (F1 & F2 & F3).
  destruct c; try done; cbn [node_step].
  - unfold wp, timer_loop. by rewrite T2.
  - apply wp_bind, wp_gets. rewrite T1, andb_false_r. by apply wp_fail.
  - apply wp_bind. unfold wp, leave_frame. by rewrite Ht.
  - apply wp_bind, wp_gets. case_bool_decide; [|by apply wp_fail]. unfold wp, timer_loop. by rewrite T3.
  - unfold wp, flusher_loop. by rewrite F2.
  - apply wp_bind, wp_gets, wp_bind, wp_gets. rewrite Hf, F1, andb_false_r. by apply wp_fail.
  - apply wp_bind. unfold wp, leave_frame. by rewrite If.
  - apply wp_bind, wp_gets. rewrite Hf. by apply wp_fail.
  - apply wp_bind, wp_gets. rewrite Hf. unfold wp, flusher_loop. by rewrite F3.
  - by apply idle_queue.
  - by apply idle_queue.
  - by apply idle_queue.
  - apply wp_bind, wp_gets. unfold waiting in I4. destruct (task_ (queue n)); [done|by apply wp_fail].
  - eapply wp_mono; [by apply idle_returns|]. intros [u|e|h] n'; [|done|done]. intros [? Hqn]. cbn. by rewrite Hqn.
Qed.

(** ** Every step of the destruction *)

Lemma others_step_phase c s :
  phase s -> wp (others_step c) s (owned_ok (fault c (member s)) (fun s' => phase s' /\ deleting s' = deleting s)).
Proof.
  destruct s as [n pc]. unfold phase. cbn [deleting member]. intros Hp. apply wp_bind, wp_gets, wp_bind, wp_gets. cbn [deleting member].
  destruct pc; [done|..].
  - destruct Hp as (Hs & Hf & Ht). destruct (begins_no_call c) eqn:Hc; [|by apply wp_fail]. apply wp_zoom.
    eapply wp_mono; [by apply serving_step|]. intros [u|e|h] n'; [|done|done]. intros (Hs' & Mt & Mf). split; [|done].
    split_and!; [done|by eapply moves_running|by eapply moves_running].
  - destruct Hp as (Hs & Hf & Ht). destruct (begins_no_call c) eqn:Hc; [|by apply wp_fail]. apply wp_zoom.
    eapply wp_mono; [by apply serving_step|]. intros [u|e|h] n'; [|done|done]. intros (Hs' & Mt & Mf). split; [|done].
    split_and!; [done|by eapply moves_joined|by eapply moves_running].
  - destruct Hp as (Hid & Hq & Ho).
    assert (touches_observer c n = false) as ->.
    { pose proof (idle_waiting n Hid) as Hw. unfold waiting in Hw. destruct c; try done. cbn. by destruct (task_ (queue n)). }
    destruct (begins_no_call c) eqn:Hc; [|by apply wp_fail]. apply wp_zoom.
    eapply wp_mono; [by apply idle_step|]. intros [u|e|h] n'; [|done|done]. intros (Hid' & Hq' & Ho').
    split; [split_and!; [done|done|exact (eq_trans Ho' Ho)]|done].
  - destruct Hp as (Hid & Hw). destruct c; try by apply wp_fail. apply wp_zoom. cbn [node_step].
    eapply wp_mono; [by apply idle_returns|]. intros [u|e|h] n'; [|done|done]. intros [Hid' Hq']. cbn. by rewrite Hq'.
Qed.

(** What a member whose queue serves does not see of the other two workers. *)
Lemma serving_flusher_worker f n :
  serving n -> (in_task (flusher_worker_ (flusher_ n)) = true -> in_task (flusher_worker_ f) = true) -> serving (set_flusher_ f n).
Proof. intros [Hi Ho [L1 L2 L3] Hq] Hf. split; [done|done| |done]. split; auto. Qed.
Lemma serving_timer_worker t n :
  serving n -> (in_task (timer_worker_ (timer_ n)) = true -> in_task (timer_worker_ t) = true) -> serving (set_timer_ t n).
Proof. intros [Hi Ho [L1 L2 L3] Hq] Hf. split; [done|done| |done]. split; auto. Qed.

Lemma running_eq stop w : running stop w -> exists pc, w = MkBackgroundWorker (Some pc) stop /\ (pc = Exited -> stop = true).
Proof. destruct w as [th st]. intros [Hst (pc & Hpc & Hex)]. cbn in *. subst. by exists pc. Qed.

Lemma flusher_store f pc st :
  flusher_worker_ f = MkBackgroundWorker (Some pc) st ->
  ReadyFlusher_Stop_store f = (Ok tt, set_flusher_worker_ (MkBackgroundWorker (Some pc) true) f).
Proof. destruct f as [l w]. by intros [= ->]. Qed.
Lemma timer_store t pc st :
  timer_worker_ t = MkBackgroundWorker (Some pc) st ->
  RaftTimer_Stop_store t = (Ok tt, set_timer_worker_ (MkBackgroundWorker (Some pc) true) t).
Proof. destruct t as [l w]. by intros [= ->]. Qed.

(** The destructor of a worker that was joined. *)
Lemma delete_joined w : bgWorkerThread_ w = None -> delete_BackgroundWorker w = (Ok tt, w).
Proof. by destruct w as [[]]. Qed.
Lemma flusher_worker_deleted n :
  bgWorkerThread_ (flusher_worker_ (flusher_ n)) = None -> on_flusher_worker delete_BackgroundWorker n = (Ok tt, n).
Proof. destruct n as [? ? [? [[]]]]; [done|]. done. Qed.
Lemma timer_worker_deleted n :
  bgWorkerThread_ (timer_worker_ (timer_ n)) = None -> on_timer_worker delete_BackgroundWorker n = (Ok tt, n).
Proof. destruct n as [? [? [[]]]]; [done|]. done. Qed.

(** The first store. *)
Lemma delete_starts n :
  serving n -> running false (flusher_worker_ (flusher_ n)) -> running false (timer_worker_ (timer_ n)) ->
  exists s', delete_ReplicatedLogImpl (MkOwned n Living) = (Ok tt, s') /\ phase s' /\ deleting s' = JoiningFlusher.
Proof.
  intros Hs Hf Ht. destruct (running_eq _ _ Hf) as (pc & Hw & _). eexists. split.
  - unfold delete_ReplicatedLogImpl, mbind, prog_bind, gets, on_member, zoom. cbn.
    by rewrite (flusher_store _ _ _ Hw).
  - split; [|done]. split_and!; [|by split; [|exists pc]|done].
    apply serving_flusher_worker; [done|]. rewrite Hw. by unfold in_task.
Qed.

(** A [join] goes on exactly when the thread it waits for has ended. *)
Lemma delete_joins_flusher n :
  phase (MkOwned n JoiningFlusher) ->
  if decide (bgWorkerThread_ (flusher_worker_ (flusher_ n)) = Some Exited) then
    exists s', delete_ReplicatedLogImpl (MkOwned n JoiningFlusher) = (Ok tt, s') /\ phase s' /\ deleting s' = JoiningTimer
  else delete_ReplicatedLogImpl (MkOwned n JoiningFlusher) = (Err RuntimeError, MkOwned n JoiningFlusher).
Proof.
  unfold phase at 1. cbn [deleting member]. intros (Hs & Hf & Ht). destruct (running_eq _ _ Hf) as (pf & Hwf & _), (running_eq _ _ Ht) as (pt & Hwt & _).
  unfold delete_ReplicatedLogImpl, mbind, prog_bind, gets, on_member, zoom, join, ReadyFlusher_Stop_join, Stop_join. cbn.
  rewrite Hwf. cbn. destruct (decide (Some pf = Some Exited)) as [[= ->]|Hne]; [|by destruct pf].
  eexists. split; [cbn; rewrite flusher_worker_deleted by done; cbn; by rewrite (timer_store _ _ _ Hwt)|]. split; [|done]. split_and!; [|done|by split; [|exists pt]].
  apply serving_timer_worker; [apply serving_flusher_worker; [done|]|cbn]; [by rewrite Hwf|rewrite Hwt; by unfold in_task].
Qed.

Lemma delete_joins_timer n :
  phase (MkOwned n JoiningTimer) ->
  if decide (bgWorkerThread_ (timer_worker_ (timer_ n)) = Some Exited) then
    exists s', delete_ReplicatedLogImpl (MkOwned n JoiningTimer) = (Ok tt, s') /\ phase s' /\ deleting s' = JoiningQueue
  else delete_ReplicatedLogImpl (MkOwned n JoiningTimer) = (Err RuntimeError, MkOwned n JoiningTimer).
Proof.
  unfold phase at 1. cbn [deleting member]. intros (Hs & Hf & Ht). destruct (running_eq _ _ Ht) as (pt & Hwt & _).
  unfold delete_ReplicatedLogImpl, mbind, prog_bind, gets, on_member, zoom, join, RaftTimer_Stop_join, Stop_join. cbn.
  rewrite Hwt. cbn. destruct (decide (Some pt = Some Exited)) as [[= ->]|Hne]; [|by destruct pt].
  set (n1 := set_timer_ (set_timer_worker_ (MkBackgroundWorker None true) (timer_ n)) n).
  assert (serving n1) as Hs1 by (apply serving_timer_worker; [done|by rewrite Hwt]). pose proof Hs1 as [Hi _ Hl _].
  pose proof (inv_queue _ _ _ _ _ _ _ _ Hi) as Hq.
  destruct (step_stop (queue n) Hq (inv_alive _ _ _ _ _ _ _ _ Hi)) as (q' & Hstep & Hw & Ho).
  eexists. split; [cbn; rewrite timer_worker_deleted by done; cbn; by erewrite queue_control_eq|]. split; [|done].
  split_and!; [|by apply (step_inv DoStop _ _ _ Hq Hstep)|done].
  split; [done|done|by destruct Hl| |exact (eq_trans Hw (quiet_empty n1 Hs1 Hf eq_refl))|exact (inv_answers _ n1 Hi)].
  destruct (frames n !! flusher_thread) eqn:E; [|done].
  assert (flusher n1 = FlusherWaits) as Hfw by (apply (inv_flusher _ _ _ _ _ _ _ _ Hi); by cbn; rewrite E).
  by rewrite (flusher_gone n1 Hl Hf) in Hfw.
Qed.

Lemma delete_joins_queue n :
  phase (MkOwned n JoiningQueue) ->
  if decide (bgWorkerThread_ (worker_ (queue n)) = Some Exited) then
    exists s', delete_ReplicatedLogImpl (MkOwned n JoiningQueue) = (Ok tt, s') /\ phase s' /\ deleting s' = Gone
  else delete_ReplicatedLogImpl (MkOwned n JoiningQueue) = (Err RuntimeError, MkOwned n JoiningQueue).
Proof.
  unfold phase at 1. cbn [deleting member]. intros ([I1 I2 I3 If I4 I5] & Hq & Ho).
  unfold delete_ReplicatedLogImpl, mbind, prog_bind, gets, on_member, zoom, queue_control. cbn [deleting member].
  pose proof (step_join (queue n) Ho) as Hj. destruct (decide _); [|by rewrite Hj].
  destruct Hj as (q' & -> & Hw & Hth). eexists. split.
  - cbn. rewrite delete_joined by done. done.
  - split; [|done]. split; [|done]. split; try done; [by destruct I3|]. exact (eq_trans Hw I4).
Qed.

Lemma delete_step_phase s : phase s -> wp delete_ReplicatedLogImpl s (owned_ok (fun _ => False) phase).
Proof.
  intros Hp. destruct s as [n []]; [done|..].
  - pose proof (delete_joins_flusher n Hp) as H. destruct (decide _); [destruct H as (s' & H & ? & _)|]; by eapply wp_eq.
  - pose proof (delete_joins_timer n Hp) as H. destruct (decide _); [destruct H as (s' & H & ? & _)|]; by eapply wp_eq.
  - pose proof (delete_joins_queue n Hp) as H. destruct (decide _); [destruct H as (s' & H & ? & _)|]; by eapply wp_eq.
  - exact I.
Qed.

Lemma owned_step_phase c s : phase s -> wp (owned_step c) s (owned_ok (owned_fault c s) phase).
Proof.
  intros Hp. destruct c as [c|].
  - eapply wp_mono; [by apply others_step_phase|]. intros [u|e|h] s'; [by intros [? _]|done|]. intros Hf. by exists c.
  - eapply wp_mono; [by apply delete_step_phase|]. by intros [u|e|h] s'.
Qed.

Lemma owned_run_phase cs s : phase s -> wp (owned_run cs) s (owned_ok (owned_faulted cs s) phase).
Proof.
  revert s. induction cs as [|c cs IH]; intros s Hp; [by apply wp_ret|]. apply wp_bind.
  pose proof (owned_step_phase c s Hp) as Hs. unfold wp in Hs |- *. destruct (owned_step c s) as [r s1] eqn:Hr. cbn in Hs |- *.
  destruct r as [[]|e|h]; [|done|by exists [], c, cs, s].
  eapply wp_mono; [by apply IH|]. intros [u|e|h] s'; [done|done|]. cbn. by apply owned_faulted_cons.
Qed.

(** ** The destruction can always be carried through *)

(** Some schedule of at most [k] steps brings about [P], or the process ends on the way for a reason
    that the step which ends it has. *)
Definition can (P : Owned -> Prop) (k : nat) (s : Owned) : Prop :=
  exists cs r s', (length cs <= k)%nat /\ owned_run cs s = (r, s') /\
    match r with Ok _ => P s' | Err _ => False | Halt h => owned_faulted cs s h end.

Lemma can_here (P : Owned -> Prop) k s : P s -> can P k s.
Proof. intros Hp. exists [], (Ok tt), s. split_and!; [cbn; lia|done|done]. Qed.

Lemma can_mono P k k' s : (k <= k')%nat -> can P k s -> can P k' s.
Proof. intros Hk (cs & r & s' & Hlen & H). exists cs, r, s'. split; [lia|done]. Qed.

Lemma owned_run_app cs1 cs2 s :
  owned_run (cs1 ++ cs2) s = match owned_run cs1 s with (Ok _, s') => owned_run cs2 s' | r => r end.
Proof.
  revert s. induction cs1 as [|c cs1 IH]; intros s; [done|]. cbn. unfold mbind, prog_bind.
  destruct (owned_step c s) as [[[]|e|h] s']; [apply IH|done|done].
Qed.

(** Progress composes. *)
Lemma can_trans (P Q : Owned -> Prop) k j s : can P k s -> (forall s', P s' -> can Q j s') -> can Q (k + j) s.
Proof.
  intros (cs & r & s' & Hlen & Hrun & Hr) Hnext. destruct r as [[]|e|h]; [|done|].
  - destruct (Hnext s' Hr) as (cs' & r' & s2 & Hlen' & Hrun' & Hr'). exists (cs ++ cs'), r', s2.
    rewrite length_app, owned_run_app, Hrun. split_and!; [lia|done|]. destruct r' as [| |h]; [done|done|].
    destruct Hr' as (cs1 & c & cs2 & s3 & -> & Hr1 & Hf). exists (cs ++ cs1), c, cs2, s3.
    rewrite app_assoc, owned_run_app, Hrun. done.
  - exists cs, (Halt h), s'. split; [lia|done].
Qed.

Lemma can_step (P : Owned -> Prop) k c s :
  wp (owned_step c) s (fun r s' => match r with Ok _ => can P k s' | Err _ => False | Halt h => owned_fault c s h end) -> can P (S k) s.
Proof.
  unfold wp. destruct (owned_step c s) as [[[]|e|h] s'] eqn:Hs; [|done|]; intros H.
  - destruct H as (cs & r & s2 & Hlen & Hrun & Hr). exists (c :: cs), r, s2. split_and!; [cbn; lia| |].
    + cbn. unfold mbind, prog_bind. by rewrite Hs.
    + destruct r as [| |h]; [done|done|]. by eapply owned_faulted_cons.
  - exists [c], (Halt h), s'. split_and!; [cbn; lia| |by exists [], c, [], s]. cbn. unfold mbind, prog_bind. by rewrite Hs.
Qed.

(** While a loop is joined the others run as before. *)
Lemma others_step_eq c n pc :
  pc = JoiningFlusher \/ pc = JoiningTimer -> begins_no_call c = true ->
  others_step c (MkOwned n pc) = let '(r, n') := node_step c n in (r, MkOwned n' pc).
Proof.
  intros Hpc Hc. unfold others_step, mbind, prog_bind, gets. cbn [deleting]. by destruct Hpc as [-> | ->]; rewrite Hc.
Qed.

(** A step of another thread that is possible now. *)
Lemma can_others (P : Owned -> Prop) k c n pc :
  pc = JoiningFlusher \/ pc = JoiningTimer -> begins_no_call c = true -> phase (MkOwned n pc) ->
  wp (node_step c) n (fun r n' => match r with
    | Ok _ => phase (MkOwned n' pc) -> can P k (MkOwned n' pc)
    | Err _ => False
    | Halt _ => True
    end) -> can P (S k) (MkOwned n pc).
Proof.
  intros Hpc Hc Hp Hs. apply (can_step _ _ (Others c)). pose proof (others_step_phase c _ Hp) as Hph.
  unfold wp in *. cbn [owned_step]. rewrite others_step_eq in * by done. destruct (node_step c n) as [[[]|e|h] n']; [by apply Hs, Hph|done|]. by exists c.
Qed.

(** *** The flusher

    A flush may end the process; it never waits. *)
Definition no_error {S A} (m : Prog ErrorCode S A) : Prop := forall s, match fst (m s) with Err _ => False | _ => True end.

Lemma no_error_bind {S A B} (m : Prog ErrorCode S A) (k : A -> Prog ErrorCode S B) :
  no_error m -> (forall a, no_error (k a)) -> no_error (m ≫= k).
Proof.
  intros Hm Hk s. specialize (Hm s). unfold mbind, prog_bind. destruct (m s) as [[a|e|h] s']; [apply Hk|done|done].
Qed.
Lemma no_error_zoom {S T A} (get : S -> T) put (m : Prog ErrorCode T A) : no_error m -> no_error (zoom get put m).
Proof. intros Hm s. specialize (Hm (get s)). unfold zoom. by destruct (m (get s)) as [[] t]. Qed.
Lemma no_error_fatal {S A} (m : Prog ErrorCode S A) : no_error (fatal_not_ok m).
Proof. intros s. unfold fatal_not_ok. by destruct (m s) as [[] s']. Qed.
Lemma no_error_modify {S} (f : S -> S) : no_error (modify f : Prog ErrorCode S unit).
Proof. done. Qed.
Lemma no_error_gets {S A} (f : S -> A) : no_error (gets f : Prog ErrorCode S A).
Proof. done. Qed.
Lemma no_error_ret {S A} (a : A) : no_error (mret a : Prog ErrorCode S A).
Proof. done. Qed.
Create HintDb no_error.
#[local] Hint Resolve no_error_bind no_error_zoom no_error_fatal no_error_modify no_error_gets no_error_ret : no_error.

Lemma Pass_no_error peers mails : no_error (Pass peers mails).
Proof.
  induction mails as [|m mails IH]; [done|]. cbn [Pass]. destruct (_ =? 0); [done|]. destruct (zmap_find _ _); [|done].
  by apply no_error_bind.
Qed.

Lemma Notify_no_error c : no_error (Notify c).
Proof.
  apply no_error_bind; [done|]. intros it. induction it as [|[[first last] ch] it IH]; [done|]. cbn [notify_loop].
  apply no_error_bind; [|intros _; apply no_error_bind; [done|intros _; by destruct erased_iterator_steps]].
  destruct (last <=? c); [|done]. intros ob. unfold send_to. destruct (channels ob !! ch) as [x|]; [|done].
  by destruct (channel_send x OK).
Qed.

Lemma pass_no_error ev rd : no_error (pass_messages ev rd).
Proof.
  unfold pass_messages. destruct (messages rd) eqn:Hm; [done|]. rewrite <- Hm. apply no_error_bind; [done|]. intros peers.
  apply no_error_bind; [apply no_error_zoom, Pass_no_error|auto with no_error].
Qed.

Lemma flush_step_no_error stage rd : no_error (flush_step stage rd).
Proof.
  destruct stage; cbn [flush_step]; apply no_error_bind; auto with no_error.
  - apply no_error_bind; [done|]. intros id. destruct (_ =? id); [apply pass_no_error|done].
  - apply no_error_bind; [|done]. destruct (entries rd); apply no_error_fatal.
  - unfold notify_commit. destruct (has_commit rd); [|done]. apply no_error_bind; [|done]. apply no_error_zoom, Notify_no_error.
  - apply no_error_modify.
  - apply no_error_bind; [done|]. intros id. destruct (negb _); [apply pass_no_error|done].
Qed.

Definition flusher_ended (s : Owned) : Prop :=
  phase s /\ deleting s = JoiningFlusher /\ bgWorkerThread_ (flusher_worker_ (flusher_ (member s))) = Some Exited.
Definition timer_ended (s : Owned) : Prop :=
  phase s /\ deleting s = JoiningTimer /\ bgWorkerThread_ (timer_worker_ (timer_ (member s))) = Some Exited.

(** At the test of the loop, or inside a task that has nothing more to do. *)
Lemma flusher_at_test n :
  phase (MkOwned n JoiningFlusher) -> flusher n = FlusherIdle -> can flusher_ended 2 (MkOwned n JoiningFlusher).
Proof.
  assert (forall n pc, phase (MkOwned n JoiningFlusher) -> bgWorkerThread_ (flusher_worker_ (flusher_ n)) = Some pc -> pc <> InTask ->
    can flusher_ended 1 (MkOwned n JoiningFlusher)) as Htest.
  { intros n1 pc Hp Hpc Hne. destruct pc; [|done|by apply can_here].
    apply (can_others _ _ FlusherTests); [by left|done|done|]. cbn [node_step].
    destruct Hp as (_ & Hf & _). destruct (running_eq _ _ Hf) as (pc & Hw & _). cbn in Hw. unfold wp, flusher_loop.
    rewrite Hw in *. cbn in Hpc. simplify_eq. cbn. intros Hp. by apply can_here. }
  intros Hp Hfl. pose proof Hp as (_ & Hf & _). destruct (running_eq _ _ Hf) as (pc & Hw & _). cbn in Hw.
  destruct (decide (pc = InTask)) as [->|Hne]; [|eapply can_mono; [|eapply (Htest n pc); [done|by rewrite Hw|done]]; lia].
  apply (can_others _ _ FlusherEnds); [by left|done|done|]. cbn [node_step]. apply wp_bind, wp_gets. rewrite Hfl.
  unfold wp, flusher_loop. rewrite Hw. cbn. intros Hp'. by eapply Htest.
Qed.

(** The statements a flush still has to execute. *)
Definition flush_left (stage : flush_stage) : nat :=
  match stage with SendAsLeader => 5 | WriteWal => 4 | NotifyCommit => 3 | AdvanceStore => 2 | SendAsFollower => 1 end.

Lemma flush_step_next stage rd n :
  wp (flush_step stage rd) n (ok (fun n' =>
    flusher n' = FlusherIdle /\ flush_left stage = 1%nat \/
    exists stage' rd', flusher n' = Flushing stage' rd' /\ flush_left stage = S (flush_left stage'))).
Proof.
  destruct stage; cbn [flush_step]; apply wp_bind; (eapply wp_mono with (P := fun _ _ => True); [done|]);
    (intros [a|e|h] n' _; [|done|done]); apply wp_modify; cbn; [right; by eexists _, _..|by left].
Qed.

Lemma flushing_ends k n stage rd :
  (flush_left stage <= k)%nat -> phase (MkOwned n JoiningFlusher) -> flusher n = Flushing stage rd ->
  can flusher_ended (k + 2) (MkOwned n JoiningFlusher).
Proof.
  revert n stage rd. induction k as [|k IH]; intros n stage rd Hk Hp Hfl; [destruct stage; cbn in Hk; lia|].
  apply (can_others _ (k + 2) FlusherFlushes); [by left|done|done|]. cbn [node_step]. apply wp_bind, wp_gets. rewrite Hfl.
  pose proof (flush_step_next stage rd n) as Hn. pose proof (flush_step_no_error stage rd n) as He. unfold wp in *.
  destruct (flush_step stage rd n) as [[[]|e|h] n']; [|done|done]. cbn in Hn. intros Hp'.
  destruct Hn as [[Hi _]|(stage' & rd' & Hf' & Hl)].
  - apply (can_mono _ 2); [lia|by apply flusher_at_test].
  - apply (IH n' stage' rd'); [lia|done|done].
Qed.

(** The answer to [GetReady] has arrived. *)
Lemma flusher_answered n l :
  phase (MkOwned n JoiningFlusher) -> frames n !! flusher_thread = Some (MkFrame l (Satisfied tt)) ->
  can flusher_ended 8 (MkOwned n JoiningFlusher).
Proof.
  intros Hp Hf. apply (can_others _ _ FlusherReturns); [by left|done|done|]. cbn [node_step]. apply wp_bind.
  unfold wp, leave_frame. rewrite Hf. cbn.
  assert (forall n', phase (MkOwned n' JoiningFlusher) -> flusher n' = FlusherIdle -> can flusher_ended 7 (MkOwned n' JoiningFlusher)) as Hidle.
  { intros n' Hp' Hi. apply (can_mono _ 2); [lia|by apply flusher_at_test]. }
  destruct l as [|[rd|]| | |]; cbn; [intros Hp'; by apply Hidle| |intros Hp'; by apply Hidle..].
  destruct async_starts_thread; cbn; intros Hp'; [by apply (flushing_ends 5 _ SendAsLeader rd)|by apply Hidle].
Qed.

(** *** Waiting for the worker of the queue *)

Lemma lift_run ws n n' pc :
  pc = JoiningFlusher \/ pc = JoiningTimer -> Forall (fun c => worker_choice c = true) ws ->
  node_run ws n = (Ok tt, n') -> owned_run (Others <$> ws) (MkOwned n pc) = (Ok tt, MkOwned n' pc).
Proof.
  intros Hpc Hws. revert n. induction Hws as [|c ws Hc Hws IH]; intros n Hrun; [by injection Hrun as <-|].
  cbn in *. unfold mbind, prog_bind in *. destruct (node_step c n) as [[[]|e|h] n1] eqn:Hs; [|done|done].
  rewrite others_step_eq, Hs by (done || by destruct c). by apply IH.
Qed.

Lemma can_be_served P k n pc th l :
  known_codes -> pc = JoiningFlusher \/ pc = JoiningTimer -> phase (MkOwned n pc) ->
  frames n !! th = Some (MkFrame l Pending) ->
  (forall n' l', phase (MkOwned n' pc) -> frames n' !! th = Some (MkFrame l' (Satisfied tt)) -> can P k (MkOwned n' pc)) ->
  can P (6 + k) (MkOwned n pc).
Proof.
  intros Hk Hpc Hp Hf Hnext. assert (serving n) as [Hi Ho _ _] by (by destruct Hpc as [-> | ->]; apply Hp).
  destruct (frame_served _ th l n Hk Hi Ho Hf) as (ws & n' & Hws & Hlen & Hrun & _ & l' & Hl').
  pose proof (lift_run ws n n' pc Hpc Hws Hrun) as Hrun'.
  apply (can_trans (fun s => s = MkOwned n' pc)).
  - exists (Others <$> ws), (Ok tt), (MkOwned n' pc). by rewrite length_fmap.
  - intros s' ->. apply (Hnext n' l'); [|done]. exact (wp_run _ _ _ _ _ (owned_run_phase _ _ Hp) Hrun').
Qed.

(** A loop's thread always reaches its end. *)
Lemma flusher_can_end n : known_codes -> phase (MkOwned n JoiningFlusher) -> can flusher_ended 14 (MkOwned n JoiningFlusher).
Proof.
  intros Hk Hp. pose proof Hp as ([Hi Ho Hl _] & _ & _). destruct (flusher n) as [| |stage rd] eqn:Hfl.
  - apply (can_mono _ 2); [lia|by apply flusher_at_test].
  - destruct (loop_waits n Hl Hfl) as [[l b] Hf].
    destruct (inv_frames _ _ _ _ _ _ _ _ Hi _ _ Hf) as [_ [Hb|Hb]]; cbn in Hb; subst b.
    + apply (can_be_served _ 8 _ _ flusher_thread l); [done|by left|done|done|]. intros n' l' Hp' Hf'. by eapply flusher_answered.
    + apply (can_mono _ 8); [lia|by eapply flusher_answered].
  - apply (can_mono _ (5 + 2)); [lia|]. apply (flushing_ends 5 n stage rd); [by destruct stage; cbn; lia|done|done].
Qed.

Lemma timer_at_test n :
  phase (MkOwned n JoiningTimer) -> frames n !! timer_thread = None -> can timer_ended 2 (MkOwned n JoiningTimer).
Proof.
  assert (forall n pc, phase (MkOwned n JoiningTimer) -> bgWorkerThread_ (timer_worker_ (timer_ n)) = Some pc -> pc <> InTask ->
    can timer_ended 1 (MkOwned n JoiningTimer)) as Htest.
  { intros n1 pc Hp Hpc Hne. destruct pc; [|done|by apply can_here].
    apply (can_others _ _ TimerTests); [by right|done|done|]. cbn [node_step].
    destruct Hp as (_ & _ & Hf). destruct (running_eq _ _ Hf) as (pc & Hw & _). cbn in Hw. unfold wp, timer_loop.
    rewrite Hw in *. cbn in Hpc. simplify_eq. cbn. intros Hp. by apply can_here. }
  intros Hp Hfr. pose proof Hp as (_ & _ & Hf). destruct (running_eq _ _ Hf) as (pc & Hw & _). cbn in Hw.
  destruct (decide (pc = InTask)) as [->|Hne]; [|eapply can_mono; [|eapply (Htest n pc); [done|by rewrite Hw|done]]; lia].
  apply (can_others _ _ TimerEnds); [by right|done|done|]. cbn [node_step]. apply wp_bind, wp_gets.
  rewrite bool_decide_true by done. unfold wp, timer_loop. rewrite Hw. cbn. intros Hp'. by eapply Htest.
Qed.

Lemma timer_can_end n : known_codes -> phase (MkOwned n JoiningTimer) -> can timer_ended 9 (MkOwned n JoiningTimer).
Proof.
  intros Hk Hp. pose proof Hp as ([Hi _ _ _] & _ & _).
  assert (forall n l, phase (MkOwned n JoiningTimer) -> frames n !! timer_thread = Some (MkFrame l (Satisfied tt)) ->
    can timer_ended 3 (MkOwned n JoiningTimer)) as Hans.
  { intros n1 l1 Hp1 Hf1. apply (can_others _ _ TimerReturns); [by right|done|done|]. cbn [node_step]. apply wp_bind.
    unfold wp, leave_frame. rewrite Hf1. cbn. intros Hp2. apply timer_at_test; [done|]. apply lookup_delete_eq. }
  destruct (frames n !! timer_thread) as [[l b]|] eqn:Hf; [|apply (can_mono _ 2); [lia|by apply timer_at_test]].
  destruct (inv_frames _ _ _ _ _ _ _ _ Hi _ _ Hf) as [_ [Hb|Hb]]; cbn in Hb; subst b.
  - apply (can_be_served _ 3 _ _ timer_thread l); [done|by right|done|done|apply Hans].
  - apply (can_mono _ 3); [lia|by eapply Hans].
Qed.

Definition queue_ended (s : Owned) : Prop :=
  phase s /\ deleting s = JoiningQueue /\ bgWorkerThread_ (worker_ (queue (member s))) = Some Exited.

(** The worker of the empty queue times out and sees the flag. *)
Lemma queue_can_end n : phase (MkOwned n JoiningQueue) -> can queue_ended 2 (MkOwned n JoiningQueue).
Proof.
  assert (forall c k n n', worker_choice c = true -> touches_observer c n = false -> phase (MkOwned n JoiningQueue) ->
    node_step c n = (Ok tt, n') -> (phase (MkOwned n' JoiningQueue) -> can queue_ended k (MkOwned n' JoiningQueue)) ->
    can queue_ended (S k) (MkOwned n JoiningQueue)) as Hone.
  { intros c k n1 n2 Hc Ht Hp Hs Hnext. apply (can_step _ _ (Others c)).
    assert (others_step c (MkOwned n1 JoiningQueue) = (Ok tt, MkOwned n2 JoiningQueue)) as Hrun.
    { transitivity (let '(r, n') := node_step c n1 in (r, MkOwned n' JoiningQueue)); [|by rewrite Hs].
      unfold others_step, mbind, prog_bind, gets. cbn [deleting member]. rewrite Ht. by destruct c. }
    eapply wp_eq; [exact Hrun|]. apply Hnext. by apply (wp_run _ _ _ _ _ (others_step_phase c _ Hp) Hrun). }
  intros Hp. pose proof Hp as (Hid & [Hq _] & Ho). cbn [member] in *. rewrite Ho in Hq. destruct Hq as [Hst Hj].
  pose proof (idle_waiting n Hid) as Hw.
  assert (forall k n, phase (MkOwned n JoiningQueue) -> bgWorkerThread_ (worker_ (queue n)) = Some AtTest -> can queue_ended (S k) (MkOwned n JoiningQueue)) as Htest.
  { intros k n1 Hp1 Hth. pose proof Hp1 as (_ & [Hq1 _] & Ho1). cbn [member] in *. rewrite Ho1 in Hq1. destruct Hq1 as [Hst1 _].
    eapply (Hone WorkerTests); [done|done|done| |].
    - cbn. unfold queue_control. cbn. destruct (worker_ (queue n1)) as [th st]. cbn in *. by rewrite Hth, Hst1.
    - intros Hp2. by apply can_here. }
  destruct (bgWorkerThread_ (worker_ (queue n))) as [[]|] eqn:Hth; [by apply Htest| |by apply can_here|].
  - eapply (Hone WorkerTimesOut); [done|done|done| |].
    + cbn. unfold queue_control. cbn. unfold waiting in Hw. destruct (task_ (queue n)) eqn:Ht; [done|].
      unfold worker_task_done. rewrite Hth. cbn. done.
    + intros Hp2. by apply Htest.
  - unfold joinable in Hj. by rewrite Hth in Hj.
Qed.

Definition gone (s : Owned) : Prop := phase s /\ deleting s = Gone.

(** The deleting thread goes on from the end of each thread. *)
Lemma deletes_queue n : phase (MkOwned n JoiningQueue) -> can gone 3 (MkOwned n JoiningQueue).
Proof.
  intros Hp. apply (can_trans queue_ended _ 2 1); [by apply queue_can_end|]. intros [n' pc] (Hp' & Hpc & Hex). cbn in Hpc, Hex.
  subst pc. apply (can_step _ 0 Deletes). pose proof (delete_joins_queue n' Hp') as H. rewrite decide_True in H by done.
  destruct H as (s' & Hs & Hps & Hd). eapply wp_eq; [exact Hs|]. by apply can_here.
Qed.

Lemma deletes_timer n : known_codes -> phase (MkOwned n JoiningTimer) -> can gone 13 (MkOwned n JoiningTimer).
Proof.
  intros Hk Hp. apply (can_trans timer_ended _ 9 4); [by apply timer_can_end|]. intros [n' pc] (Hp' & Hpc & Hex). cbn in Hpc, Hex.
  subst pc. apply (can_step _ 3 Deletes). pose proof (delete_joins_timer n' Hp') as H. rewrite decide_True in H by done.
  destruct H as ([n2 pc] & Hs & Hps & Hd). cbn in Hd. subst pc. eapply wp_eq; [exact Hs|]. by apply deletes_queue.
Qed.

Lemma deletes_flusher n : known_codes -> phase (MkOwned n JoiningFlusher) -> can gone 28 (MkOwned n JoiningFlusher).
Proof.
  intros Hk Hp. apply (can_trans flusher_ended _ 14 14); [by apply flusher_can_end|]. intros [n' pc] (Hp' & Hpc & Hex). cbn in Hpc, Hex.
  subst pc. apply (can_step _ 13 Deletes). pose proof (delete_joins_flusher n' Hp') as H. rewrite decide_True in H by done.
  destruct H as ([n2 pc] & Hs & Hps & Hd). cbn in Hd. subst pc. eapply wp_eq; [exact Hs|]. by apply deletes_timer.
Qed.

Lemma deletes_all s : known_codes -> phase s -> can gone 28 s.
Proof.
  intros Hk Hp. destruct s as [n []]; [done| | | |by apply can_here].
  - by apply deletes_flusher.
  - apply (can_mono _ 13); [lia|by apply deletes_timer].
  - apply (can_mono _ 3); [lia|by apply deletes_queue].
Qed.
End shutdown.

(** ** Theorems *)

Section theorems.
Context (Y : YaraftPb) (M : MemStoreLib Y) (MSG : YaraftMsg) (RAFT : RaftLib M MSG).
Context (WAL : WriteAheadLog Y) (EI : ErasedIterator) (TC : Toolchain).

(** The options of a member that owns its threads. *)
Definition own_threads (options : ReplicatedLogOptions) : Prop :=
  opt_taskQueue options = None /\ opt_timer options = None /\ opt_flusher options = None.

Lemma New_loops this options n :
  own_threads options -> New this options = Ok n ->
  loops n /\ running false (flusher_worker_ (flusher_ n)) /\ running false (timer_worker_ (timer_ n)).
Proof.
  intros (Hq & Ht & Hf). unfold New. destruct (Validate options), (opt_wal options); try done.
  destruct (new_RawNode _ _) as [rn ms]. rewrite Hq, Ht, Hf. destruct new_TaskQueue; [|done|done]. intros [= <-].
  split_and!; [split; cbn; [by intros [? ?]|done|done]|by split; [|eexists]..].
Qed.

Lemma reachable_loops this options n0 cs n :
  writes_in_place cs -> own_threads options -> New this options = Ok n0 -> node_run cs n0 = (Ok tt, n) ->
  loops n /\ running false (flusher_worker_ (flusher_ n)) /\ running false (timer_worker_ (timer_ n)).
Proof.
  intros Hce Hown HN. pose proof (New_loops this options n0 Hown HN) as H0.
  assert (node_inv (fun _ => False) n0) as Hi by (eapply New_inv; [exact (fun _ f => f)|apply Hown|exact HN]).
  clear HN. revert n0 Hce H0 Hi. induction cs as [|c cs IH]; intros n0 Hce (Hl & Hf & Ht) Hi Hrun; [by injection Hrun as <-|].
  cbn in Hrun. unfold mbind, prog_bind in Hrun. destruct (node_step c n0) as [[[]|e|h] n1] eqn:Hs; [|done|done].
  destruct (wp_run _ _ _ _ _ (node_step_loops _ c n0 Hi Hl) Hs) as [M1 M2 L1 _].
  apply (IH n1); [intros log Hin; eapply Hce; by right| | |done].
  2: { refine (wp_run _ _ _ _ _ (node_step_inv _ c n0 _ Hi) Hs). intros log ->. eapply Hce. by left. }
  split_and!; [done|by eapply moves_running|by eapply moves_running].
Qed.

Lemma reachable_deletes this options n0 cs n :
  writes_in_place cs -> own_threads options -> New this options = Ok n0 -> node_run cs n0 = (Ok tt, n) -> quiet n ->
  exists s, owned_step Deletes (MkOwned n Living) = (Ok tt, s) /\ phase s.
Proof.
  intros Hce Hown HN Hrun Hq. destruct (reachable_loops this options n0 cs n Hce Hown HN Hrun) as (Hl & Hf & Ht).
  destruct (reachable_owed Y M MSG RAFT WAL EI TC this options n0 cs n Hce (proj1 Hown) HN Hrun) as [Hi Ho].
  destruct (delete_starts n) as (s & Hs & Hp & _); [by split|done|done|]. by exists s.
Qed.

(** C19: deleting a member that owns its threads, in any reachable state in which no closure of a
    call from outside is left in its queue, is safe under every interleaving of the deleting thread
    with the threads of the member: no closure touches the observer, a frame or a channel after it
    is gone, no thread is destroyed while it runs, and none is stopped twice.  When the process ends
    while the member is being deleted, the step that ended it was one of another thread and ended
    it for a reason of its own in that state: a code of the state machine the service does not
    know, a mail without addressee, the write-ahead log failing on the [Ready] being written, or
    [Notify] with listeners where an erased iterator does not step.  (Asked of what went before: if
    clients wrote, the channel of a write was built in place.) *)
Theorem destruction_is_safe this options n0 cs n ds h s :
  writes_in_place cs -> own_threads options -> New this options = Ok n0 -> node_run cs n0 = (Ok tt, n) -> quiet n ->
  owned_run (Deletes :: ds) (MkOwned n Living) = (Halt h, s) ->
  exists ds1 c ds2 s1, ds = ds1 ++ Others c :: ds2 /\
    owned_run (Deletes :: ds1) (MkOwned n Living) = (Ok tt, s1) /\ fault c (member s1) h.
Proof.
  intros Hce Hown HN Hrun Hq Hd. destruct (reachable_deletes this options n0 cs n Hce Hown HN Hrun Hq) as (s0 & Hs0 & Hp).
  cbn [owned_run] in *. rewrite (run_bind_ok _ _ _ _ _ Hs0) in Hd.
  destruct (wp_run _ _ _ _ _ (owned_run_phase ds s0 Hp) Hd) as (ds1 & ? & ds2 & s1 & -> & Hr & c & -> & Hf).
  exists ds1, c, ds2, s1. split_and!; [done| |done]. by rewrite (run_bind_ok _ _ _ _ _ Hs0).
Qed.

(** C13: the deletion of a member can always be carried through, there is no deadlock in it.  Take a
    member that owns its threads, in a reachable state with no closure of a call from outside in its
    queue, and a state machine that answers messages with codes the service knows.  Then from every
    state that the deletion reaches under any schedule, there is a schedule of at most twenty-eight
    steps in which the flusher, the timer and the worker of the queue end and are joined in this
    order, although the first two may be waiting for the third; or the process ends on the way, at
    a step that has a reason of its own for it.  (That a given scheduler takes those steps is not
    claimed.) *)
Theorem destruction_completes this options n0 cs n ds s :
  writes_in_place cs -> own_threads options -> New this options = Ok n0 -> node_run cs n0 = (Ok tt, n) -> quiet n ->
  known_codes -> owned_run (Deletes :: ds) (MkOwned n Living) = (Ok tt, s) ->
  exists ds' r s', (length ds' <= 28)%nat /\ owned_run ds' s = (r, s') /\
    match r with
    | Ok _ => deleting s' = Gone /\ joinable (flusher_worker_ (flusher_ (member s'))) = false /\
        joinable (timer_worker_ (timer_ (member s'))) = false /\ joinable (worker_ (queue (member s'))) = false
    | Err _ => False
    | Halt h => owned_faulted ds' s h
    end.
Proof.
  intros Hce Hown HN Hrun Hq Hk Hd. destruct (reachable_deletes this options n0 cs n Hce Hown HN Hrun Hq) as (s1 & Hs1 & Hp).
  cbn [owned_run] in Hd. rewrite (run_bind_ok _ _ _ _ _ Hs1) in Hd.
  pose proof (wp_run _ _ _ _ _ (owned_run_phase ds s1 Hp) Hd) as Hps.
  destruct (deletes_all s Hk Hps) as (ds' & r & s' & Hlen & Hrun' & Hr). exists ds', r, s'.
  split_and!; [done|done|]. destruct r as [[]|e|h]; [|done|done]. destruct Hr as [Hg Hpc]. unfold phase in Hg. rewrite Hpc in Hg.
  destruct Hg as [Hid Hw]. unfold joinable. by rewrite (idle_flusher _ Hid), (idle_timer _ Hid), Hw.
Qed.
End theorems.
