(* ===== verification/Sharing.v ===== *)
(** * Several logs in one process: who owns the timer, the flusher and the queue

    [ReplicatedLogOptions] lets several logs share a queue, a timer and a flusher.  A log keeps each
    of them in a [shared_ptr] of its own, made from the raw pointer of the options, so it deletes
    them with itself.  Here the objects of a process are known by their addresses; the threads of
    one member are those of [Node.v] and [Shutdown.v]. *)

From S2P Require Import Prelude External Status Channel TaskQueue Node.

(** ** The process *)

(** The three pointers a log owns. *)
Record LogObject := MkLogObject { log_queue : Z; log_timer : Z; log_flusher : Z }.

Record Process := MkProcess {
  queues : gset Z;
  timers : gmap Z RaftTimer;
  flushers : gmap Z ReadyFlusher;
  logs : gmap Z LogObject;
  next_address : Z;
}.

Definition new_Process : Process := MkProcess ∅ ∅ ∅ ∅ 0.

Definition set_queues (q : gset Z) (p : Process) : Process := MkProcess q (timers p) (flushers p) (logs p) (next_address p).
Definition set_timers (t : gmap Z RaftTimer) (p : Process) : Process := MkProcess (queues p) t (flushers p) (logs p) (next_address p).
Definition set_flushers (f : gmap Z ReadyFlusher) (p : Process) : Process := MkProcess (queues p) (timers p) f (logs p) (next_address p).
Definition set_logs (l : gmap Z LogObject) (p : Process) : Process := MkProcess (queues p) (timers p) (flushers p) l (next_address p).
Definition set_next_address (a : Z) (p : Process) : Process := MkProcess (queues p) (timers p) (flushers p) (logs p) a.

Abbreviation ProcessM := (Prog ErrorCode Process).

(** [new]. *)
Definition allocate : ProcessM Z :=
  a ← gets next_address;
  _ ← modify (set_next_address (a + 1));
  mret a.

(** An address that is not there: what it pointed at was deleted. *)
Definition deref {A} (x : option A) : ProcessM A := fun p =>
  match x with Some a => (Ok a, p) | None => (Halt Undefined, p) end.

Definition new_queue : ProcessM Z :=
  a ← allocate; _ ← modify (fun p => set_queues ({[a]} ∪ queues p) p); mret a.
Definition new_timer : ProcessM Z :=
  a ← allocate; _ ← modify (fun p => set_timers (<[a := new_RaftTimer]> (timers p)) p); mret a.
Definition new_flusher : ProcessM Z :=
  a ← allocate;
  match new_ReadyFlusher with
  | Ok f => _ ← modify (fun p => set_flushers (<[a := f]> (flushers p)) p); mret a
  | Err e => fail e
  | Halt h => halt_with h
  end.

(** ** [New] and the destructor *)

(** The pointers of [ReplicatedLogOptions]; [so_wal] is whether [wal] is one that is not null. *)
Record SharedOptions := MkSharedOptions {
  so_wal : bool;
  so_taskQueue : option Z;
  so_timer : option Z;
  so_flusher : option Z;
}.

Definition or_new (x : option Z) (make : ProcessM Z) : ProcessM Z := match x with Some a => mret a | None => make end.

Definition New_log (options : SharedOptions) : ProcessM Z :=
  if negb (so_wal options) then fail BadConfig
  else
    this ← allocate;
    q ← or_new (so_taskQueue options) new_queue;
    t ← or_new (so_timer options) new_timer;
    timer ← gets (fun p => timers p !! t);
    timer ← deref timer;
    _ ← modify (fun p => set_timers (<[t := RaftTimer_Register this timer]> (timers p)) p);
    f ← or_new (so_flusher options) new_flusher;
    flusher ← gets (fun p => flushers p !! f);
    flusher ← deref flusher;
    _ ← modify (fun p => set_flushers (<[f := ReadyFlusher_Register this flusher]> (flushers p)) p);
    _ ← modify (fun p => set_logs (<[this := MkLogObject q t f]> (logs p)) p);
    mret this.

(** The last owner of a control block deletes the object: it must still be there. *)
Definition delete_flusher (f : Z) : ProcessM unit :=
  x ← gets (fun p => flushers p !! f); _ ← deref x; modify (fun p => set_flushers (delete f (flushers p)) p).
Definition delete_timer (t : Z) : ProcessM unit :=
  x ← gets (fun p => timers p !! t); _ ← deref x; modify (fun p => set_timers (delete t (timers p)) p).
Definition delete_queue (q : Z) : ProcessM unit :=
  x ← gets (fun p => if decide (q ∈ queues p) then Some q else None); _ ← deref x; modify (fun p => set_queues (queues p ∖ {[q]}) p).

(** The members of the class, in the reverse of their order. *)
Definition delete_log (a : Z) : ProcessM unit :=
  l ← gets (fun p => logs p !! a);
  l ← deref l;
  _ ← delete_flusher (log_flusher l);
  _ ← delete_timer (log_timer l);
  _ ← delete_queue (log_queue l);
  modify (fun p => set_logs (delete a (logs p)) p).

(** ** What the threads touch *)

(** [executor->Submit] on a log: the log and its queue. *)
Definition touch_log (a : Z) : ProcessM unit :=
  l ← gets (fun p => logs p !! a);
  l ← deref l;
  q ← gets (fun p => if decide (log_queue l ∈ queues p) then Some (log_queue l) else None);
  _ ← deref q;
  mret tt.

Fixpoint touch_logs (xs : list Z) : ProcessM unit :=
  match xs with [] => mret tt | a :: xs => _ ← touch_log a; touch_logs xs end.

(** A turn of the loop of a timer and of a flusher, through all that is registered. *)
Definition timer_round (t : Z) : ProcessM unit :=
  timer ← gets (fun p => timers p !! t); timer ← deref timer; touch_logs (executors_ timer).
Definition flush_round (f : Z) : ProcessM unit :=
  flusher ← gets (fun p => flushers p !! f); flusher ← deref flusher; touch_logs (logs_ flusher).

Inductive process_op :=
  | MakeQueue | MakeTimer | MakeFlusher
  | MakeLog (options : SharedOptions)
  | UseLog (a : Z)
  | TimerRound (t : Z)
  | FlushRound (f : Z)
  | DeleteLog (a : Z).

Definition process_step (op : process_op) : ProcessM unit :=
  match op with
  | MakeQueue => _ ← new_queue; mret tt
  | MakeTimer => _ ← new_timer; mret tt
  | MakeFlusher => _ ← new_flusher; mret tt
  | MakeLog options => _ ← New_log options; mret tt
  | UseLog a => touch_log a
  | TimerRound t => timer_round t
  | FlushRound f => flush_round f
  | DeleteLog a => delete_log a
  end.

(** A sequence of operations; a call that fails with a status leaves the process as it is. *)
Fixpoint process_run (ops : list process_op) : ProcessM unit :=
  match ops with
  | [] => mret tt
  | op :: ops => fun p =>
      match process_step op p with
      | (Ok _, p) | (Err _, p) => process_run ops p
      | (Halt h, p) => (Halt h, p)
      end
  end.

(** ** The invariant *)

(** No log owns it. *)
Definition free (own : LogObject -> Z) (x : Z) (p : Process) : Prop := forall a l, logs p !! a = Some l -> own l <> x.

(** [yt] and [yf]: the log that is being made, with the timer and the flusher it is already
    registered with. *)
Record process_inv (yt yf : option (Z * Z)) (p : Process) : Prop := {
  pi_log a l : logs p !! a = Some l ->
    log_queue l ∈ queues p /\ is_Some (timers p !! log_timer l) /\ is_Some (flushers p !! log_flusher l);
  pi_own a b la lb : logs p !! a = Some la -> logs p !! b = Some lb -> a <> b ->
    log_queue la <> log_queue lb /\ log_timer la <> log_timer lb /\ log_flusher la <> log_flusher lb;
  pi_timer t tm a : timers p !! t = Some tm -> a ∈ executors_ tm ->
    (exists l, logs p !! a = Some l /\ log_timer l = t) \/ yt = Some (a, t);
  pi_flusher f fl a : flushers p !! f = Some fl -> a ∈ logs_ fl ->
    (exists l, logs p !! a = Some l /\ log_flusher l = f) \/ yf = Some (a, f);
  pi_queues q : q ∈ queues p -> q < next_address p;
  pi_timers t : is_Some (timers p !! t) -> t < next_address p;
  pi_flushers f : is_Some (flushers p !! f) -> f < next_address p;
  pi_logs a : is_Some (logs p !! a) -> a < next_address p;
}.

Lemma fresh_free own p : (forall a l, logs p !! a = Some l -> own l < next_address p) -> free own (next_address p) p.
Proof. intros H a l Hl. specialize (H a l Hl). lia. Qed.

Lemma allocate_inv yt yf p : process_inv yt yf p -> process_inv yt yf (set_next_address (next_address p + 1) p).
Proof.
  intros [H1 H2 H3 H4 H5 H6 H7 H8]. split; cbn; try done.
  - intros q Hq%H5. lia.
  - intros t Ht%H6. lia.
  - intros f Hf%H7. lia.
  - intros a Ha%H8. lia.
Qed.

(** The logs and what they own are left alone. *)
Record grown (p p' : Process) : Prop := {
  gr_logs : logs p' = logs p;
  gr_queues : queues p ⊆ queues p';
  gr_next : next_address p <= next_address p';
}.

Lemma free_grown own x p p' : grown p p' -> free own x p -> free own x p'.
Proof. intros Hg Hf a l. rewrite (gr_logs _ _ Hg). apply Hf. Qed.

Lemma new_queue_inv yt yf p :
  process_inv yt yf p ->
  exists q p', new_queue p = (Ok q, p') /\ process_inv yt yf p' /\ grown p p' /\ q ∈ queues p' /\ free log_queue q p' /\
    timers p' = timers p /\ flushers p' = flushers p.
Proof.
  intros Hi. pose proof (allocate_inv _ _ _ Hi) as Ha. eexists (next_address p), _. split; [done|].
  assert (free log_queue (next_address p) p) as Hf.
  { apply fresh_free. intros a l Hl. apply (pi_queues _ _ _ Hi), (pi_log _ _ _ Hi a l Hl). }
  destruct Ha as [H1 H2 H3 H4 H5 H6 H7 H8]. cbn in *. split_and!; try done; [|split; cbn; [done|set_solver|lia]|set_solver].
  split; cbn; try done.
  - intros a l Hl. destruct (H1 a l Hl) as (Hq & ?). split; [set_solver|done].
  - intros q [Hq%elem_of_singleton|Hq]%elem_of_union; [lia|by apply H5].
Qed.

Lemma new_timer_inv yt yf p :
  process_inv yt yf p ->
  exists t p', new_timer p = (Ok t, p') /\ process_inv yt yf p' /\ grown p p' /\ timers p' !! t = Some new_RaftTimer /\ free log_timer t p' /\
    flushers p' = flushers p.
Proof.
  intros Hi. pose proof (allocate_inv _ _ _ Hi) as Ha. eexists (next_address p), _. split; [done|].
  assert (free log_timer (next_address p) p) as Hf.
  { apply fresh_free. intros a l Hl. apply (pi_timers _ _ _ Hi), (pi_log _ _ _ Hi a l Hl). }
  destruct Ha as [H1 H2 H3 H4 H5 H6 H7 H8]. cbn in *. split_and!; try done; [|split; cbn; [done|done|lia]|by rewrite lookup_insert_eq].
  split; cbn; try done.
  - intros a l Hl. destruct (H1 a l Hl) as (? & Ht & ?). split_and!; [done| |done]. rewrite lookup_insert_is_Some. destruct (decide (next_address p = log_timer l)); auto.
  - intros t tm a [[<- <-]|[_ Ht]]%lookup_insert_Some Hin; [by apply elem_of_nil in Hin|by eapply H3].
  - intros t [<-|[_ Ht]]%lookup_insert_is_Some; [lia|by apply H6].
Qed.

Lemma new_flusher_inv yt yf p :
  process_inv yt yf p ->
  exists f fl p', new_flusher p = (Ok f, p') /\ process_inv yt yf p' /\ grown p p' /\ flushers p' !! f = Some fl /\ logs_ fl = [] /\
    free log_flusher f p' /\ timers p' = timers p.
Proof.
  intros Hi. pose proof (allocate_inv _ _ _ Hi) as Ha. eexists (next_address p), _, _. split; [done|].
  assert (free log_flusher (next_address p) p) as Hf.
  { apply fresh_free. intros a l Hl. apply (pi_flushers _ _ _ Hi), (pi_log _ _ _ Hi a l Hl). }
  destruct Ha as [H1 H2 H3 H4 H5 H6 H7 H8]. cbn in *. split_and!; try done; [|split; cbn; [done|done|lia]|by rewrite lookup_insert_eq|done].
  split; cbn; try done.
  - intros a l Hl. destruct (H1 a l Hl) as (? & ? & Ht). split_and!; [done|done|]. rewrite lookup_insert_is_Some. destruct (decide (next_address p = log_flusher l)); auto.
  - intros f fl a [[<- <-]|[_ Ht]]%lookup_insert_Some Hin; [by apply elem_of_nil in Hin|by eapply H4].
  - intros f [<-|[_ Ht]]%lookup_insert_is_Some; [lia|by apply H7].
Qed.

(** The object of the options, or a new one. *)
Lemma or_new_queue_inv yt yf x p :
  process_inv yt yf p -> (forall q, x = Some q -> q ∈ queues p /\ free log_queue q p) ->
  exists q p', or_new x new_queue p = (Ok q, p') /\ process_inv yt yf p' /\ grown p p' /\ q ∈ queues p' /\ free log_queue q p' /\
    timers p' = timers p /\ flushers p' = flushers p.
Proof.
  intros Hi Hx. destruct x as [q|]; [|by apply new_queue_inv]. destruct (Hx q eq_refl). exists q, p. by split_and!.
Qed.

Lemma or_new_timer_inv yt yf x p :
  process_inv yt yf p -> (forall t, x = Some t -> is_Some (timers p !! t) /\ free log_timer t p) ->
  exists t tm p', or_new x new_timer p = (Ok t, p') /\ process_inv yt yf p' /\ grown p p' /\ timers p' !! t = Some tm /\ free log_timer t p' /\
    flushers p' = flushers p.
Proof.
  intros Hi Hx. destruct x as [t|].
  - destruct (Hx t eq_refl) as [[tm Ht] Hf]. exists t, tm, p. by split_and!.
  - destruct (new_timer_inv yt yf p Hi) as (t & p' & H). by exists t, new_RaftTimer, p'.
Qed.

Lemma or_new_flusher_inv yt yf x p :
  process_inv yt yf p -> (forall f, x = Some f -> is_Some (flushers p !! f) /\ free log_flusher f p) ->
  exists f fl p', or_new x new_flusher p = (Ok f, p') /\ process_inv yt yf p' /\ grown p p' /\ flushers p' !! f = Some fl /\
    free log_flusher f p' /\ timers p' = timers p.
Proof.
  intros Hi Hx. destruct x as [f|].
  - destruct (Hx f eq_refl) as [[fl Hf] Hfr]. exists f, fl, p. by split_and!.
  - destruct (new_flusher_inv yt yf p Hi) as (f & fl & p' & ? & ? & ? & ? & _ & ? & ?). by exists f, fl, p'.
Qed.

(** Registration, and the log itself. *)
Lemma register_timer_inv yf this t tm p :
  process_inv None yf p -> timers p !! t = Some tm ->
  process_inv (Some (this, t)) yf (set_timers (<[t := RaftTimer_Register this tm]> (timers p)) p).
Proof.
  intros [H1 H2 H3 H4 H5 H6 H7 H8] Ht. split; cbn; try done.
  - intros a l Hl. destruct (H1 a l Hl) as (? & Hs & ?). split_and!; [done| |done].
    apply lookup_insert_is_Some. destruct (decide (t = log_timer l)); auto.
  - intros t' tm' a [[<- <-]|[_ Ht']]%lookup_insert_Some Hin.
    + apply elem_of_app in Hin as [Hin|Hin%list_elem_of_singleton]; [|by right; subst].
      destruct (H3 t tm a Ht Hin) as [?|?]; [by left|done].
    + destruct (H3 t' tm' a Ht' Hin) as [?|?]; [by left|done].
  - intros t' [<-|[_ Ht']]%lookup_insert_is_Some; apply H6; by eauto.
Qed.

Lemma register_flusher_inv yt this f fl p :
  process_inv yt None p -> flushers p !! f = Some fl ->
  process_inv yt (Some (this, f)) (set_flushers (<[f := ReadyFlusher_Register this fl]> (flushers p)) p).
Proof.
  intros [H1 H2 H3 H4 H5 H6 H7 H8] Hf. split; cbn; try done.
  - intros a l Hl. destruct (H1 a l Hl) as (? & ? & Hs). split_and!; [done|done|].
    apply lookup_insert_is_Some. destruct (decide (f = log_flusher l)); auto.
  - intros f' fl' a [[<- <-]|[_ Hf']]%lookup_insert_Some Hin.
    + apply elem_of_app in Hin as [Hin|Hin%list_elem_of_singleton]; [|by right; subst].
      destruct (H4 f fl a Hf Hin) as [?|?]; [by left|done].
    + destruct (H4 f' fl' a Hf' Hin) as [?|?]; [by left|done].
  - intros f' [<-|[_ Hf']]%lookup_insert_is_Some; apply H7; by eauto.
Qed.

Lemma add_log_inv this q t f p :
  process_inv (Some (this, t)) (Some (this, f)) p -> logs p !! this = None -> this < next_address p ->
  q ∈ queues p -> is_Some (timers p !! t) -> is_Some (flushers p !! f) ->
  free log_queue q p -> free log_timer t p -> free log_flusher f p ->
  process_inv None None (set_logs (<[this := MkLogObject q t f]> (logs p)) p).
Proof.
  intros [H1 H2 H3 H4 H5 H6 H7 H8] Hnew Hlt Hq Ht Hf Fq Ft Ff. split; cbn; try done.
  - intros a l [[<- <-]|[_ Hl]]%lookup_insert_Some; [done|exact (H1 a l Hl)].
  - intros a b la lb [[<- <-]|[Ha Hla]]%lookup_insert_Some [[<- <-]|[Hb Hlb]]%lookup_insert_Some Hne; [done| | |exact (H2 a b la lb Hla Hlb Hne)].
    + cbn. split_and!; apply not_eq_sym; [exact (Fq b lb Hlb)|exact (Ft b lb Hlb)|exact (Ff b lb Hlb)].
    + cbn. split_and!; [exact (Fq a la Hla)|exact (Ft a la Hla)|exact (Ff a la Hla)].
  - intros t' tm a Htm Hin. left. destruct (H3 t' tm a Htm Hin) as [(l & Hl & <-)|[= <- <-]].
    + exists l. rewrite lookup_insert_ne by congruence. done.
    + exists (MkLogObject q t f). by rewrite lookup_insert_eq.
  - intros f' fl a Hfl Hin. left. destruct (H4 f' fl a Hfl Hin) as [(l & Hl & <-)|[= <- <-]].
    + exists l. rewrite lookup_insert_ne by congruence. done.
    + exists (MkLogObject q t f). by rewrite lookup_insert_eq.
  - intros a [<-|[_ Ha]]%lookup_insert_is_Some; [done|by apply H8].
Qed.

(** ** The operations *)

(** The pointers of the options are null, or objects that are there and that no log owns. *)
Definition unshared (options : SharedOptions) (p : Process) : Prop :=
  (forall q, so_taskQueue options = Some q -> q ∈ queues p /\ free log_queue q p) /\
  (forall t, so_timer options = Some t -> is_Some (timers p !! t) /\ free log_timer t p) /\
  (forall f, so_flusher options = Some f -> is_Some (flushers p !! f) /\ free log_flusher f p).

Lemma New_log_inv options p :
  process_inv None None p -> unshared options p -> so_wal options = true ->
  exists this p', New_log options p = (Ok this, p') /\ process_inv None None p' /\ is_Some (logs p' !! this).
Proof.
  intros Hi (Hq & Ht & Hf) Hw. pose proof (allocate_inv _ _ _ Hi) as Hi0. set (p0 := set_next_address (next_address p + 1) p) in *.
  destruct (or_new_queue_inv _ _ (so_taskQueue options) p0 Hi0 Hq) as (q & p1 & E1 & Hi1 & G1 & Hin & Fq & T1 & F1).
  destruct (or_new_timer_inv _ _ (so_timer options) p1 Hi1) as (t & tm & p2 & E2 & Hi2 & G2 & Htm & Ft & F2).
  { intros t He. destruct (Ht t He). rewrite T1. split; [done|]. by eapply free_grown. }
  pose proof (register_timer_inv _ (next_address p) _ _ _ Hi2 Htm) as Hi3. set (p3 := set_timers _ _) in Hi3.
  destruct (or_new_flusher_inv _ _ (so_flusher options) p3 Hi3) as (f & fl & p4 & E4 & Hi4 & G4 & Hfl & Ff & T4).
  { intros f He. destruct (Hf f He) as [? Hfree]. change (flushers p3) with (flushers p2). rewrite F2, F1. split; [done|].
    intros a l Hl. change (logs p3) with (logs p2) in Hl. rewrite (gr_logs _ _ G2), (gr_logs _ _ G1) in Hl. by apply (Hfree a). }
  pose proof (register_flusher_inv _ (next_address p) _ _ _ Hi4 Hfl) as Hi5. set (p5 := set_flushers _ _) in Hi5.
  exists (next_address p), (set_logs (<[next_address p := MkLogObject q t f]> (logs p5)) p5). split_and!.
  - unfold New_log. rewrite Hw. cbn [negb]. rewrite (run_bind_ok _ _ p p0 (next_address p)) by done. rewrite (run_bind_ok _ _ p0 p1 q E1).
    rewrite (run_bind_ok _ _ p1 p2 t E2). rewrite (run_bind_ok _ _ p2 p2 (Some tm)) by (unfold gets; by rewrite Htm).
    rewrite (run_bind_ok _ _ p2 p2 tm) by done. rewrite (run_bind_ok _ _ p2 p3 tt) by done. rewrite (run_bind_ok _ _ p3 p4 f E4).
    rewrite (run_bind_ok _ _ p4 p4 (Some fl)) by (unfold gets; by rewrite Hfl). rewrite (run_bind_ok _ _ p4 p4 fl) by done. done.
  - assert (logs p4 = logs p) as Hlogs.
    { rewrite (gr_logs _ _ G4). change (logs p3) with (logs p2). by rewrite (gr_logs _ _ G2), (gr_logs _ _ G1). }
    pose proof (gr_next _ _ G1) as N1. pose proof (gr_next _ _ G2) as N2. pose proof (gr_next _ _ G4) as N4. cbn in N1, N4.
    apply (add_log_inv _ q t f p5); [done| | | | | | | |done]; cbn.
    + rewrite Hlogs. destruct (logs p !! next_address p) eqn:Hl; [|done]. pose proof (pi_logs _ _ _ Hi _ ltac:(eauto)). lia.
    + lia.
    + apply (gr_queues _ _ G4). change (queues p3) with (queues p2). by apply (gr_queues _ _ G2).
    + rewrite T4. unfold p3. cbn. rewrite lookup_insert_eq. by eexists.
    + rewrite lookup_insert_eq. by eexists.
    + intros a l. cbn. rewrite Hlogs. intros Hl. apply (Fq a). by rewrite (gr_logs _ _ G1).
    + intros a l. cbn. rewrite Hlogs. intros Hl. apply (Ft a). by rewrite (gr_logs _ _ G2), (gr_logs _ _ G1).
  - cbn. rewrite lookup_insert_eq. by eexists.
Qed.

Lemma touch_log_ok p a l : process_inv None None p -> logs p !! a = Some l -> touch_log a p = (Ok tt, p).
Proof.
  intros Hi Hl. destruct (pi_log _ _ _ Hi a l Hl) as (Hq & _). unfold touch_log, mbind, prog_bind, gets. rewrite Hl. cbn.
  by rewrite decide_True.
Qed.

Lemma touch_logs_ok p xs :
  process_inv None None p -> (forall a, a ∈ xs -> is_Some (logs p !! a)) -> touch_logs xs p = (Ok tt, p).
Proof.
  intros Hi. induction xs as [|a xs IH]; intros Hx; cbn [touch_logs]; [done|]. destruct (Hx a ltac:(by left)) as [l Hl].
  rewrite (run_bind_ok _ _ p p tt) by by eapply touch_log_ok. apply IH. intros b Hb. apply Hx. by right.
Qed.

Lemma timer_round_ok p t : process_inv None None p -> is_Some (timers p !! t) -> timer_round t p = (Ok tt, p).
Proof.
  intros Hi [tm Ht]. unfold timer_round, mbind, prog_bind, gets. rewrite Ht. cbn. apply touch_logs_ok; [done|].
  intros a Ha. destruct (pi_timer _ _ _ Hi t tm a Ht Ha) as [(l & Hl & _)|?]; [by eexists|done].
Qed.

Lemma flush_round_ok p f : process_inv None None p -> is_Some (flushers p !! f) -> flush_round f p = (Ok tt, p).
Proof.
  intros Hi [fl Hf]. unfold flush_round, mbind, prog_bind, gets. rewrite Hf. cbn. apply touch_logs_ok; [done|].
  intros a Ha. destruct (pi_flusher _ _ _ Hi f fl a Hf Ha) as [(l & Hl & _)|?]; [by eexists|done].
Qed.

(** What is left when the log at [a] is deleted. *)
Definition without_log (a : Z) (l : LogObject) (p : Process) : Process :=
  MkProcess (queues p ∖ {[log_queue l]}) (delete (log_timer l) (timers p)) (delete (log_flusher l) (flushers p))
    (delete a (logs p)) (next_address p).

Lemma delete_log_run a l p :
  logs p !! a = Some l -> log_queue l ∈ queues p -> is_Some (timers p !! log_timer l) -> is_Some (flushers p !! log_flusher l) ->
  delete_log a p = (Ok tt, without_log a l p).
Proof.
  intros Hl Hq [tm Ht] [fl Hf]. unfold delete_log, delete_flusher, delete_timer, delete_queue, mbind, prog_bind, gets, deref.
  rewrite Hl. rewrite Hf. cbn. rewrite Ht. cbn. by rewrite decide_True.
Qed.

Lemma without_log_inv a l p : process_inv None None p -> logs p !! a = Some l -> process_inv None None (without_log a l p).
Proof.
  intros [H1 H2 H3 H4 H5 H6 H7 H8] Hl. split; cbn.
  - intros b lb [Hne Hb]%lookup_delete_Some. destruct (H1 b lb Hb) as (Hq & Ht & Hf). destruct (H2 b a lb l Hb Hl) as (Nq & Nt & Nf); [done|].
    split_and!; [set_solver|by rewrite lookup_delete_ne|by rewrite lookup_delete_ne].
  - intros b c lb lc [_ Hb]%lookup_delete_Some [_ Hc]%lookup_delete_Some. by eapply H2.
  - intros t tm b [Ht Htm]%lookup_delete_Some Hin. left. destruct (H3 t tm b Htm Hin) as [(lb & Hb & <-)|?]; [|done].
    exists lb. rewrite lookup_delete_ne; [done|]. intros <-. congruence.
  - intros f fl b [Hf Hfl]%lookup_delete_Some Hin. left. destruct (H4 f fl b Hfl Hin) as [(lb & Hb & <-)|?]; [|done].
    exists lb. rewrite lookup_delete_ne; [done|]. intros <-. congruence.
  - intros q Hq. apply H5. set_solver.
  - intros t [tm [_ Ht]%lookup_delete_Some]. apply H6. by eexists.
  - intros f [fl [_ Hf]%lookup_delete_Some]. apply H7. by eexists.
  - intros b [lb [_ Hb]%lookup_delete_Some]. apply H8. by eexists.
Qed.

(** ** Theorems *)

(** What a careful user of the library does. *)
Definition allowed (op : process_op) (p : Process) : Prop :=
  match op with
  | MakeQueue | MakeTimer | MakeFlusher => True
  | MakeLog options => unshared options p
  | UseLog a | DeleteLog a => is_Some (logs p !! a)
  | TimerRound t => is_Some (timers p !! t)
  | FlushRound f => is_Some (flushers p !! f)
  end.

Fixpoint orderly (ops : list process_op) (p : Process) : Prop :=
  match ops with
  | [] => True
  | op :: ops => allowed op p /\ orderly ops (snd (process_step op p))
  end.

Lemma process_step_inv op p :
  process_inv None None p -> allowed op p ->
  process_inv None None (snd (process_step op p)) /\ match fst (process_step op p) with Halt _ => False | _ => True end.
Proof.
  intros Hi Ha. destruct op as [| | |options|a|t|f|a]; cbn [process_step allowed] in *.
  - destruct (new_queue_inv _ _ p Hi) as (q & p' & E & Hi' & _). by rewrite (run_bind_ok _ _ _ _ _ E).
  - destruct (new_timer_inv _ _ p Hi) as (t & p' & E & Hi' & _). by rewrite (run_bind_ok _ _ _ _ _ E).
  - destruct (new_flusher_inv _ _ p Hi) as (f & fl & p' & E & Hi' & _). by rewrite (run_bind_ok _ _ _ _ _ E).
  - destruct (so_wal options) eqn:Hw.
    + destruct (New_log_inv options p Hi Ha Hw) as (this & p' & E & Hi' & _). by rewrite (run_bind_ok _ _ _ _ _ E).
    + unfold mbind, prog_bind, New_log. by rewrite Hw.
  - destruct Ha as [l Hl]. by rewrite (touch_log_ok p a l Hi Hl).
  - by rewrite timer_round_ok.
  - by rewrite flush_round_ok.
  - destruct Ha as [l Hl]. destruct (pi_log _ _ _ Hi a l Hl) as (Hq & Ht & Hf).
    rewrite (delete_log_run a l p) by done. split; [by apply without_log_inv|done].
Qed.

Lemma new_Process_inv : process_inv None None new_Process.
Proof. split; cbn; intros *; rewrite ?lookup_empty; try done; try (by intros [? ?]); set_solver. Qed.

Lemma process_run_inv ops p :
  process_inv None None p -> orderly ops p -> exists p', process_run ops p = (Ok tt, p') /\ process_inv None None p'.
Proof.
  revert p. induction ops as [|op ops IH]; intros p Hi Ho; [by exists p|]. destruct Ho as [Ha Ho].
  destruct (process_step_inv op p Hi Ha) as [Hi' Hr]. cbn [process_run].
  destruct (process_step op p) as [[[]|e|h] p1]; cbn in *; [by apply IH|by apply IH|done].
Qed.

(** C28: logs that share nothing are safe together: for every sequence of constructions, calls,
    rounds of timers and flushers and deletions in one process, in which an object is handed to
    one log at most, no object is used after it was deleted and none is deleted twice, and every
    log that is left has the three objects it needs, to itself. *)
Theorem unshared_logs_are_safe ops :
  orderly ops new_Process ->
  exists p, process_run ops new_Process = (Ok tt, p) /\
    (forall a l, logs p !! a = Some l -> log_queue l ∈ queues p /\ is_Some (timers p !! log_timer l) /\ is_Some (flushers p !! log_flusher l)) /\
    (forall a b la lb, logs p !! a = Some la -> logs p !! b = Some lb -> a <> b ->
       log_queue la <> log_queue lb /\ log_timer la <> log_timer lb /\ log_flusher la <> log_flusher lb).
Proof.
  intros Ho. destruct (process_run_inv ops new_Process new_Process_inv Ho) as (p & Hr & Hi). exists p. split; [done|].
  split; [apply (pi_log _ _ _ Hi)|apply (pi_own _ _ _ Hi)].
Qed.

(** C29: sharing, which the options are documented to allow, ends in undefined behaviour: when two
    logs of a process have a queue, a timer or a flusher in common, then after one of them was
    deleted the deletion of the other deletes an object a second time; and if it is the queue, the
    other log cannot even be used. *)
Theorem shared_objects_are_freed_twice p a b la lb p1 :
  logs p !! a = Some la -> logs p !! b = Some lb -> a <> b ->
  log_queue la = log_queue lb \/ log_timer la = log_timer lb \/ log_flusher la = log_flusher lb ->
  delete_log a p = (Ok tt, p1) ->
  fst (delete_log b p1) = Halt Undefined /\ (log_queue la = log_queue lb -> fst (touch_log b p1) = Halt Undefined).
Proof.
  intros Ha Hb Hne Hshare Hd. unfold delete_log, delete_flusher, delete_timer, delete_queue, mbind, prog_bind, gets, deref in Hd.
  rewrite Ha in Hd. destruct (flushers p !! log_flusher la) as [fl|] eqn:Hf; [|done]. cbn in Hd.
  destruct (timers p !! log_timer la) as [tm|] eqn:Ht; [|done]. cbn in Hd. destruct (decide (log_queue la ∈ queues p)) as [Hq|]; [|done].
  injection Hd as <-. assert (delete a (logs p) !! b = Some lb) as Hb' by by rewrite lookup_delete_ne.
  assert (forall q : Z, q ∉ queues p ∖ {[q]}) as Hnot by set_solver. split.
  - unfold delete_log, delete_flusher, delete_timer, delete_queue, mbind, prog_bind, gets, deref. cbn [logs set_logs]. rewrite Hb'. cbn.
    destruct (delete (log_flusher la) (flushers p) !! log_flusher lb) eqn:Hf'; [|done]. cbn.
    destruct (delete (log_timer la) (timers p) !! log_timer lb) eqn:Ht'; [|done]. cbn.
    destruct Hshare as [Hs|[Hs|Hs]].
    + by rewrite decide_False by (rewrite <- Hs; apply Hnot).
    + by rewrite Hs, lookup_delete_eq in Ht'.
    + by rewrite Hs, lookup_delete_eq in Hf'.
  - intros Hs. unfold touch_log, mbind, prog_bind, gets, deref. cbn [logs set_logs]. rewrite Hb'. cbn. by rewrite decide_False by (rewrite <- Hs; apply Hnot).
Qed.
