(* ===== verification/SharingWitnesses.v ===== *)
(** * Witnesses for the logs of one process *)

From S2P Require Import Prelude External Status Channel TaskQueue Node Sharing.

(** A timer that is handed to the first of two logs; the rounds of both, a log without [wal], and
    the end of the first log while the second goes on. *)
Definition own_options : SharedOptions := MkSharedOptions true None None None.
Definition timed_options : SharedOptions := MkSharedOptions true None (Some 0) None.
Definition two_logs : list process_op :=
  [MakeTimer; MakeLog timed_options; MakeLog own_options; MakeLog (MkSharedOptions false None None None);
   TimerRound 0; FlushRound 3; TimerRound 6; FlushRound 7; UseLog 1; DeleteLog 1; TimerRound 6; UseLog 4].

Definition two_logs_end : Process := snd (process_run two_logs new_Process).

Lemma two_logs_orderly : orderly two_logs new_Process.
Proof.
  split; [done|]. split.
  - split_and!; [done| |done]. intros t [= <-]. split; [by vm_compute; eexists|]. intros a l. by vm_compute.
  - split; [by split_and!|]. split; [by split_and!|].
    repeat (split; [vm_compute; by eexists|]). done.
Qed.

Lemma unshared_logs_are_safe_witness :
  orderly two_logs new_Process /\
  exists p, process_run two_logs new_Process = (Ok tt, p) /\ logs p = {[4 := MkLogObject 5 6 7]} /\
    (forall a l, logs p !! a = Some l -> log_queue l ∈ queues p /\ is_Some (timers p !! log_timer l) /\ is_Some (flushers p !! log_flusher l)).
Proof.
  split; [exact two_logs_orderly|].
  destruct (unshared_logs_are_safe two_logs two_logs_orderly) as (p & Hr & Hl & _).
  exists p. split; [exact Hr|]. split; [|exact Hl].
  assert (logs two_logs_end = {[4 := MkLogObject 5 6 7]}) as He by (vm_compute; reflexivity).
  unfold two_logs_end in He. rewrite Hr in He. exact He.
Defined.

(** Two logs with one queue and one flusher. *)
Definition shared_options : SharedOptions := MkSharedOptions true (Some 0) None (Some 1).
Definition sharing : Process :=
  snd (process_run [MakeQueue; MakeFlusher; MakeLog shared_options; MakeLog shared_options] new_Process).
Definition sharing_left : Process := snd (delete_log 2 sharing).

Lemma shared_objects_are_freed_twice_witness :
  fst (flush_round 1 sharing) = Ok tt /\ delete_log 2 sharing = (Ok tt, sharing_left) /\
  fst (delete_log 4 sharing_left) = Halt Undefined /\ fst (touch_log 4 sharing_left) = Halt Undefined.
Proof.
  assert (delete_log 2 sharing = (Ok tt, sharing_left)) as Hd by (vm_compute; reflexivity).
  destruct (shared_objects_are_freed_twice sharing 2 4 (MkLogObject 0 3 1) (MkLogObject 0 5 1) sharing_left)
    as [H1 H2]; [vm_compute; reflexivity|vm_compute; reflexivity|done|by left|exact Hd|].
  split; [vm_compute; reflexivity|]. split; [exact Hd|]. split; [exact H1|]. by apply H2.
Defined.
