(* ===== verification/Db.v ===== *)
(** * The replicated key-value store: [src/apps/memkv/src/db.h], [db.cc], [memkv_service.h],
    [memkv_service.cc] and the set-up in [memkv_server.cc]

    A request is encoded, written to the replicated log, and applied to the store of this member
    once the log has answered.  [DB] uses the log through three calls, the class
    [ReplicatedLogLib]: [System.v] gives the instance that runs a member of [Node.v]. *)

From stdpp Require Import pretty.
From S2P Require Import Prelude External Coding Status MemKv.

(** [consensus::ReplicatedLog] as its client sees it: calls that return once the other threads
    have done their part. *)
Class ReplicatedLogLib := {
  rlog : Type;
  (** [Write(log)]: the status it returns. *)
  rlog_Write : bytes -> Prog ErrorCode rlog unit;
  (** [RaftTaskExecutorInstance()->Submit] of a closure that reads [LeaderHint()], and the wait
      for it: no error can come back. *)
  rlog_LeaderHint : Prog Empty_set rlog Z;
  rlog_Id : rlog -> Z;
}.

(** ** [DB] *)

Inductive OpType := kWrite | kDelete.

Definition op_value (type : OpType) : Z := match type with kWrite => 1 | kDelete => 2 end.

Definition LogEncode (type : OpType) (path value : bytes) : bytes :=
  let result := [u8 (op_value type)] in
  let result := PutLengthPrefixedSlice result path in
  match type with
  | kWrite => PutLengthPrefixedSlice result value
  | kDelete => result
  end.

Section db.
Context {K : KvLib} {R : ReplicatedLogLib}.

Record DB := MkDB { kv_ : MemKvStore; log_ : rlog }.

Definition new_DB (replicatedLog : rlog) : DB := MkDB new_MemKvStore replicatedLog.

Abbreviation DBM := (Prog Error.ErrorCodes DB).

Definition on_kv {A} (p : Prog Error.ErrorCodes MemKvStore A) : DBM A :=
  zoom kv_ (fun kv db => MkDB kv (log_ db)) p.

(** [Status s = log_->Write(log); if (!s.IsOK()) return ConsensusError]. *)
Definition on_log (p : Prog ErrorCode rlog unit) : DBM unit := fun db =>
  match p (log_ db) with
  | (Ok _, l) => (Ok tt, MkDB (kv_ db) l)
  | (Err _, l) => (Err Error.ConsensusError, MkDB (kv_ db) l)
  | (Halt h, l) => (Halt h, MkDB (kv_ db) l)
  end.

(** The leader, read on the thread of the state machine. *)
Definition currentLeader : DBM Z := fun db =>
  match rlog_LeaderHint (log_ db) with
  | (Ok leader, l) => (Ok leader, MkDB (kv_ db) l)
  | (Err e, l) => match e with end
  | (Halt h, l) => (Halt h, MkDB (kv_ db) l)
  end.

Definition DB_Get (path : bytes) (stale : bool) : DBM bytes :=
  leader ← currentLeader;
  id ← gets (fun db => rlog_Id (log_ db));
  if negb (leader =? id) && negb stale then fail Error.ConsensusError
  else on_kv (MemKv.Get path).

Definition DB_Delete (path : bytes) : DBM unit :=
  match slice_of_null with
  | None => halt_with Undefined
  | Some null =>
      let log := LogEncode kDelete path null in
      _ ← on_log (rlog_Write log);
      on_kv (MemKv.Delete path)
  end.

Definition DB_Write (path value : bytes) : DBM unit :=
  let log := LogEncode kWrite path value in
  _ ← on_log (rlog_Write log);
  on_kv (MemKv.Write path value).

(** ** [MemKVServiceImpl] *)

(** [pb::ErrCode]. *)
Inductive ErrCode := RpcOK | RpcInvalidArgument | RpcNodeNotExist | RpcConsensusError.

Definition memkvErrorToRpcErrno (code : Error.ErrorCodes) : ErrCode :=
  match code with
  | Error.OK => RpcOK
  | Error.InvalidArgument => RpcInvalidArgument
  | Error.NodeNotExist => RpcNodeNotExist
  | Error.ConsensusError => RpcConsensusError
  end.

(** What a request carries: the fields of the message, or, over HTTP, the rest of the path after
    the method and the queries of the URI.  [GetQuery] is a null pointer for a query that is not
    there. *)
Record HttpRequest := MkHttpRequest { unresolved_path : bytes; queries : list (string * bytes) }.

Definition GetQuery (name : string) (r : HttpRequest) : option bytes :=
  snd <$> head (filter (fun q => fst q = name) (queries r)).

Record WriteRequest := MkWriteRequest { wreq_path : bytes; wreq_value : bytes }.
Record ReadRequest := MkReadRequest { rreq_path : bytes; rreq_stale : bool }.

(** A response: its code, whether it has a message, its value, and whether [done->Run()] has sent
    it off.  A field that was not set is [None]. *)
Record Response := MkResponse {
  errorcode : option ErrCode;
  has_errormessage : bool;
  value : option bytes;
  done_run : bool;
}.

Definition new_Response : Response := MkResponse None false None false.

(** The status a call of the database returned; a call that does not return ends the handler. *)
Abbreviation ServiceM := (Prog Empty_set DB).

Definition with_status {A} (p : DBM A) : ServiceM (Error.ErrorCodes * option A) := fun db =>
  match p db with
  | (Ok a, db) => (Ok (Error.OK, Some a), db)
  | (Err e, db) => (Ok (e, None), db)
  | (Halt h, db) => (Halt h, db)
  end.

Definition Service_Write (http : option HttpRequest) (request : WriteRequest) : ServiceM Response :=
  s ← match http with
      | Some r =>
          match GetQuery "value" r with
          | None => halt_with Undefined
          | Some v => with_status (DB_Write (unresolved_path r) v)
          end
      | None => with_status (DB_Write (wreq_path request) (wreq_value request))
      end;
  let code := fst s in
  mret (MkResponse (Some (memkvErrorToRpcErrno code)) (bool_decide (code <> Error.OK)) None true).

(** [result] is allocated empty and stays so when the read fails. *)
Definition Service_Read (http : option HttpRequest) (request : ReadRequest) : ServiceM Response :=
  s ← match http with
      | Some r => with_status (DB_Get (unresolved_path r) (bool_decide (GetQuery "stale" r <> None)))
      | None => with_status (DB_Get (rreq_path request) (rreq_stale request))
      end;
  let '(code, data) := s in
  mret (MkResponse (Some (memkvErrorToRpcErrno code)) (bool_decide (code <> Error.OK)) (Some (default [] data)) true).

(** The body is empty. *)
Definition Service_Delete : ServiceM Response := mret new_Response.
End db.

(** ** The set-up of the server *)

Record DBOptions := MkDBOptions {
  member_id : Z;
  wal_dir : string;
  db_initial_cluster : zmap string;
}.

(** The loop of [main]: [options.initial_cluster[i] = fmt::format("127.0.0.1:{}", 12320 + i)]. *)
Fixpoint fill_cluster (i : Z) (n : nat) (m : zmap string) : zmap string :=
  match n with
  | O => m
  | S n => fill_cluster (i + 1) n (zmap_insert i ("127.0.0.1:" +:+ pretty (12320 + i)) m)
  end.

Definition server_options (FLAGS_id : Z) (FLAGS_wal_dir : string) (FLAGS_server_count : Z) : DBOptions :=
  MkDBOptions FLAGS_id FLAGS_wal_dir (fill_cluster 1 (Z.to_nat FLAGS_server_count) []).

(** ** What requests mean to the store *)

Inductive db_request := ReqWrite (path v : bytes) | ReqDelete (path : bytes) | ReqGet (path : bytes) (stale : bool).

Section replay.
Context {K : KvLib}.

Abbreviation contents := (kv_path -> option bytes).

(** A request with a bad path changes nothing, and so does a delete whose path ends in a slash or
    names the root. *)
Definition apply_request (r : db_request) (f : contents) : contents :=
  match r with
  | ReqWrite path v =>
      match validatePath path with
      | Ok vec => spec_write (segments vec) v f
      | _ => f
      end
  | ReqDelete path =>
      match validatePath path with
      | Ok vec => if bool_decide (last vec = Some [] \/ segments vec = []) then f else spec_delete (segments vec) f
      | _ => f
      end
  | ReqGet _ _ => f
  end.

Definition replay (rs : list db_request) (f : contents) : contents := foldl (fun f r => apply_request r f) f rs.

(** Contents are compared path by path. *)
#[local] Instance spec_write_proper p v : Proper (pointwise_relation _ eq ==> pointwise_relation _ eq) (spec_write p v).
Proof. intros f g Hfg q. unfold spec_write. by rewrite (Hfg q). Qed.

#[local] Instance spec_delete_proper p : Proper (pointwise_relation _ eq ==> pointwise_relation _ eq) (spec_delete p).
Proof. intros f g Hfg q. unfold spec_delete. by rewrite (Hfg q). Qed.

Lemma apply_request_proper r : Proper (pointwise_relation _ eq ==> pointwise_relation _ eq) (apply_request r).
Proof.
  intros f g Hfg. destruct r as [path v|path|path stale]; cbn; [| |done]; destruct (validatePath path) as [vec| |]; try done.
  - by apply spec_write_proper.
  - case_bool_decide; [done|]. by apply spec_delete_proper.
Qed.

Lemma replay_proper rs : Proper (pointwise_relation _ eq ==> pointwise_relation _ eq) (replay rs).
Proof. induction rs as [|r rs IH]; intros f g Hfg; [done|]. cbn. by apply IH, apply_request_proper. Qed.

Lemma db_replay_app l1 l2 f : replay (l1 ++ l2) f = replay l2 (replay l1 f).
Proof. apply foldl_app. Qed.
End replay.

(** ** Properties *)

Section theorems.
Context (SL : SliceLib) (SS : SliceSpec SL) (K : KvLib) (R : ReplicatedLogLib).

Lemma LogEncode_write path v :
  is_u32 (len path) -> is_u32 (len v) -> LogEncode kWrite path v = 1 :: prefixed path ++ prefixed v.
Proof. intros Hp Hv. unfold LogEncode. by rewrite !PutLengthPrefixedSlice_eq. Qed.

Lemma LogEncode_delete path v : is_u32 (len path) -> LogEncode kDelete path v = 2 :: prefixed path.
Proof. intros Hp. unfold LogEncode. by rewrite PutLengthPrefixedSlice_eq. Qed.

(** The decoder of the repository reads the fields of a record back, one after the other. *)
Lemma decode_write path v :
  is_u32 (len path) -> is_u32 (len v) ->
  exists rest rest', LogEncode kWrite path v = op_value kWrite :: rest /\
    GetLengthPrefixedSlice rest = (Some path, rest') /\ GetLengthPrefixedSlice rest' = (Some v, []).
Proof.
  intros Hp Hv. rewrite LogEncode_write by done. eexists _, _. split; [done|].
  rewrite GetLengthPrefixedSlice_prefixed by done. split; [done|].
  rewrite <- (app_nil_r (prefixed v)). by rewrite GetLengthPrefixedSlice_prefixed.
Qed.

Lemma decode_delete path v :
  is_u32 (len path) ->
  exists rest, LogEncode kDelete path v = op_value kDelete :: rest /\ GetLengthPrefixedSlice rest = (Some path, []).
Proof.
  intros Hp. rewrite LogEncode_delete by done. eexists. split; [done|].
  rewrite <- (app_nil_r (prefixed path)). by rewrite GetLengthPrefixedSlice_prefixed.
Qed.

(** the encoding of a record in the log is faithful: two records are the same bytes only if they are
    of the same type, have the same path and, for a write, the same value. *)
Theorem log_encode_injective type path v type' path' v' :
  is_u32 (len path) -> is_u32 (len v) -> is_u32 (len path') -> is_u32 (len v') ->
  LogEncode type path v = LogEncode type' path' v' ->
  type = type' /\ path = path' /\ (type = kWrite -> v = v').
Proof.
  intros Hp Hv Hp' Hv' He. destruct type, type'.
  - destruct (decode_write path v Hp Hv) as (r1 & r2 & E & E1 & E2), (decode_write path' v' Hp' Hv') as (r1' & r2' & E' & E1' & E2').
    rewrite He, E' in E. injection E as ->. rewrite E1 in E1'. injection E1' as -> ->. rewrite E2 in E2'. by injection E2' as ->.
  - by rewrite LogEncode_write, LogEncode_delete in He.
  - by rewrite LogEncode_write, LogEncode_delete in He.
  - destruct (decode_delete path v Hp) as (r1 & E & E1), (decode_delete path' v' Hp') as (r1' & E' & E1').
    rewrite He, E' in E. injection E as ->. rewrite E1 in E1'. by injection E1' as ->.
Qed.

(** *** Requests and what the log has of them *)

Lemma on_kv_run {A} (p : Prog Error.ErrorCodes MemKvStore A) kv l r kv' :
  p kv = (r, kv') -> on_kv p (MkDB kv l) = (r, MkDB kv' l).
Proof. intros Hp. unfold on_kv, zoom. cbn. by rewrite Hp. Qed.

(** [DB::Write]: a record the log refuses leaves the store as it was and is a
    [ConsensusError]; a record the log accepts is applied to the store of this member, unless its
    path is bad: then the request fails although its record is in the log. *)
Theorem db_write path v kv l :
  kv_wf kv ->
  match rlog_Write (LogEncode kWrite path v) l with
  | (Ok _, l') =>
      match validatePath path with
      | Ok vec => exists kv', DB_Write path v (MkDB kv l) = (Ok tt, MkDB kv' l') /\ kv_wf kv' /\
          forall q, lookup_path kv' q = spec_write (segments vec) v (lookup_path kv) q
      | _ => DB_Write path v (MkDB kv l) = (Err Error.InvalidArgument, MkDB kv l')
      end
  | (Err _, l') => DB_Write path v (MkDB kv l) = (Err Error.ConsensusError, MkDB kv l')
  | (Halt h, l') => DB_Write path v (MkDB kv l) = (Halt h, MkDB kv l')
  end.
Proof.
  intros Hwf. unfold DB_Write, mbind, prog_bind, on_log. cbn [log_ kv_].
  destruct (rlog_Write (LogEncode kWrite path v) l) as [[u|e|h] l']; [|done|done].
  destruct (validatePath path) as [vec|e|h] eqn:Hv.
  - destruct (Write_ok K path v vec kv Hwf Hv) as (kv' & Hrun & Hwf' & Hl). exists kv'. split_and!; [|done|done].
    by apply on_kv_run.
  - apply on_kv_run. assert (e = Error.InvalidArgument) as -> by (unfold validatePath in Hv; repeat case_match; by simplify_eq).
    by apply bad_path.
  - unfold validatePath in Hv. repeat case_match; by simplify_eq.
Qed.

(** [DB::Get] is served from the store of this member, without a round through the log: on a
    member that is not the leader only if a stale answer is allowed. *)
Theorem db_get path stale kv l leader l' :
  kv_wf kv -> rlog_LeaderHint l = (Ok leader, l') ->
  DB_Get path stale (MkDB kv l)
  = (if negb (leader =? rlog_Id l') && negb stale then Err Error.ConsensusError
     else match validatePath path with
          | Ok vec => match lookup_path kv (segments vec) with Some d => Ok d | None => Err Error.NodeNotExist end
          | Err e => Err e
          | Halt h => Halt h
          end, MkDB kv l').
Proof.
  intros Hwf Hl. unfold DB_Get, mbind, prog_bind, currentLeader. cbn [log_ kv_]. rewrite Hl. cbn [gets log_].
  destruct (negb _ && negb stale); [done|]. apply on_kv_run.
  destruct (validatePath path) as [vec|e|h] eqn:Hv; [by apply Get_ok|by apply bad_path|].
  unfold validatePath in Hv. repeat case_match; by simplify_eq.
Qed.

(** The record of a request, if it has one; that of a delete does not depend on its value. *)
Definition request_log (r : db_request) : option bytes :=
  match r with
  | ReqWrite path v => Some (LogEncode kWrite path v)
  | ReqDelete path => Some (LogEncode kDelete path [])
  | ReqGet _ _ => None
  end.

Definition serve (r : db_request) (db : DB) : result Error.ErrorCodes unit * DB :=
  match r with
  | ReqWrite path v => DB_Write path v db
  | ReqDelete path => DB_Delete path db
  | ReqGet path stale => (_ ← DB_Get path stale; mret tt) db
  end.

(** A delete makes a slice from a null pointer first. *)
Definition request_defined (r : db_request) : bool :=
  match r, slice_of_null with
  | ReqDelete _, None => false
  | _, _ => true
  end.

(** The request, if it has a record and the log accepts it. *)
Definition accepted (r : db_request) (l : rlog) : list db_request :=
  match request_log r with
  | Some log => match rlog_Write log l with (Ok _, _) => if request_defined r then [r] else [] | _ => [] end
  | None => []
  end.

(** The requests whose record the log accepted while a list of them was served, and the database
    after it; a request that does not return is the last one. *)
Fixpoint serve_all (rs : list db_request) (db : DB) : list db_request * DB :=
  match rs with
  | [] => ([], db)
  | r :: rs =>
      match serve r db with
      | (Halt _, db') => (accepted r (log_ db), db')
      | (_, db') => let '(later, db'') := serve_all rs db' in (accepted r (log_ db) ++ later, db'')
      end
  end.

Definition request_small (r : db_request) : Prop :=
  match r with
  | ReqWrite path v => is_u32 (len path) /\ is_u32 (len v)
  | ReqDelete path => is_u32 (len path)
  | ReqGet _ _ => True
  end.

(** The store after a call is that after its record. *)
Lemma kv_write_record path v kv :
  kv_wf kv -> exists res kv', MemKv.Write path v kv = (res, kv') /\ kv_wf kv' /\
    forall q, lookup_path kv' q = apply_request (ReqWrite path v) (lookup_path kv) q.
Proof.
  intros Hwf. cbn. destruct (validatePath path) as [vec|e|h] eqn:Hv.
  - destruct (Write_ok K path v vec kv Hwf Hv) as (kv' & ? & ? & ?). by exists (Ok tt), kv'.
  - exists (Err e), kv. split_and!; [by apply bad_path|done|done].
  - unfold validatePath in Hv. repeat case_match; by simplify_eq.
Qed.

Lemma kv_delete_record path kv :
  kv_wf kv -> exists res kv', MemKv.Delete path kv = (res, kv') /\ kv_wf kv' /\
    forall q, lookup_path kv' q = apply_request (ReqDelete path) (lookup_path kv) q.
Proof.
  intros Hwf. cbn. destruct (validatePath path) as [vec|e|h] eqn:Hv.
  - destruct (Delete_ok K path vec kv Hwf Hv) as (kv' & Hrun & ? & Hl).
    eexists _, kv'. split_and!; [done|done|]. intros q. rewrite Hl. by case_bool_decide.
  - exists (Err e), kv. split_and!; [by apply bad_path|done|done].
  - unfold validatePath in Hv. repeat case_match; by simplify_eq.
Qed.

Lemma kv_get_pure path kv : kv_wf kv -> snd (MemKv.Get path kv) = kv.
Proof.
  intros Hwf. destruct (validatePath path) as [vec|e|h] eqn:Hv.
  - by rewrite (Get_ok K path vec).
  - unfold MemKv.Get. by rewrite (bad_path K path e).
  - unfold validatePath in Hv. repeat case_match; by simplify_eq.
Qed.

Lemma serve_spec r kv l :
  kv_wf kv ->
  exists res kv' l', serve r (MkDB kv l) = (res, MkDB kv' l') /\ kv_wf kv' /\
    forall q, lookup_path kv' q = replay (accepted r l) (lookup_path kv) q.
Proof.
  intros Hwf. unfold accepted. destruct r as [path v|path|path stale]; cbn [serve request_log request_defined].
  - unfold DB_Write, mbind, prog_bind, on_log. cbn [log_ kv_].
    destruct (rlog_Write (LogEncode kWrite path v) l) as [[u|e|h] l']; [|by eexists _, kv, l'..].
    destruct (kv_write_record path v kv Hwf) as (res & kv' & Hrun & Hwf' & Hl).
    exists res, kv', l'. rewrite (on_kv_run _ _ _ _ _ Hrun). split_and!; [done|done|]. intros q. apply Hl.
  - unfold DB_Delete. destruct slice_of_null as [null|].
    2: { eexists _, kv, l. split_and!; [done|done|]. intros q. by destruct (rlog_Write _ l) as [[]]. }
    unfold mbind, prog_bind, on_log. cbn [log_ kv_]. change (LogEncode kDelete path null) with (LogEncode kDelete path []).
    destruct (rlog_Write (LogEncode kDelete path []) l) as [[u|e|h] l']; [|by eexists _, kv, l'..].
    destruct (kv_delete_record path kv Hwf) as (res & kv' & Hrun & Hwf' & Hl).
    exists res, kv', l'. rewrite (on_kv_run _ _ _ _ _ Hrun). split_and!; [done|done|]. intros q. apply Hl.
  - unfold mbind, prog_bind, DB_Get, mbind, prog_bind, currentLeader. cbn [log_ kv_].
    destruct (rlog_LeaderHint l) as [[leader|[]|h] l']; [|by eexists _, kv, l']. cbn [gets].
    destruct (negb _ && negb stale); [by eexists _, kv, l'|].
    pose proof (kv_get_pure path kv Hwf) as Hg.
    destruct (MemKv.Get path kv) as [res kv'] eqn:Hrun. cbn in Hg. subst kv'.
    rewrite (on_kv_run _ _ _ _ _ Hrun). destruct res; by eexists _, kv, l'.
Qed.

(** the store of a member that serves one request after the other is the replay of its log: after
    any list of requests, the contents of the store are what applying, in order, exactly the
    requests whose record the replicated log accepted makes of the contents before. *)
Theorem db_replays_log rs kv l :
  kv_wf kv ->
  let '(logged, db) := serve_all rs (MkDB kv l) in
  kv_wf (kv_ db) /\ forall q, lookup_path (kv_ db) q = replay logged (lookup_path kv) q.
Proof.
  revert kv l. induction rs as [|r rs IH]; intros kv l Hwf; [done|].
  cbn [serve_all log_]. destruct (serve_spec r kv l Hwf) as (res & kv' & l' & -> & Hwf' & Hl).
  assert (forall logged db, serve_all rs (MkDB kv' l') = (logged, db) ->
    kv_wf (kv_ db) /\ forall q, lookup_path (kv_ db) q = replay (accepted r l ++ logged) (lookup_path kv) q) as Hrest.
  { intros logged db Hs. specialize (IH kv' l' Hwf'). rewrite Hs in IH. destruct IH as [Hwf'' Hq]. split; [done|].
    intros q. rewrite db_replay_app, Hq. by apply replay_proper. }
  destruct res; [| |done]; destruct (serve_all rs (MkDB kv' l')) as [logged db]; by apply Hrest.
Qed.

(** every read and write request is answered with the code of its outcome, an HTTP write
    without a value is undefined behaviour, and a delete request is never answered. *)
Theorem service_answers http req rreq db :
  (forall r db', Service_Write http req db = (Ok r, db') ->
     done_run r = true /\
     let '(path, v) := match http with
                       | Some h => (unresolved_path h, default [] (GetQuery "value" h))
                       | None => (wreq_path req, wreq_value req)
                       end in
     exists res, DB_Write path v db = (res, db') /\
       errorcode r = match res with
                     | Ok _ => Some RpcOK
                     | Err e => Some (memkvErrorToRpcErrno e)
                     | Halt _ => None
                     end) /\
  (forall r db', Service_Read http rreq db = (Ok r, db') -> done_run r = true /\
     let '(path, stale) := match http with
                           | Some h => (unresolved_path h, bool_decide (GetQuery "stale" h <> None))
                           | None => (rreq_path rreq, rreq_stale rreq)
                           end in
     exists res, DB_Get path stale db = (res, db') /\
       match res with
       | Ok d => errorcode r = Some RpcOK /\ value r = Some d
       | Err e => errorcode r = Some (memkvErrorToRpcErrno e) /\ value r = Some []
       | Halt _ => False
       end) /\
  (forall h, http = Some h -> GetQuery "value" h = None -> Service_Write http req db = (Halt Undefined, db)) /\
  (forall r db', Service_Delete db = (Ok r, db') -> done_run r = false /\ db' = db).
Proof.
  split_and!.
  - intros r db' Hs. unfold Service_Write, mbind, prog_bind in Hs. destruct http as [h|].
    + destruct (GetQuery "value" h) as [v|]; [|done]. unfold with_status in Hs. cbn.
      destruct (DB_Write (unresolved_path h) v db) as [[u|e|hh] db1];
        unfold mret, prog_ret in Hs; cbn in Hs; simplify_eq; (split; [done|]); eexists; by split.
    + unfold with_status in Hs. destruct (DB_Write (wreq_path req) (wreq_value req) db) as [[u|e|hh] db1];
        unfold mret, prog_ret in Hs; cbn in Hs; simplify_eq; (split; [done|]); eexists; by split.
  - intros r db' Hs. unfold Service_Read, mbind, prog_bind in Hs.
    destruct http as [h|]; unfold with_status in Hs;
      [destruct (DB_Get (unresolved_path h) (bool_decide (GetQuery "stale" h <> None)) db) as [[u|e|hh] db1]
      |destruct (DB_Get (rreq_path rreq) (rreq_stale rreq) db) as [[u|e|hh] db1]];
      unfold mret, prog_ret in Hs; cbn in Hs; simplify_eq; (split; [done|]); eexists; by split.
  - intros h -> Hq. unfold Service_Write, mbind, prog_bind. by rewrite Hq.
  - intros r db' [= <- <-]. done.
Qed.
End theorems.

(** The cluster of the server is the members 1 to [server_count], each at its own port. *)
Lemma fill_cluster_find i n m x :
  zmap_find x (fill_cluster i n m)
  = if decide (i <= x < i + Z.of_nat n) then Some ("127.0.0.1:" +:+ pretty (12320 + x)) else zmap_find x m.
Proof.
  revert i m. induction n as [|n IH]; intros i m; cbn [fill_cluster].
  - by rewrite decide_False by lia.
  - rewrite IH, zmap_find_insert. repeat case_decide; subst; try done; lia.
Qed.

Lemma server_options_cluster id dir count x :
  0 <= count ->
  zmap_find x (db_initial_cluster (server_options id dir count))
  = if decide (1 <= x <= count) then Some ("127.0.0.1:" +:+ pretty (12320 + x)) else None.
Proof. intros Hc. cbn. rewrite fill_cluster_find. repeat case_decide; try done; lia. Qed.
