(* ===== verification/System.v ===== *)
(** * The whole process: [DB] on a member of the cluster on a write-ahead log on files

    The interfaces the components are written against, put together the way
    [DB::Bootstrap] of [src/apps/memkv/src/db.cc] does. *)

From stdpp Require Import pretty.
From S2P Require Import Prelude External Coding Status Posix Segment LogWriter ReadSegment LogManager MemKv Channel TaskQueue Observer Cluster Node NodeSpec Db.

(** [LogManager] is a [WriteAheadLog]. *)
#[export] Instance log_manager_wal {HOST : Host} {CRC : Crc32} {SL : SliceLib} {Y : YaraftPb} {M : MemStoreLib Y}
    {SB : StatusBool} {FS : BoostFs} : WriteAheadLog Y := {|
  wal_state := os * LogManager;
  wal_Write := LogManager.Write;
|}.

(** ** A member as a replicated log *)

Section replicated_log.
Context {Y : YaraftPb} {M : MemStoreLib Y} {MSG : YaraftMsg} {RAFT : RaftLib M MSG}.
Context {WAL : WriteAheadLog Y} {EI : ErasedIterator} {TC : Toolchain}.

(** A call waits while the other threads run as the schedule says; a step its thread cannot take
    now is skipped.  [OutOfFuel] is a call that has not returned at the end of the schedule. *)
Fixpoint await (thread : Z) (n : Node) (schedule : list choice) :
    result Empty_set outcome * (Node * list choice) :=
  match call_returns thread n with
  | (Ok _, n') =>
      match last (history n') with
      | Some (CallReturned _ o) => (Ok o, (n', schedule))
      | _ => (Halt OutOfFuel, (n', schedule))
      end
  | (Halt h, n') => (Halt h, (n', schedule))
  | (Err _, _) =>
      match schedule with
      | [] => (Halt OutOfFuel, (n, []))
      | c :: schedule =>
          match node_step c n with
          | (Ok _, n') => await thread n' schedule
          | (Err _, _) => await thread n schedule
          | (Halt h, n') => (Halt h, (n', schedule))
          end
      end
  end.

(** [ReplicatedLog::Write]. *)
Definition ReplicatedLog_Write (log : bytes) : Prog ErrorCode (Node * list choice) unit := fun '(n, schedule) =>
  match node_step (ClientWrites log) n with
  | (Ok _, n1) =>
      match await (next_thread n) n1 schedule with
      | (Ok (WriteReturned OK), s) => (Ok tt, s)
      | (Ok (WriteReturned e), s) => (Err e, s)
      | (Ok (Returned _), s) => (Halt OutOfFuel, s)
      | (Err e, s) => match e with end
      | (Halt h, s) => (Halt h, s)
      end
  | (Err e, n1) => (Err e, (n1, schedule))
  | (Halt h, n1) => (Halt h, (n1, schedule))
  end.

(** The closure of [DB::Get] that reads the leader, and the wait for it. *)
Definition leader_hint : Prog Empty_set (Node * list choice) Z := fun '(n, schedule) =>
  match node_step ClientAsksLeader n with
  | (Ok _, n1) =>
      match await (next_thread n) n1 schedule with
      | (Ok (Returned (LocalsLeaderHint leader)), s) => (Ok leader, s)
      | (Ok _, s) => (Halt OutOfFuel, s)
      | (Err e, s) => match e with end
      | (Halt h, s) => (Halt h, s)
      end
  | (_, n1) => (Halt OutOfFuel, (n1, schedule))
  end.

#[export] Instance node_rlog : ReplicatedLogLib := {|
  rlog := Node * list choice;
  rlog_Write := ReplicatedLog_Write;
  rlog_LeaderHint := leader_hint;
  rlog_Id := fun '(n, _) => Id n;
|}.
End replicated_log.

(** ** [DB::Bootstrap] *)

Section bootstrap.
Context {HOST : Host} {CRC : Crc32} {SL : SliceLib} {Y : YaraftPb} {M : MemStoreLib Y}.
Context {SB : StatusBool} {FS : BoostFs} {MSG : YaraftMsg} {RAFT : RaftLib M MSG}.
Context {EI : ErasedIterator} {TC : Toolchain}.

Definition Bootstrap (this : Z) (options : DBOptions) (schedule : list choice) (o : os) : result Error.ErrorCodes DB * os :=
  let walOptions := MkWriteAheadLogOptions (log_segment_size new_WriteAheadLogOptions)
                      (verify_checksum new_WriteAheadLogOptions) (wal_dir options) in
  match Default walOptions None o with
  | (Ok (wal, memstore), o) =>
      let rlogOptions := MkReplicatedLogOptions (WAL := log_manager_wal) (db_initial_cluster options)
                           (member_id options) 100 1000 None None None (Some (o, wal)) memstore in
      match New this rlogOptions with
      | Ok n => (Ok (new_DB (n, schedule)), o)
      | Err _ => (Err Error.ConsensusError, o)
      | Halt h => (Halt h, o)
      end
  | (Err _, o) => (Err Error.ConsensusError, o)
  | (Halt h, o) => (Halt h, o)
  end.

(** ** [main] of [memkv_server.cc] *)

(** The flags of [glog] that [InitLogging] sets. *)
Record LogFlags := MkLogFlags { FLAGS_log_dir : string; FLAGS_logtostderr : bool }.

Definition InitLogging (FLAGS_memkv_log_dir : string) : Prog ErrorCode (os * LogFlags) unit :=
  _ ← modify (fun '(o, fl) => (o, MkLogFlags FLAGS_memkv_log_dir (FLAGS_logtostderr fl)));
  if negb (bool_decide (FLAGS_memkv_log_dir = ""%string)) then
    fatal_not_ok (zoom fst (fun o st => (o, snd st)) (CreateDirIfMissing FLAGS_memkv_log_dir))
  else modify (fun '(o, fl) => (o, MkLogFlags (FLAGS_log_dir fl) true)).

(** What the process serves: the database, and the address [server.Start] is called with. *)
Record Server := MkServer { server_db : DB; server_address : string }.

(** [options.initial_cluster[FLAGS_id]] inserts an empty string for a member that is not there. *)
Definition main (this FLAGS_id : Z) (FLAGS_wal_dir : string) (FLAGS_server_count : Z) (FLAGS_memkv_log_dir : string)
    (schedule : list choice) (o : os) : result ErrorCode Server * os :=
  match InitLogging FLAGS_memkv_log_dir (o, MkLogFlags ""%string false) with
  | (Ok _, (o, _)) =>
      let options := server_options FLAGS_id FLAGS_wal_dir FLAGS_server_count in
      match Bootstrap this options schedule o with
      | (Ok db, o) => (Ok (MkServer db (default ""%string (zmap_find FLAGS_id (db_initial_cluster options)))), o)
      | (Err _, o) => (Halt FatalLog, o)
      | (Halt h, o) => (Halt h, o)
      end
  | (Err e, (o, _)) => (Err e, o)
  | (Halt h, (o, _)) => (Halt h, o)
  end.
End bootstrap.

(** ** Properties *)

Section theorems.
Context (Y : YaraftPb) (M : MemStoreLib Y) (MSG : YaraftMsg) (RAFT : RaftLib M MSG).
Context (WAL : WriteAheadLog Y) (EI : ErasedIterator) (TC : Toolchain).

Lemma call_returns_event thread n n' :
  call_returns thread n = (Ok tt, n') -> exists o, last (history n') = Some (CallReturned thread o).
Proof.
  unfold call_returns, mbind, prog_bind. destruct (thread <? 2); [done|]. destruct (decide _).
  - destruct (leave_frame thread n) as [[l|e|h] n1]; [|done|done]. intros [= <-]. exists (Returned l). apply last_snoc.
  - destruct (leave_write thread n) as [[s|e|h] n1]; [|done|done]. intros [= <-]. exists (WriteReturned s). apply last_snoc.
Qed.

(** A call that returns has its return in the history of a state the invariant holds of. *)
Lemma await_spec lost thread schedule n o n' schedule' :
  channel_built_in_place = true -> node_inv lost n ->
  await thread n schedule = (Ok o, (n', schedule')) ->
  node_inv lost n' /\ CallReturned thread o ∈ history n'.
Proof.
  intros Hce. revert n. induction schedule as [|c schedule IH]; intros n Hi; cbn [await].
  all: destruct (call_returns thread n) as [[[]|e|h] n1] eqn:Hr; [| |done].
  1,3: pose proof (wp_run _ _ _ _ _ (call_returns_step lost (fun _ => True) thread n Hi) Hr) as Hi1;
    destruct (call_returns_event _ _ _ Hr) as [o1 Hl]; rewrite Hl; intros [= <- <- <-];
    (split; [done|by apply last_Some_elem_of]).
  - done.
  - destruct (node_step c n) as [[[]|e'|h] n2] eqn:Hs; [|by apply IH|done].
    intros Ha. apply (IH n2); [|done].
    exact (wp_run _ _ _ _ _ (node_step_inv lost c n (fun _ _ => Hce) Hi) Hs).
Qed.

Lemma replicated_write_ok lost log n schedule n' schedule' :
  channel_built_in_place = true -> node_inv lost n ->
  ReplicatedLog_Write log (n, schedule) = (Ok tt, (n', schedule')) ->
  node_inv lost n' /\ acked (next_thread n) (history n').
Proof.
  intros Hce Hi. unfold ReplicatedLog_Write. destruct (node_step (ClientWrites log) n) as [[[]|e|h] n1] eqn:Hs; [|done|done].
  pose proof (wp_run _ _ _ _ _ (node_step_inv lost _ n (fun _ _ => Hce) Hi) Hs) as Hi1.
  destruct (await (next_thread n) n1 schedule) as [[[s|l]|[]|h] [n2 sch]] eqn:Ha; [|done|done].
  destruct s; try done. intros [= <- <-].
  destruct (await_spec lost _ _ _ _ _ _ Hce Hi1 Ha) as [Hi2 Hin]. split; [done|]. by apply (inv_return _ _ _ _ _ _ _ _ Hi2).
Qed.

(** end to end, one request at a time: when [DB::Write] returns OK on a member, its record got an
    index and the member announced a commit index at or above it, from a [Ready] its log had
    accepted, all before the return, and the store holds the value under its path. *)
Theorem db_write_is_announced (K : KvLib) lost path v kv kv' n n' schedule schedule' :
  channel_built_in_place = true -> node_inv lost n -> kv_wf kv ->
  DB_Write path v (MkDB (R := node_rlog) kv (n, schedule)) = (Ok tt, MkDB (R := node_rlog) kv' (n', schedule')) ->
  acked (next_thread n) (history n') /\ node_inv lost n' /\ kv_wf kv' /\
  exists vec, validatePath path = Ok vec /\ lookup_path kv' (segments vec) = Some v.
Proof.
  intros Hce Hi Hwf. unfold DB_Write, mbind, prog_bind, on_log. cbn [log_ kv_ rlog_Write node_rlog].
  destruct (ReplicatedLog_Write (LogEncode kWrite path v) (n, schedule)) as [[[]|e|h] [n1 sch1]] eqn:Hw; [|done|done].
  destruct (replicated_write_ok lost _ _ _ _ _ Hce Hi Hw) as [Hi1 Hack].
  unfold on_kv, zoom. cbn [kv_ log_]. destruct (MemKv.Write path v kv) as [r kv1] eqn:Hk. intros [= -> -> -> ->].
  split_and!; [done|done|..].
  all: destruct (validatePath path) as [vec|e|h] eqn:Hv;
    [|unfold MemKv.Write in Hk; rewrite (bad_path K path e) in Hk by done; done
     |unfold validatePath in Hv; repeat case_match; by simplify_eq];
    destruct (Write_ok K path v vec kv Hwf Hv) as (kv2 & Hk2 & Hwf2 & Hl); rewrite Hk in Hk2; injection Hk2 as ->.
  - done.
  - exists vec. split; [done|]. rewrite Hl. unfold spec_write. by rewrite decide_True.
Qed.
End theorems.

Section bootstrap_theorems.
Context (HOST : Host) (CRC : Crc32) (SL : SliceLib) (Y : YaraftPb) (M : MemStoreLib Y).
Context (SB : StatusBool) (FS : BoostFs) (MSG : YaraftMsg) (RAFT : RaftLib M MSG).
Context (EI : ErasedIterator) (TC : Toolchain).

Lemma new_store_contents q : lookup_path new_MemKvStore q = if decide (q = []) then Some [] else None.
Proof.
  unfold lookup_path, new_MemKvStore. cbn [heap]. destruct q as [|s q]; [done|]. by rewrite decide_False.
Qed.

(** a database that comes up again remembers nothing: whatever log is recovered from the
    directory, the state machine starts from it and the store starts empty. *)
Theorem bootstrap_starts_empty this options schedule o db o' :
  Bootstrap this options schedule o = (Ok db, o') ->
  exists m ms n,
    Default (MkWriteAheadLogOptions (64 * 1024 * 1024) true (wal_dir options)) None o = (Ok (m, ms), o') /\
    log_ db = (n, schedule) /\ wal_ n = (o', m) /\ node_inv (fun _ => False) n /\
    (node_ n, memstore_ n) = new_RawNode (MkConfig 1000 100 (member_id options) (fst <$> db_initial_cluster options))
                               (default new_MemoryStorage ms) /\
    forall q, lookup_path (kv_ db) q = if decide (q = []) then Some [] else None.
Proof.
  unfold Bootstrap. cbn [log_segment_size verify_checksum new_WriteAheadLogOptions].
  destruct (Default _ None o) as [[[m ms]|e|h] o1]; [|done|done].
  destruct (New this _) as [n|e|h] eqn:HN; [|done|done]. intros [= <- <-]. exists m, ms, n.
  assert (node_inv (fun _ => False) n) as Hi by (eapply New_inv; [exact (fun _ f => f)| |exact HN]; done).
  unfold New in HN. cbn [Validate opt_wal opt_id election_timeout heartbeat_interval initial_cluster opt_memstore opt_taskQueue] in HN.
  destruct (new_RawNode _ _) as [rn ms'] eqn:Hrn. destruct new_TaskQueue as [tq| |]; [|done|done].
  cbn [opt_flusher] in HN. destruct new_ReadyFlusher as [f| |]; [|done|done]. injection HN as <-. cbn [kv_ new_DB log_ wal_ node_ memstore_]. split_and!; try done. intros q. apply new_store_contents.
Qed.

(** the servers of a cluster find each other: a server that came up has opened its database, and
    when its id is one of the members it is told to listen at the very address under which every
    other server with the same count knows it, which is that of no other member.  A server with
    an id outside the cluster is told to listen at the empty address. *)
Theorem server_is_reachable this id dir count log_dir schedule o srv o' :
  0 <= count -> main this id dir count log_dir schedule o = (Ok srv, o') ->
  (exists o1, Bootstrap this (server_options id dir count) schedule o1 = (Ok (server_db srv), o')) /\
  if decide (1 <= id <= count) then
    forall j dir' x, zmap_find x (db_initial_cluster (server_options j dir' count)) = Some (server_address srv) <-> x = id
  else server_address srv = ""%string.
Proof.
  intros Hc. unfold main. destruct (InitLogging _ _) as [[[]|e|h] [o1 fl]]; [|done|done].
  destruct (Bootstrap _ _ _ o1) as [[db|e|h] o2] eqn:Hb; [|done|done]. intros [= <- <-]. cbn [server_db server_address].
  split; [by exists o1|]. pose proof (server_options_cluster id dir count id Hc) as Hmine. cbn [db_initial_cluster server_options] in Hmine. rewrite Hmine.
  case_decide as Hid; [|done]. unfold default, from_option.
  intros j dir' x. pose proof (server_options_cluster j dir' count x Hc) as Hx. rewrite Hx. case_decide as Hxr.
  - split; [|by intros ->]. intros [= He]. apply pretty_Z_inj in He. lia.
  - split; [done|]. intros ->. by destruct Hxr.
Qed.
End bootstrap_theorems.
