(* ===== verification/Pb.v ===== *)
(** * The answer of the status RPC: [src/include/consensus/pb/raft_server.pb.h], [raft_server.pb.cc]

    [StatusResponse] as the protocol buffer compiler generated it: fields,
    presence bits, the two serializers, the size and the parser with its jumps from one field to
    the next.  The streams and the wire format are the protobuf library: a class of operations. *)

From S2P Require Import Prelude Coding.

(** ** The protobuf library *)

Class PbRuntime := {
  (** Fields the parser did not know. *)
  UnknownFieldSet : Type;
  unknown_empty : UnknownFieldSet;
  unknown_is_empty : UnknownFieldSet -> bool;
  unknown_MergeFrom : UnknownFieldSet -> UnknownFieldSet -> UnknownFieldSet;
  SerializeUnknownFields : UnknownFieldSet -> bytes;
  SerializeUnknownFieldsToArray : UnknownFieldSet -> bytes;
  ComputeUnknownFieldsSize : UnknownFieldSet -> Z;
  (** Reading from the rest of a stream. *)
  ReadTagWithCutoff : Z -> bytes -> (Z * bool) * bytes;
  ReadPrimitive_UINT64 : bytes -> option (Z * bytes);
  ExpectTag : Z -> bytes -> bool * bytes;
  ExpectAtEnd : bytes -> bool;
  SkipField : Z -> UnknownFieldSet -> bytes -> option (UnknownFieldSet * bytes);
  (** Writing a field, to a stream and to an array, and its size. *)
  WriteUInt64 : Z -> Z -> bytes;
  WriteUInt64ToArray : Z -> Z -> bytes;
  UInt64Size : Z -> Z;
}.

(** The documented wire format: a field is its tag, field number and wire type, and its value as a
    varint.  [ExpectTag] and [ExpectAtEnd] are hints: they may always say no, and say yes only when
    the tag is there, which they then consume, and when the stream has ended. *)
Class PbSpec (P : PbRuntime) : Prop := {
  unknown_empty_spec : unknown_is_empty unknown_empty = true;
  unknown_merge_empty : unknown_MergeFrom unknown_empty unknown_empty = unknown_empty;
  WriteUInt64_spec n v : 1 <= n <= 15 -> is_u64 v -> WriteUInt64 n v = 8 * n :: EncodeVarint64 v;
  WriteUInt64ToArray_spec n v : WriteUInt64ToArray n v = WriteUInt64 n v;
  UInt64Size_spec v : is_u64 v -> UInt64Size v = VarintLength v;
  SerializeUnknown_spec u : SerializeUnknownFieldsToArray u = SerializeUnknownFields u;
  ComputeUnknown_spec u : ComputeUnknownFieldsSize u = len (SerializeUnknownFields u);
  ReadTag_spec t s : 0 < t < 128 -> ReadTagWithCutoff 127 (t :: s) = ((t, true), s);
  ReadTag_end : ReadTagWithCutoff 127 [] = ((0, false), []);
  ReadUInt64_spec v s : is_u64 v -> ReadPrimitive_UINT64 (EncodeVarint64 v ++ s) = Some (v, s);
  ExpectTag_yes t s s' : ExpectTag t s = (true, s') -> s = t :: s';
  ExpectTag_no t s s' : ExpectTag t s = (false, s') -> s' = s;
  ExpectAtEnd_yes s : ExpectAtEnd s = true -> s = [];
}.

Section pb.
Context {P : PbRuntime}.

(** [GetTagFieldNumber] and [GetTagWireType]. *)
Definition GetTagFieldNumber (tag : Z) : Z := tag ≫ 3.
Definition GetTagWireType (tag : Z) : Z := Z.land tag 7.
Definition WIRETYPE_END_GROUP : Z := 4.

(** ** [StatusResponse] *)

Record StatusResponse := MkStatusResponse {
  unknown_fields : UnknownFieldSet;
  has_bits : Z;
  cached_size : Z;
  leader_ : Z;
  raftindex_ : Z;
  raftterm_ : Z;
  raftcommit_ : Z;
}.

(** [SharedCtor]. *)
Definition new_StatusResponse : StatusResponse := MkStatusResponse unknown_empty 0 0 0 0 0 0.

Definition set_bit (b : Z) (m : StatusResponse) : StatusResponse :=
  MkStatusResponse (unknown_fields m) (Z.lor (has_bits m) b) (cached_size m) (leader_ m) (raftindex_ m)
    (raftterm_ m) (raftcommit_ m).

Definition has_leader (m : StatusResponse) : bool := negb (Z.land (has_bits m) 1 =? 0).
Definition has_raftindex (m : StatusResponse) : bool := negb (Z.land (has_bits m) 2 =? 0).
Definition has_raftterm (m : StatusResponse) : bool := negb (Z.land (has_bits m) 4 =? 0).
Definition has_raftcommit (m : StatusResponse) : bool := negb (Z.land (has_bits m) 8 =? 0).

Definition set_leader (v : Z) (m : StatusResponse) : StatusResponse :=
  let m := set_bit 1 m in
  MkStatusResponse (unknown_fields m) (has_bits m) (cached_size m) v (raftindex_ m) (raftterm_ m) (raftcommit_ m).
Definition set_raftindex (v : Z) (m : StatusResponse) : StatusResponse :=
  let m := set_bit 2 m in
  MkStatusResponse (unknown_fields m) (has_bits m) (cached_size m) (leader_ m) v (raftterm_ m) (raftcommit_ m).
Definition set_raftterm (v : Z) (m : StatusResponse) : StatusResponse :=
  let m := set_bit 4 m in
  MkStatusResponse (unknown_fields m) (has_bits m) (cached_size m) (leader_ m) (raftindex_ m) v (raftcommit_ m).
Definition set_raftcommit (v : Z) (m : StatusResponse) : StatusResponse :=
  let m := set_bit 8 m in
  MkStatusResponse (unknown_fields m) (has_bits m) (cached_size m) (leader_ m) (raftindex_ m) (raftterm_ m) v.

Definition set_unknown_fields (u : UnknownFieldSet) (m : StatusResponse) : StatusResponse :=
  MkStatusResponse u (has_bits m) (cached_size m) (leader_ m) (raftindex_ m) (raftterm_ m) (raftcommit_ m).
Definition set_cached_size (n : Z) (m : StatusResponse) : StatusResponse :=
  MkStatusResponse (unknown_fields m) (has_bits m) n (leader_ m) (raftindex_ m) (raftterm_ m) (raftcommit_ m).

(** [_has_bits_[0] &= ~b]. *)
Definition clear_bit (b : Z) (m : StatusResponse) : StatusResponse :=
  MkStatusResponse (unknown_fields m) (Z.land (has_bits m) (0xffffffff - b)) (cached_size m) (leader_ m) (raftindex_ m)
    (raftterm_ m) (raftcommit_ m).

Definition clear_leader (m : StatusResponse) : StatusResponse :=
  clear_bit 1 (MkStatusResponse (unknown_fields m) (has_bits m) (cached_size m) 0 (raftindex_ m) (raftterm_ m) (raftcommit_ m)).
Definition clear_raftindex (m : StatusResponse) : StatusResponse :=
  clear_bit 2 (MkStatusResponse (unknown_fields m) (has_bits m) (cached_size m) (leader_ m) 0 (raftterm_ m) (raftcommit_ m)).
Definition clear_raftterm (m : StatusResponse) : StatusResponse :=
  clear_bit 4 (MkStatusResponse (unknown_fields m) (has_bits m) (cached_size m) (leader_ m) (raftindex_ m) 0 (raftcommit_ m)).
Definition clear_raftcommit (m : StatusResponse) : StatusResponse :=
  clear_bit 8 (MkStatusResponse (unknown_fields m) (has_bits m) (cached_size m) (leader_ m) (raftindex_ m) (raftterm_ m) 0).

(** This message and the other one after [Swap]. *)
Definition Swap (m other : StatusResponse) : StatusResponse * StatusResponse :=
  (MkStatusResponse (unknown_fields other) (has_bits other) (cached_size other) (leader_ other) (raftindex_ other) (raftterm_ other) (raftcommit_ other),
   MkStatusResponse (unknown_fields m) (has_bits m) (cached_size m) (leader_ m) (raftindex_ m) (raftterm_ m) (raftcommit_ m)).

(** [Clear] keeps the cached size. *)
Definition Clear (m : StatusResponse) : StatusResponse :=
  MkStatusResponse unknown_empty 0 (cached_size m) 0 0 0 0.

Definition SerializeWithCachedSizes (m : StatusResponse) : bytes :=
  (if has_leader m then WriteUInt64 1 (leader_ m) else []) ++
  (if has_raftindex m then WriteUInt64 2 (raftindex_ m) else []) ++
  (if has_raftterm m then WriteUInt64 3 (raftterm_ m) else []) ++
  (if has_raftcommit m then WriteUInt64 4 (raftcommit_ m) else []) ++
  (if negb (unknown_is_empty (unknown_fields m)) then SerializeUnknownFields (unknown_fields m) else []).

Definition SerializeWithCachedSizesToArray (m : StatusResponse) : bytes :=
  (if has_leader m then WriteUInt64ToArray 1 (leader_ m) else []) ++
  (if has_raftindex m then WriteUInt64ToArray 2 (raftindex_ m) else []) ++
  (if has_raftterm m then WriteUInt64ToArray 3 (raftterm_ m) else []) ++
  (if has_raftcommit m then WriteUInt64ToArray 4 (raftcommit_ m) else []) ++
  (if negb (unknown_is_empty (unknown_fields m)) then SerializeUnknownFieldsToArray (unknown_fields m) else []).

(** The size, and the message with it cached. *)
Definition ByteSize (m : StatusResponse) : Z * StatusResponse :=
  let total_size :=
    if negb (Z.land (has_bits m) 0xff =? 0) then
      (if has_leader m then 1 + UInt64Size (leader_ m) else 0) +
      (if has_raftindex m then 1 + UInt64Size (raftindex_ m) else 0) +
      (if has_raftterm m then 1 + UInt64Size (raftterm_ m) else 0) +
      (if has_raftcommit m then 1 + UInt64Size (raftcommit_ m) else 0)
    else 0 in
  let total_size :=
    total_size + if negb (unknown_is_empty (unknown_fields m)) then ComputeUnknownFieldsSize (unknown_fields m) else 0 in
  (total_size, set_cached_size total_size m).

Definition MergeFrom (from m : StatusResponse) : StatusResponse :=
  let m :=
    if negb (Z.land (has_bits from) 0xff =? 0) then
      let m := if has_leader from then set_leader (leader_ from) m else m in
      let m := if has_raftindex from then set_raftindex (raftindex_ from) m else m in
      let m := if has_raftterm from then set_raftterm (raftterm_ from) m else m in
      if has_raftcommit from then set_raftcommit (raftcommit_ from) m else m
    else m in
  set_unknown_fields (unknown_MergeFrom (unknown_fields from) (unknown_fields m)) m.

(** [CopyFrom] another message. *)
Definition CopyFrom (from m : StatusResponse) : StatusResponse := MergeFrom from (Clear m).

(** *** The parser *)

(** Where it is: at the head of the loop or at the label of a field. *)
Inductive parse_label := parse_start | parse_raftIndex | parse_raftTerm | parse_raftCommit.

(** [handle_unusual]: [None] ends the loop with success. *)
Definition handle_unusual (tag : Z) (input : bytes) (m : StatusResponse) :
    option (option (StatusResponse * bytes)) :=
  if (tag =? 0) || (GetTagWireType tag =? WIRETYPE_END_GROUP) then None
  else Some ('(u, input) ← SkipField tag (unknown_fields m) input; Some (set_unknown_fields u m, input)).

(** One pass of the loop, or one field: the label to go on at, or the end. *)
Inductive parse_step :=
  | Goto (l : parse_label) (m : StatusResponse) (input : bytes)
  | Success (m : StatusResponse)
  | Failure (m : StatusResponse).

(** Read a field, then look for the tag of the next one. *)
Definition parse_uint64 (set : Z -> StatusResponse -> StatusResponse) (next : Z * parse_label)
    (input : bytes) (m : StatusResponse) : parse_step :=
  match ReadPrimitive_UINT64 input with
  | None => Failure m
  | Some (v, input) =>
      let m := set v m in
      let '(expected, input) := ExpectTag (fst next) input in
      Goto (if expected then snd next else parse_start) m input
  end.

(** The last field: it looks for the end instead. *)
Definition parse_last (input : bytes) (m : StatusResponse) : parse_step :=
  match ReadPrimitive_UINT64 input with
  | None => Failure m
  | Some (v, input) =>
      let m := set_raftcommit v m in
      if ExpectAtEnd input then Success m else Goto parse_start m input
  end.

Definition unusual (tag : Z) (input : bytes) (m : StatusResponse) : parse_step :=
  match handle_unusual tag input m with
  | None => Success m
  | Some None => Failure m
  | Some (Some (m, input)) => Goto parse_start m input
  end.

Definition parse_at (l : parse_label) (input : bytes) (m : StatusResponse) : parse_step :=
  match l with
  | parse_raftIndex => parse_uint64 set_raftindex (24, parse_raftTerm) input m
  | parse_raftTerm => parse_uint64 set_raftterm (32, parse_raftCommit) input m
  | parse_raftCommit => parse_last input m
  | parse_start =>
      let '((tag, known), input) := ReadTagWithCutoff 127 input in
      if negb known then unusual tag input m
      else match GetTagFieldNumber tag with
           | 1 => if tag =? 8 then parse_uint64 set_leader (16, parse_raftIndex) input m else unusual tag input m
           | 2 => if tag =? 16 then parse_uint64 set_raftindex (24, parse_raftTerm) input m else unusual tag input m
           | 3 => if tag =? 24 then parse_uint64 set_raftterm (32, parse_raftCommit) input m else unusual tag input m
           | 4 => if tag =? 32 then parse_last input m else unusual tag input m
           | _ => unusual tag input m
           end
  end.

(** [MergePartialFromCodedStream] from a label on: every pass reads at least a byte, so the length
    of the input bounds their number. *)
Fixpoint parse_loop (fuel : nat) (l : parse_label) (input : bytes) (m : StatusResponse) : option (bool * StatusResponse) :=
  match fuel with
  | O => None
  | S fuel =>
      match parse_at l input m with
      | Goto l m input => parse_loop fuel l input m
      | Success m => Some (true, m)
      | Failure m => Some (false, m)
      end
  end.

Definition MergePartialFromCodedStream (input : bytes) (m : StatusResponse) : option (bool * StatusResponse) :=
  parse_loop (S (length input)) parse_start input m.
End pb.

(** ** Properties *)

Section theorems.
Context (P : PbRuntime) (PS : PbSpec P).

(** A message as the accessors build it: presence bits for the four fields, a field that is not
    there is zero, nothing unknown. *)
Record message_wf (m : StatusResponse) : Prop := {
  wf_bits : 0 <= has_bits m < 16;
  wf_leader : is_u64 (leader_ m) /\ (has_leader m = false -> leader_ m = 0);
  wf_raftindex : is_u64 (raftindex_ m) /\ (has_raftindex m = false -> raftindex_ m = 0);
  wf_raftterm : is_u64 (raftterm_ m) /\ (has_raftterm m = false -> raftterm_ m = 0);
  wf_raftcommit : is_u64 (raftcommit_ m) /\ (has_raftcommit m = false -> raftcommit_ m = 0);
  wf_unknown : unknown_fields m = unknown_empty;
}.

(** *** Fields as a list *)

Definition field_set (n : Z) : Z -> StatusResponse -> StatusResponse :=
  match n with 1 => set_leader | 2 => set_raftindex | 3 => set_raftterm | _ => set_raftcommit end.

Definition fields (m : StatusResponse) : list (Z * Z) :=
  (if has_leader m then [(1, leader_ m)] else []) ++
  (if has_raftindex m then [(2, raftindex_ m)] else []) ++
  (if has_raftterm m then [(3, raftterm_ m)] else []) ++
  (if has_raftcommit m then [(4, raftcommit_ m)] else []).

Fixpoint wire (fs : list (Z * Z)) : bytes :=
  match fs with
  | [] => []
  | (n, v) :: fs => 8 * n :: EncodeVarint64 v ++ wire fs
  end.

Definition set_all (fs : list (Z * Z)) (m : StatusResponse) : StatusResponse :=
  foldl (fun m '(n, v) => field_set n v m) m fs.

(** Field numbers increase from [lo] on. *)
Fixpoint increasing (lo : Z) (fs : list (Z * Z)) : Prop :=
  match fs with
  | [] => True
  | (n, v) :: fs => lo <= n <= 4 /\ is_u64 v /\ increasing (n + 1) fs
  end.

Definition field_label (n : Z) : parse_label :=
  match n with 2 => parse_raftIndex | 3 => parse_raftTerm | _ => parse_raftCommit end.

(** What the parser does with the value of field [n]. *)
Definition parse_value (n : Z) (input : bytes) (m : StatusResponse) : parse_step :=
  match n with
  | 1 => parse_uint64 set_leader (16, parse_raftIndex) input m
  | 2 => parse_uint64 set_raftindex (24, parse_raftTerm) input m
  | 3 => parse_uint64 set_raftterm (32, parse_raftCommit) input m
  | _ => parse_last input m
  end.

Lemma field_cases n : 1 <= n <= 4 -> n = 1 \/ n = 2 \/ n = 3 \/ n = 4.
Proof. lia. Qed.

Lemma parse_at_tag n s m : 1 <= n <= 4 -> parse_at parse_start (8 * n :: s) m = parse_value n s m.
Proof.
  intros Hn. cbn [parse_at]. rewrite ReadTag_spec by lia.
  by destruct (field_cases n Hn) as [->|[->|[->| ->]]].
Qed.

Lemma parse_at_label n s m : 2 <= n <= 4 -> parse_at (field_label n) s m = parse_value n s m.
Proof. intros Hn. destruct (field_cases n ltac:(lia)) as [->|[->|[->| ->]]]; [lia|done..]. Qed.

(** The run of the loop after a step. *)
Definition continue (fuel : nat) (st : parse_step) : option (bool * StatusResponse) :=
  match st with
  | Goto l m input => parse_loop fuel l input m
  | Success m => Some (true, m)
  | Failure m => Some (false, m)
  end.

Lemma parse_fields fs lo :
  increasing lo fs -> 1 <= lo -> forall m fuel,
  ((length (wire fs) < fuel)%nat -> parse_loop fuel parse_start (wire fs) m = Some (true, set_all fs m)) /\
  (forall n v fs', fs = (n, v) :: fs' -> 2 <= n -> (length (EncodeVarint64 v ++ wire fs') < fuel)%nat ->
     parse_loop fuel (field_label n) (EncodeVarint64 v ++ wire fs') m = Some (true, set_all fs m)).
Proof.
  revert lo. induction fs as [|[n v] fs IH]; intros lo Hinc Hlo m fuel.
  { split; [|done]. destruct fuel as [|fuel]; [cbn; lia|]. intros _. cbn [wire parse_loop parse_at].
    by rewrite ReadTag_end. }
  destruct Hinc as (Hn & Hv & Hinc).
  assert (1 <= length (EncodeVarint64 v))%nat as Hlen.
  { pose proof (VarintLength_len v Hv). pose proof (VarintLength_bounds v Hv). unfold len in *. lia. }
  (* after the value *)
  assert (forall fuel, (length (wire fs) < fuel)%nat ->
    continue fuel (parse_value n (EncodeVarint64 v ++ wire fs) m) = Some (true, set_all fs (field_set n v m))) as Hval.
  { intros f Hf. specialize (IH (n + 1) Hinc ltac:(lia) (field_set n v m) f) as [Hstart Hlabel].
    destruct (decide (n = 4)) as [->|Hn4].
    - assert (fs = []) as -> by (destruct fs as [|[n' v'] fs]; [done|]; cbn in Hinc; lia).
      cbn [parse_value]. unfold parse_last. rewrite ReadUInt64_spec by done.
      destruct (ExpectAtEnd _); [done|]. by apply Hstart.
    - assert (exists nl, parse_value n (EncodeVarint64 v ++ wire fs) m
        = parse_uint64 (field_set n) (8 * (n + 1), nl) (EncodeVarint64 v ++ wire fs) m /\ nl = field_label (n + 1)) as (nl & -> & ->).
      { destruct (field_cases n ltac:(lia)) as [->|[->|[->| ->]]]; [by eexists|by eexists|by eexists|done]. }
      unfold parse_uint64. rewrite ReadUInt64_spec by done. cbn [fst snd].
      destruct (ExpectTag (8 * (n + 1)) (wire fs)) as [[] s'] eqn:He; cbn [continue].
      + apply ExpectTag_yes in He. destruct fs as [|[n' v'] fs]; [done|]. cbn [wire] in He.
        pose proof (f_equal head He) as Hn'; pose proof (f_equal tail He) as Hs'; cbn [head tail] in Hn', Hs'; apply (inj Some) in Hn'. subst s'.
        assert (n' = n + 1) as -> by lia. apply (Hlabel (n + 1) v' fs); [done|lia|]. cbn [wire length] in Hf. lia.
      + apply ExpectTag_no in He as ->. by apply Hstart. }
  assert (forall f, parse_loop (S f) parse_start (wire ((n, v) :: fs)) m
    = continue f (parse_value n (EncodeVarint64 v ++ wire fs) m)) as Hs.
  { intros f. cbn [wire parse_loop]. by rewrite parse_at_tag by lia. }
  split.
  - destruct fuel as [|fuel]; [lia|]. intros Hf. rewrite Hs. apply Hval. cbn in Hf. rewrite length_app in Hf. lia.
  - intros n0 v0 fs0 [= <- <- <-] Hn2 Hf. destruct fuel as [|fuel]; [lia|]. cbn [parse_loop].
    rewrite parse_at_label by lia. apply Hval. rewrite length_app in Hf. lia.
Qed.

Lemma fields_increasing m : message_wf m -> increasing 1 (fields m).
Proof.
  intros Hwf. destruct (wf_leader m Hwf), (wf_raftindex m Hwf), (wf_raftterm m Hwf), (wf_raftcommit m Hwf).
  unfold fields. destruct (has_leader m), (has_raftindex m), (has_raftterm m), (has_raftcommit m); cbn;
    repeat split; try lia; apply H || apply H1 || apply H3 || apply H5.
Qed.

Lemma serialize_wire m : message_wf m -> SerializeWithCachedSizes m = wire (fields m).
Proof.
  intros Hwf. destruct (wf_leader m Hwf), (wf_raftindex m Hwf), (wf_raftterm m Hwf), (wf_raftcommit m Hwf).
  unfold SerializeWithCachedSizes, fields. rewrite (wf_unknown m Hwf), unknown_empty_spec.
  destruct (has_leader m), (has_raftindex m), (has_raftterm m), (has_raftcommit m); cbn;
    rewrite ?WriteUInt64_spec by (done || lia); cbn; by rewrite ?app_nil_r, <- ?app_assoc.
Qed.

(** The sixteen values of the presence bits; a field that is not there is zero. *)
Ltac all_bits b :=
  assert (b = 0 \/ b = 1 \/ b = 2 \/ b = 3 \/ b = 4 \/ b = 5 \/ b = 6 \/ b = 7 \/
    b = 8 \/ b = 9 \/ b = 10 \/ b = 11 \/ b = 12 \/ b = 13 \/ b = 14 \/ b = 15) as Hcase by lia;
  destruct_or! Hcase; subst b;
  repeat match goal with H : negb _ = false -> _ |- _ => first [specialize (H eq_refl); subst|clear H] end.

(** What the operations keep. *)
Lemma status_ops_wf m :
  message_wf m ->
  (forall v, is_u64 v -> message_wf (set_leader v m) /\ message_wf (set_raftindex v m) /\
     message_wf (set_raftterm v m) /\ message_wf (set_raftcommit v m)) /\
  message_wf (clear_leader m) /\ message_wf (clear_raftindex m) /\ message_wf (clear_raftterm m) /\
  message_wf (clear_raftcommit m) /\ message_wf (Clear m) /\ forall other, Swap m other = (other, m).
Proof.
  intros Hwf. destruct m as [u b c l i t k]. destruct Hwf as [Hb [Hl0 Hl] [Hi0 Hi] [Ht0 Ht] [Hk0 Hk] Hu]. cbn in *. subst u.
  unfold has_leader, has_raftindex, has_raftterm, has_raftcommit in *. cbn in *.
  all_bits b; (split_and!; [intros v Hv; split_and!| | | | | |by intros []]); by split.
Qed.

Lemma set_all_fields m : message_wf m -> set_all (fields m) new_StatusResponse = set_cached_size 0 m.
Proof.
  intros Hwf. destruct m as [u b c l i t k]. destruct Hwf as [Hb [_ Hl] [_ Hi] [_ Ht] [_ Hk] Hu]. cbn in *. subst u.
  unfold has_leader, has_raftindex, has_raftterm, has_raftcommit in *. cbn in *. by all_bits b.
Qed.

(** A copy has the fields of the original and keeps the cached size of the target. *)
Lemma copy_from_fields from m : message_wf from -> CopyFrom from m = set_cached_size (cached_size m) from.
Proof.
  intros Hwf. destruct from as [u b c l i t k]. destruct Hwf as [Hb [_ Hl] [_ Hi] [_ Ht] [_ Hk] Hu]. cbn in *. subst u.
  unfold has_leader, has_raftindex, has_raftterm, has_raftcommit in *. cbn in *.
  all_bits b; exact (f_equal (fun u => MkStatusResponse u _ _ _ _ _ _) unknown_merge_empty).
Qed.

(** a [StatusResponse] is read back as it was written, whatever the hints of the stream say: the
    jumps from a field to the next one make no difference; the two serializers write the same
    bytes, [ByteSize] counts them, and [CopyFrom] copies the message. *)
Theorem status_response_roundtrip m :
  message_wf m ->
  MergePartialFromCodedStream (SerializeWithCachedSizes m) new_StatusResponse = Some (true, set_cached_size 0 m) /\
  SerializeWithCachedSizesToArray m = SerializeWithCachedSizes m /\
  fst (ByteSize m) = len (SerializeWithCachedSizes m) /\
  forall m', CopyFrom m m' = set_cached_size (cached_size m') m.
Proof.
  intros Hwf. split_and!; [..|by intros m'; apply copy_from_fields].
  - unfold MergePartialFromCodedStream. rewrite serialize_wire by done.
    destruct (parse_fields (fields m) 1 (fields_increasing m Hwf) ltac:(lia) new_StatusResponse
      (S (length (wire (fields m))))) as [Hs _].
    rewrite Hs by lia. by rewrite set_all_fields.
  - unfold SerializeWithCachedSizesToArray, SerializeWithCachedSizes. by rewrite !WriteUInt64ToArray_spec, SerializeUnknown_spec.
  - destruct (wf_leader m Hwf), (wf_raftindex m Hwf), (wf_raftterm m Hwf), (wf_raftcommit m Hwf).
    unfold ByteSize, SerializeWithCachedSizes. cbn [fst]. rewrite (wf_unknown m Hwf), unknown_empty_spec. cbn [negb].
    rewrite !app_nil_r, !len_app.
    assert (forall n v, 1 <= n <= 15 -> is_u64 v -> len (WriteUInt64 n v) = 1 + UInt64Size v) as Hlen.
    { intros n v Hn Hv. rewrite WriteUInt64_spec, UInt64Size_spec, len_cons, VarintLength_len by done. done. }
    assert (Z.land (has_bits m) 255 = has_bits m) as ->.
    { pose proof (wf_bits m Hwf). rewrite (land_255 (has_bits m)). apply Z.mod_small. lia. }
    destruct (Z.eqb_spec (has_bits m) 0) as [Hb|Hb]; cbn [negb].
    + unfold has_leader, has_raftindex, has_raftterm, has_raftcommit. by rewrite Hb.
    + destruct (has_leader m), (has_raftindex m), (has_raftterm m), (has_raftcommit m);
        rewrite ?Hlen by (done || lia); change (len (@nil Z)) with 0; lia.
Qed.
End theorems.
