(* ===== verification/StepRpc.v ===== *)
(** * The messages and the dispatch of the step RPC: [raft_server.pb.{h,cc}]

    [StepRequest], [StepResponse] and [StatusRequest] as the protocol buffer compiler generated
    them, and the service that hands a call to its handler.  The message of [yaraft] inside a
    request and the wire format are libraries: a class of operations and one of laws.  The object
    behind the pointer [message_] belongs to its request, so it is a part of it. *)

From S2P Require Import Prelude External Coding Status Channel TaskQueue Observer Cluster Node Pb.

(** ** More of the protobuf library *)

Class PbStepRuntime (P : PbRuntime) (MSG : YaraftMsg) := {
  (** [yaraft::pb::Message]. *)
  new_Message : Message;
  message_Clear : Message -> Message;
  message_MergeFrom : Message -> Message -> Message;
  (** What a message is on the wire. *)
  message_bytes : Message -> bytes;
  ReadMessageNoVirtual : bytes -> Message -> (bool * Message) * bytes;
  WriteMessageMaybeToArray : Z -> Message -> bytes;
  WriteMessageNoVirtualToArray : Z -> Message -> bytes;
  MessageSizeNoVirtual : Message -> Z;
  ReadPrimitive_ENUM : bytes -> option (Z * bytes);
  WriteEnum : Z -> Z -> bytes;
  WriteEnumToArray : Z -> Z -> bytes;
  EnumSize : Z -> Z;
  AddVarint : Z -> Z -> UnknownFieldSet -> UnknownFieldSet;
}.

Definition is_s32 (v : Z) : Prop := - 2 ^ 31 <= v < 2 ^ 31.

(** A message that fits into the length field of protobuf. *)
Definition sendable `{PbStepRuntime} (msg : Message) : Prop := len (message_bytes msg) < 2 ^ 31.

(** The documented wire format: a message is its length and its bytes, and reading them into an
    empty message gives it back; an enum is the varint of its value, sign-extended to 64 bits; an
    unknown varint field is written as it was read. *)
Class PbStepSpec {P : PbRuntime} {MSG : YaraftMsg} (S : PbStepRuntime P MSG) : Prop := {
  message_merge_new msg : message_MergeFrom msg new_Message = msg;
  message_merge_cleared msg msg' : message_MergeFrom msg (message_Clear msg') = msg;
  WriteMessage_spec n msg : 1 <= n <= 15 -> sendable msg ->
    WriteMessageMaybeToArray n msg = 8 * n + 2 :: EncodeVarint64 (len (message_bytes msg)) ++ message_bytes msg;
  WriteMessageToArray_spec n msg : WriteMessageNoVirtualToArray n msg = WriteMessageMaybeToArray n msg;
  MessageSize_spec msg : sendable msg -> MessageSizeNoVirtual msg = VarintLength (len (message_bytes msg)) + len (message_bytes msg);
  ReadMessage_spec msg s : sendable msg ->
    ReadMessageNoVirtual (EncodeVarint64 (len (message_bytes msg)) ++ message_bytes msg ++ s) new_Message = ((true, msg), s);
  WriteEnum_spec n v : 1 <= n <= 15 -> is_s32 v -> WriteEnum n v = 8 * n :: EncodeVarint64 (u64 v);
  WriteEnumToArray_spec n v : WriteEnumToArray n v = WriteEnum n v;
  EnumSize_spec v : is_s32 v -> EnumSize v = VarintLength (u64 v);
  ReadEnum_spec v s : is_s32 v -> ReadPrimitive_ENUM (EncodeVarint64 (u64 v) ++ s) = Some (v, s);
  AddVarint_nonempty n v u : unknown_is_empty (AddVarint n v u) = false;
  AddVarint_bytes n v : 1 <= n <= 15 -> is_u64 v ->
    SerializeUnknownFields (AddVarint n v unknown_empty) = 8 * n :: EncodeVarint64 v;
}.

(** ** What the three parsers share

    A pass of the loop goes on with the rest of the input, or ends it.  Every pass that goes on
    has read a tag, so the length of the input bounds their number. *)

Inductive pass_result (A : Type) := Again (m : A) (input : bytes) | Done (ok : bool) (m : A).
Arguments Again {A} m input.
Arguments Done {A} ok m.

Section messages.
Context {P : PbRuntime} {MSG : YaraftMsg} {S : PbStepRuntime P MSG}.

Fixpoint merge_loop {A} (pass : bytes -> A -> pass_result A) (fuel : nat) (input : bytes) (m : A) : option (bool * A) :=
  match fuel with
  | O => None
  | Datatypes.S fuel =>
      match pass input m with
      | Again m input => merge_loop pass fuel input m
      | Done ok m => Some (ok, m)
      end
  end.

(** The label [handle_unusual]. *)
Definition unusual_field {A} (get : A -> UnknownFieldSet) (set : UnknownFieldSet -> A -> A) (tag : Z) (input : bytes) (m : A) : pass_result A :=
  if (tag =? 0) || (GetTagWireType tag =? WIRETYPE_END_GROUP) then Done true m
  else match SkipField tag (get m) input with
       | Some (u, input) => Again (set u m) input
       | None => Done false m
       end.

(** The presence bit of the only field. *)
Definition present (bits : Z) : bool := negb (Z.land bits 1 =? 0).
Definition set_present (bits : Z) : Z := Z.lor bits 1.
Definition clear_present (bits : Z) : Z := Z.land bits 0xfffffffe.

(** ** [StepRequest] *)

Record StepRequest := MkStepRequest {
  request_unknown : UnknownFieldSet;
  request_bits : Z;
  request_cached_size : Z;
  message_ : option Message;
}.

Definition new_StepRequest : StepRequest := MkStepRequest unknown_empty 0 0 None.

Definition set_request_unknown (u : UnknownFieldSet) (r : StepRequest) : StepRequest :=
  MkStepRequest u (request_bits r) (request_cached_size r) (message_ r).
Definition set_request_size (n : Z) (r : StepRequest) : StepRequest :=
  MkStepRequest (request_unknown r) (request_bits r) n (message_ r).
Definition set_request_message (msg : option Message) (bits : Z) (r : StepRequest) : StepRequest :=
  MkStepRequest (request_unknown r) bits (request_cached_size r) msg.

Definition has_message (r : StepRequest) : bool := present (request_bits r).

Definition clear_message (r : StepRequest) : StepRequest :=
  set_request_message (message_Clear <$> message_ r) (clear_present (request_bits r)) r.

(** The message of the default instance is a new one. *)
Definition message (r : StepRequest) : Message := default new_Message (message_ r).

(** The message to change, and the request that has it. *)
Definition mutable_message (r : StepRequest) : Message * StepRequest :=
  let msg := default new_Message (message_ r) in (msg, set_request_message (Some msg) (set_present (request_bits r)) r).

Definition release_message (r : StepRequest) : option Message * StepRequest :=
  (message_ r, set_request_message None (clear_present (request_bits r)) r).

Definition set_allocated_message (msg : option Message) (r : StepRequest) : StepRequest :=
  set_request_message msg (if msg then set_present (request_bits r) else clear_present (request_bits r)) r.

Definition StepRequest_Clear (r : StepRequest) : StepRequest :=
  MkStepRequest unknown_empty 0 (request_cached_size r) (if has_message r then message_Clear <$> message_ r else message_ r).

Definition StepRequest_pass (input : bytes) (r : StepRequest) : pass_result StepRequest :=
  let '((tag, known), input) := ReadTagWithCutoff 127 input in
  let unusual := unusual_field request_unknown set_request_unknown tag input r in
  if negb known then unusual
  else match GetTagFieldNumber tag with
       | 1 =>
           if tag =? 10 then
             let '(msg, r) := mutable_message r in
             let '((ok, msg), input) := ReadMessageNoVirtual input msg in
             let r := set_request_message (Some msg) (request_bits r) r in
             if negb ok then Done false r
             else if ExpectAtEnd input then Done true r else Again r input
           else unusual
       | _ => unusual
       end.

Definition StepRequest_MergePartial (input : bytes) (r : StepRequest) : option (bool * StepRequest) :=
  merge_loop StepRequest_pass (Datatypes.S (length input)) input r.

Definition StepRequest_Serialize (r : StepRequest) : bytes :=
  (if has_message r then WriteMessageMaybeToArray 1 (message r) else []) ++
  (if negb (unknown_is_empty (request_unknown r)) then SerializeUnknownFields (request_unknown r) else []).

Definition StepRequest_SerializeToArray (r : StepRequest) : bytes :=
  (if has_message r then WriteMessageNoVirtualToArray 1 (message r) else []) ++
  (if negb (unknown_is_empty (request_unknown r)) then SerializeUnknownFieldsToArray (request_unknown r) else []).

Definition StepRequest_ByteSize (r : StepRequest) : Z * StepRequest :=
  let total_size :=
    if negb (Z.land (request_bits r) 0xff =? 0) then
      if has_message r then 1 + MessageSizeNoVirtual (message r) else 0
    else 0 in
  let total_size :=
    total_size + if negb (unknown_is_empty (request_unknown r)) then ComputeUnknownFieldsSize (request_unknown r) else 0 in
  (total_size, set_request_size total_size r).

Definition StepRequest_MergeFrom (from r : StepRequest) : StepRequest :=
  let r :=
    if negb (Z.land (request_bits from) 0xff =? 0) then
      if has_message from then
        let '(msg, r) := mutable_message r in
        set_request_message (Some (message_MergeFrom (message from) msg)) (request_bits r) r
      else r
    else r in
  set_request_unknown (unknown_MergeFrom (request_unknown from) (request_unknown r)) r.

Definition StepRequest_CopyFrom (from r : StepRequest) : StepRequest := StepRequest_MergeFrom from (StepRequest_Clear r).

Definition StepRequest_IsInitialized (r : StepRequest) : bool := Z.land (request_bits r) 1 =? 1.

Definition StepRequest_Swap (r other : StepRequest) : StepRequest * StepRequest :=
  (MkStepRequest (request_unknown other) (request_bits other) (request_cached_size other) (message_ other),
   MkStepRequest (request_unknown r) (request_bits r) (request_cached_size r) (message_ r)).

(** ** [StepResponse] *)

Record StepResponse := MkStepResponse {
  response_unknown : UnknownFieldSet;
  response_bits : Z;
  response_cached_size : Z;
  code_ : Z;
}.

Definition new_StepResponse : StepResponse := MkStepResponse unknown_empty 0 0 0.

Definition set_response_unknown (u : UnknownFieldSet) (r : StepResponse) : StepResponse :=
  MkStepResponse u (response_bits r) (response_cached_size r) (code_ r).
Definition set_response_size (n : Z) (r : StepResponse) : StepResponse :=
  MkStepResponse (response_unknown r) (response_bits r) n (code_ r).

(** The values of the enum. *)
Definition StatusCode_value (c : StatusCode) : Z :=
  match c with PbOK => 0 | PbStepLocalMsg => 1 | PbStepPeerNotFound => 2 end.

Definition StatusCode_IsValid (value : Z) : bool :=
  match value with 0 | 1 | 2 => true | _ => false end.

Definition has_code (r : StepResponse) : bool := present (response_bits r).

Definition clear_code (r : StepResponse) : StepResponse :=
  MkStepResponse (response_unknown r) (clear_present (response_bits r)) (response_cached_size r) 0.

(** The assertion of [set_code] is that [value] is valid: [None] when it fails. *)
Definition set_code (value : Z) (r : StepResponse) : option StepResponse :=
  if StatusCode_IsValid value
  then Some (MkStepResponse (response_unknown r) (set_present (response_bits r)) (response_cached_size r) value)
  else None.

Definition StepResponse_Clear (r : StepResponse) : StepResponse := MkStepResponse unknown_empty 0 (response_cached_size r) 0.

(** A code that is not in the enum goes to the unknown fields: the [int] becomes a [uint64]. *)
Definition StepResponse_pass (input : bytes) (r : StepResponse) : pass_result StepResponse :=
  let '((tag, known), input) := ReadTagWithCutoff 127 input in
  let unusual := unusual_field response_unknown set_response_unknown tag input r in
  if negb known then unusual
  else match GetTagFieldNumber tag with
       | 1 =>
           if tag =? 8 then
             match ReadPrimitive_ENUM input with
             | None => Done false r
             | Some (value, input) =>
                 let r := if StatusCode_IsValid value then default r (set_code value r)
                          else set_response_unknown (AddVarint 1 (u64 value) (response_unknown r)) r in
                 if ExpectAtEnd input then Done true r else Again r input
             end
           else unusual
       | _ => unusual
       end.

Definition StepResponse_MergePartial (input : bytes) (r : StepResponse) : option (bool * StepResponse) :=
  merge_loop StepResponse_pass (Datatypes.S (length input)) input r.

Definition StepResponse_Serialize (r : StepResponse) : bytes :=
  (if has_code r then WriteEnum 1 (code_ r) else []) ++
  (if negb (unknown_is_empty (response_unknown r)) then SerializeUnknownFields (response_unknown r) else []).

Definition StepResponse_SerializeToArray (r : StepResponse) : bytes :=
  (if has_code r then WriteEnumToArray 1 (code_ r) else []) ++
  (if negb (unknown_is_empty (response_unknown r)) then SerializeUnknownFieldsToArray (response_unknown r) else []).

Definition StepResponse_ByteSize (r : StepResponse) : Z * StepResponse :=
  let total_size :=
    if negb (Z.land (response_bits r) 0xff =? 0) then
      if has_code r then 1 + EnumSize (code_ r) else 0
    else 0 in
  let total_size :=
    total_size + if negb (unknown_is_empty (response_unknown r)) then ComputeUnknownFieldsSize (response_unknown r) else 0 in
  (total_size, set_response_size total_size r).

(** The code of a message is valid, so the assertion of [set_code] holds. *)
Definition StepResponse_MergeFrom (from r : StepResponse) : option StepResponse :=
  r ← if negb (Z.land (response_bits from) 0xff =? 0) then
        if has_code from then set_code (code_ from) r else Some r
      else Some r;
  Some (set_response_unknown (unknown_MergeFrom (response_unknown from) (response_unknown r)) r).

Definition StepResponse_CopyFrom (from r : StepResponse) : option StepResponse := StepResponse_MergeFrom from (StepResponse_Clear r).

Definition StepResponse_IsInitialized (r : StepResponse) : bool := Z.land (response_bits r) 1 =? 1.

Definition StepResponse_Swap (r other : StepResponse) : StepResponse * StepResponse :=
  (MkStepResponse (response_unknown other) (response_bits other) (response_cached_size other) (code_ other),
   MkStepResponse (response_unknown r) (response_bits r) (response_cached_size r) (code_ r)).

(** ** [StatusRequest] *)

Record StatusRequest := MkStatusRequest {
  status_unknown : UnknownFieldSet;
  status_bits : Z;
  status_cached_size : Z;
}.

Definition new_StatusRequest : StatusRequest := MkStatusRequest unknown_empty 0 0.

Definition set_status_unknown (u : UnknownFieldSet) (r : StatusRequest) : StatusRequest := MkStatusRequest u (status_bits r) (status_cached_size r).

Definition StatusRequest_Clear (r : StatusRequest) : StatusRequest := MkStatusRequest unknown_empty 0 (status_cached_size r).

Definition StatusRequest_pass (input : bytes) (r : StatusRequest) : pass_result StatusRequest :=
  let '((tag, _), input) := ReadTagWithCutoff 127 input in
  unusual_field status_unknown set_status_unknown tag input r.

Definition StatusRequest_MergePartial (input : bytes) (r : StatusRequest) : option (bool * StatusRequest) :=
  merge_loop StatusRequest_pass (Datatypes.S (length input)) input r.

Definition StatusRequest_Serialize (r : StatusRequest) : bytes :=
  if negb (unknown_is_empty (status_unknown r)) then SerializeUnknownFields (status_unknown r) else [].

Definition StatusRequest_SerializeToArray (r : StatusRequest) : bytes :=
  if negb (unknown_is_empty (status_unknown r)) then SerializeUnknownFieldsToArray (status_unknown r) else [].

Definition StatusRequest_ByteSize (r : StatusRequest) : Z * StatusRequest :=
  let total_size := if negb (unknown_is_empty (status_unknown r)) then ComputeUnknownFieldsSize (status_unknown r) else 0 in
  (total_size, MkStatusRequest (status_unknown r) (status_bits r) total_size).

Definition StatusRequest_MergeFrom (from r : StatusRequest) : StatusRequest :=
  set_status_unknown (unknown_MergeFrom (status_unknown from) (status_unknown r)) r.

Definition StatusRequest_CopyFrom (from r : StatusRequest) : StatusRequest := StatusRequest_MergeFrom from (StatusRequest_Clear r).

(** The presence bits, of which there are none, stay. *)
Definition StatusRequest_Swap (r other : StatusRequest) : StatusRequest * StatusRequest :=
  (MkStatusRequest (status_unknown other) (status_bits r) (status_cached_size other),
   MkStatusRequest (status_unknown r) (status_bits other) (status_cached_size r)).
End messages.

(** ** The service *)

Section service.
Context {Y : YaraftPb} {M : MemStoreLib Y} {MSG : YaraftMsg} {RAFT : RaftLib M MSG} {WAL : WriteAheadLog Y}.
Context {P : PbRuntime} {S : PbStepRuntime P MSG}.

Inductive rpc_method := MethodStep | MethodStatus.
Inductive any_request := AStepRequest (r : StepRequest) | AStatusRequest (r : StatusRequest).

(** The index of the method a stub calls. *)
Definition stub_index (m : rpc_method) : Z := match m with MethodStep => 0 | MethodStatus => 1 end.

(** The handler of [RaftServiceImpl]: it takes the message out of the request. *)
Definition RaftServiceImpl_Step (request : StepRequest) : Prog ErrorCode Node unit :=
  let '(msg, _) := mutable_message request in begin_call (fun thread => RaftService_Step thread msg).

(** The request the server reads a call of this index into. *)
Definition GetRequestPrototype (index : Z) : result ErrorCode any_request :=
  match index with
  | 0 => Ok (AStepRequest new_StepRequest)
  | 1 => Ok (AStatusRequest new_StatusRequest)
  | _ => Halt FatalLog
  end.

(** A [down_cast] to another type is undefined. *)
Definition CallMethod (index : Z) (request : any_request) : Prog ErrorCode Node unit :=
  match index, request with
  | 0, AStepRequest r => RaftServiceImpl_Step r
  | 1, AStatusRequest _ => begin_call RaftService_Status
  | 0, _ | 1, _ => fun n => (Halt Undefined, n)
  | _, _ => fun n => (Halt FatalLog, n)
  end.

(** When the server has a request, by the documentation of protobuf: its parser succeeds and no
    required field is missing. *)
Definition read_request (index : Z) (input : bytes) : option any_request :=
  match GetRequestPrototype index with
  | Ok (AStepRequest r) =>
      '(ok, r) ← StepRequest_MergePartial input r;
      if (ok : bool) && StepRequest_IsInitialized r then Some (AStepRequest r) else None
  | Ok (AStatusRequest r) =>
      '(ok, r) ← StatusRequest_MergePartial input r;
      if (ok : bool) then Some (AStatusRequest r) else None
  | _ => None
  end.
End service.

(** ** Round trips *)

Section roundtrips.
Context {P : PbRuntime} {PS : PbSpec P} {MSG : YaraftMsg} {S : PbStepRuntime P MSG} {SS : PbStepSpec S}.

(** A request as its operations leave it: its bit says that there is a message, and what a request
    without a message may still hold is an object that was cleared. *)
Definition request_wf (r : StepRequest) : Prop :=
  match message_ r with
  | Some msg => request_bits r = 1 \/ request_bits r = 0 /\ exists old, msg = message_Clear old
  | None => request_bits r = 0
  end.

Lemma request_merge_wf from r : request_wf r -> request_wf (StepRequest_MergeFrom from r).
Proof.
  intros Hr. unfold StepRequest_MergeFrom. destruct (negb _); [|done]. destruct (has_message from); [|done].
  destruct r as [u b c [msg|]]; unfold request_wf in *; cbn in *; [destruct Hr as [->|[-> _]]|subst b]; by left.
Qed.

Lemma request_ops_wf r :
  request_wf r ->
  request_wf new_StepRequest /\ request_wf (clear_message r) /\ request_wf (snd (mutable_message r)) /\
  request_wf (snd (release_message r)) /\ (forall msg, request_wf (set_allocated_message msg r)) /\ request_wf (StepRequest_Clear r) /\
  forall other, StepRequest_Swap r other = (other, r).
Proof.
  destruct r as [u b c [msg|]]; unfold request_wf; cbn; intros Hr; [destruct Hr as [->|[-> Hold]]|subst b];
    split_and!; try done; try (by left); try (by right; eauto); try (by intros []); by intros [?|]; [left|].
Qed.

Lemma request_copy msg r :
  request_wf r -> StepRequest_CopyFrom (set_allocated_message (Some msg) new_StepRequest) r
  = set_request_size (request_cached_size r) (set_allocated_message (Some msg) new_StepRequest).
Proof.
  assert (forall c old, message_MergeFrom msg old = msg ->
    MkStepRequest (unknown_MergeFrom unknown_empty unknown_empty) 1 c (Some (message_MergeFrom msg old))
    = set_request_size c (set_allocated_message (Some msg) new_StepRequest)) as Heq.
  { intros c old ->. by rewrite unknown_merge_empty. }
  destruct r as [u b c [old|]]; unfold request_wf; cbn [message_ request_bits].
  - intros [->|[-> [older ->]]].
    + apply (Heq c (message_Clear old)), message_merge_cleared.
    + apply (Heq c (message_Clear older)), message_merge_cleared.
  - intros ->. apply (Heq c new_Message), message_merge_new.
Qed.

(** Reading the end of the input, by the hint of the stream or by the next tag. *)
Lemma merge_loop_last {A} (pass : bytes -> A -> pass_result A) fuel input m m' :
  pass [] m' = Done true m' -> pass input m = (if ExpectAtEnd [] then Done true m' else Again m' []) -> (1 < fuel)%nat ->
  merge_loop pass fuel input m = Some (true, m').
Proof.
  intros Hend Hpass Hf. destruct fuel as [|[|fuel]]; [lia|lia|]. cbn [merge_loop]. rewrite Hpass.
  destruct (ExpectAtEnd []); [done|]. cbn [merge_loop]. by rewrite Hend.
Qed.

Lemma merge_loop_empty {A} (pass : bytes -> A -> pass_result A) m : pass [] m = Done true m -> merge_loop pass 1 [] m = Some (true, m).
Proof. intros Hend. cbn [merge_loop]. by rewrite Hend. Qed.

Lemma sendable_u64 msg : sendable msg -> is_u64 (len (message_bytes msg)).
Proof. unfold sendable, is_u64. pose proof (len_nonneg (message_bytes msg)). lia. Qed.

Lemma request_end r : StepRequest_pass [] r = Done true r.
Proof. unfold StepRequest_pass. by rewrite ReadTag_end. Qed.
Lemma response_end r : StepResponse_pass [] r = Done true r.
Proof. unfold StepResponse_pass. by rewrite ReadTag_end. Qed.
Lemma status_end r : StatusRequest_pass [] r = Done true r.
Proof. unfold StatusRequest_pass. by rewrite ReadTag_end. Qed.

Lemma request_bytes msg :
  sendable msg -> StepRequest_Serialize (set_allocated_message (Some msg) new_StepRequest)
  = 10 :: EncodeVarint64 (len (message_bytes msg)) ++ message_bytes msg.
Proof.
  intros Hs. unfold StepRequest_Serialize. cbn. rewrite WriteMessage_spec by (done || lia). rewrite unknown_empty_spec. cbn.
  by rewrite app_nil_r.
Qed.

Lemma request_roundtrip msg :
  sendable msg ->
  StepRequest_MergePartial (StepRequest_Serialize (set_allocated_message (Some msg) new_StepRequest)) new_StepRequest
  = Some (true, set_allocated_message (Some msg) new_StepRequest).
Proof.
  intros Hs. rewrite request_bytes by done. unfold StepRequest_MergePartial.
  apply merge_loop_last; [apply request_end| |].
  - pose proof (ReadMessage_spec msg [] Hs) as Hr. rewrite app_nil_r in Hr.
    unfold StepRequest_pass. rewrite ReadTag_spec by lia. destruct (EncodeVarint64 _ ++ _); cbn; by rewrite Hr.
  - pose proof (varint_nonempty _ (sendable_u64 msg Hs)). destruct (EncodeVarint64 _); [done|]. cbn. lia.
Qed.

(** What the parser makes of a code. *)
Definition read_code (v : Z) : StepResponse :=
  if StatusCode_IsValid v then default new_StepResponse (set_code v new_StepResponse)
  else set_response_unknown (AddVarint 1 (u64 v) unknown_empty) new_StepResponse.

Lemma response_read v :
  is_s32 v -> StepResponse_MergePartial (8 :: EncodeVarint64 (u64 v)) new_StepResponse = Some (true, read_code v).
Proof.
  intros Hv. unfold StepResponse_MergePartial. apply merge_loop_last; [apply response_end| |].
  - pose proof (ReadEnum_spec v [] Hv) as Hr. rewrite app_nil_r in Hr.
    unfold StepResponse_pass. rewrite ReadTag_spec by lia. destruct (EncodeVarint64 _); cbn; by rewrite Hr.
  - pose proof (varint_nonempty _ (is_u64_u64 v)). destruct (EncodeVarint64 _); [done|]. cbn. lia.
Qed.

Lemma response_serialize v : is_s32 v -> StepResponse_Serialize (read_code v) = 8 :: EncodeVarint64 (u64 v).
Proof.
  intros Hv. unfold StepResponse_Serialize, read_code, set_code. destruct (StatusCode_IsValid v).
  - transitivity (WriteEnum 1 v); [|by rewrite WriteEnum_spec by (done || lia)].
    cbn. by rewrite unknown_empty_spec, app_nil_r.
  - transitivity (SerializeUnknownFields (AddVarint 1 (u64 v) unknown_empty));
      [|by rewrite AddVarint_bytes by (lia || apply is_u64_u64)]. cbn. by rewrite AddVarint_nonempty.
Qed.

Lemma code_s32 c : is_s32 (StatusCode_value c).
Proof. by destruct c. Qed.
End roundtrips.

(** ** Theorems *)

Section theorems.
Context (P : PbRuntime) (PS : PbSpec P) (MSG : YaraftMsg) (S : PbStepRuntime P MSG) (SS : PbStepSpec S).
Context (Y : YaraftPb) (M : MemStoreLib Y) (RAFT : RaftLib M MSG) (WAL : WriteAheadLog Y) (EI : ErasedIterator) (TC : Toolchain).

(** C34: a call arrives as it was made, whatever the hints of the stream say: the bytes of the
    request a client makes for a message, which both serializers write and [ByteSize] counts, are
    read by the server under the index of the stub into a request that is complete, and the service hands
    exactly this message to the member; a status request likewise; a copy of
    the request into another one, whatever that one held, is the request; under any other index the server
    reads nothing. *)
Theorem step_call_arrives msg (n : Node) :
  sendable msg ->
  let request := set_allocated_message (Some msg) new_StepRequest in
  StepRequest_SerializeToArray request = StepRequest_Serialize request /\
  fst (StepRequest_ByteSize request) = len (StepRequest_Serialize request) /\
  (forall r, request_wf r -> StepRequest_CopyFrom request r = set_request_size (request_cached_size r) request) /\
  (exists r, read_request (stub_index MethodStep) (StepRequest_Serialize request) = Some r /\
     CallMethod (stub_index MethodStep) r n = node_step (RpcStep msg) n) /\
  (exists r, read_request (stub_index MethodStatus) (StatusRequest_Serialize new_StatusRequest) = Some r /\
     CallMethod (stub_index MethodStatus) r n = node_step RpcStatus n) /\
  (forall index input, index <> 0 -> index <> 1 -> read_request index input = None).
Proof.
  intros Hs request. split_and!.
  - unfold StepRequest_SerializeToArray, StepRequest_Serialize. by rewrite WriteMessageToArray_spec, SerializeUnknown_spec.
  - unfold request. rewrite request_bytes by done. unfold StepRequest_ByteSize. cbn [fst set_allocated_message set_request_message
      request_bits request_unknown new_StepRequest has_message message message_ default].
    change (negb (Z.land (set_present 0) 255 =? 0)) with true.
    rewrite MessageSize_spec, unknown_empty_spec, len_cons, len_app, VarintLength_len by (done || by apply sendable_u64).
    change (has_message _) with true. cbn [negb id]. lia.
  - intros r. apply request_copy.
  - exists (AStepRequest request). split; [|done]. unfold read_request. cbn [stub_index GetRequestPrototype].
    unfold request. by rewrite request_roundtrip.
  - exists (AStatusRequest new_StatusRequest). split; [|done]. unfold read_request, StatusRequest_Serialize. cbn [stub_index GetRequestPrototype].
    cbn [status_unknown new_StatusRequest]. rewrite unknown_empty_spec. cbn [negb]. unfold StatusRequest_MergePartial.
    by rewrite (merge_loop_empty _ _ (status_end _)).
  - intros index input H0 H1. unfold read_request. by destruct index as [|[]|].
Qed.

(** C35: the answer to a call is read as it was written: each code of the enum can be set, makes the
    response complete, and comes back; both serializers write the same bytes, [ByteSize] counts
    them and [CopyFrom] copies the response.  A code the enum does not have, from a member of
    another version, is no error of the parser: the response is not complete, and writing it again
    gives the bytes that were read. *)
Theorem step_response_roundtrip :
  (forall c, exists r, set_code (StatusCode_value c) new_StepResponse = Some r /\ StepResponse_IsInitialized r = true /\
     StepResponse_MergePartial (StepResponse_Serialize r) new_StepResponse = Some (true, r) /\
     StepResponse_SerializeToArray r = StepResponse_Serialize r /\
     fst (StepResponse_ByteSize r) = len (StepResponse_Serialize r) /\
     forall r', StepResponse_CopyFrom r r' = Some (set_response_size (response_cached_size r') r)) /\
  (forall v, is_s32 v -> StatusCode_IsValid v = false ->
     exists r, StepResponse_MergePartial (WriteEnum 1 v) new_StepResponse = Some (true, r) /\
       StepResponse_IsInitialized r = false /\ StepResponse_Serialize r = WriteEnum 1 v).
Proof.
  split.
  - intros c. pose proof (code_s32 c) as Hc. pose proof (response_serialize (StatusCode_value c) Hc) as Hw.
    pose proof (response_read (StatusCode_value c) Hc) as Hr. exists (read_code (StatusCode_value c)). rewrite Hw. split_and!.
    + by destruct c.
    + by destruct c.
    + done.
    + rewrite <- Hw. unfold StepResponse_SerializeToArray, StepResponse_Serialize. by rewrite WriteEnumToArray_spec, SerializeUnknown_spec.
    + unfold StepResponse_ByteSize. rewrite len_cons, <- VarintLength_len by apply is_u64_u64. rewrite <- EnumSize_spec by done.
      destruct c; cbn; rewrite unknown_empty_spec; change (has_code _) with true;
        change (negb (Z.land (set_present 0) 255 =? 0)) with true; cbn [negb]; lia.
    + intros r'. destruct c; exact (f_equal (fun u => Some (MkStepResponse u _ _ _)) unknown_merge_empty).
  - intros v Hv Hval. exists (read_code v). rewrite WriteEnum_spec by (done || lia).
    split_and!; [by apply response_read| |by apply response_serialize]. unfold read_code. by rewrite Hval.
Qed.
End theorems.
