(* ===== verification/Reference.v ===== *)
(** * One instance of every external interface

    Concrete functions for the code outside the repository, with proofs that they satisfy the
    laws of [External.v] and [Posix.v].  The witnesses of the theorems are evaluated on them. *)

From S2P Require Import Prelude External Coding Status Posix MemKv Channel TaskQueue Observer Cluster Node.

#[export] Instance ref_host : Host := true.
#[export] Instance ref_status_bool : StatusBool := true.

(** ** Slices *)

#[export] Instance ref_slice : SliceLib := {|
  slice_skip := fun n s => drop (Z.to_nat n) s;
  slice_compare := fun a b => if decide (a = b) then 0 else 1;
|}.

#[export] Instance ref_slice_spec : SliceSpec ref_slice.
Proof.
  split; [done|]. intros a b. simpl. by case_decide.
Qed.

(** ** CRC-32 with the polynomial 0x04C11DB7, bit by bit *)

Definition crc_bit (c : Z) : Z :=
  if Z.odd c then Z.lxor (c ≫ 1) 0xEDB88320 else c ≫ 1.

Definition crc_byte (c b : Z) : Z := Nat.iter 8 crc_bit (Z.lxor c b).

#[export] Instance ref_crc32 : Crc32 := fun bs =>
  u32 (Z.lxor (foldl crc_byte 0xFFFFFFFF bs) 0xFFFFFFFF).

#[export] Instance ref_crc32_spec : Crc32Spec ref_crc32.
Proof. split. intros bs. apply Z.mod_pos_bound. lia. Qed.

(** ** Messages: fields of fixed width, then the payload *)

Definition entry_ok (i t : Z) (d : bytes) : Prop := is_u64 i /\ is_u64 t /\ Forall is_u8 d.
#[export] Instance entry_ok_dec i t d : Decision (entry_ok i t d).
Proof. unfold entry_ok. apply _. Defined.

Record ref_entry := MkRefEntry {
  re_index : Z;
  re_term : Z;
  re_data : bytes;
  re_ok : bool_decide (entry_ok re_index re_term re_data) = true;
}.

Definition mk_entry_opt (i t : Z) (d : bytes) : option ref_entry :=
  match decide (bool_decide (entry_ok i t d) = true) with
  | left H => Some (MkRefEntry i t d H)
  | right _ => None
  end.

Definition ref_new_entry : ref_entry := MkRefEntry 0 0 [] eq_refl.
Definition mk_entry (i t : Z) (d : bytes) : ref_entry := default ref_new_entry (mk_entry_opt i t d).

Definition entry_serialize (e : ref_entry) : bytes :=
  EncodeFixed64 (re_index e) ++ EncodeFixed64 (re_term e) ++ re_data e.

Definition entry_parse (b : bytes) : ref_entry :=
  mk_entry (le_value (take 8 b)) (le_value (take 8 (drop 8 b))) (drop 16 b).

Lemma mk_entry_id e : mk_entry (re_index e) (re_term e) (re_data e) = e.
Proof.
  destruct e as [i t d H]. unfold mk_entry, mk_entry_opt. simpl.
  destruct (decide _) as [H'|]; [|done]. simpl. f_equal. apply proof_irrel.
Qed.

Lemma entry_fields e : is_u64 (re_index e) /\ is_u64 (re_term e) /\ Forall is_u8 (re_data e).
Proof. destruct e as [i t d H]. exact (bool_decide_eq_true_1 _ H). Qed.

Lemma length_Fixed64 v : length (EncodeFixed64 v) = 8%nat.
Proof. by rewrite EncodeFixed64_le, length_le_bytes. Qed.

Lemma value_Fixed64 v : is_u64 v -> le_value (EncodeFixed64 v) = v.
Proof. intros Hv. rewrite EncodeFixed64_le, le_value_le_bytes. by apply Z.mod_small. Qed.

Lemma two_fields a b d :
  is_u64 a -> is_u64 b ->
  let s := EncodeFixed64 a ++ EncodeFixed64 b ++ d in
  le_value (take 8 s) = a /\ le_value (take 8 (drop 8 s)) = b /\ drop 16 s = d.
Proof.
  intros Ha Hb. cbv zeta. pose proof (length_Fixed64 a) as La. pose proof (length_Fixed64 b) as Lb.
  change 16%nat with (8 + 8)%nat. rewrite <- drop_drop, take_app_length', drop_app_length' by done.
  rewrite take_app_length', drop_app_length', !value_Fixed64 by done. done.
Qed.

#[export] Instance ref_entry_proto : Proto ref_entry := {|
  ByteSize := fun e => len (entry_serialize e);
  SerializeToArray := entry_serialize;
  ParseFromArray := entry_parse;
|}.

#[export] Instance ref_entry_proto_spec : ProtoSpec ref_entry ref_entry_proto.
Proof.
  split; [done|..]; intros e; destruct (entry_fields e) as (Hi & Ht & Hd).
  - change (Forall is_u8 (entry_serialize e)). unfold entry_serialize. rewrite !EncodeFixed64_le.
    apply Forall_app; split; [apply le_bytes_u8|]. by apply Forall_app; split; [apply le_bytes_u8|].
  - change (entry_parse (entry_serialize e) = e). unfold entry_parse, entry_serialize.
    destruct (two_fields (re_index e) (re_term e) (re_data e)) as (-> & -> & ->); [done..|].
    apply mk_entry_id.
Qed.

Definition hard_state_ok (t v : Z) (c : option Z) : Prop :=
  is_u64 t /\ is_u64 v /\ is_u64 (default 0 c).
#[export] Instance hard_state_ok_dec t v c : Decision (hard_state_ok t v c).
Proof. unfold hard_state_ok. apply _. Defined.

Record ref_hard_state := MkRefHardState {
  rh_term : Z;
  rh_vote : Z;
  rh_commit : option Z;
  rh_ok : bool_decide (hard_state_ok rh_term rh_vote rh_commit) = true;
}.

Definition ref_new_hard_state : ref_hard_state := MkRefHardState 0 0 None eq_refl.
Definition mk_hard_state (t v : Z) (c : option Z) : ref_hard_state :=
  match decide (bool_decide (hard_state_ok t v c) = true) with
  | left H => MkRefHardState t v c H
  | right _ => ref_new_hard_state
  end.

Definition hard_state_serialize (h : ref_hard_state) : bytes :=
  EncodeFixed64 (rh_term h) ++ EncodeFixed64 (rh_vote h) ++
  match rh_commit h with Some c => EncodeFixed64 c | None => [] end.

Definition hard_state_parse (b : bytes) : ref_hard_state :=
  mk_hard_state (le_value (take 8 b)) (le_value (take 8 (drop 8 b)))
    (match drop 16 b with [] => None | c => Some (le_value c) end).

#[export] Instance ref_hard_state_proto : Proto ref_hard_state := {|
  ByteSize := fun h => len (hard_state_serialize h);
  SerializeToArray := hard_state_serialize;
  ParseFromArray := hard_state_parse;
|}.

Lemma hard_state_fields h :
  is_u64 (rh_term h) /\ is_u64 (rh_vote h) /\ is_u64 (default 0 (rh_commit h)).
Proof. destruct h as [t v c H]. exact (bool_decide_eq_true_1 _ H). Qed.

#[export] Instance ref_hard_state_proto_spec : ProtoSpec ref_hard_state ref_hard_state_proto.
Proof.
  split; [done|..]; intros h; destruct (hard_state_fields h) as (Ht & Hv & Hc).
  - change (Forall is_u8 (hard_state_serialize h)). unfold hard_state_serialize. rewrite !EncodeFixed64_le.
    apply Forall_app; split; [apply le_bytes_u8|]. apply Forall_app; split; [apply le_bytes_u8|].
    destruct (rh_commit h); [|done]. rewrite EncodeFixed64_le. apply le_bytes_u8.
  - change (hard_state_parse (hard_state_serialize h) = h). unfold hard_state_parse, hard_state_serialize.
    destruct (two_fields (rh_term h) (rh_vote h)
      (match rh_commit h with Some c => EncodeFixed64 c | None => [] end)) as (-> & -> & ->); [done..|].
    assert (match match rh_commit h with Some c => EncodeFixed64 c | None => [] end with
            | [] => None | c => Some (le_value c) end = rh_commit h) as ->.
    { destruct (rh_commit h) as [c|]; [|done]. simpl in Hc.
      pose proof (value_Fixed64 c Hc). pose proof (length_Fixed64 c).
      destruct (EncodeFixed64 c); [done|]. by f_equal. }
    destruct h as [t v c H]. unfold mk_hard_state. simpl.
    destruct (decide _) as [H'|]; [|done]. f_equal. apply proof_irrel.
Qed.

#[export] Instance ref_yaraft : YaraftPb := {|
  Entry := ref_entry;
  HardState := ref_hard_state;
  entry_index := re_index;
  entry_term := re_term;
  new_Entry := ref_new_entry;
  hard_state_commit := rh_commit;
|}.

#[export] Instance ref_yaraft_spec : YaraftPbSpec ref_yaraft.
Proof. split; apply _. Qed.

(** ** The memory store: a vector of entries and the last hard state *)

Record ref_store := MkRefStore { rs_entries : list ref_entry; rs_hard_state : option ref_hard_state }.

#[export] Instance ref_mem_store : MemStoreLib ref_yaraft := {|
  MemoryStorage := ref_store;
  new_MemoryStorage := MkRefStore [] None;
  ms_Append := fun m e => MkRefStore (rs_entries m ++ [e]) (rs_hard_state m);
  ms_SetHardState := fun m h => MkRefStore (rs_entries m) (Some h);
  ms_entries := rs_entries;
  ms_with_entries := fun l m => MkRefStore l (rs_hard_state m);
|}.

#[export] Instance ref_mem_store_spec : MemStoreSpec ref_mem_store.
Proof. split; [done| |done]. by intros []. Qed.

(** ** Directories *)

(** What follows the prefix [p] of [s]. *)
Fixpoint strip_prefix (p s : string) : option string :=
  match p, s with
  | EmptyString, _ => Some s
  | String a p, String b s => if ascii_dec a b then strip_prefix p s else None
  | _, _ => None
  end.

Lemma strip_prefix_spec p s n : strip_prefix p s = Some n <-> s = p +:+ n.
Proof.
  revert s. induction p as [|a p IH]; intros s; simpl.
  - split; [by intros [= ->]|by intros ->].
  - destruct s as [|b s]; [by split|].
    destruct (ascii_dec a b) as [->|Hne].
    + rewrite IH. split; [by intros ->|]. by intros [= ->].
    + split; [done|]. cbn. intros [=]. congruence.
Qed.

#[export] Instance ref_boost_fs : BoostFs := {|
  directory_names := fun o dir =>
    filter (fun n => bool_decide ("/"%char ∈ String.list_ascii_of_string n) = false)
      (remove_dups (omap (strip_prefix (dir +:+ "/"))
        (elements (dom (os_files o)) ++ elements (os_dirs o))));
|}.

Lemma string_app_assoc (a b c : string) : (a +:+ b) +:+ c = a +:+ (b +:+ c).
Proof. induction a as [|x a IH]; [done|]. by apply (f_equal (String x)). Qed.

#[export] Instance ref_boost_fs_spec : BoostFsSpec ref_boost_fs.
Proof.
  split.
  - intros o dir name. cbn. rewrite list_elem_of_filter, elem_of_remove_dups, list_elem_of_omap.
    rewrite bool_decide_eq_false. apply and_iff_compat_l. unfold path_join.
    setoid_rewrite strip_prefix_spec. setoid_rewrite string_app_assoc.
    setoid_rewrite elem_of_app. setoid_rewrite elem_of_elements. setoid_rewrite elem_of_dom.
    naive_solver.
  - intros o dir. cbn. apply NoDup_filter, NoDup_remove_dups.
Qed.

(** ** Path functions of the key-value store *)

Definition is_space (b : Z) : bool := (b =? 32) || ((9 <=? b) && (b <=? 13)).

Fixpoint trim_left (s : bytes) : bytes :=
  match s with
  | b :: s' => if is_space b then trim_left s' else s
  | [] => []
  end.

Fixpoint split_on (sep : Z) (s : bytes) : list bytes :=
  match s with
  | [] => [[]]
  | b :: s =>
      if b =? sep then [] :: split_on sep s
      else match split_on sep s with
           | seg :: segs => (b :: seg) :: segs
           | [] => [[b]]
           end
  end.

#[export] Instance ref_kv_lib : KvLib := {|
  slice_TrimSpace := fun s => reverse (trim_left (reverse (trim_left s)));
  boost_split := split_on;
  slice_of_null := Some [];
|}.

Lemma split_on_nonempty sep s : split_on sep s <> [].
Proof. destruct s as [|b s]; cbn; [done|]. by repeat case_match. Qed.

#[export] Instance ref_kv_lib_spec : KvLibSpec ref_kv_lib.
Proof.
  split; intros sep s; cbn; [| |apply split_on_nonempty].
  - induction s as [|b s IH]; [done|]. cbn. pose proof (split_on_nonempty sep s) as Hne.
    destruct (Z.eqb_spec b sep) as [->|]; destruct (split_on sep s) as [|seg [|seg' segs]]; try done;
      cbn in *; by rewrite <- IH.
  - induction s as [|b s IH]; cbn; [by repeat constructor; apply not_elem_of_nil|].
    destruct (Z.eqb_spec b sep) as [->|Hb]; [constructor; [apply not_elem_of_nil|done]|].
    destruct IH as [|seg segs Hseg IH]; repeat constructor; try done;
      by rewrite not_elem_of_cons; split; [|done || apply not_elem_of_nil].
Qed.

(** ** A state machine: a leader that commits what its peer acknowledges

    [Propose] appends an entry, a message to the leader carries the index the peer has stored and one
    to a follower the index of a new entry, and a [Ready] holds the new entries, a message for them
    and the new commit index. *)

Record ref_message := MkRefMessage { rm_to : Z; rm_index : Z }.

#[export] Instance ref_msg : YaraftMsg := {|
  Message := ref_message;
  message_to := rm_to;
  ReadyRest := unit;
|}.

Record ref_node := MkRefNode {
  rn_id : Z;
  rn_leads : bool;
  rn_last : Z;
  rn_commit : Z;
  rn_told : Z;
  rn_unsent : list ref_entry;
}.

Definition ref_ready (n : ref_node) : option Ready :=
  if bool_decide (rn_unsent n = []) && (rn_commit n =? rn_told n) then None
  else Some (MkReady ref_yaraft ref_msg (if rn_leads n then rn_id n else 0)
               (if bool_decide (rn_unsent n = []) then [] else [MkRefMessage 2 (rn_last n)])
               (if rn_commit n =? rn_told n then None else Some (mk_hard_state 1 0 (Some (rn_commit n))))
               (rn_unsent n) tt).

(** Member 1 leads. *)
#[export] Instance ref_raft : RaftLib ref_mem_store ref_msg := {|
  RawNode := ref_node;
  new_RawNode := fun conf ms => (MkRefNode (conf_id conf) (conf_id conf =? 1) 0 0 0 [], ms);
  rn_Id := rn_id;
  rn_IsLeader := rn_leads;
  rn_LeaderHint := fun n => 1;
  rn_CurrentTerm := fun n => 1;
  rn_LastIndex := fun s => rn_last (fst s);
  rn_Tick := fun s => s;
  rn_Step := fun m s =>
    if bool_decide (rm_index m = 0) then (Some (OtherYaraftError 9), s)
    else if rn_leads (fst s) then
      (None, (MkRefNode (rn_id (fst s)) true (rn_last (fst s)) (rm_index m) (rn_told (fst s)) (rn_unsent (fst s)), snd s))
    else
      (None, (MkRefNode (rn_id (fst s)) false (rm_index m) (rn_commit (fst s)) (rn_told (fst s))
                (rn_unsent (fst s) ++ [mk_entry (rm_index m) 1 []]), snd s));
  rn_Propose := fun log s =>
    let i := rn_last (fst s) + 1 in
    (None, (MkRefNode (rn_id (fst s)) (rn_leads (fst s)) i (rn_commit (fst s)) (rn_told (fst s))
              (rn_unsent (fst s) ++ [mk_entry i 1 log]), snd s));
  rn_GetReady := fun s =>
    (ref_ready (fst s),
     (MkRefNode (rn_id (fst s)) (rn_leads (fst s)) (rn_last (fst s)) (rn_commit (fst s)) (rn_commit (fst s)) [], snd s));
  rd_Advance := fun rd ms => foldl ms_Append ms (entries rd);
|}.

(** A compiler and a library on which the undefined corners do what one hopes. *)
#[export] Instance ref_erased_iterator : ErasedIterator := true.
#[export] Instance ref_toolchain : Toolchain := {| channel_built_in_place := true; async_starts_thread := true |}.

(** A log that keeps what it is given. *)
#[export] Instance ref_wal : WriteAheadLog ref_yaraft := {|
  wal_state := list (list ref_entry * option ref_hard_state);
  wal_Write := fun es hs => modify (fun w => w ++ [(es, hs)]);
|}.
