(* ===== verification/Durability.v ===== *)
(** * Durability of the write-ahead log

    The log as its users see it: a list of entries, appended to by [Write] and given back by
    [Recover].  [run_ops] is any sequence of calls on a manager, restarts of the process
    included; [spec_ops] is the same sequence on the list. *)

From S2P Require Import Prelude External Coding Status Posix Segment LogWriter ReadSegment LogManager LogSpec Reference.

Section ops.
Context {HOST : Host} {CRC : Crc32} {SL : SliceLib} {Y : YaraftPb} {M : MemStoreLib Y}.
Context {SB : StatusBool} {FS : BoostFs}.

Inductive log_op := OpWrite (es : list Entry) | OpSync | OpClose | OpReopen.

(** A new process opens the log: no descriptor survives, and the manager is a new one. *)
Definition reopen : Prog ErrorCode (os * LogManager) (option MemoryStorage) := fun '(o, m) =>
  match Default (options_ m) None (with_fds ∅ o) with
  | (Ok (m', ms), o') => (Ok ms, (o', m'))
  | (Err e, o') => (Err e, (o', m))
  | (Halt h, o') => (Halt h, (o', m))
  end.

(** Starts that end with an error, up to [tries] of them, and one more. *)
Fixpoint reopen_tries (tries : nat) : Prog ErrorCode (os * LogManager) (option MemoryStorage) := fun w =>
  match tries, reopen w with
  | S tries, (Err _, w') => reopen_tries tries w'
  | _, rw => rw
  end.

(** One call, and what it recovered. *)
Definition run_op (op : log_op) : Prog ErrorCode (os * LogManager) (list (option MemoryStorage)) :=
  match op with
  | OpWrite es => _ ← Write es None; mret []
  | OpSync => _ ← LogManager_Sync; mret []
  | OpClose => _ ← LogManager_Close; mret []
  | OpReopen => ms ← reopen; mret [ms]
  end.

(** The stores the restarts recovered, in order. *)
Fixpoint run_ops (ops : list log_op) : Prog ErrorCode (os * LogManager) (list (option MemoryStorage)) :=
  match ops with
  | [] => mret []
  | op :: ops => outs ← run_op op; outs' ← run_ops ops; mret (outs ++ outs')
  end.

(** ** The abstract log *)

Definition store_of (log : list Entry) : option MemoryStorage :=
  match log with [] => None | _ => Some (foldl ms_Append new_MemoryStorage log) end.

Definition spec_op (op : log_op) (log : list Entry) : list (option MemoryStorage) * list Entry :=
  match op with
  | OpWrite es => ([], log ++ es)
  | OpSync | OpClose => ([], log)
  | OpReopen => ([store_of log], log)
  end.

Fixpoint spec_ops (ops : list log_op) (log : list Entry) : list (option MemoryStorage) * list Entry :=
  match ops with
  | [] => ([], log)
  | op :: ops =>
      let '(outs, log) := spec_op op log in
      let '(outs', log) := spec_ops ops log in (outs ++ outs', log)
  end.

(** What the writes of a sequence may add to the disk, and that each fits a batch. *)
Definition op_cost (op : log_op) : Z := match op with OpWrite es => write_cost es | _ => 0 end.

Fixpoint ops_cost (ops : list log_op) : Z :=
  match ops with
  | [] => 0
  | op :: ops => op_cost op + ops_cost ops
  end.

Definition ops_small (ops : list log_op) : Prop :=
  Forall (fun op => match op with OpWrite es => 8 + len (entries_bytes es) < 2 ^ 32 | _ => True end) ops.
End ops.

Section refinement.
Context {HOST : Host} {CRC : Crc32} {CS : Crc32Spec CRC} {SL : SliceLib} {SS : SliceSpec SL}.
Context {Y : YaraftPb} {YS : YaraftPbSpec Y} {M : MemStoreLib Y}.
Context {SB : StatusBool} {FS : BoostFs} {FSS : BoostFsSpec FS}.

(** The abstraction relation: a manager and a disk that hold the entries [log]. *)
Definition log_rep (options : WriteAheadLogOptions) (o : os) (m : LogManager) (log : list Entry)
    (size : Z) : Prop :=
  exists segs, log_inv o m segs /\ all_written segs /\ log_entries segs = log /\ log_size segs <= size /\
    options_ m = options /\ empty_ m = false.

(** What is left of it without a process. *)
Definition log_on_disk (options : WriteAheadLogOptions) (o : os) (log : list Entry) (size : Z) : Prop :=
  exists segs, log_files o (log_dir options) segs /\ all_written segs /\ log_entries segs = log /\ log_size segs <= size.

Lemma log_rep_on_disk options o m log size :
  log_rep options o m log size -> log_on_disk options o log size /\ options_ m = options.
Proof.
  intros (segs & [[Hf _] _] & Hall & He & Hsz & Ho & _). split; [|done]. exists segs. rewrite <- Ho. by split_and!.
Qed.

Lemma replay_entries es ms : replay ms (batch_records es) = foldl ms_Append ms es.
Proof. revert ms. induction es as [|e es IH]; intros ms; [done|]. apply IH. Qed.

Lemma recovered_store_of segs :
  all_written segs -> recovered_store segs = store_of (log_entries segs).
Proof.
  intros Hall. destruct segs as [|s segs]; [done|]. unfold recovered_store, log_records.
  rewrite replay_entries. apply Forall_cons in Hall as [Hs _].
  destruct (log_entries (s :: segs)) eqn:He; [|done].
  unfold log_entries in He. cbn in He. by apply app_nil in He as [? _].
Qed.

(** How a call may end: as promised, badly because of a fault of the environment, or, if [U] holds,
    in undefined behaviour. *)
Definition op_post {A} (o : os) (U : Prop) (P : A -> os * LogManager -> Prop) (r : result ErrorCode A)
    (st : os * LogManager) : Prop :=
  os_script (fst st) `suffix_of` os_script o /\
  match r with
  | Ok a => P a st
  | Err e => e = IOError /\ os_script o <> []
  | Halt h => (h = FatalLog /\ os_script o <> []) \/ (h = Undefined /\ U)
  end.

Lemma sync_rep options o m log size :
  log_rep options o m log size ->
  wp LogManager_Sync (o, m) (op_post o False (fun _ st => log_rep options (fst st) (snd st) log size)).
Proof.
  intros (segs & Hinv & Hrest). unfold LogManager_Sync, get_manager. wp_steps.
  destruct (current_ m) as [w|] eqn:Hcur; [|apply wp_ret; split; [done|by exists segs]].
  eapply wp_on_current; [done|]. unfold LogWriter_Sync, on_file, Sync, this. wp_steps.
  assert (pending_sync_ (file_ w) = false) as Hp.
  { destruct Hinv as [_ Hc]. rewrite Hcur in Hc. by destruct Hc as (? & ? & ? & _ & _ & _ & []). }
  rewrite Hp. apply wp_ret. split; [done|]. cbn. exists segs.
  assert (set_current_ (Some (set_file_ (file_ w) w)) m = m) as ->; [|done].
  destruct m, w. cbn in *. by subst.
Qed.

Lemma close_rep options o m log size :
  log_rep options o m log size ->
  wp LogManager_Close (o, m) (op_post o False (fun _ st => log_rep options (fst st) (snd st) log size)).
Proof.
  intros (segs & Hinv & Hall & He & Hsz & Hopt & Hemp). unfold LogManager_Close, get_manager. wp_steps.
  destruct (current_ m) as [w|] eqn:Hcur; [|apply wp_ret; split; [done|by exists segs]].
  eapply wp_mono; [by apply finishCurrentWriter_spec|].
  intros r [o' m'] (_ & _ & Hs & Hr). split; [done|]. destruct r; [|done|by left].
  destruct Hr as [-> Hinv']. by exists segs.
Qed.

Lemma write_rep options o m log size es :
  log_rep options o m log size -> fresh_room m ->
  8 + len (entries_bytes es) < 2 ^ 32 -> size + write_cost es < 2 ^ 62 ->
  wp (Write es None) (o, m)
    (op_post o (~ has_room m) (fun _ st => log_rep options (fst st) (snd st) (log ++ es) (size + write_cost es))).
Proof.
  intros (segs & Hinv & Hall & He & Hsz & Hopt & Hemp) Hfresh H32 H62.
  eapply wp_mono; [apply (Write_spec o m segs es); done || lia|].
  intros r [o' m'] (_ & Hs & Hr). split; [done|]. destruct r; [|done|naive_solver].
  destruct Hr as (segs' & ? & ? & _ & He' & ? & ? & ? & _). exists segs'. cbn [fst snd].
  split_and!; try done; [auto|by rewrite He', He|lia|congruence|congruence].
Qed.

Lemma Default_spec options o segs :
  log_files o (log_dir options) segs -> all_written segs ->
  wp (Default options None) o (fun r o' =>
    os_script o' `suffix_of` os_script o /\
    match r with
    | Ok (m, ms) => ms = recovered_store segs /\ log_inv o' m segs /\ options_ m = options /\
        current_ m = None /\ empty_ m = false
    | Err e => e = IOError /\ fault_used o o' /\ log_files o' (log_dir options) segs
    | Halt _ => False
    end).
Proof.
  intros Hf Hall. pose proof (Recover_spec options o segs Hf Hall) as Hrec. unfold wp, Default in *.
  destruct (Recover options (o, MkRecovery None None)) as [r [o' rc]]. cbn in Hrec.
  destruct Hrec as (_ & Hs & Hr). destruct r as [[]|e|h]; [|by cbn|done].
  destruct Hr as (m & -> & Hinv & ? & ? & ? & ?). cbn. split_and!; try done.
Qed.

(** A start finds the log, or an error of a call stops it and the log stays as it is. *)
Lemma reopen_on_disk options o m log size :
  log_on_disk options o log size -> options_ m = options ->
  wp reopen (o, m) (fun r st => os_script (fst st) `suffix_of` os_script o /\
    match r with
    | Ok ms => ms = store_of log /\ log_rep options (fst st) (snd st) log size
    | Err e => e = IOError /\ fault_used o (fst st) /\ log_on_disk options (fst st) log size /\ snd st = m
    | Halt _ => False
    end).
Proof.
  intros (segs & Hf & Hall & He & Hsz) Hopt.
  pose proof (log_files_env o (with_fds ∅ o) _ _ Hf eq_refl (or_introl eq_refl)) as Hf0.
  pose proof (Default_spec options _ segs Hf0 Hall) as Hd. unfold wp, reopen in *. rewrite Hopt.
  destruct (Default options None (with_fds ∅ o)) as [r o']. cbn in Hd. destruct Hd as [Hs Hr].
  destruct r as [[m' ms]|e|h]; cbn; [| |done]; (split; [done|]).
  - destruct Hr as (-> & Hinv' & Ho' & _ & Hemp').
    split; [rewrite recovered_store_of by done; by rewrite He|by exists segs].
  - destruct Hr as (-> & Hu & Hf'). split_and!; [done|done| |done]. by exists segs.
Qed.

Lemma reopen_recovers options o m log size :
  log_rep options o m log size ->
  wp reopen (o, m) (fun r st => os_script (fst st) `suffix_of` os_script o /\
    match r with
    | Ok ms => ms = store_of log /\ log_rep options (fst st) (snd st) log size
    | Err e => e = IOError /\ os_script o <> []
    | Halt _ => False
    end).
Proof.
  intros [Hd Ho]%log_rep_on_disk. eapply wp_mono; [by eapply reopen_on_disk|]. intros [ms|e|h] st [Hs Hr]; (split; [done|]); [done| |done].
  destruct Hr as (-> & Hu%fault_used_ne & _). done.
Qed.

Lemma reopen_tries_on_disk tries options o m log size r st :
  log_on_disk options o log size -> options_ m = options -> reopen_tries tries (o, m) = (r, st) ->
  match r with
  | Ok ms => ms = store_of log /\ log_rep options (fst st) (snd st) log size
  | Err e => e = IOError /\ (tries < length (os_script o))%nat
  | Halt _ => False
  end.
Proof.
  revert o. induction tries as [|tries IH]; intros o Hd Ho; pose proof (reopen_on_disk options o m log size Hd Ho) as Hw; unfold wp in Hw;
    cbn [reopen_tries]; destruct (reopen (o, m)) as [[ms|e|h] [o1 m1]]; cbn [fst snd] in Hw.
  - intros [= <- <-]. apply Hw.
  - intros [= <- <-]. destruct Hw as (_ & -> & Hu & _). unfold fault_used in Hu. split; [done|lia].
  - by destruct Hw.
  - intros [= <- <-]. apply Hw.
  - destruct Hw as (_ & -> & Hu & Hd1 & ->). intros Ht. specialize (IH o1 Hd1 Ho Ht). destruct r; [done| |done].
    unfold fault_used in Hu. split; [apply IH|lia].
  - by destruct Hw.
Qed.

Lemma reopen_rep options o m log size :
  log_rep options o m log size ->
  wp reopen (o, m) (op_post o False (fun ms st =>
    ms = store_of log /\ log_rep options (fst st) (snd st) log size)).
Proof. intros Hrep. eapply wp_mono; [by apply reopen_recovers|]. intros [ms|e|h] st [Hs Hr]; by split. Qed.

Lemma op_post_seq {A} o o1 U (P : A -> os * LogManager -> Prop) r st :
  os_script o1 `suffix_of` os_script o -> op_post o1 U P r st -> op_post o U P r st.
Proof.
  intros Hs [Hs' Hr]. split; [by etrans|].
  assert (os_script o1 <> [] -> os_script o <> []) as Hne.
  { intros H1 H2. rewrite H2 in Hs. by apply suffix_nil_inv in Hs. }
  destruct r; naive_solver.
Qed.

(** A call and then the rest of the sequence. *)
Lemma wp_op_seq {A B} (p : Prog ErrorCode (os * LogManager) A)
    (k : A -> Prog ErrorCode (os * LogManager) B) o m (U : Prop)
    (P : A -> os * LogManager -> Prop) (Q : B -> os * LogManager -> Prop) :
  wp p (o, m) (op_post o U P) ->
  (forall a o1 m1, P a (o1, m1) -> wp (k a) (o1, m1) (op_post o1 U Q)) ->
  wp (p ≫= k) (o, m) (op_post o U Q).
Proof.
  intros Hp Hk. wp_step. eapply wp_mono; [exact Hp|]. intros [a|e|h] [o1 m1] [Hs Hr]; [|by split..].
  eapply wp_mono; [by apply Hk|]. intros r st. by apply op_post_seq.
Qed.

Lemma op_post_mono {A} o (U U' : Prop) (P P' : A -> os * LogManager -> Prop) r st :
  (U -> U') -> (forall a st, P a st -> P' a st) -> op_post o U P r st -> op_post o U' P' r st.
Proof. intros HU HP [Hs Hr]. split; [done|]. destruct r; naive_solver. Qed.

(** A call of the log that is a write without room for an entry in the current segment. *)
Definition write_without_room (op : log_op) (m : LogManager) : Prop := exists es, op = OpWrite es /\ ~ has_room m.

Lemma run_op_rep options op o m log size :
  log_rep options o m log size -> fresh_room m ->
  match op with OpWrite es => 8 + len (entries_bytes es) < 2 ^ 32 | _ => True end -> size + op_cost op < 2 ^ 62 ->
  wp (run_op op) (o, m) (op_post o (write_without_room op m) (fun outs st =>
    outs = fst (spec_op op log) /\ log_rep options (fst st) (snd st) (snd (spec_op op log)) (size + op_cost op))).
Proof.
  intros Hrep Hfresh Hsm Hsz. destruct op as [es| | |]; cbn [run_op spec_op op_cost] in *; rewrite ?Z.add_0_r.
  - eapply wp_op_seq.
    + eapply wp_mono; [by apply write_rep|]. intros r st Hp. eapply op_post_mono; [|by intros a st' H; exact H|exact Hp].
      intros Hno. by exists es.
    + intros [] o1 m1 H1. apply wp_ret. by split.
  - eapply wp_op_seq; [eapply wp_mono; [by apply sync_rep|]|].
    + intros r st Hp. by eapply op_post_mono; [|by intros a st' H; exact H|exact Hp].
    + intros [] o1 m1 H1. apply wp_ret. by split.
  - eapply wp_op_seq; [eapply wp_mono; [by apply close_rep|]|].
    + intros r st Hp. by eapply op_post_mono; [|by intros a st' H; exact H|exact Hp].
    + intros [] o1 m1 H1. apply wp_ret. by split.
  - eapply wp_op_seq; [eapply wp_mono; [by apply reopen_rep|]|].
    + intros r st Hp. by eapply op_post_mono; [|by intros a st' H; exact H|exact Hp].
    + intros ms o1 m1 [-> H1]. apply wp_ret. by split.
Qed.

(** The first call of a sequence that did not return OK: up to it the log was the list, and it has
    a fault of the environment, or is a write that finds no room. *)
Definition first_failure (options : WriteAheadLogOptions) (ops : list log_op) (o : os) (m : LogManager) (log : list Entry)
    (size : Z) {A} (r : result ErrorCode A) : Prop :=
  exists ops1 op ops2 o1 m1,
    ops = ops1 ++ op :: ops2 /\ run_ops ops1 (o, m) = (Ok (fst (spec_ops ops1 log)), (o1, m1)) /\
    log_rep options o1 m1 (snd (spec_ops ops1 log)) (size + ops_cost ops1) /\
    match r with
    | Ok _ => False
    | Err e => e = IOError /\ os_script o1 <> []
    | Halt h => (h = FatalLog /\ os_script o1 <> []) \/ (h = Undefined /\ write_without_room op m1)
    end.

Lemma first_failure_cons {A} options op ops o m log size o1 m1 (r : result ErrorCode A) :
  run_op op (o, m) = (Ok (fst (spec_op op log)), (o1, m1)) ->
  first_failure options ops o1 m1 (snd (spec_op op log)) (size + op_cost op) r ->
  first_failure options (op :: ops) o m log size r.
Proof.
  intros Hop (ops1 & op1 & ops2 & o2 & m2 & -> & Hrun & Hrep & Hr). exists (op :: ops1), op1, ops2, o2, m2.
  cbn [spec_ops ops_cost run_ops]. rewrite Z.add_assoc. destruct (spec_op op log) as [outs log1]. cbn [fst snd] in *.
  destruct (spec_ops ops1 log1) as [outs' log2]. cbn [fst snd] in *. split_and!; [done| |done|done].
  erewrite run_bind_ok by exact Hop. by erewrite run_bind_ok by exact Hrun.
Qed.

Lemma ops_cost_nonneg ops : 0 <= ops_cost ops.
Proof. induction ops as [|[es| | |] ops IH]; cbn; try lia. pose proof (write_cost_nonneg es). lia. Qed.

Lemma run_ops_refines options ops o m log size :
  log_rep options o m log size -> fresh_room m -> ops_small ops -> size + ops_cost ops < 2 ^ 62 ->
  wp (run_ops ops) (o, m) (fun r st =>
    match r with
    | Ok outs => outs = fst (spec_ops ops log) /\ log_rep options (fst st) (snd st) (snd (spec_ops ops log)) (size + ops_cost ops)
    | _ => first_failure options ops o m log size r
    end).
Proof.
  revert o m log size. induction ops as [|op ops IH]; intros o m log size Hrep Hfresh Hsm Hsz.
  { apply wp_ret. cbn. by rewrite Z.add_0_r. }
  apply Forall_cons in Hsm as [Hop Hsm]. cbn [run_ops ops_cost] in *. pose proof (ops_cost_nonneg ops).
  pose proof (run_op_rep options op o m log size Hrep Hfresh Hop ltac:(lia)) as Hw. wp_step. unfold wp at 1. unfold wp in Hw.
  destruct (run_op op (o, m)) as [r [o1 m1]] eqn:Hrun. cbn [fst snd] in Hw |- *. destruct Hw as [_ Hr].
  destruct r as [outs|e|h].
  - destruct Hr as [-> Hrep1].
    assert (fresh_room m1) as Hf1.
    { destruct Hrep as (? & _ & _ & _ & _ & Ho & _), Hrep1 as (? & _ & _ & _ & _ & Ho1 & _). cbn [snd] in Ho1. unfold fresh_room in *. by rewrite Ho1, <- Ho. }
    wp_step. eapply wp_mono; [apply IH; [exact Hrep1|done|done|lia]|]. intros [outs'|e|h] st Hr.
    + apply wp_ret. cbn [spec_ops]. rewrite Z.add_assoc. destruct (spec_op op log) as [outs log1]. cbn [fst snd] in *.
      destruct (spec_ops ops log1) as [? log2]. cbn [fst snd] in *. by destruct Hr as [-> ?].
    + by eapply first_failure_cons.
    + by eapply first_failure_cons.
  - exists [], op, ops, o, m. cbn [ops_cost spec_ops fst snd]. rewrite Z.add_0_r. split; [done|]. split; [done|]. by split.
  - exists [], op, ops, o, m. cbn [ops_cost spec_ops fst snd]. rewrite Z.add_0_r. split; [done|]. split; [done|]. by split.
Qed.
End refinement.

(** ** [AppendToMemStore] *)

Section memstore.
Context {Y : YaraftPb} {M : MemStoreLib Y} {MS : MemStoreSpec M}.

(** Entries in increasing order of their indices, as the store keeps them. *)
Definition index_sorted (vec : list Entry) : Prop :=
  StronglySorted (fun a b => entry_index a < entry_index b) vec.

(** The entries before [idx]. *)
Definition before_index (idx : Z) (vec : list Entry) : list Entry :=
  filter (fun e => entry_index e < idx) vec.

Lemma index_sorted_snoc vec e :
  index_sorted (vec ++ [e]) <->
  index_sorted vec /\ Forall (fun e' => entry_index e' < entry_index e) vec.
Proof.
  unfold index_sorted. rewrite StronglySorted_app, Forall_forall. split.
  - intros (H & Hs & _). split; [done|]. intros x Hx. apply H; [done|by left].
  - intros [Hs H]. split_and!; [|done|repeat constructor].
    intros x y Hx Hy%list_elem_of_singleton. subst y. by apply H.
Qed.

(** The loop finds the end of the entries that come before the new one. *)
Lemma find_del_spec vec idx n :
  index_sorted vec -> n = length vec -> find_del vec n idx + 1 = len (before_index idx vec) /\
  take (length (before_index idx vec)) vec = before_index idx vec.
Proof.
  intros Hs ->.
  assert (forall k, (k <= length vec)%nat -> find_del vec k idx + 1 = len (before_index idx (take k vec)) /\
    take (length (before_index idx (take k vec))) vec = before_index idx (take k vec)) as Hk.
  { induction k as [|k IH]; intros Hle; [done|]. cbn [find_del].
    destruct (lookup_lt_is_Some_2 vec k ltac:(lia)) as [e He]. rewrite He.
    rewrite (take_S_r _ _ _ He). unfold before_index. rewrite filter_app, filter_cons.
    destruct (Z.ltb_spec (entry_index e) idx) as [Hlt|Hge].
    - rewrite decide_True by done. cbn.
      assert (filter (fun e => entry_index e < idx) (take k vec) = take k vec) as ->.
      { apply filter_all, Forall_forall. intros x Hx. etrans; [|exact Hlt].
        unfold index_sorted in Hs. rewrite <- (take_drop_middle vec k e He) in Hs.
        apply StronglySorted_app in Hs as (Hs & _). apply Hs; [done|by left]. }
      unfold len. rewrite length_app, length_take. cbn. split; [lia|].
      replace (k `min` length vec + 1)%nat with (S k) by lia. by apply take_S_r.
    - rewrite decide_False by lia. cbn. rewrite app_nil_r. apply IH. lia. }
  destruct (Hk (length vec) ltac:(lia)) as [H1 H2]. by rewrite firstn_all in H1, H2.
Qed.

Lemma pop_back_n_take n vec : pop_back_n n vec = take (length vec - n) vec.
Proof.
  revert vec. induction n as [|n IH]; intros vec; cbn.
  - by rewrite Nat.sub_0_r, firstn_all.
  - rewrite IH. destruct vec as [|e vec _] using rev_ind; [done|].
    rewrite removelast_last, length_app. cbn. rewrite take_app_le by lia. f_equal. lia.
Qed.

Lemma AppendToMemStore_run e ms :
  index_sorted (ms_entries ms) ->
  (forall last_e, last (ms_entries ms) = Some last_e -> entry_term last_e <= entry_term e) ->
  exists ms', AppendToMemStore e ms = (Ok tt, ms') /\
    ms_entries ms' = before_index (entry_index e) (ms_entries ms) ++ [e].
Proof.
  intros Hs Ht. unfold AppendToMemStore. erewrite (run_bind_ok (gets _)) by done.
  set (vec := ms_entries ms) in *. set (kept := before_index (entry_index e) vec).
  assert (forall m, ms_entries m = kept -> ms_entries (ms_Append m e) = kept ++ [e]) as Happ.
  { intros m Hm. rewrite ms_Append_entries, Hm; [done|]. rewrite Hm. intros e' He'.
    apply last_Some_elem_of in He'. unfold kept, before_index in He'.
    by apply list_elem_of_filter in He' as [? _]. }
  destruct (last vec) as [back|] eqn:Hlast.
  - destruct (Z.ltb_spec (entry_term e) (entry_term back)) as [Hlt|_];
      [specialize (Ht back eq_refl); lia|].
    destruct (find_del_spec vec (entry_index e) _ Hs eq_refl) as [Hdel Htake].
    eexists. split; [done|]. apply Happ. rewrite ms_entries_with, pop_back_n_take, Hdel.
    fold kept in Htake |- *. rewrite <- Htake at 2. f_equal. unfold len.
    assert (length kept <= length vec)%nat by (unfold kept, before_index; apply length_filter). lia.
  - eexists. split; [done|]. apply Happ. apply last_None in Hlast. fold vec. unfold kept. by rewrite Hlast.
Qed.

Lemma before_index_sorted vec e : index_sorted vec -> index_sorted (before_index (entry_index e) vec ++ [e]).
Proof.
  intros Hs. apply index_sorted_snoc. split; [by apply sorted_filter|].
  apply Forall_forall. intros x Hx. by apply list_elem_of_filter in Hx as [? _].
Qed.
End memstore.

(** appending an entry to the memory store removes the entries at and after its index and
    puts it at the end, so the store stays ordered by index; an entry of a lower term than the
    last one is refused and changes nothing. *)
Theorem append_to_mem_store (Y : YaraftPb) (M : MemStoreLib Y) (MS : MemStoreSpec M) e ms :
  index_sorted (ms_entries ms) ->
  match last (ms_entries ms) with
  | Some back =>
      if entry_term e <? entry_term back then AppendToMemStore e ms = (Err YARaftError, ms)
      else exists ms', AppendToMemStore e ms = (Ok tt, ms') /\
             ms_entries ms' = before_index (entry_index e) (ms_entries ms) ++ [e] /\
             index_sorted (ms_entries ms')
  | None => exists ms', AppendToMemStore e ms = (Ok tt, ms') /\ ms_entries ms' = [e]
  end.
Proof.
  intros Hs. destruct (last (ms_entries ms)) as [back|] eqn:Hlast.
  - destruct (Z.ltb_spec (entry_term e) (entry_term back)) as [Hlt|Hge].
    + unfold AppendToMemStore. erewrite (run_bind_ok (gets _)) by done. rewrite Hlast.
      by destruct (Z.ltb_spec (entry_term e) (entry_term back)); [|lia].
    + destruct (AppendToMemStore_run e ms Hs) as (ms' & Hrun & He).
      { intros e' He'. rewrite Hlast in He'. by injection He' as <-. }
      exists ms'. split_and!; [done..|]. rewrite He. by apply before_index_sorted.
  - destruct (AppendToMemStore_run e ms Hs) as (ms' & Hrun & He).
    { intros e' He'. by rewrite Hlast in He'. }
    exists ms'. split; [done|]. apply last_None in Hlast. by rewrite He, Hlast.
Qed.

(** ** Theorems about the log *)

Section theorems.
Context (HOST : Host) (CRC : Crc32) (CS : Crc32Spec CRC) (SL : SliceLib) (SS : SliceSpec SL).
Context (Y : YaraftPb) (YS : YaraftPbSpec Y) (M : MemStoreLib Y).
Context (SB : StatusBool) (FS : BoostFs) (FSS : BoostFsSpec FS).

(** C3: the log implements the list of entries, up to the first call that does not return OK.  Take
    any sequence of writes, syncs, closes and restarts, under any pattern of short transfers,
    interruptions and failing calls.  When every call returns OK, each restart recovered a store
    that holds exactly the entries written before it, in order, and the disk and the manager
    represent the list at the end.  Otherwise there is a first call that did not return OK; all of
    this holds up to it; and it failed because a call of the environment failed (an [IOError], or a
    fatal log message in [Close]), or it is a write that finds no room for an entry in the current
    segment, which is undefined behaviour.  Nothing is claimed of what comes after that call. *)
Theorem wal_refines_list options ops o m log size :
  log_rep options o m log size -> fresh_room m -> ops_small ops -> size + ops_cost ops < 2 ^ 62 ->
  exists r o' m', run_ops ops (o, m) = (r, (o', m')) /\
    match r with
    | Ok outs => outs = fst (spec_ops ops log) /\
        log_rep options o' m' (snd (spec_ops ops log)) (size + ops_cost ops)
    | _ => exists ops1 op ops2 o1 m1,
        ops = ops1 ++ op :: ops2 /\ run_ops ops1 (o, m) = (Ok (fst (spec_ops ops1 log)), (o1, m1)) /\
        log_rep options o1 m1 (snd (spec_ops ops1 log)) (size + ops_cost ops1) /\
        match r with
        | Ok _ => False
        | Err e => e = IOError /\ os_script o1 <> []
        | Halt h => (h = FatalLog /\ os_script o1 <> []) \/ (h = Undefined /\ exists es, op = OpWrite es /\ ~ has_room m1)
        end
    end.
Proof.
  intros Hrep Hfresh Hsm Hsz. pose proof (run_ops_refines options ops o m log size Hrep Hfresh Hsm Hsz) as Hw.
  unfold wp in Hw. destruct (run_ops ops (o, m)) as [r [o' m']]. exists r, o', m'. split; [done|]. by destruct r.
Qed.

(** C10: [Recover] on the log on disk gives the store with exactly the log's entries in order (and
    none when there is no segment) and a manager that continues the log; it fails only when a
    call fails, which uses up a fault and leaves the log for the next attempt, and it changes no
    file. *)
Theorem recover_reads_log options o segs :
  log_files o (log_dir options) segs -> all_written segs ->
  exists r o' rc, Recover options (o, MkRecovery None None) = (r, (o', rc)) /\
    os_files o' = os_files o /\
    match r with
    | Ok _ => exists m, rc = MkRecovery (store_of (log_entries segs)) (Some m) /\
        log_inv o' m segs /\ SegmentNum m = len segs /\ lastIndex_ m = 0
    | Err e => e = IOError /\ fault_used o o' /\ log_files o' (log_dir options) segs
    | Halt _ => False
    end.
Proof.
  intros Hf Hall. pose proof (Recover_spec options o segs Hf Hall) as Hw.
  unfold wp in Hw. destruct (Recover options (o, MkRecovery None None)) as [r [o' rc]].
  destruct Hw as (Ho & _ & Hr). exists r, o', rc. split_and!; [done..|]. destruct r; [|done..].
  destruct Hr as (m & -> & Hinv & _ & Hcur & Hl & _). exists m. rewrite recovered_store_of by done.
  split_and!; try done. unfold SegmentNum. destruct Hinv as [_ Hlen]. rewrite Hcur in Hlen |- *.
  unfold len. rewrite Hlen. lia.
Qed.

(** A write of a hard state alone is lost: the call returns OK and touches neither the files nor
    the manager. *)
Lemma write_hard_state_is_lost hs o m : Write_hard_state hs (o, m) = (Ok tt, (o, m)).
Proof. done. Qed.
End theorems.
