(* ===== verification/Crash.v ===== *)
(** * Logs that cannot be opened again

    [Recover] reads every segment to its end and gives up at the first one it cannot read.  So the
    log of a process that died in the middle of a write, and that of a member that stored a hard
    state next to its entries, is refused as a whole. *)

From S2P Require Import Prelude External Coding Status Posix Segment LogWriter ReadSegment LogManager LogSpec Durability.

Section crash.
Context {HOST : Host} {CRC : Crc32} {CS : Crc32Spec CRC} {SL : SliceLib} {SS : SliceSpec SL}.
Context {Y : YaraftPb} {YS : YaraftPbSpec Y} {M : MemStoreLib Y}.
Context {SB : StatusBool} {FS : BoostFs} {FSS : BoostFsSpec FS}.

Abbreviation segment := (Z * list (list Entry))%type.

(** The disk [o'] is the log [closed ++ [s]] of [o] with other bytes in the file of [s]. *)
Record damaged (o o' : os) (dir : string) (closed : list segment) (s : segment) (c : bytes) : Prop := {
  dm_log : log_files o dir (closed ++ [s]);
  dm_written : all_written closed;
  dm_files : os_files o' = <[seg_file dir (length closed) s := c]> (os_files o);
  dm_dirs : os_dirs o' = os_dirs o;
  dm_len : len c < 2 ^ 64;
}.

(** How opening such a log ends. *)
Definition refused (o : os) {A} (r : result ErrorCode A) : Prop :=
  match r with
  | Err e => e = Corruption \/ (e = IOError /\ os_script o <> [])
  | _ => False
  end.

Lemma damaged_names o o' dir closed s c : damaged o o' dir closed s c -> log_names o' dir (closed ++ [s]).
Proof.
  intros [Hl _ Hf Hd _]. destruct (log_files_names _ _ _ Hl) as [H1 H2 H3].
  assert (forall p, is_Some (os_files o' !! p) <-> is_Some (os_files o !! p)) as Hsome.
  { intros p. rewrite Hf. destruct (decide (seg_file dir (length closed) s = p)) as [<-|Hne].
    - rewrite lookup_insert_eq. split; [intros _|by eexists]. apply H1. by apply list_lookup_middle.
    - by rewrite lookup_insert_ne. }
  split; [|intros name Hn Hw; rewrite Hsome, Hd; by apply H2|done]. intros i x Hi. rewrite Hsome. by apply H1.
Qed.

(** The segments before the damaged one are as they were. *)
Lemma damaged_closed o o' dir closed s c :
  damaged o o' dir closed s c -> segs_readable o' dir 0 closed.
Proof.
  intros [Hl Hw Hf _ _] i x Hi. pose proof (lookup_app_l_Some closed [s] i x Hi) as Hi'.
  assert (segs_readable o dir 0 closed) as Hr.
  { intros j y Hj. pose proof (lookup_app_l_Some closed [s] j y Hj) as Hj'. split_and!.
    - by apply (lf_segs _ _ _ Hl).
    - unfold all_written in Hw. rewrite Forall_lookup in Hw. intros He. apply (Hw j y Hj). by rewrite He.
    - pose proof (lf_small _ _ _ Hl) as Hsm. rewrite Forall_lookup in Hsm. by apply (Hsm j).
    - pose proof (lf_size _ _ _ Hl). apply list_elem_of_lookup_2 in Hj'. apply log_size_elem in Hj'. lia. }
  destruct (Hr i x Hi) as (H1 & H2). split; [|done]. rewrite Hf, lookup_insert_ne; [done|].
  intros He. destruct (log_files_index _ _ _ _ _ Hl Hi') as [Hi1 Hx1].
  destruct (log_files_index _ _ _ _ _ Hl (list_lookup_middle closed [] s _ eq_refl)) as [Hi2 Hs2].
  apply seg_file_inj in He as [He _]; [|done..]. apply lookup_lt_Some in Hi. cbn in He. lia.
Qed.

Lemma recover_segments_app options w1 w2 st Q :
  wp (_ ← recover_segments options w1; recover_segments options w2) st Q ->
  wp (recover_segments options (w1 ++ w2)) st Q.
Proof.
  intros Hw. assert (recover_segments options (w1 ++ w2) st
    = (_ ← recover_segments options w1; recover_segments options w2) st) as He; [|unfold wp; by rewrite He].
  clear Hw. revert st. induction w1 as [|[id start] w1 IH]; intros st; [done|]. cbn. unfold mbind, prog_bind in *.
  destruct (recover_segment options id start st) as [[[]|e|h] st1]; [|done|done]. apply IH.
Qed.

Lemma wals_of_snoc n segs s : wals_of n (segs ++ [s]) = wals_of n segs ++ [(Z.of_nat (n + length segs) + 1, fst s)].
Proof. unfold wals_of. rewrite imap_app. cbn. by rewrite Nat.add_0_r. Qed.

Lemma damaged_segment options id start o ms m c :
  os_files o !! segment_path (log_dir options) id start = Some c ->
  (forall ms, fst (ReadSegment (new_ReadableLogSegment c ms new_SegmentMetaData (verify_checksum options))) = Err Corruption) ->
  wp (recover_segment options id start) (o, MkRecovery (Some ms) (Some m)) (fun r _ => refused o r).
Proof.
  intros Hfile Hbad. unfold wp, recover_segment.
  pose proof (ReadFullyToBuffer_spec _ _ _ Hfile) as Hr. unfold wp in Hr. unfold ReadSegmentIntoMemoryStorage.
  unfold mbind, prog_bind, zoom at 1. cbn [fst snd].
  destruct (ReadFullyToBuffer _ o) as [[d|e|h] o1]; cbn in Hr; destruct Hr as (_ & _ & _ & _ & Hr); [|right; destruct Hr; eauto using fault_used_ne|done].
  subst d. unfold zoom. cbn [fst snd]. specialize (Hbad ms). destruct (ReadSegment _) as [r seg]. cbn in Hbad. subst r. by left.
Qed.

(** Opening a damaged log is refused. *)
Lemma damaged_refused options o o' closed s c :
  damaged o o' (log_dir options) closed s c ->
  (forall ms, fst (ReadSegment (new_ReadableLogSegment c ms new_SegmentMetaData (verify_checksum options))) = Err Corruption) ->
  wp (Default options None) o' (fun r _ => refused o' r).
Proof.
  intros Hd Hbad.
  assert (wp (Recover options) (o', MkRecovery None None) (fun r _ => refused o' r)) as Hrec.
  { eapply Recover_head; [by eapply damaged_names|intros; right; eauto using fault_used_ne|]. intros o2 Hf2 _ Hs2.
    destruct (closed ++ [s]) eqn:Hsegs; [by destruct closed|]. rewrite <- Hsegs. clear Hsegs.
    assert (os_script o2 <> [] -> os_script o' <> []) as Hne.
    { intros H1 H2. rewrite H2 in Hs2. by apply suffix_nil_inv in Hs2. }
    rewrite wals_of_snoc. apply recover_segments_app, wp_bind.
    pose proof (damaged_closed _ _ _ _ _ _ Hd) as Hrd.
    eapply wp_mono; [apply recover_segments_spec|].
    { intros i x Hi. rewrite Hf2. by apply Hrd. }
    intros [[]|e|h] [o3 rc] (Hf3 & _ & Hs3 & Hr); [|destruct Hr; right; eauto using fault_used_ne|done]. destruct Hr as (metas & _ & ->).
    cbn [recover_segments]. apply wp_bind. eapply wp_mono; [eapply damaged_segment; [|done]|].
    - rewrite Hf3, Hf2, (dm_files _ _ _ _ _ _ Hd). apply lookup_insert_eq.
    - intros [[]|e|h] st; [done| |done]. intros [->|[-> Hn]]; [by left|right; split; [done|]]. apply Hne.
      intros H2. rewrite H2 in Hs3. by apply suffix_nil_inv in Hs3. }
  unfold wp, Default in *. destruct (Recover options (o', MkRecovery None None)) as [r [o1 rc]]. cbn in Hrec. by destruct r.
Qed.
End crash.

(** ** Theorems *)

Section theorems.
Context (HOST : Host) (CRC : Crc32) (CS : Crc32Spec CRC) (SL : SliceLib) (SS : SliceSpec SL).
Context (Y : YaraftPb) (YS : YaraftPbSpec Y) (M : MemStoreLib Y).
Context (SB : StatusBool) (FS : BoostFs) (FSS : BoostFsSpec FS).

(** C24: a write that was cut short locks the log: if the process dies while a batch is being written,
    so that the last file ends somewhere inside that batch, opening the directory again ends in
    [Corruption], although all earlier batches are intact. *)
Theorem torn_write_locks_log options o o' closed st bs es n :
  log_files o (log_dir options) (closed ++ [(st, bs ++ [es])]) -> all_written closed ->
  (length (segment_bytes (batch_records <$> bs)) < n < length (seg_content (bs ++ [es])))%nat ->
  os_files o' = <[seg_file (log_dir options) (length closed) (st, bs ++ [es]) := take n (seg_content (bs ++ [es]))]> (os_files o) ->
  os_dirs o' = os_dirs o ->
  refused o' (fst (Default options None o')).
Proof.
  intros Hl Hw Hn Hf Hd.
  pose proof (list_lookup_middle closed [] (st, bs ++ [es]) _ eq_refl) as Hlast.
  pose proof (log_size_elem _ _ (list_elem_of_lookup_2 _ _ _ Hlast)) as Hlen. cbn [snd] in Hlen.
  pose proof (lf_size _ _ _ Hl) as Hsz. pose proof (lf_small _ _ _ Hl) as Hsm. rewrite Forall_lookup in Hsm.
  specialize (Hsm _ _ Hlast). cbn [snd] in Hsm. apply Forall_app in Hsm as [Hsm [Hes _]%Forall_cons].
  assert (seg_content (bs ++ [es])
    = segment_bytes (batch_records <$> bs) ++ framed (crc32 (entries_bytes es)) (entries_bytes es)) as Hc.
  { assert (seg_content (bs ++ [es]) = segment_bytes (batch_records <$> (bs ++ [es]))) as -> by (by destruct bs).
    unfold segment_bytes. rewrite fmap_app. cbn [fmap list_fmap].
    by rewrite batches_bytes_snoc, app_assoc, records_bytes_entries. }
  assert (len (take n (seg_content (bs ++ [es]))) < 2 ^ 64) as Htk by (unfold len in *; rewrite length_take; lia).
  apply (damaged_refused options o o' closed (st, bs ++ [es]) (take n (seg_content (bs ++ [es])))); [by split|].
  intros ms. rewrite Hc, take_app_ge in * by lia. rewrite length_app in Hn.
  destruct (ReadSegment_torn (batch_records <$> bs) (crc32 (entries_bytes es)) (entries_bytes es)
    (n - length (segment_bytes (batch_records <$> bs))) ms new_SegmentMetaData (verify_checksum options)) as (seg' & -> & _);
    try done; [|apply crc32_u32|lia].
  unfold small_batches. rewrite Forall_fmap. eapply Forall_impl; [done|]. intros b. cbn. by rewrite records_bytes_entries.
Qed.

(** C25: a hard state locks the log: when [Write] gets entries together with a hard state and they fit
    the current segment, it returns OK, and the next process that opens the directory ends in
    [Corruption]. *)
Theorem hard_state_locks_log o m segs w es hs o' w' :
  log_inv o m segs -> current_ m = Some w -> empty_ m = false -> all_written segs -> es <> [] ->
  log_size segs < 2 ^ 32 -> ByteSize hs < 128 -> len (entries_bytes es) < 2 ^ 31 ->
  LogWriter_Append es (Some hs) (o, w) = (Ok [], (o', w')) ->
  Write es (Some hs) (o, m) = (Ok tt, (o', set_current_ (Some w') m)) /\
  refused o' (fst (Default (options_ m) None (with_fds ∅ o'))).
Proof.
  intros [[Hl _] Hc] Hcur Hemp Hall Hes Hsz Hhs Hle Hrun. rewrite Hcur in Hc.
  destruct Hc as (closed & st & bs & -> & Hlen & Hat & Hpl). apply Forall_app in Hall as [Hall [Hbs _]%Forall_cons].
  cbn [snd] in Hbs. split.
  - destruct es as [|e es]; [done|]. unfold Write. erewrite (run_bind_ok get_manager) by done. cbn [snd]. rewrite Hemp.
    erewrite run_bind_ok by done. unfold doWrite. cbn [doWrite_loop length].
    erewrite (run_bind_ok get_manager) by done. cbn [snd]. rewrite Hcur. erewrite run_bind_ok by done.
    rewrite (run_bind_ok _ _ _ (o', set_current_ (Some w') m) []); [done|]. unfold on_current. by rewrite Hcur, Hrun.
  - assert (bs <> []) as Hne by (by intros ->).
    assert (seg_content bs = segment_bytes (batch_records <$> bs)) as Hsc by (by destruct bs).
    pose proof (list_lookup_middle closed [] (st, bs) _ eq_refl) as Hlast.
    pose proof (log_size_elem _ _ (list_elem_of_lookup_2 _ _ _ Hlast)) as Hll. cbn [snd] in Hll.
    pose proof (lf_small _ _ _ Hl) as Hsm. rewrite Forall_lookup in Hsm. specialize (Hsm _ _ Hlast). cbn [snd] in Hsm.
    rewrite Hsc in Hat, Hll.
    destruct (append_hard_state _ _ CS _ SS _ YS M o w _ (batch_records <$> bs) es hs [] o' w' Hat) as (_ & c' & Hc' & Hf & Hd & _ & Hbad); try done.
    { rewrite (wp_empty _ _ _ Hpl). by apply bool_decide_eq_false_2. }
    { unfold small_batches. rewrite Forall_fmap. eapply Forall_impl; [done|]. intros b. cbn. by rewrite records_bytes_entries. }
    { lia. }
    apply (damaged_refused (options_ m) o (with_fds ∅ o') closed (st, bs) c'); [by split|done].
Qed.
End theorems.
