(* ===== verification/Process.v ===== *)
(** * What survives the process: a member of the cluster on its write-ahead log

    The log a member writes to is the one its history says: [wal_writes] replays the [Ready]s that
    the log accepted, in order.  On a [LogManager] this gives the entries a new process recovers. *)

From S2P Require Import Prelude External Coding Status Posix Segment LogWriter ReadSegment LogManager LogSpec Channel TaskQueue Observer Cluster Node NodeSpec System Durability.

Section history.
Context {Y : YaraftPb} {M : MemStoreLib Y} {MSG : YaraftMsg} {RAFT : RaftLib M MSG}.
Context {WAL : WriteAheadLog Y} {EI : ErasedIterator} {TC : Toolchain}.

(** ** The writes of a history *)

Definition wal_accepted (h : list event) : list Ready :=
  omap (fun ev => match ev with WalAccepted rd => Some rd | _ => None end) h.

Fixpoint wal_writes (rds : list Ready) : Prog ErrorCode wal_state unit :=
  match rds with
  | [] => mret tt
  | rd :: rds => _ ← wal_Write (entries rd) (hardState rd); wal_writes rds
  end.

Lemma wal_writes_snoc rds rd w w1 w2 :
  wal_writes rds w = (Ok tt, w1) -> wal_Write (entries rd) (hardState rd) w1 = (Ok tt, w2) ->
  wal_writes (rds ++ [rd]) w = (Ok tt, w2).
Proof.
  revert w. induction rds as [|rd' rds IH]; intros w Hw Hrd; cbn in *; unfold mbind, prog_bind in *.
  - injection Hw as <-. by rewrite Hrd.
  - destruct (wal_Write (entries rd') (hardState rd') w) as [[[]|e|h] w']; [|done|done]. by apply IH.
Qed.

(** ** Steps that leave the log alone *)

Abbreviation NodeM := (Prog ErrorCode Node).

Definition kept (n n' : Node) : Prop := wal_ n' = wal_ n /\ wal_accepted (history n') = wal_accepted (history n).

#[global] Instance kept_preorder : PreOrder kept.
Proof. split; [done|]. intros n1 n2 n3 [E1 E2] [E3 E4]. split; congruence. Qed.

Abbreviation quiet := (preserves (E := ErrorCode) kept).

Lemma quiet_event ev : (forall rd, ev <> WalAccepted rd) -> quiet (modify (add_event ev)).
Proof.
  intros Hev n. split; [done|]. unfold wal_accepted. cbn. rewrite omap_app. destruct ev; cbn; rewrite ?app_nil_r; try done.
  by destruct (Hev rd).
Qed.

Lemma quiet_fsm {A} (f : RawNode * MemoryStorage -> A * (RawNode * MemoryStorage)) : quiet (run_fsm f).
Proof. intros n. unfold run_fsm. by destruct (f (fsm n)). Qed.
Lemma quiet_signal th l : quiet (signal_frame th l).
Proof. intros n. unfold signal_frame. destruct (frames n !! th) as [f|]; [|done]. by destruct (Signal _). Qed.
Lemma quiet_control c : quiet (queue_control c).
Proof. intros n. unfold queue_control. by destruct (step c (queue n)) as [[]|]. Qed.
Lemma quiet_leave_frame th : quiet (leave_frame th).
Proof. intros n. unfold leave_frame. destruct (frames n !! th) as [f|]; [|done]. by destruct (Wait _). Qed.
Lemma quiet_leave_write th : quiet (leave_write th).
Proof.
  intros n. unfold leave_write. destruct (channels _ !! th) as [c|]; [|done]. by destruct (channel_receive c) as [[]| |].
Qed.
Lemma quiet_timer_loop f : quiet (timer_loop f).
Proof. intros n. unfold timer_loop. by destruct (f _). Qed.
Lemma quiet_flusher_loop f : quiet (flusher_loop f).
Proof. intros n. unfold flusher_loop. by destruct (f _). Qed.
End history.

Abbreviation quiet := (preserves (E := ErrorCode) kept).
#[export] Hint Resolve quiet_fsm quiet_signal quiet_control quiet_leave_frame quiet_leave_write quiet_timer_loop quiet_flusher_loop : preserves.

(** Goes through a program statement by statement. *)
Ltac quiet_tac := repeat first [progress preserves_tac | apply quiet_event; done].

Section follows.
Context {Y : YaraftPb} {M : MemStoreLib Y} {MSG : YaraftMsg} {RAFT : RaftLib M MSG}.
Context {WAL : WriteAheadLog Y} {EI : ErasedIterator} {TC : Toolchain}.

Lemma quiet_closure t : quiet (run_closure t).
Proof. destruct t; cbn [run_closure]; quiet_tac. Qed.

Lemma quiet_run_task : quiet run_task.
Proof.
  unfold run_task. apply preserves_bind; [apply _|quiet_tac|]. intros [[p t]|]; [|quiet_tac].
  pose proof (quiet_closure t). unfold propose. destruct t; quiet_tac.
Qed.

Lemma quiet_pass ev rd : (forall rd', ev rd <> WalAccepted rd') -> quiet (pass_messages ev rd).
Proof. intros Hev. unfold pass_messages. quiet_tac. Qed.

Lemma quiet_call_returns th : quiet (call_returns th).
Proof.
  intros n. unfold call_returns. destruct (th <? 2); [done|].
  assert (quiet (l ← leave_frame th; modify (add_event (CallReturned th (Returned l))))) as Hl by quiet_tac.
  assert (quiet (s ← leave_write th; modify (add_event (CallReturned th (WriteReturned s))))) as Hw by quiet_tac.
  destruct (decide _); [apply Hl|apply Hw].
Qed.

(** Every statement of the flusher but the write to the log. *)
Lemma quiet_flush stage rd : stage <> WriteWal -> quiet (flush_step stage rd).
Proof.
  intros Hs. pose proof (quiet_pass SentAsLeader rd ltac:(done)). pose proof (quiet_pass SentAsFollower rd ltac:(done)).
  destruct stage; try done; cbn [flush_step]; unfold send_as_leader, notify_commit, advance_store, send_as_follower; quiet_tac.
Qed.

Lemma quiet_step c : c <> FlusherFlushes -> quiet (node_step c).
Proof.
  intros Hc. pose proof quiet_run_task. pose proof quiet_call_returns. destruct c; try done; cbn [node_step];
    unfold timer_turn, GetReady, RaftService_Step, RaftService_Status, AsyncWrite, begin_call, submit_and_wait, Submit; quiet_tac.
Qed.

Lemma write_wal_writes rd n n' :
  write_wal rd n = (Ok tt, n') ->
  exists w, wal_Write (entries rd) (hardState rd) (wal_ n) = (Ok tt, w) /\ n' = add_event (WalAccepted rd) (set_wal_ w n).
Proof.
  unfold write_wal, mbind, prog_bind, fatal_not_ok, on_wal, zoom. intros Hp.
  destruct (wal_Write (entries rd) (hardState rd) (wal_ n)) as [[[]|e|h] w] eqn:Hw;
    destruct (entries rd); rewrite Hw in Hp; try done; injection Hp as <-; by exists w.
Qed.

(** The log is where the history says. *)
Definition follows (w0 : wal_state) (n : Node) : Prop := wal_writes (wal_accepted (history n)) w0 = (Ok tt, wal_ n).

Lemma kept_follows w0 n n' : kept n n' -> follows w0 n -> follows w0 n'.
Proof. unfold follows. by intros [-> ->]. Qed.

Lemma node_step_follows w0 c n n' : follows w0 n -> node_step c n = (Ok tt, n') -> follows w0 n'.
Proof.
  intros Hf Hs. assert (c = FlusherFlushes \/ c <> FlusherFlushes) as [->|Hc] by (destruct c; by auto).
  2: { pose proof (quiet_step c Hc n) as Hk. rewrite Hs in Hk. by eapply kept_follows. }
  cbn in Hs. unfold mbind, prog_bind, gets in Hs. destruct (flusher n) as [| |stage rd]; [done|done|].
  assert (stage = WriteWal \/ stage <> WriteWal) as [->|Hne] by (destruct stage; by auto).
  2: { pose proof (quiet_flush stage rd Hne n) as Hk. rewrite Hs in Hk. by eapply kept_follows. }
  cbn in Hs. unfold mbind, prog_bind in Hs. destruct (write_wal rd n) as [[[]|e|h] n1] eqn:Hp; [|done|done].
  injection Hs as <-. apply write_wal_writes in Hp as (w & Hw & ->).
  unfold follows, wal_accepted. cbn. rewrite omap_app. by eapply wal_writes_snoc.
Qed.

Lemma node_run_follows w0 cs n n' : follows w0 n -> node_run cs n = (Ok tt, n') -> follows w0 n'.
Proof.
  revert n. induction cs as [|c cs IH]; intros n Hf Hr; cbn in Hr; [by injection Hr as <-|].
  unfold mbind, prog_bind in Hr. destruct (node_step c n) as [[[]|e|h] n1] eqn:Hs; [|done|done].
  apply (IH n1); [|done]. by eapply node_step_follows.
Qed.

Lemma New_follows this options n w0 : New this options = Ok n -> opt_wal options = Some w0 -> follows w0 n.
Proof.
  unfold New. intros HN Hw. rewrite Hw in HN. destruct (Validate options); [|done|done].
  destruct (new_RawNode _ _) as [rn ms]. destruct (match opt_taskQueue options with Some q => Ok q | None => new_TaskQueue end); [|done|done].
  destruct (match opt_flusher options with Some f => Ok f | None => new_ReadyFlusher end); [|done|done].
  by injection HN as <-.
Qed.
(** The [Ready] the flusher is about to write. *)
Definition being_written (n : Node) : list Ready :=
  match flusher n with Flushing WriteWal rd => [rd] | _ => [] end.
End follows.

(** ** Theorems *)

Section wal_theorem.
Context (Y : YaraftPb) (M : MemStoreLib Y) (MSG : YaraftMsg) (RAFT : RaftLib M MSG).
Context (WAL : WriteAheadLog Y) (EI : ErasedIterator) (TC : Toolchain).

(** under every schedule, the write-ahead log of a member is exactly the log it was created with
    after the writes of the [Ready]s it accepted, one after the other in the order of the
    history: no other thread writes to it, no write is lost or done twice. *)
Theorem wal_follows_history this options n0 w0 cs n :
  New this options = Ok n0 -> opt_wal options = Some w0 -> node_run cs n0 = (Ok tt, n) ->
  wal_writes (wal_accepted (history n)) w0 = (Ok tt, wal_ n).
Proof. intros HN Hw. apply node_run_follows. by eapply New_follows. Qed.
End wal_theorem.

Section recovery.
Context (HOST : Host) (CRC : Crc32) (CS : Crc32Spec CRC) (SL : SliceLib) (SS : SliceSpec SL).
Context (Y : YaraftPb) (YS : YaraftPbSpec Y) (M : MemStoreLib Y).
Context (SB : StatusBool) (FS : BoostFs) (FSS : BoostFsSpec FS).
Context (MSG : YaraftMsg) (RAFT : RaftLib M MSG) (EI : ErasedIterator) (TC : Toolchain).

(** A [Ready] without entries or without a hard state, of a size a batch can hold. *)
Definition plain_ready (rd : Ready) : Prop :=
  (entries rd = [] \/ hardState rd = None) /\ 8 + len (entries_bytes (entries rd)) < 2 ^ 32.

Fixpoint readys_cost (rds : list Ready) : Z :=
  match rds with [] => 0 | rd :: rds => write_cost (entries rd) + readys_cost rds end.

Lemma readys_cost_nonneg rds : 0 <= readys_cost rds.
Proof. induction rds as [|rd rds IH]; cbn; [done|]. pose proof (write_cost_nonneg (entries rd)). lia. Qed.

Lemma plain_write rd : plain_ready rd -> wal_Write (entries rd) (hardState rd) = Write (entries rd) None.
Proof. intros [[He|He] _]; cbn; rewrite He; done. Qed.

Lemma wal_writes_rep options rds o m log size st :
  log_rep options o m log size -> fresh_room m -> Forall plain_ready rds -> size + readys_cost rds < 2 ^ 62 ->
  wal_writes rds (o, m) = (Ok tt, st) ->
  log_rep options (fst st) (snd st) (log ++ mjoin (entries <$> rds)) (size + readys_cost rds).
Proof.
  revert o m log size. induction rds as [|rd rds IH]; intros o m log size Hrep Hfresh Hp Hsz Hw;
    cbn [wal_writes readys_cost fmap list_fmap mjoin list_join] in *.
  - injection Hw as <-. by rewrite app_nil_r, Z.add_0_r.
  - apply Forall_cons in Hp as [Hrd Hp]. pose proof (readys_cost_nonneg rds).
    unfold mbind, prog_bind in Hw. rewrite (plain_write rd Hrd) in Hw.
    pose proof (write_rep options o m log size (entries rd) Hrep Hfresh (proj2 Hrd) ltac:(lia)) as Hwp.
    unfold wp in Hwp. destruct (Write (entries rd) None (o, m)) as [[[]|e|h] [o1 m1]]; [|done|done].
    destruct Hwp as [_ Hrep1]. cbn in Hrep1. rewrite app_assoc, Z.add_assoc. eapply IH; [done| |done|lia|done].
    destruct Hrep as (? & _ & _ & _ & _ & Ho & _), Hrep1 as (? & _ & _ & _ & _ & Ho1 & _).
    unfold fresh_room in *. by rewrite Ho1, <- Ho.
Qed.


(** One of the [Ready]s that were written. *)
Lemma entries_of_ready (rd : Ready) rds :
  rd ∈ rds -> exists l1 l2, mjoin (entries <$> rds) = l1 ++ entries rd ++ l2.
Proof. intros (rds1 & rds2 & ->)%list_elem_of_split. rewrite fmap_app, join_app. cbn. eauto. Qed.

Lemma accepted_on_disk wopts o m log size n rd :
  log_rep wopts o m log size -> fresh_room m -> follows (o, m) n ->
  Forall plain_ready (wal_accepted (history n)) -> size + readys_cost (wal_accepted (history n)) < 2 ^ 62 ->
  WalAccepted rd ∈ history n ->
  exists l1 l2, log_on_disk wopts (fst (wal_ n)) (l1 ++ entries rd ++ l2) (size + readys_cost (wal_accepted (history n))).
Proof.
  intros Hrep Hfresh Hf Hp Hsz Hin. pose proof (wal_writes_rep _ _ _ _ _ _ _ Hrep Hfresh Hp Hsz Hf) as Hrep'.
  assert (rd ∈ wal_accepted (history n)) as Hrd by (apply list_elem_of_omap; by exists (WalAccepted rd)).
  destruct (entries_of_ready rd _ Hrd) as (l1 & l2 & Hl). rewrite Hl in Hrep'. exists (log ++ l1), l2. rewrite <- app_assoc.
  by apply log_rep_on_disk in Hrep' as [? _].
Qed.

(** C18: the entries of a [Ready] are on disk before anybody hears of it.  In every reachable state:
    when the flusher is about to announce the commit index of a [Ready], to advance the store or to
    send its messages as a follower, the entries of that [Ready] are in the log on disk; and for
    every [Ready] whose messages were sent by a member that was not the leader, the log accepted
    it before they were sent and its entries are on disk.  (Entries only: of a hard state that comes
    alone the log stores nothing, [Votes.vote_is_cast_twice].  Asked is that no [Ready] written so
    far brought both entries and a hard state, that each fits one batch and all of them 2^62 bytes,
    and that the channel of a write is built in place.) *)
Theorem entries_on_disk_first this options n0 wopts o m log size cs n :
  channel_built_in_place = true -> opt_taskQueue options = None ->
  New this options = Ok n0 -> opt_wal options = Some (o, m) -> log_rep wopts o m log size -> fresh_room m ->
  node_run cs n0 = (Ok tt, n) -> Forall plain_ready (wal_accepted (history n)) ->
  size + readys_cost (wal_accepted (history n)) < 2 ^ 62 ->
  let on_disk rd := exists l1 l2,
    log_on_disk wopts (fst (wal_ n)) (l1 ++ entries rd ++ l2) (size + readys_cost (wal_accepted (history n))) in
  (forall stage rd, flusher n = Flushing stage rd -> stage <> SendAsLeader -> stage <> WriteWal -> on_disk rd) /\
  (forall rd, SentAsFollower rd ∈ history n -> before (WalAccepted rd) (SentAsFollower rd) (history n) /\ on_disk rd).
Proof.
  intros Hce Hq HN Hw Hrep Hfresh Hrun Hp Hsz on_disk.
  pose proof (node_run_follows _ _ _ _ (New_follows _ _ _ _ HN Hw) Hrun) as Hf.
  pose proof (wp_run _ _ _ _ _ (New_run (fun _ => False) this options cs n0 (fun _ _ => Hce) (fun _ f => f) Hq HN) Hrun) as Hi.
  assert (forall rd, WalAccepted rd ∈ history n -> on_disk rd) as Hdisk by (intros rd; by eapply accepted_on_disk).
  split.
  - intros stage rd Hfl H1 H2. apply Hdisk, (inv_flush _ _ _ _ _ _ _ _ Hi stage rd Hfl). by destruct stage.
  - intros rd Hin. pose proof (inv_sent _ _ _ _ _ _ _ _ Hi rd Hin) as Hb. split; [done|]. apply Hdisk.
    destruct Hb as (h1 & h2 & h3 & ->). apply elem_of_app. right. by left.
Qed.

Lemma readys_cost_snoc rds rd : readys_cost (rds ++ [rd]) = readys_cost rds + write_cost (entries rd).
Proof. induction rds as [|rd' rds IH]; cbn; [lia|]. rewrite IH. lia. Qed.

(** The write of a [Ready] to the log of a member: what a bad end of it means. *)
Lemma writing_ends wopts o m log size n rd r w :
  log_rep wopts o m log size -> fresh_room m -> follows (o, m) n ->
  Forall plain_ready (wal_accepted (history n) ++ [rd]) -> size + readys_cost (wal_accepted (history n) ++ [rd]) < 2 ^ 62 ->
  wal_Write (entries rd) (hardState rd) (wal_ n) = (r, w) ->
  match r with
  | Ok _ => True
  | Err _ => os_script (fst (wal_ n)) <> []
  | Halt h => (h = FatalLog /\ os_script (fst (wal_ n)) <> []) \/ (h = Undefined /\ entries rd <> [] /\ ~ has_room (snd (wal_ n)))
  end.
Proof.
  intros Hrep Hfresh Hf [Hp [Hrd _]%Forall_cons]%Forall_app Hsz Hw. rewrite readys_cost_snoc in Hsz.
  pose proof (write_cost_nonneg (entries rd)).
  pose proof (wal_writes_rep _ _ _ _ _ _ _ Hrep Hfresh Hp ltac:(lia) Hf) as Hrep'.
  assert (fresh_room (snd (wal_ n))) as Hfresh'.
  { destruct Hrep as (? & _ & _ & _ & _ & Ho & _), Hrep' as (? & _ & _ & _ & _ & Ho1 & _). unfold fresh_room in *. by rewrite Ho1, <- Ho. }
  rewrite (plain_write rd Hrd) in Hw. destruct (wal_ n) as [o1 m1]. cbn [fst snd] in *.
  destruct (entries rd) as [|e es] eqn:He; [by injection Hw as <- <-|].
  pose proof (write_rep _ _ _ _ _ (e :: es) Hrep' Hfresh') as Hwp. rewrite <- He in Hwp at 1.
  specialize (Hwp (proj2 Hrd) ltac:(lia)). unfold wp in Hwp. rewrite Hw in Hwp. destruct Hwp as [_ Hr].
  destruct r as [u|err|h]; [done|by destruct Hr|]. destruct Hr as [?|[-> ?]]; [by left|by right].
Qed.

End recovery.
