(* ===== verification/Pipeline.v ===== *)
(** * The way of an entry through a member

    Between the state machine and its clients stand a queue, a flusher with its statements and an
    observer, on several threads.  What they do to an entry is a pipeline: it is proposed, handed
    out with a [Ready], written to the log, and its commit is announced.  Here is that pipeline as
    an abstract machine, and the proof that every step of [Node.v] is one of its steps or none. *)

From S2P Require Import Prelude External Status Channel TaskQueue Observer Cluster Node NodeSpec Process.

Section pipeline.
Context {Y : YaraftPb} {M : MemStoreLib Y} {MSG : YaraftMsg} {RAFT : RaftLib M MSG}.
Context {WAL : WriteAheadLog Y} {EI : ErasedIterator} {TC : Toolchain}.

(** ** The abstract machine *)

(** The [Ready] under way: handed out and not yet written, or written and its commit not yet
    announced. *)
Inductive flight := NoReady | Held (es : list Entry) (commit : option Z) | Written (commit : option Z).

Definition held (rd : Ready) : flight := Held (entries rd) (has_commit rd).

Record pipe := MkPipe {
  p_node : RawNode;
  p_flight : flight;
  (** the entries written to the log, oldest first *)
  p_log : list Entry;
  (** the commit indices announced *)
  p_told : list Z;
  (** the proposals that were accepted: thread and index *)
  p_prop : list (Z * Z);
}.

Definition set_p_node (rn : RawNode) (p : pipe) : pipe := MkPipe rn (p_flight p) (p_log p) (p_told p) (p_prop p).

Inductive pipe_label := PStay | PRaft | PPropose (thread : Z) (log : bytes) | PReady | PDrops | PWrites | PNotify.

(** The storage of the node is whatever it is. *)
Inductive pipe_step : pipe_label -> pipe -> pipe -> Prop :=
  | pipe_stay p : pipe_step PStay p p
  | pipe_tick p ms : pipe_step PRaft p (set_p_node (fst (Nat.iter kTimerGranularity rn_Tick (p_node p, ms))) p)
  | pipe_message p ms msg : pipe_step PRaft p (set_p_node (fst (snd (rn_Step msg (p_node p, ms)))) p)
  | pipe_refused p ms log e s : rn_Propose log (p_node p, ms) = (Some e, s) -> pipe_step PRaft p (set_p_node (fst s) p)
  | pipe_propose p ms thread log s :
      rn_IsLeader (p_node p) = true -> rn_Propose log (p_node p, ms) = (None, s) ->
      pipe_step (PPropose thread log) p
        (MkPipe (fst s) (p_flight p) (p_log p) (p_told p) (p_prop p ++ [(thread, rn_LastIndex s)]))
  | pipe_ready p ms rd s :
      p_flight p = NoReady -> rn_GetReady (p_node p, ms) = (rd, s) ->
      pipe_step PReady p (MkPipe (fst s) (from_option held NoReady rd) (p_log p) (p_told p) (p_prop p))
  (** only where [std::async] defers the flush, and so never runs it *)
  | pipe_drops p es commit :
      async_starts_thread = false -> p_flight p = Held es commit ->
      pipe_step PDrops p (MkPipe (p_node p) NoReady (p_log p) (p_told p) (p_prop p))
  | pipe_writes p es commit :
      p_flight p = Held es commit ->
      pipe_step PWrites p (MkPipe (p_node p) (Written commit) (p_log p ++ es) (p_told p) (p_prop p))
  | pipe_notify p commit :
      p_flight p = Written commit ->
      pipe_step PNotify p (MkPipe (p_node p) NoReady (p_log p) (p_told p ++ option_list commit) (p_prop p)).

(** ** What it is of a member *)

Definition notified (h : list event) : list Z :=
  omap (fun ev => match ev with Notified c => Some c | _ => None end) h.
Definition proposals (h : list event) : list (Z * Z) :=
  omap (fun ev => match ev with Proposed th i => Some (th, i) | _ => None end) h.

Definition in_flight (n : Node) : flight :=
  match flusher n with
  | FlusherIdle => NoReady
  | FlusherWaits =>
      match frames n !! flusher_thread with
      | Some (MkFrame (LocalsGetReady (Some rd)) _) => held rd
      | _ => NoReady
      end
  | Flushing stage rd =>
      match stage with
      | SendAsLeader | WriteWal => held rd
      | NotifyCommit => Written (has_commit rd)
      | AdvanceStore | SendAsFollower => NoReady
      end
  end.

Definition abs (n : Node) : pipe :=
  MkPipe (node_ n) (in_flight n) (mjoin (entries <$> wal_accepted (history n))) (notified (history n)) (proposals (history n)).

(** Only the flusher asks for a [Ready], and its frame is empty until it is answered. *)
Record shape (n : Node) : Prop := {
  shape_threads : 2 <= next_thread n;
  shape_ready p th : (p, TaskGetReady th) ∈ waiting (queue n) -> th = flusher_thread;
  shape_other p t : (p, t) ∈ waiting (queue n) -> task_thread t = flusher_thread -> t = TaskGetReady flusher_thread;
  shape_frame l : frames n !! flusher_thread = Some (MkFrame l Pending) -> l = LocalsGetReady None;
}.

(** The closures that a step may bring: those of the two loops, and those of a new call. *)
Definition newcomer (n : Node) (t : task) : Prop :=
  match t with
  | TaskGetReady th => th = flusher_thread
  | TaskTick th => th = timer_thread
  | _ => next_thread n <= task_thread t
  end.

#[global] Instance newcomer_dec n t : Decision (newcomer n t).
Proof. destruct t; cbn; apply _. Defined.

Definition grown (n n' : Node) : Prop :=
  next_thread n <= next_thread n' /\
  forall p t, (p, t) ∈ waiting (queue n') -> ~ newcomer n t -> (p, t) ∈ waiting (queue n).

#[global] Instance grown_preorder : PreOrder grown.
Proof.
  split; [done|]. intros n1 n2 n3 [L1 W1] [L2 W2]. split; [lia|].
  intros p t Hx Hn. apply W1; [|done]. apply W2; [done|]. intros Hn2. apply Hn. destruct t; cbn in *; done || lia.
Qed.

Lemma fewer_grown n n' :
  next_thread n' = next_thread n -> (forall x, x ∈ waiting (queue n') -> x ∈ waiting (queue n)) -> grown n n'.
Proof. intros Hn Hw. split; [lia|]. auto. Qed.

Lemma grown_shape n n' :
  shape n -> grown n n' -> (forall l, frames n' !! flusher_thread = Some (MkFrame l Pending) -> l = LocalsGetReady None) ->
  shape n'.
Proof.
  intros [S0 S1 S2 S3] [Hn Hw] Hf. split; [lia| | |done].
  - intros p th Hx. destruct (decide (newcomer n (TaskGetReady th))); [done|eauto].
  - intros p t Hx Ht. destruct (decide (newcomer n t)) as [Hnew|]; [|eauto].
    destruct t; cbn in *; unfold timer_thread, flusher_thread in *; first [exfalso; lia | by rewrite Ht].
Qed.

(** ** Steps that the machine does not see *)

Definition unseen (n n' : Node) : Prop :=
  node_ n' = node_ n /\ flusher n' = flusher n /\ frames n' !! flusher_thread = frames n !! flusher_thread /\
  wal_accepted (history n') = wal_accepted (history n) /\ notified (history n') = notified (history n) /\
  proposals (history n') = proposals (history n) /\ grown n n'.

#[global] Instance unseen_preorder : PreOrder unseen.
Proof.
  split; [by intros n; split_and!|]. intros n1 n2 n3 (A1 & A2 & A3 & A4 & A5 & A6 & A7) (B1 & B2 & B3 & B4 & B5 & B6 & B7).
  split_and!; try congruence. by etrans.
Qed.

Lemma unseen_abs n n' : unseen n n' -> abs n' = abs n.
Proof. intros (A1 & A2 & A3 & A4 & A5 & A6 & _). unfold abs, in_flight. by rewrite A1, A2, A3, A4, A5, A6. Qed.

Lemma unseen_shape n n' : unseen n n' -> shape n -> shape n'.
Proof. intros (_ & _ & A3 & _ & _ & _ & A7) Hs. eapply grown_shape; [done|done|]. rewrite A3. apply Hs. Qed.

(** What a step of the member is to the machine. *)
Definition simulated (n n' : Node) : Prop :=
  shape n' /\ grown n n' /\ exists l, pipe_step l (abs n) (abs n') /\
    forall thread log, l = PPropose thread log -> exists p, (p, TaskWrite thread log) ∈ waiting (queue n).

Abbreviation ok := (fun Q (r : result ErrorCode unit) (n : Node) => match r with Ok _ => Q n | _ => True end).

(** One step of the machine, or none. *)
Lemma step_simulated l n n' :
  shape n -> grown n n' -> (forall l, frames n' !! flusher_thread = Some (MkFrame l Pending) -> l = LocalsGetReady None) ->
  pipe_step l (abs n) (abs n') ->
  (forall thread log, l = PPropose thread log -> exists p, (p, TaskWrite thread log) ∈ waiting (queue n)) -> simulated n n'.
Proof. intros Hs Hg Hf Hl Hp. split; [by eapply grown_shape|]. split; [done|]. by exists l. Qed.

Lemma stay_simulated n n' :
  shape n -> grown n n' -> (forall l, frames n' !! flusher_thread = Some (MkFrame l Pending) -> l = LocalsGetReady None) ->
  abs n' = abs n -> simulated n n'.
Proof. intros Hs Hg Hf Ha. apply (step_simulated PStay); try done. rewrite Ha. constructor. Qed.

Lemma unseen_simulated n n' : shape n -> unseen n n' -> simulated n n'.
Proof. intros Hs Hu. apply stay_simulated; [done|apply Hu|apply (unseen_shape _ _ Hu Hs)|by apply unseen_abs]. Qed.

Lemma unseen_wp (m : Prog ErrorCode Node unit) n : shape n -> preserves unseen m -> wp m n (ok (simulated n)).
Proof.
  intros Hs Hk. specialize (Hk n). unfold wp. destruct (m n) as [[[]|e|h] n']; [|done|done]. by apply unseen_simulated.
Qed.

Lemma unseen_queue c :
  match c with DoTest | DoTimeout | DoTake _ | DoRun => True | _ => False end -> preserves unseen (queue_control c).
Proof.
  intros Hc n. unfold queue_control. destruct (step c (queue n)) as [[q' ran]|] eqn:Hs; [|done].
  split_and!; [done..|]. apply fewer_grown; [done|]. intros x. by apply (step_waiting c _ _ ran).
Qed.

Lemma unseen_event ev :
  match ev with SentAsLeader _ | SentAsFollower _ | CallReturned _ _ => True | _ => False end ->
  preserves unseen (modify (add_event ev) : Prog ErrorCode Node unit).
Proof.
  intros Hev n. assert (grown n (add_event ev n)) by (by apply fewer_grown).
  unfold wal_accepted, notified, proposals. split_and!; try done; cbn; rewrite omap_app; destruct ev; try done;
    cbn; by rewrite app_nil_r.
Qed.

(** ** The closures *)

(** The closure of a thread other than the flusher: [s] is what it makes of the state machine. *)
Lemma closure_simulated t n l s q' :
  shape n -> task_thread t <> flusher_thread -> (forall x, x ∈ waiting q' -> x ∈ waiting (queue n)) ->
  pipe_step PRaft (abs n) (set_p_node (fst s) (abs n)) \/ fst s = node_ n ->
  simulated n (set_queue q' (set_frames (<[task_thread t := MkFrame l (Satisfied tt)]> (frames n)) (set_fsm s n))).
Proof.
  intros Hs Hth Hq Hstep. set (n' := set_queue _ _).
  assert (abs n' = set_p_node (fst s) (abs n)) as Ha by (unfold abs, in_flight, set_p_node; cbn; by rewrite lookup_insert_ne).
  assert (grown n n') by (by apply fewer_grown).
  assert (forall l, frames n' !! flusher_thread = Some (MkFrame l Pending) -> l = LocalsGetReady None).
  { cbn. rewrite lookup_insert_ne by done. apply Hs. }
  destruct Hstep as [Hstep|Hn]; [apply (step_simulated PRaft); [done..|by rewrite Ha|done]|].
  apply stay_simulated; [done..|]. rewrite Ha. unfold set_p_node, abs. cbn. by rewrite Hn.
Qed.

(** The closure of the flusher. *)
Lemma ready_simulated n rd s q' :
  shape n -> flusher n = FlusherWaits -> frames n !! flusher_thread = Some (MkFrame (LocalsGetReady None) Pending) ->
  (forall x, x ∈ waiting q' -> x ∈ waiting (queue n)) -> rn_GetReady (fsm n) = (rd, s) ->
  simulated n (set_queue q' (set_frames (<[flusher_thread := MkFrame (LocalsGetReady rd) (Satisfied tt)]> (frames n)) (set_fsm s n))).
Proof.
  intros Hs Hfl Hfr Hq Hrd. apply (step_simulated PReady); [done|by apply fewer_grown| | |done].
  - cbn. by rewrite lookup_insert_eq.
  - pose proof (pipe_ready (abs n) (memstore_ n) rd s) as Hp. unfold abs, in_flight in *. cbn in *. rewrite Hfl, Hfr in *.
    rewrite lookup_insert_eq. destruct rd; by apply Hp.
Qed.

Lemma run_closure_simulated lost p t n :
  node_inv lost n -> shape n -> task_ (queue n) = Some (p, t) -> is_write t = false ->
  wp (_ ← run_closure t; queue_control DoRun) n (ok (simulated n)).
Proof.
  intros Hi Hs Ht Hw. destruct (step_run (queue n) _ (inv_queue _ _ _ _ _ _ _ _ Hi) Ht) as (q' & Hrun & Hwait & _).
  assert ((p, t) ∈ waiting (queue n)) as Hin by (rewrite Hwait; by left).
  assert (forall x, x ∈ waiting q' -> x ∈ waiting (queue n)) as Hq by (intros x Hx; rewrite Hwait; by right).
  pose proof (inv_tasks _ _ _ _ _ _ _ _ Hi p t Hin) as Hslot.
  assert (forall l s, wp (_ ← signal_frame (task_thread t) l; queue_control DoRun) (set_fsm s n) (fun r n' =>
    r = Ok tt /\ n' = set_queue q' (set_frames (<[task_thread t := MkFrame l (Satisfied tt)]> (frames n)) (set_fsm s n)))) as Hend.
  { intros l s. assert (exists l0, frames n !! task_thread t = Some (MkFrame l0 Pending)) as [l0 Hl0] by (by destruct t).
    apply wp_bind. eapply wp_eq; [by apply (signal_frame_ok _ l l0)|]. by eapply wp_eq; [by eapply queue_control_eq|]. }
  assert (forall l s, task_thread t <> flusher_thread ->
    pipe_step PRaft (abs n) (set_p_node (fst s) (abs n)) \/ fst s = node_ n ->
    wp (_ ← signal_frame (task_thread t) l; queue_control DoRun) (set_fsm s n) (ok (simulated n))) as Hother.
  { intros l s Hth Hstep. eapply wp_mono; [apply Hend|]. intros r n' [-> ->]. by apply closure_simulated. }
  assert ((forall th, t <> TaskGetReady th) -> task_thread t <> flusher_thread) as Hne.
  { intros Hnr He. by apply (Hnr flusher_thread), (shape_other n Hs p). }
  destruct t as [th|th|th log|th msg|th|th]; cbn [run_closure task_thread] in *; try done; apply wp_assoc, wp_bind.
  - unfold run_fsm. eapply wp_eq; [done|]. apply Hother; [by apply Hne|]. left. apply (pipe_tick (abs n) (memstore_ n)).
  - pose proof (shape_ready n Hs p th Hin) as ->. destruct Hslot as [l0 Hl0].
    cbn in Hl0. pose proof (shape_frame n Hs l0 Hl0) as ->.
    assert (flusher n = FlusherWaits) as Hfl by (apply (inv_flusher _ _ _ _ _ _ _ _ Hi); by rewrite Hl0).
    unfold run_fsm. destruct (rn_GetReady (fsm n)) as [rd s] eqn:Hrd. eapply wp_eq; [by rewrite Hrd|].
    eapply wp_mono; [apply Hend|]. intros r n' [-> ->]. by apply ready_simulated.
  - unfold run_fsm. destruct (rn_Step msg (fsm n)) as [c s] eqn:Hst. eapply wp_eq; [by rewrite Hst|].
    assert (pipe_step PRaft (abs n) (set_p_node (fst s) (abs n))) as Hstep.
    { pose proof (pipe_message (abs n) (memstore_ n) msg) as Hm. cbn in Hm. change (node_ n, memstore_ n) with (fsm n) in Hm. by rewrite Hst in Hm. }
    destruct c as [code|]; [|apply Hother; [by apply Hne|by left]].
    apply wp_assoc, wp_bind. destruct code; (eapply wp_eq; [done|]); cbn; try (apply Hother; [by apply Hne|by left]). done.
  - apply wp_gets. pose proof (fun l => Hother l (fsm n)) as H. setoid_rewrite (set_fsm_id n) in H. apply H; [by apply Hne|by right].
  - apply wp_gets. pose proof (fun l => Hother l (fsm n)) as H. setoid_rewrite (set_fsm_id n) in H. apply H; [by apply Hne|by right].
Qed.

Lemma proposed_simulated p th log q' n :
  shape n -> task_ (queue n) = Some (p, TaskWrite th log) -> (forall x, x ∈ waiting q' -> x ∈ waiting (queue n)) ->
  simulated n (proposed th log q' n).
Proof.
  intros Hs Ht Hq. unfold proposed. destruct (rn_IsLeader (node_ n)) eqn:Hlead.
  - destruct (rn_Propose log (fsm n)) as [[e|] s] eqn:Hp.
    + apply (step_simulated PRaft); [done|by apply fewer_grown|apply Hs| |done]. exact (pipe_refused (abs n) _ log e s Hp).
    + apply (step_simulated (PPropose th log)); [done|by apply fewer_grown|apply Hs| |].
      * pose proof (pipe_propose (abs n) (memstore_ n) th log s Hlead Hp) as Hstep.
        revert Hstep. unfold abs, wal_accepted, notified, proposals. cbn. rewrite !omap_app. cbn. by rewrite !app_nil_r.
      * intros th' log' [= <- <-]. exists p. unfold waiting. rewrite Ht. by left.
  - apply unseen_simulated; [done|]. split_and!; [done..|]. by apply fewer_grown.
Qed.

Lemma run_task_simulated lost n : node_inv lost n -> shape n -> wp run_task n (ok (simulated n)).
Proof.
  intros Hi Hs. destruct (task_ (queue n)) as [[p t]|] eqn:Ht.
  2: { apply wp_bind, wp_gets. rewrite Ht. by apply wp_fail. }
  destruct (step_run (queue n) _ (inv_queue _ _ _ _ _ _ _ _ Hi) Ht) as (q' & Hrun & Hwait & _).
  destruct (is_write t) eqn:Hw; [destruct t as [| |th log| | |]; try done|].
  - destruct (registering n) as [i|] eqn:Hr.
    + apply wp_bind, wp_gets. rewrite Ht. apply wp_bind, wp_gets. rewrite Hr. apply unseen_wp; [done|].
      pose proof (unseen_queue DoRun I). preserves_tac.
    + eapply wp_eq; [by eapply propose_run|]. apply (proposed_simulated p); [done|done|]. intros x Hx. rewrite Hwait. by right.
  - apply wp_bind, wp_gets. rewrite Ht. destruct t; try done; by eapply run_closure_simulated.
Qed.

(** ** The flusher *)

(** It moves on, and the [Ready] under way is what it was. *)
Lemma flusher_stays pc n n1 :
  shape n -> unseen n n1 -> in_flight (set_flusher pc n1) = in_flight n -> simulated n (set_flusher pc n1).
Proof.
  intros Hs Hu Hf. apply stay_simulated; [done|apply Hu|apply (unseen_shape _ _ Hu Hs)|].
  destruct Hu as (E1 & _ & _ & E4 & E5 & E6 & _). unfold abs. by rewrite <- Hf, <- E1, <- E4, <- E5, <- E6.
Qed.

Lemma pass_unseen (ev : Ready -> event) rd n :
  match ev rd with SentAsLeader _ | SentAsFollower _ => True | _ => False end ->
  wp (pass_messages ev rd) n (fun r n' => match r with
    | Ok rd' => unseen n n' /\ (rd' = rd \/ rd' = clear_messages rd)
    | _ => True
    end).
Proof.
  intros Hev. unfold pass_messages. destruct (messages rd) eqn:Hm; [apply wp_ret; split; [done|by left]|]. rewrite <- Hm.
  apply wp_bind, wp_gets, wp_bind, wp_zoom. eapply wp_mono with (P := fun _ _ => True); [done|].
  intros [[]|e|h] net _; [|done|done]. apply wp_bind, wp_modify, wp_ret. split; [|by right].
  transitivity (set_network net n); [done|]. apply (unseen_event (ev rd)). by destruct (ev rd).
Qed.

Lemma flush_simulated stage rd n :
  shape n -> flusher n = Flushing stage rd -> wp (flush_step stage rd) n (ok (simulated n)).
Proof.
  intros Hs Hf. assert (in_flight n = in_flight (set_flusher (Flushing stage rd) n)) as Hfl.
  { unfold in_flight. cbn. by rewrite Hf. }
  destruct stage; cbn [flush_step]; apply wp_bind; cbn in Hfl.
  - apply wp_bind, wp_gets. case_match; [|by apply wp_ret, wp_modify, flusher_stays].
    eapply wp_mono; [by apply pass_unseen|]. intros [rd'|e|h] n1; [|done|done]. intros [Hu Hrd].
    apply wp_modify, flusher_stays; [done|done|]. rewrite Hfl. by destruct Hrd as [-> | ->].
  - destruct (write_wal rd n) as [[[]|e|h] n1] eqn:Hp; (eapply wp_eq; [exact Hp|]); [|done|done].
    apply wp_modify. apply write_wal_writes in Hp as (w & _ & ->). apply (step_simulated PWrites); [done|done|apply Hs| |done].
    assert (p_flight (abs n) = Held (entries rd) (has_commit rd)) as Hh by (cbn; by rewrite Hfl).
    pose proof (pipe_writes (abs n) _ _ Hh) as Hstep.
    assert (abs (set_flusher (Flushing NotifyCommit rd) (add_event (WalAccepted rd) (set_wal_ w n)))
      = MkPipe (node_ n) (Written (has_commit rd)) (p_log (abs n) ++ entries rd) (p_told (abs n)) (p_prop (abs n))) as ->; [|done].
    unfold abs, wal_accepted, notified, proposals. cbn. rewrite !omap_app, fmap_app, join_app. cbn. by rewrite !app_nil_r.
  - assert (p_flight (abs n) = Written (has_commit rd)) as Hh by (cbn; by rewrite Hfl).
    pose proof (pipe_notify (abs n) _ Hh) as Hstep. unfold notify_commit.
    destruct (has_commit rd) as [c|].
    + apply wp_bind, wp_zoom. eapply wp_mono with (P := fun _ _ => True); [done|].
      intros [u|e|h] ob _; [|done|done]. apply wp_modify, wp_modify.
      apply (step_simulated PNotify); [done|done|apply Hs| |done]. revert Hstep. unfold abs, wal_accepted, notified, proposals. cbn. rewrite !omap_app. cbn. by rewrite !app_nil_r.
    + apply wp_ret, wp_modify. apply (step_simulated PNotify); [done|done|apply Hs| |done].
      revert Hstep. unfold abs. cbn. by rewrite app_nil_r.
  - apply wp_modify, wp_modify. by apply (flusher_stays _ n (set_memstore_ _ n)).
  - apply wp_bind, wp_gets. case_match; [|by apply wp_ret, wp_modify, flusher_stays].
    eapply wp_mono; [by apply pass_unseen|]. intros [rd'|e|h] n1; [|done|done]. intros [Hu Hrd].
    by apply wp_modify, flusher_stays.
Qed.

(** ** Calls and loops *)

(** A closure is submitted, with or without a frame. *)
Lemma submit_grown n n' p t :
  next_thread n <= next_thread n' -> queue n' = Enqueue p t (queue n) -> newcomer n t -> grown n n'.
Proof.
  intros Hn Hq Hnew. split; [done|]. intros p' t'. rewrite Hq, waiting_Enqueue.
  intros [Hx|Hx]%elem_of_app Hold; [done|]. apply list_elem_of_singleton in Hx. by injection Hx as -> ->.
Qed.

(** A loop or a new call submits a closure and waits. *)
Lemma submit_simulated th l t n n' :
  shape n -> th <> flusher_thread -> newcomer n t -> next_thread n <= next_thread n' ->
  n' = set_next_thread (next_thread n') (set_queue (Enqueue th t (queue n)) (set_frames (<[th := MkFrame l new_Barrier]> (frames n)) n)) ->
  simulated n n'.
Proof.
  intros Hs Hth Hnew Hn ->. apply unseen_simulated; [done|]. split_and!; try done.
  - cbn. by rewrite lookup_insert_ne.
  - by eapply submit_grown.
Qed.

Lemma begin_wait_simulated l (t : Z -> task) n :
  shape n -> newcomer n (t (next_thread n)) ->
  wp (begin_call (fun thread => submit_and_wait thread l (t thread))) n (ok (simulated n)).
Proof.
  intros Hs Hnew. eapply wp_eq; [done|]. pose proof (shape_threads n Hs).
  apply (submit_simulated (next_thread n) l (t (next_thread n))); [done|unfold flusher_thread; lia|done|cbn; lia|done].
Qed.

Lemma begin_write_simulated log n : shape n -> wp (node_step (ClientWrites log)) n (ok (simulated n)).
Proof.
  intros Hs. eapply wp_eq; [done|]. apply unseen_simulated; [done|]. split_and!; try done.
  apply (submit_grown _ _ (next_thread n) (TaskWrite (next_thread n) log)); cbn; [lia|done|lia].
Qed.

Lemma leave_frame_unseen th : th <> flusher_thread -> preserves unseen (leave_frame th).
Proof.
  intros Hth n. unfold leave_frame. destruct (frames n !! th) as [f|]; [|done]. destruct (Wait _); [|done|done].
  split_and!; try done. cbn. by rewrite lookup_delete_ne.
Qed.

Lemma leave_write_unseen th : preserves unseen (leave_write th).
Proof.
  intros n. unfold leave_write. destruct (channels _ !! th) as [c|]; [|done]. by destruct (channel_receive c) as [[]| |].
Qed.

Lemma call_returns_unseen th : preserves unseen (call_returns th).
Proof.
  intros n. unfold call_returns. destruct (Z.ltb_spec th 2); [done|].
  pose proof (leave_frame_unseen th ltac:(unfold flusher_thread; lia)). pose proof (leave_write_unseen th).
  assert (forall o, preserves unseen (modify (add_event (CallReturned th o)) : Prog ErrorCode Node unit)) by (intros o; by apply unseen_event).
  assert (preserves unseen (l ← leave_frame th; modify (add_event (CallReturned th (Returned l))))) as Hl by preserves_tac.
  assert (preserves unseen (s ← leave_write th; modify (add_event (CallReturned th (WriteReturned s))))) as Hw by preserves_tac.
  destruct (decide _); [apply Hl|apply Hw].
Qed.

Lemma loop_unseen f : preserves unseen (timer_loop f) /\ preserves unseen (flusher_loop f).
Proof. unfold timer_loop, flusher_loop. split; intros n; by destruct (f _). Qed.

Lemma flusher_asks_simulated lost n : node_inv lost n -> shape n -> wp (node_step FlusherAsks) n (ok (simulated n)).
Proof.
  intros Hi Hs. apply wp_bind, wp_gets, wp_bind, wp_gets. destruct (flusher n) eqn:Hf; [|done|done].
  case_match; [|done]. eapply wp_eq; [done|]. apply stay_simulated; [done| | |].
  - by apply (submit_grown _ _ flusher_thread (TaskGetReady flusher_thread)).
  - cbn. rewrite lookup_insert_eq. by intros l [= <-].
  - unfold abs, in_flight. cbn. by rewrite lookup_insert_eq, Hf.
Qed.

Lemma flusher_returns_simulated lost n : node_inv lost n -> shape n -> wp (node_step FlusherReturns) n (ok (simulated n)).
Proof.
  intros Hi Hs. apply wp_bind. unfold leave_frame, wp. destruct (frames n !! flusher_thread) as [[l b]|] eqn:Hfr; [|done].
  destruct (Wait _) as [x| |] eqn:Hw; [|done|done]. cbn [frame_locals].
  assert (flusher n = FlusherWaits) as Hfl by (apply (inv_flusher _ _ _ _ _ _ _ _ Hi); by rewrite Hfr).
  assert (forall pc, match l with LocalsGetReady (Some rd) => pc = Flushing SendAsLeader rd | _ => pc = FlusherIdle end ->
    simulated n (set_flusher pc (set_frames (delete flusher_thread (frames n)) n))) as Hpc.
  { intros pc Hpc. apply stay_simulated; [done|done|cbn; by rewrite lookup_delete_eq|].
    unfold abs, in_flight. cbn. rewrite Hfl, Hfr. by destruct l as [|[rd|]| | |]; subst pc. }
  destruct l as [|[rd|]| | |]; try by apply Hpc. destruct async_starts_thread eqn:Ha; [by apply Hpc|].
  split; [|split; [done|]].
  - apply (grown_shape n); [done|done|]. cbn. by rewrite lookup_delete_eq.
  - exists PDrops. split; [|done]. apply (pipe_drops (abs n) (entries rd) (has_commit rd)); [done|].
    unfold abs, in_flight. cbn. by rewrite Hfl, Hfr.
Qed.

Lemma node_step_simulated lost c n : node_inv lost n -> shape n -> wp (node_step c) n (ok (simulated n)).
Proof.
  intros Hi Hs. pose proof (fun f => proj1 (loop_unseen f)) as Htimer. pose proof (fun f => proj2 (loop_unseen f)) as Hflusher.
  destruct c; cbn [node_step].
  - by apply unseen_wp.
  - apply wp_bind, wp_gets. case_match; [|done]. eapply wp_eq; [done|].
    by apply (submit_simulated timer_thread LocalsTick (TaskTick timer_thread)).
  - apply unseen_wp; [done|]. apply preserves_bind; [apply _|by apply leave_frame_unseen|]. intros l. apply preserves_ret, _.
  - apply wp_bind, wp_gets. case_match; [by apply unseen_wp|done].
  - by apply unseen_wp.
  - by eapply flusher_asks_simulated.
  - by eapply flusher_returns_simulated.
  - apply wp_bind, wp_gets. destruct (flusher n) eqn:Hf; [done|done|]. by apply flush_simulated.
  - apply wp_bind, wp_gets. destruct (flusher n); [by apply unseen_wp|done|done].
  - by apply unseen_wp, unseen_queue.
  - by apply unseen_wp, unseen_queue.
  - by apply unseen_wp, unseen_queue.
  - by eapply run_task_simulated.
  - by apply begin_write_simulated.
  - apply (begin_wait_simulated _ TaskLeaderHint); cbn; [done|lia].
  - apply (begin_wait_simulated _ (fun th => TaskStep th msg)); cbn; [done|lia].
  - apply (begin_wait_simulated _ TaskStatus); cbn; [done|lia].
  - apply unseen_wp; [done|]. apply call_returns_unseen.
Qed.

(** ** Runs *)

Inductive pipe_run : list pipe_label -> pipe -> pipe -> Prop :=
  | pipe_run_nil p : pipe_run [] p p
  | pipe_run_cons l ls p p1 p2 : pipe_step l p p1 -> pipe_run ls p1 p2 -> pipe_run (l :: ls) p p2.

(** What every member that was reached has. *)
Definition reached (n : Node) : Prop := node_inv (fun _ => False) n /\ shape n.

Lemma New_reached this options n :
  opt_taskQueue options = None -> New this options = Ok n -> reached n /\ abs n = MkPipe (node_ n) NoReady [] [] [].
Proof.
  intros Hq HN. split; [split; [by apply (New_inv _ this options n); [intros ? []|..]|]|].
  all: unfold New in HN; rewrite Hq in HN; destruct (Validate options), (opt_wal options); try done;
    destruct (new_RawNode _ _) as [rn ms]; destruct (match opt_flusher options with Some f => Ok f | None => new_ReadyFlusher end);
    try done; injection HN as <-.
  2: done.
  split; [done| | |done].
  - intros p th Hin. by apply elem_of_nil in Hin.
  - intros p t Hin. by apply elem_of_nil in Hin.
Qed.

Lemma step_reached c n n' :
  channel_built_in_place = true -> reached n -> node_step c n = (Ok tt, n') ->
  reached n' /\ simulated n n'.
Proof.
  intros Hce [Hi Hs] Hstep.
  pose proof (wp_run _ _ _ _ _ (node_step_inv _ c n (fun _ _ => Hce) Hi) Hstep) as Hi'.
  pose proof (wp_run _ _ _ _ _ (node_step_simulated _ c n Hi Hs) Hstep) as Hsim. cbn in *. split; [split; [done|apply Hsim]|done].
Qed.

Lemma run_reached cs n n' :
  channel_built_in_place = true -> reached n -> node_run cs n = (Ok tt, n') ->
  reached n' /\ exists ls, pipe_run ls (abs n) (abs n').
Proof.
  intros Hce. revert n. induction cs as [|c cs IH]; intros n Hr Hrun; cbn in Hrun.
  { injection Hrun as <-. split; [done|]. exists []. constructor. }
  unfold mbind, prog_bind in Hrun. destruct (node_step c n) as [[[]|e|h] n1] eqn:Hstep; [|done|done].
  destruct (step_reached c n n1 Hce Hr Hstep) as [Hr1 (_ & _ & l & Hl & _)].
  destruct (IH n1 Hr1 Hrun) as [Hr' [ls Hls]]. split; [done|]. exists (l :: ls). by econstructor.
Qed.
End pipeline.

(** ** Theorem *)

Section theorem.
Context (Y : YaraftPb) (M : MemStoreLib Y) (MSG : YaraftMsg) (RAFT : RaftLib M MSG).
Context (WAL : WriteAheadLog Y) (EI : ErasedIterator) (TC : Toolchain).

(** C5: a member implements the pipeline: under every schedule of its threads, each step is a step of
    the abstract machine or leaves it alone, so that what reaches the log and the clients is what
    a sequential run of proposals, [Ready]s, writes and notifications gives, one [Ready] at a
    time.  (The machine drops a [Ready] only where [std::async] defers the flush; asked is that the
    channel of a write is built in place.) *)
Theorem member_refines_pipeline this options n0 cs n :
  channel_built_in_place = true ->
  opt_taskQueue options = None -> New this options = Ok n0 -> node_run cs n0 = (Ok tt, n) ->
  exists ls, pipe_run ls (MkPipe (node_ n0) NoReady [] [] []) (abs n).
Proof.
  intros Hce Hq HN Hrun. destruct (New_reached this options n0 Hq HN) as [Hr <-].
  by apply (run_reached cs).
Qed.
End theorem.
