(* ===== verification/Commit.v ===== *)
(** * A write that was acknowledged is in the log

    [Write] answers OK when a commit index at or above the index of the proposal is announced.
    What this is worth is a matter of the state machine: with the laws of Raft ([RaftSpec]) and a
    member that stays the leader of its term, the entry itself is on disk by then and a new process
    recovers it.  The proof follows one entry through the pipeline. *)

From S2P Require Import Prelude External Coding Status Posix Segment LogWriter ReadSegment LogManager LogSpec Channel TaskQueue Observer Cluster Node NodeSpec System Durability Process Pipeline.

Section entry.
Context {Y : YaraftPb} {M : MemStoreLib Y} {MSG : YaraftMsg} {RAFT : RaftLib M MSG}.
Context {V : RaftView RAFT} {RS : RaftSpec RAFT V}.
Context {WAL : WriteAheadLog Y} {EI : ErasedIterator} {TC : Toolchain}.

(** ** Commit indices *)

Definition flight_entries (f : flight) : list Entry := match f with Held es _ => es | _ => [] end.
Definition flight_commit (f : flight) : option Z :=
  match f with Held _ c | Written c => c | NoReady => None end.

(** The state machine has committed what was announced or is about to be. *)
Definition heard (p : pipe) : Prop :=
  Forall (fun c => c <= raft_committed (p_node p)) (p_told p ++ option_list (flight_commit (p_flight p))).

Lemma heard_node rn p : raft_committed (p_node p) <= raft_committed rn -> heard p -> heard (set_p_node rn p).
Proof. intros Hle Hh. eapply Forall_impl; [exact Hh|]. cbn. lia. Qed.

(** ** Where an entry is *)

(** It is in [es], and what follows it there has a higher index. *)
Definition placed (e : Entry) (es : list Entry) : Prop :=
  exists l1 l2, es = l1 ++ e :: l2 /\ Forall (fun e' => entry_index e < entry_index e') l2.

Definition above (e : Entry) : list Entry -> Prop := Forall (fun e' => entry_index e < entry_index e').
Definition below (e : Entry) : list Z -> Prop := Forall (fun c => c < entry_index e).

Lemma placed_app e es es' : placed e es -> above e es' -> placed e (es ++ es').
Proof.
  intros (l1 & l2 & -> & Hl2) Ha. exists l1, (l2 ++ es'). split; [by rewrite <- app_assoc|]. by apply Forall_app.
Qed.

(** Not handed out yet, handed out and not written yet, or written; its index is not announced
    before it is written. *)
Inductive tracked (e : Entry) (p : pipe) : Prop :=
  | tracked_unstable :
      placed e (raft_unstable (p_node p)) -> below e (p_told p ++ option_list (flight_commit (p_flight p))) -> tracked e p
  | tracked_held es commit :
      p_flight p = Held es commit -> placed e es -> above e (raft_unstable (p_node p)) -> below e (p_told p) -> tracked e p
  | tracked_written :
      placed e (p_log p) -> above e (flight_entries (p_flight p)) -> above e (raft_unstable (p_node p)) -> tracked e p.

Definition followed (e : Entry) (p : pipe) : Prop := tracked e p /\ entry_index e <= raft_last (p_node p).

Lemma appends_above e rn rn' :
  raft_appends rn rn' -> entry_index e <= raft_last rn -> above e (raft_unstable rn) -> above e (raft_unstable rn').
Proof.
  intros (_ & _ & ext & -> & Hext) Hle Ha. apply Forall_app. split; [done|]. eapply Forall_impl; [exact Hext|]. cbn. lia.
Qed.

(** The log of the state machine is appended to. *)
Lemma appends_followed e rn p :
  raft_appends (p_node p) rn -> followed e p -> followed e (set_p_node rn p).
Proof.
  intros Ha [Ht Hle]. pose proof Ha as (_ & Hlast & ext & Hu & Hext). split; [|cbn; lia]. destruct Ht.
  - apply tracked_unstable; [|done]. cbn. rewrite Hu. apply placed_app; [done|]. eapply Forall_impl; [exact Hext|]. cbn. lia.
  - eapply tracked_held; [done|done| |done]. by eapply appends_above.
  - apply tracked_written; [done|done|]. by eapply appends_above.
Qed.

Lemma appends_refl rn : raft_appends rn rn.
Proof. split; [lia|]. split; [lia|]. exists []. by rewrite app_nil_r. Qed.

Lemma appends_trans rn1 rn2 rn3 : raft_appends rn1 rn2 -> raft_appends rn2 rn3 -> raft_appends rn1 rn3.
Proof.
  intros (C1 & L1 & e1 & U1 & F1) (C2 & L2 & e2 & U2 & F2). split; [lia|]. split; [lia|].
  exists (e1 ++ e2). rewrite U2, U1, <- app_assoc. split; [done|]. apply Forall_app. split; [done|].
  eapply Forall_impl; [exact F2|]. cbn. lia.
Qed.

Lemma ticks_append k s : raft_appends (fst s) (fst (Nat.iter k rn_Tick s)).
Proof.
  induction k as [|k IH]; [apply appends_refl|]. eapply appends_trans; [exact IH|]. apply rn_Tick_appends.
Qed.

(** ** Steps of the pipeline *)

Lemma heard_step l p p' : pipe_step l p p' -> heard p -> heard p'.
Proof.
  intros Hs Hh. destruct Hs as [p|p ms|p ms msg|p ms log e s Hp|p ms th log s Hl Hp|p ms rd s Hf Hrd|p es c Ha Hf|p es c Hf|p c Hf].
  - done.
  - apply heard_node; [|done]. apply (ticks_append _ (_, ms)).
  - apply heard_node; [|done]. apply (rn_Step_committed msg (_, ms)).
  - apply heard_node; [|done]. by apply (rn_Propose_refused log (_, ms) e).
  - destruct (rn_Propose_accepted log (_, ms) s Hl Hp) as (e & _ & _ & _ & _ & _ & _ & Hc).
    by apply (heard_node (fst s)) in Hh.
  - unfold heard in *. cbn. rewrite Hf in Hh. cbn in Hh. rewrite app_nil_r in Hh. destruct rd as [rd|]; cbn.
    + destruct (rn_GetReady_some (_, ms) rd s Hrd) as (_ & _ & _ & Hc & Hrdc). cbn in *.
      apply Forall_app. split; [eapply Forall_impl; [exact Hh|]; cbn; lia|].
      fold (has_commit rd) in Hrdc. destruct (has_commit rd) as [c|]; [|done]. repeat constructor. specialize (Hrdc c eq_refl). lia.
    + destruct (rn_GetReady_none (_, ms) s Hrd) as (Hc & _). rewrite app_nil_r. eapply Forall_impl; [exact Hh|]. cbn in *. lia.
  - unfold heard in *. cbn. rewrite app_nil_r. by apply Forall_app in Hh as [? _].
  - unfold heard in *. by rewrite Hf in Hh.
  - unfold heard in *. rewrite Hf in Hh. cbn in *. by rewrite app_nil_r.
Qed.

(** The member leads, in the term [t]. *)
Definition leads (t : Z) (rn : RawNode) : bool := rn_IsLeader rn && (rn_CurrentTerm rn =? t).

Lemma leads_same t rn rn' :
  leads t rn = true -> leads t rn' = true -> rn_IsLeader rn = true /\ rn_IsLeader rn' = true /\ rn_CurrentTerm rn' = rn_CurrentTerm rn.
Proof. unfold leads. rewrite !andb_true_iff, !Z.eqb_eq. intros [? ?] [? ?]. split_and!; [done..|congruence]. Qed.

Lemma followed_ready e p ms rd s :
  p_flight p = NoReady -> rn_GetReady (p_node p, ms) = (rd, s) -> followed e p ->
  followed e (MkPipe (fst s) (from_option held NoReady rd) (p_log p) (p_told p) (p_prop p)).
Proof.
  intros Hf Hrd [Ht Hle]. destruct rd as [rd|]; cbn.
  2: { apply rn_GetReady_none in Hrd. rewrite <- Hf. apply (appends_followed e (fst s) p); [done|by split]. }
  destruct (rn_GetReady_some _ rd s Hrd) as (He & Hu & Hlast & _ & _). cbn in *. split; [|cbn; lia]. destruct Ht as [Hp Hb|es c Hh| Hp _ Ha].
  - rewrite Hf in Hb. cbn in Hb. rewrite app_nil_r in Hb.
    eapply tracked_held; [done|by rewrite He| |done]. cbn. rewrite Hu. constructor.
  - by rewrite Hf in Hh.
  - apply tracked_written; cbn; [done|by rewrite He|rewrite Hu; constructor].
Qed.

Lemma followed_step t l e p p' :
  async_starts_thread = true -> pipe_step l p p' -> leads t (p_node p) = true -> leads t (p_node p') = true -> followed e p -> followed e p'.
Proof.
  intros Hasync Hs Hl Hl' Hfol. destruct Hs as [p|p ms|p ms msg|p ms log er s Hp|p ms th log s Hlead Hp|p ms rd s Hf Hrd|p es c Ha Hf|p es c Hf|p c Hf].
  - done.
  - apply appends_followed; [|done]. apply (ticks_append _ (_, ms)).
  - destruct (leads_same t _ _ Hl Hl') as (? & ? & ?). apply appends_followed; [|done]. by apply (rn_Step_leader msg (_, ms)).
  - apply appends_followed; [|done]. by apply (rn_Propose_refused log (_, ms) er).
  - destruct (rn_Propose_accepted log (_, ms) s Hlead Hp) as (e' & _ & Hi & Hlast & Hu & Hlt & _ & Hc). cbn in *.
    assert (raft_appends (p_node p) (fst s)) as Ha.
    { split; [done|]. split; [lia|]. exists [e']. split; [done|]. by apply Forall_singleton. }
    destruct (appends_followed e (fst s) p Ha Hfol) as [Ht Hle].
    split; [destruct Ht; [by apply tracked_unstable|by eapply tracked_held|by apply tracked_written]|done].
  - by apply (followed_ready e p ms).
  - by rewrite Ha in Hasync.
  - destruct Hfol as [Ht Hle]. split; [|done]. destruct Ht as [Hp Hb|es' c' Hh Hp Ha Hb|Hp Hfl Ha]; cbn in *.
    + apply tracked_unstable; [done|]. by rewrite Hf in Hb.
    + rewrite Hf in Hh. injection Hh as <- <-. apply tracked_written; cbn; [|constructor|done].
      destruct Hp as (l1 & l2 & -> & Hl2). exists (p_log p ++ l1), l2. by rewrite <- app_assoc.
    + rewrite Hf in Hfl. apply tracked_written; cbn; [by apply placed_app|constructor|done].
  - destruct Hfol as [Ht Hle]. split; [|done]. destruct Ht as [Hp Hb|es' c' Hh Hp Ha Hb|Hp Hfl Ha]; cbn in *.
    + apply tracked_unstable; [done|]. cbn. rewrite Hf in Hb. by rewrite app_nil_r.
    + by rewrite Hf in Hh.
    + apply tracked_written; cbn; [done|constructor|done].
Qed.

(** The entry of an accepted proposal is followed from then on. *)
Lemma proposed_followed th log p p' :
  pipe_step (PPropose th log) p p' -> heard p ->
  exists e, entry_data e = log /\ p_prop p' = p_prop p ++ [(th, entry_index e)] /\ followed e p'.
Proof.
  intros Hs Hh. inversion Hs as [| | | |? ms ? ? s Hl Hp| | | |]; subst.
  destruct (rn_Propose_accepted log (_, ms) s Hl Hp) as (e & Hd & Hi & Hlast & Hu & Hlt & Hc & Hcc). cbn in *.
  exists e. split_and!; [done|by rewrite Hi|]. split; [|cbn; lia]. apply tracked_unstable; cbn.
  - rewrite Hu. exists (raft_unstable (p_node p)), []. by split.
  - eapply Forall_impl; [exact Hh|]. cbn. lia.
Qed.

(** Other steps propose nothing. *)
Lemma pipe_step_prop l p p' :
  pipe_step l p p' -> p_prop p' = p_prop p \/ exists th log, l = PPropose th log.
Proof. intros []; eauto. Qed.

(** Once its index was announced, it is written. *)
Lemma announced_written e p c : followed e p -> c ∈ p_told p -> entry_index e <= c -> placed e (p_log p).
Proof.
  intros [[_ Hb|es c' _ _ _ Hb|Hp _ _] _] Hin Hle; [| |done].
  - apply Forall_app in Hb as [Hb _]. pose proof (proj1 (Forall_forall _ _) Hb c Hin) as Hlt. cbn in Hlt. lia.
  - pose proof (proj1 (Forall_forall _ _) Hb c Hin) as Hlt. cbn in Hlt. lia.
Qed.

(** ** Steps of the member *)

(** Every thread that proposed has begun its call. *)
Definition begun (n : Node) : Prop := Forall (fun x => fst x < next_thread n) (proposals (history n)).

Lemma waiting_begun p th log n : reached n -> (p, TaskWrite th log) ∈ waiting (queue n) -> th < next_thread n.
Proof.
  intros [Hi _] Hin. pose proof (inv_tasks _ _ _ _ _ _ _ _ Hi _ _ Hin) as Hc.
  apply (inv_chans _ _ _ _ _ _ _ _ Hi) in Hc as [? _]. lia.
Qed.

(** A step proposes nothing, or what a queued closure asks for. *)
Lemma simulated_cases n n' :
  simulated n n' ->
  (exists l, pipe_step l (abs n) (abs n') /\ proposals (history n') = proposals (history n)) \/
  (exists p th log, pipe_step (PPropose th log) (abs n) (abs n') /\ (p, TaskWrite th log) ∈ waiting (queue n)).
Proof.
  intros (_ & _ & l & Hl & Hw). destruct (pipe_step_prop _ _ _ Hl) as [He|(th & log & ->)]; [left; by exists l|].
  right. destruct (Hw th log eq_refl) as [p Hp]. by exists p, th, log.
Qed.

Definition steady (n : Node) : Prop := reached n /\ heard (abs n) /\ begun n.

Lemma steady_step c n n' :
  channel_built_in_place = true -> steady n -> node_step c n = (Ok tt, n') ->
  steady n' /\ simulated n n'.
Proof.
  intros Hce (Hr & Hh & Hb) Hstep. destruct (step_reached c n n' Hce Hr Hstep) as [Hr' Hsim]. split; [|done].
  pose proof Hsim as (_ & [Hnt _] & l & Hl & _). split_and!; [done|by eapply heard_step|]. unfold begun in *.
  destruct (simulated_cases n n' Hsim) as [(_ & _ & ->)|(p & th & log & Hp & Hin)].
  - eapply Forall_impl; [exact Hb|]. cbn. lia.
  - destruct (proposed_followed th log _ _ Hp Hh) as (e & _ & Hprop & _). cbn in Hprop. rewrite Hprop.
    pose proof (waiting_begun p th log n Hr Hin). apply Forall_app. split; [eapply Forall_impl; [exact Hb|]; cbn; lia|].
    apply Forall_singleton. cbn. lia.
Qed.

Lemma steady_run cs n n' :
  channel_built_in_place = true -> steady n -> node_run cs n = (Ok tt, n') -> steady n'.
Proof.
  intros Hce. revert n. induction cs as [|c cs IH]; intros n Hs Hrun; cbn in Hrun; [by injection Hrun as <-|].
  unfold mbind, prog_bind in Hrun. destruct (node_step c n) as [[[]|e|h] n1] eqn:Hstep; [|done|done].
  eapply IH; [|done]. by eapply steady_step.
Qed.

Lemma New_steady this options n : opt_taskQueue options = None -> New this options = Ok n -> steady n.
Proof.
  intros Hq HN. destruct (New_reached this options n Hq HN) as [Hr Ha]. split_and!; [done| |].
  - unfold heard. rewrite Ha. constructor.
  - unfold begun. pose proof (f_equal p_prop Ha) as Hp. cbn in Hp. rewrite Hp. constructor.
Qed.

(** The member leads in the term [t] in every state of the run. *)
Fixpoint leads_throughout (t : Z) (cs : list choice) (n : Node) : bool :=
  leads t (node_ n) &&
  match cs with
  | [] => true
  | c :: cs => match node_step c n with (Ok _, n') => leads_throughout t cs n' | _ => true end
  end.

(** The call of [thread] writes [log]: what it asks for and what came of it. *)
Record writing (thread : Z) (log : bytes) (n : Node) : Prop := {
  writing_begun : thread < next_thread n;
  writing_queued p log' : (p, TaskWrite thread log') ∈ waiting (queue n) -> log' = log;
  writing_followed i : (thread, i) ∈ proposals (history n) ->
    exists e, entry_data e = log /\ entry_index e = i /\ followed e (abs n);
}.

Lemma writing_step t thread log c n n' :
  channel_built_in_place = true -> async_starts_thread = true -> steady n -> node_step c n = (Ok tt, n') ->
  leads t (node_ n) = true -> leads t (node_ n') = true -> writing thread log n -> writing thread log n'.
Proof.
  intros Hce Hasync Hst Hstep Hl Hl' [W1 W2 W3]. destruct (steady_step c n n' Hce Hst Hstep) as [_ Hsim].
  pose proof Hst as (Hr & Hh & _). pose proof Hsim as (_ & [Hnt Hw] & _).
  assert (forall i, (thread, i) ∈ proposals (history n) ->
    exists e, entry_data e = log /\ entry_index e = i /\ followed e (abs n')) as Hold.
  { intros i (e & ? & ? & Hf)%W3. exists e. split_and!; [done..|].
    destruct Hsim as (_ & _ & l & Hpl & _). by eapply (followed_step t l e (abs n)). }
  split; [lia| |].
  - intros p log' Hin. apply (W2 p), Hw; [done|]. cbn. lia.
  - intros i Hin. destruct (simulated_cases n n' Hsim) as [(_ & _ & Hp)|(p & th & log' & Hp & Hq)].
    + rewrite Hp in Hin. by apply Hold.
    + destruct (proposed_followed th log' _ _ Hp Hh) as (e & Hd & Hprop & Hf). cbn in Hprop. rewrite Hprop in Hin.
      apply elem_of_app in Hin as [Hin|Hin]; [by apply Hold|]. apply list_elem_of_singleton in Hin.
      injection Hin as <- ->. exists e. split_and!; [|done|done]. rewrite Hd. by apply (W2 p).
Qed.

Lemma writing_run t thread log cs n n' :
  channel_built_in_place = true -> async_starts_thread = true -> steady n -> node_run cs n = (Ok tt, n') ->
  leads_throughout t cs n = true -> writing thread log n -> writing thread log n'.
Proof.
  intros Hce Hasync. revert n. induction cs as [|c cs IH]; intros n Hs Hrun Hl Hw; cbn in Hrun, Hl; [by injection Hrun as <-|].
  unfold mbind, prog_bind in Hrun. destruct (node_step c n) as [[[]|e|h] n1] eqn:Hstep; [|done|done].
  apply andb_true_iff in Hl as [Hl Hl1]. assert (leads t (node_ n1) = true) as Hn1.
  { destruct cs; cbn in Hl1; by apply andb_true_iff in Hl1 as [? _]. }
  eapply IH; [by eapply steady_step|done|done|]. by eapply writing_step.
Qed.

(** The call begins. *)
Lemma begin_writing log n n' : steady n -> node_step (ClientWrites log) n = (Ok tt, n') -> writing (next_thread n) log n'.
Proof.
  intros (Hr & _ & Hb) [= <-]. split; [cbn; lia| |].
  - intros p log' Hq. pose proof (waiting_Enqueue (next_thread n) (TaskWrite (next_thread n) log) (queue n)) as Hw.
    change ((p, TaskWrite (next_thread n) log') ∈ waiting (Enqueue (next_thread n) (TaskWrite (next_thread n) log) (queue n))) in Hq.
    rewrite Hw in Hq. apply elem_of_app in Hq as [Hin|Hin].
    + pose proof (waiting_begun p _ log' n Hr Hin). lia.
    + apply list_elem_of_singleton in Hin. by injection Hin as _ ->.
  - intros i Hin. pose proof (proj1 (Forall_forall _ _) Hb _ Hin) as Hlt. cbn in Hlt. lia.
Qed.

(** ** The answer *)

Lemma proposed_in th i h : Proposed th i ∈ h -> (th, i) ∈ proposals h.
Proof. intros Hin. apply list_elem_of_omap. by exists (Proposed th i). Qed.
Lemma notified_in c h : Notified c ∈ h -> c ∈ notified h.
Proof. intros Hin. apply list_elem_of_omap. by exists (Notified c). Qed.

(** The entry of a call that was answered OK is in the log. *)
Lemma acked_placed thread log n :
  writing thread log n -> acked thread (history n) -> exists e, entry_data e = log /\ placed e (p_log (abs n)).
Proof.
  intros [_ _ W3] (i & c & rd & Hle & _ & (h1 & h2 & h3 & Hh) & _).
  destruct (W3 i) as (e & Hd & Hi & Hf).
  { apply proposed_in. rewrite Hh. apply elem_of_app. right. by left. }
  exists e. split; [done|]. apply (announced_written e (abs n) c); [done| |lia].
  apply notified_in. rewrite Hh. rewrite app_comm_cons, app_assoc. apply elem_of_app. right. by left.
Qed.
End entry.

(** ** Recovery *)

Section store.
Context {Y : YaraftPb} {M : MemStoreLib Y} {MA : MemStoreAppend M}.

Lemma foldl_kept e es ms : e ∈ ms_entries ms -> above e es -> e ∈ ms_entries (foldl ms_Append ms es).
Proof.
  revert ms. induction es as [|e' es IH]; intros ms Hin Ha; [done|]. apply Forall_cons in Ha as [He Ha].
  apply IH; [by apply ms_Append_kept|done].
Qed.

Lemma placed_recovered e log es : placed e es -> exists ms, store_of (log ++ es) = Some ms /\ e ∈ ms_entries ms.
Proof.
  intros (l1 & l2 & -> & Ha). exists (foldl ms_Append new_MemoryStorage (log ++ l1 ++ e :: l2)). split.
  - unfold store_of. by destruct log, l1.
  - rewrite !foldl_app. cbn. apply foldl_kept; [apply ms_Append_new|done].
Qed.
End store.

(** ** Theorem *)

Section theorem.
Context (HOST : Host) (CRC : Crc32) (CS : Crc32Spec CRC) (SL : SliceLib) (SS : SliceSpec SL).
Context (Y : YaraftPb) (YS : YaraftPbSpec Y) (M : MemStoreLib Y) (MA : MemStoreAppend M).
Context (SB : StatusBool) (FS : BoostFs) (FSS : BoostFsSpec FS).
Context (MSG : YaraftMsg) (RAFT : RaftLib M MSG) (V : RaftView RAFT) (RS : RaftSpec RAFT V).
Context (EI : ErasedIterator) (TC : Toolchain).

Lemma acked_recovered this options n0 wopts o m log0 size cs1 n1 log cs2 n2 :
  channel_built_in_place = true -> async_starts_thread = true ->
  opt_taskQueue options = None -> New this options = Ok n0 ->
  opt_wal options = Some (o, m) -> log_rep wopts o m log0 size -> fresh_room m ->
  node_run cs1 n0 = (Ok tt, n1) -> node_run (ClientWrites log :: cs2) n1 = (Ok tt, n2) ->
  leads_throughout (rn_CurrentTerm (node_ n1)) (ClientWrites log :: cs2) n1 = true ->
  CallReturned (next_thread n1) (WriteReturned OK) ∈ history n2 ->
  Forall (plain_ready Y MSG) (wal_accepted (history n2)) -> size + readys_cost Y MSG (wal_accepted (history n2)) < 2 ^ 62 ->
  exists r st, reopen (wal_ n2) = (r, st) /\
    match r with
    | Ok ms => exists store e, ms = Some store /\ e ∈ ms_entries store /\ entry_data e = log
    | Err e => e = IOError /\ os_script (fst (wal_ n2)) <> []
    | Halt _ => False
    end.
Proof.
  intros Hce Hasync Hq HN Hw Hrep Hfresh Hrun1 Hrun2 Hl Hret Hp Hsz.
  pose proof (steady_run cs1 n0 n1 Hce (New_steady this options n0 Hq HN) Hrun1) as Hs1.
  pose proof (node_run_follows _ _ _ _ (node_run_follows _ _ _ _ (New_follows _ _ _ _ HN Hw) Hrun1) Hrun2) as Hf.
  pose proof (wal_writes_rep _ _ _ _ _ _ _ _ _ _ _ _ _ _ _ _ Hrep Hfresh Hp Hsz Hf) as Hrep'.
  pose proof (proj1 (proj1 (steady_run _ n1 n2 Hce Hs1 Hrun2))) as Hi.
  pose proof (inv_return _ _ _ _ _ _ _ _ Hi _ Hret) as Hack.
  assert (writing (next_thread n1) log n2) as Hwr.
  { cbn [node_run] in Hrun2. unfold mbind, prog_bind in Hrun2.
    cbn [leads_throughout] in Hl. apply andb_true_iff in Hl as [_ Hl].
    destruct (node_step (ClientWrites log) n1) as [[[]|e|h] n1'] eqn:Hstep; [|done|done].
    eapply writing_run; [done|done|by eapply steady_step|done|exact Hl|by apply begin_writing]. }
  destruct (acked_placed _ _ _ Hwr Hack) as (e & Hd & He').
  destruct (placed_recovered e log0 _ He') as (store & Hstore & Hin).
  destruct (wal_ n2) as [o' m']. cbn in Hrep'. pose proof (reopen_recovers _ _ _ _ _ Hrep') as Hwp. unfold wp in Hwp.
  destruct (reopen (o', m')) as [r st]. exists r, st. split; [done|]. destruct Hwp as [_ Hr].
  destruct r as [ms|err|h]; [|done|done]. destruct Hr as [-> _]. exists store, e. by split_and!.
Qed.

End theorem.
