(* ===== verification/Clients.v ===== *)
(** * The database under concurrent requests: [src/apps/memkv/src/db.cc] on several threads

    [Db.v] serves one request after the other.  Here every request is a call of its own thread:
    [DB::Write] and [DB::Delete] write to the replicated log, wait, and then change the store;
    [DB::Get] asks for the leader, waits, and then reads it.  No lock spans the two halves, so the
    second half of a request may come at any time after the log has answered; each operation of
    [MemKvStore] holds the mutex of the store from start to end and is one step. *)

From S2P Require Import Prelude External Coding Status Posix LogManager LogSpec MemKv Channel TaskQueue Observer Cluster Node NodeSpec Db System Durability Process Pipeline Commit.

Section clients.
Context {K : KvLib} {Y : YaraftPb} {M : MemStoreLib Y} {MSG : YaraftMsg} {RAFT : RaftLib M MSG}.
Context {WAL : WriteAheadLog Y} {EI : ErasedIterator} {TC : Toolchain}.

(** ** State *)

(** A call waits for the log (or for the name of the leader), is about to use the store, or has
    returned; a read returns data. *)
Inductive call_stage := CallWaits | CallGranted | CallAnswered (res : result Error.ErrorCodes (option bytes)).

Record db_call := MkCall { call_request : db_request; call_stage_ : call_stage }.

Record Clients := MkClients {
  member : Node;
  store : MemKvStore;
  calls : gmap Z db_call;
  (** the writes and deletes applied to the store, in order *)
  applied : list Z;
}.

Definition set_member (n : Node) (s : Clients) : Clients := MkClients n (store s) (calls s) (applied s).
Definition set_call (thread : Z) (c : db_call) (s : Clients) : Clients :=
  MkClients (member s) (store s) (<[thread := c]> (calls s)) (applied s).

Definition new_Clients (n : Node) : Clients := MkClients n new_MemKvStore ∅ [].

Abbreviation ClientsM := (Prog ErrorCode Clients).

Definition on_member {A} (p : Prog ErrorCode Node A) : ClientsM A := zoom member set_member p.

(** ** Steps *)

Inductive client_choice :=
  | Begins (r : db_request)
  | LogReturns (thread : Z)
  | Applies (thread : Z)
  (** a step of the member that is not that of a client of the database *)
  | Elsewhere (c : choice).

(** The call of the log a request begins with. *)
Definition first_half (r : db_request) : choice :=
  match request_log r with Some log => ClientWrites log | None => ClientAsksLeader end.

Definition client_begins (r : db_request) : ClientsM unit :=
  if request_defined K r then
    thread ← gets (fun s => next_thread (member s));
    _ ← on_member (node_step (first_half r));
    modify (set_call thread (MkCall r CallWaits))
  else halt_with Undefined.

(** What becomes of the call when the log, or the closure that reads the leader, has answered. *)
Definition answered_stage (id : Z) (r : db_request) (o : outcome) : option call_stage :=
  match o, r with
  | WriteReturned OK, _ => Some CallGranted
  | WriteReturned _, _ => Some (CallAnswered (Err Error.ConsensusError))
  | Returned (LocalsLeaderHint leader), ReqGet _ stale =>
      Some (if negb (leader =? id) && negb stale then CallAnswered (Err Error.ConsensusError) else CallGranted)
  | Returned _, _ => None
  end.

Definition client_returns (thread : Z) : ClientsM unit :=
  c ← gets (fun s => calls s !! thread);
  match c with
  | Some (MkCall r CallWaits) =>
      _ ← on_member (node_step (CallReturns thread));
      n ← gets member;
      match last (history n) with
      | Some (CallReturned _ o) =>
          match answered_stage (Id n) r o with
          | Some stage => modify (set_call thread (MkCall r stage))
          | None => fail RuntimeError
          end
      | _ => fail RuntimeError
      end
  | _ => fail RuntimeError
  end.

(** The operation of the store a request ends with. *)
Definition second_half (r : db_request) : Prog Error.ErrorCodes MemKvStore (option bytes) :=
  match r with
  | ReqWrite path v => _ ← MemKv.Write path v; mret None
  | ReqDelete path => _ ← MemKv.Delete path; mret None
  | ReqGet path _ => data ← MemKv.Get path; mret (Some data)
  end.

Definition client_applies (thread : Z) : ClientsM unit := fun s =>
  match calls s !! thread with
  | Some (MkCall r CallGranted) =>
      match second_half r (store s) with
      | (Halt h, kv) => (Halt h, MkClients (member s) kv (calls s) (applied s))
      | (res, kv) =>
          (Ok tt, MkClients (member s) kv (<[thread := MkCall r (CallAnswered res)]> (calls s))
                    (if request_log r then applied s ++ [thread] else applied s))
      end
  | _ => (Err RuntimeError, s)
  end.

Definition elsewhere (c : choice) (calls : gmap Z db_call) : bool :=
  match c with
  | ClientWrites _ | ClientAsksLeader => false
  | CallReturns thread => bool_decide (calls !! thread = None)
  | _ => true
  end.

Definition client_step (c : client_choice) : ClientsM unit :=
  match c with
  | Begins r => client_begins r
  | LogReturns thread => client_returns thread
  | Applies thread => client_applies thread
  | Elsewhere c =>
      can ← gets (fun s => elsewhere c (calls s));
      if (can : bool) then on_member (node_step c) else fail RuntimeError
  end.

Fixpoint client_run (cs : list client_choice) : ClientsM unit :=
  match cs with
  | [] => mret tt
  | c :: cs => _ ← client_step c; client_run cs
  end.

(** The steps of the member in a run. *)
Definition member_choices (cs : list client_choice) : list choice :=
  cs ≫= fun c =>
    match c with
    | Begins r => [first_half r]
    | LogReturns thread => [CallReturns thread]
    | Applies _ => []
    | Elsewhere c => [c]
    end.

(** ** What the store is *)

(** The requests applied to the store, in the order of their application. *)
Definition applied_requests (s : Clients) : list db_request := omap (fun th => call_request <$> calls s !! th) (applied s).
End clients.
Arguments Clients {_ _ _ _ _}.
Arguments client_choice {_}.

(** ** The history of a member only grows *)

Section longer.
Context {Y : YaraftPb} {M : MemStoreLib Y} {MSG : YaraftMsg} {RAFT : RaftLib M MSG}.
Context {WAL : WriteAheadLog Y} {EI : ErasedIterator} {TC : Toolchain}.

Definition longer (n n' : Node) : Prop := forall ev, ev ∈ history n -> ev ∈ history n'.

#[local] Hint Extern 0 (longer _ _) => (intros ? ?; assumption) : core.

#[global] Instance longer_preorder : PreOrder longer.
Proof. split; [by intros n ev|]. intros n1 n2 n3 H1 H2 ev Hev. auto. Qed.

Lemma longer_event ev : preserves longer (modify (add_event ev) : Prog ErrorCode Node unit).
Proof. intros n ev' Hev. apply elem_of_app. by left. Qed.
Lemma longer_fsm {A} (f : RawNode * MemoryStorage -> A * (RawNode * MemoryStorage)) : preserves longer (run_fsm f).
Proof. intros n ev Hev. unfold run_fsm. by destruct (f (fsm n)). Qed.
Lemma longer_signal th l : preserves longer (signal_frame th l).
Proof. intros n. unfold signal_frame. destruct (frames n !! th) as [f|]; [|done]. by destruct (Signal _). Qed.
Lemma longer_control c : preserves longer (queue_control c).
Proof. intros n. unfold queue_control. by destruct (step c (queue n)) as [[]|]. Qed.
Lemma longer_leave_frame th : preserves longer (leave_frame th).
Proof. intros n. unfold leave_frame. destruct (frames n !! th) as [f|]; [|done]. by destruct (Wait _). Qed.
Lemma longer_leave_write th : preserves longer (leave_write th).
Proof. intros n. unfold leave_write. destruct (channels _ !! th) as [c|]; [|done]. by destruct (channel_receive c) as [[]| |]. Qed.
Lemma longer_timer_loop f : preserves longer (timer_loop f).
Proof. intros n. unfold timer_loop. by destruct (f _). Qed.
Lemma longer_flusher_loop f : preserves longer (flusher_loop f).
Proof. intros n. unfold flusher_loop. by destruct (f _). Qed.
End longer.

#[export] Hint Resolve longer_event longer_fsm longer_signal longer_control longer_leave_frame longer_leave_write longer_timer_loop longer_flusher_loop : preserves.

Section longer_steps.
Context {Y : YaraftPb} {M : MemStoreLib Y} {MSG : YaraftMsg} {RAFT : RaftLib M MSG}.
Context {WAL : WriteAheadLog Y} {EI : ErasedIterator} {TC : Toolchain}.

#[local] Hint Extern 0 (longer _ _) => (intros ? ?; assumption) : core.

Lemma longer_closure t : preserves longer (run_closure t).
Proof. destruct t; cbn [run_closure]; preserves_tac. Qed.
Lemma longer_run_task : preserves longer run_task.
Proof.
  unfold run_task. apply preserves_bind; [apply _|preserves_tac|]. intros [[p t]|]; [|preserves_tac].
  pose proof (longer_closure t). unfold propose. destruct t; preserves_tac.
Qed.
Lemma longer_call_returns th : preserves longer (call_returns th).
Proof.
  intros n. unfold call_returns. destruct (th <? 2); [done|].
  assert (preserves longer (l ← leave_frame th; modify (add_event (CallReturned th (Returned l))))) as Hl by preserves_tac.
  assert (preserves longer (s ← leave_write th; modify (add_event (CallReturned th (WriteReturned s))))) as Hw by preserves_tac.
  destruct (decide _); [apply Hl|apply Hw].
Qed.
Lemma longer_flush stage rd : preserves longer (flush_step stage rd).
Proof.
  destruct stage; cbn [flush_step]; unfold send_as_leader, write_wal, notify_commit, advance_store, send_as_follower, pass_messages; preserves_tac.
Qed.

Lemma longer_step c : preserves longer (node_step c).
Proof.
  pose proof longer_run_task. pose proof longer_call_returns. pose proof longer_flush. destruct c; cbn [node_step];
    unfold timer_turn, GetReady, RaftService_Step, RaftService_Status, AsyncWrite, begin_call, submit_and_wait, Submit; preserves_tac.
Qed.

Lemma step_history c n n' ev : node_step c n = (Ok tt, n') -> ev ∈ history n -> ev ∈ history n'.
Proof.
  intros Hs Hin. pose proof (longer_step c n) as Hl. rewrite Hs in Hl. by apply Hl.
Qed.
End longer_steps.

(** ** The invariant *)

Section invariant.
Context {K : KvLib}.
Context {Y : YaraftPb} {M : MemStoreLib Y} {MSG : YaraftMsg} {RAFT : RaftLib M MSG}.
Context {WAL : WriteAheadLog Y} {EI : ErasedIterator} {TC : Toolchain}.

Lemma returned_thread th th' o n n' :
  node_step (CallReturns th) n = (Ok tt, n') -> last (history n') = Some (CallReturned th' o) -> th' = th.
Proof.
  cbn. unfold call_returns. destruct (th <? 2); [done|]. unfold mbind, prog_bind. destruct (decide _).
  - destruct (leave_frame th n) as [[l|e|h] n1]; [|done|done]. intros [= <-]. cbn. rewrite last_snoc. by intros [= <- _].
  - destruct (leave_write th n) as [[l|e|h] n1]; [|done|done]. intros [= <-]. cbn. rewrite last_snoc. by intros [= <- _].
Qed.

(** A step, read off its result. *)
Lemma client_step_ok c s s' :
  client_step c s = (Ok tt, s') ->
  match c with
  | Begins r => exists n', node_step (first_half r) (member s) = (Ok tt, n') /\
      s' = MkClients n' (store s) (<[next_thread (member s) := MkCall r CallWaits]> (calls s)) (applied s)
  | LogReturns th => exists n' r th' o stage, calls s !! th = Some (MkCall r CallWaits) /\
      node_step (CallReturns th) (member s) = (Ok tt, n') /\ last (history n') = Some (CallReturned th' o) /\
      answered_stage (Id n') r o = Some stage /\
      s' = MkClients n' (store s) (<[th := MkCall r stage]> (calls s)) (applied s)
  | Applies th => exists r res kv, calls s !! th = Some (MkCall r CallGranted) /\ second_half r (store s) = (res, kv) /\
      s' = MkClients (member s) kv (<[th := MkCall r (CallAnswered res)]> (calls s))
             (if request_log r then applied s ++ [th] else applied s)
  | Elsewhere c => exists n', node_step c (member s) = (Ok tt, n') /\ s' = set_member n' s
  end.
Proof.
  intros Hs. destruct c as [r|th|th|c]; cbn [client_step] in Hs.
  - unfold client_begins in Hs. destruct (request_defined K r); [|done].
    unfold on_member, zoom, mbind, prog_bind in Hs. cbn [gets] in Hs.
    destruct (node_step (first_half r) (member s)) as [[[]|e|h] n'] eqn:Hn; try done. injection Hs as <-. by exists n'.
  - unfold client_returns, on_member, zoom, mbind, prog_bind in Hs. cbn [gets] in Hs.
    destruct (calls s !! th) as [[r []]|]; try done.
    destruct (node_step (CallReturns th) (member s)) as [[[]|e|h] n'] eqn:Hn; try done. cbn [gets set_member member] in Hs.
    destruct (last (history n')) as [[| | | | |th' o]|] eqn:Hl; try done.
    destruct (answered_stage (Id n') r o) as [stage|] eqn:Ha; [|done]. injection Hs as <-. by exists n', r, th', o, stage.
  - unfold client_applies in Hs. destruct (calls s !! th) as [[r []]|]; try done.
    destruct (second_half r (store s)) as [[d|e|h] kv] eqn:Hh; try done; injection Hs as <-; by eexists r, _, kv.
  - unfold on_member, zoom, mbind, prog_bind in Hs. cbn [gets] in Hs. destruct (elsewhere c (calls s)); [|done].
    destruct (node_step c (member s)) as [[[]|e|h] n'] eqn:Hn; try done. injection Hs as <-. by exists n'.
Qed.

(** The log has answered the call with OK. *)
Definition granted (s : Clients) (th : Z) : Prop := CallReturned th (WriteReturned OK) ∈ history (member s).

Record client_inv (s : Clients) : Prop := {
  ci_reached : reached (member s);
  ci_wf : kv_wf (store s);
  ci_store q : lookup_path (store s) q = Db.replay (applied_requests s) (lookup_path new_MemKvStore) q;
  ci_calls th c : calls s !! th = Some c -> th < next_thread (member s);
  ci_granted th r : calls s !! th = Some (MkCall r CallGranted) -> is_Some (request_log r) -> granted s th /\ th ∉ applied s;
  ci_applied th : th ∈ applied s ->
    granted s th /\ exists r res, calls s !! th = Some (MkCall r (CallAnswered res)) /\ is_Some (request_log r);
  ci_answered th r d : calls s !! th = Some (MkCall r (CallAnswered (Ok d))) -> is_Some (request_log r) -> th ∈ applied s;
  ci_once : NoDup (applied s);
}.

(** The second half of a request does to the store what the request means. *)
Lemma second_half_applies r kv res kv' :
  kv_wf kv -> second_half r kv = (res, kv') ->
  kv_wf kv' /\ forall q, lookup_path kv' q = apply_request r (lookup_path kv) q.
Proof.
  intros Hwf Hh. destruct r as [path v|path|path stale]; cbn in Hh; unfold mbind, prog_bind in Hh.
  - destruct (kv_write_record K path v kv Hwf) as (res' & kv1 & Hrun & Hwf' & Hl). rewrite Hrun in Hh.
    assert (kv1 = kv') as -> by (destruct res'; by injection Hh). by split.
  - destruct (kv_delete_record K path kv Hwf) as (res' & kv1 & Hrun & Hwf' & Hl). rewrite Hrun in Hh.
    assert (kv1 = kv') as -> by (destruct res'; by injection Hh). by split.
  - assert (snd (MemKv.Get path kv) = kv) as Hg by (by apply kv_get_pure).
    destruct (MemKv.Get path kv) as [res' kv1]. cbn in Hg. subst kv1.
    assert (kv = kv') as -> by (destruct res'; by injection Hh). done.
Qed.

Lemma applied_requests_ext s s' :
  applied s' = applied s -> (forall th, th ∈ applied s -> calls s' !! th = calls s !! th) -> applied_requests s' = applied_requests s.
Proof.
  intros Ha Hc. unfold applied_requests. rewrite Ha. apply list_omap_ext, Forall_Forall2_diag, Forall_forall. intros th Hth. by rewrite Hc.
Qed.

(** The member takes a step. *)
Lemma inv_member c n' s :
  channel_built_in_place = true ->
  node_step c (member s) = (Ok tt, n') -> client_inv s -> client_inv (set_member n' s) /\ next_thread (member s) <= next_thread n'.
Proof.
  intros Hce Hn Hi. destruct (step_reached c _ _ Hce (ci_reached s Hi) Hn) as [Hr' (_ & [Hnt _] & _)].
  assert (forall th, granted s th -> granted (set_member n' s) th) as Hg by (intros th; by apply (step_history c)).
  split; [|done]. split; cbn; try apply Hi; [done|..].
  - intros th cl Hc. pose proof (ci_calls s Hi th cl Hc). lia.
  - intros th r Hc Hlog. destruct (ci_granted s Hi th r Hc Hlog) as [? ?]. split; [by apply Hg|done].
  - intros th Hin. destruct (ci_applied s Hi th Hin) as [? ?]. split; [by apply Hg|done].
Qed.

(** The stage of a call that is not yet applied changes. *)
Lemma inv_call th c s :
  client_inv s -> th ∉ applied s -> th < next_thread (member s) ->
  match call_stage_ c with
  | CallGranted => is_Some (request_log (call_request c)) -> granted s th
  | CallAnswered (Ok _) => request_log (call_request c) = None
  | _ => True
  end -> client_inv (set_call th c s).
Proof.
  intros Hi Hna Hth Hst.
  assert (forall x, x ∈ applied s -> x <> th) as Hne by (intros x Hx ->; done).
  assert (applied_requests (set_call th c s) = applied_requests s) as Hlogs.
  { apply applied_requests_ext; [done|]. intros x Hx. cbn. by rewrite lookup_insert_ne by (symmetry; auto). }
  split; [apply Hi|apply Hi|intros q; rewrite Hlogs; apply Hi|cbn..|apply Hi].
  - intros x cl [[-> ->]|[_ Hx]]%lookup_insert_Some; [done|by eapply (ci_calls s Hi)].
  - intros x r [[-> ->]|[_ Hx]]%lookup_insert_Some Hlog; [split; [by apply Hst|done]|by apply (ci_granted s Hi x r)].
  - intros x Hx. destruct (ci_applied s Hi x Hx) as (? & r & res & Hc & ?). split; [done|]. exists r, res.
    by rewrite lookup_insert_ne by (symmetry; auto).
  - intros x r d [[-> ->]|[_ Hx]]%lookup_insert_Some [log Hlog]; [|by eapply (ci_answered s Hi)]. cbn in Hst. congruence.
Qed.

(** A request is applied. *)
Lemma inv_apply th r res kv s :
  client_inv s -> calls s !! th = Some (MkCall r CallGranted) -> second_half r (store s) = (res, kv) ->
  client_inv (MkClients (member s) kv (<[th := MkCall r (CallAnswered res)]> (calls s))
                (if request_log r then applied s ++ [th] else applied s)).
Proof.
  intros Hi Hc Hh. pose proof (ci_calls s Hi th _ Hc) as Hth.
  destruct (second_half_applies r _ _ _ (ci_wf s Hi) Hh) as [Hwf Hl].
  assert (th ∉ applied s) as Hna.
  { intros Hin. destruct (ci_applied s Hi th Hin) as (_ & r' & res' & Hc' & _). congruence. }
  destruct (request_log r) as [log|] eqn:Hlog.
  - destruct (ci_granted s Hi th r Hc ltac:(by rewrite Hlog)) as [Hg _].
    set (s' := MkClients _ _ _ _).
    assert (applied_requests s' = applied_requests s ++ [r]) as Hlogs.
    { unfold applied_requests. cbn. rewrite omap_app. f_equal; [|cbn; by rewrite lookup_insert_eq].
      apply list_omap_ext, Forall_Forall2_diag, Forall_forall. intros x Hx. cbn. rewrite lookup_insert_ne; [done|]. by intros ->. }
    split; [apply Hi|done| |cbn..].
    + intros q. rewrite Hlogs, db_replay_app. cbn [store s']. rewrite Hl. cbn. apply apply_request_proper. intros q'. apply Hi.
    + intros x cl [[<- <-]|[_ Hx]]%lookup_insert_Some; [done|by eapply (ci_calls s Hi)].
    + intros x r' [[_ ?]|[Hne Hx]]%lookup_insert_Some Hl'; [done|]. destruct (ci_granted s Hi x r' Hx Hl'). split; [done|].
      rewrite elem_of_app, list_elem_of_singleton. intros [?| ->]; done.
    + intros x [Hx|Hx]%elem_of_app.
      * destruct (ci_applied s Hi x Hx) as (? & r' & res' & Hc' & ?). split; [done|]. exists r', res'.
        rewrite lookup_insert_ne; [done|]. by intros ->.
      * apply list_elem_of_singleton in Hx as ->. split; [done|]. exists r, res. by rewrite lookup_insert_eq, Hlog.
    + intros x r' d [[-> _]|[_ Hx]]%lookup_insert_Some Hl'; apply elem_of_app; [right; by left|left; by eapply (ci_answered s Hi)].
    + apply NoDup_app. split_and!; [apply Hi|by intros x Hx ->%list_elem_of_singleton|apply NoDup_singleton].
  - assert (client_inv (set_call th (MkCall r (CallAnswered res)) s)) as [? ? Hst ? ? ? ? ?] by (by apply inv_call; try destruct res).
    split; try done. intros q. cbn [store]. rewrite Hl. destruct r; [done|done|]. apply Hst.
Qed.

Lemma client_step_inv c s s' :
  channel_built_in_place = true ->
  client_step c s = (Ok tt, s') -> client_inv s -> client_inv s'.
Proof.
  intros Hce Hs Hi. apply client_step_ok in Hs. destruct c as [r|th|th|c].
  - destruct Hs as (n' & Hn & ->). destruct (inv_member _ n' s Hce Hn Hi) as [Hi' Hnt].
    assert (next_thread n' = next_thread (member s) + 1) as Hnext by (unfold first_half in Hn; destruct (request_log r); by injection Hn as <-).
    apply (inv_call _ (MkCall r CallWaits) _ Hi'); [|cbn; lia|done]. cbn. intros Hin.
    destruct (ci_applied s Hi _ Hin) as (_ & r' & res & Hc & _). pose proof (ci_calls s Hi _ _ Hc). lia.
  - destruct Hs as (n' & r & th' & o & stage & Hc & Hn & Hl & Ha & ->). destruct (inv_member _ n' s Hce Hn Hi) as [Hi' Hnt].
    pose proof (ci_calls s Hi _ _ Hc) as Hth.
    assert (th' = th) as -> by (eapply returned_thread; [exact Hn|exact Hl]).
    apply (inv_call _ (MkCall r stage) _ Hi'); [|cbn; lia|].
    + cbn. intros Hin. destruct (ci_applied s Hi _ Hin) as (_ & r' & res & Hc' & _). congruence.
    + cbn [call_stage_ call_request]. destruct o as [[]|[]], r; cbn in Ha; simplify_eq; try done;
        try (intros _; by apply last_Some_elem_of in Hl). 
      destruct (negb _ && negb stale); [done|by intros []].
  - destruct Hs as (r & res & kv & Hc & Hh & ->). by apply inv_apply.
  - destruct Hs as (n' & Hn & ->). by apply (inv_member c).
Qed.

Lemma client_run_inv cs s s' :
  channel_built_in_place = true ->
  client_run cs s = (Ok tt, s') -> client_inv s -> client_inv s'.
Proof.
  intros Hce. revert s. induction cs as [|c cs IH]; intros s Hr Hi; cbn in Hr; [by injection Hr as <-|].
  unfold mbind, prog_bind in Hr.
  destruct (client_step c s) as [[[]|e|h] s1] eqn:Hs; [|done|done]. eapply IH; [done|]. by eapply client_step_inv.
Qed.

Lemma new_clients_inv this options n :
  opt_taskQueue options = None -> New this options = Ok n -> client_inv (new_Clients n).
Proof.
  intros Hq HN. destruct (New_reached this options n Hq HN) as [Hr _].
  split; cbn; [done|apply new_store_wf|done|by intros th c Hc|by intros th r Hc| |by intros th r d Hc|constructor].
  intros th Hin. by apply elem_of_nil in Hin.
Qed.

(** The member runs as it would on its own. *)
Lemma client_run_member cs s s' : client_run cs s = (Ok tt, s') -> node_run (member_choices cs) (member s) = (Ok tt, member s').
Proof.
  revert s. induction cs as [|c cs IH]; intros s Hr; cbn in Hr; [by injection Hr as <-|].
  unfold mbind, prog_bind in Hr. destruct (client_step c s) as [[[]|e|h] s1] eqn:Hs; [|done|done].
  specialize (IH s1 Hr). apply client_step_ok in Hs. unfold member_choices in *. rewrite bind_cons.
  destruct c as [r|th|th|c]; cbn [app node_run].
  - destruct Hs as (n' & Hn & ->). by erewrite run_bind_ok by exact Hn.
  - destruct Hs as (n' & r & th' & o & stage & _ & Hn & _ & _ & ->). by erewrite run_bind_ok by exact Hn.
  - by destruct Hs as (r & res & kv & _ & _ & ->).
  - destruct Hs as (n' & Hn & ->). by erewrite run_bind_ok by exact Hn.
Qed.
End invariant.

(** ** Theorems *)

Section theorems.
Context (K : KvLib).
Context (Y : YaraftPb) (M : MemStoreLib Y) (MSG : YaraftMsg) (RAFT : RaftLib M MSG).
Context (WAL : WriteAheadLog Y) (EI : ErasedIterator) (TC : Toolchain).

(** C20: the database under concurrent requests: whatever the interleaving of its clients with each
    other and with the threads of the member, the store is well formed and holds exactly what
    applying the writes and deletes one after the other, in the order in which their threads came
    to it, makes of the empty store; each of them is applied once at most, and only after the
    replicated log has answered its record with OK, that is, after a commit index at or above the
    index of its proposal was announced (which does not say that its entry is still the one at that
    index); and every write and delete that was answered OK was applied.  (Asked is that the channel
    of a write is built in place.) *)
Theorem concurrent_store_is_replay this options n0 cs s :
  channel_built_in_place = true -> opt_taskQueue options = None -> New this options = Ok n0 ->
  client_run cs (new_Clients n0) = (Ok tt, s) ->
  kv_wf (store s) /\
  (forall q, lookup_path (store s) q = Db.replay (applied_requests s) (lookup_path new_MemKvStore) q) /\
  NoDup (applied s) /\ (forall th, th ∈ applied s -> acked th (history (member s))) /\
  (forall th r d, calls s !! th = Some (MkCall r (CallAnswered (Ok d))) -> request_log r <> None -> th ∈ applied s).
Proof.
  intros Hce Hq HN Hr.
  pose proof (client_run_inv cs _ s Hce Hr (new_clients_inv this options n0 Hq HN)) as Hi.
  split_and!; [apply Hi|apply Hi|apply Hi| |].
  - intros th Hin. apply (inv_return _ _ _ _ _ _ _ _ (proj1 (ci_reached s Hi))). by apply (ci_applied s Hi).
  - intros th r d Hc Hlog. apply (ci_answered s Hi th r d Hc). by apply not_eq_None_Some.
Qed.
End theorems.

Section durability.
Context (HOST : Host) (CRC : Crc32) (CS : Crc32Spec CRC) (SL : SliceLib) (SS : SliceSpec SL) (K : KvLib).
Context (Y : YaraftPb) (YS : YaraftPbSpec Y) (M : MemStoreLib Y) (MA : MemStoreAppend M).
Context (SB : StatusBool) (FS : BoostFs) (FSS : BoostFsSpec FS).
Context (MSG : YaraftMsg) (RAFT : RaftLib M MSG) (V : RaftView RAFT) (RS : RaftSpec RAFT V).
Context (EI : ErasedIterator) (TC : Toolchain).

End durability.
