(* ===== verification/Deployment.v ===== *)
(** * The members of a cluster together

    A deployment is a process per address.  Its members take their own steps; a request that a
    member handed to its network ([Cluster.v]) may be delivered to the server of its address, once,
    several times or never, in any order, and is called back at any time.  A member acts on no
    other messages.  (The client of [raft_client.h] asks for no retries, so several deliveries of one
    request allow more than the transport does.)  The theorem is what makes an answer of a follower worth something to a leader:
    it is backed by the disk of the follower. *)

From S2P Require Import Prelude External Status Channel TaskQueue Observer Cluster Node NodeSpec Process Pipeline Clients.

Section deployment.
Context {Y : YaraftPb} {M : MemStoreLib Y} {MSG : YaraftMsg} {RAFT : RaftLib M MSG}.
Context {WAL : WriteAheadLog Y} {EI : ErasedIterator} {TC : Toolchain}.

Record Deployment := MkDeployment {
  members : gmap string Node;
  (** the messages members were given, with the addresses of both ends *)
  delivered : list (string * string * Message);
}.

Abbreviation DeploymentM := (Prog ErrorCode Deployment).

Definition at_member (url : string) (p : Prog ErrorCode Node unit) : DeploymentM unit := fun d =>
  match members d !! url with
  | None => (Err RuntimeError, d)
  | Some n => let '(r, n') := p n in (r, MkDeployment (<[url := n']> (members d)) (delivered d))
  end.

Definition record_delivery (from to : string) (msg : Message) : DeploymentM unit :=
  modify (fun d => MkDeployment (members d) (delivered d ++ [(from, to, msg)])).

Inductive deploy_choice :=
  | Locally (url : string) (c : choice)
  | Delivers (from : string) (request : Z)
  | CallsBack (from : string) (request : Z) (failed : bool).

(** The request [id] of a member. *)
Definition find_request (id : Z) (n : Node) : option request :=
  snd <$> list_find (fun r => req_id r = id) (sent (network n)).

Definition deploy_step (c : deploy_choice) : DeploymentM unit :=
  match c with
  | Locally url (RpcStep _) => fail RuntimeError
  | Locally url c => at_member url (node_step c)
  | Delivers from id =>
      r ← gets (fun d => n ← members d !! from; find_request id n);
      match r with
      | None => fail RuntimeError
      | Some (MkRequest _ url msg) => _ ← at_member url (node_step (RpcStep msg)); record_delivery from url msg
      end
  | CallsBack from id failed => at_member from (on_network (doneCallBack id failed))
  end.

Fixpoint deploy_run (cs : list deploy_choice) : DeploymentM unit :=
  match cs with
  | [] => mret tt
  | c :: cs => _ ← deploy_step c; deploy_run cs
  end.

(** ** Steps that send nothing *)

Definition aloof (n n' : Node) : Prop := network n' = network n /\ cluster_ n' = cluster_ n.

#[global] Instance aloof_preorder : PreOrder aloof.
Proof. split; [done|]. intros n1 n2 n3 [E1 E2] [E3 E4]. split; congruence. Qed.

Lemma aloof_fsm {A} (f : RawNode * MemoryStorage -> A * (RawNode * MemoryStorage)) : preserves aloof (run_fsm f).
Proof. intros n. unfold run_fsm. by destruct (f (fsm n)). Qed.
Lemma aloof_signal th l : preserves aloof (signal_frame th l).
Proof. intros n. unfold signal_frame. destruct (frames n !! th) as [f|]; [|done]. by destruct (Signal _). Qed.
Lemma aloof_control c : preserves aloof (queue_control c).
Proof. intros n. unfold queue_control. by destruct (step c (queue n)) as [[]|]. Qed.
Lemma aloof_leave_frame th : preserves aloof (leave_frame th).
Proof. intros n. unfold leave_frame. destruct (frames n !! th) as [f|]; [|done]. by destruct (Wait _). Qed.
Lemma aloof_leave_write th : preserves aloof (leave_write th).
Proof. intros n. unfold leave_write. destruct (channels _ !! th) as [c|]; [|done]. by destruct (channel_receive c) as [[]| |]. Qed.
Lemma aloof_timer_loop f : preserves aloof (timer_loop f).
Proof. intros n. unfold timer_loop. by destruct (f _). Qed.
Lemma aloof_flusher_loop f : preserves aloof (flusher_loop f).
Proof. intros n. unfold flusher_loop. by destruct (f _). Qed.
End deployment.
Arguments Deployment {_ _ _ _ _}.
Arguments deploy_choice {_}.

#[export] Hint Resolve aloof_fsm aloof_signal aloof_control aloof_leave_frame aloof_leave_write aloof_timer_loop aloof_flusher_loop : preserves.

Section mail.
Context {Y : YaraftPb} {M : MemStoreLib Y} {MSG : YaraftMsg} {RAFT : RaftLib M MSG}.
Context {WAL : WriteAheadLog Y} {EI : ErasedIterator} {TC : Toolchain}.

Lemma aloof_closure t : preserves aloof (run_closure t).
Proof. destruct t; cbn [run_closure]; preserves_tac. Qed.
Lemma aloof_run_task : preserves aloof run_task.
Proof.
  unfold run_task. apply preserves_bind; [apply _|preserves_tac|]. intros [[p t]|]; [|preserves_tac].
  pose proof (aloof_closure t). unfold propose. destruct t; preserves_tac.
Qed.
Lemma aloof_call_returns th : preserves aloof (call_returns th).
Proof.
  intros n. unfold call_returns. destruct (th <? 2); [done|].
  assert (preserves aloof (l ← leave_frame th; modify (add_event (CallReturned th (Returned l))))) as Hl by preserves_tac.
  assert (preserves aloof (s ← leave_write th; modify (add_event (CallReturned th (WriteReturned s))))) as Hw by preserves_tac.
  destruct (decide _); [apply Hl|apply Hw].
Qed.

Definition sends (stage : flush_stage) : bool := match stage with SendAsLeader | SendAsFollower => true | _ => false end.

Lemma aloof_flush stage rd : sends stage = false -> preserves aloof (flush_step stage rd).
Proof. destruct stage; try done; intros _; cbn [flush_step]; unfold write_wal, notify_commit, advance_store; preserves_tac. Qed.

Lemma aloof_step c : c <> FlusherFlushes -> preserves aloof (node_step c).
Proof.
  intros Hc. pose proof aloof_run_task. pose proof aloof_call_returns. destruct c; try done; cbn [node_step];
    unfold timer_turn, GetReady, RaftService_Step, RaftService_Status, AsyncWrite, begin_call, submit_and_wait, Submit; preserves_tac.
Qed.

(** ** What was sent *)

(** A request carries a message of a [Ready] the member passed on, to the address of its recipient. *)
Definition posted (n : Node) (r : request) : Prop :=
  exists rd, (SentAsLeader rd ∈ history n \/ SentAsFollower rd ∈ history n) /\ req_message r ∈ messages rd /\
    zmap_find (message_to (req_message r)) (cluster_ n) = Some (new_Peer (req_url r)).

Definition mail_inv (n : Node) : Prop := forall r, r ∈ sent (network n) -> posted n r.

Definition mailed (n n' : Node) : Prop := mail_inv n' /\ forall r, r ∈ sent (network n) -> r ∈ sent (network n').

Lemma Pass_sent peers mails net net' :
  Pass peers mails net = (Ok tt, net') ->
  exists new, sent net' = sent net ++ new /\
    forall r, r ∈ new -> req_message r ∈ mails /\ zmap_find (message_to (req_message r)) peers = Some (new_Peer (req_url r)).
Proof.
  revert net. induction mails as [|m mails IH]; intros net Hp; cbn [Pass] in Hp.
  { injection Hp as <-. exists []. split; [by rewrite app_nil_r|]. intros r Hr. by apply elem_of_nil in Hr. }
  destruct (message_to m =? 0); [done|]. destruct (zmap_find (message_to m) peers) as [[[url]]|] eqn:Hf; [|done].
  erewrite run_bind_ok in Hp by done. apply IH in Hp as (new & Hs & Hnew). cbn in Hs. rewrite <- app_assoc in Hs.
  eexists. split; [exact Hs|]. intros r [Hr|Hr]%elem_of_app.
  - apply list_elem_of_singleton in Hr as ->. cbn. split; [by left|by rewrite Hf].
  - destruct (Hnew r Hr). split; [by right|done].
Qed.

(** An event is added, more or the same is sent. *)
Lemma posted_mono n n' r :
  (forall ev, ev ∈ history n -> ev ∈ history n') -> cluster_ n' = cluster_ n -> posted n r -> posted n' r.
Proof. intros Hh Hc (rd & Hev & Hm & Hf). exists rd. rewrite Hc. split_and!; [|done|done]. destruct Hev; auto. Qed.

Lemma aloof_mailed n n' : aloof n n' -> longer n n' -> mail_inv n -> mailed n n'.
Proof.
  intros [Hn Hc] Hl Hm. unfold mailed, mail_inv. rewrite Hn. split; [|done]. intros r Hr. by eapply posted_mono, Hm.
Qed.

Lemma pass_mailed (ev : Ready -> event) rd n :
  ev = SentAsLeader \/ ev = SentAsFollower -> mail_inv n ->
  wp (pass_messages ev rd) n (fun r n' => match r with Ok _ => mailed n n' | _ => True end).
Proof.
  intros Hev Hm. unfold pass_messages. destruct (messages rd) as [|m ms] eqn:Hms; [apply wp_ret; by split|]. rewrite <- Hms.
  apply wp_bind, wp_gets, wp_bind. unfold wp, on_network, zoom.
  destruct (Pass (cluster_ n) (messages rd) (network n)) as [[[]|e|h] net'] eqn:Hp; [|done|done].
  apply Pass_sent in Hp as (new & Hs & Hnew). change (mailed n (add_event (ev rd) (set_network net' n))).
  split; [|intros r Hr; change (r ∈ sent net'); rewrite Hs; apply elem_of_app; by left].
  intros r Hr. change (r ∈ sent net') in Hr. rewrite Hs in Hr. apply elem_of_app in Hr as [Hr|Hr].
  - apply (posted_mono n); [|done|by apply Hm]. intros e He. apply elem_of_app. by left.
  - destruct (Hnew r Hr) as [Hin Hf]. exists rd. split_and!; [|done|done].
    destruct Hev as [-> | ->]; [left|right]; apply elem_of_app; right; by left.
Qed.

Lemma set_flusher_mailed pc n n' : mailed n n' -> mailed n (set_flusher pc n').
Proof. done. Qed.

Lemma flush_mailed stage rd n :
  sends stage = true -> mail_inv n -> wp (flush_step stage rd) n (fun r n' => match r with Ok _ => mailed n n' | _ => True end).
Proof.
  intros Hs Hm. destruct stage; try done; cbn [flush_step]; apply wp_bind; unfold send_as_leader, send_as_follower;
    apply wp_bind, wp_gets; (case_match; [|by apply wp_ret, wp_modify]);
    (eapply wp_mono; [by apply pass_mailed; [auto|]|]); intros [rd'|e|h] n' Hn'; try done.
Qed.

Lemma node_step_mailed c n n' : mail_inv n -> node_step c n = (Ok tt, n') -> mailed n n'.
Proof.
  intros Hm Hs. pose proof (longer_step c n) as Hl. rewrite Hs in Hl.
  assert (c = FlusherFlushes \/ c <> FlusherFlushes) as [->|Hc] by (destruct c; by auto).
  2: { pose proof (aloof_step c Hc n) as Ha. rewrite Hs in Ha. by apply aloof_mailed. }
  cbn in Hs. unfold mbind, prog_bind, gets in Hs. destruct (flusher n) as [| |stage rd]; [done|done|].
  destruct (sends stage) eqn:Hst.
  - exact (wp_run _ _ _ _ _ (flush_mailed stage rd n Hst Hm) Hs).
  - pose proof (aloof_flush stage rd Hst n) as Ha. rewrite Hs in Ha. by apply aloof_mailed.
Qed.

(** ** The invariant of a deployment *)

(** [d0] is the start. *)
Record deploy_inv (d0 d : Deployment) : Prop := {
  di_member url n : members d !! url = Some n ->
    reached n /\ mail_inv n /\ exists n0, members d0 !! url = Some n0 /\ follows (wal_ n0) n;
  di_delivered from to msg : (from, to, msg) ∈ delivered d ->
    exists n r, members d !! from = Some n /\ r ∈ sent (network n) /\ req_url r = to /\ req_message r = msg;
}.

(** A member takes a step. *)
Lemma at_member_inv d0 d d' url p :
  deploy_inv d0 d -> at_member url p d = (Ok tt, d') ->
  (forall n n' w0, reached n -> mail_inv n -> follows w0 n -> p n = (Ok tt, n') ->
     reached n' /\ mailed n n' /\ follows w0 n') ->
  deploy_inv d0 d' /\ delivered d' = delivered d /\
  forall from n r, members d !! from = Some n -> r ∈ sent (network n) ->
    exists n', members d' !! from = Some n' /\ r ∈ sent (network n').
Proof.
  intros [Hmem Hdel] Hp Hstep. unfold at_member in Hp. destruct (members d !! url) as [n|] eqn:Hn; [|done].
  destruct (p n) as [[[]|e|h] n'] eqn:Hpn; [|done|done]. injection Hp as <-. cbn.
  destruct (Hmem url n Hn) as (Hr & Hm & n0 & Hn0 & Hf). destruct (Hstep n n' (wal_ n0) Hr Hm Hf Hpn) as (Hr' & [Hm' Hs'] & Hf').
  assert (forall from n1 r, members d !! from = Some n1 -> r ∈ sent (network n1) ->
    exists n2, <[url := n']> (members d) !! from = Some n2 /\ r ∈ sent (network n2)) as Hkeep.
  { intros from n1 r Hn1 Hr1. destruct (decide (from = url)) as [->|Hne].
    - rewrite lookup_insert_eq. exists n'. split; [done|]. apply Hs'. congruence.
    - rewrite lookup_insert_ne by done. by exists n1. }
  split_and!; [split; cbn|done|done].
  - intros u m [[-> ->]|[_ Hu]]%lookup_insert_Some; [|by apply Hmem]. split_and!; [done|done|by exists n0].
  - intros from to msg (n1 & r & Hn1 & Hr1 & Hu & Hmsg)%Hdel. destruct (Hkeep from n1 r Hn1 Hr1) as (n2 & Hn2 & Hr2). by exists n2, r.
Qed.

Lemma node_step_member c n n' w0 :
  channel_built_in_place = true ->
  reached n -> mail_inv n -> follows w0 n -> node_step c n = (Ok tt, n') -> reached n' /\ mailed n n' /\ follows w0 n'.
Proof.
  intros Hce Hr Hm Hf Hs. split_and!; [by eapply step_reached|by eapply node_step_mailed|by eapply node_step_follows].
Qed.

Lemma callback_member id failed n n' w0 :
  reached n -> mail_inv n -> follows w0 n -> on_network (doneCallBack id failed) n = (Ok tt, n') ->
  reached n' /\ mailed n n' /\ follows w0 n'.
Proof. by intros [Hi [S0 S1 S2 S3]] Hm Hf [= <-]. Qed.

Lemma find_request_sent id n r : find_request id n = Some r -> r ∈ sent (network n).
Proof.
  unfold find_request. intros Hf. destruct (list_find _ _) as [[i x]|] eqn:Hl; [|done]. injection Hf as <-.
  apply list_find_Some in Hl as (Hx & _). by eapply list_elem_of_lookup_2.
Qed.

Lemma deploy_step_inv d0 c d d' :
  channel_built_in_place = true ->
  deploy_step c d = (Ok tt, d') -> deploy_inv d0 d -> deploy_inv d0 d'.
Proof.
  intros Hce Hs Hi. destruct c as [url c|from id|from id failed]; cbn [deploy_step] in Hs.
  - assert (at_member url (node_step c) d = (Ok tt, d')) as Hat by (destruct c; first [exact Hs|discriminate Hs]).
    apply (at_member_inv d0 d d' url _ Hi Hat). intros. by eapply node_step_member.
  - unfold mbind, prog_bind in Hs. cbn [gets] in Hs. destruct (members d !! from) as [n|] eqn:Hn; [|done]. cbn in Hs.
    destruct (find_request id n) as [[i url msg]|] eqn:Hr; [|done]. apply find_request_sent in Hr.
    destruct (at_member url _ d) as [[[]|e|h] d1] eqn:Hat; [|done|done]. injection Hs as <-.
    change (at_member url (node_step (RpcStep msg)) d = (Ok tt, d1)) in Hat.
    destruct (at_member_inv d0 d d1 url _ Hi Hat) as ([Hm1 Hd1] & Hdel & Hkeep); [intros; by eapply node_step_member|].
    split; [done|]. cbn. intros f t m [Hin|Hin]%elem_of_app; [by apply Hd1|]. apply list_elem_of_singleton in Hin. injection Hin as -> -> ->.
    destruct (Hkeep from n _ Hn Hr) as (n' & Hn' & Hr'). by exists n', (MkRequest i url msg).
  - apply (at_member_inv d0 d d' from _ Hi Hs). intros. by eapply callback_member.
Qed.

Lemma deploy_run_inv d0 cs d d' :
  channel_built_in_place = true ->
  deploy_run cs d = (Ok tt, d') -> deploy_inv d0 d -> deploy_inv d0 d'.
Proof.
  intros Hce. revert d. induction cs as [|c cs IH]; intros d Hr Hi; cbn in Hr; [by injection Hr as <-|].
  unfold mbind, prog_bind in Hr. destruct (deploy_step c d) as [[[]|e|h] d1] eqn:Hs; [|done|done].
  eapply IH; [done|]. by eapply deploy_step_inv.
Qed.

(** Every process has just been started. *)
Definition started (d : Deployment) : Prop :=
  delivered d = [] /\
  forall url n, members d !! url = Some n -> exists this options, opt_taskQueue options = None /\ New this options = Ok n.

Lemma New_network this options n w0 :
  New this options = Ok n -> network n = new_Network /\ history n = [] /\ (opt_wal options = Some w0 -> wal_ n = w0).
Proof.
  unfold New. destruct (Validate options), (opt_wal options) as [w|]; try done. destruct (new_RawNode _ _) as [rn ms].
  destruct (match opt_taskQueue options with Some q => Ok q | None => new_TaskQueue end); try done.
  destruct (match opt_flusher options with Some f => Ok f | None => new_ReadyFlusher end); try done.
  intros [= <-]. split_and!; [done|done|]. by intros [= ->].
Qed.

Lemma started_inv d : started d -> deploy_inv d d.
Proof.
  intros [Hd Hm]. split; [|intros from to msg Hin; rewrite Hd in Hin; by apply elem_of_nil in Hin].
  intros url n Hn. destruct (Hm url n Hn) as (this & options & Hq & HN). destruct (New_reached this options n Hq HN) as [Hr _].
  destruct (New_network this options n (wal_ n) HN) as (Hnet & Hh & _). split_and!; [done| |].
  - intros r Hr'. rewrite Hnet in Hr'. by apply elem_of_nil in Hr'.
  - exists n. split; [done|]. unfold follows. by rewrite Hh.
Qed.
End mail.

(** ** Theorem *)

Section theorem.
Context (Y : YaraftPb) (M : MemStoreLib Y) (MSG : YaraftMsg) (RAFT : RaftLib M MSG).
Context (WAL : WriteAheadLog Y) (EI : ErasedIterator) (TC : Toolchain).

(** what a member is told by another went to the log of that one first: in every state a cluster
    of members can reach, under every schedule and with requests delivered late, out of order or
    more than once, a message that was delivered came from a [Ready] its sender passed on, to the
    member it names; and unless the sender sent it as the leader, the log of the sender had accepted
    that [Ready] before, and it is the log it was at the start after the writes of all the [Ready]s
    it accepted, this one among them. *)
Theorem delivered_was_written d0 cs d from to msg :
  channel_built_in_place = true -> started d0 ->
  deploy_run cs d0 = (Ok tt, d) -> (from, to, msg) ∈ delivered d ->
  exists n0 n rd, members d0 !! from = Some n0 /\ members d !! from = Some n /\ msg ∈ messages rd /\
    zmap_find (message_to msg) (cluster_ n) = Some (new_Peer to) /\
    (SentAsLeader rd ∈ history n \/
     before (WalAccepted rd) (SentAsFollower rd) (history n) /\ rd ∈ wal_accepted (history n)) /\
    wal_writes (wal_accepted (history n)) (wal_ n0) = (Ok tt, wal_ n).
Proof.
  intros Hce Hst Hr Hin. pose proof (deploy_run_inv d0 cs d0 d Hce Hr (started_inv d0 Hst)) as Hi.
  destruct (di_delivered d0 d Hi _ _ _ Hin) as (n & r & Hn & Hsent & <- & <-).
  destruct (di_member d0 d Hi _ _ Hn) as ([Hni _] & Hmail & n0 & Hn0 & Hf).
  destruct (Hmail r Hsent) as (rd & Hev & Hmsg & Hto). exists n0, n, rd. split_and!; try done.
  destruct Hev as [Hev|Hev]; [by left|right]. pose proof (inv_sent _ _ _ _ _ _ _ _ Hni rd Hev) as Hb. split; [done|].
  destruct Hb as (h1 & h2 & h3 & ->). apply list_elem_of_omap. exists (WalAccepted rd). split; [|done].
  apply elem_of_app. right. by left.
Qed.
End theorem.
