(* ===== verification/Restarts.v ===== *)
(** * A cluster whose members crash and start again

    The members of [Deployment.v] on logs in files.  The process of a member may end at any point of
    its schedule; a new one opens the directory the way [DB::Bootstrap] does and goes on.  What the
    network took from a process that is gone may still arrive.  The theorems follow
    what a member has written through all of its lives. *)

From S2P Require Import Prelude External Coding Status Posix LogWriter ReadSegment LogManager LogSpec Channel TaskQueue Observer Cluster Node NodeSpec System Durability Process Pipeline Clients Deployment.

Section restarts.
Context {HOST : Host} {CRC : Crc32} {SL : SliceLib} {Y : YaraftPb} {M : MemStoreLib Y}.
Context {SB : StatusBool} {FS : BoostFs} {MSG : YaraftMsg} {RAFT : RaftLib M MSG}.
Context {EI : ErasedIterator} {TC : Toolchain}.

(** ** Lives *)

(** The processes of a member that have ended, as they were at the end, and the one that runs. *)
Record Site := MkSite { past_lives : list Node; alive : Node }.

Record Sites := MkSites {
  sites : gmap string Site;
  (** the messages members were given, with the addresses of both ends *)
  received : list (string * string * Message);
}.

Abbreviation SitesM := (Prog ErrorCode Sites).

Definition set_alive (n : Node) (s : Site) : Site := MkSite (past_lives s) n.

Definition at_site (url : string) (p : Prog ErrorCode Site unit) : SitesM unit := fun d =>
  match sites d !! url with
  | None => (Err RuntimeError, d)
  | Some s => let '(r, s') := p s in (r, MkSites (<[url := s']> (sites d)) (received d))
  end.

(** The options of [DB::Bootstrap]. *)
Definition bootstrap_options (cluster : zmap string) (id : Z) (w : os * LogManager) (ms : option MemoryStorage) : ReplicatedLogOptions :=
  MkReplicatedLogOptions (WAL := log_manager_wal) cluster id 100 1000 None None None (Some w) ms.

(** The process ends; a new one recovers the log and makes a member of it.  A start that fails is
    repeated, up to [tries] times. *)
Definition restart (tries : nat) (this : Z) (cluster : zmap string) (id : Z) : Prog ErrorCode Site unit := fun s =>
  match reopen_tries tries (wal_ (alive s)) with
  | (Ok ms, w) =>
      match New this (bootstrap_options cluster id w ms) with
      | Ok n => (Ok tt, MkSite (past_lives s ++ [alive s]) n)
      | Err e => (Err e, s)
      | Halt h => (Halt h, s)
      end
  | (Err e, _) => (Err e, s)
  | (Halt h, _) => (Halt h, s)
  end.

Definition lives (s : Site) : list Node := past_lives s ++ [alive s].

(** A request goes out of any life of its sender. *)
Inductive site_choice :=
  | SiteLocally (url : string) (c : choice)
  | SiteDelivers (from : string) (life : nat) (request : Z)
  | SiteCallsBack (from : string) (request : Z) (failed : bool)
  | SiteRestarts (url : string) (tries : nat) (this : Z) (cluster : zmap string) (id : Z).

Definition site_step (c : site_choice) : SitesM unit :=
  match c with
  | SiteLocally url (RpcStep _) => fail RuntimeError
  | SiteLocally url c => at_site url (zoom alive set_alive (node_step c))
  | SiteDelivers from life id =>
      r ← gets (fun d => s ← sites d !! from; n ← lives s !! life; find_request id n);
      match r with
      | None => fail RuntimeError
      | Some (MkRequest _ url msg) =>
          _ ← at_site url (zoom alive set_alive (node_step (RpcStep msg)));
          modify (fun d => MkSites (sites d) (received d ++ [(from, url, msg)]))
      end
  | SiteCallsBack from id failed => at_site from (zoom alive set_alive (on_network (doneCallBack id failed)))
  | SiteRestarts url tries this cluster id => at_site url (restart tries this cluster id)
  end.

Fixpoint site_run (cs : list site_choice) : SitesM unit :=
  match cs with
  | [] => mret tt
  | c :: cs => _ ← site_step c; site_run cs
  end.

(** ** What was written in all lives *)

Definition accepted_in (ns : list Node) : list Ready := ns ≫= fun n => wal_accepted (history n).
Definition all_accepted (s : Site) : list Ready := accepted_in (lives s).

Lemma all_accepted_alive s : all_accepted s = accepted_in (past_lives s) ++ wal_accepted (history (alive s)).
Proof. unfold all_accepted, accepted_in, lives. rewrite bind_app. cbn. by rewrite app_nil_r. Qed.
End restarts.
Arguments Site {_ _ _ _ _ _ _ _ _}.
Arguments Sites {_ _ _ _ _ _ _ _ _}.
Arguments site_choice {_}.

Section invariant.
Context {HOST : Host} {CRC : Crc32} {CS : Crc32Spec CRC} {SL : SliceLib} {SS : SliceSpec SL}.
Context {Y : YaraftPb} {YS : YaraftPbSpec Y} {M : MemStoreLib Y}.
Context {SB : StatusBool} {FS : BoostFs} {FSS : BoostFsSpec FS}.
Context {MSG : YaraftMsg} {RAFT : RaftLib M MSG} {EI : ErasedIterator} {TC : Toolchain}.

(** ** Small enough *)

(** The [Ready]s a log that began with [size] bytes can hold. *)
Definition fits (size : Z) (rds : list Ready) : Prop :=
  Forall (plain_ready Y MSG) rds /\ size + readys_cost Y MSG rds < 2 ^ 62.

Lemma readys_cost_app rds rds' : readys_cost Y MSG (rds ++ rds') = readys_cost Y MSG rds + readys_cost Y MSG rds'.
Proof. induction rds as [|rd rds IH]; cbn; [done|]. rewrite IH. lia. Qed.

Lemma fits_app size rds rds' : fits size (rds ++ rds') -> fits size rds.
Proof.
  intros [Hp Hc]. apply Forall_app in Hp as [Hp _]. rewrite readys_cost_app in Hc.
  pose proof (readys_cost_nonneg Y MSG rds'). split; [done|lia].
Qed.

(** The log [w] is the log [log] and the entries of [rds], as long as they fit. *)
Definition holds (wopts : WriteAheadLogOptions) (log : list Entry) (size : Z) (rds : list Ready) (w : os * LogManager) : Prop :=
  fits size rds ->
  log_rep wopts (fst w) (snd w) (log ++ mjoin (entries <$> rds)) (size + readys_cost Y MSG rds) /\ fresh_room (snd w).

Lemma log_rep_fresh wopts o m log size o' m' log' size' :
  log_rep wopts o m log size -> log_rep wopts o' m' log' size' -> fresh_room m -> fresh_room m'.
Proof. intros (? & _ & _ & _ & _ & Ho & _) (? & _ & _ & _ & _ & Ho' & _). unfold fresh_room. by rewrite Ho', <- Ho. Qed.

Lemma holds_writes wopts log size rds rds' w w' :
  holds wopts log size rds w -> wal_writes rds' w = (Ok tt, w') -> holds wopts log size (rds ++ rds') w'.
Proof.
  intros Hw Hr Hfit. destruct (Hw (fits_app _ _ _ Hfit)) as [Hrep Hfresh]. destruct Hfit as [Hp Hc].
  apply Forall_app in Hp as [_ Hp]. rewrite readys_cost_app, Z.add_assoc in Hc |- *.
  destruct w as [o m]. pose proof (wal_writes_rep _ _ _ _ _ _ _ _ _ _ _ _ _ _ _ _ Hrep Hfresh Hp Hc Hr) as Hrep'.
  rewrite fmap_app, join_app, app_assoc. split; [done|]. exact (log_rep_fresh _ _ _ _ _ _ _ _ _ Hrep Hrep' Hfresh).
Qed.

Lemma holds_reopen tries wopts log size rds w ms w' :
  holds wopts log size rds w -> reopen_tries tries w = (Ok ms, w') -> holds wopts log size rds w'.
Proof.
  intros Hw Hr Hfit. destruct (Hw Hfit) as [Hrep Hfresh]. destruct w as [o m]. destruct (log_rep_on_disk _ _ _ _ _ Hrep) as [Hd Ho].
  destruct (reopen_tries_on_disk _ _ _ _ _ _ _ _ Hd Ho Hr) as [_ Hrep'].
  split; [done|]. exact (log_rep_fresh _ _ _ _ _ _ _ _ _ Hrep Hrep' Hfresh).
Qed.

(** ** The invariant *)

(** What holds of every process, running or gone: its requests come from [Ready]s it passed on, and
    what it sent as a follower its log had accepted. *)
Definition backed (n : Node) : Prop :=
  mail_inv n /\ forall rd, SentAsFollower rd ∈ history n -> rd ∈ wal_accepted (history n).

Lemma reached_backed n : reached n -> mail_inv n -> backed n.
Proof.
  intros [Hi _] Hm. split; [done|]. intros rd Hrd. destruct (inv_sent _ _ _ _ _ _ _ _ Hi rd Hrd) as (h1 & h2 & h3 & ->).
  apply list_elem_of_omap. exists (WalAccepted rd). split; [|done]. apply elem_of_app. right. by left.
Qed.

(** The process [n], whose member had written [rds] when it started. *)
Record running (wopts : WriteAheadLogOptions) (log : list Entry) (size : Z) (rds : list Ready) (n : Node) : Prop := {
  run_reached : reached n;
  run_mail : mail_inv n;
  run_log : exists w0, follows w0 n /\ holds wopts log size rds w0;
}.

Lemma started_running wopts log size rds this options n w :
  opt_taskQueue options = None -> opt_wal options = Some w -> New this options = Ok n ->
  holds wopts log size rds w -> running wopts log size rds n.
Proof.
  intros Hq Hw HN Hh. destruct (New_network this options n w HN) as (Hnet & Hhist & _). split.
  - by eapply New_reached.
  - intros r Hr. rewrite Hnet in Hr. by apply elem_of_nil in Hr.
  - exists w. split; [by eapply New_follows|done].
Qed.

Lemma running_step wopts log size rds c n n' :
  channel_built_in_place = true ->
  running wopts log size rds n -> node_step c n = (Ok tt, n') -> running wopts log size rds n' /\ mailed n n'.
Proof.
  intros Hce [Hr Hm (w0 & Hf & Hh)] Hs.
  destruct (node_step_member c n n' w0 Hce Hr Hm Hf Hs) as (Hr' & Hm' & Hf').
  split; [split; [done|apply Hm'|by exists w0]|done].
Qed.

Lemma running_callback wopts log size rds id failed n n' :
  running wopts log size rds n -> on_network (doneCallBack id failed) n = (Ok tt, n') ->
  running wopts log size rds n' /\ mailed n n'.
Proof.
  intros [Hr Hm (w0 & Hf & Hh)] Hs. destruct (callback_member id failed n n' w0 Hr Hm Hf Hs) as (Hr' & Hm' & Hf').
  split; [split; [done|apply Hm'|by exists w0]|done].
Qed.

Record site_inv (wopts : WriteAheadLogOptions) (log : list Entry) (size : Z) (s : Site) : Prop := {
  si_past n : n ∈ past_lives s -> backed n;
  si_alive : running wopts log size (accepted_in (past_lives s)) (alive s);
}.

(** What a member has sent stays sent. *)
Definition sent_by (s : Site) (r : request) : Prop := exists n, n ∈ lives s /\ r ∈ sent (network n).

Lemma site_alive_inv wopts log size s n' :
  site_inv wopts log size s ->
  running wopts log size (accepted_in (past_lives s)) n' /\ mailed (alive s) n' ->
  site_inv wopts log size (set_alive n' s) /\ forall r, sent_by s r -> sent_by (set_alive n' s) r.
Proof.
  intros [Hp _] [Hr [_ Hs]]. split; [by split|]. intros r (n & [Hn|Hn]%elem_of_app & Hr'); unfold sent_by, lives; cbn.
  - exists n. split; [|done]. apply elem_of_app. by left.
  - apply list_elem_of_singleton in Hn as ->. exists n'. split; [|by apply Hs]. apply elem_of_app. right. by left.
Qed.

Lemma restart_inv wopts log size tries this cluster id s s' :
  site_inv wopts log size s -> restart tries this cluster id s = (Ok tt, s') ->
  site_inv wopts log size s' /\ forall r, sent_by s r -> sent_by s' r.
Proof.
  intros [Hp [Hr Hm (w0 & Hf & Hh)]] Hs. unfold restart in Hs.
  destruct (reopen_tries tries (wal_ (alive s))) as [[ms|e|h] w] eqn:Hre; [|done|done].
  destruct (New this (bootstrap_options cluster id w ms)) as [n|e|h] eqn:HN; [|done|done]. injection Hs as <-. split; [split; cbn|].
  - intros n' [Hn|Hn]%elem_of_app; [by apply Hp|]. apply list_elem_of_singleton in Hn as ->. by apply reached_backed.
  - refine (started_running _ _ _ _ _ _ _ _ _ _ HN _); [done|done|]. eapply holds_reopen; [|exact Hre].
    unfold accepted_in. rewrite bind_app. cbn. rewrite app_nil_r. by eapply holds_writes.
  - intros r (n' & Hn & Hr'). exists n'. split; [|done]. apply elem_of_app. by left.
Qed.

(** Members of a cluster; [log] and [size] are what was in the log of each at the start. *)
Record sites_inv (log : string -> list Entry) (size : string -> Z) (d : Sites) : Prop := {
  ss_site url s : sites d !! url = Some s -> exists wopts, site_inv wopts (log url) (size url) s;
  ss_received from to msg : (from, to, msg) ∈ received d ->
    exists s r, sites d !! from = Some s /\ sent_by s r /\ req_url r = to /\ req_message r = msg;
}.

Lemma at_site_inv log size d d' url p :
  sites_inv log size d -> at_site url p d = (Ok tt, d') ->
  (forall wopts log sz s s', site_inv wopts log sz s -> p s = (Ok tt, s') ->
     site_inv wopts log sz s' /\ forall r, sent_by s r -> sent_by s' r) ->
  sites_inv log size d' /\ received d' = received d /\
  forall from s r, sites d !! from = Some s -> sent_by s r -> exists s', sites d' !! from = Some s' /\ sent_by s' r.
Proof.
  intros [Hsite Hrec] Hp Hstep. unfold at_site in Hp. destruct (sites d !! url) as [s|] eqn:Hs; [|done].
  destruct (p s) as [[[]|e|h] s'] eqn:Hps; [|done|done]. injection Hp as <-. cbn.
  destruct (Hsite url s Hs) as (wopts & Hi). destruct (Hstep wopts (log url) (size url) s s' Hi Hps) as [Hi' Hsent].
  assert (forall from s1 r, sites d !! from = Some s1 -> sent_by s1 r ->
    exists s2, <[url := s']> (sites d) !! from = Some s2 /\ sent_by s2 r) as Hkeep.
  { intros from s1 r Hs1 Hr. destruct (decide (from = url)) as [->|Hne].
    - rewrite lookup_insert_eq. exists s'. split; [done|]. apply Hsent. congruence.
    - rewrite lookup_insert_ne by done. by exists s1. }
  split_and!; [split; cbn|done|done].
  - intros u s1 [[-> ->]|[_ Hu]]%lookup_insert_Some; [by exists wopts|by apply Hsite].
  - intros from to msg (s1 & r & Hs1 & Hr & Hu & Hm)%Hrec. destruct (Hkeep from s1 r Hs1 Hr) as (s2 & Hs2 & Hr2). by exists s2, r.
Qed.

Lemma zoom_alive_inv wopts log sz s s' (p : Prog ErrorCode Node unit) :
  (forall rds n n', running wopts log sz rds n -> p n = (Ok tt, n') -> running wopts log sz rds n' /\ mailed n n') ->
  site_inv wopts log sz s -> zoom alive set_alive p s = (Ok tt, s') ->
  site_inv wopts log sz s' /\ forall r, sent_by s r -> sent_by s' r.
Proof.
  intros Hstep Hi Hz. unfold zoom in Hz. destruct (p (alive s)) as [[[]|e|h] n'] eqn:Hp; [|done|done]. injection Hz as <-.
  apply site_alive_inv; [done|]. destruct Hi as [_ Hr]. by apply (Hstep _ (alive s)).
Qed.

Lemma site_step_inv log size c d d' :
  channel_built_in_place = true ->
  site_step c d = (Ok tt, d') -> sites_inv log size d -> sites_inv log size d'.
Proof.
  intros Hce Hs Hi.
  assert (forall c wopts log0 sz s s', site_inv wopts log0 sz s -> zoom alive set_alive (node_step c) s = (Ok tt, s') ->
    site_inv wopts log0 sz s' /\ forall r, sent_by s r -> sent_by s' r) as Hlocal.
  { intros c' wopts log0 sz s s'. apply zoom_alive_inv. intros. by eapply running_step. }
  destruct c as [url c|from life id|from id failed|url tries this cluster id]; cbn [site_step] in Hs.
  - assert (at_site url (zoom alive set_alive (node_step c)) d = (Ok tt, d')) as Hat by (destruct c; first [exact Hs|discriminate Hs]).
    apply (at_site_inv log size d d' url _ Hi Hat). apply Hlocal.
  - unfold mbind, prog_bind in Hs. cbn [gets] in Hs.
    destruct (sites d !! from) as [s|] eqn:Hsite; [|done]. cbn in Hs. destruct (lives s !! life) as [n|] eqn:Hn; [|done]. cbn in Hs.
    destruct (find_request id n) as [[i url msg]|] eqn:Hr; [|done]. apply find_request_sent in Hr.
    destruct (at_site url _ d) as [[[]|e|h] d1] eqn:Hat; [|done|done]. injection Hs as <-.
    change (at_site url (zoom alive set_alive (node_step (RpcStep msg))) d = (Ok tt, d1)) in Hat.
    destruct (at_site_inv log size d d1 url _ Hi Hat (Hlocal _)) as ([Hs1 Hr1] & Hrec & Hkeep).
    split; [done|]. cbn. intros f t m [Hin|Hin]%elem_of_app; [by apply Hr1|]. apply list_elem_of_singleton in Hin. injection Hin as -> -> ->.
    destruct (Hkeep from s (MkRequest i url msg) Hsite) as (s' & Hs' & Hr'); [|by exists s', (MkRequest i url msg)].
    exists n. split; [by eapply list_elem_of_lookup_2|done].
  - apply (at_site_inv log size d d' from _ Hi Hs). intros wopts log0 sz s s'. apply zoom_alive_inv. intros. by eapply running_callback.
  - apply (at_site_inv log size d d' url _ Hi Hs). intros. by eapply restart_inv.
Qed.

Lemma site_run_inv log size cs d d' :
  channel_built_in_place = true ->
  site_run cs d = (Ok tt, d') -> sites_inv log size d -> sites_inv log size d'.
Proof.
  intros Hce. revert d. induction cs as [|c cs IH]; intros d Hr Hi; cbn in Hr; [by injection Hr as <-|].
  unfold mbind, prog_bind in Hr. destruct (site_step c d) as [[[]|e|h] d1] eqn:Hs; [|done|done].
  eapply IH; [done|]. by eapply site_step_inv.
Qed.

(** Every member has just been started, on a log in good order. *)
Definition sites_started (log : string -> list Entry) (size : string -> Z) (d : Sites) : Prop :=
  received d = [] /\
  forall url s, sites d !! url = Some s -> past_lives s = [] /\
    exists this options o m wopts, opt_taskQueue options = None /\ opt_wal options = Some (o, m) /\
      New this options = Ok (alive s) /\ log_rep wopts o m (log url) (size url) /\ fresh_room m.

Lemma sites_started_inv log size d : sites_started log size d -> sites_inv log size d.
Proof.
  intros [Hr Hs]. split; [|intros from to msg Hin; rewrite Hr in Hin; by apply elem_of_nil in Hin].
  intros url s Hsite. destruct (Hs url s Hsite) as (Hp & this & options & o & m & wopts & Hq & Hw & HN & Hrep & Hfresh).
  exists wopts. split; rewrite Hp; [intros n Hn; by apply elem_of_nil in Hn|].
  refine (started_running _ _ _ _ _ _ _ _ Hq Hw HN _). intros _. cbn. by rewrite app_nil_r, Z.add_0_r.
Qed.

Lemma site_on_disk wopts log size s :
  site_inv wopts log size s -> fits size (all_accepted s) ->
  log_on_disk wopts (fst (wal_ (alive s))) (log ++ mjoin (entries <$> all_accepted s)) (size + readys_cost Y MSG (all_accepted s)) /\
  options_ (snd (wal_ (alive s))) = wopts.
Proof.
  intros [_ [_ _ (w0 & Hf & Hh)]] Hfit. rewrite all_accepted_alive in Hfit |- *.
  destruct (holds_writes _ _ _ _ _ _ _ Hh Hf Hfit) as [Hrep _]. by apply log_rep_on_disk.
Qed.

Lemma site_recovers wopts log size s :
  site_inv wopts log size s -> fits size (all_accepted s) ->
  exists r st, reopen (wal_ (alive s)) = (r, st) /\
    match r with
    | Ok ms => ms = store_of (log ++ mjoin (entries <$> all_accepted s))
    | Err e => e = IOError /\ os_script (fst (wal_ (alive s))) <> []
    | Halt _ => False
    end.
Proof.
  intros Hi Hfit. destruct (site_on_disk _ _ _ _ Hi Hfit) as [Hd Ho].
  destruct (wal_ (alive s)) as [o m]. pose proof (reopen_on_disk _ _ m _ _ Hd Ho) as Hwp. unfold wp in Hwp. cbn [fst snd] in Hwp |- *.
  destruct (reopen (o, m)) as [r st]. exists r, st. split; [done|].
  destruct r as [ms|e|h]; destruct Hwp as [_ Hr]; [by destruct Hr| |done]. destruct Hr as (-> & Hu%fault_used_ne & _). done.
Qed.

Lemma New_bootstraps this cluster id w ms :
  exists n, New this (bootstrap_options cluster id w ms) = Ok n /\ history n = [] /\
    (node_ n, memstore_ n) = new_RawNode (MkConfig 1000 100 id (fst <$> cluster)) (default new_MemoryStorage ms).
Proof.
  unfold New. cbn. destruct (new_RawNode _ _) as [rn ms']. by eexists.
Qed.
End invariant.

(** ** Theorem *)

Section theorem.
Context (HOST : Host) (CRC : Crc32) (CS : Crc32Spec CRC) (SL : SliceLib) (SS : SliceSpec SL).
Context (Y : YaraftPb) (YS : YaraftPbSpec Y) (M : MemStoreLib Y).
Context (SB : StatusBool) (FS : BoostFs) (FSS : BoostFsSpec FS).
Context (MSG : YaraftMsg) (RAFT : RaftLib M MSG) (EI : ErasedIterator) (TC : Toolchain).


End theorem.
