(* ===== verification/Power.v ===== *)
(** * What a power failure leaves of the log

    A file keeps what was written to it when the process dies; after a power failure it has what the
    last [fdatasync] put on stable storage, [os_durable].  The files of the log are never synced:
    [Append] does not mark them, so the [Sync] of the log, and that of a segment that is finished,
    do nothing.  The relation below is kept by every call the log makes. *)

From S2P Require Import Prelude External Coding Status Posix Segment LogWriter ReadSegment LogManager LogSpec Channel TaskQueue Observer Cluster Node System Durability Process.

(** What is on disk when the machine is back: no process, and the synced bytes. *)
Definition power_failure (o : os) : os := with_files (os_durable o) (with_fds ∅ o).

(** ** The operating system *)

(** [dir] may have been created; nothing was synced. *)
Definition unsynced (dir : string) (o o' : os) : Prop :=
  os_durable o' = os_durable o /\ (os_dirs o' = os_dirs o \/ os_dirs o' = {[dir]} ∪ os_dirs o).

#[global] Instance unsynced_preorder dir : PreOrder (unsynced dir).
Proof.
  split; [by split; [|left]|]. intros o1 o2 o3 [E1 D1] [E2 D2]. split; [congruence|].
  destruct D1 as [D1|D1], D2 as [D2|D2]; rewrite D2, D1; [by left|by right|by right|]. right. set_solver.
Qed.

(** A call that syncs nothing. *)
Definition plain_call {A} (dir : string) (c : os -> A * os) : Prop := forall o, unsynced dir o (snd (c o)).

Lemma next_sys_plain dir : plain_call dir next_sys.
Proof. intros o. unfold next_sys. destruct (os_script o); by split; [|left]. Qed.

(** Goes through the cases of a system call. *)
Ltac call_cases dir o :=
  pose proof (next_sys_plain dir o) as Hnext; destruct (next_sys o) as [res o1]; cbn in Hnext |- *;
  destruct Hnext as [Hd1 Hd2]; repeat case_match; by split.

Section calls.
Context (dir : string).

Lemma open_plain path c e t : plain_call dir (sys_open path c e t).
Proof. intros o. unfold sys_open. call_cases dir o. Qed.
Lemma write_plain fd d : plain_call dir (sys_write fd d).
Proof. intros o. unfold sys_write. call_cases dir o. Qed.
Lemma pread_plain fd n off : plain_call dir (sys_pread fd n off).
Proof. intros o. unfold sys_pread. call_cases dir o. Qed.
Lemma ftruncate_plain fd n : plain_call dir (sys_ftruncate fd n).
Proof. intros o. unfold sys_ftruncate. call_cases dir o. Qed.
Lemma close_plain fd : plain_call dir (sys_close fd).
Proof. intros o. unfold sys_close. destruct (os_fds o !! fd); [call_cases dir o|by split; [|left]]. Qed.
Lemma file_size_plain path : plain_call dir (boost_file_size path).
Proof. intros o. unfold boost_file_size, boost_call. call_cases dir o. Qed.
Lemma is_directory_plain path : plain_call dir (boost_is_directory path).
Proof. intros o. unfold boost_is_directory, boost_call. call_cases dir o. Qed.
Lemma create_plain : plain_call dir (boost_create_directories dir).
Proof.
  intros o. unfold boost_create_directories, boost_call. pose proof (next_sys_plain dir o) as Hn.
  destruct (next_sys o) as [[] o1]; cbn in Hn |- *; etrans; try exact Hn; (by split; [|left]) || (by split; [|right]).
Qed.

Lemma or_io_error_plain {A} (c : os -> (Z + A) * os) : plain_call dir c -> preserves (unsynced dir) (or_io_error c).
Proof. intros Hc o. specialize (Hc o). unfold or_io_error. by destruct (c o) as [[] o1]. Qed.
End calls.
#[export] Hint Resolve or_io_error_plain open_plain write_plain pread_plain ftruncate_plain close_plain file_size_plain is_directory_plain create_plain : preserves.

Section env.
Context (dir : string).

Lemma pread_retry_plain fuel fd n off : preserves (unsynced dir) (pread_retry fuel fd n off).
Proof.
  induction fuel as [|fuel IH]; intros o; cbn; [reflexivity|]. pose proof (pread_plain dir fd n off o) as Hp.
  destruct (sys_pread fd n off o) as [[e|d] o1]; cbn in *; [|done]. case_bool_decide; [|done]. etrans; [exact Hp|apply IH].
Qed.

Lemma ReadFully_plain fuel file off remain scratch : preserves (unsynced dir) (ReadFully_loop fuel file off remain scratch).
Proof.
  pose proof pread_retry_plain. revert off remain scratch. induction fuel as [|fuel IH]; intros off remain scratch; cbn [ReadFully_loop].
  - intros o. cbn. reflexivity.
  - unfold Read. preserves_tac.
Qed.

Lemma ReadFullyToBuffer_plain fname : preserves (unsynced dir) (ReadFullyToBuffer fname).
Proof.
  pose proof ReadFully_plain. unfold ReadFullyToBuffer, NewRandomAccessFile, raf_Size, DoGetFileSize, ReadFully. preserves_tac.
Qed.
End env.

(** ** Objects on it *)

(** A state with an object: as long as the object is in order, it stays so and nothing is synced. *)
Definition guarded {T} (dir : string) (G : T -> Prop) (st st' : os * T) : Prop :=
  G (snd st) -> unsynced dir (fst st) (fst st') /\ G (snd st').

#[global] Instance guarded_preorder {T} dir (G : T -> Prop) : PreOrder (guarded dir G).
Proof.
  split; [intros st HG; by split|]. intros st1 st2 st3 H12 H23 HG. destruct (H12 HG) as [U12 HG2]. destruct (H23 HG2) as [U23 HG3].
  split; [by etrans|done].
Qed.

(** A file that no one asked to sync. *)
Definition quiet_file (f : PosixWritableFile) : Prop :=
  pending_sync_ f = false /\ sync_on_close_ f = false /\ pre_allocated_size_ f = 0 /\ 0 <= filesize_ f.
Definition quiet_writer (w : LogWriter) : Prop := quiet_file (file_ w).
Definition quiet_manager (dir : string) (m : LogManager) : Prop :=
  log_dir (options_ m) = dir /\ forall w, current_ m = Some w -> quiet_writer w.

Section objects.
Context (dir : string).

Lemma guarded_os {T A} (G : T -> Prop) (p : Env A) put :
  (forall o (st : os * T), put o st = (o, snd st)) -> preserves (unsynced dir) p -> preserves (guarded dir G) (zoom fst put p).
Proof. intros Hput Hp st HG. specialize (Hp (fst st)). unfold zoom. destruct (p (fst st)) as [r o1]. cbn in *. rewrite Hput. by split. Qed.

Lemma guarded_set {T E} (G : T -> Prop) f (g : T -> T) :
  (forall st, f st = (fst st, g (snd st))) -> (forall t, G t -> G (g t)) ->
  preserves (guarded dir G) (modify f : Prog E (os * T) unit).
Proof. intros Hf Hg st HG. cbn. rewrite Hf. split; [reflexivity|by apply Hg]. Qed.

(** *** [PosixWritableFile] *)

Abbreviation file_kept := (preserves (E := ErrorCode) (guarded dir quiet_file)).

Lemma in_os_kept {A} (p : Env A) : preserves (unsynced dir) p -> file_kept (in_os p).
Proof. apply guarded_os. by intros o []. Qed.

Lemma call_kept {A} (c : os -> (Z + A) * os) : plain_call dir c -> file_kept (call c).
Proof. intros Hc. apply in_os_kept. intros o. specialize (Hc o). by destruct (c o). Qed.

Lemma set_this_kept g : (forall f, quiet_file f -> quiet_file (g f)) -> file_kept (set_this g).
Proof. intros Hg. by apply (guarded_set quiet_file _ g); [intros []|]. Qed.

Lemma Append_loop_kept fuel src : file_kept (Append_loop fuel src).
Proof.
  revert src. induction fuel as [|fuel IH]; intros src; cbn [Append_loop]; [intros st; reflexivity|].
  destruct src; [apply preserves_ret, _|]. apply preserves_bind; [apply _|apply preserves_gets, _|intros f].
  apply preserves_bind; [apply _|apply call_kept, write_plain|]. intros [e|n]; [case_bool_decide; [apply IH|apply preserves_fail, _]|apply IH].
Qed.

Lemma Append_kept data : file_kept (Append data).
Proof.
  unfold Append. apply preserves_bind; [apply _|apply in_os_kept, preserves_gets, _|intros fuel].
  apply preserves_bind; [apply _|apply Append_loop_kept|intros _]. apply set_this_kept.
  intros f (Hp & Hs & Ha & Hz). split_and!; try done. pose proof (is_u64_u64 (filesize_ f + len data)) as [? _]. done.
Qed.

Lemma Sync_kept : file_kept Sync.
Proof. intros [o f] HG. unfold Sync, this, mbind, prog_bind, gets. cbn. pose proof HG as (Hp & _). cbn in Hp. rewrite Hp. by split. Qed.

(** [Close] has nothing to truncate and nothing to sync. *)
Lemma Close_quiet `{StatusBool} o f :
  quiet_file f -> Close (o, f) = (c ← call (sys_close (fd_ f)); _ ← set_this (set_fd_ (-1));
    match (match c with inl _ => if status_ok_truth then Some IOError else None | inr _ => None end) with
    | Some e => fail e | None => mret tt end) (o, f).
Proof.
  intros (Hp & Hs & Ha & Hz). unfold Close, this. erewrite (run_bind_ok (gets _)) by done. cbn [snd].
  destruct (Z.ltb_spec (filesize_ f) (pre_allocated_size_ f)); [lia|]. erewrite (run_bind_ok (mret _)) by done.
  rewrite Hs. erewrite (run_bind_ok (mret _)) by done. by erewrite (run_bind_ok (gets _)) by done.
Qed.

Lemma set_fd_kept fd : file_kept (set_this (set_fd_ fd)).
Proof. apply set_this_kept. by intros f (? & ? & ? & ?). Qed.

Lemma Close_kept `{StatusBool} : file_kept Close.
Proof.
  intros [o f] HG. rewrite Close_quiet by done.
  assert (file_kept (c ← call (sys_close (fd_ f)); _ ← set_this (set_fd_ (-1));
    match (match c with inl _ => if status_ok_truth then Some IOError else None | inr _ => None end) with
    | Some e => fail e | None => mret tt end)) as Hk; [|by apply Hk].
  apply preserves_bind; [apply _|apply call_kept, close_plain|intros c].
  apply preserves_bind; [apply _|apply set_fd_kept|intros _]. case_match; [apply preserves_fail, _|apply preserves_ret, _].
Qed.

Lemma keep_status_kept {A} (p : FileM A) : file_kept p -> file_kept (keep_status p).
Proof. intros Hp st. specialize (Hp st). unfold keep_status. by destruct (p st) as [[] ?]. Qed.

Lemma delete_kept `{StatusBool} : file_kept delete_PosixWritableFile.
Proof.
  unfold delete_PosixWritableFile. apply preserves_bind; [apply _|apply preserves_gets, _|intros f].
  destruct (fd_ f >=? 0); [|apply preserves_ret, _].
  apply preserves_bind; [apply _|apply keep_status_kept, Close_kept|intros _; apply preserves_ret, _].
Qed.
End objects.

Section manager.
Context {HOST : Host} {CRC : Crc32} {SL : SliceLib} {Y : YaraftPb} {M : MemStoreLib Y}.
Context {SB : StatusBool} {FS : BoostFs} (dir : string).

(** *** [LogWriter] *)

Abbreviation writer_kept := (preserves (E := ErrorCode) (guarded dir quiet_writer)).

Lemma on_file_kept {A} (p : FileM A) : preserves (guarded dir quiet_file) p -> writer_kept (on_file p).
Proof.
  intros Hp [o w] HG. specialize (Hp (o, file_ w) HG). unfold on_file, zoom. destruct (p (o, file_ w)) as [r [o1 f1]]. by cbn in *.
Qed.

Lemma set_writer_kept g : (forall w, file_ (g w) = file_ w) -> writer_kept (set_writer g).
Proof.
  intros Hg. apply (guarded_set dir quiet_writer _ g); [by intros []|]. unfold quiet_writer. intros w. by rewrite Hg.
Qed.

Lemma LogWriter_Append_kept es hs : writer_kept (LogWriter_Append es hs).
Proof.
  assert (forall data, writer_kept (on_file (Append data))) as Ha by (intros; apply on_file_kept, Append_kept).
  unfold LogWriter_Append, get_writer. apply preserves_bind; [apply _|apply preserves_gets, _|intros w].
  apply preserves_bind; [apply _| |intros _].
  { destruct (lw_empty_ w); [|apply preserves_ret, _].
    apply preserves_bind; [apply _|apply Ha|intros _; by apply set_writer_kept]. }
  apply preserves_bind; [apply _|apply preserves_gets, _|intros w']. destruct (build_batch _ es hs) as [s newBegin].
  repeat (apply preserves_bind; [apply _|first [apply Ha|by apply set_writer_kept]|intros _]). apply preserves_ret, _.
Qed.

Lemma LogWriter_Finish_kept : writer_kept LogWriter_Finish.
Proof.
  unfold LogWriter_Finish. apply preserves_bind; [apply _|apply on_file_kept, Sync_kept|intros _].
  apply preserves_bind; [apply _|apply on_file_kept, Close_kept|intros _]. unfold get_writer. preserves_tac.
Qed.

(** *** [LogManager] *)

Abbreviation manager_kept := (preserves (E := ErrorCode) (guarded dir (quiet_manager dir))).

Lemma on_current_kept {A} (p : Prog ErrorCode (os * LogWriter) A) : writer_kept p -> manager_kept (on_current p).
Proof.
  intros Hp [o m] HG. unfold on_current. destruct (current_ m) as [w|] eqn:Hw; [|by split].
  specialize (Hp (o, w) (proj2 HG w Hw)). destruct (p (o, w)) as [r [o1 w1]]. cbn in *. destruct Hp as [Hu Hq].
  split; [done|]. split; [apply HG|]. by intros w2 [= <-].
Qed.

Lemma set_manager_kept g : (forall m, quiet_manager dir m -> quiet_manager dir (g m)) -> manager_kept (set_manager g).
Proof. intros Hg. by apply (guarded_set dir (quiet_manager dir) _ g); [intros []|]. Qed.

Lemma finish_kept : manager_kept finishCurrentWriter.
Proof.
  unfold finishCurrentWriter. apply preserves_bind; [apply _|apply preserves_fatal, on_current_kept, LogWriter_Finish_kept|intros meta].
  apply preserves_bind; [apply _|(apply set_manager_kept; by intros ? [])|intros _].
  apply preserves_bind; [apply _|apply on_current_kept, on_file_kept, delete_kept|intros _]. (apply set_manager_kept; by intros ? []).
Qed.

(** A new segment: its writer is in order. *)
Lemma open_segment_kept m : manager_kept (w ← manager_os (LogWriter_New m); set_manager (set_current_ (Some w))).
Proof.
  intros [o m0] HG. unfold mbind, prog_bind, manager_os, zoom. cbn [fst].
  assert (preserves (unsynced dir) (LogWriter_New m)) as Hp by (unfold LogWriter_New, NewWritableFile, DoOpen; preserves_tac).
  assert (forall w o1, LogWriter_New m o = (Ok w, o1) -> quiet_writer w) as Hq.
  { unfold LogWriter_New, NewWritableFile, mbind, prog_bind, mret, prog_ret. intros w o1.
    destruct (DoOpen _ _ o) as [[fd|e|h] o2]; [|done|done]. by intros [= <- <-]. }
  specialize (Hp o). destruct (LogWriter_New m o) as [[w|e|h] o1] eqn:Hnew; cbn in *; [|by split..].
  split; [done|]. split; [apply HG|]. intros w' [= <-]. by eapply Hq.
Qed.

Lemma doWrite_kept fuel before es hs : manager_kept (doWrite_loop fuel before es hs).
Proof.
  pose proof open_segment_kept. pose proof finish_kept.
  revert before es hs. induction fuel as [|fuel IH]; intros before es hs; cbn [doWrite_loop]; [intros st; reflexivity|].
  apply preserves_bind; [apply _|unfold get_manager; apply preserves_gets, _|intros m].
  apply preserves_bind; [apply _|destruct (current_ m); [apply preserves_ret, _|done]|intros _].
  apply preserves_bind; [apply _|apply on_current_kept, LogWriter_Append_kept|intros [|e it]; [apply preserves_ret, _|]].
  destruct (last _) as [prev|]; [|intros st; reflexivity].
  apply preserves_bind; [apply _|(apply set_manager_kept; by intros ? [])|intros _]. by apply preserves_bind; [apply _|..].
Qed.

Lemma Write_kept es hs : manager_kept (Write es hs).
Proof.
  unfold Write, doWrite. destruct es as [|e es]; [apply preserves_ret, _|].
  apply preserves_bind; [apply _|unfold get_manager; apply preserves_gets, _|intros m].
  apply preserves_bind; [apply _|destruct (empty_ m); [(apply set_manager_kept; by intros ? [])|apply preserves_ret, _]|intros _; apply doWrite_kept].
Qed.

Lemma LogManager_Sync_kept : manager_kept LogManager_Sync.
Proof.
  unfold LogManager_Sync, get_manager, LogWriter_Sync. apply preserves_bind; [apply _|apply preserves_gets, _|intros m].
  destruct (current_ m); [apply on_current_kept, on_file_kept, Sync_kept|apply preserves_ret, _].
Qed.

Lemma LogManager_Close_kept : manager_kept LogManager_Close.
Proof.
  unfold LogManager_Close, get_manager. apply preserves_bind; [apply _|apply preserves_gets, _|intros m].
  destruct (current_ m); [apply finish_kept|apply preserves_ret, _].
Qed.

(** *** [Recover] *)

(** The manager that was made, if any. *)
Definition quiet_recovery (rc : recovery) : Prop := forall m, rc_manager rc = Some m -> quiet_manager dir m.

Abbreviation recovery_kept := (preserves (E := ErrorCode) (guarded dir quiet_recovery)).

Lemma recover_os_kept {A} (p : Env A) : preserves (unsynced dir) p -> recovery_kept (recover_os p).
Proof. apply guarded_os. by intros o []. Qed.

Lemma recover_segment_kept options id start : recovery_kept (recover_segment options id start).
Proof.
  intros [o [[ms|] [m|]]] HG; cbn; try (by split).
  unfold ReadSegmentIntoMemoryStorage, mbind, prog_bind, zoom. cbn [fst snd].
  pose proof (ReadFullyToBuffer_plain dir (segment_path (log_dir options) id start) o) as Hr.
  destruct (ReadFullyToBuffer _ o) as [[c|e|h] o1]; cbn in Hr |- *; [|by split..].
  destruct (ReadSegment _) as [[[]|e|h] seg]; cbn; split; try done.
  intros m' [= <-]. destruct (HG m eq_refl) as [Hd Hc]. by split.
Qed.

Lemma recover_segments_kept options wals : recovery_kept (recover_segments options wals).
Proof.
  pose proof (recover_segment_kept options). induction wals as [|[id start] wals IH]; cbn [recover_segments]; [apply preserves_ret, _|].
  by apply preserves_bind; [apply _|..].
Qed.

Lemma Recover_kept options : log_dir options = dir -> recovery_kept (Recover options).
Proof.
  intros Hdir. pose proof (recover_segments_kept options). unfold Recover, GetChildren, CreateDirIfMissing. rewrite Hdir.
  apply preserves_bind; [apply _|apply recover_os_kept; preserves_tac|intros _].
  apply preserves_bind; [apply _|apply recover_os_kept; preserves_tac; intros o; reflexivity|intros files].
  destruct (collect_wals files []) as [wals|]; [|intros st; reflexivity].
  apply preserves_bind; [apply _| |intros _].
  { intros [o rc] _. cbn. split; [reflexivity|]. intros m [= <-]. by split. }
  destruct wals as [|w wals]; [apply preserves_ret, _|]. apply preserves_bind; [apply _|apply preserves_gets, _|intros [ms|]].
  { intros st. reflexivity. }
  apply preserves_bind; [apply _| |intros _; done]. intros [o rc] HG. cbn. by split.
Qed.

Lemma Default_kept options o :
  log_dir options = dir -> unsynced dir o (snd (Default options None o)) /\
  forall m ms o', Default options None o = (Ok (m, ms), o') -> quiet_manager dir m.
Proof.
  intros Hdir. unfold Default. destruct (Recover_kept options Hdir (o, MkRecovery None None)) as [Hu Hq]; [by intros ?|].
  destruct (Recover options (o, MkRecovery None None)) as [[[]|e|h] [o1 [ms [m|]]]]; cbn in *; split; try done.
  intros m' ms' o' [= <- <- <-]. by apply Hq.
Qed.

Lemma reopen_kept : manager_kept reopen.
Proof.
  intros [o m] HG. unfold reopen. destruct (Default_kept (options_ m) (with_fds ∅ o) (proj1 HG)) as [Hu Hq].
  destruct (Default (options_ m) None (with_fds ∅ o)) as [[[m' ms]|e|h] o1]; cbn in *; (split; [exact Hu|]); [by eapply Hq|done..].
Qed.

Lemma run_op_kept op : manager_kept (run_op op).
Proof.
  pose proof Write_kept. pose proof LogManager_Sync_kept. pose proof LogManager_Close_kept. pose proof reopen_kept.
  destruct op; cbn [run_op]; (apply preserves_bind; [apply _|done|intros ?]); apply preserves_ret, _.
Qed.

Lemma run_ops_kept ops : manager_kept (run_ops ops).
Proof.
  induction ops as [|op ops IH]; cbn [run_ops]; [apply preserves_ret, _|].
  apply preserves_bind; [apply _|apply run_op_kept|intros outs]. apply preserves_bind; [apply _|done|intros ?]. apply preserves_ret, _.
Qed.

Lemma wal_writes_kept {MSG : YaraftMsg} (rds : list Ready) : manager_kept (wal_writes rds).
Proof.
  induction rds as [|rd rds IH]; cbn [wal_writes]; [apply preserves_ret, _|].
  apply preserves_bind; [apply _|apply (Write_kept (entries rd) (hardState rd))|done].
Qed.
End manager.

(** ** Theorem *)

Section theorem.
Context (HOST : Host) (CRC : Crc32) (CS : Crc32Spec CRC) (SL : SliceLib) (SS : SliceSpec SL).
Context (Y : YaraftPb) (YS : YaraftPbSpec Y) (M : MemStoreLib Y).
Context (SB : StatusBool) (FS : BoostFs) (FSS : BoostFsSpec FS).
Context (MSG : YaraftMsg) (RAFT : RaftLib M MSG) (EI : ErasedIterator) (TC : Toolchain).

(** C27: nothing a member writes survives a power failure: whatever the schedule of a member on a
    log it opened, whatever writes, syncs, closes and restarts of the log come after it, and
    however the last of them ended, what the machine finds when it is back is the log that was on
    stable storage when the member started, and no entry more.  (Opening it fails only when a call
    of its own fails.) *)
Theorem power_failure_takes_all this options n0 o m segs cs n ops r o1 m1 :
  New this options = Ok n0 -> opt_wal options = Some (o, m) -> quiet_manager (log_dir (options_ m)) m ->
  log_files (power_failure o) (log_dir (options_ m)) segs -> all_written segs ->
  node_run cs n0 = (Ok tt, n) -> run_ops ops (wal_ n) = (r, (o1, m1)) ->
  os_durable o1 = os_durable o /\
  match Default (options_ m) None (power_failure o1) with
  | (Ok (_, ms), _) => ms = store_of (log_entries segs)
  | (Err e, _) => e = IOError /\ os_script o1 <> []
  | (Halt _, _) => False
  end.
Proof.
  intros HN Hw Hq Hf Hall Hrun Hops. set (dir := log_dir (options_ m)) in *.
  pose proof (node_run_follows _ _ _ _ (New_follows _ _ _ _ HN Hw) Hrun) as Hfol.
  pose proof (wal_writes_kept dir (wal_accepted (history n)) (o, m) Hq) as Hk. rewrite Hfol in Hk.
  pose proof (run_ops_kept dir ops (wal_ n) (proj2 Hk)) as Hk'. rewrite Hops in Hk'. cbn in Hk, Hk'.
  destruct (transitivity (proj1 Hk) (proj1 Hk')) as [Hd Hdirs]. cbn in Hd. split; [done|].
  assert (log_files (power_failure o1) dir segs) as Hf1.
  { eapply log_files_env; [exact Hf|cbn; by rewrite Hd|]. cbn. exact Hdirs. }
  pose proof (Default_spec (options_ m) (power_failure o1) segs Hf1 Hall) as Hspec. unfold wp in Hspec.
  destruct (Default (options_ m) None (power_failure o1)) as [[[m' ms]|e|h] o2]; cbn in Hspec; [| |by destruct Hspec].
  2: { destruct Hspec as (_ & -> & Hu%fault_used_ne & _). done. }
  destruct Hspec as (_ & -> & _). by apply recovered_store_of.
Qed.
End theorem.
