(* ===== verification/Testing.v ===== *)
(** * Test support: [src/base/mock_env.h], [include/consensus/base/testing.h], [src/base/testing.cc]
    and [src/wal/wal_bench.cc]

    The tests write through a [WritableFile] that lives in memory; here it is, next to the one on
    files, and what they have in common.  The other helpers create and remove the directory of a
    test, fill a file with random bytes, and drive the log for a benchmark. *)

From S2P Require Import Prelude External Coding Status Support Posix Interface Segment LogWriter ReadSegment LogManager LogSpec Durability.

(** ** [MockWritableFile] *)

Record MockWritableFile := MkMockWritableFile { buf_ : bytes; mock_fileName_ : string }.

Definition new_MockWritableFile : MockWritableFile := MkMockWritableFile [] "".

Definition set_buf_ (b : bytes) (f : MockWritableFile) : MockWritableFile := MkMockWritableFile b (mock_fileName_ f).

(** [buf_.resize(size)] cuts the string or fills it up with zeros. *)
Definition string_resize (size : Z) (b : bytes) : bytes :=
  take (Z.to_nat size) b ++ replicate (Z.to_nat size - length b) 0.

Definition Data (f : MockWritableFile) : bytes := buf_ f.

Definition mock_file : WritableFile MockWritableFile := {|
  vt_Append := fun data => modify (fun f => set_buf_ (buf_ f ++ data) f);
  vt_PositionedAppend := base_PositionedAppend;
  vt_PreAllocate := fun _ => fail NotSupported;
  vt_Close := mret tt;
  vt_Flush := fun _ => mret tt;
  vt_Sync := mret tt;
  vt_Size := fun f => u64 (len (buf_ f));
  vt_Truncate := fun size => modify (fun f => set_buf_ (string_resize size (buf_ f)) f);
  vt_filename := mock_fileName_;
|}.

(** ** Calls through the class *)

Inductive file_call :=
  | CallAppend (data : bytes)
  | CallPreAllocate (size : Z)
  | CallFlush (mode : FlushMode)
  | CallSync.

Section calls.
Context {S : Type} (vt : WritableFile S).

Definition do_call (c : file_call) : Prog ErrorCode S unit :=
  match c with
  | CallAppend data => vt_Append vt data
  | CallPreAllocate size => vt_PreAllocate vt size
  | CallFlush mode => vt_Flush vt mode
  | CallSync => vt_Sync vt
  end.

(** A list of calls, whatever their statuses are. *)
Fixpoint do_calls (cs : list file_call) : Prog ErrorCode S (list (option ErrorCode)) :=
  match cs with
  | [] => mret []
  | c :: cs => s ← keep_status (do_call c); ss ← do_calls cs; mret (s :: ss)
  end.
End calls.

Definition call_bytes (c : file_call) : Z := match c with CallAppend data => len data | _ => 0 end.
Definition calls_bytes (cs : list file_call) : Z := foldr (fun c n => call_bytes c + n) 0 cs.

(** ** Helpers of the tests *)

(** [TestDirectoryHelper]: the constructor and the destructor. *)
Definition acquire (dir : string) : Env unit := fatal_not_ok (CreateDirIfMissing dir).
Definition release (dir : string) : Env unit := fatal_not_ok (DeleteRecursively dir).

(** A test in the scope of the guard; a failed assertion leaves the scope as well. *)
Definition with_test_dir {A} (dir : string) (test : Env A) : Env A := fun o =>
  match acquire dir o with
  | (Ok _, o) =>
      match test o with
      | (Halt h, o) => (Halt h, o)
      | (r, o) => match release dir o with (Ok _, o) => (r, o) | (Err e, o) => (Err e, o) | (Halt h, o) => (Halt h, o) end
      end
  | (Err e, o) => (Err e, o)
  | (Halt h, o) => (Halt h, o)
  end.

(** [BaseTest::initTestDir], for the names of the test case and the test. *)
Definition test_dir (test_case_name name : string) : string := "/tmp/consensus-yaraft." +:+ test_case_name +:+ "." +:+ name.

(** [BaseTest::SeedRandom]: the flag, or the seconds since the epoch. *)
Definition SeedRandom (FLAGS_gtest_random_seed now_seconds : Z) : Z :=
  u32 (if negb (FLAGS_gtest_random_seed =? 0) then FLAGS_gtest_random_seed else u32 now_seconds).

Section helpers.
Context {HOST : Host} {SB : StatusBool}.

(** [CHECK] ends the process. *)
Definition OpenFileForWrite (fname : string) (mode : CreateMode) (sync_on_close : bool) : Env PosixWritableFile :=
  fatal_not_ok (NewWritableFile fname mode sync_on_close).

(** The destructor of the file runs on every way out. *)
Definition scoped_file (f : PosixWritableFile) (p : FileM unit) : Env unit := fun o =>
  match p (o, f) with
  | (Halt h, (o, _)) => (Halt h, o)
  | (r, st) => match delete_PosixWritableFile st with (Halt h, (o, _)) => (Halt h, o) | (_, (o, _)) => (r, o) end
  end.

(** [BaseTest::WriteTestFile]: the data it wrote, and the generator after it. *)
Definition WriteTestFile (path : string) (size : Z) (rng : Random) : Env (bytes * Random) :=
  wf ← NewWritableFile path CREATE_IF_NON_EXISTING_TRUNCATE false;
  match RandomString_string size rng with
  | None => halt_with Undefined
  | Some (testData, rng) =>
      _ ← scoped_file wf (_ ← Append testData; Close);
      mret (testData, rng)
  end.
End helpers.

(** ** [WalBench] *)

(** [yaraft::PBEntry().Index(index).Term(term).Data(data).v]. *)
Class PBEntryLib (Y : YaraftPb) := pb_entry : Z -> Z -> bytes -> Entry.

Section bench.
Context {HOST : Host} {CRC : Crc32} {SL : SliceLib} {Y : YaraftPb} {PBE : PBEntryLib Y} {M : MemStoreLib Y}.
Context {SB : StatusBool} {FS : BoostFs}.

(** The loop compares [i] with [num_entries] as a [uint64_t]. *)
Definition bench_entries (per_size num_entries : Z) : list Entry :=
  (fun i => pb_entry (Z.of_nat i + 1) 1 (repeat 97 (Z.to_nat per_size))) <$> seq 0 (Z.to_nat (u64 num_entries)).

Definition bench_totalBytes (entries : list Entry) : Z := foldl (fun n e => u64 (n + ByteSize e)) 0 entries.

Fixpoint bench_loop (iterations : nat) (entries : list Entry) : Prog ErrorCode (os * LogManager) unit :=
  match iterations with
  | O => mret tt
  | S k => _ ← fatal_not_ok (Write_entries entries); bench_loop k entries
  end.

(** The writes, and the destructor of the log. *)
Definition bench_writes (iterations : nat) (entries : list Entry) (wal : LogManager) : Env unit := fun o =>
  let '(r, (o, _)) := (_ ← bench_loop iterations entries; delete_LogManager) (o, wal) in (r, o).

(** The bytes reported; the log is destroyed before the directory. *)
Definition WalBench (per_size num_entries : Z) (iterations : nat) : Env Z :=
  let dir := "/tmp/consensus-wal-bench"%string in
  with_test_dir dir (
    wal ← TEST_CreateWalStore dir;
    let entries := bench_entries per_size num_entries in
    _ ← bench_writes iterations entries (fst wal);
    mret (u64 (Z.of_nat iterations * bench_totalBytes entries))).
End bench.

(** ** The two kinds of files agree *)

Lemma wp_keep_status {S A} (m : Prog ErrorCode S A) s (Q : result ErrorCode (option ErrorCode) -> S -> Prop) :
  wp m s (fun r s' => Q match r with Ok _ => Ok None | Err e => Ok (Some e) | Halt h => Halt h end s') -> wp (keep_status m) s Q.
Proof. unfold wp, keep_status. by destruct (m s) as [[] ?]. Qed.

Section agreement.
Context {SB : StatusBool}.

(** A file that is open for writing at its end. *)
Record at_end (path : string) (c : bytes) (st : os * PosixWritableFile) : Prop := {
  end_fd : os_fds (fst st) !! fd_ (snd st) = Some (OpenFile path (length c));
  end_file : os_files (fst st) !! path = Some c;
  end_pending : pending_sync_ (snd st) = false;
}.

(** The file on disk holds what the one in memory holds, and reports the same size. *)
Definition agrees (path : string) (st : os * PosixWritableFile) (f : MockWritableFile) : Prop :=
  at_end path (buf_ f) st /\ filesize_ (snd st) = len (buf_ f).

Lemma mock_call c f :
  keep_status (do_call mock_file c) f
  = (Ok match c with CallPreAllocate _ => Some NotSupported | _ => None end,
     set_buf_ (buf_ f ++ match c with CallAppend data => data | _ => [] end) f).
Proof. destruct c, f; cbn; unfold set_buf_; cbn; by rewrite ?app_nil_r. Qed.

Lemma mock_calls_len cs f sts f' :
  do_calls mock_file cs f = (Ok sts, f') -> len (buf_ f') = len (buf_ f) + calls_bytes cs.
Proof.
  revert f sts. induction cs as [|c cs IH]; intros f sts Hf'; [injection Hf' as _ <-; cbn; lia|].
  cbn [do_calls] in Hf'. erewrite run_bind_ok in Hf' by apply mock_call. unfold mbind, prog_bind in Hf'.
  destruct (do_calls mock_file cs _) as [[ss|e|h] f1] eqn:Hd; [|done|done]. injection Hf' as _ <-. apply IH in Hd.
  cbn [calls_bytes foldr]. fold (calls_bytes cs). rewrite Hd. cbn [buf_ set_buf_]. rewrite len_app.
  destruct c; cbn [call_bytes]; rewrite ?len_nil; lia.
Qed.

(** One call: it does to the file what it does to the buffer, or it is an [IOError]. *)
Lemma posix_call path c b name st :
  at_end path b st -> filesize_ (snd st) + call_bytes c < 2 ^ 64 -> 0 <= filesize_ (snd st) ->
  let '(rm, m') := keep_status (do_call mock_file c) (MkMockWritableFile b name) in
  wp (keep_status (do_call posix_file c)) st (fun r st' =>
    os_script (fst st') `suffix_of` os_script (fst st) /\
    ((r = Ok (Some IOError) /\ os_script (fst st) <> [] /\ filesize_ (snd st') = filesize_ (snd st) /\ exists b', at_end path b' st') \/
     (r = rm /\ at_end path (buf_ m') st' /\ filesize_ (snd st') = filesize_ (snd st) + call_bytes c))).
Proof.
  destruct st as [o f]. intros [Hfd Hf Hp] Hsz Hnn. cbn in Hfd, Hf, Hp, Hsz, Hnn.
  destruct c as [data|size|mode|]; cbn -[Append]; cbn in Hsz; apply wp_keep_status.
  - eapply wp_mono; [by apply (Append_spec data o f path b)|]. intros r [o' f'] (d & s & Ho & Hs & Hr). cbn in Ho. subst o'.
    destruct r as [[]|e|h]; [| |done]; cbn in Hr.
    + destruct Hr as [-> ->]. split; [done|]. right. split; [done|]. pose proof (len_nonneg data). split.
      * split; cbn; [apply lookup_insert_eq|apply lookup_insert_eq|done].
      * cbn. unfold u64. by rewrite Z.mod_small by lia.
    + destruct Hr as (-> & Hne & _ & ->). split; [done|]. left. split_and!; [done|done|done|]. exists (b ++ d).
      split; cbn; [apply lookup_insert_eq|apply lookup_insert_eq|done].
  - apply wp_fail. split; [done|]. right. split; [done|]. split; [by split|]. cbn. lia.
  - unfold Flush, this. wp_steps. apply wp_call. unfold sys_sync_file_range.
    destruct (next_sys_cases o) as [[Hs ->]|(r & s & Hs & ->)].
    + rewrite Hfd. apply wp_ret. split; [done|]. right. split; [done|]. split; [by split|]. cbn. lia.
    + assert (s `suffix_of` os_script o) by (rewrite Hs; by apply suffix_cons_r).
      destruct r as [|k|e]; cbn; rewrite ?Hfd; (split; [done|]).
      * right. split; [done|]. split; [by split|]. cbn. lia.
      * right. split; [done|]. split; [by split|]. cbn. lia.
      * left. split_and!; [done|by rewrite Hs|done|]. exists b. by split.
  - unfold Sync, this. wp_steps. rewrite Hp. apply wp_ret. split; [done|]. right. split; [done|]. split; [by split|]. cbn. lia.
Qed.

Lemma posix_calls path cs b name st :
  at_end path b st -> 0 <= filesize_ (snd st) -> filesize_ (snd st) + calls_bytes cs < 2 ^ 64 ->
  exists sts st', do_calls posix_file cs st = (Ok sts, st') /\
    ((Some IOError ∈ sts /\ os_script (fst st) <> []) \/
     exists f', do_calls mock_file cs (MkMockWritableFile b name) = (Ok sts, f') /\ at_end path (buf_ f') st' /\
       filesize_ (snd st') = filesize_ (snd st) + calls_bytes cs).
Proof.
  revert b st. induction cs as [|c cs IH]; intros b st He Hnn Hsz.
  { exists [], st. split; [done|]. right. exists (MkMockWritableFile b name). split_and!; [done|done|cbn; lia]. }
  cbn [calls_bytes foldr] in Hsz. fold (calls_bytes cs) in Hsz.
  assert (forall c, 0 <= call_bytes c) as Hcb by (intros [data|size|mode|]; [apply len_nonneg|done..]). pose proof (Hcb c).
  assert (0 <= calls_bytes cs).
  { clear -Hcb. induction cs as [|c cs IH]; [done|]. pose proof (Hcb c). cbn [calls_bytes foldr]. fold (calls_bytes cs). lia. }
  pose proof (posix_call path c b name st He ltac:(lia) Hnn) as Hc.
  destruct (keep_status (do_call mock_file c) (MkMockWritableFile b name)) as [rm m'] eqn:Hm.
  destruct (keep_status (do_call posix_file c) st) as [r st1] eqn:Hp. pose proof (wp_run _ _ _ _ _ Hc Hp) as [Hs Hc'].
  assert (exists s, rm = Ok s /\ mock_fileName_ m' = name) as (s & -> & Hname) by (destruct c; injection Hm as <- <-; eauto).
  cbn [do_calls]. destruct Hc' as [(-> & Hne & Hfs & b' & He')|(-> & He' & Hfs)].
  - destruct (IH b' st1 He' ltac:(lia) ltac:(lia)) as (sts & st' & Hrun & _). exists (Some IOError :: sts), st'.
    erewrite run_bind_ok by exact Hp. erewrite run_bind_ok by exact Hrun. split; [done|]. left. split; [by left|done].
  - destruct (IH (buf_ m') st1 He' ltac:(lia) ltac:(lia)) as (sts & st' & Hrun & Hr). exists (s :: sts), st'.
    erewrite run_bind_ok by exact Hp. erewrite run_bind_ok by exact Hrun. split; [done|].
    destruct Hr as [[Hin Hne]|(f' & Hf' & ? & Hfs')].
    + left. split; [by right|]. intros Hn. rewrite Hn in Hs. by apply suffix_nil_inv in Hs.
    + right. exists f'. rewrite <- Hname in Hf'. erewrite run_bind_ok by exact Hm.
      assert (MkMockWritableFile (buf_ m') (mock_fileName_ m') = m') as Hmm by (by destruct m'). rewrite Hmm in Hf'.
      erewrite run_bind_ok by exact Hf'. split_and!; [done|done|]. cbn [calls_bytes foldr]. fold (calls_bytes cs). lia.
Qed.
End agreement.

(** ** Theorems *)

Section theorems.
Context (SB : StatusBool).


(** A test leaves nothing behind: whether it succeeds or fails, the directory of its guard is gone
    afterwards with all that is below it, and the rest of the file system is as the test left it. *)
Theorem test_dir_is_removed {A} dir (test : Env A) o r o' :
  with_test_dir dir test o = (r, o') -> (forall h, r <> Halt h) ->
  exists o1 o2, CreateDirIfMissing dir o = (Ok tt, o1) /\ test o1 = (r, o2) /\
    forall p, if below dir p then os_files o' !! p = None /\ p ∉ os_dirs o'
              else os_files o' !! p = os_files o2 !! p /\ (p ∈ os_dirs o' <-> p ∈ os_dirs o2).
Proof.
  unfold with_test_dir, acquire, release, fatal_not_ok. intros Hw Hnh.
  destruct (CreateDirIfMissing dir o) as [[[]|e|h] o1]; [|by injection Hw as <- _; destruct (Hnh FatalLog)|by injection Hw as <- _; destruct (Hnh h)].
  destruct (test o1) as [rt o2] eqn:Ht. exists o1, o2. split; [done|].
  assert (forall h, rt <> Halt h) as Hrt by (intros h ->; injection Hw as <- _; by destruct (Hnh h)).
  assert (exists o3, DeleteRecursively dir o2 = (Ok tt, o3) /\ r = rt /\ o' = o3) as (o3 & Hdel & -> & ->).
  { destruct rt; [| |by destruct (Hrt h)]; destruct (DeleteRecursively dir o2) as [[[]|e'|h] o3]; injection Hw as <- <-;
      try (by exists o3); by edestruct Hnh. }
  split; [done|]. intros p. unfold DeleteRecursively, or_io_error, boost_remove_all, boost_call in Hdel.
  assert (exists o4, os_files o4 = os_files o2 /\ os_dirs o4 = os_dirs o2 /\
    o3 = with_dirs (filter (fun d => below dir d = false) (os_dirs o4)) (with_files (filter (fun '(p, _) => below dir p = false) (os_files o4)) o4))
    as (o4 & Hf & Hd & ->).
  { destruct (next_sys_cases o2) as [[Hs Hn]|(x & s & Hs & Hn)]; rewrite Hn in Hdel.
    - injection Hdel as <-. by exists o2.
    - destruct x; [| |done]; injection Hdel as <-; by exists (with_script s o2). }
  cbn. rewrite Hf, Hd. destruct (below dir p) eqn:Hb.
  - split; [|rewrite elem_of_filter; intros [? _]; congruence]. apply map_lookup_filter_None. right. intros c _ ?. congruence.
  - split; [|rewrite elem_of_filter; naive_solver].
    destruct (os_files o2 !! p) as [c|] eqn:Hp; [by apply map_lookup_filter_Some|]. apply map_lookup_filter_None. by left.
Qed.
End theorems.

Section files.
Context (HOST : Host) (SB : StatusBool).

(** The destructor of a file: it is closed if it was not. *)
Lemma delete_file_spec o f fo :
  (fd_ f < 0 \/ os_fds o !! fd_ f = Some fo) -> pre_allocated_size_ f <= filesize_ f -> sync_on_close_ f = false ->
  wp delete_PosixWritableFile (o, f) (fun r st =>
    os_files (fst st) = os_files o /\ os_script (fst st) `suffix_of` os_script o /\ forall h, r <> Halt h).
Proof.
  intros Hfd Hpre Hsync. unfold delete_PosixWritableFile, this. wp_steps. rewrite Z.geb_leb.
  destruct (Z.leb_spec 0 (fd_ f)); [|by apply wp_ret]. destruct Hfd as [?|Hfd]; [lia|]. apply wp_bind, wp_keep_status.
  eapply wp_mono; [by eapply Close_spec|]. intros r st (fds & s & -> & Hs & Hr). destruct r; [|by apply wp_ret|done].
  by apply wp_ret.
Qed.

Lemma random_string_total size rng :
  0 <= size < 2 ^ 62 -> exists d rng', RandomString_string size rng = Some (d, rng') /\ len d = size.
Proof.
  intros Hsz. set (buf := repeat 0 (Z.to_nat size)).
  assert (len buf = size) as Hbuf by (unfold buf, len; rewrite repeat_length; lia).
  pose proof (random_string_fills HOST buf rng ltac:(lia)) as Hrs. cbv zeta in Hrs. rewrite Hbuf in Hrs.
  unfold RandomString_string. fold buf. do 2 eexists. split; [exact Hrs|].
  assert (forall j g, length (outputs j g) = j) as Ho by (intros j; induction j; intros g; cbn; auto).
  unfold len in *. rewrite length_take, length_word_bytes, Ho. pose proof (Nat.div_mod_eq (length buf) 4).
  pose proof (Nat.mod_upper_bound (length buf) 4 ltac:(lia)). lia.
Qed.

(** The statements in the scope of the file. *)
Lemma scoped_append_spec data path o f :
  os_fds o !! fd_ f = Some (OpenFile path 0) -> os_files o !! path = Some [] ->
  pre_allocated_size_ f = 0 -> sync_on_close_ f = false -> filesize_ f = 0 ->
  wp (scoped_file f (_ ← Append data; Close)) o (fun r o' =>
    match r with
    | Ok _ => os_files o' = <[path := data]> (os_files o)
    | Err e => e = IOError /\ os_script o <> []
    | Halt _ => False
    end).
Proof.
  intros Hfd Hf Hpre Hsync Hsz.
  assert (wp (_ ← Append data; Close) (o, f) (fun r st =>
    (exists fo, fd_ (snd st) < 0 \/ os_fds (fst st) !! fd_ (snd st) = Some fo) /\
    pre_allocated_size_ (snd st) <= filesize_ (snd st) /\ sync_on_close_ (snd st) = false /\
    match r with
    | Ok _ => os_files (fst st) = <[path := data]> (os_files o)
    | Err e => e = IOError /\ os_script o <> []
    | Halt _ => False
    end)) as Hbody.
  { apply wp_bind. eapply wp_mono; [by apply (Append_spec data o f path [])|].
    intros r [o1 f1] (d & s & Ho & Hs & Hr). cbn in Ho, Hr. subst o1. destruct r as [[]|e|h]; [| |done].
    - destruct Hr as [-> ->]. eapply wp_mono; [eapply Close_spec|].
      + cbn. apply lookup_insert_eq.
      + cbn. rewrite Hpre. apply Z.mod_pos_bound. lia.
      + done.
      + intros r st (fds & s' & -> & Hs' & Hr). cbn. split_and!; [exists (OpenFile path 0); by left| |done|].
        * rewrite Hpre. apply Z.mod_pos_bound. lia.
        * destruct r; [done| |done]. destruct Hr as [-> Hne]. split; [done|]. cbn in Hne. intros Hn. rewrite Hn in Hs. by apply suffix_nil_inv in Hs.
    - destruct Hr as (-> & Hne & _ & ->). cbn. split_and!; try done; [|lia]. eexists. right. apply lookup_insert_eq. }
  unfold wp, scoped_file in *. destruct ((_ ← Append data; Close) (o, f)) as [r [o1 f1]]. cbn in Hbody.
  destruct Hbody as ([fo Hfo] & Hpre1 & Hsync1 & Hr). pose proof (delete_file_spec o1 f1 fo Hfo Hpre1 Hsync1) as Hdel. unfold wp in Hdel.
  destruct (delete_PosixWritableFile (o1, f1)) as [rd [o2 f2]]. destruct Hdel as (Hfiles & _ & Hnh).
  destruct r as [[]|e|h]; [| |done]; (destruct rd as [u|e'|h']; [..|by destruct (Hnh h')]); cbn in *; try done; by rewrite Hfiles.
Qed.

(** [WriteTestFile] makes a file of [size] random bytes in a directory that is there: they are what the generator gives next,
    the file holds exactly these bytes and reading it back returns them; it fails only when a call
    of the system fails. *)
Theorem write_test_file path size rng o :
  os_files o !! path = None -> has_parent path o = true -> 0 <= size < 2 ^ 62 ->
  exists d rng', RandomString_string size rng = Some (d, rng') /\ len d = size /\
  exists r o', WriteTestFile path size rng o = (r, o') /\
    match r with
    | Ok x => x = (d, rng') /\ os_files o' = <[path := d]> (os_files o) /\
        (os_script o' = [] -> fst (ReadFullyToBuffer path o') = Ok d)
    | Err e => e = IOError /\ os_script o <> []
    | Halt _ => False
    end.
Proof.
  intros Hp Hpar Hsz. destruct (random_string_total size rng Hsz) as (d & rng' & Hd & Hlen). exists d, rng'. split_and!; [done|done|].
  assert (wp (WriteTestFile path size rng) o (fun r o' => match r with
    | Ok x => x = (d, rng') /\ os_files o' = <[path := d]> (os_files o)
    | Err e => e = IOError /\ os_script o <> []
    | Halt _ => False
    end)) as Hw.
  { unfold WriteTestFile, NewWritableFile. rewrite Hd. wp_steps. cbn [DoOpen].
    eapply wp_mono; [apply (sys_open_spec o path true false true []); right; by rewrite Hpar|].
    intros [fd|e|h] o1 [Hs1 H1]; [|by destruct H1 as (? & ?%fault_used_ne & _)|done]. destruct H1 as [-> ->]. wp_steps.
    eapply wp_mono; [eapply (scoped_append_spec d path); cbn; [apply lookup_insert_eq|apply lookup_insert_eq|done..]|].
    intros [[]|e|h] o2 Hr; [| |done].
    - apply wp_ret. split; [done|]. cbn in Hr. by rewrite insert_insert_eq in Hr.
    - destruct Hr as [-> Hne]. split; [done|]. intros Hn. cbn in Hne. rewrite Hn in Hs1. by apply suffix_nil_inv in Hs1. }
  unfold wp in Hw. destruct (WriteTestFile path size rng o) as [r o'] eqn:Hrun. exists r, o'. split; [done|].
  cbn in Hw.
  destruct r as [x|e|h]; [|done|done]. destruct Hw as [-> Hf]. split_and!; [done|done|]. intros Hn.
  assert (os_files o' !! path = Some d) as Hfd by (rewrite Hf; apply lookup_insert_eq).
  pose proof (ReadFullyToBuffer_spec path o' d Hfd) as Hread. unfold wp in Hread.
  destruct (ReadFullyToBuffer path o') as [[d'|e|h] o2]; cbn in *; destruct Hread as (_ & _ & _ & _ & Hread); [by rewrite Hread| |done].
  by destruct Hread as [_ ?%fault_used_ne].
Qed.
End files.

(** ** The benchmark *)

Section bench_theorem.
Context (HOST : Host) (CRC : Crc32) (CS : Crc32Spec CRC) (SL : SliceLib) (SS : SliceSpec SL).
Context (Y : YaraftPb) (YS : YaraftPbSpec Y) (M : MemStoreLib Y) (SB : StatusBool) (FS : BoostFs) (FSS : BoostFsSpec FS).

(** The benchmark measures writes that reach the log: after [k] turns of its loop the log holds the
    batch [k] times more, or the process has ended because a call failed. *)
Theorem bench_loop_appends options k es o m log size :
  log_rep options o m log size -> fresh_room m -> 8 + len (entries_bytes es) < 2 ^ 32 ->
  size + Z.of_nat k * write_cost es < 2 ^ 62 ->
  wp (bench_loop k es) (o, m) (op_post o True (fun _ st =>
    log_rep options (fst st) (snd st) (log ++ mjoin (replicate k es)) (size + Z.of_nat k * write_cost es))).
Proof.
  revert o m log size. induction k as [|k IH]; intros o m log size Hrep Hfresh H32 H62.
  { apply wp_ret. split; [done|]. cbn. by rewrite app_nil_r, Z.add_0_r. }
  pose proof (write_cost_nonneg es). cbn [bench_loop]. eapply wp_op_seq.
  - apply wp_fatal. eapply wp_mono; [by apply (write_rep options o m log size es); [..|lia]|].
    intros [u|e|h] st [Hs Hr]; (split; [done|]); [exact Hr|left; by destruct Hr|naive_solver].
  - intros [] o1 m1 Hrep1. cbn in Hrep1. cbn [replicate mjoin list_join]. rewrite app_assoc.
    replace (size + Z.of_nat (S k) * write_cost es) with (size + write_cost es + Z.of_nat k * write_cost es) by lia.
    apply IH; [done| |done|lia].
    destruct Hrep as (? & _ & _ & _ & _ & Ho & _), Hrep1 as (? & _ & _ & _ & _ & Ho1 & _). unfold fresh_room in *. by rewrite Ho1, <- Ho.
Qed.
End bench_theorem.
