(* ===== verification/Witnesses.v ===== *)
(** * Witnesses

    Each theorem with hypotheses, applied to concrete data on the instances of [Reference.v]. *)

From S2P Require Import Prelude External Coding Status Support Posix Interface Segment LogWriter ReadSegment LogManager LogSpec Reference Durability Crash Testing.

(** ** Coding *)

Lemma fixed32_witness :
  EncodeFixed32 305419896 = [120; 86; 52; 18] /\
  DecodeFixed32 (EncodeFixed32 305419896 ++ [7]) = Some 305419896.
Proof. exact (fixed32_roundtrip ref_host 305419896 [7] ltac:(split; lia)). Defined.

Lemma fixed64_witness :
  EncodeFixed64 258 = [2; 1; 0; 0; 0; 0; 0; 0] /\ DecodeFixed64 (EncodeFixed64 258 ++ [7]) = Some 258.
Proof. exact (fixed64_roundtrip ref_host 258 [7] ltac:(split; lia)). Defined.

Lemma varint32_witness :
  len (EncodeVarint32 300) = VarintLength 300 /\ VarintLength 300 <= 5 /\
  GetVarint32Ptr (EncodeVarint32 300 ++ [1; 2]) = Some (300, [1; 2]).
Proof. exact (varint32_roundtrip 300 [1; 2] ltac:(split; lia)). Defined.

Lemma varint64_witness :
  len (EncodeVarint64 (2 ^ 63)) = VarintLength (2 ^ 63) /\ VarintLength (2 ^ 63) <= 10 /\
  GetVarint64Ptr (EncodeVarint64 (2 ^ 63) ++ [5]) = Some (2 ^ 63, [5]).
Proof. exact (varint64_roundtrip (2 ^ 63) [5] ltac:(split; lia)). Defined.

Lemma varint_truncated_witness :
  GetVarint32Ptr (take 2 (EncodeVarint64 (2 ^ 20))) = None /\
  GetVarint64Ptr (take 2 (EncodeVarint64 (2 ^ 20))) = None.
Proof. apply (varint_truncated (2 ^ 20) 2); [split; lia|vm_compute; lia]. Defined.

Lemma GetVarint32Ptr_safe_witness :
  match GetVarint32Ptr [200; 1; 9] with
  | Some (v, rest) => is_u32 v /\ exists used, [200; 1; 9] = used ++ rest /\ 1 <= len used <= 5
  | None => Forall (fun b => 128 <= b) (take 5 [200; 1; 9])
  end.
Proof. apply (GetVarint32Ptr_safe [200; 1; 9]). by repeat constructor. Defined.

Lemma length_prefixed_witness :
  GetLengthPrefixedSlice (PutLengthPrefixedSlice [] [1; 2; 3] ++ [9]) = (Some [1; 2; 3], [9]) /\
  GetLengthPrefixedSlicePtr (PutLengthPrefixedSlice [] [1; 2; 3] ++ [9]) = Some ([1; 2; 3], [9]).
Proof. apply (length_prefixed_roundtrip ref_slice ref_slice_spec [1; 2; 3] [9]). done. Defined.

(** ** Files *)

(** One open file at descriptor 3; a short write, an interruption, then a failing call. *)
Definition ex_file : PosixWritableFile := new_PosixWritableFile "f" 3 2 false.
Definition ex_os (script : list sysres) : os :=
  MkOs {["f" := [1; 2]]} ∅ ∅ {[3 := OpenFile "f" 2]} 4 script.

Lemma append_witness :
  exists r st d s, Append [3; 4; 5] (ex_os [SysShort 1; SysErr EINTR], ex_file) = (r, st) /\
    fst st = os_appended (ex_os [SysShort 1; SysErr EINTR]) 3 "f" [1; 2] d s /\
    match r with
    | Ok _ => d = [3; 4; 5] /\ snd st = set_filesize_ (u64 (filesize_ ex_file + len [3; 4; 5])) ex_file
    | Err e => e = IOError /\ os_script (ex_os [SysShort 1; SysErr EINTR]) <> [] /\
        d `prefix_of` [3; 4; 5] /\ snd st = ex_file
    | Halt _ => False
    end.
Proof.
  apply (append_writes_all [3; 4; 5] (ex_os [SysShort 1; SysErr EINTR]) ex_file "f" [1; 2]);
    vm_compute; reflexivity.
Defined.


Lemma sync_witness :
  wp (_ ← Append [3]; Sync) (ex_os [], ex_file) (fun r st => os_durable (fst st) = ∅) /\
  forall o1 f1, Append [3] (ex_os [], ex_file) = (Ok tt, (o1, f1)) -> Sync (o1, f1) = (Ok tt, (o1, f1)).
Proof.
  apply (sync_after_append_is_noop [3] (ex_os []) ex_file "f" [1; 2]); vm_compute; reflexivity.
Defined.

Lemma open_existing_witness :
  exists f o1 f2 o2,
    NewWritableFile "f" OPEN_EXISTING false (ex_os []) = (Ok f, o1) /\
    Append [9] (o1, f) = (Ok tt, (o2, f2)) /\
    os_files o2 !! "f" = Some [9; 2] /\ Size f2 = 3.
Proof.
  apply (open_existing_overwrites "f" [1; 2] [9] (ex_os [])); done || (vm_compute; reflexivity).
Defined.

(** ** Segments *)

Lemma segment_name_witness :
  isWal (SegmentFileName 12 345) = true /\
  "/"%char ∉ String.list_ascii_of_string (SegmentFileName 12 345) /\
  parseWalName (SegmentFileName 12 345) = Some (12, 345) /\
  forall id' start', is_u64 id' -> is_u64 start' ->
    SegmentFileName 12 345 = SegmentFileName id' start' -> 12 = id' /\ 345 = start'.
Proof. apply (segment_name_roundtrip 12 345); split; lia. Defined.

Definition e1 : @Entry ref_yaraft := mk_entry 1 1 [1; 2; 3].
Definition e2 : @Entry ref_yaraft := mk_entry 2 1 [4].
Definition e3 : @Entry ref_yaraft := mk_entry 3 2 [].
Definition hs1 : @HardState ref_yaraft := mk_hard_state 1 1 (Some 1).

(** A writer on a new segment file. *)
Definition ex_writer (c : bytes) (size : Z) (fresh : bool) : LogWriter :=
  MkLogWriter (new_PosixWritableFile "f" 3 (len c) false) (MkSegmentMetaData "f" 0) size fresh 0.
Definition ex_seg_os (c : bytes) : os := MkOs {["f" := c]} ∅ ∅ {[3 := OpenFile "f" (length c)]} 4 [].

Lemma ex_writer_at c size fresh : writer_at (ex_seg_os c) (ex_writer c size fresh) "f" c.
Proof. split; try done; apply lookup_singleton_eq. Qed.

Lemma log_writer_witness :
  exists r o' w' written rest d s,
    LogWriter_Append [e1; e2; e3] None (ex_seg_os [], ex_writer [] 50 true) = (r, (o', w')) /\
    [e1; e2; e3] = written ++ rest /\ o' = os_appended (ex_seg_os []) 3 "f" [] d s /\
    let full := kLogSegmentHeaderMagic ++ frame (entries_bytes written) in
    let room := u64 (s64 (50 - (len (@nil Z) + len kLogSegmentHeaderMagic))) in
    ([e1; e2; e3] <> [] -> 8 < room <-> written <> []) /\
    (rest <> [] -> room <= 8 + len (entries_bytes written)) /\
    match r with
    | Ok rest' => rest' = rest /\ d = full /\ w' = writer_after (ex_writer [] 50 true) full (len written) 0
    | Err e => e = IOError /\ os_script (ex_seg_os []) <> [] /\ d `prefix_of` full
    | Halt _ => False
    end.
Proof.
  apply (log_writer_append ref_host ref_crc32 ref_yaraft ref_yaraft_spec (ex_seg_os [])
    (ex_writer [] 50 true) "f" [] [e1; e2; e3]);
    [apply ex_writer_at|vm_compute; reflexivity|vm_compute; reflexivity].
Defined.

Definition ex_batches : list (list record) := [[RecHardState hs1; RecEntry e1]; [RecEntry e2]].

Lemma segment_roundtrip_witness :
  exists seg', ReadSegment (new_ReadableLogSegment (segment_bytes ex_batches) new_MemoryStorage
      new_SegmentMetaData true) = (Ok tt, seg') /\
    memStore_ seg' = replay new_MemoryStorage (concat ex_batches) /\
    numEntries (metaData_ seg') = u64 (numEntries new_SegmentMetaData + len (omap record_entry (concat ex_batches))).
Proof.
  apply (segment_roundtrip ref_host ref_crc32 ref_crc32_spec ref_slice ref_slice_spec ref_yaraft
    ref_yaraft_spec ref_mem_store ex_batches); [repeat constructor|vm_compute; reflexivity|done].
Defined.

Lemma segment_torn_witness :
  exists seg', ReadSegment (new_ReadableLogSegment (take 60 (segment_bytes ([[RecEntry e1]] ++ [[RecEntry e2]])))
      new_MemoryStorage new_SegmentMetaData true) = (Err Corruption, seg') /\
    memStore_ seg' = replay new_MemoryStorage (concat [[RecEntry e1]]).
Proof.
  apply (segment_torn ref_host ref_crc32 ref_crc32_spec ref_slice ref_slice_spec ref_yaraft
    ref_yaraft_spec ref_mem_store [[RecEntry e1]] [RecEntry e2] 60 new_MemoryStorage new_SegmentMetaData true);
    [repeat constructor|vm_compute; reflexivity|done|vm_compute; lia].
Defined.

Lemma segment_checksum_witness :
  exists seg', ReadSegment (new_ReadableLogSegment
      (segment_bytes [[RecEntry e1]] ++ framed 5 (entries_bytes [e2]) ++ []) new_MemoryStorage
      new_SegmentMetaData true) = (Err Corruption, seg') /\
    memStore_ seg' = replay new_MemoryStorage (concat [[RecEntry e1]]).
Proof.
  apply (segment_checksum ref_host ref_crc32 ref_crc32_spec ref_slice ref_slice_spec ref_yaraft
    ref_yaraft_spec ref_mem_store);
    [repeat constructor|vm_compute; reflexivity|done|split; lia|vm_compute; reflexivity|vm_compute; lia].
Defined.

Lemma reader_safe_witness :
  exists r seg', ReadSegment (new_ReadableLogSegment (kLogSegmentHeaderMagic ++ [1; 2; 3; 4; 255; 255; 255; 255; 0])
      new_MemoryStorage new_SegmentMetaData false) = (r, seg') /\
    ((r = Ok tt /\ Eof seg' = true) \/ r = Err Corruption).
Proof.
  apply (reader_safe ref_host ref_crc32 ref_slice ref_slice_spec ref_yaraft ref_mem_store);
    [apply (bool_decide_unpack _); vm_compute; exact I|done].
Defined.

Lemma segment_bad_magic_witness :
  exists seg', ReadSegment (new_ReadableLogSegment [1; 2] new_MemoryStorage new_SegmentMetaData true)
      = (Err Corruption, seg') /\
    memStore_ seg' = new_MemoryStorage /\ metaData_ seg' = new_SegmentMetaData.
Proof.
  apply (segment_bad_magic ref_host ref_crc32 ref_slice ref_slice_spec ref_yaraft ref_mem_store [1; 2]). done.
Defined.

Lemma hard_state_witness :
  let run := LogWriter_Append [e1; e2] (Some hs1)
               (ex_seg_os (segment_bytes []), ex_writer (segment_bytes []) 1000 false) in
  lw_oob_ (snd (snd run)) = 0 + 1 /\
  exists c', os_files (fst (snd run)) !! "f" = Some c' /\
    fst (ReadSegment (new_ReadableLogSegment c' new_MemoryStorage new_SegmentMetaData true)) = Err Corruption.
Proof.
  intros run.
  apply (hard_state_batch_unreadable ref_host ref_crc32 ref_crc32_spec ref_slice ref_slice_spec ref_yaraft
    ref_yaraft_spec ref_mem_store (ex_seg_os (segment_bytes [])) (ex_writer (segment_bytes []) 1000 false)
    "f" [] [e1; e2] hs1 new_MemoryStorage new_SegmentMetaData true [] (fst (snd run)) (snd (snd run)));
    [apply ex_writer_at|done|constructor|vm_compute; reflexivity..].
Defined.

(** ** The log *)

Definition ex_options (size : Z) : WriteAheadLogOptions := MkWriteAheadLogOptions size true "d".

(** An empty directory and a new manager. *)
Definition os0 (script : list sysres) : os := MkOs ∅ ∅ {["d"]} ∅ 3 script.
Definition m0 : LogManager := new_LogManager (ex_options 60).

Lemma empty_log o dir : os_files o = ∅ -> os_dirs o = {[dir]} -> log_files o dir [].
Proof.
  intros Hf Hd. split; try done; [|constructor..].
  intros name _ _ [Hs|Hs]; [rewrite Hf in Hs; by destruct Hs|].
  rewrite Hd in Hs. apply elem_of_singleton in Hs. by apply path_join_not_dir in Hs.
Qed.

Lemma m0_inv script : log_inv (os0 script) m0 [].
Proof. split; [split; [by apply empty_log|set_solver]|done]. Qed.

Definition ex_ops : list log_op :=
  [OpWrite [e1; e2]; OpSync; OpReopen; OpWrite [e3]; OpClose; OpReopen].

Example wal_run : fst (run_ops ex_ops (os0 [SysShort 3; SysErr EINTR], m0))
  = Ok [store_of [e1; e2]; store_of [e1; e2; e3]].
Proof. vm_compute. reflexivity. Qed.

(** The run of the example returns, and the last restart recovers the three entries. *)
Lemma wal_witness :
  exists o' m', run_ops ex_ops (os0 [SysShort 3; SysErr EINTR], m0)
    = (Ok [store_of [e1; e2]; store_of [e1; e2; e3]], (o', m')) /\
    log_rep (ex_options 60) o' m' [e1; e2; e3] (0 + ops_cost ex_ops).
Proof.
  destruct (wal_refines_list ref_host ref_crc32 ref_crc32_spec ref_slice ref_slice_spec ref_yaraft
    ref_yaraft_spec ref_mem_store ref_status_bool ref_boost_fs ref_boost_fs_spec (ex_options 60) ex_ops
    (os0 [SysShort 3; SysErr EINTR]) m0 [] 0) as (r & o' & m' & Hrun & Hr);
    [exists []; split_and!; try done; [apply m0_inv|constructor]|vm_compute; reflexivity
    |repeat constructor|vm_compute; reflexivity|].
  pose proof wal_run as Hok. rewrite Hrun in Hok. cbn in Hok. subst r. exists o', m'. split; [exact Hrun|exact (proj2 Hr)].
Defined.

Lemma write_witness :
  exists r o' m', Write [e1; e2; e3] None (os0 [], m0) = (r, (o', m')) /\
    (forall i s, [] !! i = Some s -> exists more,
       os_files o' !! seg_file "d" i s = Some (seg_content (snd s) ++ more)) /\
    match r with
    | Ok _ => exists segs', log_inv o' m' segs' /\ extends [] segs' /\
        log_entries segs' = log_entries [] ++ [e1; e2; e3] /\ ([e1; e2; e3] <> [] -> has_room m0)
    | Err e => e = IOError /\ os_script (os0 []) <> []
    | Halt h => (h = FatalLog /\ os_script (os0 []) <> []) \/ (h = Undefined /\ ~ has_room m0)
    end.
Proof.
  apply (write_appends ref_host ref_crc32 ref_yaraft ref_yaraft_spec ref_status_bool
    (os0 []) m0 [] [e1; e2; e3]);
    [apply m0_inv|done|vm_compute; reflexivity..].
Defined.

(** A log of one segment that is open for writing. *)
Definition c1 : bytes := seg_content [[e1]].
Definition ex_path : string := segment_path "d" 1 1.
Definition os1 : os := MkOs {[ex_path := c1]} ∅ {["d"]} {[3 := OpenFile ex_path (length c1)]} 4 [].
Definition w1 (size : Z) : LogWriter :=
  MkLogWriter (new_PosixWritableFile ex_path 3 (len c1) false) (MkSegmentMetaData ex_path 1) size false 0.
Definition m1 (size : Z) : LogManager := MkLogManager (Some (w1 size)) [] 0 false (ex_options size).

Lemma os1_files : log_files os1 "d" [(1, [[e1]])].
Proof.
  split.
  - intros [|i] s Hs; [|by destruct i]. injection Hs as <-. apply lookup_singleton_eq.
  - intros name _ _ [Hs|Hs].
    + destruct Hs as [c Hs]. cbn in Hs. apply lookup_singleton_Some in Hs as [Hs _].
      apply path_join_inj in Hs as <-. by exists 0%nat, (1, [[e1]]).
    + cbn in Hs. apply elem_of_singleton in Hs. by apply path_join_not_dir in Hs.
  - by repeat constructor.
  - by repeat constructor.
  - vm_compute. reflexivity.
Qed.

Lemma m1_inv size : log_inv os1 (m1 size) [(1, [[e1]])].
Proof.
  split; [split; [apply os1_files|set_solver]|]. exists [], 1, [[e1]]. split_and!; try done. 
Qed.

Lemma recover_witness :
  exists r o' rc, Recover (ex_options 60) (os1, MkRecovery None None) = (r, (o', rc)) /\
    os_files o' = os_files os1 /\
    match r with
    | Ok _ => exists m, rc = MkRecovery (store_of (log_entries [(1, [[e1]])])) (Some m) /\
        log_inv o' m [(1, [[e1]])] /\ SegmentNum m = len [(1, [[e1]])] /\ lastIndex_ m = 0
    | Err e => e = IOError /\ fault_used os1 o' /\ log_files o' (log_dir (ex_options 60)) [(1, [[e1]])]
    | Halt _ => False
    end.
Proof.
  apply (recover_reads_log ref_host ref_crc32 ref_crc32_spec ref_slice ref_slice_spec ref_yaraft
    ref_yaraft_spec ref_mem_store ref_boost_fs ref_boost_fs_spec (ex_options 60) os1 [(1, [[e1]])]);
    [apply os1_files|by repeat constructor].
Defined.

Lemma full_segment_witness : fst (Write [e2] None (os1, m1 45)) = Halt Undefined.
Proof.
  apply (write_to_full_segment ref_host ref_crc32 ref_yaraft ref_yaraft_spec ref_status_bool
    os1 (m1 45) [(1, [[e1]])] [e2] (w1 45));
    [apply m1_inv|done|vm_compute; reflexivity|done|vm_compute; reflexivity|vm_compute; reflexivity|done..
    |vm_compute; split; discriminate].
Defined.

(** ** Damaged logs *)

(** The file of [os1] ends ten bytes into its batch. *)
Definition os_torn : os := with_files {[ex_path := take 20 c1]} os1.

Lemma torn_write_witness : refused os_torn (fst (Default (ex_options 60) None os_torn)).
Proof.
  apply (torn_write_locks_log ref_host ref_crc32 ref_crc32_spec ref_slice ref_slice_spec ref_yaraft
    ref_yaraft_spec ref_mem_store ref_boost_fs ref_boost_fs_spec (ex_options 60) os1 os_torn [] 1 [] [e1] 20);
    [apply os1_files|by constructor|vm_compute; lia|vm_compute; reflexivity|done].
Defined.

Lemma hard_state_locks_witness :
  let run := LogWriter_Append [e2] (Some hs1) (os1, w1 1000) in
  Write [e2] (Some hs1) (os1, m1 1000) = (Ok tt, (fst (snd run), set_current_ (Some (snd (snd run))) (m1 1000))) /\
  refused (fst (snd run)) (fst (Default (ex_options 1000) None (with_fds ∅ (fst (snd run))))).
Proof.
  intros run.
  apply (hard_state_locks_log ref_host ref_crc32 ref_crc32_spec ref_slice ref_slice_spec ref_yaraft
    ref_yaraft_spec ref_mem_store ref_status_bool ref_boost_fs ref_boost_fs_spec os1 (m1 1000) [(1, [[e1]])] (w1 1000) [e2] hs1);
    [apply m1_inv|done|done|by repeat constructor|done|vm_compute; reflexivity..].
Defined.

(** ** The memory store *)

Lemma append_to_mem_store_witness :
  match last (ms_entries (MkRefStore [e1; e2] None)) with
  | Some back =>
      if entry_term e3 <? entry_term back then
        AppendToMemStore e3 (MkRefStore [e1; e2] None) = (Err YARaftError, MkRefStore [e1; e2] None)
      else exists ms', AppendToMemStore e3 (MkRefStore [e1; e2] None) = (Ok tt, ms') /\
             ms_entries ms' = before_index (entry_index e3) [e1; e2] ++ [e3] /\
             index_sorted (ms_entries ms')
  | None => exists ms', AppendToMemStore e3 (MkRefStore [e1; e2] None) = (Ok tt, ms') /\ ms_entries ms' = [e3]
  end.
Proof.
  apply (append_to_mem_store ref_yaraft ref_mem_store ref_mem_store_spec e3 (MkRefStore [e1; e2] None)).
  by repeat constructor.
Defined.

(** ** Support code *)

Lemma varint_fast_paths_witness :
  EncodeVarint32 300 = [172; 2] /\ exists y, GetVarint64Ptr [255; 255; 255; 255; 127; 8] = Some (y, [8]) /\ 4294967295 = y `mod` 2 ^ 32.
Proof.
  destruct (varint_fast_paths 300 [255; 255; 255; 255; 127; 8]) as (H1 & _ & H3).
  - by split.
  - repeat constructor; by vm_compute.
  - split; [exact H1|]. apply H3. vm_compute. reflexivity.
Defined.

Lemma random_string_witness :
  RandomString (HOST := ref_host) [9; 9; 9; 9; 9] 5 (new_Random 1)
  = Some ([37; 244; 193; 106; 235], advance_rng 2 (new_Random 1)).
Proof. exact (random_string_fills ref_host [9; 9; 9; 9; 9] (new_Random 1) eq_refl). Defined.

Lemma random_well_formed_witness : exists r, Uniform 10 (new_Random 7) = Some (r, snd (Next (new_Random 7))) /\ 0 <= r < 10.
Proof.
  destruct (random_stays_well_formed 1 (new_Random 7) 10) as (_ & _ & _ & _ & H); [apply mt_seed_wf|lia|exact H].
Defined.

(** The number that the C++ standard requires of its generator: the ten-thousandth one of the default
    seed. *)
Example mt19937_conforms :
  fst (Next (Nat.iter (Z.to_nat 9999) (fun rng => snd (Next rng)) (new_Random 5489))) = 4123659995.
Proof. vm_compute. reflexivity. Qed.

(** The GNU version with every message in a table elsewhere. *)
Definition ref_strerror : Strerror := {|
  glibc_version := true;
  posix_strerror_r := fun _ buf => (0, <[0%nat := 0]> buf);
  gnu_strerror_r := fun _ _ => inr [78; 111];
|}.

Lemma ref_strerror_spec : StrerrorSpec ref_strerror.
Proof.
  split; try done.
  - intros err buf. apply length_insert.
  - intros err [|b buf] Hb; [done|]. by exists [].
  - intros err buf s [= <-]. by repeat constructor.
Qed.

Lemma errno_string_witness :
  exists buf s, ErrnoToCString (SR := ref_strerror) 2 [7; 7] = Some buf /\ length buf = 2%nat /\
    ErrnoToString (SR := ref_strerror) 2 [7; 7] = Some s /\ s = [78].
Proof. exact (errno_string ref_strerror ref_strerror_spec 2 [7; 7] ltac:(done)). Defined.

(** ** Test support *)

Definition mock_calls : list file_call := [CallAppend [3; 4; 5]; CallFlush FLUSH_SYNC; CallPreAllocate 9; CallSync; CallAppend [6]].


(** The example takes the second way out. *)
Example mock_agrees_run :
  option_map (fun x => (fst x, Data (snd x)))
    match do_calls mock_file mock_calls (MkMockWritableFile [1; 2] "") with (Ok sts, f) => Some (sts, f) | _ => None end
  = Some ([None; None; Some NotSupported; None; None], [1; 2; 3; 4; 5; 6]) /\
  fst (do_calls posix_file mock_calls (ex_os [SysShort 1; SysErr EINTR], ex_file)) = Ok [None; None; Some NotSupported; None; None].
Proof. vm_compute. done. Qed.

Lemma write_test_file_witness :
  exists d rng', RandomString_string 5 (new_Random 1) = Some (d, rng') /\ len d = 5 /\
  exists r o', WriteTestFile "g" 5 (new_Random 1) (ex_os [SysShort 1]) = (r, o') /\
    match r with
    | Ok x => x = (d, rng') /\ os_files o' = <["g" := d]> (os_files (ex_os [SysShort 1])) /\
        (os_script o' = [] -> fst (ReadFullyToBuffer "g" o') = Ok d)
    | Err e => e = IOError /\ os_script (ex_os [SysShort 1]) <> []
    | Halt _ => False
    end.
Proof. exact (write_test_file ref_host ref_status_bool "g" 5 (new_Random 1) (ex_os [SysShort 1]) eq_refl eq_refl ltac:(lia)). Defined.

Lemma test_dir_is_removed_witness :
  exists o1 o2, CreateDirIfMissing "d" (ex_os []) = (Ok tt, o1) /\
    WriteTestFile "d/f" 3 (new_Random 1) o1 = (fst (with_test_dir "d" (WriteTestFile "d/f" 3 (new_Random 1)) (ex_os [])), o2) /\
    forall p, if below "d" p then os_files (snd (with_test_dir "d" (WriteTestFile "d/f" 3 (new_Random 1)) (ex_os []))) !! p = None /\
                                 p ∉ os_dirs (snd (with_test_dir "d" (WriteTestFile "d/f" 3 (new_Random 1)) (ex_os [])))
              else os_files (snd (with_test_dir "d" (WriteTestFile "d/f" 3 (new_Random 1)) (ex_os []))) !! p = os_files o2 !! p /\
                   (p ∈ os_dirs (snd (with_test_dir "d" (WriteTestFile "d/f" 3 (new_Random 1)) (ex_os []))) <-> p ∈ os_dirs o2).
Proof.
  apply (test_dir_is_removed "d" (WriteTestFile "d/f" 3 (new_Random 1)) (ex_os [])).
  - by destruct (with_test_dir "d" (WriteTestFile "d/f" 3 (new_Random 1)) (ex_os [])).
  - intros h Hh. assert (match fst (with_test_dir "d" (WriteTestFile "d/f" 3 (new_Random 1)) (ex_os [])) with Halt _ => false | _ => true end = true) as H
      by (vm_compute; reflexivity). by rewrite Hh in H.
Defined.
