(* ===== verification/KvWitnesses.v ===== *)
(** * Witnesses of the theorems on the key-value store and its database

    Each theorem with hypotheses, applied to concrete data on the instances of [Reference.v]. *)

From S2P Require Import Prelude External Coding Status MemKv Db Reference.

(** The store after [Write "/a/b" "x"]. *)
Definition path_ab : bytes := [47; 97; 47; 98].
Definition kv_ab : MemKvStore := snd (MemKv.Write path_ab [120] new_MemKvStore).

Lemma kv_ab_wf : kv_wf kv_ab.
Proof.
  destruct (Write_ok ref_kv_lib path_ab [120] [[]; [97]; [98]] new_MemKvStore new_store_wf eq_refl)
    as (kv' & Hrun & Hwf & _).
  unfold kv_ab. by rewrite Hrun.
Qed.

Lemma memkv_write_witness :
  exists kv', MemKv.Write [47; 97; 47; 99] [121] kv_ab = (Ok tt, kv') /\ kv_wf kv' /\
    forall q, lookup_path kv' q = spec_write [[97]; [99]] [121] (lookup_path kv_ab) q.
Proof. exact (memkv_write ref_kv_lib [47; 97; 47; 99] [121] kv_ab kv_ab_wf). Defined.

Lemma memkv_get_witness : MemKv.Get [47; 97; 47; 47; 98; 47] kv_ab = (Ok [120], kv_ab).
Proof. exact (memkv_get ref_kv_lib [47; 97; 47; 47; 98; 47] kv_ab kv_ab_wf). Defined.

Lemma memkv_delete_witness :
  exists kv', MemKv.Delete path_ab kv_ab = (Ok tt, kv') /\ kv_wf kv' /\
    forall q, lookup_path kv' q
      = if bool_decide (last [[]; [97]; [98]] = Some [] \/ segments [[]; [97]; [98]] = [])
        then lookup_path kv_ab q
        else spec_delete [[97]; [98]] (lookup_path kv_ab) q.
Proof. exact (memkv_delete ref_kv_lib path_ab kv_ab kv_ab_wf). Defined.

Lemma memkv_delete_leaks_witness :
  exists kv', MemKv.Delete path_ab kv_ab = (Ok tt, kv') /\ is_Some (heap kv' !! 2) /\
    forall q, walk (heap kv') root_ q <> Some 2.
Proof.
  apply (memkv_delete_leaks ref_kv_lib path_ab kv_ab [[]; [97]; [98]] 2 kv_ab_wf); by vm_compute.
Defined.

Lemma memkv_spellings_witness :
  exists kv', MemKv.Write path_ab [121] kv_ab = (Ok tt, kv') /\
    MemKv.Get [32; 97; 47; 47; 98; 47; 32] kv' = (Ok [121], kv').
Proof.
  apply (memkv_spellings ref_kv_lib [[]; [97]; [98]] [[97]; []; [98]; []] path_ab
           [32; 97; 47; 47; 98; 47; 32] [121] kv_ab kv_ab_wf); [| |done].
  - split_and!; [done|done|by apply (bool_decide_unpack _)|by apply (bool_decide_unpack _)].
  - split_and!; [done|done|by apply (bool_decide_unpack _)|by apply (bool_decide_unpack _)].
Defined.

Lemma memkv_destroy_witness :
  exists kv', delete_MemKvStore kv_ab = (Ok tt, kv') /\
    forall n, ((exists p, walk (heap kv_ab) root_ p = Some n) -> heap kv' !! n = None) /\
      (~ (exists p, walk (heap kv_ab) root_ p = Some n) -> heap kv' !! n = heap kv_ab !! n).
Proof. exact (memkv_destroy kv_ab kv_ab_wf). Defined.

(** ** The database on a log that accepts what is not too long *)

Instance list_rlog : ReplicatedLogLib := {|
  rlog := list bytes;
  rlog_Write := fun log l => if len log <? 20 then (Ok tt, l ++ [log]) else (Err WalWriteToNonLeader, l);
  rlog_LeaderHint := gets (fun _ => 1);
  rlog_Id := fun _ => 2;
|}.

Lemma log_encode_witness :
  kWrite = kWrite /\ path_ab = path_ab /\ (kWrite = kWrite -> [120] = [120]).
Proof.
  apply (log_encode_injective ref_slice ref_slice_spec kWrite path_ab [120] kWrite path_ab [120]); by vm_compute.
Defined.

Lemma db_write_witness :
  exists kv', DB_Write path_ab [121] (MkDB kv_ab []) = (Ok tt, MkDB kv' [LogEncode kWrite path_ab [121]]) /\
    kv_wf kv' /\ forall q, lookup_path kv' q = spec_write [[97]; [98]] [121] (lookup_path kv_ab) q.
Proof. exact (db_write ref_kv_lib list_rlog path_ab [121] kv_ab [] kv_ab_wf). Defined.

Lemma db_get_witness : DB_Get path_ab true (MkDB kv_ab []) = (Ok [120], MkDB kv_ab []).
Proof. exact (db_get ref_kv_lib list_rlog path_ab true kv_ab [] 1 [] kv_ab_wf eq_refl). Defined.

(** Three requests, of which the log refuses the second. *)
Definition sample_requests : list db_request :=
  [ReqWrite path_ab [121]; ReqWrite path_ab (replicate 30 7); ReqDelete path_ab].

Lemma db_replays_witness :
  kv_wf (kv_ (snd (serve_all ref_kv_lib list_rlog sample_requests (MkDB kv_ab [])))) /\
  forall q, lookup_path (kv_ (snd (serve_all ref_kv_lib list_rlog sample_requests (MkDB kv_ab [])))) q
    = replay (fst (serve_all ref_kv_lib list_rlog sample_requests (MkDB kv_ab []))) (lookup_path kv_ab) q.
Proof.
  pose proof (db_replays_log ref_kv_lib list_rlog sample_requests kv_ab [] kv_ab_wf) as H.
  by destruct (serve_all ref_kv_lib list_rlog sample_requests _) as [logged db].
Defined.

Example db_replays_accepted :
  fst (serve_all ref_kv_lib list_rlog sample_requests (MkDB kv_ab [])) = [ReqWrite path_ab [121]; ReqDelete path_ab].
Proof. vm_compute. reflexivity. Qed.
