(* ===== verification/NodeWitnesses.v ===== *)
(** * Witnesses of the theorems on the threads of a member

    Each theorem with hypotheses, applied to concrete schedules on the instances of [Reference.v]. *)

From S2P Require Import Prelude External Coding Status Posix LogWriter LogManager MemKv Channel TaskQueue Observer Cluster Node NodeSpec Db System Pb Reference.

(** ** Queues, listeners, messages *)

Lemma worker_witness :
  StartLoop true (MkBackgroundWorker (Some AtTest) false) = (Err RuntimeError, MkBackgroundWorker (Some AtTest) false) /\
  joinable (MkBackgroundWorker (Some AtTest) false) = true.
Proof.
  split; [|done]. destruct (background_worker_calls (MkBackgroundWorker (Some AtTest) false) true) as (H & _ & _).
  exact (proj1 (H eq_refl)).
Defined.

Definition queue_start : TaskQueue string :=
  match new_TaskQueue with Ok tq => tq | _ => MkTaskQueue [] new_BackgroundWorker None Destroyed end.

Definition queue_schedule : list (queue_step string) :=
  [DoEnqueue 1 "a"; DoEnqueue 2 "b"; DoEnqueue 1 "c"; DoTest; DoTake 1; DoRun; DoTest; DoTimeout; DoTest; DoTake 1].

(** The second task has run, the third is being run and the first is still queued. *)
Lemma task_queue_runs_once_witness :
  [(1, "a"); (2, "b"); (1, "c")] ≡ₚ [(2, "b")] ++ [(1, "c"); (1, "a")].
Proof.
  exact (task_queue_runs_once queue_start queue_schedule
           (MkTaskQueue [(1, "a")] (MkBackgroundWorker (Some InTask) false) (Some (1, "c")) Alive) [(2, "b")]
           eq_refl eq_refl).
Defined.


Lemma observer_notify_witness :
  Notify 5 (MkWalCommitObserver [((5, 5), 2); ((6, 6), 3)] {[2 := Pending; 3 := Pending]})
  = (Ok tt, MkWalCommitObserver [] (told 5 [((5, 5), 2); ((6, 6), 3)] {[2 := Pending; 3 := Pending]})).
Proof.
  refine (proj1 (observer_notify ref_erased_iterator 5
    (MkWalCommitObserver [((5, 5), 2); ((6, 6), 3)] {[2 := Pending; 3 := Pending]}) _ _)); [|done].
  split; [by apply (bool_decide_unpack _); vm_compute|].
  intros r ch Hin. cbn in Hin. rewrite !elem_of_cons in Hin.
  destruct Hin as [[= -> ->]|[[= -> ->]|Hin]]; [done|done|by apply elem_of_nil in Hin].
Defined.

Lemma pass_delivers_witness :
  exists net', Pass (Cluster_Default [(1, "x:1"); (2, "x:2")]) [MkRefMessage 2 7; MkRefMessage 3 7] new_Network
      = (Halt FatalLog, net') /\ outbox ref_msg net' = [("x:2", MkRefMessage 2 7)].
Proof.
  refine (pass_delivers ref_msg [(1, "x:1"); (2, "x:2")] [MkRefMessage 2 7; MkRefMessage 3 7] new_Network _).
  by repeat constructor.
Defined.

Lemma rpc_leak_witness :
  exists net, net_run ref_msg [Send ref_msg (new_AsyncRaftClient "x:1") (MkRefMessage 2 7); Complete ref_msg 0 true] new_Network
      = (Ok tt, net) /\
    (forall id, id ∈ controllers net <-> 0 <= id < next_request net /\
       ~ completed ref_msg id [Send ref_msg (new_AsyncRaftClient "x:1") (MkRefMessage 2 7); Complete ref_msg 0 true]) /\
    (forall id, id ∈ responses net <-> 0 <= id < next_request net /\
       ~ succeeded ref_msg id [Send ref_msg (new_AsyncRaftClient "x:1") (MkRefMessage 2 7); Complete ref_msg 0 true]).
Proof. refine (rpc_failed_responses_leak ref_msg _ _). split; [lia|done]. Defined.

(** ** Schedules of a member *)

Definition node_options : ReplicatedLogOptions (WAL := ref_wal) :=
  MkReplicatedLogOptions (WAL := ref_wal) [(1, "x:1"); (2, "x:2")] 1 100 1000 None None None (Some []) None.

Definition node_0 : Node (WAL := ref_wal) :=
  match New 7 node_options with
  | Ok n => n
  | _ => MkNode (WAL := ref_wal) 7 new_RaftTimer (MkReadyFlusher [] new_BackgroundWorker) (MkRefNode 0 false 0 0 0 []) (MkRefStore [] None) [] [] new_Network new_WalCommitObserver
           (MkTaskQueue [] new_BackgroundWorker None Destroyed) None ∅ FlusherIdle 2 []
  end.

Definition run_from_start (cs : list choice) : Node (WAL := ref_wal) := snd (node_run cs node_0).

(** The worker runs the closure at the head of the queue; the flusher asks for a [Ready] and gets as far as the
    notification; the rest of a flush. *)
Definition serve_next : list choice := [WorkerTests; WorkerTakes 0; WorkerRuns].
Definition half_flush : list choice :=
  [FlusherTests; FlusherAsks] ++ serve_next ++ [FlusherReturns; FlusherFlushes; FlusherFlushes].
Definition rest_of_flush : list choice := [FlusherFlushes; FlusherFlushes; FlusherFlushes; FlusherEnds].

(** A write that is committed and returns. *)
Definition committed_schedule : list choice :=
  [ClientWrites [7]] ++ serve_next ++ [WorkerRuns] ++ half_flush ++ rest_of_flush ++
  [RpcStep (MkRefMessage 1 1)] ++ serve_next ++ [CallReturns 3] ++ half_flush ++ rest_of_flush ++ [CallReturns 2].

(** Two writes, and the commit of the first one just before it is announced. *)
Definition lost_schedule : list choice :=
  [ClientWrites [7]; ClientWrites [8]] ++ serve_next ++ [WorkerRuns] ++ serve_next ++ [WorkerRuns] ++ half_flush ++ rest_of_flush ++
  [RpcStep (MkRefMessage 1 1)] ++ serve_next ++ half_flush.

(** The commit of the second one. *)
Definition later_schedule : list choice :=
  [FlusherFlushes; FlusherFlushes; FlusherEnds; CallReturns 2; RpcStep (MkRefMessage 1 2)] ++ serve_next ++ half_flush ++ rest_of_flush.

(** Facts of a run, read off the small parts of its state. *)
Lemma run_ok cs n : fst (node_run (WAL := ref_wal) cs n) = Ok tt -> node_run cs n = (Ok tt, snd (node_run cs n)).
Proof. destruct (node_run cs n) as [r n']. by intros [= ->]. Qed.

Definition write_returned (thread : Z) (ev : event) : bool :=
  match ev with
  | CallReturned t (WriteReturned OK) => t =? thread
  | _ => false
  end.

Lemma write_returned_in thread h :
  existsb (write_returned thread) h = true -> CallReturned thread (WriteReturned OK) ∈ h.
Proof.
  intros (ev & Hin & Hev)%existsb_exists. apply list_elem_of_In in Hin. destruct ev as [| | | | |t o]; try done.
  destruct o as [s|]; [|done]. destruct s; try done. by apply Z.eqb_eq in Hev as ->.
Qed.

Lemma node_0_new : New 7 node_options = Ok node_0.
Proof. reflexivity. Qed.

Lemma committed_run : node_run committed_schedule node_0 = (Ok tt, run_from_start committed_schedule).
Proof. apply run_ok. vm_compute. reflexivity. Qed.

Lemma write_ok_means_announced_witness : acked 2 (history (run_from_start committed_schedule)).
Proof.
  apply (write_ok_means_announced ref_yaraft ref_mem_store ref_msg ref_raft ref_wal ref_erased_iterator ref_toolchain
           7 node_options node_0 committed_schedule _ 2 eq_refl eq_refl node_0_new committed_run).
  apply write_returned_in. vm_compute. reflexivity.
Defined.

(** A message with a code the service does not know ends the process: the step that ends it is the
    worker's, on that message. *)
Lemma node_safe_witness :
  faulted ([RpcStep (MkRefMessage 1 0)] ++ serve_next) node_0 FatalLog.
Proof.
  refine (node_safe ref_yaraft ref_mem_store ref_msg ref_raft ref_wal ref_erased_iterator ref_toolchain
           7 node_options node_0 ([RpcStep (MkRefMessage 1 0)] ++ serve_next) FatalLog
           (run_from_start ([RpcStep (MkRefMessage 1 0)] ++ serve_next)) (fun _ _ => eq_refl) eq_refl node_0_new _).
  unfold run_from_start.
  assert (fst (node_run ([RpcStep (MkRefMessage 1 0)] ++ serve_next) node_0) = Halt FatalLog) as Hr by (vm_compute; reflexivity).
  destruct (node_run _ _) as [r n]. cbn in Hr. by rewrite Hr.
Defined.

(** A follower stores an entry and answers. *)
Definition follower_options : ReplicatedLogOptions (WAL := ref_wal) :=
  MkReplicatedLogOptions (WAL := ref_wal) [(1, "x:1"); (2, "x:2")] 2 100 1000 None None None (Some []) None.

Definition follower_0 : Node (WAL := ref_wal) :=
  match New 7 follower_options with Ok n => n | _ => node_0 end.

Definition follower_schedule : list choice :=
  [RpcStep (MkRefMessage 2 1)] ++ serve_next ++ half_flush ++ rest_of_flush.

Definition is_sent (ev : event) : bool := match ev with SentAsFollower _ => true | _ => false end.

Lemma is_sent_in h : existsb is_sent h = true -> exists rd, SentAsFollower rd ∈ h.
Proof.
  intros (ev & Hin & Hev)%existsb_exists. apply list_elem_of_In in Hin. destruct ev; try done. by eexists.
Qed.

Lemma follower_witness :
  exists rd, SentAsFollower rd ∈ history (snd (node_run follower_schedule follower_0)) /\
    before (WalAccepted rd) (SentAsFollower rd) (history (snd (node_run follower_schedule follower_0))).
Proof.
  destruct (is_sent_in (history (snd (node_run follower_schedule follower_0)))) as [rd Hrd]; [vm_compute; reflexivity|].
  exists rd. split; [exact Hrd|].
  refine (follower_writes_before_sending ref_yaraft ref_mem_store ref_msg ref_raft ref_wal ref_erased_iterator
            ref_toolchain 7 follower_options follower_0 follower_schedule _ rd eq_refl eq_refl eq_refl _ Hrd).
  apply run_ok. vm_compute. reflexivity.
Defined.

(** The second of two writers waits for ever. *)
Definition lost_node : Node (WAL := ref_wal) := run_from_start lost_schedule.

Definition lost_ready : Ready :=
  match flusher lost_node with
  | Flushing _ rd => rd
  | _ => MkReady ref_yaraft ref_msg 0 [] None [] tt
  end.

Definition at_notify (pc : flusher_pc (Y := ref_yaraft) (MSG := ref_msg)) : bool :=
  match pc with Flushing NotifyCommit _ => true | _ => false end.

Lemma lost_flusher : flusher lost_node = Flushing NotifyCommit lost_ready.
Proof.
  unfold lost_ready. assert (at_notify (flusher lost_node) = true) as H by (vm_compute; reflexivity).
  destruct (flusher lost_node) as [| |[] rd]; done.
Qed.

Lemma strands_witness :
  node_step (CallReturns 3) (snd (node_run (FlusherFlushes :: later_schedule) lost_node))
  = (Err RuntimeError, snd (node_run (FlusherFlushes :: later_schedule) lost_node)).
Proof.
  refine (notification_strands_writers ref_yaraft ref_mem_store ref_msg ref_raft ref_wal ref_erased_iterator
            ref_toolchain 7 node_options node_0 lost_schedule lost_node lost_ready 1 2 3 later_schedule _
            eq_refl eq_refl node_0_new _ lost_flusher _ _ _ _).
  - apply run_ok. vm_compute. reflexivity.
  - vm_compute. reflexivity.
  - assert (writes_ (walCommitObserver_ lost_node) = [((1, 1), 2); ((2, 2), 3)]) as -> by (vm_compute; reflexivity).
    right. by left.
  - lia.
  - apply run_ok. vm_compute. reflexivity.
Defined.

(** One flush of the leader. *)
Definition sample_ready : Ready :=
  MkReady ref_yaraft ref_msg 1 [MkRefMessage 2 1] None [mk_entry 1 1 [7]] tt.

Lemma flush_ready_witness :
  exists n', wal_ n' = [([mk_entry 1 1 [7]], None)] /\ node_ n' = node_ node_0 /\ frames n' = frames node_0 /\
    flushReady sample_ready node_0 = (Ok tt, n') /\
    network n' = snd (Pass (cluster_ node_0) [MkRefMessage 2 1] new_Network) /\
    walCommitObserver_ n' = walCommitObserver_ node_0 /\
    memstore_ n' = rd_Advance (clear_messages sample_ready) (memstore_ node_0).
Proof.
  exact (flush_ready ref_yaraft ref_mem_store ref_msg ref_raft ref_wal ref_erased_iterator sample_ready node_0
           (snd (Pass (cluster_ node_0) [MkRefMessage 2 1] new_Network)) (walCommitObserver_ node_0) eq_refl eq_refl).
Defined.

(** The closures of a write and of a [Step], about to run. *)
Lemma reached_inv cs : fst (node_run cs node_0) = Ok tt -> node_inv (fun _ => False) (run_from_start cs).
Proof.
  intros Hr%run_ok.
  exact (wp_run _ _ _ _ _ (New_run (fun _ => False) 7 node_options cs node_0 (fun _ _ => eq_refl) (fun _ f => f) eq_refl node_0_new) Hr).
Qed.

Definition before_write : list choice := [ClientWrites [7]; WorkerTests; WorkerTakes 0].
Definition before_step : list choice := [RpcStep (MkRefMessage 1 1); WorkerTests; WorkerTakes 0].

Lemma write_closure_witness :
  exists n', run_task (run_from_start before_write) = (Ok tt, n') /\ registering n' = Some 1.
Proof.
  destruct (write_closure ref_yaraft ref_mem_store ref_msg ref_raft ref_wal (fun _ => False) 2 2 [7]
    (run_from_start before_write)) as (n' & Hrun & _ & H).
  - apply reached_inv. vm_compute. reflexivity.
  - vm_compute. reflexivity.
  - vm_compute. reflexivity.
  - exists n'. split; [exact Hrun|]. exact (proj1 (proj2 (H eq_refl))).
Defined.

Lemma service_closures_witness :
  exists n', fsm n' = snd (rn_Step (MkRefMessage 1 1) (fsm (run_from_start before_step))) /\
    run_task (run_from_start before_step) = (Ok tt, n') /\
    frames n' !! 2 = Some (MkFrame (LocalsStep PbOK) (Satisfied tt)).
Proof.
  refine (service_closures ref_yaraft ref_mem_store ref_msg ref_raft ref_wal (fun _ => False) 2
    (TaskStep 2 (MkRefMessage 1 1)) (run_from_start before_step) _ _ eq_refl).
  - apply reached_inv. vm_compute. reflexivity.
  - vm_compute. reflexivity.
Defined.

(** ** The database on a member *)

(** The other threads while a write of the database waits. *)
Definition db_schedule : list choice :=
  serve_next ++ [WorkerRuns] ++ half_flush ++ rest_of_flush ++
  [RpcStep (MkRefMessage 1 1)] ++ serve_next ++ [CallReturns 3] ++ half_flush ++ rest_of_flush.

Definition db_0 : DB (R := node_rlog) := new_DB (R := node_rlog) (node_0, db_schedule).
Definition db_1 : DB (R := node_rlog) := snd (DB_Write [47; 97] [120] db_0).

Lemma db_write_is_announced_witness :
  acked 2 (history (fst (log_ db_1))) /\ node_inv (fun _ => False) (fst (log_ db_1)) /\ kv_wf (kv_ db_1) /\
  exists vec, validatePath [47; 97] = Ok vec /\ lookup_path (kv_ db_1) (segments vec) = Some [120].
Proof.
  refine (db_write_is_announced ref_yaraft ref_mem_store ref_msg ref_raft ref_wal ref_erased_iterator ref_toolchain
    ref_kv_lib (fun _ => False) [47; 97] [120] new_MemKvStore (kv_ db_1) node_0 (fst (log_ db_1)) db_schedule
    (snd (log_ db_1)) eq_refl _ new_store_wf _).
  - exact (reached_inv [] eq_refl).
  - assert (fst (DB_Write [47; 97] [120] db_0) = Ok tt) as Hr by (vm_compute; reflexivity).
    unfold db_1. change (MkDB (R := node_rlog) new_MemKvStore (node_0, db_schedule)) with db_0.
    destruct (DB_Write [47; 97] [120] db_0) as [r [kv [n sch]]]. cbn in *. by rewrite Hr.
Defined.

(** A database on an empty directory. *)
Definition boot_options : DBOptions := MkDBOptions 1 "d" [(1, "x:1"); (2, "x:2")].
Definition boot_os : os := MkOs ∅ ∅ {["d"]} ∅ 3 [].

Definition booted : option (DB (R := node_rlog (WAL := log_manager_wal)) * os) :=
  match Bootstrap 7 boot_options [] boot_os with
  | (Ok db, o) => Some (db, o)
  | _ => None
  end.

Lemma bootstrap_witness :
  exists db o', Bootstrap 7 boot_options [] boot_os = (Ok db, o') /\
    forall q, lookup_path (kv_ db) q = if decide (q = []) then Some [] else None.
Proof.
  assert (match booted with Some _ => true | None => false end = true) as Hb by (vm_compute; reflexivity).
  unfold booted in Hb. destruct (Bootstrap 7 boot_options [] boot_os) as [[db|e|h] o'] eqn:E; [|done|done].
  exists db, o'. split; [done|].
  destruct (bootstrap_starts_empty ref_host ref_crc32 ref_slice ref_yaraft ref_mem_store ref_status_bool ref_boost_fs
    ref_msg ref_raft ref_erased_iterator ref_toolchain 7 boot_options [] boot_os db o' E) as (m & ms & n & _ & _ & _ & _ & _ & H).
  exact H.
Defined.

(** The second server of three. *)
Definition server_up (r : result ErrorCode Server * os) : bool :=
  match r with (Ok _, _) => true | _ => false end.

Lemma server_witness :
  exists srv o', main 7 2 "d" 3 "" [] boot_os = (Ok srv, o') /\
    forall j dir' x, zmap_find x (db_initial_cluster (server_options j dir' 3)) = Some (server_address srv) <-> x = 2.
Proof.
  assert (server_up (main 7 2 "d" 3 "" [] boot_os) = true) as Hb by (vm_compute; reflexivity).
  destruct (main 7 2 "d" 3 "" [] boot_os) as [[srv|e|h] o'] eqn:E; [|done|done].
  exists srv, o'. split; [done|].
  exact (proj2 (server_is_reachable ref_host ref_crc32 ref_slice ref_yaraft ref_mem_store ref_status_bool ref_boost_fs
    ref_msg ref_raft ref_erased_iterator ref_toolchain 7 2 "d" 3 "" [] boot_os srv o' ltac:(lia) E)).
Defined.

(** ** Protocol buffers without unknown fields

    The hints answer yes when they can. *)

#[export] Instance ref_pb : PbRuntime := {|
  UnknownFieldSet := unit;
  unknown_empty := tt;
  unknown_is_empty := fun _ => true;
  unknown_MergeFrom := fun _ _ => tt;
  SerializeUnknownFields := fun _ => [];
  SerializeUnknownFieldsToArray := fun _ => [];
  ComputeUnknownFieldsSize := fun _ => 0;
  ReadTagWithCutoff := fun cutoff s =>
    match s with
    | t :: s => if (0 <? t) && (t <=? cutoff) then ((t, true), s) else ((0, false), s)
    | [] => ((0, false), [])
    end;
  ReadPrimitive_UINT64 := GetVarint64Ptr;
  ExpectTag := fun t s =>
    match s with
    | b :: s' => if b =? t then (true, s') else (false, s)
    | [] => (false, s)
    end;
  ExpectAtEnd := fun s => match s with [] => true | _ => false end;
  SkipField := fun _ _ _ => None;
  WriteUInt64 := fun n v => 8 * n :: EncodeVarint64 v;
  WriteUInt64ToArray := fun n v => 8 * n :: EncodeVarint64 v;
  UInt64Size := VarintLength;
|}.

#[export] Instance ref_pb_spec : PbSpec ref_pb.
Proof.
  split; try done.
  - intros t s Ht. cbn. destruct (Z.ltb_spec 0 t), (Z.leb_spec t 127); try lia. done.
  - intros v s Hv. by apply GetVarint64Ptr_encode.
  - intros t [|b s] s'; cbn; [done|]. by destruct (Z.eqb_spec b t) as [->|]; intros [= <-].
  - intros t [|b s] s'; cbn; [by intros [= <-]|]. by destruct (Z.eqb_spec b t); intros [= <-].
  - by intros [].
Qed.

(** ** The answer to a status request *)

Definition sample_status : Pb.StatusResponse := set_raftterm 300 (set_leader 1 Pb.new_StatusResponse).

Lemma status_response_witness :
  MergePartialFromCodedStream [8; 1; 24; 172; 2] Pb.new_StatusResponse = Some (true, sample_status) /\
  SerializeWithCachedSizesToArray sample_status = [8; 1; 24; 172; 2] /\ fst (Pb.ByteSize sample_status) = 5 /\
  forall m', CopyFrom sample_status m' = set_cached_size (cached_size m') sample_status.
Proof.
  refine (status_response_roundtrip ref_pb ref_pb_spec sample_status _).
  split; [by vm_compute|split; [by vm_compute|done]..|done].
Defined.
