(* ===== verification/RpcWitnesses.v ===== *)
(** * Protocol buffers that keep unknown fields, and a call on them

    The unknown fields are a list of varints; a message of [Reference.v] is its two numbers on the
    wire.  The theorems of [StepRpc.v] are applied to a call with its answer. *)

From S2P Require Import Prelude External Coding Status Channel TaskQueue Observer Cluster Node Pb StepRpc Reference NodeWitnesses.

Definition wire_field (f : Z * Z) : bytes := 8 * fst f :: EncodeVarint64 (snd f).

#[local] Instance wire_pb : PbRuntime := {|
  UnknownFieldSet := list (Z * Z);
  unknown_empty := [];
  unknown_is_empty := fun u => bool_decide (u = []);
  unknown_MergeFrom := fun from u => u ++ from;
  SerializeUnknownFields := fun u => u ≫= wire_field;
  SerializeUnknownFieldsToArray := fun u => u ≫= wire_field;
  ComputeUnknownFieldsSize := fun u => len (u ≫= wire_field);
  ReadTagWithCutoff := ReadTagWithCutoff (PbRuntime := ref_pb);
  ReadPrimitive_UINT64 := GetVarint64Ptr;
  ExpectTag := ExpectTag (PbRuntime := ref_pb);
  ExpectAtEnd := ExpectAtEnd (PbRuntime := ref_pb);
  SkipField := fun tag u s =>
    if GetTagWireType tag =? 0 then '(v, s) ← GetVarint64Ptr s; Some (u ++ [(GetTagFieldNumber tag, v)], s) else None;
  WriteUInt64 := fun n v => 8 * n :: EncodeVarint64 v;
  WriteUInt64ToArray := fun n v => 8 * n :: EncodeVarint64 v;
  UInt64Size := VarintLength;
|}.

Lemma wire_pb_spec : PbSpec wire_pb.
Proof.
  split; try done.
  - exact (ReadTag_spec (PbSpec := ref_pb_spec)).
  - intros v s Hv. by apply GetVarint64Ptr_encode.
  - exact (ExpectTag_yes (PbSpec := ref_pb_spec)).
  - exact (ExpectTag_no (PbSpec := ref_pb_spec)).
  - exact (ExpectAtEnd_yes (PbSpec := ref_pb_spec)).
Qed.

(** The low 32 bits of a varint as an [int]. *)
Definition low_int (v : Z) : Z := let w := u32 v in if w <? 2 ^ 31 then w else w - 2 ^ 32.

Lemma low_int_u64 v : is_s32 v -> low_int (u64 v) = v.
Proof.
  unfold is_s32, low_int, u32, u64. intros Hv. destruct (decide (0 <= v)) as [Hp|Hn].
  - rewrite (Z.mod_small v), Z.mod_small by lia. destruct (Z.ltb_spec v (2 ^ 31)); lia.
  - replace (v mod 2 ^ 64) with (v + 2 ^ 64) by (rewrite <- (Z.mod_add v 1) by lia; rewrite Z.mod_small; lia).
    replace ((v + 2 ^ 64) mod 2 ^ 32) with (v + 2 ^ 32).
    + destruct (Z.ltb_spec (v + 2 ^ 32) (2 ^ 31)); lia.
    + replace (v + 2 ^ 64) with (v + 2 ^ 32 + (2 ^ 32 - 1) * 2 ^ 32) by lia. rewrite Z.mod_add by lia. rewrite Z.mod_small; lia.
Qed.

Definition ref_message_bytes (m : ref_message) : bytes := [rm_to m; rm_index m].
Definition write_ref_message (n : Z) (m : ref_message) : bytes := 8 * n + 2 :: EncodeVarint64 2 ++ ref_message_bytes m.

Definition wire_step : PbStepRuntime wire_pb ref_msg := {|
  new_Message := MkRefMessage 0 0 : Message;
  message_Clear := fun _ => MkRefMessage 0 0;
  message_MergeFrom := fun from _ => from;
  message_bytes := ref_message_bytes;
  ReadMessageNoVirtual := fun s m =>
    match GetVarint64Ptr s with
    | Some (2, t :: i :: s) => ((true, MkRefMessage t i), s)
    | _ => ((false, m), s)
    end;
  WriteMessageMaybeToArray := write_ref_message;
  WriteMessageNoVirtualToArray := write_ref_message;
  MessageSizeNoVirtual := fun m => VarintLength 2 + 2;
  ReadPrimitive_ENUM := fun s => '(v, s) ← GetVarint64Ptr s; Some (low_int v, s);
  WriteEnum := fun n v => 8 * n :: EncodeVarint64 (u64 v);
  WriteEnumToArray := fun n v => 8 * n :: EncodeVarint64 (u64 v);
  EnumSize := fun v => VarintLength (u64 v);
  AddVarint := fun n v u => u ++ [(n, v)];
|}.

Lemma wire_step_spec : PbStepSpec wire_step.
Proof.
  split; try done.
  - intros [t i] s _. cbn [ReadMessageNoVirtual wire_step]. by rewrite GetVarint64Ptr_encode.
  - intros v s Hv. cbn [ReadPrimitive_ENUM wire_step]. rewrite GetVarint64Ptr_encode by apply is_u64_u64. cbn. by rewrite low_int_u64.
  - intros n v u. cbn. apply bool_decide_eq_false. by destruct u.
  - intros n v Hn Hv. cbn. by rewrite app_nil_r.
Qed.

(** A message of member 1 for member 2, on the wire and in the queue of member 2. *)
Lemma step_call_arrives_witness :
  let request := set_allocated_message (Some (MkRefMessage 2 7 : Message)) new_StepRequest in
  StepRequest_Serialize (S := wire_step) request = [10; 2; 2; 7] /\
  exists r, read_request (S := wire_step) 0 (StepRequest_Serialize (S := wire_step) request) = Some r /\
    CallMethod (S := wire_step) 0 r follower_0 = node_step (RpcStep (MkRefMessage 2 7)) follower_0.
Proof.
  intros request. split; [vm_compute; reflexivity|].
  destruct (step_call_arrives wire_pb wire_pb_spec ref_msg wire_step wire_step_spec ref_yaraft ref_mem_store ref_raft ref_wal
    ref_erased_iterator ref_toolchain (MkRefMessage 2 7) follower_0) as (_ & _ & _ & H & _); [done|exact H].
Defined.

(** The answer of a member that does not know the sender, and the code 5 of a later version, which
    is kept. *)
Lemma step_response_roundtrip_witness :
  (exists r, set_code 2 new_StepResponse = Some r /\
     StepResponse_MergePartial (S := wire_step) (StepResponse_Serialize (S := wire_step) r) new_StepResponse = Some (true, r)) /\
  exists r, StepResponse_MergePartial (S := wire_step) [8; 5] new_StepResponse = Some (true, r) /\
    StepResponse_IsInitialized r = false /\ StepResponse_Serialize (S := wire_step) r = [8; 5].
Proof.
  destruct (step_response_roundtrip wire_pb wire_pb_spec ref_msg wire_step wire_step_spec) as [Hcode Hlater]. split.
  - destruct (Hcode PbStepPeerNotFound) as (r & Hr & _ & Hm & _). by exists r.
  - exact (Hlater 5 ltac:(done) eq_refl).
Defined.
