(* ===== verification/ProcessWitnesses.v ===== *)
(** * Witnesses of the theorems on progress and on recovery *)

From S2P Require Import Prelude External Coding Status Posix LogWriter LogManager LogSpec Channel TaskQueue Observer Cluster Node NodeSpec Progress System Reference Durability Process Witnesses NodeWitnesses.

(** ** Progress *)

(** The state machine of [Reference.v] with a code the service knows for a bad message. *)
Definition calm_raft : RaftLib ref_mem_store ref_msg := {|
  RawNode := ref_node;
  new_RawNode := new_RawNode (RaftLib := ref_raft);
  rn_Id := rn_id;
  rn_IsLeader := rn_leads;
  rn_LeaderHint := fun n => 1;
  rn_CurrentTerm := fun n => 1;
  rn_LastIndex := rn_LastIndex (RaftLib := ref_raft);
  rn_Tick := fun s => s;
  rn_Step := fun m s => match rn_Step (RaftLib := ref_raft) m s with
                        | (None, s') => (None, s')
                        | (Some _, s') => (Some StepLocalMsg, s')
                        end;
  rn_Propose := rn_Propose (RaftLib := ref_raft);
  rn_GetReady := rn_GetReady (RaftLib := ref_raft);
  rd_Advance := rd_Advance (RaftLib := ref_raft);
|}.

Lemma calm_codes : known_codes (RAFT := calm_raft).
Proof.
  intros msg s code. cbn [rn_Step calm_raft]. by destruct (rn_Step (RaftLib := ref_raft) msg s) as [[]].
Qed.

Abbreviation CalmNode := (@Node ref_yaraft ref_mem_store ref_msg calm_raft ref_wal).

Definition calm_0 : result ErrorCode CalmNode := New (RAFT := calm_raft) 7 node_options.

(** A status request, a write and a tick; the worker has taken the request, which came last. *)
Definition queued_schedule : list (choice (MSG := ref_msg)) := [ClientWrites [7]; TimerTests; TimerFires; RpcStatus; WorkerTests; WorkerTakes 2].

(** The worker goes on until the queue is empty, while the thread of the status request leaves. *)
Definition drained_schedule : list (choice (MSG := ref_msg)) :=
  [WorkerRuns; WorkerTests; WorkerTimesOut; WorkerTests; WorkerTakes 1; CallReturns 3; WorkerRuns; TimerReturns] ++ serve_next ++ [WorkerRuns; RpcStatus] ++ serve_next.

Definition drained (n n' : CalmNode) : bool :=
  match frames n !! 3 with Some (MkFrame _ Pending) => true | _ => false end && (work n =? 8)%nat && (work n' =? 0)%nat &&
  bool_decide (is_Some (frames n' !! 4)).


(** The first of two writers gets its answer. *)
Lemma commit_answers_writer_witness :
  exists n1 n2, node_step FlusherFlushes lost_node = (Ok tt, n1) /\ node_step (CallReturns 2) n1 = (Ok tt, n2) /\
    last (history n2) = Some (CallReturned 2 (WriteReturned OK)).
Proof.
  refine (commit_answers_writer ref_yaraft ref_mem_store ref_msg ref_raft ref_wal ref_erased_iterator ref_toolchain
    7 node_options node_0 lost_schedule lost_node lost_ready 1 1 2 eq_refl eq_refl node_0_new _ lost_flusher _ _ _).
  - apply run_ok. vm_compute. reflexivity.
  - vm_compute. reflexivity.
  - assert (writes_ (walCommitObserver_ lost_node) = [((1, 1), 2); ((2, 2), 3)]) as -> by (vm_compute; reflexivity). by left.
  - lia.
Defined.

(** ** Recovery *)

Lemma wal_follows_history_witness :
  wal_writes (wal_accepted (history (run_from_start committed_schedule))) [] = (Ok tt, wal_ (run_from_start committed_schedule)).
Proof.
  exact (wal_follows_history ref_yaraft ref_mem_store ref_msg ref_raft ref_wal ref_erased_iterator ref_toolchain
    7 node_options node_0 [] committed_schedule _ node_0_new eq_refl committed_run).
Defined.

(** The same member on files. *)
Definition file_manager : LogManager := new_LogManager (ex_options 6000).

Definition file_options : ReplicatedLogOptions (WAL := log_manager_wal) :=
  MkReplicatedLogOptions (WAL := log_manager_wal) [(1, "x:1"); (2, "x:2")] 1 100 1000 None None None
    (Some (os0 [], file_manager)) None.

(** What the theorem needs to know of the history. *)
Definition readys_ok (rds : list Ready) : bool :=
  forallb (fun rd => (bool_decide (entries rd = []) || bool_decide (hardState rd = None)) &&
                     bool_decide (8 + len (entries_bytes (entries rd)) < 2 ^ 32)) rds &&
  bool_decide (0 + readys_cost ref_yaraft ref_msg rds < 2 ^ 62).

Lemma readys_ok_plain rds :
  readys_ok rds = true ->
  Forall (plain_ready ref_yaraft ref_msg) rds /\ 0 + readys_cost ref_yaraft ref_msg rds < 2 ^ 62.
Proof.
  intros [Hrds Hcost%bool_decide_eq_true]%andb_prop. split; [|done].
  apply Forall_forall. intros rd Hin%list_elem_of_In. apply (proj1 (forallb_forall _ _) Hrds) in Hin.
  apply andb_prop in Hin as [[H1|H1]%orb_prop H2%bool_decide_eq_true]; apply bool_decide_eq_true in H1; split; auto.
Qed.

Lemma file_manager_rep {script} : log_rep (ex_options 6000) (os0 script) file_manager [] 0.
Proof. exists []. split_and!; try done; [split; [split; [by apply empty_log|by apply (bool_decide_unpack _)]|done]|constructor]. Qed.

Lemma file_manager_fresh : fresh_room file_manager.
Proof. vm_compute. reflexivity. Qed.

Definition run_is_ok (r : result ErrorCode (Node (WAL := log_manager_wal))) : bool :=
  match r with
  | Ok n0 => match node_run committed_schedule n0 with (Ok _, n) => readys_ok (wal_accepted (history n)) | _ => false end
  | _ => false
  end.

Lemma file_run :
  exists n0 n : Node (WAL := log_manager_wal), New 7 file_options = Ok n0 /\ node_run committed_schedule n0 = (Ok tt, n) /\
    readys_ok (wal_accepted (history n)) = true.
Proof.
  assert (run_is_ok (New 7 file_options) = true) as H by (vm_compute; reflexivity).
  destruct (New 7 file_options) as [n0|e|h]; [|done|done]. cbn [run_is_ok] in H. exists n0.
  destruct (node_run committed_schedule n0) as [[[]|e|h] n]; [|done|done]. by exists n.
Qed.

(** The flusher of that member, about to announce what the first [Ready] commits. *)
Definition announcing_schedule : list (choice (MSG := ref_msg)) := [ClientWrites [7]] ++ serve_next ++ [WorkerRuns] ++ half_flush.

Definition announcing (pc : flusher_pc (Y := ref_yaraft) (MSG := ref_msg)) : bool :=
  match pc with Flushing NotifyCommit rd => bool_decide (SerializeToArray <$> entries rd = [SerializeToArray (mk_entry 1 1 [7])]) | _ => false end.

Lemma announcing_at pc : announcing pc = true -> exists rd, pc = Flushing NotifyCommit rd /\ SerializeToArray <$> entries rd = [SerializeToArray (mk_entry 1 1 [7])].
Proof. destruct pc as [| |[] rd]; try done. intros H%bool_decide_eq_true. by exists rd. Qed.


(** The entry is on disk when its commit is announced, and before that when a flusher advances. *)
Lemma entries_on_disk_first_witness :
  exists (n : Node (WAL := log_manager_wal)) rd l1 l2,
    flusher n = Flushing NotifyCommit rd /\ SerializeToArray <$> entries rd = [SerializeToArray (mk_entry 1 1 [7])] /\
    log_on_disk (ex_options 6000) (fst (wal_ n)) (l1 ++ entries rd ++ l2) (0 + readys_cost ref_yaraft ref_msg (wal_accepted (history n))).
Proof.
  assert (match New 7 file_options with
          | Ok n0 => match node_run announcing_schedule n0 with
                     | (Ok _, n) => announcing (flusher n) && readys_ok (wal_accepted (history n))
                     | _ => false
                     end
          | _ => false
          end = true) as H by (vm_compute; reflexivity).
  destruct (New 7 file_options) as [n0|e|h] eqn:HN; [|done|done].
  destruct (node_run announcing_schedule n0) as [[[]|e|h] n] eqn:Hrun; [|done|done].
  apply andb_prop in H as [(rd & Hfl & He)%announcing_at Hok]. destruct (readys_ok_plain _ Hok) as [Hp Hc].
  destruct (entries_on_disk_first ref_host ref_crc32 ref_slice ref_yaraft ref_yaraft_spec ref_mem_store
    ref_status_bool ref_boost_fs ref_msg ref_raft ref_erased_iterator ref_toolchain
    7 file_options n0 (ex_options 6000) (os0 []) file_manager [] 0 announcing_schedule n eq_refl eq_refl HN eq_refl file_manager_rep
    file_manager_fresh Hrun Hp Hc) as [Hnext _].
  destruct (Hnext NotifyCommit rd Hfl ltac:(done) ltac:(done)) as (l1 & l2 & Hd).
  exists n, rd, l1, l2. split; [exact Hfl|]. split; [exact He|exact Hd].
Defined.

(** The call that creates the segment of the first write fails, and with it the process. *)
Definition failing_options : ReplicatedLogOptions (WAL := log_manager_wal) :=
  MkReplicatedLogOptions (WAL := log_manager_wal) [(1, "x:1"); (2, "x:2")] 1 100 1000 None None None
    (Some (os0 [SysErr 13], file_manager)) None.

Definition writing_schedule : list (choice (MSG := ref_msg)) :=
  [ClientWrites [7]] ++ serve_next ++ [WorkerRuns; FlusherTests; FlusherAsks] ++ serve_next ++ [FlusherReturns; FlusherFlushes].

Definition ends_writing (r : result ErrorCode (Node (WAL := log_manager_wal))) : bool :=
  match r with
  | Ok n0 =>
      match node_run writing_schedule n0 with
      | (Ok _, n) => readys_ok (wal_accepted (history n) ++ being_written n) &&
          match node_step FlusherFlushes n with (Halt FatalLog, _) => true | _ => false end
      | _ => false
      end
  | _ => false
  end.


(** The run of the example recovers the entry that was written. *)
Example member_recovers_run :
  match New 7 file_options with
  | Ok n0 =>
      match fst (reopen (wal_ (snd (node_run committed_schedule n0)))) with
      | Ok (Some ms) => SerializeToArray <$> ms_entries ms
      | _ => []
      end
  | _ => []
  end = [SerializeToArray (mk_entry 1 1 [7])].
Proof. vm_compute. reflexivity. Qed.
