(* ===== verification/Overwrite.v ===== *)
(** * A state machine that keeps the laws of Raft, and a write it loses

    The instance on which the theorems of [Commit.v] are evaluated: a leader that commits what its
    peer acknowledges, and that another leader may depose.  A message with a positive index is the
    acknowledgement of that index; one with a negative index is the append request of a new leader,
    which replaces the log from that index on by an entry of its own and commits it. *)

From S2P Require Import Prelude External Coding Status Posix LogWriter LogManager LogSpec Channel TaskQueue Observer Cluster Node NodeSpec System Reference Durability Process Pipeline Commit Witnesses NodeWitnesses ProcessWitnesses.

Record law_node := MkLawNode {
  ln_id : Z;
  ln_leads : bool;
  ln_term : Z;
  ln_last : Z;
  ln_commit : Z;
  ln_told : Z;
  ln_unsent : list ref_entry;
}.

(** The entries first, then the commit index. *)
Definition law_ready (n : law_node) : option Ready * law_node :=
  let leader := if ln_leads n then ln_id n else 0 in
  match ln_unsent n with
  | [] =>
      if ln_commit n =? ln_told n then (None, n)
      else (Some (MkReady ref_yaraft ref_msg leader [] (Some (mk_hard_state (ln_term n) 0 (Some (ln_commit n)))) [] tt),
            MkLawNode (ln_id n) (ln_leads n) (ln_term n) (ln_last n) (ln_commit n) (ln_commit n) [])
  | es =>
      (Some (MkReady ref_yaraft ref_msg leader [MkRefMessage 2 (ln_last n)] None es tt),
       MkLawNode (ln_id n) (ln_leads n) (ln_term n) (ln_last n) (ln_commit n) (ln_told n) [])
  end.

Definition law_propose (log : bytes) (n : law_node) : option yaraft_error * law_node :=
  let i := Z.max (ln_last n) (ln_commit n) + 1 in
  match mk_entry_opt i (ln_term n) log with
  | Some e => (None, MkLawNode (ln_id n) (ln_leads n) (ln_term n) i (ln_commit n) (ln_told n) (ln_unsent n ++ [e]))
  | None => (Some (OtherYaraftError 7), n)
  end.

Definition law_step (i : Z) (n : law_node) : option yaraft_error * law_node :=
  if i =? 0 then (Some StepLocalMsg, n)
  else if i <? 0 then
    (None, MkLawNode (ln_id n) false (ln_term n + 1) (- i) (Z.max (ln_commit n) (- i)) (ln_told n)
             (filter (fun e => re_index e < - i) (ln_unsent n) ++ [mk_entry (- i) (ln_term n + 1) []]))
  else if ln_leads n then
    (None, MkLawNode (ln_id n) true (ln_term n) (ln_last n) (Z.max (ln_commit n) (Z.min i (ln_last n))) (ln_told n) (ln_unsent n))
  else (None, n).

#[export] Instance law_raft : RaftLib ref_mem_store ref_msg := {|
  RawNode := law_node;
  new_RawNode := fun conf ms => (MkLawNode (conf_id conf) (conf_id conf =? 1) 1 0 0 0 [], ms);
  rn_Id := ln_id;
  rn_IsLeader := ln_leads;
  rn_LeaderHint := fun n => if ln_leads n then ln_id n else 2;
  rn_CurrentTerm := ln_term;
  rn_LastIndex := fun s => ln_last (fst s);
  rn_Tick := fun s => s;
  rn_Step := fun m s => let '(r, n) := law_step (rm_index m) (fst s) in (r, (n, snd s));
  rn_Propose := fun log s => let '(r, n) := law_propose log (fst s) in (r, (n, snd s));
  rn_GetReady := fun s => let '(rd, n) := law_ready (fst s) in (rd, (n, snd s));
  rd_Advance := fun rd ms => foldl ms_Append ms (entries rd);
|}.

#[export] Instance law_view : RaftView law_raft := {|
  entry_data := re_data;
  raft_unstable := ln_unsent;
  raft_last := ln_last;
  raft_committed := ln_commit;
|}.

Lemma law_appends (n n' : law_node) :
  ln_commit n <= ln_commit n' -> ln_last n' = ln_last n -> ln_unsent n' = ln_unsent n -> raft_appends n n'.
Proof. intros Hc Hl Hu. split; [done|]. split; [cbn; lia|]. exists []. cbn. by rewrite Hu, app_nil_r. Qed.

Lemma mk_entry_opt_fields i t d e : mk_entry_opt i t d = Some e -> re_index e = i /\ re_data e = d.
Proof. unfold mk_entry_opt. destruct (decide _); [|done]. by intros [= <-]. Qed.

Lemma law_ready_some n rd n' :
  law_ready n = (Some rd, n') ->
  entries rd = ln_unsent n /\ ln_unsent n' = [] /\ ln_last n' = ln_last n /\ ln_commit n' = ln_commit n /\
  forall c, (hs ← hardState rd; rh_commit hs) = Some c -> c = ln_commit n.
Proof.
  unfold law_ready. destruct (ln_unsent n) as [|e es]; [destruct (ln_commit n =? ln_told n); [done|]|];
    intros [= <- <-]; split_and!; try done.
  cbn. unfold mk_hard_state. destruct (decide _); cbn; congruence.
Qed.

#[export] Instance law_spec : RaftSpec law_raft law_view.
Proof.
  split.
  - intros s. by apply law_appends.
  - intros msg [n ms]. cbn. unfold law_step. destruct (rm_index msg =? 0), (rm_index msg <? 0), (ln_leads n); cbn; lia.
  - intros msg [n ms]. cbn. unfold law_step.
    destruct (rm_index msg =? 0), (rm_index msg <? 0), (ln_leads n); cbn; intros; try done; apply law_appends; cbn; done || lia.
  - intros log [n ms] e s' Hp. cbn in *. unfold law_propose in Hp. destruct (mk_entry_opt _ _ _); [done|].
    injection Hp as _ <-. by apply law_appends.
  - intros log [n ms] s' _ Hp. cbn in *. unfold law_propose in Hp. destruct (mk_entry_opt _ _ _) as [e|] eqn:He; [|done].
    injection Hp as <-. apply mk_entry_opt_fields in He as [Hi Hd]. exists e. cbn. split_and!; try done; lia.
  - intros [n ms] rd s' Hrd. cbn in *. destruct (law_ready n) as [rd' n'] eqn:Hr. injection Hrd as -> <-.
    destruct (law_ready_some n rd n' Hr) as (He & Hu & Hl & Hc & Hh). cbn. split_and!; try done; [lia..|].
    intros c Hcc. rewrite (Hh c Hcc). lia.
  - intros [n ms] s' Hrd. cbn in *. unfold law_ready in Hrd. destruct (ln_unsent n) eqn:Hu; [|done].
    destruct (ln_commit n =? ln_told n); [|done]. injection Hrd as <-. by apply law_appends.
Qed.

#[export] Instance ref_mem_store_append : MemStoreAppend ref_mem_store.
Proof. split; intros; cbn; apply elem_of_app; [right; by left|by left]. Qed.

(** ** Two runs on files *)

Abbreviation LawNode := (@Node ref_yaraft ref_mem_store ref_msg law_raft log_manager_wal).

Definition law_options : ReplicatedLogOptions (WAL := log_manager_wal) :=
  MkReplicatedLogOptions (WAL := log_manager_wal) [(1, "x:1"); (2, "x:2")] 1 100 1000 None None None
    (Some (os0 [], file_manager)) None.

Definition law_0 : result ErrorCode LawNode := New (RAFT := law_raft) 7 law_options.

Definition flush : list (choice (MSG := ref_msg)) := half_flush ++ rest_of_flush.
Definition rpc (thread i : Z) : list (choice (MSG := ref_msg)) :=
  [RpcStep (MkRefMessage 1 i : Message)] ++ serve_next ++ [CallReturns thread].

(** The write of [7]: proposed, written, acknowledged by the peer, committed and answered. *)
Definition kept_schedule : list (choice (MSG := ref_msg)) :=
  serve_next ++ [WorkerRuns] ++ flush ++ rpc 3 1 ++ flush ++ [CallReturns 2].

(** Another leader replaces the proposal before the flusher sees it. *)
Definition overwritten_schedule : list (choice (MSG := ref_msg)) :=
  serve_next ++ [WorkerRuns] ++ rpc 3 (-1) ++ flush ++ flush ++ [CallReturns 2].

Definition run_law (cs : list choice) : result ErrorCode (LawNode * LawNode) :=
  match law_0 with
  | Ok n0 => match node_run (ClientWrites [7] :: cs) n0 with (Ok _, n) => Ok (n0, n) | (Err e, _) => Err e | (Halt h, _) => Halt h end
  | Err e => Err e
  | Halt h => Halt h
  end.

Lemma run_law_ok cs n0 n : run_law cs = Ok (n0, n) -> law_0 = Ok n0 /\ node_run (ClientWrites [7] :: cs) n0 = (Ok tt, n).
Proof.
  unfold run_law. destruct law_0 as [n1|e|h]; [|done|done].
  destruct (node_run (ClientWrites [7] :: cs) n1) as [[[]|e|h] n'] eqn:Hr; [|done|done]. by intros [= <- <-].
Qed.

Definition law_facts (leading : bool) (cs : list choice) (r : result ErrorCode (LawNode * LawNode)) : bool :=
  match r with
  | Ok (n0, n) =>
      bool_decide (leads_throughout (rn_CurrentTerm (node_ n0)) (ClientWrites [7] :: cs) n0 = leading) &&
      bool_decide (next_thread n0 = 2) && existsb (write_returned 2) (history n) && readys_ok (wal_accepted (history n))
  | _ => false
  end.


Lemma member_refines_pipeline_witness :
  exists ls, pipe_run ls (MkPipe (node_ node_0) NoReady [] [] []) (abs (run_from_start committed_schedule)).
Proof.
  exact (member_refines_pipeline ref_yaraft ref_mem_store ref_msg ref_raft ref_wal ref_erased_iterator ref_toolchain
    7 node_options node_0 committed_schedule _ eq_refl eq_refl node_0_new committed_run).
Defined.

(** What a restart recovers of the run. *)
Definition recovered_data (r : result ErrorCode (LawNode * LawNode)) : option (list bytes) :=
  match r with
  | Ok (_, n) => match fst (reopen (wal_ n)) with Ok (Some ms) => Some (map entry_data (ms_entries ms)) | _ => None end
  | _ => None
  end.

Example kept_recovers : recovered_data (run_law kept_schedule) = Some [[7]].
Proof. vm_compute. reflexivity. Qed.

(** ** Theorem *)

(** C22: an OK does not tell whose entry was committed: on a state machine that keeps every law of
    Raft, a write whose entry was replaced by that of another leader is answered OK, since the
    observer compares indices only, although its data never reached the disk and no restart
    recovers it. *)
Theorem overwritten_write_is_acked :
  RaftSpec law_raft law_view /\
  exists (n0 n : LawNode) ms st,
    New 7 law_options = Ok n0 /\ node_run (ClientWrites [7] :: overwritten_schedule) n0 = (Ok tt, n) /\
    CallReturned 2 (WriteReturned OK) ∈ history n /\
    reopen (wal_ n) = (Ok (Some ms), st) /\ Forall (fun e => entry_data e <> [7]) (ms_entries ms) /\
    Forall (fun e => entry_data e <> [7]) (p_log (abs n)).
Proof.
  split; [apply law_spec|].
  assert (match run_law overwritten_schedule with
          | Ok (n0, n) => existsb (write_returned 2) (history n) &&
              match reopen (wal_ n) with
              | (Ok (Some ms), st) => bool_decide (Forall (fun e => re_data e <> [7]) (ms_entries ms))
              | _ => false
              end && bool_decide (Forall (fun e => re_data e <> [7]) (p_log (abs n)))
          | _ => false
          end = true) as H by (vm_compute; reflexivity).
  destruct (run_law overwritten_schedule) as [[n0 n]|e|h] eqn:Hr; [|done|done].
  apply run_law_ok in Hr as [HN Hrun]. apply andb_prop in H as [[Hret%write_returned_in H]%andb_prop Hlog%bool_decide_eq_true].
  destruct (reopen (wal_ n)) as [[[ms|]|e|h] st] eqn:Hre; try done. apply bool_decide_eq_true in H.
  exists n0, n, ms, st. by split_and!.
Qed.
