(* ===== verification/ClientWitnesses.v ===== *)
(** * The database on a concrete member: witnesses, and two clients that part from the log

    The state machine is that of [Overwrite.v], the log is on files. *)

From S2P Require Import Prelude External Coding Status Posix LogWriter LogManager LogSpec MemKv Channel TaskQueue Observer Cluster Node NodeSpec Db System Reference Durability Process Pipeline Commit Clients Witnesses NodeWitnesses ProcessWitnesses Overwrite.

Abbreviation LawClients := (@Clients ref_yaraft ref_mem_store ref_msg law_raft log_manager_wal).
Abbreviation client_steps := (list (client_choice (MSG := ref_msg))).

Definition path_a : bytes := [47; 97].
Definition write_a (v : Z) : client_choice (MSG := ref_msg) := Begins (ReqWrite path_a [v]).
Definition others (cs : list choice) : client_steps := Elsewhere <$> cs.

(** One write of the value 120, to its answer. *)
Definition one_write : client_steps :=
  others (serve_next ++ [WorkerRuns] ++ flush ++ rpc 3 1 ++ flush) ++ [LogReturns 2; Applies 2].

(** A write of 120 and one of 121 to the same path: they are proposed, written and committed in
    this order, and applied in the other. *)
Definition two_writes : client_steps :=
  [write_a 121] ++ others (serve_next ++ [WorkerRuns] ++ serve_next ++ [WorkerRuns] ++ flush ++ rpc 4 2 ++ flush) ++
  [LogReturns 2; LogReturns 3; Applies 3; Applies 2].

Definition run_clients (cs : client_steps) : result ErrorCode (LawNode * LawClients) :=
  match law_0 with
  | Ok n0 =>
      match client_run (write_a 120 :: cs) (new_Clients n0) with
      | (Ok _, s) => Ok (n0, s)
      | (Err e, _) => Err e
      | (Halt h, _) => Halt h
      end
  | Err e => Err e
  | Halt h => Halt h
  end.

Lemma run_clients_ok cs n0 s :
  run_clients cs = Ok (n0, s) -> law_0 = Ok n0 /\ client_run (write_a 120 :: cs) (new_Clients n0) = (Ok tt, s).
Proof.
  unfold run_clients. destruct law_0 as [n1|e|h]; [|done|done].
  destruct (client_run (write_a 120 :: cs) (new_Clients n1)) as [[[]|e|h] s'] eqn:Hr; [|done|done]. by intros [= <- <-].
Qed.

Definition answered_ok (thread v : Z) (s : LawClients) : bool :=
  match calls s !! thread with
  | Some (MkCall (ReqWrite path value) (CallAnswered (Ok None))) => bool_decide (path = path_a) && bool_decide (value = [v])
  | _ => false
  end.

Lemma answered_ok_call thread v s :
  answered_ok thread v s = true -> calls s !! thread = Some (MkCall (ReqWrite path_a [v]) (CallAnswered (Ok None))).
Proof.
  unfold answered_ok. destruct (calls s !! thread) as [[r stage]|]; [|done].
  destruct r as [path value| |], stage as [| |[[d|]|e|h]]; try done.
  by intros [->%bool_decide_eq_true ->%bool_decide_eq_true]%andb_prop.
Qed.

Lemma concurrent_store_is_replay_witness :
  exists s : LawClients, applied s = [3; 2] /\ kv_wf (store s) /\
    (forall q, lookup_path (store s) q = Db.replay [ReqWrite path_a [121]; ReqWrite path_a [120]] (lookup_path new_MemKvStore) q) /\
    NoDup (applied s) /\ (forall th, th ∈ applied s -> acked th (history (member s))) /\
    (forall th r d, calls s !! th = Some (MkCall r (CallAnswered (Ok d))) -> request_log r <> None -> th ∈ applied s).
Proof.
  assert (match run_clients two_writes with Ok (_, s) => answered_ok 2 120 s && answered_ok 3 121 s && bool_decide (applied s = [3; 2]) | _ => false end = true) as H
    by (vm_compute; reflexivity).
  destruct (run_clients two_writes) as [[n0 s]|e|h] eqn:Hr; [|done|done]. apply run_clients_ok in Hr as [HN Hrun].
  apply andb_prop in H as [[H2%answered_ok_call H3%answered_ok_call]%andb_prop H%bool_decide_eq_true].
  assert (applied_requests s = [ReqWrite path_a [121]; ReqWrite path_a [120]]) as Hreq.
  { unfold applied_requests. rewrite H. cbn. by rewrite H2, H3. }
  exists s. split; [exact H|]. rewrite <- Hreq.
  exact (concurrent_store_is_replay ref_kv_lib ref_yaraft ref_mem_store ref_msg law_raft log_manager_wal
    ref_erased_iterator ref_toolchain 7 law_options n0 _ s eq_refl eq_refl HN Hrun).
Defined.


(** C23: the store need not follow the log: two writes to one path, committed in one order and applied
    in the other, are both answered OK, and the store ends with the value of the one that comes
    first in the log.  A process that opens the directory afterwards recovers the two records in the
    order of the log, and what they make of an empty store in that order is the other value. *)
Theorem store_leaves_log_order :
  exists (n0 : LawNode) (s : LawClients) ms st,
    New 7 law_options = Ok n0 /\ client_run (write_a 120 :: two_writes) (new_Clients n0) = (Ok tt, s) /\
    calls s !! 2 = Some (MkCall (ReqWrite path_a [120]) (CallAnswered (Ok None))) /\
    calls s !! 3 = Some (MkCall (ReqWrite path_a [121]) (CallAnswered (Ok None))) /\
    lookup_path (store s) [[97]] = Some [120] /\
    reopen (wal_ (member s)) = (Ok (Some ms), st) /\
    map entry_data (ms_entries ms) = [LogEncode kWrite path_a [120]; LogEncode kWrite path_a [121]] /\
    Db.replay [ReqWrite path_a [120]; ReqWrite path_a [121]] (lookup_path new_MemKvStore) [[97]] = Some [121].
Proof.
  assert (match run_clients two_writes with
          | Ok (_, s) => answered_ok 2 120 s && answered_ok 3 121 s &&
              bool_decide (lookup_path (store s) [[97]] = Some [120]) &&
              match reopen (wal_ (member s)) with
              | (Ok (Some ms), st) =>
                  bool_decide (map re_data (ms_entries ms) = [LogEncode kWrite path_a [120]; LogEncode kWrite path_a [121]])
              | _ => false
              end
          | _ => false
          end = true) as H by (vm_compute; reflexivity).
  destruct (run_clients two_writes) as [[n0 s]|e|h] eqn:Hr; [|done|done]. apply run_clients_ok in Hr as [HN Hrun].
  apply andb_prop in H as [[[H2%answered_ok_call H3%answered_ok_call]%andb_prop Hs%bool_decide_eq_true]%andb_prop H].
  destruct (reopen (wal_ (member s))) as [[[ms|]|e|h] st] eqn:Hre; try done. apply bool_decide_eq_true in H.
  exists n0, s, ms, st. split_and!; done.
Qed.
