(* ===== verification/DeploymentWitnesses.v ===== *)
(** * A write of a cluster of two members, from the client and back

    The leader proposes the write and sends it; the follower writes it and acknowledges it; the
    leader commits it and answers.  Every message goes through the network of [Deployment.v]. *)

From S2P Require Import Prelude External Status Channel TaskQueue Observer Cluster Node NodeSpec Pb Reference Process Pipeline Clients Deployment NodeWitnesses.

(** The state machine of [Reference.v], whose follower answers the leader. *)
Definition to_leader (rd : Ready) : Ready :=
  if currentLeader rd =? 0
  then MkReady ref_yaraft ref_msg 0 ((fun m : ref_message => MkRefMessage 1 (rm_index m)) <$> (messages rd : list ref_message)) (hardState rd) (entries rd) tt
  else rd.

Definition mail_raft : RaftLib ref_mem_store ref_msg := {|
  RawNode := ref_node;
  new_RawNode := new_RawNode (RaftLib := ref_raft);
  rn_Id := rn_id;
  rn_IsLeader := rn_leads;
  rn_LeaderHint := fun n => 1;
  rn_CurrentTerm := fun n => 1;
  rn_LastIndex := rn_LastIndex (RaftLib := ref_raft);
  rn_Tick := fun s => s;
  rn_Step := rn_Step (RaftLib := ref_raft);
  rn_Propose := rn_Propose (RaftLib := ref_raft);
  rn_GetReady := fun s => let '(rd, s') := rn_GetReady (RaftLib := ref_raft) s in (to_leader <$> rd, s');
  rd_Advance := rd_Advance (RaftLib := ref_raft);
|}.

Abbreviation MailDeployment := (@Deployment ref_yaraft ref_mem_store ref_msg mail_raft ref_wal).

(** The first two processes of the cluster. *)
Definition pair_0 : result ErrorCode MailDeployment :=
  match New (RAFT := mail_raft) 7 node_options, New (RAFT := mail_raft) 8 follower_options with
  | Ok leader, Ok follower => Ok (MkDeployment {["x:1" := leader; "x:2" := follower]} [])
  | _, _ => Err BadConfig
  end.

Lemma pair_0_started d0 : pair_0 = Ok d0 -> started d0.
Proof.
  unfold pair_0. destruct (New 7 node_options) as [leader|e|h] eqn:Hl; [|done|done].
  destruct (New 8 follower_options) as [follower|e|h] eqn:Hf; [|done|done]. intros [= <-]. split; [done|].
  intros url n Hn. cbn [members] in Hn. apply lookup_insert_Some in Hn as [[<- <-]|[_ [<- <-]%lookup_singleton_Some]].
  - by exists 7, node_options.
  - by exists 8, follower_options.
Qed.

Definition member (url : string) (cs : list (choice (MSG := ref_msg))) : list (deploy_choice (MSG := ref_msg)) := Locally url <$> cs.
Definition one_flush : list (choice (MSG := ref_msg)) := half_flush ++ rest_of_flush.

(** The request of the leader arrives twice. *)
Definition replicated_schedule : list (deploy_choice (MSG := ref_msg)) :=
  member "x:1" ([ClientWrites [7]] ++ serve_next ++ [WorkerRuns] ++ one_flush) ++
  [Delivers "x:1" 0] ++ member "x:2" (serve_next ++ one_flush) ++ [Delivers "x:1" 0; CallsBack "x:1" 0 false] ++
  [Delivers "x:2" 0] ++ member "x:1" (serve_next ++ [CallReturns 3] ++ one_flush ++ [CallReturns 2]).

Definition acknowledged (d : MailDeployment) : bool :=
  match delivered d with
  | [_; _; (from, to, m)] => bool_decide (from = "x:2") && bool_decide (to = "x:1") && (rm_to m =? 1) && (rm_index m =? 1)
  | _ => false
  end &&
  match members d !! "x:1" with Some n => existsb (write_returned 2) (history n) | None => false end.

Lemma acknowledged_in d : acknowledged d = true -> ("x:2", "x:1", MkRefMessage 1 1 : Message) ∈ delivered d.
Proof.
  unfold acknowledged. destruct (delivered d) as [|a [|b [|[[from to] [t i]] [|]]]]; try done.
  intros [[[[->%bool_decide_eq_true ->%bool_decide_eq_true]%andb_prop Ht%Z.eqb_eq]%andb_prop Hi%Z.eqb_eq]%andb_prop _]%andb_prop.
  cbn in Ht, Hi. subst. right. right. by left.
Qed.

Lemma delivered_was_written_witness :
  exists (d0 d : MailDeployment), acknowledged d = true /\
  exists n0 n rd, members d0 !! "x:2" = Some n0 /\ members d !! "x:2" = Some n /\ (MkRefMessage 1 1 : Message) ∈ messages rd /\
    zmap_find 1 (cluster_ n) = Some (new_Peer "x:1") /\
    (SentAsLeader rd ∈ history n \/
     before (WalAccepted rd) (SentAsFollower rd) (history n) /\ rd ∈ wal_accepted (history n)) /\
    wal_writes (wal_accepted (history n)) (wal_ n0) = (Ok tt, wal_ n).
Proof.
  assert (match pair_0 with
          | Ok d0 => match deploy_run replicated_schedule d0 with (Ok _, d) => acknowledged d | _ => false end
          | _ => false
          end = true) as H by (vm_compute; reflexivity).
  destruct pair_0 as [d0|e|h] eqn:H0; [|done|done].
  destruct (deploy_run replicated_schedule d0) as [[[]|e|h] d] eqn:Hrun; [|done|done]. exists d0, d. split; [exact H|].
  exact (delivered_was_written ref_yaraft ref_mem_store ref_msg mail_raft ref_wal ref_erased_iterator ref_toolchain
    d0 replicated_schedule d "x:2" "x:1" (MkRefMessage 1 1) eq_refl (pair_0_started d0 H0) Hrun (acknowledged_in d H)).
Defined.
