(* ===== verification/LossWitnesses.v ===== *)
(** * Crashes and a power failure, on concrete members

    The acknowledged write of [Overwrite.v] and what a power failure leaves of it; a follower of
    [DeploymentWitnesses.v], on files, that dies between its acknowledgement and its delivery. *)

From S2P Require Import Prelude External Coding Status Posix LogWriter LogManager LogSpec Channel TaskQueue Observer Cluster Node NodeSpec System Reference Durability Process Pipeline Commit Clients Deployment Restarts Power Witnesses NodeWitnesses ProcessWitnesses Overwrite DeploymentWitnesses.

(** ** The power fails *)

(** The write returned OK, the log was synced and closed. *)
Lemma power_failure_takes_all_witness :
  exists (n : LawNode) r o1 m1, CallReturned 2 (WriteReturned OK) ∈ history n /\
    run_ops [OpSync; OpClose] (wal_ n) = (r, (o1, m1)) /\ os_durable o1 = ∅ /\
    match Default (ex_options 6000) None (power_failure o1) with
    | (Ok (_, ms), _) => ms = None
    | (Err e, _) => e = IOError /\ os_script o1 <> []
    | (Halt _, _) => False
    end.
Proof.
  assert (law_facts true kept_schedule (run_law kept_schedule) = true) as H by (vm_compute; reflexivity).
  destruct (run_law kept_schedule) as [[n0 n]|e|h] eqn:Hr; [|done|done]. apply run_law_ok in Hr as [HN Hrun]. cbn [law_facts] in H.
  apply andb_prop in H as [[_ Hret%write_returned_in]%andb_prop _].
  destruct (run_ops [OpSync; OpClose] (wal_ n)) as [r [o1 m1]] eqn:Hops. exists n, r, o1, m1. split; [exact Hret|]. split; [done|].
  refine (power_failure_takes_all ref_host ref_crc32 ref_crc32_spec ref_slice ref_slice_spec ref_yaraft ref_yaraft_spec ref_mem_store
    ref_status_bool ref_boost_fs ref_boost_fs_spec ref_msg law_raft ref_erased_iterator ref_toolchain 7 law_options n0 (os0 [])
    file_manager [] _ n [OpSync; OpClose] r o1 m1 HN eq_refl _ _ _ Hrun Hops).
  - by split.
  - by apply empty_log.
  - constructor.
Defined.

(** ** A follower dies *)

Abbreviation MailNode := (@Node ref_yaraft ref_mem_store ref_msg mail_raft log_manager_wal).
Abbreviation MailSites := (@Sites ref_host ref_crc32 ref_slice ref_yaraft ref_mem_store ref_status_bool ref_boost_fs ref_msg mail_raft).

Definition two : zmap string := [(1, "x:1"); (2, "x:2")].
Definition mail_options (script : list sysres) (id : Z) := bootstrap_options (MSG := ref_msg) two id (os0 script, file_manager) None.

(** The follower has the faults of [script] before it. *)
Definition sites_0 (script : list sysres) : result ErrorCode MailSites :=
  match New (RAFT := mail_raft) 7 (mail_options [] 1), New (RAFT := mail_raft) 8 (mail_options script 2) with
  | Ok leader, Ok follower => Ok (MkSites {["x:1" := MkSite [] leader; "x:2" := MkSite [] follower]} [])
  | _, _ => Err BadConfig
  end.

Lemma sites_0_started script d0 : sites_0 script = Ok d0 -> sites_started (fun _ => []) (fun _ => 0) d0.
Proof.
  unfold sites_0. destruct (New 7 (mail_options [] 1)) as [leader|e|h] eqn:Hl; [|done|done].
  destruct (New 8 (mail_options script 2)) as [follower|e|h] eqn:Hf; [|done|done]. intros [= <-]. split; [done|].
  assert (forall sc this id n, New (RAFT := mail_raft) this (mail_options sc id) = Ok n -> exists this (options : ReplicatedLogOptions (WAL := log_manager_wal)) (o : os) (m : LogManager) wopts,
    opt_taskQueue options = None /\ opt_wal options = Some (o, m) /\ New (RAFT := mail_raft) this options = Ok n /\
    log_rep wopts o m [] 0 /\ fresh_room m) as Hstart.
  { intros sc this id n HN. exists this, (mail_options sc id), (os0 sc), file_manager, (ex_options 6000).
    split_and!; [done|done|done|apply file_manager_rep|apply file_manager_fresh]. }
  intros url s Hs. cbn [sites] in Hs. apply lookup_insert_Some in Hs as [[<- <-]|[_ [<- <-]%lookup_singleton_Some]];
    (split; [done|by eapply Hstart]).
Qed.

Definition at_url (url : string) (cs : list (choice (MSG := ref_msg))) : list (site_choice (MSG := ref_msg)) := SiteLocally url <$> cs.

(** The follower stores the entry, acknowledges it, and starts again; the acknowledgement arrives. *)
Definition crash_schedule : list (site_choice (MSG := ref_msg)) :=
  at_url "x:1" ([ClientWrites [7]] ++ serve_next ++ [WorkerRuns] ++ one_flush) ++
  [SiteDelivers "x:1" 0 0] ++ at_url "x:2" (serve_next ++ one_flush) ++ [SiteRestarts "x:2" 1 9 two 2] ++
  [SiteDelivers "x:2" 0 0] ++ at_url "x:1" (serve_next ++ [CallReturns 3] ++ one_flush ++ [CallReturns 2]).

Definition answered_after_crash (d : MailSites) : bool :=
  match received d with
  | [_; (from, to, m)] => bool_decide (from = "x:2") && bool_decide (to = "x:1") && (rm_to m =? 1) && (rm_index m =? 1)
  | _ => false
  end &&
  match sites d !! "x:1" with Some s => existsb (write_returned 2) (history (alive s)) | None => false end &&
  bool_decide (map_Forall (fun _ s => readys_ok (all_accepted s) = true) (sites d)).

Lemma answered_facts d :
  answered_after_crash d = true ->
  ("x:2", "x:1", MkRefMessage 1 1 : Message) ∈ received d /\
  forall url s, sites d !! url = Some s -> fits 0 (all_accepted s).
Proof.
  unfold answered_after_crash. intros [[H _]%andb_prop Hall%bool_decide_eq_true]%andb_prop. split.
  - destruct (received d) as [|a [|[[from to] [t i]] [|]]]; try done.
    apply andb_prop in H as [[[->%bool_decide_eq_true ->%bool_decide_eq_true]%andb_prop Ht%Z.eqb_eq]%andb_prop Hi%Z.eqb_eq].
    cbn in Ht, Hi. subst. right. by left.
  - intros url s Hs. apply readys_ok_plain. by apply (Hall url).
Qed.


(** ** A follower that does not start at once *)

(** Its log answers well while it runs; of the first two starts one cannot make the directory and
    one cannot read the segment. *)
Definition bad_starts : list sysres := [SysOk; SysOk; SysOk; SysErr 13; SysOk; SysOk; SysOk; SysOk; SysErr 5].

Definition ack_schedule : list (site_choice (MSG := ref_msg)) :=
  at_url "x:1" ([ClientWrites [7]] ++ serve_next ++ [WorkerRuns] ++ one_flush) ++
  [SiteDelivers "x:1" 0 0] ++ at_url "x:2" (serve_next ++ one_flush).

Definition two_starts_fail (d : MailSites) : bool :=
  match sites d !! "x:2" with
  | Some s =>
      match reopen_tries 1 (wal_ (alive s)) with (Err IOError, _) => true | _ => false end &&
      (length (os_script (fst (wal_ (alive s)))) =? 6)%nat &&
      readys_ok (all_accepted s) && (length (mjoin (entries <$> all_accepted s)) =? 1)%nat
  | None => false
  end.

