(* ===== verification/Votes.v ===== *)
(** * A hard state alone is not kept, and a vote is cast twice

    Raft asks a member to have its term and its vote on stable storage before it answers a
    candidate.  The flusher hands them to the log with [Write(hs)], which returns OK and writes
    nothing when there are no entries.  The second part is a member that votes for one candidate,
    dies, starts again and votes for another one in the same term. *)

From S2P Require Import Prelude External Coding Status Posix LogWriter LogManager LogSpec Channel TaskQueue Observer Cluster Node NodeSpec System Reference Durability Process Pipeline Clients Deployment Restarts Witnesses NodeWitnesses ProcessWitnesses.

(** ** The log does not change *)

Section forgotten.
Context {HOST : Host} {CRC : Crc32} {SL : SliceLib} {Y : YaraftPb} {M : MemStoreLib Y}.
Context {SB : StatusBool} {FS : BoostFs} {MSG : YaraftMsg} {RAFT : RaftLib M MSG}.
Context {EI : ErasedIterator} {TC : Toolchain}.

Lemma hard_states_write_nothing (rds : list Ready) w :
  Forall (fun rd => entries rd = []) rds -> wal_writes rds w = (Ok tt, w).
Proof.
  intros Hall. induction Hall as [|rd rds Hrd Hall IH]; [done|]. cbn [wal_writes]. unfold mbind, prog_bind.
  change (wal_Write (entries rd) (hardState rd)) with (Write (entries rd) (hardState rd)). by rewrite Hrd.
Qed.

(** Whatever terms and votes a member without new entries handed to its log, the next process finds what
    this one found. *)
Lemma hard_states_are_forgotten this options n0 w cs n :
  New this options = Ok n0 -> opt_wal options = Some w -> node_run cs n0 = (Ok tt, n) ->
  Forall (fun rd => entries rd = []) (wal_accepted (history n)) -> wal_ n = w.
Proof.
  intros HN Hw Hrun Hall. pose proof (node_run_follows _ _ _ _ (New_follows _ _ _ _ HN Hw) Hrun) as Hf.
  unfold follows in Hf. rewrite hard_states_write_nothing in Hf by done. by injection Hf as ->.
Qed.
End forgotten.

(** ** The voting rule of Raft *)

(** A request of a candidate, or the answer that grants it. *)
Record vote_message := MkVote { v_to : Z; v_from : Z; v_term : Z; v_granted : bool }.

#[export] Instance vote_msg : YaraftMsg := {| Message := vote_message; message_to := v_to; ReadyRest := unit |}.

Record vote_node := MkVoteNode { vo_id : Z; vo_term : Z; vo_vote : Z; vo_answers : list vote_message }.

(** One vote per term, and none for a term that is over. *)
Definition vote_step (m : vote_message) (n : vote_node) : vote_node :=
  if v_granted m || (v_term m <? vo_term n) then n
  else
    let vote := if vo_term n <? v_term m then 0 else vo_vote n in
    if (vote =? 0) || (vote =? v_from m)
    then MkVoteNode (vo_id n) (v_term m) (v_from m) (vo_answers n ++ [MkVote (v_from m) (vo_id n) (v_term m) true])
    else n.

(** The answers go out with the hard state they depend on. *)
Definition vote_ready (n : vote_node) : option Ready * vote_node :=
  match vo_answers n with
  | [] => (None, n)
  | answers =>
      (Some (MkReady ref_yaraft vote_msg 0 answers (Some (mk_hard_state (vo_term n) (vo_vote n) None)) [] tt),
       MkVoteNode (vo_id n) (vo_term n) (vo_vote n) [])
  end.

(** A node starts with the hard state of its storage. *)
#[export] Instance vote_raft : RaftLib ref_mem_store vote_msg := {|
  RawNode := vote_node;
  new_RawNode := fun conf ms =>
    (match rs_hard_state ms with
     | Some h => MkVoteNode (conf_id conf) (rh_term h) (rh_vote h) []
     | None => MkVoteNode (conf_id conf) 0 0 []
     end, ms);
  rn_Id := vo_id;
  rn_IsLeader := fun _ => false;
  rn_LeaderHint := fun _ => 0;
  rn_CurrentTerm := vo_term;
  rn_LastIndex := fun _ => 0;
  rn_Tick := fun s => s;
  rn_Step := fun m s => (None, (vote_step m (fst s), snd s));
  rn_Propose := fun _ s => (Some (OtherYaraftError 7), s);
  rn_GetReady := fun s => let '(rd, n) := vote_ready (fst s) in (rd, (n, snd s));
  rd_Advance := fun rd ms => match hardState rd with Some h => ms_SetHardState ms h | None => ms end;
|}.

(** ** Two lives of a member *)

Abbreviation VoteNode := (@Node ref_yaraft ref_mem_store vote_msg vote_raft log_manager_wal).
Abbreviation VoteSite := (@Site ref_host ref_crc32 ref_slice ref_yaraft ref_mem_store ref_status_bool ref_boost_fs vote_msg vote_raft).

Definition three : zmap string := [(1, "x:1"); (2, "x:2"); (3, "x:3")].

Definition voter_0 : result ErrorCode VoteNode := New (RAFT := vote_raft) 7 (bootstrap_options three 1 (os0 [], file_manager) None).

(** The request of a candidate in term 1, served and flushed to the end. *)
Definition candidate_asks (candidate : Z) : list (choice (MSG := vote_msg)) :=
  [RpcStep (MkVote 1 candidate 1 false : Message); WorkerTests; WorkerTakes 0; WorkerRuns; CallReturns 2;
   FlusherTests; FlusherAsks; WorkerTests; WorkerTakes 0; WorkerRuns; FlusherReturns;
   FlusherFlushes; FlusherFlushes; FlusherFlushes; FlusherFlushes; FlusherFlushes; FlusherEnds].

Definition grants (candidate term : Z) (ev : event (Y := ref_yaraft) (MSG := vote_msg)) : bool :=
  match ev with
  | SentAsFollower rd => existsb (fun m : vote_message => (v_to m =? candidate) && (v_term m =? term) && v_granted m) (messages rd)
  | _ => false
  end.

(** The log accepted a hard state with this vote. *)
Definition stores_vote (candidate term : Z) (ev : event (Y := ref_yaraft) (MSG := vote_msg)) : bool :=
  match ev with
  | WalAccepted rd => match hardState rd with Some h => (rh_vote h =? candidate) && (rh_term h =? term) | None => false end
  | _ => false
  end.

(** The state machine would have refused, had it got its hard state back. *)
Lemma vote_kept conf es h msg :
  v_term msg = rh_term h -> rh_vote h <> 0 -> v_from msg <> rh_vote h ->
  let s := new_RawNode conf (MkRefStore es (Some h)) in snd (rn_Step msg s) = s.
Proof.
  intros Ht Hv Hf. cbn. unfold vote_step. cbn. rewrite Ht, Z.ltb_irrefl, orb_false_r. destruct (v_granted msg); [done|].
  destruct (Z.eqb_spec (rh_vote h) 0) as [He|_]; [by destruct Hv|]. by destruct (Z.eqb_spec (rh_vote h) (v_from msg)) as [He|_]; [destruct Hf|].
Qed.

(** C26: a member may vote for two candidates in one term: it hands its vote for the first to
    its log, which returns OK, and grants it; when it starts again on the same directory
    it grants the vote of the same term to another one.  Its state machine keeps the voting rule,
    also across restarts, when it finds the hard state it handed to the log. *)
Theorem vote_is_cast_twice :
  (forall conf es h (msg : vote_message), v_term msg = rh_term h -> rh_vote h <> 0 -> v_from msg <> rh_vote h ->
     let s := new_RawNode conf (MkRefStore es (Some h)) in snd (rn_Step (msg : Message) s) = s) /\
  exists (n0 n1 : VoteNode) (s1 s2 : VoteSite),
    voter_0 = Ok n0 /\ node_run (candidate_asks 2) n0 = (Ok tt, n1) /\
    restart 0 8 three 1 (MkSite [] n1) = (Ok tt, s1) /\
    zoom alive set_alive (node_run (candidate_asks 3)) s1 = (Ok tt, s2) /\
    existsb (stores_vote 2 1) (history n1) = true /\ existsb (grants 2 1) (history n1) = true /\
    existsb (grants 3 1) (history (alive s2)) = true.
Proof.
  split; [intros conf es h msg; apply vote_kept|].
  assert (match voter_0 with
          | Ok n0 => match node_run (candidate_asks 2) n0 with
                     | (Ok _, n1) =>
                         existsb (stores_vote 2 1) (history n1) && existsb (grants 2 1) (history n1) &&
                         match restart 0 8 three 1 (MkSite [] n1) with
                         | (Ok _, s1) => match zoom alive set_alive (node_run (candidate_asks 3)) s1 with
                                         | (Ok _, s2) => existsb (grants 3 1) (history (alive s2))
                                         | _ => false
                                         end
                         | _ => false
                         end
                     | _ => false
                     end
          | _ => false
          end = true) as H by (vm_compute; reflexivity).
  destruct voter_0 as [n0|e|h]; [|done|done].
  destruct (node_run (candidate_asks 2) n0) as [[[]|e|h] n1] eqn:H1; [|done|done].
  apply andb_prop in H as [[Hs Hg]%andb_prop H]. destruct (restart 0 8 three 1 (MkSite [] n1)) as [[[]|e|h] s1] eqn:Hr; [|done|done].
  destruct (zoom alive set_alive (node_run (candidate_asks 3)) s1) as [[[]|e|h] s2] eqn:H2; [|done|done].
  exists n0, n1, s1, s2. by split_and!.
Qed.
