(* ===== verification/DestructionWitnesses.v ===== *)
(** * Witnesses of the theorems on the destruction of a member *)

From S2P Require Import Prelude External Status Channel TaskQueue Observer Cluster Node NodeSpec Progress Shutdown Reference NodeWitnesses ProcessWitnesses.

Definition quietb {RAFT : RaftLib ref_mem_store ref_msg} (n : Node (RAFT := RAFT) (WAL := ref_wal)) : bool :=
  forallb (fun x => task_thread (snd x) <? 2) (waiting (queue n)).

Lemma quietb_quiet {RAFT : RaftLib ref_mem_store ref_msg} (n : Node (RAFT := RAFT) (WAL := ref_wal)) : quietb n = true -> quiet n.
Proof.
  intros Hq p t Hin%list_elem_of_In. apply (proj1 (forallb_forall _ _) Hq) in Hin. by apply Z.ltb_lt.
Qed.

(** A writer is registered, the timer and the flusher wait for the worker. *)
Definition busy_schedule : list (choice (MSG := ref_msg)) :=
  [ClientWrites [7]] ++ serve_next ++ [WorkerRuns; TimerTests; TimerFires; FlusherTests; FlusherAsks].

Definition busy_ok (r : result ErrorCode CalmNode) : bool :=
  match r with
  | Ok n0 =>
      match node_run busy_schedule n0 with
      | (Ok _, n) => quietb n && match owned_run [Deletes] (MkOwned n Living) with (Ok _, _) => true | _ => false end
      | _ => false
      end
  | _ => false
  end.

Lemma busy_run :
  exists (n0 n : CalmNode) s, New (RAFT := calm_raft) 7 node_options = Ok n0 /\ node_run busy_schedule n0 = (Ok tt, n) /\ quiet n /\
    owned_run [Deletes] (MkOwned n Living) = (Ok tt, s).
Proof.
  assert (busy_ok (New (RAFT := calm_raft) 7 node_options) = true) as H by (vm_compute; reflexivity).
  destruct (New (RAFT := calm_raft) 7 node_options) as [n0|e|h]; [|done|done]. cbn [busy_ok] in H.
  destruct (node_run busy_schedule n0) as [[[]|e|h] n] eqn:Hrun; [|done|done]. apply andb_prop in H as [Hq H].
  destruct (owned_run [Deletes] (MkOwned n Living)) as [[[]|e|h] s] eqn:Hd; [|done|done].
  exists n0, n, s. split_and!; [done|done|by apply quietb_quiet|done].
Qed.

Lemma destruction_completes_witness :
  exists (s : Owned (RAFT := calm_raft) (WAL := ref_wal)) ds' r s', (length ds' <= 28)%nat /\ owned_run ds' s = (r, s') /\
    match r with
    | Ok _ => deleting s' = Gone /\ joinable (flusher_worker_ (flusher_ (member s'))) = false /\
        joinable (timer_worker_ (timer_ (member s'))) = false /\ joinable (worker_ (queue (member s'))) = false
    | Err _ => False
    | Halt h => owned_faulted ds' s h
    end.
Proof.
  destruct busy_run as (n0 & n & s & HN & Hrun & Hq & Hd). exists s.
  exact (destruction_completes ref_yaraft ref_mem_store ref_msg calm_raft ref_wal ref_erased_iterator ref_toolchain
    7 node_options n0 busy_schedule n [] s (fun _ _ => eq_refl) (conj eq_refl (conj eq_refl eq_refl)) HN Hrun Hq calm_codes Hd).
Defined.

(** The threads of that member as they end. *)
Definition ending_schedule : list (owned_choice (MSG := ref_msg)) :=
  [Deletes] ++ (Others <$> [WorkerTests; WorkerTakes 1; WorkerRuns; FlusherReturns; FlusherFlushes; FlusherFlushes; FlusherFlushes; FlusherFlushes; FlusherFlushes; FlusherEnds; FlusherTests]) ++
  [Deletes] ++ (Others <$> serve_next ++ [TimerReturns; TimerEnds; TimerTests]) ++ [Deletes] ++
  (Others <$> [WorkerTests]) ++ [Deletes].

Example busy_member_ends :
  match New (RAFT := calm_raft) 7 node_options with
  | Ok n0 =>
      match owned_run ending_schedule (MkOwned (snd (node_run busy_schedule n0)) Living) with
      | (Ok _, s) => match deleting s with Gone => true | _ => false end
      | _ => false
      end
  | _ => false
  end = true.
Proof. vm_compute. reflexivity. Qed.

(** A member that does not know the peer its messages are for, deleted in the middle of a flush. *)
Definition alone_options : ReplicatedLogOptions (WAL := ref_wal) :=
  MkReplicatedLogOptions (WAL := ref_wal) [(1, "x:1")] 1 100 1000 None None None (Some []) None.

Definition asking_schedule : list (choice (MSG := ref_msg)) :=
  [ClientWrites [7]] ++ serve_next ++ [WorkerRuns; FlusherTests; FlusherAsks] ++ serve_next ++ [FlusherReturns].

Definition alone_ok (r : result ErrorCode CalmNode) : bool :=
  match r with
  | Ok n0 =>
      match node_run asking_schedule n0 with
      | (Ok _, n) => quietb n && match owned_run [Deletes; Others FlusherFlushes] (MkOwned n Living) with (Halt FatalLog, _) => true | _ => false end
      | _ => false
      end
  | _ => false
  end.

(** The step that ends the process is the one of the flusher, on the mail that has no addressee. *)
Lemma destruction_is_safe_witness :
  exists (n : CalmNode) ds1 c ds2 s1, [Others FlusherFlushes] = ds1 ++ Others c :: ds2 /\
    owned_run (Deletes :: ds1) (MkOwned n Living) = (Ok tt, s1) /\ fault c (member s1) FatalLog.
Proof.
  assert (alone_ok (New (RAFT := calm_raft) 7 alone_options) = true) as H by (vm_compute; reflexivity).
  destruct (New (RAFT := calm_raft) 7 alone_options) as [n0|e|h] eqn:HN; [|done|done]. cbn [alone_ok] in H.
  destruct (node_run asking_schedule n0) as [[[]|e|h] n] eqn:Hrun; [|done|done]. apply andb_prop in H as [Hq H].
  destruct (owned_run [Deletes; Others FlusherFlushes] (MkOwned n Living)) as [[[]|e|[]] s] eqn:Hd; try done. exists n.
  exact (destruction_is_safe ref_yaraft ref_mem_store ref_msg calm_raft ref_wal ref_erased_iterator ref_toolchain
    7 alone_options n0 asking_schedule n [Others FlusherFlushes] FatalLog s (fun _ _ => eq_refl) (conj eq_refl (conj eq_refl eq_refl))
    HN Hrun (quietb_quiet n Hq) Hd).
Defined.
